(* ===== verification/_CoqProject ===== *)
-Q . S2P
Prelude.v
Random.v
Persister.v
Raft.v
RaftCluster.v
RaftInv.v
RaftOps.v
RaftSafety.v
RaftElection.v
RaftApply.v
RaftTheorems.v
RaftFindings.v
Labrpc.v
Harness.v
RaftConfig.v
RaftConfigSpec.v
RaftNet.v
RaftNetSim.v
RaftNetTheorems.v
Clerk.v
RaftAgree.v
GoStrings.v
Runes.v
Labgob.v
KvRaft.v
KvConfig.v
KvConfigSpec.v
MasterConfig.v
ShardMaster.v
ShardKv.v
ShardKvSpec.v
ShardConfig.v
ShardConfigSpec.v
Schedule.v
Json.v
MapReduce.v
MapReduceSpec.v
Master.v
Apps.v
Distributed.v
DistributedFiles.v
DistributedSafe.v
DistributedTheorems.v
Commands.v
Bitset.v
Linearizability.v
LinHeap.v
LinSearch.v
LinOrder.v
LinEntries.v
LinTheorems.v
LinModels.v
