(* ===== verification/Prelude.v ===== *)
(** * A verification library for the 6.824 programs (mit6.824/src)

    The repository's Go code is a set of distributed-systems programs and the
    libraries their tests stand on. The parts modelled here, with their files:

    - Raft ([raft/raft.go], [util.go], [persister.go]). [Persister.v] is the
      persister and the contract of encoding/gob; [Raft.v] has the data of
      raft.go, every RPC handler and every piece of the three routines that runs
      under [rf.mu], as functions on the record [Raft]; [RaftCluster.v] puts
      the pieces together: the places where a routine gives up the lock or blocks
      are the constructors of [Routine], a cluster is a list of such
      peers and the RPCs in flight, and [cstep] is one step of one goroutine, one
      delivery, one loss, one timer or one crash and restart. [Random.v] has the
      election timeout, with the random strings and seeds of the other packages.
    - The simulated network ([labrpc/labrpc.go]): [Labrpc.v]. Services, servers,
      [ProcessReq] as a state machine, the calls that reconfigure the network.
    - labgob ([labgob/labgob.go]): [Labgob.v], the walk over the types that
      complains about lower-case fields and the check of decoded values, on runes as
      [Runes.v] decodes them.
    - The test harnesses, all on top of [Labrpc.v] and of what they share
      ([Harness.v]: loops over client ends, rows of ends, slots of persisters):
      [raft/config.go] is [RaftConfig.v] with its properties in
      [RaftConfigSpec.v], and [RaftAgree.v] for [one] and [wait];
      [kvraft/config.go] is [KvConfig.v] with [KvConfigSpec.v], of which
      [shardmaster/config.go] is a copy ([MasterConfig.v]);
      [shardkv/config.go] is [ShardConfig.v] with [ShardConfigSpec.v].
    - Raft, labrpc and the harness together: [RaftNet.v]. The goroutines that call a peer, the
      instances of [ProcessReq], the handlers as methods of a service, the test goroutine with its
      crashes and restarts, and the instances a crash leaves running are one step
      system, which [RaftNetSim.v] relates to [RaftCluster.v].
    - The key-value services: [KvRaft.v] (kvraft, an outline), [ShardMaster.v]
      and [ShardKv.v] with [ShardKvSpec.v] (configurations and shards, the clerks with
      their unbounded retry loops, servers whose handlers are empty). [Clerk.v]
      has what the loops share: interaction trees, their runs against an
      arbitrary environment, and a small logic for safety.
    - MapReduce ([mapreduce/*.go], [main/wc.go], [main/ii.go]): [Schedule.v] is
      the master's task scheduler, [GoStrings.v], [Runes.v] and [Json.v] what the
      tasks use of strconv, unicode/utf8 and encoding/json, [MapReduce.v] the map, reduce and merge
      steps on a file system, [Master.v] a worker's handlers and the master's
      registration list, [Apps.v] the word count and the inverted index.
      [Distributed.v] is the whole job: master, RPC servers, sockets, forwarders,
      scheduler and workers as one step system over those operations.
    - The programs in [main/]: [Commands.v]. wc and ii launch MapReduce; the
      daemons and clients of packages that the repository does not have are interaction trees.
    - The linearizability checker ([linearizability/*.go]): [Bitset.v],
      [Linearizability.v] (histories, entries, the doubly linked list in a heap, the
      search loop), [LinModels.v] (the entry points and the key-value model).

    ** What the theorems show

    Raft ([RaftTheorems.v], from the invariants of [RaftInv.v], [RaftOps.v],
    [RaftSafety.v], [RaftElection.v], [RaftApply.v]). For a cluster of any size and any
    sequence of steps: at most one candidate counts a majority for a term,
    votes are unique per term across crashes, logs keep their shape and what they need is
    durable, no handler panics, messages go out on the apply channel exactly once and in
    the order they are handed over. For each handler: what it answers and does on
    every branch, [AppendEntries] against a reference merge, the back-off index, the
    round trip of the persisted state, and that a leader's commit index is one that a majority of
    its matchIndex have reached when the number of peers is odd. [RaftFindings.v] has
    concrete runs of the model in which the code does not keep Raft's promises:
    a candidate that wins after its term has moved on leads a term it was not
    elected in, an even cluster commits without a majority, two [applyLog]
    goroutines deliver out of order, a delayed [AppendEntries] cuts
    the log, and entries a follower acknowledged are not persisted.

    Raft on the network ([RaftNetTheorems.v], from the simulation of [RaftNetSim.v]). Every run of
    peers, labrpc and harness together is a run of the abstract cluster, whatever is delayed,
    dropped or reordered and whatever old instances do; so at most one current instance counts a majority for a term.
    Every call of a peer finds its method at the service, with arguments of the type it expects.

    labrpc ([Labrpc.v]): at most one execution per request, a positive reply only from
    a server that was registered and reachable when its handler had finished, nothing
    through a dead end, and, while an end stays linked to a server on a reliable network, an
    answer after four turns of the call's own goroutines however other calls, ticks and
    reconfigurations interleave.

    labgob ([Labgob.v]): the walk visits exactly the reachable types, ends on cyclic ones, and
    prints one complaint per lower-case field; decoding counts the non-default leaves.

    The harnesses. Raft's ([RaftConfigSpec.v]): links exist exactly between connected running
    servers, restarts get the last persisted state in a persister that no old
    instance can write, and as long as no apply reader has recorded an error the servers agree on every
    index (a conflicting value is visible from the moment it is written until the reader ends the test); [one]
    returns an index only when enough servers had applied that very command there at a moment of its run, and [wait]
    always returns ([RaftAgree.v]). kvraft's ([KvConfigSpec.v]): [partition] makes exactly the links
    it should, a server that was shut down is not reached and restarts with what
    it had persisted then, [make_partition] puts the leader into a minority (of a true
    partition if n is odd), the shuffle of the handles is uniform. shardkv's
    ([ShardConfigSpec.v]): ends lead to the own group and to the masters and
    carry requests exactly while the server runs, except the ends that the server had made through make_end, which
    stay enabled; the harness works for three servers per group only.

    The clerks. Each operation of the shard master's clerk returns exactly with the first reply
    that is accepted ([ShardMaster.v]). Every request of the sharded clerk goes to a server
    of the group its configuration assigns to the key's shard, it never panics, it returns with the first
    reply it accepts, and it does return if masters and servers answer from some time
    on; with the repository's empty handlers it never returns ([ShardKvSpec.v]).

    MapReduce: the scheduler runs every task to success exactly once, never two at a
    time on one worker, and never panics; it forgets no worker but those that failed, so as long as one
    has not, a call is in flight ([Schedule.v]); a sequential job writes the output of a one-line reference
    ([MapReduceSpec.v]); word count counts words and the inverted index lists documents, if every reduce task gets
    a word ([Apps.v]). The distributed job ([DistributedTheorems.v], from the invariants of
    [DistributedFiles.v] and [DistributedSafe.v]): when it is done its output is that of
    [Sequential], although workers die in the middle of tasks and leave anything in the files of
    these; with distinct names no worker gets a second task while one runs and no
    [log.Fatal] is reached; a worker keeps waiting after its shutdown until
    it has been called once more.

    The programs ([Commands.v]): diskvd starts one server with valid options or prints its
    usage, and the options on the command line are those of the server; wc and ii write the same output file started
    sequentially or distributed.

    The checker: the search answers true exactly when an operation order exists that
    respects real time and the model, and it always ends ([LinHeap.v],
    [LinSearch.v], [LinOrder.v], [LinEntries.v], [LinTheorems.v]); per-key checking
    of the key-value model agrees with that; popcnt, set and clear of the
    bitset do what their names say.

    ** Interfaces

    What a component relies on of another or of a library is a class: [Gob] and
    [LabGob] (encoding/gob, through labgob), [EndNames] (how a package names client ends), [KVCodec] (encoding/json on pairs of valid UTF-8 strings; [jsonCodec] is an
    instance, which replaces invalid bytes by U+FFFD as encoding/json does), [SortByKey] and [SortByTime] (sort.Slice and sort.Sort: sorted permutations, not stable),
    [MapRange] (one execution of a range over a map: each key once, any order; what runs more than once gets a family of
    them, and the MapReduce jobs a family of map functions, one for each call), and the parameters
    [IsLetter] and [IsUpper] (the Unicode tables). The network and the servers a clerk talks to
    are an [Env], a function of the whole trace. Theorems are proved for any instance and
    their witnesses use executable ones.

    ** Integers, fuel and bounds

    [int] values that only count (terms, indices, task numbers) are [Z] without
    wrap-around; where the width matters it is written out (the 32-bit FNV hash, 64-bit words and counts of
    the bitset, [strconv.Atoi], the word counter's sum, the [int32] total of
    labrpc). Out-of-range indices and slices are panics, [None]. Loops that are
    not structural have fuel that is proved to be enough: [checkLoop] is run with [passes]
    of the number of entries, a bound on the search; [jsonStream] and
    [runes] with the length of the input, which each turn shortens;
    [lengthFrom] with the size of the heap; [checkType] with one more than the number of types that are not
    yet marked. Loops without a bound in the code (the clerks, [one]) are interaction trees; [exec] runs them with
    fuel, and what is claimed is that a run returns for some fuel or for none ([returns], [diverges]), or
    holds after every number of steps.

    ** What is not modelled

    Time: a timer may fire at any moment. Goroutine scheduling inside a critical section. In [RaftCluster.v]
    alone a restart replaces the instance that crashed; that the old one keeps running is in [RaftNet.v]. The sharing of one backing array between a log and the
    entries of a request. A harness that connects a server which does not run. I/O errors other than a missing file.
    Of sockets: a dial may fail at any time, the backlog has no limit, and their
    names differ from those of data files. A MapReduce task that is not cut short takes effect in one
    step. The real-time limit on tests. The bodies of the kvraft,
    shardmaster and shardkv servers, which the repository does not have. The programs in C and C++ (DPDK, mini_P2P, mini_rdt).

    ** Planned extensions, in order

    A condition on schedules under which the leaders' logs agree, given the runs of
    [RaftFindings.v]; that a distributed job ends when enough workers live, and that the numbers
    of tasks [killWorkers] collects add up; the remaining theorems of
    [RaftCluster.v] restated for [RaftNet.v]. *)

From stdpp Require Export prelude list strings gmap sorting pretty.
From Stdlib Require Export ZArith Lia.

Open Scope Z_scope.

(** ** Outcomes of Go code

    A Go function that may panic (index out of range, an explicit [panic],
    [log.Fatal]) returns [option]: [None] is the panic. The notation reads
    like the statement it models. *)

Definition obind {A B} (e : option A) (k : A → option B) : option B :=
  match e with Some x => k x | None => None end.

Declare Scope go_scope.
Delimit Scope go_scope with go.
Notation "'let*' x ':=' e 'in' k" := (obind e (λ x, k))
  (at level 10, x name, e at level 100, k at level 200) : go_scope.
Notation "'let*' ' p ':=' e 'in' k" := (obind e (λ p, k))
  (at level 10, p strict pattern, e at level 100, k at level 200) : go_scope.
Notation "'assert*' b 'in' k" := (if b then k else None)
  (at level 10, b at level 100, k at level 200) : go_scope.
Open Scope go_scope.

Lemma obind_Some {A B} (e : option A) (k : A → option B) y :
  obind e k = Some y ↔ ∃ x, e = Some x ∧ k x = Some y.
Proof. destruct e; naive_solver. Qed.

Lemma obind_None {A B} (e : option A) (k : A → option B) :
  obind e k = None ↔ e = None ∨ ∃ x, e = Some x ∧ k x = None.
Proof. destruct e; naive_solver. Qed.

(** ** Go slices

    [s[i]], [s[i] = x], [s[:i]] and [s[i:]] with Go's bounds checks: an
    index or a bound out of range panics. *)

Definition zlen {A} (l : list A) : Z := Z.of_nat (length l).

Definition go_index {A} (l : list A) (i : Z) : option A :=
  if decide (0 ≤ i) then l !! Z.to_nat i else None.

Definition go_update {A} (l : list A) (i : Z) (x : A) : option (list A) :=
  if decide (0 ≤ i < zlen l) then Some (<[Z.to_nat i := x]> l) else None.

Definition go_slice_to {A} (l : list A) (hi : Z) : option (list A) :=
  if decide (0 ≤ hi ≤ zlen l) then Some (take (Z.to_nat hi) l) else None.

Definition go_slice_from {A} (l : list A) (lo : Z) : option (list A) :=
  if decide (0 ≤ lo ≤ zlen l) then Some (drop (Z.to_nat lo) l) else None.

Lemma go_index_Some {A} (l : list A) i x :
  go_index l i = Some x ↔ 0 ≤ i ∧ l !! Z.to_nat i = Some x.
Proof. unfold go_index. case_decide; naive_solver. Qed.

Lemma go_index_lt {A} (l : list A) i x : go_index l i = Some x → 0 ≤ i < zlen l.
Proof. rewrite go_index_Some. intros [? ?%lookup_lt_Some]. unfold zlen. lia. Qed.

Lemma go_index_is_Some {A} (l : list A) i : 0 ≤ i < zlen l → ∃ x, go_index l i = Some x.
Proof.
  unfold zlen. intros. destruct (lookup_lt_is_Some_2 l (Z.to_nat i)) as [x ?]; [lia|].
  exists x. apply go_index_Some. split; [lia|done].
Qed.

Lemma go_index_None {A} (l : list A) i : go_index l i = None ↔ i < 0 ∨ zlen l ≤ i.
Proof.
  unfold go_index, zlen. case_decide.
  - rewrite lookup_ge_None. lia.
  - split; [lia|done].
Qed.

Lemma go_update_Some {A} (l l' : list A) i x :
  go_update l i x = Some l' ↔ 0 ≤ i < zlen l ∧ l' = <[Z.to_nat i := x]> l.
Proof. unfold go_update. case_decide; naive_solver. Qed.

Lemma go_slice_to_Some {A} (l l' : list A) i :
  go_slice_to l i = Some l' ↔ 0 ≤ i ≤ zlen l ∧ l' = take (Z.to_nat i) l.
Proof. unfold go_slice_to. case_decide; naive_solver. Qed.

Lemma go_slice_from_Some {A} (l l' : list A) i :
  go_slice_from l i = Some l' ↔ 0 ≤ i ≤ zlen l ∧ l' = drop (Z.to_nat i) l.
Proof. unfold go_slice_from. case_decide; naive_solver. Qed.

Lemma zlen_app {A} (l k : list A) : zlen (l ++ k) = zlen l + zlen k.
Proof. unfold zlen. rewrite length_app. lia. Qed.

Lemma zlen_nonneg {A} (l : list A) : 0 ≤ zlen l.
Proof. unfold zlen. lia. Qed.

Lemma zlen_take {A} (l : list A) n : zlen (take n l) = Z.min (Z.of_nat n) (zlen l).
Proof. unfold zlen. rewrite length_take. lia. Qed.

Lemma go_index_app_l {A} (l k : list A) i : i < zlen l → go_index (l ++ k) i = go_index l i.
Proof.
  unfold go_index, zlen. intros. case_decide; [|done]. rewrite lookup_app_l; [done|lia].
Qed.

Lemma go_index_app_r {A} (l k : list A) i :
  zlen l ≤ i → go_index (l ++ k) i = go_index k (i - zlen l).
Proof.
  unfold go_index, zlen. intros. rewrite !decide_True by lia.
  rewrite lookup_app_r by lia. f_equal. lia.
Qed.

Lemma go_index_take {A} (l : list A) n i :
  i < Z.of_nat n → go_index (take n l) i = go_index l i.
Proof.
  unfold go_index. intros. case_decide; [|done]. rewrite lookup_take_lt; [done|lia].
Qed.

(** ** Deletion and lists without duplicates *)

Lemma delete_out {A} (l : list A) k : l !! k = None → delete k l = l.
Proof.
  intros Hk%lookup_ge_None. rewrite delete_take_drop, take_ge, drop_ge, app_nil_r; [done|lia..].
Qed.

Lemma NoDup_sub {A} (l k : list A) : l ⊆+ k → NoDup k → NoDup l.
Proof.
  intros (k' & Hk)%submseteq_Permutation Hnd. rewrite Hk in Hnd.
  by apply NoDup_app in Hnd as (? & _ & _).
Qed.

Lemma Forall2_set_r {A B} (P : A → B → Prop) l k i x y :
  Forall2 P l k → l !! i = Some x → P x y → Forall2 P l (<[i := y]> k).
Proof. intros HF Hx Hp. rewrite <-(list_insert_id l i x Hx). by apply Forall2_insert. Qed.

Lemma Forall2_refl {A} (P : relation A) `{!Reflexive P} l : Forall2 P l l.
Proof. by apply Forall_Forall2_diag, Forall_forall. Qed.

(** ** Iteration over a Go map

    [range] over a map visits the entries in any order, which may change from one range to the
    next: what the code may rely on is that each is visited once. An instance is the order of one
    execution of a range statement; code that runs several takes several instances. *)

Class MapRange := {
  rangeMap : ∀ {A}, gmap string A → list (string * A);
  rangeMap_perm : ∀ A (m : gmap string A), rangeMap m ≡ₚ map_to_list m;
}.

Program Definition listRange : MapRange := {| rangeMap := λ A m, map_to_list m |}.
Next Obligation. done. Qed.

(** ** Tactics and hints shared by the components *)

Create HintDb golist.
Create Rewrite HintDb golen.
#[export] Hint Rewrite @zlen_app @zlen_take : golen.
#[export] Hint Resolve zlen_nonneg : golist.

(** Break the hypotheses about a [let*] chain that returned [Some]. *)
Ltac go_inv :=
  repeat match goal with
  | H : obind _ _ = Some _ |- _ =>
      let Hx := fresh "Hx" in apply obind_Some in H as (? & Hx & H); simpl in H
  | H : go_index _ _ = Some _ |- _ => apply go_index_Some in H as [? ?]
  | H : go_update _ _ _ = Some _ |- _ => apply go_update_Some in H as [? ->]
  | H : go_slice_to _ _ = Some _ |- _ => apply go_slice_to_Some in H as [? ->]
  | H : go_slice_from _ _ = Some _ |- _ => apply go_slice_from_Some in H as [? ->]
  | H : (_, _) = (_, _) |- _ => inversion H; subst; clear H
  | H : Some _ = Some _ |- _ => inversion H; subst; clear H
  end.

(** Case analysis on the [if]s and [match]es a Go branch became. *)
Ltac go_cases :=
  repeat (case_match || case_decide || case_bool_decide); simplify_eq/=.
