(* ===== verification/Random.v ===== *)
(** * Random strings, seeds and timeouts

    The helpers that the packages copy from each other: [randstring] and [makeSeed] of the
    config.go files, [nrand] of the client.go files, and the election timeout of raft.go. What
    crypto/rand and math/rand deliver is an argument. *)

From S2P Require Import Prelude.
From Stdlib Require Import Ascii.

(** ** base64.URLEncoding *)

Definition is_byte (z : Z) : Prop := 0 ≤ z < 256.

Definition encodeURL : list ascii :=
  String.list_ascii_of_string "ABCDEFGHIJKLMNOPQRSTUVWXYZabcdefghijklmnopqrstuvwxyz0123456789-_".

Definition sextet (v : Z) : ascii := default "="%char (encodeURL !! Z.to_nat v).

(** Three bytes become four characters; one or two bytes at the end are padded. *)
Fixpoint EncodeToString (src : list Z) : list ascii :=
  match src with
  | b0 :: b1 :: b2 :: src =>
      let val := b0 * 2 ^ 16 + b1 * 2 ^ 8 + b2 in
      [sextet (val / 2 ^ 18 mod 64); sextet (val / 2 ^ 12 mod 64); sextet (val / 2 ^ 6 mod 64); sextet (val mod 64)]
        ++ EncodeToString src
  | [b0; b1] =>
      let val := b0 * 2 ^ 16 + b1 * 2 ^ 8 in
      [sextet (val / 2 ^ 18 mod 64); sextet (val / 2 ^ 12 mod 64); sextet (val / 2 ^ 6 mod 64); "="%char]
  | [b0] =>
      let val := b0 * 2 ^ 16 in [sextet (val / 2 ^ 18 mod 64); sextet (val / 2 ^ 12 mod 64); "="%char; "="%char]
  | [] => []
  end.

(** [b]: the [2*n] bytes that crand.Read fills in. *)
Definition randstring (n : nat) (b : list Z) : option (list ascii) :=
  assert* bool_decide (length b = 2 * n)%nat in go_slice_to (EncodeToString b) (Z.of_nat n).

(** ** crypto/rand.Int below 2^62 *)

(** It reads eight bytes, clears the top two bits, takes the rest as a big-endian number, and would read
    again if that were not below the bound. *)
Definition beValue (b : list Z) : Z := foldl (λ n x, n * 256 + x) 0 b.

Definition randInt62 (b : list Z) : option Z :=
  match b with
  | b0 :: rest =>
      assert* bool_decide (length b = 8%nat) in
      let n := beValue (b0 mod 64 :: rest) in
      assert* bool_decide (n < 2 ^ 62) in Some n
  | [] => None
  end.

(** [bigx.Int64()] *)
Definition makeSeed (b : list Z) : option Z := let* n := randInt62 b in Some ((n + 2 ^ 63) mod 2 ^ 64 - 2 ^ 63).

Definition nrand : list Z → option Z := makeSeed.

(** ** The election timeout, in milliseconds *)

Definition ElectionTimeout : Z := 1000.
Definition HeartBeatTime : Z := 100.

(** [r]: what [rand.Intn(ElectionTimeout)] returns. *)
Definition getElectionTimeout (r : Z) : Z := (r + ElectionTimeout) / 2.

(** ** Facts *)

Lemma quad_inj b0 b1 b2 c0 c1 c2 :
  is_byte b0 → is_byte b1 → is_byte b2 → is_byte c0 → is_byte c1 → is_byte c2 →
  let v := b0 * 2 ^ 16 + b1 * 2 ^ 8 + b2 in let w := c0 * 2 ^ 16 + c1 * 2 ^ 8 + c2 in
  v / 2 ^ 18 mod 64 = w / 2 ^ 18 mod 64 → v / 2 ^ 12 mod 64 = w / 2 ^ 12 mod 64 →
  v / 2 ^ 6 mod 64 = w / 2 ^ 6 mod 64 → v mod 64 = w mod 64 → b0 = c0 ∧ b1 = c1 ∧ b2 = c2.
Proof.
  intros H0 H1 H2 G0 G1 G2 v w E1 E2 E3 E4. unfold is_byte in H0, H1, H2, G0, G1, G2.
  assert (Hsplit : ∀ x, 0 ≤ x < 2 ^ 24 →
    x = (x / 2 ^ 18 mod 64) * 2 ^ 18 + (x / 2 ^ 12 mod 64) * 2 ^ 12 + (x / 2 ^ 6 mod 64) * 2 ^ 6 + x mod 64).
  { clear. intros x Hx. change (2 ^ 24) with 16777216 in Hx. change (2 ^ 18) with 262144.
    change (2 ^ 12) with 4096. change (2 ^ 6) with 64.
    assert (x / 262144 = x / 4096 / 64) by (rewrite Z.div_div; [done|lia..]).
    assert (x / 4096 = x / 64 / 64) by (rewrite Z.div_div; [done|lia..]).
    pose proof (Z.div_mod x 64). pose proof (Z.div_mod (x / 64) 64). pose proof (Z.div_mod (x / 64 / 64) 64).
    assert (x / 262144 mod 64 = x / 262144) by (apply Z.mod_small; split; [apply Z.div_pos; lia|apply Z.div_lt_upper_bound; lia]).
    rewrite H4, H, H0. lia. }
  assert (v = w) as E.
  { rewrite (Hsplit v), (Hsplit w) by (unfold v, w; lia). by rewrite E1, E2, E3, E4. }
  unfold v, w in E. lia.
Qed.

Lemma sextet_inj v w : 0 ≤ v < 64 → 0 ≤ w < 64 → sextet v = sextet w → v = w.
Proof.
  intros Hv Hw E. assert (Hnd : NoDup encodeURL) by (apply (bool_decide_unpack _); vm_compute; exact I).
  unfold sextet in E. change (length encodeURL) with 64%nat in *.
  destruct (lookup_lt_is_Some_2 encodeURL (Z.to_nat v)) as [c Hc]; [simpl; lia|].
  destruct (lookup_lt_is_Some_2 encodeURL (Z.to_nat w)) as [d Hd]; [simpl; lia|].
  rewrite Hc, Hd in E. simpl in E. subst. pose proof (NoDup_lookup _ _ _ _ Hnd Hc Hd). lia.
Qed.

Lemma list_ind3 {A} (P : list A → Prop) :
  P [] → (∀ a, P [a]) → (∀ a b, P [a; b]) → (∀ a b c l, P l → P (a :: b :: c :: l)) → ∀ l, P l.
Proof.
  intros H0 H1 H2 H3. fix IH 1. intros [|a [|b [|c l]]]; [apply H0|apply H1|apply H2|apply H3, IH].
Qed.

Lemma EncodeToString_length b : Z.of_nat (length (EncodeToString b)) = 4 * ((zlen b + 2) / 3).
Proof.
  induction b as [|a|a a'|a a' a'' b IH] using list_ind3; try done.
  simpl. unfold zlen in *. simpl. rewrite !Nat2Z.inj_succ, IH.
  replace (Z.succ (Z.succ (Z.succ (Z.of_nat (length b)))) + 2) with (Z.of_nat (length b) + 2 + 1 * 3) by lia.
  rewrite Z.div_add by lia. lia.
Qed.

Lemma EncodeToString_take k b :
  (3 * k ≤ length b)%nat → take (4 * k) (EncodeToString b) = EncodeToString (take (3 * k) b).
Proof.
  revert b. induction k as [|k IH]; intros b Hk; [done|].
  destruct b as [|a [|a' [|a'' b]]]; simpl in Hk; try lia.
  replace (4 * S k)%nat with (S (S (S (S (4 * k))))) by lia. replace (3 * S k)%nat with (S (S (S (3 * k)))) by lia.
  cbn [EncodeToString take app]. do 4 f_equal. apply IH. lia.
Qed.

Lemma EncodeToString_inj k b c :
  length b = (3 * k)%nat → length c = (3 * k)%nat → Forall is_byte b → Forall is_byte c →
  EncodeToString b = EncodeToString c → b = c.
Proof.
  revert b c. induction k as [|k IH]; intros b c Hb Hc Fb Fc E.
  { apply nil_length_inv in Hb, Hc. by subst. }
  destruct b as [|b0 [|b1 [|b2 b]]]; simpl in Hb; try lia. destruct c as [|c0 [|c1 [|c2 c]]]; simpl in Hc; try lia.
  rewrite !Forall_cons in Fb, Fc. destruct Fb as (? & ? & ? & Fb), Fc as (? & ? & ? & Fc).
  cbn [EncodeToString app] in E. injection E as E1 E2 E3 E4 E.
  apply sextet_inj in E1, E2, E3, E4; try (apply Z.mod_pos_bound; lia).
  destruct (quad_inj b0 b1 b2 c0 c1 c2) as (-> & -> & ->); try done.
  do 3 f_equal. apply (IH b c); [lia|lia|done..].
Qed.

(** The names of client ends, of 20 characters, are made from the first 15 random bytes, and no two
    choices of these give the same name. *)
Theorem randstring_names b c :
  length b = 40%nat → length c = 40%nat → Forall is_byte b → Forall is_byte c →
  (∃ s, randstring 20 b = Some s ∧ length s = 20%nat) ∧
  (randstring 20 b = randstring 20 c ↔ take 15 b = take 15 c).
Proof.
  intros Hb Hc Fb Fc.
  assert (Hr : ∀ x, length x = 40%nat → randstring 20 x = Some (EncodeToString (take 15 x))).
  { intros x Hx. unfold randstring. rewrite bool_decide_true by done. unfold go_slice_to. rewrite decide_True.
    - f_equal. change (Z.to_nat (Z.of_nat 20)) with (4 * 5)%nat. rewrite EncodeToString_take; [done|lia].
    - unfold zlen. rewrite EncodeToString_length. unfold zlen. rewrite Hx. done. }
  rewrite !Hr by done. split.
  - eexists. split; [done|]. apply Nat2Z.inj. rewrite EncodeToString_length. unfold zlen. rewrite length_take, Hb. done.
  - split; [|by intros ->]. intros [= E]. eapply (EncodeToString_inj 5); [| | | |exact E].
    + rewrite length_take, Hb. done.
    + rewrite length_take, Hc. done.
    + by apply Forall_take.
    + by apply Forall_take.
Qed.

Lemma beValue_bound l acc k :
  Forall is_byte l → 0 ≤ acc < k → 0 ≤ foldl (λ n x, n * 256 + x) acc l < k * 256 ^ zlen l.
Proof.
  intros Hl. revert acc k. induction Hl as [|x l Hx _ IH]; intros acc k Hacc; simpl; [unfold zlen; simpl; lia|].
  unfold is_byte in Hx. specialize (IH (acc * 256 + x) (k * 256) ltac:(lia)).
  replace (k * 256 ^ zlen (x :: l)) with (k * 256 * 256 ^ zlen l); [done|].
  unfold zlen. simpl length. rewrite Nat2Z.inj_succ, Z.pow_succ_r by lia. lia.
Qed.

(** A seed is never redrawn and lies in [0, 2^62). *)
Theorem makeSeed_range b :
  length b = 8%nat → Forall is_byte b → ∃ x, makeSeed b = Some x ∧ 0 ≤ x < 2 ^ 62.
Proof.
  intros Hb Fb. destruct b as [|b0 b]; [done|]. apply Forall_cons in Fb as [_ Fb].
  assert (Hr : 0 ≤ beValue (b0 mod 64 :: b) < 2 ^ 62).
  { unfold beValue. simpl. pose proof (beValue_bound b (b0 mod 64) 64 Fb (Z.mod_pos_bound b0 64 ltac:(lia))) as H.
    simpl in Hb. replace (zlen b) with 7 in H by (unfold zlen; lia). change (64 * 256 ^ 7) with (2 ^ 62) in H. done. }
  unfold makeSeed, randInt62. rewrite bool_decide_true by done. rewrite bool_decide_true by lia. simpl.
  eexists. split; [done|]. rewrite Z.mod_small; lia.
Qed.

(** Election timeouts lie between 500 and 999 milliseconds, so several heartbeats fit into one. *)
Theorem election_timeout_range r :
  0 ≤ r < ElectionTimeout → 500 ≤ getElectionTimeout r < 1000 ∧ 5 * HeartBeatTime ≤ getElectionTimeout r.
Proof.
  unfold getElectionTimeout, ElectionTimeout, HeartBeatTime. intros Hr.
  assert (500 ≤ (r + 1000) / 2) by (apply Z.div_le_lower_bound; lia).
  assert ((r + 1000) / 2 < 1000) by (apply Z.div_lt_upper_bound; lia). lia.
Qed.
