(* ===== verification/Persister.v ===== *)
(** * The persister: raft/persister.go

    A mutex-protected pair of byte slices. Every method holds [ps.mu] for its
    whole body, so each is one atomic function on the record. A nil slice and
    an empty slice are both the empty list: the code only ever tests
    [data == nil || len(data) < 1].

    The second half states what Raft relies on of the byte format: the class
    [Gob] is the contract of encoding/gob for one type (a value encoded into a
    buffer decodes to itself, and an encoding is never empty). *)

From S2P Require Import Prelude.
From Stdlib Require Import Strings.Byte.

Notation bytes := (list byte).

Record Persister := mkPersister { raftstate : bytes; snapshot : bytes }.

Definition MakePersister : Persister := mkPersister [] [].

Definition Copy (ps : Persister) : Persister := mkPersister (raftstate ps) (snapshot ps).

Definition SaveRaftState (ps : Persister) (state : bytes) : Persister :=
  mkPersister state (snapshot ps).

Definition ReadRaftState (ps : Persister) : bytes := raftstate ps.

Definition RaftStateSize (ps : Persister) : Z := zlen (raftstate ps).

Definition SaveStateAndSnapshot (ps : Persister) (state snap : bytes) : Persister :=
  mkPersister state snap.

Definition ReadSnapshot (ps : Persister) : bytes := snapshot ps.

Definition SnapshotSize (ps : Persister) : Z := zlen (snapshot ps).

(** ** The gob contract *)

Class Gob (A : Type) := {
  gob_encode : A → bytes;
  gob_decode : bytes → option A;
  gob_decode_encode : ∀ x, gob_decode (gob_encode x) = Some x;
  gob_encode_nonempty : ∀ x, gob_encode x ≠ [];
}.

(** An executable instance for any countable type: the bits of stdpp's
    encoding, one per byte, after a leading mark. It is used to evaluate the
    model on concrete inputs. *)
Fixpoint pos_to_bytes (p : positive) : bytes :=
  match p with
  | xH => [x02]
  | xO p => x00 :: pos_to_bytes p
  | xI p => x01 :: pos_to_bytes p
  end.

Fixpoint pos_of_bytes (b : bytes) : option positive :=
  match b with
  | [x02] => Some xH
  | x00 :: b => xO <$> pos_of_bytes b
  | x01 :: b => xI <$> pos_of_bytes b
  | _ => None
  end.

Lemma pos_of_to_bytes p : pos_of_bytes (pos_to_bytes p) = Some p.
Proof. induction p as [p IH|p IH|]; simpl; [by rewrite IH..|done]. Qed.

Program Definition gob_countable `{Countable A} : Gob A := {|
  gob_encode x := pos_to_bytes (encode x);
  gob_decode b := pos_of_bytes b ≫= decode;
|}.
Next Obligation. intros. simpl. rewrite pos_of_to_bytes. simpl. apply decode_encode. Qed.
Next Obligation. intros A ? ? x. simpl. by destruct (encode x). Qed.
