(* ===== verification/Raft.v ===== *)
(** * A Raft peer: raft/raft.go and raft/util.go

    The state of one peer as the record [Raft], and every operation on it as a
    function. An operation that holds [rf.mu] for its whole body is one
    function; the routines, which take and release the lock several times, are
    cut at the lock and put together as a state machine in [RaftCluster].

    - [int] is [Z]: terms and indices are counters that start at 0 and grow by
      one, so no wrap-around is modelled.
    - [interface{}] holding a command is [option Cmd] with [None] for nil.
    - A [chan struct{}] of capacity 1 is its length, 0 or 1.
    - [applying] holds the goroutines [applyLog] has started and that are
      still sending on [applyCh], each as the messages it has left.
    - [None] is a run-time panic (an index or slice bound out of range). *)

From S2P Require Import Prelude Persister.

(** ** Data *)

Section Data.
Context {Cmd : Type}.

Record ApplyMsg := mkApplyMsg {
  CommandValid : bool;
  Command : option Cmd;
  CommandIndex : Z;
}.

Record LogEntry := mkEntry { Content : option Cmd; TermIdx : Z }.

Record RequestVoteArgs := mkRVArgs {
  rv_Term : Z;
  rv_CandidateId : Z;
  rv_LastLogIndex : Z;
  rv_LastLogTerm : Z;
}.

Record RequestVoteReply := mkRVReply { rvr_Term : Z; rvr_VoteGranted : bool }.

Record AppendEntriesArgs := mkAEArgs {
  ae_Term : Z;
  ae_LeaderId : Z;
  ae_PrevLogIndex : Z;
  ae_PrevLogTerm : Z;
  ae_Entries : list LogEntry;
  ae_LeaderCommit : Z;
}.

Record AppendEntriesReply := mkAEReply {
  aer_Term : Z;
  aer_Success : bool;
  aer_NextIndex : Z;
}.

Record Raft := mkRaft {
  peers : nat;
  me : Z;
  persister : Persister;
  currentTerm : Z;
  votedFor : Z;
  log : list LogEntry;
  commitIndex : Z;
  lastApplied : Z;
  nextIndex : list Z;
  matchIndex : list Z;
  status : Z;
  resetElectionTimer : nat;
  toFollower : nat;
  terminateCh : nat;
  applying : list (list ApplyMsg);
}.

Definition with_persister (x : Persister) (rf : Raft) : Raft :=
  mkRaft (peers rf) (me rf) x (currentTerm rf) (votedFor rf) (log rf) (commitIndex rf)
    (lastApplied rf) (nextIndex rf) (matchIndex rf) (status rf) (resetElectionTimer rf)
    (toFollower rf) (terminateCh rf) (applying rf).
Definition with_currentTerm (x : Z) (rf : Raft) : Raft :=
  mkRaft (peers rf) (me rf) (persister rf) x (votedFor rf) (log rf) (commitIndex rf)
    (lastApplied rf) (nextIndex rf) (matchIndex rf) (status rf) (resetElectionTimer rf)
    (toFollower rf) (terminateCh rf) (applying rf).
Definition with_votedFor (x : Z) (rf : Raft) : Raft :=
  mkRaft (peers rf) (me rf) (persister rf) (currentTerm rf) x (log rf) (commitIndex rf)
    (lastApplied rf) (nextIndex rf) (matchIndex rf) (status rf) (resetElectionTimer rf)
    (toFollower rf) (terminateCh rf) (applying rf).
Definition with_log (x : list LogEntry) (rf : Raft) : Raft :=
  mkRaft (peers rf) (me rf) (persister rf) (currentTerm rf) (votedFor rf) x (commitIndex rf)
    (lastApplied rf) (nextIndex rf) (matchIndex rf) (status rf) (resetElectionTimer rf)
    (toFollower rf) (terminateCh rf) (applying rf).
Definition with_commitIndex (x : Z) (rf : Raft) : Raft :=
  mkRaft (peers rf) (me rf) (persister rf) (currentTerm rf) (votedFor rf) (log rf) x
    (lastApplied rf) (nextIndex rf) (matchIndex rf) (status rf) (resetElectionTimer rf)
    (toFollower rf) (terminateCh rf) (applying rf).
Definition with_lastApplied (x : Z) (rf : Raft) : Raft :=
  mkRaft (peers rf) (me rf) (persister rf) (currentTerm rf) (votedFor rf) (log rf) (commitIndex
    rf) x (nextIndex rf) (matchIndex rf) (status rf) (resetElectionTimer rf) (toFollower rf)
    (terminateCh rf) (applying rf).
Definition with_nextIndex (x : list Z) (rf : Raft) : Raft :=
  mkRaft (peers rf) (me rf) (persister rf) (currentTerm rf) (votedFor rf) (log rf) (commitIndex
    rf) (lastApplied rf) x (matchIndex rf) (status rf) (resetElectionTimer rf) (toFollower rf)
    (terminateCh rf) (applying rf).
Definition with_matchIndex (x : list Z) (rf : Raft) : Raft :=
  mkRaft (peers rf) (me rf) (persister rf) (currentTerm rf) (votedFor rf) (log rf) (commitIndex
    rf) (lastApplied rf) (nextIndex rf) x (status rf) (resetElectionTimer rf) (toFollower rf)
    (terminateCh rf) (applying rf).
Definition with_status (x : Z) (rf : Raft) : Raft :=
  mkRaft (peers rf) (me rf) (persister rf) (currentTerm rf) (votedFor rf) (log rf) (commitIndex
    rf) (lastApplied rf) (nextIndex rf) (matchIndex rf) x (resetElectionTimer rf) (toFollower
    rf) (terminateCh rf) (applying rf).
Definition with_resetElectionTimer (x : nat) (rf : Raft) : Raft :=
  mkRaft (peers rf) (me rf) (persister rf) (currentTerm rf) (votedFor rf) (log rf) (commitIndex
    rf) (lastApplied rf) (nextIndex rf) (matchIndex rf) (status rf) x (toFollower rf)
    (terminateCh rf) (applying rf).
Definition with_toFollower (x : nat) (rf : Raft) : Raft :=
  mkRaft (peers rf) (me rf) (persister rf) (currentTerm rf) (votedFor rf) (log rf) (commitIndex
    rf) (lastApplied rf) (nextIndex rf) (matchIndex rf) (status rf) (resetElectionTimer rf) x
    (terminateCh rf) (applying rf).
Definition with_terminateCh (x : nat) (rf : Raft) : Raft :=
  mkRaft (peers rf) (me rf) (persister rf) (currentTerm rf) (votedFor rf) (log rf) (commitIndex
    rf) (lastApplied rf) (nextIndex rf) (matchIndex rf) (status rf) (resetElectionTimer rf)
    (toFollower rf) x (applying rf).
Definition with_applying (x : list (list ApplyMsg)) (rf : Raft) : Raft :=
  mkRaft (peers rf) (me rf) (persister rf) (currentTerm rf) (votedFor rf) (log rf) (commitIndex
    rf) (lastApplied rf) (nextIndex rf) (matchIndex rf) (status rf) (resetElectionTimer rf)
    (toFollower rf) (terminateCh rf) x.
End Data.

Arguments ApplyMsg : clear implicits.
Arguments LogEntry : clear implicits.
Arguments AppendEntriesArgs : clear implicits.
Arguments Raft : clear implicits.

#[export] Instance LogEntry_eq_dec `{EqDecision Cmd} : EqDecision (LogEntry Cmd).
Proof. solve_decision. Defined.

#[export] Instance LogEntry_countable `{Countable Cmd} : Countable (LogEntry Cmd).
Proof.
  refine (inj_countable' (λ e, (Content e, TermIdx e)) (λ '(x, t), mkEntry x t) _).
  by intros [].
Defined.

(** The values of [status] (raft.go, line 87). *)
Definition Leader : Z := 0.
Definition Candidate : Z := 1.
Definition Follower : Z := 2.

Definition MinOf (a b : Z) : Z := if decide (a < b) then a else b.

(** [sort.Ints]: the ascending order of the same numbers. *)
Definition sort_Ints (l : list Z) : list Z := merge_sort Z.le l.

Section Ops.
Context {Cmd : Type} `{!Gob (Z * Z * list (LogEntry Cmd))}.
Implicit Types (rf : Raft Cmd).

(** ** Persistence and state queries *)

Definition GetState rf : Z * bool := (currentTerm rf, bool_decide (status rf = Leader)).

Definition persist rf : Raft Cmd :=
  with_persister
    (SaveRaftState (persister rf) (gob_encode (currentTerm rf, votedFor rf, log rf))) rf.

Definition readPersist rf (data : bytes) : Raft Cmd :=
  if decide (zlen data < 1) then rf
  else match gob_decode data with
       | None => rf
       | Some (t, v, l) => with_log l (with_votedFor v (with_currentTerm t rf))
       end.

(** ** Election rules *)

Definition logNewer rf (args : RequestVoteArgs) : option bool :=
  let* latest := go_index (log rf) (zlen (log rf) - 1) in
  Some (if decide (rv_LastLogTerm args > TermIdx latest) then true
        else if decide (rv_LastLogTerm args = TermIdx latest)
        then bool_decide (rv_LastLogIndex args + 1 >= zlen (log rf))
        else false).

Definition updateTerm rf (term : Z) : Raft Cmd * bool :=
  if decide (term > currentTerm rf) then
    let rf1 := if decide (status rf ≠ Follower ∧ toFollower rf = 0%nat)
               then with_toFollower 1%nat (with_status Follower rf) else rf in
    (persist (with_votedFor (-1) (with_currentTerm term rf1)), true)
  else (rf, false).

(** [if len(rf.resetElectionTimer) == 0 { rf.resetElectionTimer <- struct{}{} }] *)
Definition pokeTimer rf : Raft Cmd :=
  if decide (resetElectionTimer rf = 0%nat) then with_resetElectionTimer 1%nat rf else rf.

Definition RequestVote rf (args : RequestVoteArgs) : option (Raft Cmd * RequestVoteReply) :=
  let t0 := currentTerm rf in
  let rf := (updateTerm rf (rv_Term args)).1 in
  if decide (rv_Term args < currentTerm rf) then Some (rf, mkRVReply t0 false)
  else if decide (votedFor rf ≠ -1 ∧ votedFor rf ≠ rv_CandidateId args)
  then Some (rf, mkRVReply t0 false)
  else
    let* newer := logNewer rf args in
    if newer then
      Some (pokeTimer (persist (with_votedFor (rv_CandidateId args) rf)), mkRVReply t0 true)
    else Some (rf, mkRVReply t0 false).

(** ** Applying committed entries *)

(** The messages for the [n] indices after [i]: the body of the loop of
    [applyLog], [n] times. *)
Fixpoint collect (l : list (LogEntry Cmd)) (i : Z) (n : nat) : option (list (ApplyMsg Cmd)) :=
  match n with
  | O => Some []
  | S n =>
      let* e := go_index l (i + 1) in
      let* ms := collect l (i + 1) n in
      Some (mkApplyMsg true (Content e) (i + 1) :: ms)
  end.

Definition applyLog rf : option (Raft Cmd) :=
  let n := Z.to_nat (commitIndex rf - lastApplied rf) in
  let* ms := collect (log rf) (lastApplied rf) n in
  Some (with_applying (applying rf ++ [ms])
          (with_lastApplied (lastApplied rf + Z.of_nat n) rf)).

(** ** AppendEntries *)

(** The back-off loop of lines 266-271: from [prevIdx = k - 1] downwards while
    the term is [lastTerm]; the result is [prevIdx + 1]. *)
Fixpoint backOff (l : list (LogEntry Cmd)) (lastTerm : Z) (k : nat) : option Z :=
  match k with
  | O => Some 0
  | S p =>
      let* e := l !! p in
      if decide (TermIdx e = lastTerm) then backOff l lastTerm p else Some (Z.of_nat (S p))
  end.

(** The matching loop of lines 276-281 on what is left of [args.Entries] and
    of the log after [PrevLogIndex]: the final value of [newIdx]. *)
Fixpoint matchLen (es ol : list (LogEntry Cmd)) : nat :=
  match es, ol with
  | e :: es, o :: ol => if decide (TermIdx e = TermIdx o) then S (matchLen es ol) else O
  | _, _ => O
  end.

(** Lines 262-272: the entry at [PrevLogIndex] is missing or has another term. *)
Definition rejectPrev rf (args : AppendEntriesArgs Cmd) : option Z :=
  if decide (zlen (log rf) <= ae_PrevLogIndex args) then Some (zlen (log rf))
  else
    let* e := go_index (log rf) (ae_PrevLogIndex args) in
    backOff (log rf) (TermIdx e) (Z.to_nat (ae_PrevLogIndex args)).

(** Lines 276-292: the entry at [PrevLogIndex] agrees. *)
Definition acceptEntries rf (args : AppendEntriesArgs Cmd) : option (Raft Cmd) :=
  let newIdx := matchLen (ae_Entries args)
                  (drop (Z.to_nat (ae_PrevLogIndex args + 1)) (log rf)) in
  let oldIdx := ae_PrevLogIndex args + 1 + Z.of_nat newIdx in
  let* kept := go_slice_to (log rf) oldIdx in
  let rf := persist (with_log kept rf) in
  let rf := with_log (log rf ++ drop newIdx (ae_Entries args)) rf in
  if decide (ae_LeaderCommit args > commitIndex rf) then
    applyLog (with_commitIndex (MinOf (zlen (log rf) - 1) (ae_LeaderCommit args)) rf)
  else Some rf.

(** The test of line 260. *)
Definition prevMismatch rf (args : AppendEntriesArgs Cmd) : option bool :=
  if decide (zlen (log rf) <= ae_PrevLogIndex args) then Some true
  else
    let* e := go_index (log rf) (ae_PrevLogIndex args) in
    Some (bool_decide (TermIdx e ≠ ae_PrevLogTerm args)).

Definition AppendEntries rf (args : AppendEntriesArgs Cmd)
    : option (Raft Cmd * AppendEntriesReply) :=
  let t0 := currentTerm rf in
  let rf := (updateTerm rf (ae_Term args)).1 in
  if decide (currentTerm rf > ae_Term args) then Some (rf, mkAEReply t0 false (-1))
  else
    let* mismatch := prevMismatch rf args in
    if mismatch then
      let* next := rejectPrev rf args in
      Some (pokeTimer rf, mkAEReply t0 false next)
    else
      let* rf := acceptEntries rf args in
      Some (pokeTimer rf, mkAEReply t0 true 0).

(** ** The client interface *)

Definition Start rf (command : option Cmd) : option (Raft Cmd * (Z * Z * bool)) :=
  let index := zlen (log rf) in
  let term := currentTerm rf in
  let isLeader := bool_decide (status rf = Leader) in
  if isLeader then
    let rf := persist (with_log (log rf ++ [mkEntry command (currentTerm rf)]) rf) in
    let* m := go_index (matchIndex rf) (me rf) in
    let* mi := go_update (matchIndex rf) (me rf) (m + 1) in
    Some (with_matchIndex mi rf, (index, term, isLeader))
  else Some (rf, (index, term, isLeader)).

Definition Kill rf : Raft Cmd :=
  if decide (terminateCh rf = 0%nat) then with_terminateCh 1%nat rf else rf.

(** [Make], up to the start of the routine goroutine. *)
Definition Make (npeers : nat) (self : Z) (ps : Persister) : Raft Cmd :=
  readPersist
    (mkRaft npeers self ps 0 (-1) [mkEntry None 0] 0 0
       (replicate npeers 0) (replicate npeers 0) Follower 0 0 0 [])
    (ReadRaftState ps).

(** ** The critical sections of the routines *)

(** candidateRoutine, lines 462-470. *)
Definition candidateStart rf : option (Raft Cmd * RequestVoteArgs) :=
  let rf := persist (with_votedFor (me rf) (with_currentTerm (currentTerm rf + 1) rf)) in
  let* e := go_index (log rf) (zlen (log rf) - 1) in
  Some (rf, mkRVArgs (currentTerm rf) (me rf) (zlen (log rf) - 1) (TermIdx e)).

(** Stepping down on a reply of a later term: lines 424-427 and 508-511. *)
Definition stepDown rf (term : Z) : Raft Cmd :=
  with_status Follower (persist (with_votedFor (-1) (with_currentTerm term rf))).

(** candidateRoutine, lines 505-514: [true] when the routine returns. *)
Definition candidateReply rf (reply : RequestVoteReply) : Raft Cmd * bool :=
  if decide (currentTerm rf < rvr_Term reply) then (stepDown rf (rvr_Term reply), true)
  else (rf, false).

(** leaderRoutine, lines 359-363. *)
Definition leaderInit rf : option (Raft Cmd) :=
  let* mi := go_update (replicate (peers rf) 0) (me rf) (zlen (log rf) - 1) in
  Some (with_matchIndex mi (with_nextIndex (replicate (peers rf) (zlen (log rf))) rf)).

(** leaderRoutine, lines 384-399: the arguments of one round, one per peer. *)
Definition roundArgs rf (peer : nat) : option (AppendEntriesArgs Cmd) :=
  if decide (Z.of_nat peer = me rf) then
    Some (mkAEArgs (currentTerm rf) (me rf) 0 0 [] 0)
  else
    let* nextIdx := go_index (nextIndex rf) (Z.of_nat peer) in
    let* e := go_index (log rf) (nextIdx - 1) in
    let* es := go_slice_from (log rf) nextIdx in
    Some (mkAEArgs (currentTerm rf) (me rf) (nextIdx - 1) (TermIdx e) es (commitIndex rf)).

Definition leaderRound rf : option (list (AppendEntriesArgs Cmd)) :=
  mapM (roundArgs rf) (seq 0 (peers rf)).

(** leaderRoutine, lines 436-444: advance the commit index. *)
Definition advanceCommit rf : option (Raft Cmd) :=
  let* newCommit := go_index (sort_Ints (matchIndex rf)) (Z.of_nat (peers rf) / 2) in
  let* e := go_index (log rf) newCommit in
  if decide (TermIdx e >= currentTerm rf) then applyLog (with_commitIndex newCommit rf)
  else Some rf.

(** leaderRoutine, lines 420-452: [true] when the routine returns. [args] is
    [args[peer]]. *)
Definition leaderReply rf (args : AppendEntriesArgs Cmd) (peer : Z)
    (reply : AppendEntriesReply) : option (Raft Cmd * bool) :=
  if decide (aer_Term reply > currentTerm rf) then Some (stepDown rf (aer_Term reply), true)
  else if aer_Success reply then
    if decide (zlen (ae_Entries args) ≠ 0) then
      let m := ae_PrevLogIndex args + zlen (ae_Entries args) in
      let* mi := go_update (matchIndex rf) peer m in
      let* ni := go_update (nextIndex rf) peer (m + 1) in
      let* rf := advanceCommit (with_nextIndex ni (with_matchIndex mi rf)) in
      Some (rf, false)
    else Some (rf, false)
  else if decide (aer_NextIndex reply ≠ -1) then
    let* ni := go_update (nextIndex rf) peer (aer_NextIndex reply) in
    Some (with_nextIndex ni rf, false)
  else Some (rf, false).

End Ops.
