(* ===== verification/RaftCluster.v ===== *)
(** * A Raft cluster: the routines of raft.go as a state machine

    [leaderRoutine], [candidateRoutine], [followerRoutine] and the loop of
    [Make] run in one goroutine per peer. Each is cut where it gives up
    [rf.mu] or blocks in a [select]; [Routine] names the places where it can
    stand and carries the local variables that are live there. Whatever runs
    between a [Lock] and the next [Unlock] is one step, so a peer's RPC
    handlers, which hold the lock for their whole body, interleave with the
    routine exactly between those steps.

    The network holds the RPCs in flight. A request may be delivered at any
    time or lost; its reply likewise, and only to the round of the routine
    that is still reading the channel the calling goroutine sends on (a new
    [voteChan] or [appendChan] is made every round). A crash replaces a peer
    by a fresh [Make] on a copy of its persister (raft/config.go, [crash1] and
    [start1]).

    [votes] and [elected] are history variables: they record who granted a
    vote to whom in which term and which candidate counted a majority for
    which term; no step reads them. *)

From S2P Require Import Prelude Persister Raft.

Section Cluster.
Context {Cmd : Type} `{!Gob (Z * Z * list (LogEntry Cmd))}.

(** ** Places of the routine goroutine *)

Inductive Routine :=
  (** followerRoutine: the select of line 543, with [currentTimerId] *)
  | FollowerWait (currentTimerId : nat)
  (** followerRoutine: before the lock of line 546 *)
  | FollowerTimeout
  (** candidateRoutine: the select of line 493, with [args], its round and [grantN] *)
  | CandWait (args : RequestVoteArgs) (round : nat) (grantN : Z)
  (** candidateRoutine: before the lock of line 497 *)
  | CandToFollower
  (** candidateRoutine: before the lock of line 527 *)
  | CandTimeout
  (** candidateRoutine: before the lock of line 505 *)
  | CandReply (args : RequestVoteArgs) (round : nat) (grantN : Z) (peer : nat)
      (reply : RequestVoteReply)
  (** candidateRoutine: a majority is counted, before the lock of line 520 *)
  | CandWon (args : RequestVoteArgs)
  (** leaderRoutine: before the lock of line 381 *)
  | LeadRound
  (** leaderRoutine: the select of line 410, with [args] and its round *)
  | LeadWait (args : list (AppendEntriesArgs Cmd)) (round : nat)
  (** leaderRoutine: before the lock of line 416 *)
  | LeadToFollower
  (** leaderRoutine: before the lock of line 421 *)
  | LeadReply (args : list (AppendEntriesArgs Cmd)) (round : nat) (peer : nat)
      (reply : AppendEntriesReply)
  (** the goroutine has left the loop of [Make] *)
  | Terminated
  (** the process died of a run-time panic *)
  | Panicked.

(** [rounds] numbers the rounds of RPCs the server has started, over all its
    incarnations; [delivered] is what this incarnation has sent on [applyCh]. *)
Record Node := mkNode {
  rf : Raft Cmd;
  rt : Routine;
  rounds : nat;
  delivered : list (ApplyMsg Cmd);
}.

Inductive Packet :=
  | VoteReq (src dst round : nat) (args : RequestVoteArgs)
  | VoteRep (src dst round : nat) (reply : RequestVoteReply)
  | AppReq (src dst round : nat) (args : AppendEntriesArgs Cmd)
  | AppRep (src dst round : nat) (reply : AppendEntriesReply).

(** What a step of a node shows: RPCs it sends and the history events. *)
Inductive Output :=
  | Send (p : Packet)
  | Voted (term candidate : Z)
  | Won (term : Z).

Inductive Res :=
  | Blocked
  | Panic
  | Next (nd : Node) (out : list Output).

Definition orPanic {A} (o : option A) (k : A → Res) : Res :=
  match o with Some x => k x | None => Panic end.

Definition others (self : Z) (n : nat) : list nat :=
  filter (λ p, Z.of_nat p ≠ self) (seq 0 n).

(** ** The routines between two locks *)

(** The head of candidateRoutine's loop: a new term, then one request per
    other peer. *)
Definition runCandidate (nd : Node) (rf : Raft Cmd) : Res :=
  orPanic (candidateStart rf) (λ '(rf', args),
    let r := rounds nd in
    Next (mkNode rf' (CandWait args r 1) (S r) (delivered nd))
      (Voted (rv_Term args) (me rf') ::
       ((λ p, Send (VoteReq (Z.to_nat (me rf')) p r args)) <$> others (me rf') (peers rf')))).

Definition runLeader (nd : Node) (rf : Raft Cmd) : Res :=
  orPanic (leaderInit rf) (λ rf', Next (mkNode rf' LeadRound (rounds nd) (delivered nd)) []).

Definition runFollower (nd : Node) (rf : Raft Cmd) : Res :=
  Next (mkNode rf (FollowerWait 1) (rounds nd) (delivered nd)) [].

(** [switch rf.status] of [Make], with the lock held. *)
Definition enter (nd : Node) (rf : Raft Cmd) : Res :=
  if decide (status rf = Leader) then runLeader nd rf
  else if decide (status rf = Candidate) then runCandidate nd rf
  else if decide (status rf = Follower) then runFollower nd rf
  else Blocked.

(** One round of leaderRoutine, lines 381-407. *)
Definition runRound (nd : Node) : Res :=
  orPanic (leaderRound (rf nd)) (λ args,
    let r := rounds nd in
    Next (mkNode (rf nd) (LeadWait args r) (S r) (delivered nd))
      (omap (λ p, a ← args !! p; Some (Send (AppReq (Z.to_nat (me (rf nd))) p r a)))
         (others (me (rf nd)) (peers (rf nd))))).

(** The critical section the routine goroutine stands before. *)
Definition lockStep (nd : Node) : Res :=
  match rt nd with
  | FollowerTimeout => enter nd (with_status Candidate (rf nd))
  | CandToFollower => enter nd (rf nd)
  | CandTimeout => runCandidate nd (rf nd)
  | CandReply args r grantN _ reply =>
      let '(rf', returns) := candidateReply (rf nd) reply in
      if returns then enter nd rf'
      else if rvr_VoteGranted reply then
        if decide (grantN + 1 > Z.of_nat (peers rf') / 2)
        then Next (mkNode rf' (CandWon args) (rounds nd) (delivered nd)) [Won (rv_Term args)]
        else Next (mkNode rf' (CandWait args r (grantN + 1)) (rounds nd) (delivered nd)) []
      else Next (mkNode rf' (CandWait args r grantN) (rounds nd) (delivered nd)) []
  | CandWon _ => enter nd (with_status Leader (rf nd))
  | LeadRound => runRound nd
  | LeadToFollower => enter nd (rf nd)
  | LeadReply args r peer reply =>
      orPanic (args !! peer ≫= λ a, leaderReply (rf nd) a (Z.of_nat peer) reply)
        (λ '(rf', returns),
          if returns : bool then enter nd rf'
          else Next (mkNode rf' (LeadWait args r) (rounds nd) (delivered nd)) [])
  | _ => Blocked
  end.

(** ** The cases of the selects *)

Definition goto (nd : Node) (rf : Raft Cmd) (r : Routine) : Res :=
  Next (mkNode rf r (rounds nd) (delivered nd)) [].

Definition timerStep (nd : Node) (timerId : nat) : Res :=
  match rt nd with
  | FollowerWait cur =>
      if decide (timerId = cur) then goto nd (rf nd) FollowerTimeout
      else goto nd (rf nd) (FollowerWait cur)
  | CandWait _ _ _ => goto nd (rf nd) CandTimeout
  | LeadWait _ _ => goto nd (rf nd) LeadRound
  | _ => Blocked
  end.

Definition resetStep (nd : Node) : Res :=
  match rt nd, resetElectionTimer (rf nd) with
  | FollowerWait cur, S n => goto nd (with_resetElectionTimer n (rf nd)) (FollowerWait (S cur))
  | _, _ => Blocked
  end.

Definition toFollowerStep (nd : Node) : Res :=
  match rt nd, toFollower (rf nd) with
  | CandWait _ _ _, S n => goto nd (with_toFollower n (rf nd)) CandToFollower
  | LeadWait _ _, S n => goto nd (with_toFollower n (rf nd)) LeadToFollower
  | _, _ => Blocked
  end.

Definition terminateStep (nd : Node) : Res :=
  match rt nd, terminateCh (rf nd) with
  | CandWait _ _ _, S n | LeadWait _ _, S n =>
      goto nd (with_terminateCh n (rf nd)) Terminated
  | _, _ => Blocked
  end.

(** A reply reaches the channel of its round. *)
Definition voteReplyStep (nd : Node) (peer round : nat) (reply : RequestVoteReply) : Res :=
  match rt nd with
  | CandWait args r g =>
      if decide (round = r) then goto nd (rf nd) (CandReply args r g peer reply) else Blocked
  | _ => Blocked
  end.

Definition appendReplyStep (nd : Node) (peer round : nat) (reply : AppendEntriesReply) : Res :=
  match rt nd with
  | LeadWait args r =>
      if decide (round = r) then goto nd (rf nd) (LeadReply args r peer reply) else Blocked
  | _ => Blocked
  end.

(** A goroutine of [applyLog] sends its next message. *)
Definition applySend (nd : Node) (k : nat) : Res :=
  match applying (rf nd) !! k with
  | Some (m :: ms) =>
      Next (mkNode (with_applying (<[k := ms]> (applying (rf nd))) (rf nd)) (rt nd) (rounds nd)
              (delivered nd ++ [m])) []
  | _ => Blocked
  end.

Definition restart (nd : Node) : Node :=
  mkNode (Make (peers (rf nd)) (me (rf nd)) (Copy (persister (rf nd)))) (FollowerWait 1)
    (rounds nd) [].

(** ** The cluster *)

Record Cluster := mkCluster {
  nodes : list Node;
  net : list Packet;
  votes : list (nat * Z * Z);
  elected : list (Z * nat);
}.

Inductive Event :=
  | EvLock (i : nat)
  | EvTimer (i timerId : nat)
  | EvReset (i : nat)
  | EvToFollower (i : nat)
  | EvTerminate (i : nat)
  | EvApply (i k : nat)
  | EvStart (i : nat) (command : option Cmd)
  | EvKill (i : nat)
  | EvRestart (i : nat)
  (** the [k]-th packet in flight is delivered, or lost *)
  | EvDeliver (k : nat)
  | EvDrop (k : nat).

Definition sends (out : list Output) : list Packet :=
  omap (λ o, match o with Send p => Some p | _ => None end) out.

Definition votesOf (i : nat) (out : list Output) : list (nat * Z * Z) :=
  omap (λ o, match o with Voted t c => Some (i, t, c) | _ => None end) out.

Definition winsOf (i : nat) (out : list Output) : list (Z * nat) :=
  omap (λ o, match o with Won t => Some (t, i) | _ => None end) out.

(** Put the outcome of a step of node [i] back into the cluster, with [net]
    what is left of the network. *)
Definition commitRes (c : Cluster) (net' : list Packet) (i : nat) (r : Res) : option Cluster :=
  match r with
  | Blocked => None
  | Panic =>
      nd ← nodes c !! i;
      Some (mkCluster (<[i := mkNode (rf nd) Panicked (rounds nd) (delivered nd)]> (nodes c))
              net' (votes c) (elected c))
  | Next nd out =>
      Some (mkCluster (<[i := nd]> (nodes c)) (sends out ++ net')
              (votesOf i out ++ votes c) (winsOf i out ++ elected c))
  end.

Definition alive (nd : Node) : bool :=
  match rt nd with Panicked => false | _ => true end.

(** The RPC handlers, which run in goroutines of their own. *)
Definition serveVote (nd : Node) (src dst round : nat) (args : RequestVoteArgs) : Res :=
  orPanic (RequestVote (rf nd) args) (λ '(rf', reply),
    Next (mkNode rf' (rt nd) (rounds nd) (delivered nd))
      ((if rvr_VoteGranted reply then [Voted (rv_Term args) (rv_CandidateId args)] else []) ++
       [Send (VoteRep src dst round reply)])).

Definition serveAppend (nd : Node) (src dst round : nat) (args : AppendEntriesArgs Cmd) : Res :=
  orPanic (AppendEntries (rf nd) args) (λ '(rf', reply),
    Next (mkNode rf' (rt nd) (rounds nd) (delivered nd)) [Send (AppRep src dst round reply)]).

(** The node a packet is for and what its arrival does there. *)
Definition target (p : Packet) : nat :=
  match p with
  | VoteReq _ dst _ _ | AppReq _ dst _ _ => dst
  | VoteRep src _ _ _ | AppRep src _ _ _ => src
  end.

Definition arrive (nd : Node) (p : Packet) : Res :=
  match p with
  | VoteReq src dst r args => serveVote nd src dst r args
  | AppReq src dst r args => serveAppend nd src dst r args
  | VoteRep _ dst r reply => voteReplyStep nd dst r reply
  | AppRep _ dst r reply => appendReplyStep nd dst r reply
  end.

(** What node [nd] does on a local event. *)
Definition nodeStep (nd : Node) (e : Event) : Res :=
  match e with
  | EvLock _ => lockStep nd
  | EvTimer _ id => timerStep nd id
  | EvReset _ => resetStep nd
  | EvToFollower _ => toFollowerStep nd
  | EvTerminate _ => terminateStep nd
  | EvApply _ k => applySend nd k
  | EvStart _ cmd =>
      orPanic (Start (rf nd) cmd) (λ '(rf', _),
        Next (mkNode rf' (rt nd) (rounds nd) (delivered nd)) [])
  | EvKill _ => Next (mkNode (Kill (rf nd)) (rt nd) (rounds nd) (delivered nd)) []
  | _ => Blocked
  end.

Definition cstep (c : Cluster) (e : Event) : option Cluster :=
  match e with
  | EvLock i | EvTimer i _ | EvReset i | EvToFollower i | EvTerminate i | EvApply i _
  | EvStart i _ | EvKill i =>
      nd ← nodes c !! i;
      if alive nd then commitRes c (net c) i (nodeStep nd e) else None
  | EvRestart i =>
      nd ← nodes c !! i;
      Some (mkCluster (<[i := restart nd]> (nodes c)) (net c) (votes c) (elected c))
  | EvDeliver k =>
      p ← net c !! k;
      nd ← nodes c !! target p;
      if alive nd then commitRes c (delete k (net c)) (target p) (arrive nd p) else None
  | EvDrop k =>
      _ ← net c !! k;
      Some (mkCluster (nodes c) (delete k (net c)) (votes c) (elected c))
  end.

Definition initNode (n i : nat) : Node :=
  mkNode (Make n (Z.of_nat i) MakePersister) (FollowerWait 1) 0 [].

Definition initCluster (n : nat) : Cluster :=
  mkCluster (initNode n <$> seq 0 n) [] [] [].

(** Executing a schedule; [None] when an event of it is not enabled. *)
Fixpoint crun (c : Cluster) (es : list Event) : option Cluster :=
  match es with
  | [] => Some c
  | e :: es => c' ← cstep c e; crun c' es
  end.

(** A state some schedule leads to. *)
Inductive reachable (n : nat) : Cluster → Prop :=
  | reachable_init : reachable n (initCluster n)
  | reachable_step c c' e : reachable n c → cstep c e = Some c' → reachable n c'.

End Cluster.

Arguments Routine : clear implicits.
Arguments Node : clear implicits.
Arguments Packet : clear implicits.
Arguments Output : clear implicits.
Arguments Res : clear implicits.
Arguments Cluster : clear implicits.
Arguments Event : clear implicits.
