(* ===== verification/RaftInv.v ===== *)
(** * What every operation of a Raft peer preserves

    [raft_ok n i] is the well-formedness of peer [i] of [n]: its identity, the
    shape of its log, and that what a restart would read back from the
    persister is its current term and vote. [advances] is the order in which a
    peer's term and vote may move. Each operation of [Raft] preserves the
    first and moves along the second. *)

From S2P Require Import Prelude Persister Raft.

Section Inv.
Context {Cmd : Type} `{!Gob (Z * Z * list (LogEntry Cmd))}.
Implicit Types (rf : Raft Cmd) (l : list (LogEntry Cmd)).

(** ** Logs *)

(** A log starts with the dummy entry of term 0; the terms of the others are
    at least 1, at most [t], and never decrease. *)
Record log_ok (t : Z) l : Prop := {
  log_ok_head : ∃ e l', l = e :: l' ∧ TermIdx e = 0;
  log_ok_pos : ∀ k e, l !! k = Some e → (0 < k)%nat → 1 ≤ TermIdx e;
  log_ok_max : ∀ k e, l !! k = Some e → TermIdx e ≤ t;
  log_ok_mono : ∀ j k d e, l !! j = Some d → l !! k = Some e → (j ≤ k)%nat → TermIdx d ≤ TermIdx e;
}.

(** What [Make] would restore from these bytes. *)
Definition durable_view (b : bytes) : Z * Z * list (LogEntry Cmd) :=
  let fresh := (0, -1, [mkEntry None 0]) in
  if decide (zlen b < 1) then fresh else default fresh (gob_decode b).

Definition durable rf : Prop :=
  ∃ l, durable_view (raftstate (persister rf)) = (currentTerm rf, votedFor rf, l) ∧
       log_ok (currentTerm rf) l.

Record raft_ok (n i : nat) rf : Prop := {
  ok_peers : peers rf = n;
  ok_me : me rf = Z.of_nat i;
  ok_lt : (i < n)%nat;
  ok_status : status rf = Leader ∨ status rf = Candidate ∨ status rf = Follower;
  ok_term : 0 ≤ currentTerm rf;
  ok_log : log_ok (currentTerm rf) (log rf);
  ok_commit : 0 ≤ commitIndex rf;
  ok_applied : 0 ≤ lastApplied rf;
  ok_next : length (nextIndex rf) = n;
  ok_match : length (matchIndex rf) = n;
  ok_durable : durable rf;
}.

(** ** Terms and votes only move forward *)

Definition advances rf rf' : Prop :=
  currentTerm rf < currentTerm rf' ∨
  (currentTerm rf = currentTerm rf' ∧ (votedFor rf = votedFor rf' ∨ votedFor rf = -1)).

#[export] Instance advances_preorder : PreOrder advances.
Proof. unfold advances. split; [intros ?; lia|intros ???; lia]. Qed.

(** ** Lemmas on logs *)

Lemma log_ok_zlen t l : log_ok t l → 1 ≤ zlen l.
Proof. intros [(e & l' & -> & _) _ _ _]. unfold zlen. simpl. lia. Qed.

Lemma log_ok_weaken t t' l : log_ok t l → t ≤ t' → log_ok t' l.
Proof.
  intros [? ? Hm ?] ?. split; [done..| |done]. intros k e Hk. specialize (Hm k e Hk). lia.
Qed.

Lemma log_ok_init t : 0 ≤ t → log_ok t [mkEntry None 0].
Proof.
  intros Ht. split; simpl.
  - by eexists _, [].
  - intros [|k] ? ? ?; [lia|done].
  - intros [|k] ? ?; by simplify_eq/=.
  - intros [|j] [|k] ? ? ? ? ?; by simplify_eq/=.
Qed.

Lemma log_ok_last t l : log_ok t l → ∃ e, go_index l (zlen l - 1) = Some e.
Proof. intros Hl%log_ok_zlen. apply go_index_is_Some. lia. Qed.

(** A log whose terms agree pointwise with a well-formed one is well-formed. *)
Definition terms l : list Z := TermIdx <$> l.

Lemma terms_lookup l k t : terms l !! k = Some t ↔ ∃ e, l !! k = Some e ∧ TermIdx e = t.
Proof.
  unfold terms. rewrite list_lookup_fmap, fmap_Some.
  split; intros (e & ? & ?); eauto.
Qed.

Lemma log_ok_take t l k : log_ok t l → (0 < k)%nat → log_ok t (take k l).
Proof.
  intros [(e & l' & -> & He) Hp Hm Hs] Hk. split.
  - destruct k; [lia|]. simpl. eauto.
  - intros j d [Hd _]%lookup_take_Some ?. eauto.
  - intros j d [Hd _]%lookup_take_Some. eauto.
  - intros j j' d d' [Hd _]%lookup_take_Some [Hd' _]%lookup_take_Some ?. eauto.
Qed.

(** Entries that can follow a log that ends in term [p]. *)
Record entries_ok (p t : Z) (es : list (LogEntry Cmd)) : Prop := {
  entries_ok_pos : ∀ k e, es !! k = Some e → 1 ≤ TermIdx e;
  entries_ok_min : ∀ k e, es !! k = Some e → p ≤ TermIdx e;
  entries_ok_max : ∀ k e, es !! k = Some e → TermIdx e ≤ t;
  entries_ok_mono : ∀ j k d e, es !! j = Some d → es !! k = Some e → (j ≤ k)%nat →
    TermIdx d ≤ TermIdx e;
}.

Lemma log_ok_app t l es p :
  log_ok t l → entries_ok p t es → (∃ e, last l = Some e ∧ TermIdx e = p) → log_ok t (l ++ es).
Proof.
  intros [(e0 & l' & -> & He) Hp Hm Hs] [Hep Hemin Hemax Hemono] (el & Hlast & Hel).
  rewrite last_lookup in Hlast.
  assert (Hcross : ∀ j k d e, (e0 :: l') !! j = Some d → es !! k = Some e →
    TermIdx d ≤ TermIdx e).
  { intros j k d e Hd Hk. pose proof (lookup_lt_Some _ _ _ Hd). simpl in *.
    pose proof (Hs j (length l') d el Hd Hlast ltac:(lia)). specialize (Hemin k e Hk). lia. }
  split.
  - simpl. eauto.
  - intros k e [Hk|[? Hk]]%lookup_app_Some ?; eauto.
  - intros k e [Hk|[? Hk]]%lookup_app_Some; eauto.
  - intros j k d e [Hj|[? Hj]]%lookup_app_Some [Hk|[? Hk]]%lookup_app_Some ?; eauto.
    + apply lookup_lt_Some in Hk. lia.
    + eapply Hemono; eauto. lia.
Qed.

Lemma log_ok_drop t l k e :
  log_ok t l → (0 < k)%nat → l !! (k - 1)%nat = Some e → entries_ok (TermIdx e) t (drop k l).
Proof.
  intros [_ Hp Hm Hs] Hk He. split.
  - intros j d Hd. rewrite lookup_drop in Hd. eapply Hp; eauto. lia.
  - intros j d Hd. rewrite lookup_drop in Hd. eapply (Hs (k-1)%nat (k + j)%nat); eauto. lia.
  - intros j d Hd. rewrite lookup_drop in Hd. eauto.
  - intros j j' d d' Hd Hd' ?. rewrite lookup_drop in Hd, Hd'. eapply Hs; eauto. lia.
Qed.

Lemma entries_ok_app_drop p t es k :
  entries_ok p t es → entries_ok p t (drop k es).
Proof.
  intros [? ? ? Hm]. split; intros; rewrite lookup_drop in *; eauto.
  eapply Hm; eauto. lia.
Qed.

(** ** The loops of AppendEntries *)

Lemma matchLen_le (es ol : list (LogEntry Cmd)) :
  (matchLen es ol ≤ length es ∧ matchLen es ol ≤ length ol)%nat.
Proof.
  revert ol. induction es as [|e es IH]; intros [|o ol]; simpl; [lia..|].
  specialize (IH ol). case_decide; lia.
Qed.

Lemma matchLen_terms (es ol : list (LogEntry Cmd)) :
  terms (take (matchLen es ol) es) = terms (take (matchLen es ol) ol).
Proof.
  revert ol. induction es as [|e es IH]; intros [|o ol]; simpl; try done.
  case_decide; [|done]. unfold terms in *. csimpl. f_equal; auto.
Qed.

Lemma backOff_spec l t k r :
  (k ≤ length l)%nat → backOff l t k = Some r →
  0 ≤ r ≤ Z.of_nat k ∧
  (∀ j e, r ≤ Z.of_nat j < Z.of_nat k → l !! j = Some e → TermIdx e = t) ∧
  (∀ e, 0 < r → l !! Z.to_nat (r - 1) = Some e → TermIdx e ≠ t).
Proof.
  revert r. induction k as [|k IH]; simpl; intros r Hk H.
  { simplify_eq. split_and!; [lia..|]. lia. }
  apply obind_Some in H as (e & He & H). case_decide; simplify_eq.
  - apply IH in H as (? & Hrun & ?); [|lia]. split_and!; [lia..| |done].
    intros j e' ? Hj. destruct (decide (j = k)) as [->|]; [naive_solver|].
    apply (Hrun j); [lia|done].
  - split_and!; [lia..| |].
    + intros. lia.
    + intros e' _ He'. replace (Z.to_nat _) with k in He' by lia. naive_solver.
Qed.

Lemma backOff_total l t k : (k ≤ length l)%nat → ∃ r, backOff l t k = Some r.
Proof.
  induction k as [|k IH]; simpl; intros Hk; [eauto|].
  destruct (lookup_lt_is_Some_2 l k) as [e He]; [lia|]. rewrite He. simpl.
  case_decide; [apply IH; lia|eauto].
Qed.

(** ** Durability *)

Lemma durable_view_encode x : durable_view (gob_encode x) = x.
Proof.
  unfold durable_view. rewrite decide_False.
  - by rewrite gob_decode_encode.
  - pose proof (gob_encode_nonempty x). destruct (gob_encode x); [done|].
    unfold zlen. simpl. lia.
Qed.

Lemma persist_durable rf : log_ok (currentTerm rf) (log rf) → durable (persist rf).
Proof. intros. exists (log rf). simpl. by rewrite durable_view_encode. Qed.

Lemma Make_view n i ps t v l :
  durable_view (raftstate ps) = (t, v, l) →
  Make n i ps = mkRaft n i ps t v l 0 0 (replicate n 0) (replicate n 0) Follower 0 0 0 [].
Proof.
  unfold durable_view, Make, readPersist, ReadRaftState. intros Hv.
  case_decide; [by simplify_eq|].
  destruct (gob_decode (raftstate ps)) as [[[??]?]|]; by simplify_eq/=.
Qed.

Lemma Make_ok n i ps t v l :
  (i < n)%nat → 0 ≤ t → durable_view (raftstate ps) = (t, v, l) → log_ok t l →
  raft_ok n i (Make n (Z.of_nat i) ps).
Proof.
  intros Hi Ht Hv Hl. rewrite (Make_view _ _ _ _ _ _ Hv).
  split; simpl; rewrite ?length_replicate; try done; [tauto|].
  exists l. simpl. by rewrite Hv.
Qed.

End Inv.
