(* ===== verification/RaftOps.v ===== *)
(** * The operations of a Raft peer: what each does and preserves

    For every operation of [Raft]: it preserves [raft_ok], it moves term and
    vote along [advances], and (for the RPC handlers) it does not panic on the
    messages peers send. The functional specification of each handler is
    stated here too. *)

From S2P Require Import Prelude Persister Raft RaftInv.

Section Ops.
Context {Cmd : Type} `{!Gob (Z * Z * list (LogEntry Cmd))}.
Implicit Types (rf : Raft Cmd) (l es : list (LogEntry Cmd)).

(** Split a [raft_ok] goal about an updated record into its fields. *)
Ltac ok_split H :=
  destruct H as [? ? ? ? ? ? ? ? ? ? ?];
  split; simpl in *; rewrite ?length_insert, ?length_replicate; try done; auto; try lia.

(** ** Terms and votes *)

Lemma persist_ok n i rf : raft_ok n i rf → raft_ok n i (persist rf).
Proof.
  intros H. pose proof (persist_durable rf (ok_log _ _ _ H)). by ok_split H.
Qed.

Lemma newTerm_ok n i rf t v :
  raft_ok n i rf → currentTerm rf ≤ t →
  raft_ok n i (persist (with_votedFor v (with_currentTerm t rf))).
Proof.
  intros H ?.
  assert (Hl : log_ok t (log rf)) by (eapply log_ok_weaken; [apply H|lia]).
  pose proof (persist_durable (with_votedFor v (with_currentTerm t rf)) Hl).
  by ok_split H.
Qed.

Lemma with_status_ok n i rf s :
  raft_ok n i rf → s = Leader ∨ s = Candidate ∨ s = Follower → raft_ok n i (with_status s rf).
Proof. intros H ?. by ok_split H. Qed.

Lemma with_toFollower_ok n i rf k : raft_ok n i rf → raft_ok n i (with_toFollower k rf).
Proof. intros H. by ok_split H. Qed.

Lemma pokeTimer_ok n i rf : raft_ok n i rf → raft_ok n i (pokeTimer rf).
Proof. intros H. unfold pokeTimer. case_decide; [|done]. by ok_split H. Qed.

Lemma pokeTimer_advances rf : advances rf (pokeTimer rf).
Proof. unfold pokeTimer, advances. case_decide; simpl; lia. Qed.

Lemma updateTerm_ok n i rf t : raft_ok n i rf → raft_ok n i (updateTerm rf t).1.
Proof.
  intros H. unfold updateTerm. case_decide; [|done]. simpl. case_decide.
  - apply newTerm_ok; [|simpl; lia]. apply with_toFollower_ok, with_status_ok; auto.
  - apply newTerm_ok; [done|lia].
Qed.

Lemma updateTerm_advances rf t : advances rf (updateTerm rf t).1.
Proof. unfold updateTerm, advances. go_cases; lia. Qed.

Lemma updateTerm_term rf t : currentTerm (updateTerm rf t).1 = Z.max t (currentTerm rf).
Proof. unfold updateTerm. go_cases; lia. Qed.

Lemma updateTerm_log rf t : log (updateTerm rf t).1 = log rf.
Proof. unfold updateTerm. by go_cases. Qed.

Lemma updateTerm_vote rf t :
  votedFor (updateTerm rf t).1 = if decide (t > currentTerm rf) then -1 else votedFor rf.
Proof. unfold updateTerm. by go_cases. Qed.

Lemma updateTerm_commit rf t :
  commitIndex (updateTerm rf t).1 = commitIndex rf ∧
  lastApplied (updateTerm rf t).1 = lastApplied rf ∧
  applying (updateTerm rf t).1 = applying rf ∧
  nextIndex (updateTerm rf t).1 = nextIndex rf.
Proof. unfold updateTerm. by go_cases. Qed.

Lemma stepDown_ok n i rf t :
  raft_ok n i rf → currentTerm rf ≤ t → raft_ok n i (stepDown rf t).
Proof. intros. apply with_status_ok; [|auto]. by apply newTerm_ok. Qed.

Lemma candidateStart_ok n i rf rf' args :
  raft_ok n i rf → candidateStart rf = Some (rf', args) → raft_ok n i rf'.
Proof.
  unfold candidateStart. intros H Hc. go_inv. apply newTerm_ok; [done|lia].
Qed.

(** ** RequestVote *)

Lemma RequestVote_ok n i rf args rf' reply :
  raft_ok n i rf → RequestVote rf args = Some (rf', reply) → raft_ok n i rf'.
Proof.
  intros Hok H. pose proof (updateTerm_ok n i rf (rv_Term args) Hok) as Hu.
  unfold RequestVote in H. case_decide; [by simplify_eq|].
  case_decide; [by simplify_eq|]. apply obind_Some in H as (b & _ & H).
  destruct b; simplify_eq; [|done].
  apply pokeTimer_ok.
  destruct Hu. eapply (newTerm_ok _ _ (updateTerm rf (rv_Term args)).1
    (currentTerm (updateTerm rf (rv_Term args)).1)); [by split|lia].
Qed.

Lemma RequestVote_advances rf args rf' reply :
  RequestVote rf args = Some (rf', reply) → advances rf rf'.
Proof.
  intros H. etrans; [apply (updateTerm_advances rf (rv_Term args))|].
  unfold RequestVote in H. case_decide; [by simplify_eq|].
  case_decide as Hv; [by simplify_eq|]. apply obind_Some in H as (b & _ & H).
  destruct b; simplify_eq; [|done].
  etrans; [|apply pokeTimer_advances]. unfold advances. simpl. right.
  destruct (decide (votedFor (updateTerm rf (rv_Term args)).1 = -1)); [tauto|].
  split; [done|]. left. by destruct (decide
    (votedFor (updateTerm rf (rv_Term args)).1 = rv_CandidateId args)); [|tauto].
Qed.

(** A granted vote is the voter's vote of the candidate's term. *)
Lemma RequestVote_granted rf args rf' reply :
  RequestVote rf args = Some (rf', reply) → rvr_VoteGranted reply = true →
  currentTerm rf' = rv_Term args ∧ votedFor rf' = rv_CandidateId args.
Proof.
  intros H Hg. unfold RequestVote in H. case_decide as Ht; [by simplify_eq|].
  case_decide as Hv; [by simplify_eq|]. apply obind_Some in H as (b & _ & H).
  destruct b; simplify_eq/=. rewrite updateTerm_term in Ht.
  unfold pokeTimer. case_decide; simpl; rewrite updateTerm_term; lia.
Qed.

Lemma logNewer_total n i rf args : raft_ok n i rf → ∃ b, logNewer rf args = Some b.
Proof.
  intros Hok. unfold logNewer.
  destruct (log_ok_last _ _ (ok_log _ _ _ Hok)) as [e ->]. simpl. eauto.
Qed.

Lemma RequestVote_total n i rf args :
  raft_ok n i rf → ∃ rf' reply, RequestVote rf args = Some (rf', reply).
Proof.
  intros Hok. unfold RequestVote. case_decide; [eauto|]. case_decide; [eauto|].
  destruct (logNewer_total n i (updateTerm rf (rv_Term args)).1 args) as [b ->].
  { by apply updateTerm_ok. }
  simpl. destruct b; eauto.
Qed.

(** ** applyLog *)

Lemma collect_spec l j n ms :
  collect l j n = Some ms →
  length ms = n ∧
  ∀ k, (k < n)%nat → ∃ e, go_index l (j + 1 + Z.of_nat k) = Some e ∧
    ms !! k = Some (mkApplyMsg true (Content e) (j + 1 + Z.of_nat k)).
Proof.
  revert j ms. induction n as [|n IH]; simpl; intros j ms H.
  { simplify_eq. split; [done|lia]. }
  apply obind_Some in H as (e & He & H). apply obind_Some in H as (ms' & Hms & H). simplify_eq.
  apply IH in Hms as [Hlen Hms]. split; [simpl; lia|].
  intros [|k] Hk.
  - exists e. rewrite Z.add_0_r. done.
  - destruct (Hms k) as (e' & ? & ?); [lia|]. exists e'. simpl.
    replace (j + 1 + Z.of_nat (S k)) with (j + 1 + 1 + Z.of_nat k) by lia. done.
Qed.

Lemma collect_total l j n :
  -1 ≤ j → j + Z.of_nat n < zlen l → ∃ ms, collect l j n = Some ms.
Proof.
  revert j. induction n as [|n IH]; simpl; intros j ? ?; [eauto|].
  destruct (go_index_is_Some l (j + 1)) as [e ->]; [lia|]. simpl.
  destruct (IH (j + 1)) as [ms ->]; [lia..|]. simpl. eauto.
Qed.

Lemma applyLog_frame rf rf' :
  applyLog rf = Some rf' →
  ∃ ms, collect (log rf) (lastApplied rf) (Z.to_nat (commitIndex rf - lastApplied rf)) = Some ms ∧
    rf' = with_applying (applying rf ++ [ms])
            (with_lastApplied (Z.max (lastApplied rf) (commitIndex rf)) rf).
Proof.
  unfold applyLog. intros (ms & Hms & H)%obind_Some. simplify_eq. exists ms.
  split; [done|]. do 2 f_equal. lia.
Qed.

Lemma applyLog_ok n i rf rf' : raft_ok n i rf → applyLog rf = Some rf' → raft_ok n i rf'.
Proof. intros H (ms & _ & ->)%applyLog_frame. by ok_split H. Qed.

Lemma applyLog_total rf :
  0 ≤ lastApplied rf → commitIndex rf < zlen (log rf) → ∃ rf', applyLog rf = Some rf'.
Proof.
  intros. unfold applyLog.
  destruct (decide (lastApplied rf < commitIndex rf)).
  - destruct (collect_total (log rf) (lastApplied rf)
      (Z.to_nat (commitIndex rf - lastApplied rf))) as [ms ->]; [lia..|]. simpl. eauto.
  - replace (Z.to_nat _) with 0%nat by lia. simpl. eauto.
Qed.

(** ** AppendEntries *)

(** What the arguments of a leader's request satisfy. *)
Record ae_ok (args : AppendEntriesArgs Cmd) : Prop := {
  ae_ok_prev : 0 ≤ ae_PrevLogIndex args;
  ae_ok_zero : ae_PrevLogIndex args = 0 → ae_PrevLogTerm args = 0;
  ae_ok_entries : entries_ok (ae_PrevLogTerm args) (ae_Term args) (ae_Entries args);
}.

(** The log after a successful AppendEntries. *)
Definition merged l (prev : nat) es : list (LogEntry Cmd) :=
  let m := matchLen es (drop (S prev) l) in take (S prev + m) l ++ drop m es.

Lemma merged_last l prev es e :
  l !! prev = Some e →
  let m := matchLen es (drop (S prev) l) in
  ∃ d, last (take (S prev + m) l) = Some d ∧
    match m with
    | O => d = e
    | S m' => ∃ d', es !! m' = Some d' ∧ TermIdx d' = TermIdx d
    end.
Proof.
  intros He m. pose proof (lookup_lt_Some _ _ _ He).
  pose proof (matchLen_le es (drop (S prev) l)) as [Hm1 Hm2]. rewrite length_drop in Hm2.
  fold m in Hm1, Hm2.
  destruct (lookup_lt_is_Some_2 l (prev + m)) as [d Hd]; [lia|].
  exists d. rewrite last_lookup, length_take_le by lia.
  rewrite lookup_take_lt by lia. replace (pred (S prev + m)) with (prev + m)%nat by lia.
  split; [done|]. destruct m as [|m'] eqn:Em.
  { rewrite Nat.add_0_r in Hd. naive_solver. }
  pose proof (matchLen_terms es (drop (S prev) l)) as Ht. fold m in Ht.
  apply (f_equal (.!! m')) in Ht.
  assert (terms (take m (drop (S prev) l)) !! m' = Some (TermIdx d)) as Hr.
  { apply terms_lookup. exists d. split; [|done]. rewrite lookup_take_lt, lookup_drop by lia.
    by replace (S prev + m')%nat with (prev + S m')%nat by lia. }
  rewrite Hr in Ht. apply terms_lookup in Ht as (d' & [Hd' _]%lookup_take_Some & ?). eauto.
Qed.

Lemma merged_ok t l prev es e :
  log_ok t l → l !! prev = Some e → entries_ok (TermIdx e) t es → log_ok t (merged l prev es).
Proof.
  intros Hl He Hes. unfold merged.
  destruct (merged_last l prev es e He) as (d & Hlast & Hd).
  set (m := matchLen es (drop (S prev) l)) in *.
  apply (log_ok_app _ _ _ (TermIdx d)); [apply log_ok_take; [done|lia]| |eauto].
  pose proof (entries_ok_app_drop _ _ _ m Hes) as [Hp Hmin Hmax Hmono].
  split; [done| |done|done]. destruct m as [|m']; [by subst|].
  destruct Hd as (d' & Hd' & <-). intros k f Hk. rewrite lookup_drop in Hk.
  destruct Hes as [_ _ _ Hs]. eapply (Hs m' (S m' + k)%nat); eauto. lia.
Qed.

Lemma merged_length l prev es e :
  l !! prev = Some e → length (merged l prev es) = (S prev + length es)%nat.
Proof.
  intros He%lookup_lt_Some. unfold merged.
  pose proof (matchLen_le es (drop (S prev) l)) as [Hm1 Hm2]. rewrite length_drop in Hm2.
  rewrite length_app, length_take_le, length_drop by lia. lia.
Qed.

(** The case analysis behind every fact about [acceptEntries]. *)
Lemma acceptEntries_cases rf args rf' e :
  go_index (log rf) (ae_PrevLogIndex args) = Some e →
  acceptEntries rf args = Some rf' →
  let prev := Z.to_nat (ae_PrevLogIndex args) in
  let l' := merged (log rf) prev (ae_Entries args) in
  let kept := take (S prev + matchLen (ae_Entries args) (drop (S prev) (log rf))) (log rf) in
  let rf1 := with_log l' (persist (with_log kept rf)) in
  if decide (ae_LeaderCommit args > commitIndex rf)
  then applyLog (with_commitIndex (MinOf (zlen l' - 1) (ae_LeaderCommit args)) rf1) = Some rf'
  else rf' = rf1.
Proof.
  intros [Hge He]%go_index_Some H prev l' kept rf1. unfold acceptEntries in H.
  apply obind_Some in H as (k & [Hb Hk]%go_slice_to_Some & H).
  assert (Z.to_nat (ae_PrevLogIndex args + 1) = S prev) as Hp by lia. rewrite Hp in *.
  assert (k = kept) as ->. { subst k kept. f_equal. lia. }
  change (log (persist (with_log kept rf))) with kept in H. simpl in H.
  change (kept ++ _) with l' in H. case_decide; [done|by simplify_eq].
Qed.

Lemma acceptEntries_ok n i rf args rf' e :
  raft_ok n i rf → ae_ok args → currentTerm rf = ae_Term args →
  go_index (log rf) (ae_PrevLogIndex args) = Some e → TermIdx e = ae_PrevLogTerm args →
  acceptEntries rf args = Some rf' → raft_ok n i rf'.
Proof.
  intros Hok Hae Ht He Hterm H.
  pose proof (acceptEntries_cases _ _ _ _ He H) as Hc. simpl in Hc.
  apply go_index_Some in He as [? He].
  set (prev := Z.to_nat (ae_PrevLogIndex args)) in *.
  set (l' := merged (log rf) prev (ae_Entries args)) in *.
  set (kept := take _ (log rf)) in *.
  assert (Hl' : log_ok (currentTerm rf) l').
  { eapply merged_ok; [apply Hok|done|]. rewrite Hterm, Ht. apply Hae. }
  assert (Hkept : log_ok (currentTerm rf) kept).
  { apply log_ok_take; [apply Hok|lia]. }
  assert (Hrf1 : raft_ok n i (with_log l' (persist (with_log kept rf)))).
  { pose proof (persist_durable (with_log kept rf) Hkept). clear Hc H. by ok_split Hok. }
  case_decide; [|by subst].
  apply (applyLog_ok n i) in Hc; [done|].
  pose proof (log_ok_zlen _ _ Hl'). pose proof (ok_commit _ _ _ Hok).
  clear Hc H. ok_split Hrf1. unfold MinOf. case_decide; lia.
Qed.

Lemma applyLog_vote rf rf' :
  applyLog rf = Some rf' → currentTerm rf' = currentTerm rf ∧ votedFor rf' = votedFor rf.
Proof. by intros (ms & _ & ->)%applyLog_frame. Qed.

Lemma acceptEntries_vote rf args rf' :
  acceptEntries rf args = Some rf' → currentTerm rf' = currentTerm rf ∧ votedFor rf' = votedFor rf.
Proof.
  unfold acceptEntries. intros (k & _ & H)%obind_Some.
  case_decide; [by apply applyLog_vote in H|by simplify_eq].
Qed.

Lemma prevMismatch_false rf args :
  prevMismatch rf args = Some false →
  ∃ e, go_index (log rf) (ae_PrevLogIndex args) = Some e ∧ TermIdx e = ae_PrevLogTerm args.
Proof.
  unfold prevMismatch. case_decide; [done|]. intros (e & He & Heq)%obind_Some.
  exists e. split; [done|]. by case_bool_decide.
Qed.

Lemma AppendEntries_ok n i rf args rf' reply :
  raft_ok n i rf → ae_ok args → AppendEntries rf args = Some (rf', reply) → raft_ok n i rf'.
Proof.
  intros Hok Hae H. pose proof (updateTerm_ok n i rf (ae_Term args) Hok) as Hu.
  unfold AppendEntries in H. case_decide as Ht; [by simplify_eq|].
  rewrite updateTerm_term in Ht.
  apply obind_Some in H as ([] & Hm & H); apply obind_Some in H as (x & Hx & H); simplify_eq;
    apply pokeTimer_ok; [done|].
  apply prevMismatch_false in Hm as (e & He & Hte).
  eapply (acceptEntries_ok n i _ args); eauto. rewrite updateTerm_term. lia.
Qed.

Lemma AppendEntries_advances rf args rf' reply :
  AppendEntries rf args = Some (rf', reply) → advances rf rf'.
Proof.
  intros H. etrans; [apply (updateTerm_advances rf (ae_Term args))|].
  unfold AppendEntries in H. case_decide as Ht; [by simplify_eq|].
  apply obind_Some in H as ([] & Hm & H); apply obind_Some in H as (x & Hx & H); simplify_eq.
  - apply pokeTimer_advances.
  - etrans; [|apply pokeTimer_advances]. apply acceptEntries_vote in Hx as [? ?].
    right. auto.
Qed.

Lemma acceptEntries_total n i rf args e :
  raft_ok n i rf → go_index (log rf) (ae_PrevLogIndex args) = Some e →
  ∃ rf', acceptEntries rf args = Some rf'.
Proof.
  intros Hok He. apply go_index_Some in He as [? He].
  pose proof (merged_length (log rf) _ (ae_Entries args) _ He) as Hlen.
  pose proof (lookup_lt_Some _ _ _ He).
  pose proof (matchLen_le (ae_Entries args)
    (drop (Z.to_nat (ae_PrevLogIndex args + 1)) (log rf))) as [? Hm].
  rewrite length_drop in Hm. unfold acceptEntries, go_slice_to, zlen.
  rewrite decide_True by lia. simpl. case_decide; [|eauto].
  apply applyLog_total; simpl; [apply Hok|]. unfold MinOf, zlen. case_decide; lia.
Qed.

Lemma AppendEntries_total n i rf args :
  raft_ok n i rf → ae_ok args → ∃ rf' reply, AppendEntries rf args = Some (rf', reply).
Proof.
  intros Hok Hae. pose proof (updateTerm_ok n i rf (ae_Term args) Hok) as Hu.
  unfold AppendEntries. case_decide; [eauto|].
  set (rf1 := (updateTerm rf (ae_Term args)).1) in *.
  pose proof (ae_ok_prev _ Hae). unfold prevMismatch, rejectPrev. case_decide.
  { simpl. eauto. }
  destruct (go_index_is_Some (log rf1) (ae_PrevLogIndex args)) as [e He]; [lia|].
  rewrite He. simpl. case_bool_decide.
  - destruct (backOff_total (log rf1) (TermIdx e) (Z.to_nat (ae_PrevLogIndex args))) as [r ->].
    { apply go_index_lt in He. unfold zlen in He. lia. }
    simpl. eauto.
  - destruct (acceptEntries_total n i rf1 args e) as [rf' ->]; [done..|]. simpl. eauto.
Qed.

(** The index a follower asks for is usable: at least 1. *)
Lemma AppendEntries_next n i rf args rf' reply :
  raft_ok n i rf → ae_ok args → AppendEntries rf args = Some (rf', reply) →
  aer_Success reply = false → aer_NextIndex reply = -1 ∨ 1 ≤ aer_NextIndex reply.
Proof.
  intros Hok Hae H Hf. pose proof (updateTerm_ok n i rf (ae_Term args) Hok) as Hu.
  unfold AppendEntries in H. case_decide as Ht; [simplify_eq/=; auto|].
  set (rf1 := (updateTerm rf (ae_Term args)).1) in *.
  apply obind_Some in H as ([] & Hm & H); apply obind_Some in H as (x & Hx & H); simplify_eq/=.
  right. pose proof (log_ok_zlen _ _ (ok_log _ _ _ Hu)). unfold rejectPrev in Hx.
  unfold prevMismatch in Hm. case_decide; [simplify_eq; lia|].
  apply obind_Some in Hx as (e & He & Hx). rewrite He in Hm. simplify_eq/=.
  apply bool_decide_eq_true in Hm. apply go_index_Some in He as [? He].
  pose proof (lookup_lt_Some _ _ _ He).
  apply backOff_spec in Hx as (? & Hrun & _); [|lia].
  destruct (ok_log _ _ _ Hu) as [(e0 & l0 & Hl0 & He0) Hpos _ _].
  destruct (decide (x = 0)) as [->|]; [exfalso|lia].
  assert (0 < ae_PrevLogIndex args).
  { destruct (decide (ae_PrevLogIndex args = 0)) as [Hz|]; [|lia].
    pose proof (ae_ok_zero _ Hae Hz). rewrite Hz, Hl0 in He. simpl in He. simplify_eq. congruence. }
  assert (TermIdx e0 = TermIdx e) by (apply (Hrun 0%nat); [lia|by rewrite Hl0]).
  pose proof (Hpos _ _ He ltac:(lia)). lia.
Qed.

(** The handlers never make a follower anything else, and leave the leader's
    indices alone. *)
Definition calm rf rf' : Prop :=
  (status rf' = status rf ∨ status rf' = Follower) ∧ nextIndex rf' = nextIndex rf.

#[export] Instance calm_preorder : PreOrder calm.
Proof.
  unfold calm. split; [intros ?; auto|].
  intros x y z [Hs Hn] [Hs' Hn']. split; [|congruence].
  destruct Hs as [<-|Hs], Hs' as [Hs'|Hs']; auto. right. congruence.
Qed.

Lemma updateTerm_calm rf t : calm rf (updateTerm rf t).1.
Proof. unfold calm, updateTerm. go_cases; auto. Qed.

Lemma pokeTimer_calm rf : calm rf (pokeTimer rf).
Proof. unfold calm, pokeTimer. go_cases; auto. Qed.

Lemma acceptEntries_calm rf args rf' : acceptEntries rf args = Some rf' → calm rf rf'.
Proof.
  unfold acceptEntries. intros (k & _ & H)%obind_Some.
  case_decide; [|simplify_eq; by split; [left|]].
  apply applyLog_frame in H as (ms & _ & ->). by split; [left|].
Qed.

Lemma RequestVote_calm rf args rf' reply :
  RequestVote rf args = Some (rf', reply) → calm rf rf'.
Proof.
  intros H. etrans; [apply (updateTerm_calm rf (rv_Term args))|].
  unfold RequestVote in H. case_decide; [by simplify_eq|].
  case_decide; [by simplify_eq|]. apply obind_Some in H as ([] & _ & H); simplify_eq; [|done].
  etrans; [|apply pokeTimer_calm]. by split; [left|].
Qed.

Lemma AppendEntries_calm rf args rf' reply :
  AppendEntries rf args = Some (rf', reply) → calm rf rf'.
Proof.
  intros H. etrans; [apply (updateTerm_calm rf (ae_Term args))|].
  unfold AppendEntries in H. case_decide; [by simplify_eq|].
  apply obind_Some in H as ([] & _ & H); apply obind_Some in H as (x & Hx & H); simplify_eq.
  - apply pokeTimer_calm.
  - etrans; [by eapply acceptEntries_calm|apply pokeTimer_calm].
Qed.

(** ** The leader *)

Lemma leaderInit_ok n i rf rf' :
  raft_ok n i rf → leaderInit rf = Some rf' →
  raft_ok n i rf' ∧ Forall (λ x, 1 ≤ x) (nextIndex rf') ∧ advances rf rf'.
Proof.
  unfold leaderInit. intros Hok (mi & [Hge1 ->]%go_update_Some & H)%obind_Some. simplify_eq.
  split_and!; [by ok_split Hok| |right; auto]. simpl.
  apply Forall_replicate, (log_ok_zlen _ _ (ok_log _ _ _ Hok)).
Qed.

Lemma roundArgs_ok n i rf p args :
  raft_ok n i rf → Forall (λ x, 1 ≤ x) (nextIndex rf) → Z.of_nat p ≠ me rf →
  roundArgs rf p = Some args → ae_ok args.
Proof.
  intros Hok Hnext Hp H. unfold roundArgs in H. rewrite decide_False in H by done.
  apply obind_Some in H as (nx & [Hge1 Hnx]%go_index_Some & H).
  apply obind_Some in H as (e & [Hge2 He]%go_index_Some & H).
  apply obind_Some in H as (es & [Hge3 ->]%go_slice_from_Some & H). simplify_eq.
  rewrite Forall_lookup in Hnext. pose proof (Hnext _ _ Hnx).
  split; simpl; [lia| |].
  - intros Hz. destruct (ok_log _ _ _ Hok) as [(e0 & l0 & Hl & He0) _ _ _].
    replace (nx - 1) with 0 in He by lia. rewrite Hl in He. simpl in He. by simplify_eq.
  - apply log_ok_drop; [apply Hok|lia|].
    by replace (Z.to_nat nx - 1)%nat with (Z.to_nat (nx - 1)) by lia.
Qed.

Lemma advanceCommit_frame rf rf' :
  advanceCommit rf = Some rf' →
  rf' = rf ∨ ∃ c e, go_index (sort_Ints (matchIndex rf)) (Z.of_nat (peers rf) / 2) = Some c ∧
    go_index (log rf) c = Some e ∧ TermIdx e >= currentTerm rf ∧
    applyLog (with_commitIndex c rf) = Some rf'.
Proof.
  unfold advanceCommit. intros (c & Hc & H)%obind_Some. apply obind_Some in H as (e & He & H).
  case_decide; [eauto 10|left; by simplify_eq].
Qed.

Lemma advanceCommit_ok n i rf rf' :
  raft_ok n i rf → advanceCommit rf = Some rf' →
  raft_ok n i rf' ∧ nextIndex rf' = nextIndex rf ∧ advances rf rf'.
Proof.
  intros Hok [->|(c & e & _ & He & _ & H)]%advanceCommit_frame; [done|].
  apply go_index_lt in He.
  split_and!.
  - eapply applyLog_ok; [|done]. clear H. ok_split Hok.
  - by apply applyLog_frame in H as (ms & _ & ->).
  - apply applyLog_vote in H as [? ?]. right. simpl in *. auto.
Qed.

Lemma Forall_go_update {A} (P : A → Prop) (l : list A) j (x : A) (l' : list A) :
  Forall P l → P x → go_update l j x = Some l' → Forall P l'.
Proof. intros ? ? [? ->]%go_update_Some. by apply Forall_insert. Qed.

Lemma leaderReply_ok n i rf args p reply rf' b :
  raft_ok n i rf → Forall (λ x, 1 ≤ x) (nextIndex rf) → 0 ≤ ae_PrevLogIndex args →
  (aer_Success reply = false → aer_NextIndex reply = -1 ∨ 1 ≤ aer_NextIndex reply) →
  leaderReply rf args p reply = Some (rf', b) →
  raft_ok n i rf' ∧ (b = false → Forall (λ x, 1 ≤ x) (nextIndex rf')) ∧ advances rf rf'.
Proof.
  intros Hok Hnx Hprev Hrep H. unfold leaderReply in H. case_decide as Ht.
  { simplify_eq. split_and!; [apply stepDown_ok; [done|lia]|done|left; simpl; lia]. }
  destruct (aer_Success reply) eqn:Hs; [case_decide|case_decide].
  - apply obind_Some in H as (mi & Hmi & H). apply obind_Some in H as (ni & Hni & H).
    apply obind_Some in H as (rf1 & Ha & H). simplify_eq.
    pose proof (zlen_nonneg (ae_Entries args)).
    assert (Hn' : Forall (λ x, 1 ≤ x) ni)
      by (eapply Forall_go_update; [exact Hnx| |exact Hni]; simpl; lia).
    apply go_update_Some in Hmi as [? ->]. apply go_update_Some in Hni as [? ->].
    apply (advanceCommit_ok n i) in Ha as (? & Hn2 & ?).
    + split_and!; [done| |]; [intros _; by rewrite Hn2|]. etrans; [|done]. right. auto.
    + clear Ha. ok_split Hok.
  - simplify_eq. done.
  - apply obind_Some in H as (ni & Hni & H). simplify_eq.
    assert (Hn' : Forall (λ x, 1 ≤ x) ni)
      by (eapply Forall_go_update; [exact Hnx| |exact Hni]; destruct (Hrep eq_refl); [done|lia]).
    apply go_update_Some in Hni as [? ->].
    split_and!; [ok_split Hok|done|right; auto].
  - simplify_eq. done.
Qed.

Lemma Start_ok n i rf cmd rf' res :
  raft_ok n i rf → 1 ≤ currentTerm rf ∨ status rf ≠ Leader →
  Start rf cmd = Some (rf', res) →
  raft_ok n i rf' ∧ nextIndex rf' = nextIndex rf ∧ status rf' = status rf ∧ advances rf rf'.
Proof.
  intros Hok Ht H. unfold Start in H. case_bool_decide; [|by simplify_eq].
  apply obind_Some in H as (m & Hm & H). apply obind_Some in H as (mi & Hmi & H). simplify_eq/=.
  apply go_update_Some in Hmi as [? ->].
  split_and!; [|done|done|right; auto].
  assert (Hl : log_ok (currentTerm rf) (log rf ++ [mkEntry cmd (currentTerm rf)])).
  { pose proof (ok_log _ _ _ Hok) as Hl0. pose proof Hl0 as [(e0 & l0 & Hl & _) _ Hmax _].
    destruct (last (log rf)) as [d|] eqn:Hd.
    - apply (log_ok_app _ _ _ (TermIdx d)); [done| |eauto].
      rewrite last_lookup in Hd. pose proof (Hmax _ _ Hd).
      split; intros; repeat match goal with
        H : [_] !! _ = Some _ |- _ => apply list_lookup_singleton_Some in H as [-> <-] end;
        simpl; try lia.
    - apply last_None in Hd. by rewrite Hd in Hl. }
  pose proof (persist_durable (with_log _ rf) Hl). ok_split Hok.
Qed.

End Ops.
