(* ===== verification/RaftSafety.v ===== *)
(** * Invariants of the Raft cluster

    Layer one: every peer is well-formed in every reachable state and every
    message in flight is one a well-formed peer can have sent; so the RPC
    handlers never panic. Layer two: a server never votes for two candidates
    in one term, across crashes and restarts. *)

From S2P Require Import Prelude Persister Raft RaftInv RaftOps RaftCluster.

Section Safety.
Context {Cmd : Type} `{!Gob (Z * Z * list (LogEntry Cmd))}.
Implicit Types (nd : Node Cmd) (c : Cluster Cmd) (p : Packet Cmd).

(** ** The shape of a step *)

Lemma commitRes_Next c net' i nd nd' out c' :
  nodes c !! i = Some nd → commitRes c net' i (Next nd' out) = Some c' →
  c' = mkCluster (<[i := nd']> (nodes c)) (sends out ++ net')
         (votesOf i out ++ votes c) (winsOf i out ++ elected c).
Proof. by intros ? [= <-]. Qed.

(** A step is a move of one live node, with or without taking a packet out
    of the network, a panic of one, a restart of one, or the loss of a packet. *)
Inductive step_of c c' : Prop :=
  | step_next i nd nd' out net' :
      nodes c !! i = Some nd →
      c' = mkCluster (<[i := nd']> (nodes c)) (sends out ++ net')
             (votesOf i out ++ votes c) (winsOf i out ++ elected c) →
      (net' = net c ∧ ∃ e, nodeStep nd e = Next nd' out) ∨
      (∃ k p, net c !! k = Some p ∧ net' = delete k (net c) ∧ target p = i ∧
              arrive nd p = Next nd' out) →
      step_of c c'
  | step_panic i nd net' :
      nodes c !! i = Some nd →
      (net' = net c ∨ ∃ k, net' = delete k (net c)) →
      c' = mkCluster (<[i := mkNode (rf nd) Panicked (rounds nd) (delivered nd)]> (nodes c))
             net' (votes c) (elected c) →
      step_of c c'
  | step_restart i nd :
      nodes c !! i = Some nd →
      c' = mkCluster (<[i := restart nd]> (nodes c)) (net c) (votes c) (elected c) →
      step_of c c'
  | step_drop k :
      c' = mkCluster (nodes c) (delete k (net c)) (votes c) (elected c) → step_of c c'.

Lemma cstep_step_of c e c' : cstep c e = Some c' → step_of c c'.
Proof.
  assert (Hloc : ∀ i nd, nodes c !! i = Some nd →
    commitRes c (net c) i (nodeStep nd e) = Some c' → step_of c c').
  { intros i nd Hi H. destruct (nodeStep nd e) as [| |nd' out] eqn:Hs; simpl in H; [done| |].
    - rewrite Hi in H. simplify_eq/=. by apply (step_panic _ _ i nd (net c)); [|left|].
    - simplify_eq. eapply step_next; eauto. }
  destruct e; simpl; intros H;
    try (apply bind_Some in H as (nd & Hi & H); destruct (alive nd); [by eapply Hloc|done]).
  - apply bind_Some in H as (nd & Hi & H). simplify_eq. by eapply step_restart.
  - apply bind_Some in H as (p & Hp & H). apply bind_Some in H as (nd & Hi & H).
    destruct (alive nd); [|done].
    destruct (arrive nd p) as [| |nd' out] eqn:Hs; simpl in H; [done| |].
    + rewrite Hi in H. simplify_eq/=.
      by apply (step_panic _ _ (target p) nd (delete k (net c))); [|right; exists k|].
    + simplify_eq. eapply step_next; eauto 10.
  - apply bind_Some in H as (p & Hp & H). simplify_eq. by eapply step_drop.
Qed.

(** ** Layer one: well-formed peers and messages *)

(** The routine has started an election or leads. *)
Definition active (r : Routine Cmd) : Prop :=
  match r with
  | FollowerWait _ | FollowerTimeout | Terminated | Panicked => False
  | _ => True
  end.

Definition leading (r : Routine Cmd) : Prop :=
  match r with
  | LeadRound | LeadWait _ _ | LeadToFollower | LeadReply _ _ _ _ => True
  | _ => False
  end.

Definition aer_ok (reply : AppendEntriesReply) : Prop :=
  aer_Success reply = false → aer_NextIndex reply = -1 ∨ 1 ≤ aer_NextIndex reply.

Definition prevs_ok (args : list (AppendEntriesArgs Cmd)) : Prop :=
  Forall (λ a, 0 ≤ ae_PrevLogIndex a) args.

Definition routine_ok (r : Routine Cmd) : Prop :=
  match r with
  | LeadWait args _ => prevs_ok args
  | LeadReply args _ _ reply => prevs_ok args ∧ aer_ok reply
  | _ => True
  end.

Record node_ok (n i : nat) nd : Prop := {
  node_raft : raft_ok n i (rf nd);
  node_status : status (rf nd) ≠ Follower → 1 ≤ currentTerm (rf nd);
  node_active : active (rt nd) → 1 ≤ currentTerm (rf nd);
  node_leading : leading (rt nd) → Forall (λ x, 1 ≤ x) (nextIndex (rf nd));
  node_routine : routine_ok (rt nd);
}.

Definition packet_ok p : Prop :=
  match p with
  | VoteReq src _ _ args => rv_CandidateId args = Z.of_nat src ∧ 1 ≤ rv_Term args
  | VoteRep _ _ _ _ => True
  | AppReq _ _ _ args => ae_ok args ∧ 1 ≤ ae_Term args
  | AppRep _ _ _ reply => aer_ok reply
  end.

(** What a step of peer [i] may show. *)
Definition out_ok (i : nat) nd (o : Output Cmd) : Prop :=
  match o with
  | Send p => packet_ok p
  | Voted t cand => t = currentTerm (rf nd) ∧ cand = votedFor (rf nd) ∧ cand ≠ -1
  | Won _ => True
  end.

Definition good_step (n i : nat) nd nd' (out : list (Output Cmd)) : Prop :=
  node_ok n i nd' ∧ advances (rf nd) (rf nd') ∧ Forall (out_ok i nd') out.

Lemma advances_term (rf1 rf2 : Raft Cmd) :
  advances rf1 rf2 → currentTerm rf1 ≤ currentTerm rf2.
Proof. unfold advances. lia. Qed.

(** *** Entering a routine *)

Lemma runCandidate_ok n i nd (rf0 : Raft Cmd) nd' out :
  raft_ok n i rf0 → runCandidate nd rf0 = Next nd' out →
  node_ok n i nd' ∧ advances rf0 (rf nd') ∧ Forall (out_ok i nd') out.
Proof.
  unfold runCandidate, orPanic. intros Hok H.
  destruct (candidateStart rf0) as [[rf1 args]|] eqn:Hc; simplify_eq/=.
  pose proof (candidateStart_ok _ _ _ _ _ Hok Hc) as Hok1.
  unfold candidateStart in Hc. apply obind_Some in Hc as (e & _ & Hc). simplify_eq/=.
  pose proof (ok_term _ _ _ Hok). pose proof (ok_me _ _ _ Hok) as Hme.
  split_and!.
  - split; simpl; auto; lia.
  - left. simpl. lia.
  - constructor; simpl; [rewrite Hme; split_and!; [done..|lia]|].
    apply Forall_fmap, Forall_true. intros p. simpl. rewrite Hme. split; lia.
Qed.

Lemma runFollower_ok n i nd (rf0 : Raft Cmd) nd' out :
  raft_ok n i rf0 → status rf0 = Follower → runFollower nd rf0 = Next nd' out →
  node_ok n i nd' ∧ advances rf0 (rf nd') ∧ Forall (out_ok i nd') out.
Proof. unfold runFollower. intros Hok ? [= <- <-]. split_and!; [|done|done]. by split. Qed.

Lemma runLeader_ok n i nd (rf0 : Raft Cmd) nd' out :
  raft_ok n i rf0 → 1 ≤ currentTerm rf0 → runLeader nd rf0 = Next nd' out →
  node_ok n i nd' ∧ advances rf0 (rf nd') ∧ Forall (out_ok i nd') out.
Proof.
  unfold runLeader, orPanic. intros Hok ? H.
  destruct (leaderInit rf0) as [rf1|] eqn:Hl; simplify_eq/=.
  destruct (leaderInit_ok _ _ _ _ Hok Hl) as (? & ? & Ha).
  pose proof (advances_term _ _ Ha). split_and!; [|done|done]. split; simpl; auto; lia.
Qed.

Lemma enter_ok n i nd (rf0 : Raft Cmd) nd' out :
  raft_ok n i rf0 → (status rf0 = Leader → 1 ≤ currentTerm rf0) → enter nd rf0 = Next nd' out →
  node_ok n i nd' ∧ advances rf0 (rf nd') ∧ Forall (out_ok i nd') out.
Proof.
  intros Hok Ht H. unfold enter in H. case_decide; [by eapply runLeader_ok; eauto|].
  case_decide; [by eapply runCandidate_ok|]. case_decide; [by eapply runFollower_ok|done].
Qed.

Lemma runRound_ok n i nd nd' out :
  node_ok n i nd → rt nd = LeadRound → runRound nd = Next nd' out → good_step n i nd nd' out.
Proof.
  intros [Hok Hs Ha Hl _] Hrt H. rewrite Hrt in *. unfold runRound, orPanic in H.
  destruct (leaderRound (rf nd)) as [args|] eqn:Hr; simplify_eq/=.
  apply mapM_Some in Hr.
  assert (Hargs : ∀ (q : nat) a, args !! q = Some a → roundArgs (rf nd) q = Some a).
  { intros q a Hp. eapply Forall2_lookup_r in Hr as (q' & Hq & ?); [|done].
    apply lookup_seq in Hq as [-> ?]. done. }
  split_and!; [|done|].
  - split; simpl; auto. apply Forall_lookup. intros q a Hp%Hargs.
    unfold roundArgs in Hp. case_decide; [by simplify_eq|].
    assert (ae_ok a) as Hae; [|apply Hae].
    eapply (roundArgs_ok n i (rf nd) q); auto. unfold roundArgs. by rewrite decide_False.
  - apply Forall_forall. intros o (q & Hp & Ho)%list_elem_of_omap.
    apply bind_Some in Ho as (a & Hpa & [= <-]). simpl.
    apply list_elem_of_filter in Hp as [Hne _]. pose proof (Hargs _ _ Hpa) as Hra.
    split; [by eapply roundArgs_ok; eauto|].
    unfold roundArgs in Hra. rewrite decide_False in Hra by done. go_inv. simpl. auto.
Qed.

(** *** Local steps *)

Lemma candReply_ok n i nd args r g q reply nd' out :
  node_ok n i nd → rt nd = CandReply args r g q reply → lockStep nd = Next nd' out →
  good_step n i nd nd' out.
Proof.
  intros [Hok Hs Ha Hl _] Hrt H. unfold lockStep in H. rewrite Hrt in *.
  unfold candidateReply in H. case_decide.
  - apply (enter_ok n i) in H as (? & Hadv & ?); [|by apply stepDown_ok; [|lia]|done].
    split_and!; [done| |done]. etrans; [|done]. left. simpl. lia.
  - destruct (rvr_VoteGranted reply); [case_decide|]; simplify_eq/=;
      (split_and!; [split; simpl; auto|done|repeat constructor]).
Qed.

Lemma leadReply_ok n i nd args r q reply nd' out :
  node_ok n i nd → rt nd = LeadReply args r q reply → lockStep nd = Next nd' out →
  good_step n i nd nd' out.
Proof.
  intros [Hok Hs Ha Hl Hr] Hrt H. unfold lockStep in H. rewrite Hrt in *.
  destruct Hr as [Hprevs Haer]. unfold orPanic in H.
  destruct (args !! q ≫= _) as [[rf1 b]|] eqn:Hb; [|done].
  apply bind_Some in Hb as (a & Hq & Hb).
  pose proof (Forall_lookup_1 _ _ _ _ Hprevs Hq) as Hprev.
  pose proof (leaderReply_ok n i _ _ _ _ _ _ Hok (Hl I) Hprev Haer Hb) as (Hok1 & Hn1 & Hadv).
  pose proof (advances_term _ _ Hadv). specialize (Ha I).
  destruct b.
  - apply (enter_ok n i) in H as (? & Hadv' & ?); [|done|lia].
    split_and!; [done| |done]. by etrans.
  - simplify_eq/=. split_and!; [|done|done]. split; simpl; auto; lia.
Qed.

Lemma lockStep_ok n i nd nd' out :
  node_ok n i nd → lockStep nd = Next nd' out → good_step n i nd nd' out.
Proof.
  intros Hnd H. destruct (rt nd) eqn:Hrt;
    try (by unfold lockStep in H; rewrite Hrt in H);
    try (by eapply candReply_ok); try (by eapply leadReply_ok);
    pose proof Hnd as [Hok Hs Ha Hl _]; rewrite Hrt in *;
    unfold lockStep in H; rewrite Hrt in H.
  - apply (enter_ok n i) in H as (? & ? & ?); [|apply with_status_ok; auto|done].
    by split_and!.
  - apply (enter_ok n i) in H as (? & ? & ?); [by split_and!|done|by intros _; apply Ha].
  - apply (runCandidate_ok n i) in H as (? & ? & ?); [by split_and!|done].
  - apply (enter_ok n i) in H as (? & ? & ?); [|apply with_status_ok; auto|by intros _; apply Ha].
    by split_and!.
  - by eapply runRound_ok; eauto.
  - apply (enter_ok n i) in H as (? & ? & ?); [by split_and!|done|by intros _; apply Ha].
Qed.

(** A step that only moves the routine or a channel. *)
Lemma idle_step n i nd (rf1 : Raft Cmd) r k d :
  node_ok n i nd →
  rf1 = with_resetElectionTimer (resetElectionTimer rf1)
          (with_toFollower (toFollower rf1) (with_terminateCh (terminateCh rf1)
             (with_applying (applying rf1) (rf nd)))) →
  (active r → active (rt nd)) → (leading r → leading (rt nd)) → routine_ok r →
  good_step n i nd (mkNode rf1 r k d) [].
Proof.
  intros [Hok Hs Ha Hl Hr] -> Hact Hlead Hro. split_and!; [|right; auto|done].
  split; simpl; auto. destruct Hok. by split.
Qed.

Lemma nodeStep_ok n i nd e nd' out :
  node_ok n i nd → nodeStep nd e = Next nd' out → good_step n i nd nd' out.
Proof.
  intros Hnd H. pose proof Hnd as [Hok Hs Ha Hl Hr].
  destruct e; simpl in H; try done.
  - by apply lockStep_ok.
  - unfold timerStep, goto in H. destruct (rt nd) eqn:Hrt; try done; [case_decide| |];
      simplify_eq; apply idle_step; rewrite ?Hrt; simpl; auto; try by destruct (rf nd).
  - unfold resetStep, goto in H. destruct (rt nd) eqn:Hrt; try done.
    destruct (resetElectionTimer (rf nd)); [done|]. simplify_eq.
    apply idle_step; rewrite ?Hrt; simpl; auto; try by destruct (rf nd).
  - unfold toFollowerStep, goto in H. destruct (rt nd) eqn:Hrt; try done;
      destruct (toFollower (rf nd)); try done; simplify_eq;
      apply idle_step; rewrite ?Hrt; simpl; auto; try by destruct (rf nd).
  - unfold terminateStep, goto in H. destruct (rt nd) eqn:Hrt; try done;
      destruct (terminateCh (rf nd)); try done; simplify_eq;
      apply idle_step; rewrite ?Hrt; simpl; auto; try by destruct (rf nd).
  - unfold applySend in H. destruct (applying (rf nd) !! k) as [[|m ms]|]; try done. simplify_eq.
    apply idle_step; simpl; auto.
  - destruct (Start (rf nd) command) as [[rf1 res]|] eqn:Hst; simplify_eq/=.
    apply (Start_ok n i) in Hst as (? & Hnx & Hst & Hadv); [|done|].
    + pose proof (advances_term _ _ Hadv). split_and!; [|done|done].
      split; simpl; rewrite ?Hnx, ?Hst; auto; [intros ?%Hs; lia|intros ?%Ha; lia].
    + destruct (decide (status (rf nd) = Follower)) as [Hf|?%Hs]; [|auto]. right.
      rewrite Hf. by unfold Leader, Follower.
  - simplify_eq. unfold Kill. case_decide; apply idle_step; simpl; auto; try by destruct (rf nd).
Qed.

(** *** Messages and restarts *)

(** A handler ran: the routine stays where it is. *)
Lemma served_ok n i nd (rf1 : Raft Cmd) out :
  node_ok n i nd → raft_ok n i rf1 → advances (rf nd) rf1 → calm (rf nd) rf1 →
  Forall (out_ok i (mkNode rf1 (rt nd) (rounds nd) (delivered nd))) out →
  good_step n i nd (mkNode rf1 (rt nd) (rounds nd) (delivered nd)) out.
Proof.
  intros [Hok Hs Ha Hl Hr] Hok1 Hadv [Hst Hnx] Hout. pose proof (advances_term _ _ Hadv).
  split_and!; [|done|done]. split; simpl; rewrite ?Hnx; auto.
  - intros Hne. destruct Hst as [Hst|Hst]; [|done]. rewrite Hst in Hne. specialize (Hs Hne). lia.
  - intros Hact%Ha. lia.
Qed.

Lemma arrive_ok n i nd p nd' out :
  node_ok n i nd → packet_ok p → arrive nd p = Next nd' out → good_step n i nd nd' out.
Proof.
  intros Hnd Hp H. pose proof (node_raft _ _ _ Hnd) as Hok.
  destruct p as [src dst r args|src dst r reply|src dst r args|src dst r reply]; simpl in *.
  - unfold serveVote, orPanic in H.
    destruct (RequestVote (rf nd) args) as [[rf1 reply]|] eqn:Hv; simplify_eq.
    apply served_ok; [done|by eapply RequestVote_ok|by eapply RequestVote_advances|
      by eapply RequestVote_calm|].
    apply Forall_app. split; [|by repeat constructor].
    destruct (rvr_VoteGranted reply) eqn:Hg; [|done].
    destruct (RequestVote_granted _ _ _ _ Hv Hg) as [? ?]. repeat constructor; simpl; [done..|].
    destruct Hp as [-> _]. lia.
  - unfold voteReplyStep, goto in H. destruct (rt nd) eqn:Hrt; try done.
    case_decide; simplify_eq. apply idle_step; rewrite ?Hrt; simpl; auto. by destruct (rf nd).
  - unfold serveAppend, orPanic in H. destruct Hp as [Hae _].
    destruct (AppendEntries (rf nd) args) as [[rf1 reply]|] eqn:Hv; simplify_eq.
    apply served_ok; [done|by eapply AppendEntries_ok|by eapply AppendEntries_advances|
      by eapply AppendEntries_calm|].
    apply Forall_singleton. simpl. intros Hf. by eapply AppendEntries_next.
  - unfold appendReplyStep, goto in H. destruct (rt nd) eqn:Hrt; try done.
    case_decide; simplify_eq. pose proof (node_routine _ _ _ Hnd) as Hro. rewrite Hrt in Hro.
    apply idle_step; rewrite ?Hrt; simpl; auto. by destruct (rf nd).
Qed.

Lemma restart_ok n i nd :
  node_ok n i nd → node_ok n i (restart nd) ∧
  currentTerm (rf (restart nd)) = currentTerm (rf nd) ∧
  votedFor (rf (restart nd)) = votedFor (rf nd).
Proof.
  intros [Hok _ _ _ _]. destruct (ok_durable _ _ _ Hok) as (l & Hv & Hl).
  unfold restart, Copy. simpl. rewrite (ok_peers _ _ _ Hok), (ok_me _ _ _ Hok).
  pose proof (Make_ok n i (mkPersister (raftstate (persister (rf nd)))
    (snapshot (persister (rf nd)))) _ _ _ (ok_lt _ _ _ Hok) (ok_term _ _ _ Hok) Hv Hl) as Hm.
  pose proof (Make_view n (Z.of_nat i) (mkPersister (raftstate (persister (rf nd)))
    (snapshot (persister (rf nd)))) _ _ _ Hv) as Hmk.
  split; [|by rewrite Hmk]. split; simpl; [done| |done..]. by rewrite Hmk.
Qed.

(** *** The cluster *)

Record cluster_ok (n : nat) c : Prop := {
  cok_length : length (nodes c) = n;
  cok_nodes : ∀ i nd, nodes c !! i = Some nd → node_ok n i nd;
  cok_net : Forall packet_ok (net c);
}.

Lemma Forall_sends (P : Packet Cmd → Prop) out :
  Forall (λ o, match o with Send p => P p | _ => True end) out → Forall P (sends out).
Proof. induction 1 as [|[]]; simpl; [done|by constructor|done..]. Qed.

Lemma cluster_ok_init n : cluster_ok n (initCluster n).
Proof.
  split; simpl; [by rewrite length_fmap, length_seq| |done].
  intros i nd (j & -> & [-> Hj]%lookup_seq)%list_lookup_fmap_Some. simpl.
  assert (Hv : durable_view (raftstate MakePersister) = (0, -1, [mkEntry (Cmd:=Cmd) None 0])) by done.
  split; [|by intros []|done..].
  eapply Make_ok; [done|done|done|]. by apply log_ok_init.
Qed.

Lemma cluster_ok_step_next n c i nd nd' out net' :
  cluster_ok n c → nodes c !! i = Some nd →
  (net' = net c ∧ ∃ e, nodeStep nd e = Next nd' out) ∨
  (∃ k p, net c !! k = Some p ∧ net' = delete k (net c) ∧ target p = i ∧
          arrive nd p = Next nd' out) →
  good_step n i nd nd' out ∧ Forall packet_ok net'.
Proof.
  intros [_ Hn Hp] Hi [(-> & e & He)|(k & p & Hk & -> & _ & Ha)].
  - split; [|done]. eapply nodeStep_ok; eauto.
  - split; [|by apply Forall_delete]. eapply arrive_ok; eauto. by eapply Forall_lookup_1.
Qed.

Lemma cluster_ok_step n c e c' : cluster_ok n c → cstep c e = Some c' → cluster_ok n c'.
Proof.
  intros Hc H%cstep_step_of. pose proof Hc as [Hlen Hn Hp].
  assert (Hins : ∀ i nd nd' net' vs el, nodes c !! i = Some nd → node_ok n i nd' →
    Forall packet_ok net' → cluster_ok n (mkCluster (<[i := nd']> (nodes c)) net' vs el)).
  { intros i nd nd' net' vs el Hi Hnd' Hnet. split; simpl; [by rewrite length_insert| |done].
    intros j nj [(<- & -> & _)|[_ Hj]]%list_lookup_insert_Some; eauto. }
  destruct H as [i nd nd' out net' Hi -> Hs|i nd net' Hi Hnet ->|i nd Hi ->|k ->].
  - destruct (cluster_ok_step_next _ _ _ _ _ _ _ Hc Hi Hs) as [(Hnd' & _ & Hout) Hnet].
    eapply Hins; eauto. apply Forall_app. split; [|done]. apply Forall_sends.
    eapply Forall_impl; [exact Hout|]. by intros [].
  - eapply Hins; eauto.
    + destruct (Hn _ _ Hi) as [? ? _ _ _]. by split.
    + destruct Hnet as [->|[k ->]]; [done|by apply Forall_delete].
  - eapply Hins; eauto. by apply restart_ok, Hn.
  - split; simpl; [done|done|by apply Forall_delete].
Qed.

Lemma reachable_ok n c : reachable n c → cluster_ok n c.
Proof. induction 1; eauto using cluster_ok_init, cluster_ok_step. Qed.

(** ** Layer two: one vote per server and term *)

Definition votes_ok c : Prop :=
  ∀ v t cand, (v, t, cand) ∈ votes c → cand ≠ -1 ∧
    ∃ nd, nodes c !! v = Some nd ∧ t ≤ currentTerm (rf nd) ∧
      (t = currentTerm (rf nd) → votedFor (rf nd) = cand).

Definition votes_unique c : Prop :=
  ∀ v t cand cand', (v, t, cand) ∈ votes c → (v, t, cand') ∈ votes c → cand = cand'.

Lemma elem_of_votesOf i out v t cand :
  (v, t, cand) ∈ votesOf i out ↔ v = i ∧ Voted (Cmd:=Cmd) t cand ∈ out.
Proof.
  unfold votesOf. rewrite list_elem_of_omap. split.
  - intros ([| |] & Ho & ?); naive_solver.
  - intros [-> ?]. by exists (Voted t cand).
Qed.

Lemma votes_ok_node c i nd nd' net' el :
  votes_ok c → nodes c !! i = Some nd → advances (rf nd) (rf nd') →
  votes_ok (mkCluster (<[i := nd']> (nodes c)) net' (votes c) el).
Proof.
  intros Hv Hi Hadv v t cand (Hc & nv & Hnv & Hle & Heq)%Hv. split; [done|]. simpl.
  destruct (decide (i = v)) as [->|].
  - exists nd'. rewrite list_lookup_insert_eq by (by eapply lookup_lt_Some). simplify_eq.
    destruct Hadv as [?|[? [?|?]]]; split_and!; naive_solver lia.
  - exists nv. by rewrite list_lookup_insert_ne.
Qed.

Lemma votes_step n c e c' :
  cluster_ok n c → cstep c e = Some c' →
  votes_ok c ∧ votes_unique c → votes_ok c' ∧ votes_unique c'.
Proof.
  intros Hc H%cstep_step_of [Hv Hu].
  destruct H as [i nd nd' out net' Hi -> Hs|i nd net' Hi Hnet ->|i nd Hi ->|k ->].
  - destruct (cluster_ok_step_next _ _ _ _ _ _ _ Hc Hi Hs) as [(_ & Hadv & Hout) _].
    rewrite Forall_forall in Hout.
    assert (Hnew : ∀ v t cand, (v, t, cand) ∈ votesOf i out →
      v = i ∧ t = currentTerm (rf nd') ∧ cand = votedFor (rf nd') ∧ cand ≠ -1).
    { intros v t cand [-> Ho]%elem_of_votesOf. by apply Hout in Ho. }
    pose proof (votes_ok_node c i nd nd' (sends out ++ net') (winsOf i out ++ elected c)
      Hv Hi Hadv) as Hold.
    assert (Hcross : ∀ v t cand cand', (v, t, cand) ∈ votesOf i out → (v, t, cand') ∈ votes c →
      cand = cand').
    { intros v t cand cand' (-> & -> & -> & ?)%Hnew (_ & ni & Hni & _ & Heq)%Hold.
      simpl in Hni. rewrite list_lookup_insert_eq in Hni by (by eapply lookup_lt_Some).
      simplify_eq. auto. }
    split.
    + intros v t cand [(-> & -> & -> & ?)%Hnew|?%Hold]%elem_of_app; [|done]. split; [done|].
      exists nd'. simpl. by rewrite list_lookup_insert_eq by (by eapply lookup_lt_Some).
    + intros v t cand cand' [H1|H1]%elem_of_app [H2|H2]%elem_of_app; eauto.
      * apply Hnew in H1 as (_ & _ & -> & _). by apply Hnew in H2 as (_ & _ & -> & _).
      * symmetry. eauto.
  - split; [|done]. by eapply votes_ok_node.
  - split; [|done]. eapply votes_ok_node; eauto.
    destruct (restart_ok n i nd) as (_ & Ht & Hvf); [by eapply cok_nodes|].
    right. by rewrite Ht, Hvf; auto.
  - by split.
Qed.

Lemma reachable_votes n c : reachable n c → votes_ok c ∧ votes_unique c.
Proof.
  induction 1 as [|c c' e Hr IH Hs].
  - split; [intros ??? []%not_elem_of_nil|intros ???? []%not_elem_of_nil].
  - eapply votes_step; eauto using reachable_ok.
Qed.

End Safety.
