(* ===== verification/RaftElection.v ===== *)
(** * Elections: who can count a majority

    The third layer of invariants: the peers whose votes a candidate has
    counted are distinct and did vote for it in that term, because each peer
    answers a round at most once and a round's channel is read by that round
    only. A majority counted by [candidateRoutine] is therefore a quorum of
    recorded votes, and by [votes_unique] two candidates cannot both count one
    for the same term. *)

From S2P Require Import Prelude Persister Raft RaftInv RaftOps RaftCluster RaftSafety.

Section Election.
Context {Cmd : Type} `{!Gob (Z * Z * list (LogEntry Cmd))}.
Implicit Types (nd : Node Cmd) (c : Cluster Cmd) (p : Packet Cmd).

(** ** Votes in flight *)

(** The peers whose answer to round [r] of candidate [i] is still under way. *)
Definition flight (i r : nat) (net : list (Packet Cmd)) : list nat :=
  omap (λ p, match p with
             | VoteReq s d r' _ | VoteRep s d r' _ =>
                 if decide (s = i ∧ r' = r) then Some d else None
             | _ => None
             end) net.

Definition is_vote p : Prop :=
  match p with VoteReq _ _ _ _ | VoteRep _ _ _ _ => True | _ => False end.

(** The election the routine is in: its arguments, its round, its count. *)
Definition cand (r : Routine Cmd) : option (RequestVoteArgs * nat * Z) :=
  match r with
  | CandWait args k g | CandReply args k g _ _ => Some (args, k, g)
  | _ => None
  end.

(** The reply it has read and not yet counted. *)
Definition pend (r : Routine Cmd) : list (nat * RequestVoteReply) :=
  match r with CandReply _ _ _ q reply => [(q, reply)] | _ => [] end.

Definition vpkt_ok (n : nat) (vs : list (nat * Z * Z)) (i r : nat) (args : RequestVoteArgs) p : Prop :=
  match p with
  | VoteReq s d r' a => s = i → r' = r → (d < n)%nat ∧ a = args
  | VoteRep s d r' reply => s = i → r' = r → (d < n)%nat ∧
      (rvr_VoteGranted reply = true → (d, rv_Term args, Z.of_nat i) ∈ vs)
  | _ => True
  end.

Definition ballots_ok (n i : nat) (vs : list (nat * Z * Z)) (t : Z) (S : list nat) : Prop :=
  Forall (λ v, (v < n)%nat ∧ (v, t, Z.of_nat i) ∈ vs) S.

Record tally_ok (n : nat) c (i : nat) nd (args : RequestVoteArgs) (r : nat) (g : Z) : Prop := {
  tally_count : ∃ S, zlen S = g ∧
    NoDup (flight i r (net c) ++ (pend (rt nd)).*1 ++ S) ∧
    ballots_ok n i (votes c) (rv_Term args) S;
  tally_pkts : Forall (vpkt_ok n (votes c) i r args) (net c);
  tally_pend : ∀ q reply, (q, reply) ∈ pend (rt nd) → (q < n)%nat ∧
    (rvr_VoteGranted reply = true → (q, rv_Term args, Z.of_nat i) ∈ votes c);
}.

(** A quorum: more than half of the peers voted for [i] in term [t]. *)
Definition quorum (n : nat) (vs : list (nat * Z * Z)) (t : Z) (i : nat) : Prop :=
  ∃ S, NoDup S ∧ Z.of_nat n / 2 < zlen S ∧ ballots_ok n i vs t S.

Definition fresh_pkt c p : Prop :=
  match p with
  | VoteReq s _ r _ | VoteRep s _ r _ => ∀ nd, nodes c !! s = Some nd → (r < rounds nd)%nat
  | _ => True
  end.

Record election_ok (n : nat) c : Prop := {
  el_fresh : Forall (fresh_pkt c) (net c);
  el_tally : ∀ i nd args r g, nodes c !! i = Some nd → cand (rt nd) = Some (args, r, g) →
    tally_ok n c i nd args r g;
  el_won : ∀ t i, (t, i) ∈ elected c → quorum n (votes c) t i;
}.

(** ** What a step does to an election *)

Definition no_vote (o : Output Cmd) : Prop :=
  match o with Send p => ¬ is_vote p | Won _ => False | Voted _ _ => True end.

Inductive move (n i : nat) nd : option (Packet Cmd) → Node Cmd → list (Output Cmd) → Prop :=
  | move_quiet op nd' out :
      (∀ p, op = Some p → ¬ is_vote p) → (rounds nd ≤ rounds nd')%nat →
      (cand (rt nd') = None ∨ cand (rt nd') = cand (rt nd) ∧ pend (rt nd') = pend (rt nd)) →
      Forall no_vote out → move n i nd op nd' out
  | move_start nd' args :
      cand (rt nd') = Some (args, rounds nd, 1) → pend (rt nd') = [] →
      rounds nd' = S (rounds nd) →
      move n i nd None nd' (Voted (rv_Term args) (Z.of_nat i) ::
        ((λ q, Send (VoteReq i q (rounds nd) args)) <$> others (Z.of_nat i) n))
  | move_serve nd' src r args reply :
      rt nd' = rt nd → rounds nd' = rounds nd →
      move n i nd (Some (VoteReq src i r args)) nd'
        ((if rvr_VoteGranted reply then [Voted (rv_Term args) (rv_CandidateId args)] else []) ++
         [Send (VoteRep src i r reply)])
  | move_reply nd' args r g q reply :
      cand (rt nd) = Some (args, r, g) → pend (rt nd) = [] →
      cand (rt nd') = Some (args, r, g) → pend (rt nd') = [(q, reply)] →
      rounds nd' = rounds nd →
      move n i nd (Some (VoteRep i q r reply)) nd' []
  | move_count nd' args r g q reply g' :
      cand (rt nd) = Some (args, r, g) → pend (rt nd) = [(q, reply)] →
      cand (rt nd') = Some (args, r, g') → pend (rt nd') = [] → rounds nd' = rounds nd →
      g' = g ∨ g' = g + 1 ∧ rvr_VoteGranted reply = true →
      move n i nd None nd' []
  | move_win nd' args r g q reply :
      cand (rt nd) = Some (args, r, g) → pend (rt nd) = [(q, reply)] →
      rvr_VoteGranted reply = true → Z.of_nat n / 2 < g + 1 →
      cand (rt nd') = None → rounds nd' = rounds nd →
      move n i nd None nd' [Won (rv_Term args)].

Ltac quiet := apply move_quiet; simpl; auto; try (by intros ? [=]).

Lemma runCandidate_move n i nd (rf0 : Raft Cmd) nd' out :
  raft_ok n i rf0 → runCandidate nd rf0 = Next nd' out → move n i nd None nd' out.
Proof.
  unfold runCandidate, orPanic. intros Hok H.
  destruct (candidateStart rf0) as [[rf1 args]|] eqn:Hc; simplify_eq/=.
  unfold candidateStart in Hc. apply obind_Some in Hc as (e & _ & Hc). simplify_eq/=.
  rewrite (ok_me _ _ _ Hok), (ok_peers _ _ _ Hok), Nat2Z.id.
  match goal with
  | |- context [CandWait ?a _ _] => by apply (move_start n i nd (mkNode _ (CandWait a _ _) _ _) a)
  end.
Qed.

Lemma enter_move n i nd (rf0 : Raft Cmd) nd' out :
  raft_ok n i rf0 → enter nd rf0 = Next nd' out → move n i nd None nd' out.
Proof.
  intros Hok H. unfold enter in H. case_decide.
  { unfold runLeader, orPanic in H. destruct (leaderInit rf0); simplify_eq/=.
    quiet. }
  case_decide; [by eapply runCandidate_move|].
  case_decide; [|done]. unfold runFollower in H. simplify_eq. quiet.
Qed.

Lemma lockStep_move n i nd nd' out :
  node_ok n i nd → lockStep nd = Next nd' out → move n i nd None nd' out.
Proof.
  intros [Hok Hs Ha Hl Hr] H. unfold lockStep in H. destruct (rt nd) eqn:Hrt; try done.
  - eapply enter_move; [|done]. apply with_status_ok; auto.
  - by eapply enter_move.
  - by eapply runCandidate_move.
  - unfold candidateReply in H. case_decide.
    { eapply enter_move; [|done]. apply stepDown_ok; [done|lia]. }
    destruct (rvr_VoteGranted reply) eqn:Hg; [case_decide|]; simplify_eq.
    + eapply move_win; rewrite ?Hrt; simpl; eauto. rewrite (ok_peers _ _ _ Hok) in *. lia.
    + eapply move_count; rewrite ?Hrt; simpl; eauto.
    + eapply move_count; rewrite ?Hrt; simpl; eauto.
  - eapply enter_move; [|done]. apply with_status_ok; auto.
  - unfold runRound, orPanic in H. destruct (leaderRound (rf nd)); simplify_eq.
    quiet. apply Forall_forall.
    intros o (q & Hq & Ho)%list_elem_of_omap. apply bind_Some in Ho as (a & _ & [= <-]).
    simpl. tauto.
  - by eapply enter_move.
  - unfold orPanic in H. destruct (args !! peer ≫= _) as [[rf1 b]|] eqn:Hb; [|done].
    apply bind_Some in Hb as (a & Hq & Hb).
    destruct Hr as [Hprevs Haer]. pose proof (Forall_lookup_1 _ _ _ _ Hprevs Hq) as Hprev.
    pose proof (leaderReply_ok n i _ _ _ _ _ _ Hok (Hl I) Hprev Haer Hb) as (Hok1 & _).
    destruct b; [by eapply enter_move|]. simplify_eq. quiet.
Qed.

Lemma nodeStep_move n i nd e nd' out :
  node_ok n i nd → nodeStep nd e = Next nd' out → move n i nd None nd' out.
Proof.
  intros Hnd H.
  destruct e; simpl in H; try done; [by apply lockStep_move|..];
    unfold timerStep, resetStep, toFollowerStep, terminateStep, applySend, orPanic, goto in H;
    repeat (case_match; simplify_eq); simplify_eq; quiet.
Qed.

Lemma arrive_move n i nd p nd' out :
  target p = i → arrive nd p = Next nd' out → move n i nd (Some p) nd' out.
Proof.
  intros Ht H. destruct p as [src dst r args|src dst r reply|src dst r args|src dst r reply];
    simpl in *; subst.
  - unfold serveVote, orPanic in H.
    destruct (RequestVote (rf nd) args) as [[rf1 reply]|]; simplify_eq. by apply move_serve.
  - unfold voteReplyStep, goto in H. destruct (rt nd) eqn:Hrt; try done.
    case_decide; simplify_eq. eapply move_reply; by rewrite ?Hrt.
  - unfold serveAppend, orPanic in H.
    destruct (AppendEntries (rf nd) args) as [[rf1 reply]|]; simplify_eq.
    quiet; [intros ? [= <-]; simpl; tauto|repeat constructor; simpl; tauto].
  - unfold appendReplyStep, goto in H. destruct (rt nd) eqn:Hrt; try done.
    case_decide; simplify_eq. quiet. intros ? [= <-]. simpl. tauto.
Qed.

(** ** Bookkeeping on the network *)

Lemma flight_cons i r p net0 :
  flight i r (p :: net0) = flight i r [p] ++ flight i r net0.
Proof. unfold flight. simpl. by case_match. Qed.

Lemma flight_app i r net1 net2 : flight i r (net1 ++ net2) = flight i r net1 ++ flight i r net2.
Proof. unfold flight. apply omap_app. Qed.

Lemma flight_delete i r (net0 : list (Packet Cmd)) k p :
  net0 !! k = Some p → flight i r net0 ≡ₚ flight i r [p] ++ flight i r (delete k net0).
Proof.
  intros Hk. rewrite <-flight_cons. unfold flight. apply omap_Permutation.
  by apply delete_Permutation.
Qed.

Lemma flight_no_vote i r (net0 : list (Packet Cmd)) :
  Forall (λ p, ¬ is_vote p) net0 → flight i r net0 = [].
Proof. induction 1 as [|[]]; simpl in *; tauto. Qed.

Lemma flight_fresh c i nd (net0 : list (Packet Cmd)) :
  Forall (fresh_pkt c) net0 → nodes c !! i = Some nd → flight i (rounds nd) net0 = [].
Proof.
  intros Hf Hi. induction Hf as [|p net0 Hp Hf IH]; [done|].
  rewrite flight_cons, IH, app_nil_r.
  destruct p; simpl in *; try done; case_decide; try done; destruct_and!; subst;
    specialize (Hp _ Hi); lia.
Qed.

Lemma vpkt_ok_mono n vs vs' i r args p :
  vpkt_ok n vs i r args p → vs ⊆ vs' → vpkt_ok n vs' i r args p.
Proof. intros Hp Hsub. destruct p; simpl in *; naive_solver. Qed.

Lemma ballots_ok_mono n i vs vs' t S :
  ballots_ok n i vs t S → vs ⊆ vs' → ballots_ok n i vs' t S.
Proof. intros H Hsub. eapply Forall_impl; [exact H|]. naive_solver. Qed.

Lemma quorum_mono n vs vs' t i : quorum n vs t i → vs ⊆ vs' → quorum n vs' t i.
Proof. intros (S & ? & ? & ?) ?. exists S. eauto using ballots_ok_mono. Qed.

(** An election a step does not touch. *)
Lemma tally_frame n c c' i nd nd' args r g :
  tally_ok n c i nd args r g → pend (rt nd') = pend (rt nd) → votes c ⊆ votes c' →
  flight i r (net c') ⊆+ flight i r (net c) →
  Forall (vpkt_ok n (votes c') i r args) (net c') →
  tally_ok n c' i nd' args r g.
Proof.
  intros [(S & Hg & Hnd & HS) Hp Hq] Hpend Hsub Hfl Hp'. split; [|done|].
  - exists S. split_and!; [done| |by eapply ballots_ok_mono]. rewrite Hpend.
    eapply NoDup_sub; [|exact Hnd]. by apply submseteq_app.
  - rewrite Hpend. intros q reply (? & ?)%Hq. split; auto.
Qed.

Lemma sends_no_vote (out : list (Output Cmd)) :
  Forall no_vote out → Forall (λ p, ¬ is_vote p) (sends out).
Proof. induction 1 as [|[]]; simpl in *; [done|by constructor|done..]. Qed.

Lemma winsOf_no_vote i (out : list (Output Cmd)) : Forall no_vote out → winsOf i out = [].
Proof. induction 1 as [|[]]; simpl in *; done. Qed.

(** ** Every step keeps the invariant *)

Section Step.
Context (n : nat) (c : Cluster Cmd) (i : nat) (nd nd' : Node Cmd) (out : list (Output Cmd))
  (op : option (Packet Cmd)) (net' : list (Packet Cmd)).
Hypothesis Hc : cluster_ok n c.
Hypothesis He : election_ok n c.
Hypothesis Hi : nodes c !! i = Some nd.
Hypothesis Hnet : match op with
                  | None => net' = net c
                  | Some p => ∃ k, net c !! k = Some p ∧ net' = delete k (net c)
                  end.

Let c' := mkCluster (<[i := nd']> (nodes c)) (sends out ++ net')
            (votesOf i out ++ votes c) (winsOf i out ++ elected c).

Lemma step_votes_sub : votes c ⊆ votes c'.
Proof. simpl. intros x Hx. apply elem_of_app. by right. Qed.

Lemma step_net_sub p : p ∈ net' → p ∈ net c.
Proof.
  destruct op as [q|]; [|by subst].
  destruct Hnet as (k & Hk & ->). intros Hp.
  rewrite (delete_Permutation _ _ _ Hk). by right.
Qed.

Lemma step_flight j r : flight j r (net c) ≡ₚ flight j r (option_list op) ++ flight j r net'.
Proof.
  destruct op as [q|]; simpl; [|by subst].
  destruct Hnet as (k & Hk & ->). by apply flight_delete.
Qed.

Lemma step_fresh : (rounds nd ≤ rounds nd')%nat → Forall (fresh_pkt c') net'.
Proof.
  intros Hr. apply Forall_forall. intros p Hp%step_net_sub.
  pose proof (el_fresh _ _ He) as Hf. rewrite Forall_forall in Hf. specialize (Hf p Hp).
  destruct p as [s d r a|s d r a| |]; simpl in *; try done;
    (intros ns [(<- & -> & _)|[_ Hs]]%list_lookup_insert_Some; [specialize (Hf _ Hi); lia|auto]).
Qed.

Lemma step_vpkts j nj args r g :
  nodes c !! j = Some nj → cand (rt nj) = Some (args, r, g) →
  Forall (vpkt_ok n (votes c') j r args) net'.
Proof.
  intros Hj Hcj. pose proof (tally_pkts _ _ _ _ _ _ _ (el_tally _ _ He _ _ _ _ _ Hj Hcj)) as Hp.
  rewrite Forall_forall in Hp |- *. intros p ?%step_net_sub.
  eapply vpkt_ok_mono; eauto using step_votes_sub.
Qed.

(** The elections of the other servers. *)
Lemma step_others j nj args r g :
  j ≠ i → nodes c !! j = Some nj → cand (rt nj) = Some (args, r, g) →
  flight j r (sends out) ⊆+ flight j r (option_list op) →
  Forall (vpkt_ok n (votes c') j r args) (sends out) →
  tally_ok n c' j nj args r g.
Proof.
  intros Hne Hj Hcj Hfl Hp. eapply (tally_frame _ c); eauto using el_tally, step_votes_sub.
  - simpl. rewrite flight_app, step_flight. by apply submseteq_app.
  - simpl. apply Forall_app. eauto using step_vpkts.
Qed.

Lemma step_won t j : (t, j) ∈ elected c → quorum n (votes c') t j.
Proof. intros H%(el_won _ _ He). eauto using quorum_mono, step_votes_sub. Qed.

(** The assembly: the parts of the new invariant that differ per move. *)
Lemma step_build :
  (rounds nd ≤ rounds nd')%nat →
  Forall (fresh_pkt c') (sends out) →
  (∀ args r g, cand (rt nd') = Some (args, r, g) → tally_ok n c' i nd' args r g) →
  (∀ j nj args r g, j ≠ i → nodes c !! j = Some nj → cand (rt nj) = Some (args, r, g) →
     flight j r (sends out) ⊆+ flight j r (option_list op) ∧
     Forall (vpkt_ok n (votes c') j r args) (sends out)) →
  (∀ t j, (t, j) ∈ winsOf i out → quorum n (votes c') t j) →
  election_ok n c'.
Proof.
  intros Hr Hf Hown Hoth Hwin. split.
  - simpl. apply Forall_app. eauto using step_fresh.
  - intros j nj args r g [(<- & -> & _)|[Hne Hj]]%list_lookup_insert_Some Hcj; [by apply Hown|].
    destruct (Hoth j nj args r g) as [? ?]; eauto using step_others.
  - simpl. intros t j [?|?]%elem_of_app; [by apply Hwin|by apply step_won].
Qed.

Lemma step_quiet :
  (∀ p, op = Some p → ¬ is_vote p) → (rounds nd ≤ rounds nd')%nat →
  (cand (rt nd') = None ∨ cand (rt nd') = cand (rt nd) ∧ pend (rt nd') = pend (rt nd)) →
  Forall no_vote out → election_ok n c'.
Proof.
  intros Hop Hr Hcand Hout. pose proof (sends_no_vote _ Hout) as Hs.
  assert (Hv : ∀ vs j r args, Forall (vpkt_ok n vs j r args) (sends out)).
  { intros. eapply Forall_impl; [exact Hs|]. intros []; simpl; tauto. }
  apply step_build; [done| | | |].
  - eapply Forall_impl; [exact Hs|]. intros []; simpl; tauto.
  - intros args r g Hcd. destruct Hcand as [?|[Hcand Hpend]]; [congruence|]. rewrite Hcand in Hcd.
    eapply (tally_frame _ c); eauto using el_tally, step_votes_sub.
    + simpl. rewrite flight_app, (flight_no_vote _ _ _ Hs), step_flight. simpl.
      by apply submseteq_inserts_l.
    + simpl. apply Forall_app. eauto using step_vpkts.
  - intros. split; [|done]. rewrite (flight_no_vote _ _ _ Hs). apply submseteq_nil_l.
  - rewrite (winsOf_no_vote _ _ Hout). by intros ? ? []%not_elem_of_nil.
Qed.

Lemma elem_of_others self m q : q ∈ others self m ↔ Z.of_nat q ≠ self ∧ (q < m)%nat.
Proof. unfold others. rewrite list_elem_of_filter, elem_of_seq. lia. Qed.

Lemma flight_sent j r i0 r0 args (qs : list nat) :
  flight j r (sends ((λ q, Send (VoteReq i0 q r0 args)) <$> qs) : list (Packet Cmd)) =
  if decide (i0 = j ∧ r0 = r) then qs else [].
Proof.
  induction qs as [|q qs IH]; [by case_decide|].
  change (sends _) with
    (VoteReq i0 q r0 args :: sends ((λ q, Send (VoteReq (Cmd:=Cmd) i0 q r0 args)) <$> qs)).
  rewrite flight_cons, IH. simpl. by case_decide.
Qed.

Lemma elem_of_sent p i0 r0 args (qs : list nat) :
  p ∈ sends ((λ q, Send (VoteReq (Cmd:=Cmd) i0 q r0 args)) <$> qs) ↔
  ∃ q, q ∈ qs ∧ p = VoteReq i0 q r0 args.
Proof.
  unfold sends. rewrite list_elem_of_omap. setoid_rewrite list_elem_of_fmap. naive_solver.
Qed.

Lemma step_start args :
  op = None → cand (rt nd') = Some (args, rounds nd, 1) → pend (rt nd') = [] →
  rounds nd' = S (rounds nd) →
  out = Voted (rv_Term args) (Z.of_nat i) ::
        ((λ q, Send (VoteReq i q (rounds nd) args)) <$> others (Z.of_nat i) n) →
  election_ok n c'.
Proof.
  intros Hop Hcd Hpd Hr Hout. pose proof Hnet as Hnet0. rewrite Hop in Hnet0.
  assert (Hs : sends out = sends ((λ q, Send (VoteReq (Cmd:=Cmd) i q (rounds nd) args)) <$>
    others (Z.of_nat i) n)) by by rewrite Hout.
  pose proof (cok_nodes _ _ Hc _ _ Hi) as Hnd. pose proof (ok_lt _ _ _ (node_raft _ _ _ Hnd)).
  apply step_build; [lia| | | |].
  - rewrite Hs. apply Forall_forall. intros p (q & _ & ->)%elem_of_sent. simpl.
    intros ns. rewrite list_lookup_insert_eq by (by eapply lookup_lt_Some).
    intros [= <-]. lia.
  - intros a r g Hcd'. rewrite Hcd in Hcd'. injection Hcd' as <- <- <-. split.
    + exists [i]. split; [done|]. rewrite Hpd. simpl. rewrite Hs, flight_app, flight_sent.
      rewrite decide_True by done.
      rewrite Hnet0, (flight_fresh c i nd _ (el_fresh _ _ He) Hi), app_nil_r. split.
      * apply NoDup_app. split_and!; [|set_unfold; intros ? [? ?]%elem_of_others ?; lia|].
        -- apply NoDup_filter, NoDup_seq.
        -- apply NoDup_singleton.
      * constructor; [|done]. split; [lia|]. apply elem_of_app. left.
        apply elem_of_votesOf. split; [done|]. set_solver.
    + simpl. apply Forall_app. split; apply Forall_forall; intros p Hp.
      * rewrite Hs in Hp. apply elem_of_sent in Hp as (q & [_ ?]%elem_of_others & ->). by simpl.
      * rewrite Hnet0 in Hp. pose proof (el_fresh _ _ He) as Hf. rewrite Forall_forall in Hf.
        specialize (Hf p Hp).
        destruct p; simpl in *; try done; intros -> ->; specialize (Hf _ Hi); lia.
    + rewrite Hpd. by intros ? ? []%not_elem_of_nil.
  - intros j nj a r g Hne Hj Hcj. rewrite Hs, flight_sent, decide_False by naive_solver.
    split; [apply submseteq_nil_l|]. apply Forall_forall. intros p (q & _ & ->)%elem_of_sent.
    simpl. congruence.
  - intros t j Hw. exfalso. rewrite Hout in Hw. unfold winsOf in Hw.
    apply list_elem_of_omap in Hw as (o & Ho & Hw).
    apply elem_of_cons in Ho as [->|(q & -> & _)%list_elem_of_fmap]; done.
Qed.

Lemma step_serve src r args reply :
  op = Some (VoteReq src i r args) → rt nd' = rt nd → rounds nd' = rounds nd →
  out = (if rvr_VoteGranted reply then [Voted (rv_Term args) (rv_CandidateId args)] else []) ++
        [Send (VoteRep src i r reply)] →
  election_ok n c'.
Proof.
  intros Hop Hrt Hr Hout. pose proof Hnet as Hnet0.
  rewrite Hop in Hnet0. destruct Hnet0 as (k & Hk & Hnet').
  assert (Hs : sends out = [VoteRep src i r reply]).
  { rewrite Hout. by destruct (rvr_VoteGranted reply). }
  pose proof (Forall_lookup_1 _ _ _ _ (cok_net _ _ Hc) Hk) as [Hsrc _].
  assert (Hfl : ∀ j r', flight j r' (sends out) = flight j r' (option_list op)).
  { intros. rewrite Hs, Hop. done. }
  assert (Hvp : ∀ j nj a r' g, nodes c !! j = Some nj → cand (rt nj) = Some (a, r', g) →
    Forall (vpkt_ok n (votes c') j r' a) (sends out)).
  { intros j nj a r' g Hj Hcj.
    pose proof (tally_pkts _ _ _ _ _ _ _ (el_tally _ _ He _ _ _ _ _ Hj Hcj)) as Hp.
    pose proof (Forall_lookup_1 _ _ _ _ Hp Hk) as Hold. simpl in Hold.
    rewrite Hs. apply Forall_singleton. simpl. intros -> ->.
    destruct (Hold eq_refl eq_refl) as [? ->]. split; [done|]. intros Hg.
    apply elem_of_app. left. apply elem_of_votesOf. split; [done|].
    rewrite Hout, Hg, Hsrc. set_solver. }
  apply step_build; [lia| | | |].
  - rewrite Hs. apply Forall_singleton. simpl. pose proof (el_fresh _ _ He) as Hf.
    pose proof (Forall_lookup_1 _ _ _ _ Hf Hk) as Hfr. simpl in Hfr.
    intros ns [(<- & -> & _)|[_ Hns]]%list_lookup_insert_Some; [|auto].
    specialize (Hfr _ Hi). lia.
  - intros a r' g Hcd. rewrite Hrt in Hcd.
    eapply (tally_frame _ c); eauto using el_tally, step_votes_sub; [by rewrite Hrt| |].
    + simpl. rewrite flight_app, step_flight, Hfl. done.
    + simpl. apply Forall_app. eauto using step_vpkts.
  - intros j nj a r' g _ Hj Hcj. rewrite Hfl. split; [done|]. eauto.
  - intros t j Hw. exfalso. rewrite Hout in Hw.
    destruct (rvr_VoteGranted reply); by apply not_elem_of_nil in Hw.
Qed.

Lemma step_silent :
  out = [] → rounds nd' = rounds nd →
  (∀ args r g, cand (rt nd') = Some (args, r, g) → tally_ok n c' i nd' args r g) →
  election_ok n c'.
Proof.
  intros Hout Hr Hown. apply step_build; [lia|by rewrite Hout|done| |].
  - intros. rewrite Hout. split; [apply submseteq_nil_l|constructor].
  - rewrite Hout. by intros ? ? []%not_elem_of_nil.
Qed.

Lemma step_reply args r g q reply :
  op = Some (VoteRep i q r reply) →
  cand (rt nd) = Some (args, r, g) → pend (rt nd) = [] →
  cand (rt nd') = Some (args, r, g) → pend (rt nd') = [(q, reply)] →
  rounds nd' = rounds nd → out = [] → election_ok n c'.
Proof.
  intros Hop Hcd Hpd Hcd' Hpd' Hr Hout. apply step_silent; [done..|].
  intros a r' g' Hcd''. rewrite Hcd' in Hcd''. injection Hcd'' as <- <- <-.
  pose proof (el_tally _ _ He _ _ _ _ _ Hi Hcd) as [(S & HS & HSnd & Hb) Hp Hq].
  split.
  - exists S. split_and!; [done| |by eapply ballots_ok_mono, step_votes_sub].
    rewrite (step_flight i r), Hpd, Hop in HSnd. simpl in HSnd.
    simpl. rewrite Hpd', Hout. rewrite decide_True in HSnd by done. simpl in *.
    by rewrite Permutation_middle in HSnd.
  - apply Forall_app. split; [by rewrite Hout|by eapply step_vpkts].
  - rewrite Hpd'. intros q' reply' [= -> ->]%list_elem_of_singleton.
    pose proof Hnet as Hnet0. rewrite Hop in Hnet0. destruct Hnet0 as (k & Hk & _).
    pose proof (Forall_lookup_1 _ _ _ _ Hp Hk) as Hv.
    simpl in Hv. destruct (Hv eq_refl eq_refl) as [? ?]. split; [done|].
    intros. apply step_votes_sub. auto.
Qed.

Lemma step_count args r g q reply g' :
  op = None →
  cand (rt nd) = Some (args, r, g) → pend (rt nd) = [(q, reply)] →
  cand (rt nd') = Some (args, r, g') → pend (rt nd') = [] → rounds nd' = rounds nd →
  g' = g ∨ g' = g + 1 ∧ rvr_VoteGranted reply = true → out = [] → election_ok n c'.
Proof.
  intros Hop Hcd Hpd Hcd' Hpd' Hr Hg Hout. apply step_silent; [done..|].
  intros a r' g'' Hcd''. rewrite Hcd' in Hcd''. injection Hcd'' as <- <- <-.
  pose proof (el_tally _ _ He _ _ _ _ _ Hi Hcd) as [(S & HS & HSnd & Hb) Hp Hq].
  pose proof Hnet as Hnet0. rewrite Hop in Hnet0. rewrite Hpd in HSnd. simpl in HSnd.
  split; [|apply Forall_app; split; [by rewrite Hout|by eapply step_vpkts]|
    rewrite Hpd'; by intros ? ? []%not_elem_of_nil].
  simpl. rewrite Hpd', Hout, Hnet0. simpl.
  destruct Hg as [->|[-> Hg]]; [exists S|exists (q :: S)]; split_and!.
  - done.
  - eapply NoDup_sub; [|exact HSnd]. apply submseteq_app; [done|]. by apply submseteq_cons.
  - done.
  - rewrite <-HS. unfold zlen. simpl. lia.
  - done.
  - destruct (Hq q reply) as [? Hv]; [rewrite Hpd; set_solver|].
    constructor; [split; [done|by apply Hv]|done].
Qed.

Lemma step_win args r g q reply :
  op = None →
  cand (rt nd) = Some (args, r, g) → pend (rt nd) = [(q, reply)] →
  rvr_VoteGranted reply = true → Z.of_nat n / 2 < g + 1 →
  cand (rt nd') = None → rounds nd' = rounds nd → out = [Won (rv_Term args)] →
  election_ok n c'.
Proof.
  intros Hop Hcd Hpd Hg Hmaj Hcd' Hr Hout. apply step_build; [lia|by rewrite Hout| | |].
  - intros. congruence.
  - intros. rewrite Hout. split; [apply submseteq_nil_l|constructor].
  - rewrite Hout. intros t j [= -> ->]%list_elem_of_singleton.
    pose proof (el_tally _ _ He _ _ _ _ _ Hi Hcd) as [(S & HS & HSnd & Hb) Hp Hq].
    rewrite Hpd in HSnd. simpl in HSnd. apply NoDup_app in HSnd as (_ & _ & HSnd).
    destruct (Hq q reply) as [? Hv]; [rewrite Hpd; set_solver|].
    exists (q :: S). split_and!; [done|unfold zlen in *; simpl; lia|].
    simpl. rewrite Hout. constructor; [split; [done|by apply Hv]|done].
Qed.

End Step.

Lemma move_election n c i nd nd' out op net' :
  cluster_ok n c → election_ok n c → nodes c !! i = Some nd →
  match op with
  | None => net' = net c
  | Some p => ∃ k, net c !! k = Some p ∧ net' = delete k (net c)
  end →
  move n i nd op nd' out →
  election_ok n (mkCluster (<[i := nd']> (nodes c)) (sends out ++ net')
                   (votesOf i out ++ votes c) (winsOf i out ++ elected c)).
Proof.
  intros Hc He Hi Hnet Hm. destruct Hm.
  - eapply (step_quiet n c i nd nd' out op net'); eauto.
  - eapply (step_start n c i nd nd' _ None net'); eauto.
  - eapply (step_serve n c i nd nd' _ (Some (VoteReq src i r args)) net'); eauto.
  - eapply (step_reply n c i nd nd' _ (Some (VoteRep i q r reply)) net'); eauto.
  - eapply (step_count n c i nd nd' _ None net'); eauto.
  - eapply (step_win n c i nd nd' _ None net'); eauto.
Qed.

(** A panic or a restart ends the server's election. *)
Lemma halt_election n c i nd nd' net' :
  cluster_ok n c → election_ok n c → nodes c !! i = Some nd →
  (net' = net c ∨ ∃ k, net' = delete k (net c)) →
  cand (rt nd') = None → rounds nd' = rounds nd →
  election_ok n (mkCluster (<[i := nd']> (nodes c)) net' (votes c) (elected c)).
Proof.
  intros Hc He Hi Hnet Hcd Hr.
  assert (Hsub : ∀ p, p ∈ net' → p ∈ net c).
  { intros p Hp. destruct Hnet as [->|[k ->]]; [done|].
    eapply elem_of_submseteq; [exact Hp|]. apply sublist_submseteq, sublist_delete. }
  assert (Hfl : ∀ j r, flight j r net' ⊆+ flight j r (net c)).
  { intros j r. destruct Hnet as [->|[k ->]]; [done|].
    destruct (net c !! k) as [p|] eqn:Hk.
    - rewrite (flight_delete j r (net c) k p Hk). by apply submseteq_inserts_l.
    - by rewrite delete_out. }
  split; simpl.
  - apply Forall_forall. intros p Hp%Hsub. pose proof (el_fresh _ _ He) as Hf.
    rewrite Forall_forall in Hf. specialize (Hf p Hp).
    destruct p; simpl in *; try done;
      (intros ns [(<- & -> & _)|[_ Hs]]%list_lookup_insert_Some; [specialize (Hf _ Hi); lia|auto]).
  - intros j nj args r g [(<- & -> & _)|[Hne Hj]]%list_lookup_insert_Some Hcj; [congruence|].
    pose proof (el_tally _ _ He _ _ _ _ _ Hj Hcj) as Ht.
    eapply (tally_frame _ c); eauto. simpl.
    pose proof (tally_pkts _ _ _ _ _ _ _ Ht) as Hp. rewrite Forall_forall in Hp |- *. auto.
  - apply He.
Qed.

Lemma election_ok_init n : election_ok n (initCluster (Cmd:=Cmd) n).
Proof.
  split; simpl; [done| |intros ? ? []%not_elem_of_nil].
  intros i nd args r g (j & -> & _)%list_lookup_fmap_Some Hcd. done.
Qed.

Lemma election_ok_step n c e c' :
  cluster_ok n c → election_ok n c → cstep c e = Some c' → election_ok n c'.
Proof.
  intros Hc He H%cstep_step_of.
  destruct H as [i nd nd' out net' Hi -> Hs|i nd net' Hi Hnet ->|i nd Hi ->|k ->].
  - destruct Hs as [(-> & e' & Hn)|(k & p & Hk & -> & Ht & Ha)].
    + eapply (move_election n c i nd nd' out None); eauto.
      eapply nodeStep_move; eauto. by eapply cok_nodes.
    + eapply (move_election n c i nd nd' out (Some p)); eauto. by apply arrive_move.
  - by eapply halt_election.
  - eapply halt_election; eauto.
  - destruct (net c !! k) as [p|] eqn:Hk.
    + split; simpl.
      * eapply Forall_impl; [apply Forall_delete, He|]. by intros [].
      * intros i nd args r g Hi Hcd. pose proof (el_tally _ _ He _ _ _ _ _ Hi Hcd) as Ht.
        eapply (tally_frame _ c); eauto.
        -- simpl. rewrite (flight_delete i r (net c) k p Hk). by apply submseteq_inserts_l.
        -- simpl. by apply Forall_delete, Ht.
      * apply He.
    + rewrite delete_out by done. by destruct c.
Qed.

Lemma reachable_election n c : reachable n c → election_ok n c.
Proof. induction 1; eauto using election_ok_init, election_ok_step, reachable_ok. Qed.

(** ** Quorums intersect *)

Lemma quorum_meet n vs t i j :
  quorum n vs t i → quorum n vs t j →
  ∃ v, (v, t, Z.of_nat i) ∈ vs ∧ (v, t, Z.of_nat j) ∈ vs.
Proof.
  intros (S & HS & HSn & HSb) (T & HT & HTn & HTb).
  unfold ballots_ok in *. rewrite Forall_forall in HSb, HTb.
  destruct (decide (Forall (λ v, v ∉ T) S)) as [Hdis|Hmeet].
  - exfalso. rewrite Forall_forall in Hdis.
    assert (Hsub : S ++ T ⊆+ seq 0 n).
    { apply NoDup_submseteq; [by apply NoDup_app|].
      intros v [[? _]%HSb|[? _]%HTb]%elem_of_app; apply elem_of_seq; lia. }
    apply submseteq_length in Hsub. rewrite length_app, length_seq in Hsub.
    unfold zlen in *. pose proof (Z.mul_succ_div_gt (Z.of_nat n) 2). lia.
  - apply not_Forall_Exists in Hmeet; [|apply _].
    apply Exists_exists in Hmeet as (v & Hv & HvT). apply dec_stable in HvT.
    exists v. split; [by apply HSb|by apply HTb].
Qed.

End Election.
