(* ===== verification/RaftApply.v ===== *)
(** * Delivery of committed entries

    [grows] says how an operation changes what a peer has to apply: it may
    start goroutines whose messages are exactly the next indices, in order.
    Every operation grows; hence a peer sends each index up to [lastApplied]
    exactly once over its lifetime. (Between goroutines there is no order: see
    [RaftFindings].) *)

From S2P Require Import Prelude Persister Raft RaftInv RaftOps RaftCluster RaftSafety.

Section Apply.
Context {Cmd : Type} `{!Gob (Z * Z * list (LogEntry Cmd))}.
Implicit Types (rf : Raft Cmd) (nd : Node Cmd) (c : Cluster Cmd).

Definition indices (ms : list (ApplyMsg Cmd)) : list Z := CommandIndex <$> ms.

Definition grows rf rf' : Prop :=
  ∃ k, applying rf' = applying rf ++ k ∧ lastApplied rf ≤ lastApplied rf' ∧
    indices (concat k) = seqZ (lastApplied rf + 1) (lastApplied rf' - lastApplied rf).

Lemma grows_same rf rf' :
  applying rf' = applying rf → lastApplied rf' = lastApplied rf → grows rf rf'.
Proof. intros Ha Hl. exists []. rewrite app_nil_r, Hl, Z.sub_diag. done. Qed.

#[export] Instance grows_preorder : PreOrder grows.
Proof.
  split; [intros ?; by apply grows_same|].
  intros x y z (k1 & Ha1 & Hl1 & Hi1) (k2 & Ha2 & Hl2 & Hi2). exists (k1 ++ k2).
  split_and!; [by rewrite Ha2, Ha1, app_assoc|lia|].
  unfold indices in *. rewrite concat_app, fmap_app, Hi1, Hi2.
  replace (lastApplied z - lastApplied x)
    with (lastApplied y - lastApplied x + (lastApplied z - lastApplied y)) by lia.
  rewrite seqZ_app by lia. do 2 f_equal. lia.
Qed.

Lemma indices_collect l j n ms :
  collect l j n = Some ms → indices ms = seqZ (j + 1) (Z.of_nat n).
Proof.
  intros [Hlen Hk]%collect_spec. apply list_eq. intros k.
  unfold indices. rewrite list_lookup_fmap. destruct (decide (k < n)%nat) as [Hlt|Hge].
  - destruct (Hk k Hlt) as (e & _ & ->). simpl. symmetry. apply lookup_seqZ. lia.
  - rewrite lookup_ge_None_2 by lia. simpl. symmetry. apply lookup_seqZ_ge. lia.
Qed.

Lemma applyLog_grows rf rf' : applyLog rf = Some rf' → grows rf rf'.
Proof.
  intros (ms & Hms & ->)%applyLog_frame. exists [ms]. simpl. rewrite app_nil_r.
  split_and!; [done|lia|]. rewrite (indices_collect _ _ _ _ Hms).
  destruct (decide (lastApplied rf ≤ commitIndex rf)); [f_equal; lia|].
  rewrite !seqZ_nil by lia. done.
Qed.

Ltac same := by apply grows_same.

Lemma updateTerm_grows rf t : grows rf (updateTerm rf t).1.
Proof. destruct (updateTerm_commit rf t) as (_ & ? & ? & _). same. Qed.

Lemma pokeTimer_grows rf : grows rf (pokeTimer rf).
Proof. unfold pokeTimer. case_decide; same. Qed.

Lemma RequestVote_grows rf args rf' reply :
  RequestVote rf args = Some (rf', reply) → grows rf rf'.
Proof.
  intros H. etrans; [apply (updateTerm_grows rf (rv_Term args))|].
  unfold RequestVote in H. case_decide; [by simplify_eq|]. case_decide; [by simplify_eq|].
  apply obind_Some in H as ([] & _ & H); simplify_eq; [|done].
  etrans; [|apply pokeTimer_grows]. same.
Qed.

Lemma acceptEntries_grows rf args rf' : acceptEntries rf args = Some rf' → grows rf rf'.
Proof.
  unfold acceptEntries. intros (k & _ & H)%obind_Some.
  case_decide; [|simplify_eq; same]. apply applyLog_grows in H. etrans; [|exact H]. same.
Qed.

Lemma AppendEntries_grows rf args rf' reply :
  AppendEntries rf args = Some (rf', reply) → grows rf rf'.
Proof.
  intros H. etrans; [apply (updateTerm_grows rf (ae_Term args))|].
  unfold AppendEntries in H. case_decide; [by simplify_eq|].
  apply obind_Some in H as ([] & _ & H); apply obind_Some in H as (x & Hx & H); simplify_eq;
    [apply pokeTimer_grows|].
  etrans; [by eapply acceptEntries_grows|apply pokeTimer_grows].
Qed.

Lemma candidateStart_grows rf rf' args : candidateStart rf = Some (rf', args) → grows rf rf'.
Proof. unfold candidateStart. intros (e & _ & H)%obind_Some. simplify_eq. same. Qed.

Lemma leaderInit_grows rf rf' : leaderInit rf = Some rf' → grows rf rf'.
Proof. unfold leaderInit. intros (mi & _ & H)%obind_Some. simplify_eq. same. Qed.

Lemma leaderReply_grows rf args q reply rf' b :
  leaderReply rf args q reply = Some (rf', b) → grows rf rf'.
Proof.
  unfold leaderReply. intros H. case_decide; [simplify_eq; same|].
  destruct (aer_Success reply); [case_decide|case_decide]; try (simplify_eq; same).
  - apply obind_Some in H as (mi & _ & H). apply obind_Some in H as (ni & _ & H).
    apply obind_Some in H as (rf1 & Ha & H). simplify_eq.
    apply advanceCommit_frame in Ha as [->|(cm & e & _ & _ & _ & Ha)]; [same|].
    apply applyLog_grows in Ha. etrans; [|exact Ha]. same.
  - apply obind_Some in H as (ni & _ & H). simplify_eq. same.
Qed.

Lemma Start_grows rf cmd rf' res : Start rf cmd = Some (rf', res) → grows rf rf'.
Proof.
  unfold Start. intros H. case_bool_decide; [|by simplify_eq].
  apply obind_Some in H as (m & _ & H). apply obind_Some in H as (mi & _ & H). simplify_eq. same.
Qed.

(** ** Steps of a node *)

Lemma enter_grows nd rf nd' out :
  enter nd rf = Next nd' out → grows rf (RaftCluster.rf nd') ∧ delivered nd' = delivered nd.
Proof.
  intros H. unfold enter, runLeader, runCandidate, runFollower, orPanic in H.
  repeat case_decide; try done; repeat case_match; simplify_eq/=; split; try done;
    eauto using leaderInit_grows, candidateStart_grows.
Qed.

Lemma lockStep_grows nd nd' out :
  lockStep nd = Next nd' out →
  grows (RaftCluster.rf nd) (RaftCluster.rf nd') ∧ delivered nd' = delivered nd.
Proof.
  intros H. unfold lockStep in H. destruct (rt nd); try done.
  - apply enter_grows in H as [Hg ?]. split; [|done]. etrans; [|exact Hg]. same.
  - by apply enter_grows in H.
  - unfold runCandidate, orPanic in H. repeat case_match; simplify_eq/=.
    eauto using candidateStart_grows.
  - unfold candidateReply in H. case_decide.
    + apply enter_grows in H as [Hg ?]. split; [|done]. etrans; [|exact Hg]. same.
    + repeat case_match; by simplify_eq/=.
  - apply enter_grows in H as [Hg ?]. split; [|done]. etrans; [|exact Hg]. same.
  - unfold runRound, orPanic in H. by case_match; simplify_eq/=.
  - by apply enter_grows in H.
  - unfold orPanic in H. destruct (args !! peer ≫= _) as [[rf1 b]|] eqn:Hb; [|done].
    apply bind_Some in Hb as (a & _ & Hb%leaderReply_grows).
    destruct b; [|by simplify_eq/=]. apply enter_grows in H as [Hg ?]. split; [by etrans|done].
Qed.

(** What a peer has sent and has still to send are the indices 1, 2, ...
    up to [lastApplied], each once. *)
Definition apply_ok nd : Prop :=
  0 ≤ lastApplied (RaftCluster.rf nd) ∧
  indices (delivered nd ++ concat (applying (RaftCluster.rf nd))) ≡ₚ
  seqZ 1 (lastApplied (RaftCluster.rf nd)).

Lemma apply_ok_grows nd nd' :
  apply_ok nd → grows (RaftCluster.rf nd) (RaftCluster.rf nd') → delivered nd' = delivered nd →
  apply_ok nd'.
Proof.
  intros [H0 Hp] (k & Ha & Hl & Hi) Hd. split; [lia|].
  rewrite Hd, Ha, concat_app, app_assoc. unfold indices in *. rewrite fmap_app, Hp, Hi.
  replace (lastApplied (RaftCluster.rf nd')) with (lastApplied (RaftCluster.rf nd) +
    (lastApplied (RaftCluster.rf nd') - lastApplied (RaftCluster.rf nd))) at 2 by lia.
  rewrite (seqZ_app _ (lastApplied (RaftCluster.rf nd))) by lia. by rewrite Z.add_comm.
Qed.

Lemma applySend_apply_ok nd k nd' out :
  apply_ok nd → applySend nd k = Next nd' out → apply_ok nd'.
Proof.
  intros [H0 Hp] H. unfold applySend in H.
  destruct (applying (RaftCluster.rf nd) !! k) as [[|m ms]|] eqn:Hk; try done. simplify_eq.
  split; [done|]. simpl. etrans; [|exact Hp]. unfold indices. apply fmap_Permutation.
  rewrite <-app_assoc. apply Permutation_app_head. simpl.
  rewrite insert_take_drop by (by eapply lookup_lt_Some).
  rewrite <-(take_drop_middle _ _ _ Hk) at 3. rewrite !concat_app. simpl.
  by rewrite Permutation_middle.
Qed.

Lemma nodeStep_apply_ok nd e nd' out :
  apply_ok nd → nodeStep nd e = Next nd' out → apply_ok nd'.
Proof.
  intros Hok H. destruct e; simpl in H; try done;
    [apply lockStep_grows in H as [? ?]; by eapply apply_ok_grows|..];
    try (by eapply applySend_apply_ok);
    unfold timerStep, resetStep, toFollowerStep, terminateStep, orPanic, goto in H.
  1-4: repeat (case_match; simplify_eq); (eapply apply_ok_grows; [done|same|done]).
  - destruct (Start (RaftCluster.rf nd) command) as [[rf1 res]|] eqn:Hs; simplify_eq/=.
    eapply apply_ok_grows; [done| |done]. by eapply Start_grows.
  - simplify_eq. eapply apply_ok_grows; [done| |done]. simpl. unfold Kill. case_decide; same.
Qed.

Lemma arrive_apply_ok nd p nd' out :
  apply_ok nd → arrive nd p = Next nd' out → apply_ok nd'.
Proof.
  intros Hok H. destruct p; simpl in H;
    unfold serveVote, serveAppend, voteReplyStep, appendReplyStep, orPanic, goto in H;
    repeat (case_match; simplify_eq); (eapply apply_ok_grows; [done| |done]); simpl; try same.
  - by eapply RequestVote_grows.
  - by eapply AppendEntries_grows.
Qed.

Lemma reachable_apply n c i nd : reachable n c → nodes c !! i = Some nd → apply_ok nd.
Proof.
  assert (Hfresh : ∀ m self ps, lastApplied (Make (Cmd:=Cmd) m self ps) = 0 ∧
    applying (Make (Cmd:=Cmd) m self ps) = []).
  { intros. unfold Make, readPersist. by repeat case_match. }
  assert (Hnew : ∀ m self ps r k, apply_ok (mkNode (Make (Cmd:=Cmd) m self ps) r k [])).
  { intros. destruct (Hfresh m self ps) as [Hl Ha]. unfold apply_ok. simpl. by rewrite Hl, Ha. }
  intros Hr. revert i nd. induction Hr as [|c c' e Hr IH Hs]; intros i nd.
  { intros (j & -> & _)%list_lookup_fmap_Some. apply Hnew. }
  apply cstep_step_of in Hs.
  destruct Hs as [j nj nj' out net' Hj -> Hs|j nj net' Hj Hnet ->|j nj Hj ->|k ->]; simpl; eauto.
  - intros [(<- & -> & _)|[_ Hi]]%list_lookup_insert_Some; [|eauto].
    destruct Hs as [(_ & e' & Hn)|(k & p & _ & _ & _ & Ha)];
      eauto using nodeStep_apply_ok, arrive_apply_ok.
  - intros [(<- & <- & _)|[_ Hi]]%list_lookup_insert_Some; [|eauto].
    eapply (apply_ok_grows nj); [eauto|same|done].
  - intros [(<- & <- & _)|[_ Hi]]%list_lookup_insert_Some; [apply Hnew|eauto].
Qed.

End Apply.
