(* ===== verification/RaftTheorems.v ===== *)
(** * Properties of Raft

    The theorems about raft.go, each with a concrete run or state at which its
    hypotheses hold. The general ones are over every reachable state of a
    cluster of any size, or over every state of a peer. *)

From S2P Require Import Prelude Persister Raft RaftInv RaftOps RaftCluster RaftSafety.
From S2P Require Import RaftElection RaftApply.

(** ** A concrete cluster for the witnesses: commands are integers *)

Definition gobZ : Gob (Z * Z * list (LogEntry Z)) := gob_countable.
#[export] Existing Instance gobZ.

Lemma crun_reachable {Cmd} `{!Gob (Z * Z * list (LogEntry Cmd))} n (c c' : Cluster Cmd) es :
  reachable n c → crun c es = Some c' → reachable n c'.
Proof.
  revert c. induction es as [|e es IH]; simpl; intros c Hr H; [by simplify_eq|].
  apply bind_Some in H as (c1 & Hs & H). eapply IH; [|done]. by eapply reachable_step.
Qed.

(** Server 0 of three times out, gets the vote of server 1 and leads term 1;
    a client starts command 7, and the entry is replicated to server 1,
    committed and delivered. *)
Definition demoSchedule : list (Event Z) :=
  [EvTimer 0 1; EvLock 0; EvDeliver 0; EvDeliver 0; EvLock 0; EvLock 0;
   EvStart 0 (Some 7); EvLock 0; EvDeliver 0; EvDeliver 0; EvLock 0; EvApply 0 0].

Definition demo (k : nat) : Cluster Z :=
  default (initCluster 3) (crun (initCluster 3) (take k demoSchedule)).

Lemma demo_reachable k : reachable 3 (demo k).
Proof.
  unfold demo. destruct (crun (initCluster 3) (take k demoSchedule)) as [c|] eqn:H; simpl.
  - eapply crun_reachable; [constructor|done].
  - constructor.
Qed.

Section Theorems.
Context {Cmd : Type} `{!Gob (Z * Z * list (LogEntry Cmd))}.
Implicit Types (rf : Raft Cmd) (c : Cluster Cmd) (nd : Node Cmd).

(** ** Elections *)

(** C2: In every reachable state of a cluster of any size, under any delays,
    losses, crashes and restarts, at most one server has counted a majority of
    votes for a given term. *)
Theorem election_safety n c t i j :
  reachable n c → (t, i) ∈ elected c → (t, j) ∈ elected c → i = j.
Proof.
  intros Hr Hi Hj. pose proof (reachable_election n c Hr) as He.
  destruct (quorum_meet n (votes c) t i j) as (v & Hvi & Hvj); [by apply He..|].
  destruct (reachable_votes n c Hr) as [_ Hu]. specialize (Hu _ _ _ _ Hvi Hvj). lia.
Qed.

(** C8: A server never grants its vote of one term to two candidates, even
    when it crashes and restarts between the two requests. *)
Theorem one_vote_per_term n c v t a b :
  reachable n c → (v, t, a) ∈ votes c → (v, t, b) ∈ votes c → a = b.
Proof. intros Hr Ha Hb. destruct (reachable_votes n c Hr) as [_ Hu]. eauto. Qed.

(** ** Well-formedness *)

(** C9: In every reachable state, the log of every server starts with the
    dummy entry of term 0, its terms never decrease and are at most the
    server's current term, and a restart from its persister comes back with the
    same term and vote. *)
Theorem log_invariant n c i nd :
  reachable n c → nodes c !! i = Some nd →
  (∃ e l, log (rf nd) = e :: l ∧ TermIdx e = 0) ∧
  (∀ j k d e, log (rf nd) !! j = Some d → log (rf nd) !! k = Some e → (j ≤ k)%nat →
     TermIdx d ≤ TermIdx e ≤ currentTerm (rf nd)) ∧
  currentTerm (RaftCluster.rf (restart nd)) = currentTerm (rf nd) ∧
  votedFor (RaftCluster.rf (restart nd)) = votedFor (rf nd).
Proof.
  intros Hr Hi. pose proof (cok_nodes _ _ (reachable_ok n c Hr) _ _ Hi) as Hnd.
  destruct (restart_ok _ _ _ Hnd) as (_ & ? & ?).
  destruct (ok_log _ _ _ (node_raft _ _ _ Hnd)) as [? _ Hmax Hmono].
  split_and!; [done| |done|done]. intros j k d e Hd He Hle. split; [by eapply Hmono|by eapply Hmax].
Qed.

(** No RPC in flight in a reachable state makes the handler of a live
    server panic: RequestVote and AppendEntries never index the log out of
    range on the arguments that candidates and leaders send. *)
Theorem handlers_never_panic n c p nd :
  reachable n c → p ∈ net c → nodes c !! target p = Some nd → arrive nd p ≠ Panic.
Proof.
  intros Hr Hp Hi. pose proof (reachable_ok n c Hr) as Hc.
  pose proof (node_raft _ _ _ (cok_nodes _ _ Hc _ _ Hi)) as Hok.
  pose proof (cok_net _ _ Hc) as Hnet. rewrite Forall_forall in Hnet. specialize (Hnet p Hp).
  destruct p as [src dst r args|src dst r reply|src dst r args|src dst r reply]; simpl in *.
  - unfold serveVote, orPanic.
    by destruct (RequestVote_total _ _ _ args Hok) as (rf' & reply & ->).
  - unfold voteReplyStep, goto. by repeat case_match.
  - destruct Hnet as [Hae _]. unfold serveAppend, orPanic.
    by destruct (AppendEntries_total _ _ _ args Hok Hae) as (rf' & reply & ->).
  - unfold appendReplyStep, goto. by repeat case_match.
Qed.

(** ** RequestVote *)

(** The candidate's log is at least as up to date as the voter's. *)
Definition up_to_date rf (args : RequestVoteArgs) : Prop :=
  ∃ e, go_index (log rf) (zlen (log rf) - 1) = Some e ∧
    (TermIdx e < rv_LastLogTerm args ∨
     TermIdx e = rv_LastLogTerm args ∧ zlen (log rf) ≤ rv_LastLogIndex args + 1).

Lemma logNewer_spec rf args b : logNewer rf args = Some b → b = true ↔ up_to_date rf args.
Proof.
  unfold logNewer, up_to_date. intros (e & He & H)%obind_Some. simplify_eq.
  split.
  - intros Hb. exists e. split; [done|]. repeat case_decide; try case_bool_decide; naive_solver lia.
  - intros (e' & He' & Hor). simplify_eq.
    repeat case_decide; try case_bool_decide; try done; lia.
Qed.

Lemma pokeTimer_frame rf :
  log (pokeTimer rf) = log rf ∧ votedFor (pokeTimer rf) = votedFor rf ∧
  currentTerm (pokeTimer rf) = currentTerm rf ∧ persister (pokeTimer rf) = persister rf.
Proof. unfold pokeTimer. by case_decide. Qed.

Lemma updateTerm_exact rf t :
  (t ≤ currentTerm rf → (updateTerm rf t).1 = rf) ∧
  (t > currentTerm rf → votedFor (updateTerm rf t).1 = -1 ∧
     durable_view (raftstate (persister (updateTerm rf t).1)) = (t, -1, log rf)).
Proof.
  unfold updateTerm. case_decide; split; try lia; [intros _|done]. split; [done|].
  simpl. rewrite durable_view_encode. simpl. by case_decide.
Qed.

(** C12: RequestVote grants exactly when the candidate's term is not old, the
    voter has not voted for somebody else in that term, and the candidate's log
    is up to date; a granted vote is recorded, and made durable, before the
    reply. A refused request leaves the vote as it was if the term did not change and
    clears it, durably, if the request brought a newer term. The log never changes, and
    the reply carries the voter's term from before the request. *)
Theorem request_vote_spec rf args rf' reply :
  RequestVote rf args = Some (rf', reply) →
  rvr_Term reply = currentTerm rf ∧
  log rf' = log rf ∧
  currentTerm rf' = Z.max (rv_Term args) (currentTerm rf) ∧
  (rvr_VoteGranted reply = true ↔
     currentTerm rf ≤ rv_Term args ∧
     (rv_Term args > currentTerm rf ∨ votedFor rf = -1 ∨ votedFor rf = rv_CandidateId args) ∧
     up_to_date rf args) ∧
  (rvr_VoteGranted reply = true → votedFor rf' = rv_CandidateId args ∧
     durable_view (raftstate (persister rf')) = (rv_Term args, rv_CandidateId args, log rf)) ∧
  (rvr_VoteGranted reply = false →
     (rv_Term args ≤ currentTerm rf → rf' = rf) ∧
     (rv_Term args > currentTerm rf → votedFor rf' = -1 ∧
        durable_view (raftstate (persister rf')) = (rv_Term args, -1, log rf))).
Proof.
  intros H. pose proof (updateTerm_term rf (rv_Term args)) as Ht.
  pose proof (updateTerm_log rf (rv_Term args)) as Hl.
  assert (Hv : rv_Term args > currentTerm rf ∧ votedFor (updateTerm rf (rv_Term args)).1 = -1 ∨
    rv_Term args ≤ currentTerm rf ∧ votedFor (updateTerm rf (rv_Term args)).1 = votedFor rf).
  { rewrite updateTerm_vote. case_decide; [left|right]; split; [done..|lia|done]. }
  assert (Href : (rv_Term args ≤ currentTerm rf → (updateTerm rf (rv_Term args)).1 = rf) ∧
     (rv_Term args > currentTerm rf → votedFor (updateTerm rf (rv_Term args)).1 = -1 ∧
        durable_view (raftstate (persister (updateTerm rf (rv_Term args)).1)) = (rv_Term args, -1, log rf)))
    by apply updateTerm_exact.
  unfold RequestVote in H. set (rf1 := (updateTerm rf (rv_Term args)).1) in *.
  rewrite Ht in H.
  assert (Hup : up_to_date rf1 args ↔ up_to_date rf args) by (unfold up_to_date; by rewrite Hl).
  case_decide as Hold; [simplify_eq/=; split_and!; try done; split; [done|lia]|].
  case_decide as Hvote.
  { simplify_eq/=. split_and!; try done. split; [done|]. lia. }
  apply obind_Some in H as (b & Hb & H). apply logNewer_spec in Hb. rewrite Hup in Hb.
  destruct b; simplify_eq/=; [|split_and!; try done; naive_solver].
  destruct (pokeTimer_frame (persist (with_votedFor (rv_CandidateId args) rf1))) as (Hp1 & Hp2 & Hp3 & Hp4).
  rewrite Hp1, Hp2, Hp3, Hp4. simpl. rewrite durable_view_encode, Ht, Hl.
  split_and!; try done; [|intros _; split; [done|do 2 f_equal; lia]].
  split; [|done]. intros _. split_and!; [lia| |by apply Hb].
  lia.
Qed.

(** ** AppendEntries *)

(** Both logs hold the same entry wherever they hold the same term. *)
Definition agree (es ol : list (LogEntry Cmd)) : Prop :=
  ∀ k d e, es !! k = Some d → ol !! k = Some e → TermIdx d = TermIdx e → d = e.

Lemma merged_reference (l es : list (LogEntry Cmd)) prev :
  (S prev ≤ length l)%nat → agree es (drop (S prev) l) →
  merged l prev es = take (S prev) l ++ es.
Proof.
  intros Hlen Ha. unfold merged.
  rewrite <-(take_drop (S prev) l) at 2. rewrite take_app_ge; rewrite length_take_le by lia; [|lia].
  replace (S prev + _ - S prev)%nat with (matchLen es (drop (S prev) l)) by lia.
  rewrite <-app_assoc. f_equal. clear Hlen. revert Ha. generalize (drop (S prev) l) as ol.
  induction es as [|e es IH]; intros [|o ol] Ha; simpl; [done..|].
  case_decide as Ht; [|done]. simpl. f_equal; [symmetry; by apply (Ha 0%nat)|].
  apply IH. intros k d d' Hd Hd'. by apply (Ha (S k)).
Qed.

(** The request passes the checks of lines 252 and 260. *)
Definition accepts rf (args : AppendEntriesArgs Cmd) : Prop :=
  currentTerm rf ≤ ae_Term args ∧
  ∃ e, go_index (log rf) (ae_PrevLogIndex args) = Some e ∧ TermIdx e = ae_PrevLogTerm args.

Lemma AppendEntries_accepts rf args rf' reply :
  AppendEntries rf args = Some (rf', reply) → aer_Success reply = true ↔ accepts rf args.
Proof.
  intros H. unfold AppendEntries in H. pose proof (updateTerm_log rf (ae_Term args)) as Hl.
  rewrite updateTerm_term in H. unfold accepts.
  case_decide; [simplify_eq/=; split; [done|intros [? _]; lia]|].
  apply obind_Some in H as (b & Hb & H). unfold prevMismatch in Hb. rewrite Hl in Hb.
  destruct b; apply obind_Some in H as (x & _ & H); simplify_eq/=.
  - split; [done|]. intros (_ & e & He & Hte). pose proof (go_index_lt _ _ _ He).
    case_decide; [lia|]. rewrite He in Hb. simpl in Hb. by case_bool_decide.
  - split; [|done]. intros _. split; [lia|]. case_decide; [done|].
    apply obind_Some in Hb as (e & He & Hb). exists e. split; [done|]. by case_bool_decide.
Qed.

Lemma AppendEntries_success rf args rf' reply :
  AppendEntries rf args = Some (rf', reply) → aer_Success reply = true →
  let prev := Z.to_nat (ae_PrevLogIndex args) in
  let m := matchLen (ae_Entries args) (drop (S prev) (log rf)) in
  log rf' = merged (log rf) prev (ae_Entries args) ∧
  raftstate (persister rf') =
    gob_encode (currentTerm rf', votedFor rf', take (S prev + m) (log rf)) ∧
  (∃ e, log rf !! prev = Some e).
Proof.
  intros H Hs prev m. unfold AppendEntries in H. case_decide; [by simplify_eq|].
  apply obind_Some in H as ([] & Hm & H); apply obind_Some in H as (rf2 & Ha & H); simplify_eq/=.
  apply prevMismatch_false in Hm as (e & He & _).
  pose proof (acceptEntries_cases _ _ _ _ He Ha) as Hc. simpl in Hc.
  rewrite updateTerm_log in Hc, He. fold prev in Hc. fold m in Hc.
  apply go_index_Some in He as [_ He].
  destruct (pokeTimer_frame rf2) as (Hp1 & Hp2 & Hp3 & Hp4).
  rewrite ?Hp1, ?Hp2, ?Hp3, ?Hp4.
  case_decide; [apply applyLog_frame in Hc as (ms & _ & ->)|subst rf2];
    simpl; split_and!; eauto.
Qed.

(** C13: AppendEntries succeeds exactly when the term is not old and the entry at
    PrevLogIndex has PrevLogTerm. Then the log is cut to PrevLogIndex + 1 + len(Entries)
    entries, whatever it held beyond: a request that is overtaken by a longer one removes
    entries the follower has acknowledged in between. When the follower's log agrees with
    the leader's entries wherever the terms agree, it is exactly the leader's log: the
    part up to PrevLogIndex followed by the entries sent. *)
Theorem append_entries_reference rf args rf' reply :
  AppendEntries rf args = Some (rf', reply) →
  (aer_Success reply = true ↔ accepts rf args) ∧
  (aer_Success reply = true →
     zlen (log rf') = ae_PrevLogIndex args + 1 + zlen (ae_Entries args) ∧
     (agree (ae_Entries args) (drop (S (Z.to_nat (ae_PrevLogIndex args))) (log rf)) →
      log rf' = take (S (Z.to_nat (ae_PrevLogIndex args))) (log rf) ++ ae_Entries args)).
Proof.
  intros H. pose proof (AppendEntries_accepts _ _ _ _ H) as Hacc. split; [done|].
  intros Hs. destruct (AppendEntries_success _ _ _ _ H Hs) as (-> & _ & e & He). split.
  - apply Hacc in Hs as (_ & e' & [? _]%go_index_Some & _).
    unfold zlen. rewrite (merged_length _ _ _ _ He). lia.
  - intros Ha. apply merged_reference; [|done]. apply lookup_lt_Some in He. lia.
Qed.

(** C14: What a follower persists on a successful AppendEntries is its log
    without the entries it has just appended: a restart right after the
    acknowledgement comes back with only the matched part. *)
Theorem append_entries_not_durable rf args rf' reply n i :
  AppendEntries rf args = Some (rf', reply) → aer_Success reply = true →
  let prev := Z.to_nat (ae_PrevLogIndex args) in
  let m := matchLen (ae_Entries args) (drop (S prev) (log rf)) in
  log (Make (Cmd:=Cmd) n i (persister rf')) = take (S prev + m) (log rf) ∧
  zlen (log rf') - zlen (log (Make (Cmd:=Cmd) n i (persister rf'))) =
    zlen (ae_Entries args) - Z.of_nat m.
Proof.
  intros H Hs prev m. destruct (AppendEntries_success _ _ _ _ H Hs) as (Hl & Hp & e & He).
  fold prev m in Hl, Hp.
  rewrite (Make_view n i (persister rf') _ _ _ (eq_trans (f_equal durable_view Hp)
    (durable_view_encode _))). simpl. split; [done|]. rewrite Hl.
  pose proof (matchLen_le (ae_Entries args) (drop (S prev) (log rf))) as [_ Hm].
  rewrite length_drop in Hm. pose proof (lookup_lt_Some _ _ _ He). fold m in Hm.
  unfold zlen. rewrite (merged_length _ _ _ _ He), length_take_le by (fold prev in He; lia).
  fold prev. lia.
Qed.

(** C15: A rejected AppendEntries of a current term asks for an index that is
    at least 1 and at most PrevLogIndex, and all the entries it skips carry one
    term: the leader's nextIndex strictly decreases and never skips a term
    boundary. *)
Theorem append_entries_backoff n i rf args rf' reply :
  raft_ok n i rf → ae_ok args → AppendEntries rf args = Some (rf', reply) →
  aer_Success reply = false → currentTerm rf ≤ ae_Term args →
  1 ≤ aer_NextIndex reply ≤ ae_PrevLogIndex args ∧
  log rf' = log rf ∧
  ∀ j k d e, aer_NextIndex reply ≤ Z.of_nat j ≤ ae_PrevLogIndex args →
    aer_NextIndex reply ≤ Z.of_nat k ≤ ae_PrevLogIndex args →
    log rf !! j = Some d → log rf !! k = Some e → TermIdx d = TermIdx e.
Proof.
  intros Hok Hae H Hf Ht.
  destruct (AppendEntries_next _ _ _ _ _ _ Hok Hae H Hf) as [Hn|Hn]; unfold AppendEntries in H;
    (case_decide as Hold; [rewrite updateTerm_term in Hold; lia|]);
    apply obind_Some in H as ([] & Hm & H); apply obind_Some in H as (x & Hx & H); simplify_eq/=;
    pose proof (updateTerm_log rf (ae_Term args)) as Hl;
    unfold rejectPrev in Hx; rewrite Hl in Hx; pose proof (log_ok_zlen _ _ (ok_log _ _ _ Hok)).
  { case_decide; [simplify_eq; lia|]. apply obind_Some in Hx as (e & [? He]%go_index_Some & Hx).
    apply backOff_spec in Hx; [lia|]. apply lookup_lt_Some in He. lia. }
  assert (Hpk : log (pokeTimer (updateTerm rf (ae_Term args)).1) = log rf).
  { by destruct (pokeTimer_frame (updateTerm rf (ae_Term args)).1) as [-> _]. }
  case_decide.
  - simplify_eq. split_and!; [lia|lia|done|]. intros j k d e ? ? Hd%lookup_lt_Some. unfold zlen in *. lia.
  - apply obind_Some in Hx as (e0 & [? He]%go_index_Some & Hx).
    pose proof (lookup_lt_Some _ _ _ He).
    apply backOff_spec in Hx as (? & Hrun & _); [|lia]. split_and!; [lia|lia|done|].
    assert (Hall : ∀ j d, x ≤ Z.of_nat j ≤ ae_PrevLogIndex args → log rf !! j = Some d →
      TermIdx d = TermIdx e0).
    { intros j d ? Hd. destruct (decide (Z.of_nat j = ae_PrevLogIndex args)) as [Hj|].
      - replace j with (Z.to_nat (ae_PrevLogIndex args)) in Hd by lia. naive_solver.
      - apply (Hrun j); [lia|done]. }
    intros j k d e ? ? Hd He'. rewrite (Hall j d), (Hall k e); done.
Qed.

(** ** Persistence *)

(** C16: Reading back what persist wrote restores the term, the vote and the
    log, and everything else as on a first start. *)
Theorem persist_roundtrip rf n i :
  Make (Cmd:=Cmd) n i (persister (persist rf)) =
  mkRaft n i (persister (persist rf)) (currentTerm rf) (votedFor rf) (log rf) 0 0
    (replicate n 0) (replicate n 0) Follower 0 0 0 [].
Proof. apply Make_view. simpl. apply durable_view_encode. Qed.

(** ** Commitment *)

Lemma filter_all {A} (P : A → Prop) `{∀ x, Decision (P x)} (l : list A) :
  Forall P l → filter P l = l.
Proof. induction 1; [done|]. by rewrite filter_cons_True, IHForall. Qed.

Lemma filter_none {A} (P : A → Prop) `{∀ x, Decision (P x)} (l : list A) :
  Forall (λ x, ¬ P x) l → filter P l = [].
Proof. induction 1; [done|]. by rewrite filter_cons_False. Qed.

Lemma sorted_count (l : list Z) (i : nat) (x k : Z) :
  Sorted Z.le l → l !! i = Some x →
  (k ≤ x → (length l - i ≤ length (filter (Z.le k) l))%nat) ∧
  (x < k → (length (filter (Z.le k) l) < length l - i)%nat).
Proof.
  intros Hs Hx. apply Sorted_StronglySorted in Hs; [|intros ?; lia].
  pose proof (lookup_lt_Some _ _ _ Hx).
  rewrite <-(take_drop_middle l i x Hx) in Hs.
  apply StronglySorted_app in Hs as (Hlo & _ & [_ Hhi]%StronglySorted_inv).
  assert (filter (Z.le k) l = filter (Z.le k) (take i l) ++ filter (Z.le k) (x :: drop (S i) l)) as ->.
  { by rewrite <-filter_app, take_drop_middle. }
  rewrite length_app. rewrite Forall_forall in Hhi. split; intros Hk.
  - rewrite (filter_all _ (x :: _)); [simpl; rewrite length_drop; lia|].
    constructor; [done|]. apply Forall_forall. intros y Hy%Hhi. lia.
  - rewrite (filter_none _ (take i l)), filter_cons_False; [|lia|].
    + pose proof (length_filter (Z.le k) (drop (S i) l)). rewrite length_drop in *. simpl. lia.
    + apply Forall_forall. intros y Hy. specialize (Hlo y x Hy). set_solver by lia.
Qed.

(** How many entries of the leader's matchIndex have reached [k]: the peers that, to the leader's knowledge, hold the log
    up to there. *)
Definition holders rf (k : Z) : nat := length (filter (Z.le k) (matchIndex rf)).

(** C17: With an odd number of peers, the index a leader computes from
    matchIndex is the largest one that a strict majority of the entries of matchIndex have reached (what
    the leader knows of its peers' logs), and the
    leader commits it exactly when the entry there is of its current term. *)
Theorem commit_majority rf rf' :
  advanceCommit rf = Some rf' → length (matchIndex rf) = peers rf → Nat.Odd (peers rf) →
  ∃ m e, go_index (log rf) m = Some e ∧
    (∀ k, k ≤ m ↔ (peers rf < 2 * holders rf k)%nat) ∧
    commitIndex rf' = (if decide (TermIdx e >= currentTerm rf) then m else commitIndex rf).
Proof.
  intros (m & [_ Hm]%go_index_Some & H)%obind_Some Hlen [h Hodd].
  apply obind_Some in H as (e & He & H). exists m, e. split; [done|]. split.
  - intros k. destruct (sorted_count _ _ _ k (Sorted_merge_sort Z.le (matchIndex rf)) Hm) as [H1 H2].
    assert (Z.of_nat (peers rf) / 2 = Z.of_nat h) as Hh.
    { rewrite Hodd. rewrite <-(Nat2Z.inj_div _ 2). f_equal.
      rewrite Nat.add_comm, Nat.mul_comm. by rewrite Nat.div_add. }
    assert (length (filter (Z.le k) (sort_Ints (matchIndex rf))) = holders rf k) as Hf.
    { unfold holders, sort_Ints. by rewrite merge_sort_Permutation. }
    unfold sort_Ints in *. rewrite Hh, Nat2Z.id, Hf, merge_sort_Permutation, Hlen, Hodd in *.
    split; [intros ?%H1; lia|]. intros Hlt. destruct (decide (k ≤ m)); [done|].
    assert (m < k) as ?%H2 by lia. lia.
  - case_decide; [|by simplify_eq]. by apply applyLog_frame in H as (ms & _ & ->).
Qed.

(** ** Delivery to the service *)

(** C18: In every reachable state, the messages a server has sent on applyCh
    since it started and those its apply goroutines still hold carry exactly
    the indices 1 to lastApplied, each once. *)
Theorem apply_exactly_once n c i nd :
  reachable n c → nodes c !! i = Some nd →
  (CommandIndex <$> delivered nd ++ concat (applying (rf nd))) ≡ₚ seqZ 1 (lastApplied (rf nd)).
Proof. intros Hr Hi. by destruct (reachable_apply n c i nd Hr Hi) as [_ ?]. Qed.

End Theorems.

Lemma election_safety_witness :
  (1, 0%nat) ∈ elected (demo 12) ∧ (0%nat = 0%nat).
Proof.
  assert (H : (1, 0%nat) ∈ elected (demo 12))
    by (apply (bool_decide_unpack _); vm_compute; exact I).
  split; [exact H|]. exact (election_safety 3 (demo 12) 1 0 0 (demo_reachable 12) H H).
Defined.

Lemma one_vote_per_term_witness :
  (1%nat, 1, 0) ∈ votes (demo 3) ∧ 0 = 0.
Proof.
  assert (H : (1%nat, 1, 0) ∈ votes (demo 3))
    by (apply (bool_decide_unpack _); vm_compute; exact I).
  split; [exact H|]. exact (one_vote_per_term 3 (demo 3) 1 1 0 0 (demo_reachable 3) H H).
Defined.

(** A server of the run, and the states and requests of the other witnesses. *)
Definition demoNode (k i : nat) : Node Z :=
  default (initNode 3 0) (nodes (demo k) !! i).

Lemma log_invariant_witness :
  nodes (demo 12) !! 1%nat = Some (demoNode 12 1) ∧ zlen (log (rf (demoNode 12 1))) = 2 ∧
  currentTerm (rf (restart (demoNode 12 1))) = currentTerm (rf (demoNode 12 1)).
Proof.
  assert (H : nodes (demo 12) !! 1%nat = Some (demoNode 12 1)) by (vm_compute; reflexivity).
  split_and!; [exact H|vm_compute; reflexivity|].
  apply (log_invariant 3 (demo 12) 1 _ (demo_reachable 12) H).
Defined.

Lemma handlers_never_panic_witness :
  ∃ p ps, net (demo 8) = p :: ps ∧ target p = 1%nat ∧ arrive (demoNode 8 1) p ≠ Panic.
Proof.
  destruct (net (demo 8)) as [|p ps] eqn:E; [vm_compute in E; discriminate E|].
  assert (Ht : target p = 1%nat) by (vm_compute in E; injection E as <- _; reflexivity).
  exists p, ps. split_and!; [reflexivity|exact Ht|].
  apply (handlers_never_panic 3 (demo 8) p _ (demo_reachable 8)).
  - rewrite E. apply list_elem_of_here.
  - rewrite Ht. vm_compute. reflexivity.
Defined.

Definition fresh : Raft Z := Make 3 1 MakePersister.

Lemma request_vote_spec_witness :
  ∃ rf' reply, RequestVote fresh (mkRVArgs 1 0 0 0) = Some (rf', reply) ∧
    rvr_VoteGranted reply = true ∧ votedFor rf' = 0.
Proof.
  destruct (RequestVote fresh (mkRVArgs 1 0 0 0)) as [[rf' reply]|] eqn:E;
    [|vm_compute in E; discriminate E].
  exists rf', reply. destruct (request_vote_spec _ _ _ _ E) as (_ & _ & _ & Hg & Hv & _).
  assert (Hb : rvr_VoteGranted reply = true).
  { vm_compute in E. injection E as <- <-. reflexivity. }
  split_and!; [reflexivity|exact Hb|exact (proj1 (Hv Hb))].
Defined.

(** A follower of term 1 that holds entries of terms 0, 1, 1. *)
Definition follower3 : Raft Z :=
  persist (with_currentTerm 1 (with_log [mkEntry None 0; mkEntry (Some 5) 1; mkEntry (Some 6) 1] fresh)).
Definition replace2 : AppendEntriesArgs Z :=
  mkAEArgs 2 0 1 1 [mkEntry (Some 8) 2; mkEntry (Some 9) 2] 0.

Lemma replace2_run : ∃ rf' reply, AppendEntries follower3 replace2 = Some (rf', reply) ∧
  aer_Success reply = true.
Proof. eexists _, _. split; vm_compute; reflexivity. Qed.

Lemma append_entries_reference_witness :
  ∃ rf' reply, AppendEntries follower3 replace2 = Some (rf', reply) ∧
    log rf' = [mkEntry None 0; mkEntry (Some 5) 1; mkEntry (Some 8) 2; mkEntry (Some 9) 2].
Proof.
  destruct replace2_run as (rf' & reply & E & Hs). exists rf', reply. split; [exact E|].
  apply (proj2 (append_entries_reference _ _ _ _ E) Hs).
  intros [|k] d e Hd He Ht; simpl in Hd, He; [|discriminate He].
  injection Hd as <-. injection He as <-. discriminate Ht.
Defined.

Lemma append_entries_not_durable_witness :
  ∃ rf' reply, AppendEntries follower3 replace2 = Some (rf', reply) ∧
    zlen (log rf') - zlen (log (Make (Cmd:=Z) 3 1 (persister rf'))) = 2.
Proof.
  destruct replace2_run as (rf' & reply & E & Hs). exists rf', reply. split; [exact E|].
  apply (append_entries_not_durable _ _ _ _ 3 1 E Hs).
Defined.

Lemma follower3_ok : raft_ok 3 1 follower3.
Proof.
  assert (Hl : log_ok (currentTerm follower3) (log follower3)).
  { split; simpl; [by eexists _, _|..].
    - intros [|[|[|k]]] e He ?; simplify_eq/=; lia.
    - intros [|[|[|k]]] e He; simplify_eq/=; lia.
    - intros [|[|[|j]]] [|[|[|k]]] d e Hd He ?; simplify_eq/=; lia. }
  split; [reflexivity|reflexivity|lia|by right; right|done|exact Hl|done..|].
  by apply (persist_durable (with_currentTerm 1 (with_log (log follower3) fresh))).
Qed.

Definition probe2 : AppendEntriesArgs Z := mkAEArgs 2 0 2 2 [] 0.

Lemma append_entries_backoff_witness :
  ∃ rf' reply, AppendEntries follower3 probe2 = Some (rf', reply) ∧ 1 ≤ aer_NextIndex reply ≤ 2.
Proof.
  destruct (AppendEntries follower3 probe2) as [[rf' reply]|] eqn:E;
    [|vm_compute in E; discriminate E].
  exists rf', reply. split; [reflexivity|].
  apply (append_entries_backoff 3 1 follower3 probe2 rf' reply follower3_ok);
    [|exact E|vm_compute in E; injection E as <- <-; reflexivity|vm_compute; discriminate].
  split; [vm_compute; discriminate|vm_compute; discriminate|].
  split; simpl; [intros k d Hk; discriminate Hk..|intros j k d e Hj; discriminate Hj].
Defined.

(** A leader of five peers, three of which hold index 2. *)
Definition leader5 : Raft Z :=
  with_currentTerm 1 (with_matchIndex [2; 0; 2; 1; 3]
    (with_log [mkEntry None 0; mkEntry (Some 5) 1; mkEntry (Some 6) 1; mkEntry (Some 7) 1]
       (Make 5 0 MakePersister))).

Lemma commit_majority_witness :
  ∃ rf', advanceCommit leader5 = Some rf' ∧ commitIndex rf' = 2 ∧
    ∃ m e, go_index (log leader5) m = Some e ∧
      (∀ k, k ≤ m ↔ (peers leader5 < 2 * holders leader5 k)%nat) ∧
      commitIndex rf' = (if decide (TermIdx e >= currentTerm leader5) then m else 0).
Proof.
  destruct (advanceCommit leader5) as [rf'|] eqn:E; [|vm_compute in E; discriminate E].
  exists rf'. split_and!; [reflexivity|vm_compute in E; injection E as <-; reflexivity|].
  apply (commit_majority leader5 rf' E); [reflexivity|exists 2%nat; reflexivity].
Defined.

Lemma apply_exactly_once_witness :
  nodes (demo 12) !! 0%nat = Some (demoNode 12 0) ∧
  (CommandIndex <$> delivered (demoNode 12 0) ++ concat (applying (rf (demoNode 12 0)))) ≡ₚ [1].
Proof.
  assert (H : nodes (demo 12) !! 0%nat = Some (demoNode 12 0)) by (vm_compute; reflexivity).
  split; [exact H|]. exact (apply_exactly_once 3 (demo 12) 0 _ (demo_reachable 12) H).
Defined.
