(* ===== verification/RaftFindings.v ===== *)
(** * Behaviours of raft.go that break the promises of Raft

    Each theorem exhibits a concrete run or state of the model in which the
    code, as written, does something the algorithm rules out. *)

From S2P Require Import Prelude Persister Raft RaftCluster RaftInv RaftTheorems.

(** ** A stale win *)

(** Server 0 asks for votes of term 1 and server 1 grants. Server 2 starts an
    election too, ends up in term 2 and asks servers 0 and 1, which both grant:
    server 0 is now in term 2. Server 2 counts its majority and leads term 2.
    Then the vote of term 1 reaches server 0: lines 515-524 count it without
    looking at the current term, and server 0 becomes leader of term 2 as well.
    The two leaders get commands 10 and 20, each replicates to server 1, and each
    commits its own at index 1. *)
Definition staleWin : list (Event Z) :=
  [EvTimer 0 1; EvLock 0; EvDeliver 0; EvTimer 2 1; EvLock 2; EvTimer 2 0; EvLock 2;
   EvDeliver 0; EvDeliver 0; EvLock 2; EvLock 2; EvDeliver 3; EvLock 0; EvLock 0;
   EvStart 0 (Some 10); EvStart 2 (Some 20); EvLock 0; EvLock 2; EvDeliver 2; EvDeliver 0;
   EvLock 0; EvApply 0 0; EvDeliver 0; EvDeliver 0; EvLock 2; EvApply 2 0].

Definition view (c : Cluster Z) (i : nat) : option (Z * Z * list (ApplyMsg Z)) :=
  nd ← nodes c !! i; Some (status (rf nd), currentTerm (rf nd), delivered nd).

(** C40: A reachable state of three servers in which two servers lead the same term
    and have delivered different commands for the same index. *)
Theorem two_leaders_diverge :
  ∃ c, reachable (Cmd:=Z) 3 c ∧
    view c 0 = Some (Leader, 2, [mkApplyMsg true (Some 10) 1]) ∧
    view c 2 = Some (Leader, 2, [mkApplyMsg true (Some 20) 1]).
Proof.
  destruct (crun (initCluster 3) staleWin) as [c|] eqn:H; [|vm_compute in H; discriminate H].
  exists c. split; [eapply crun_reachable; [constructor|exact H]|].
  vm_compute in H. injection H as <-. split; reflexivity.
Qed.

(** ** Commit without a majority *)

(** With an even number of peers, the index computed at line 439 may be held
    by only half of them. Server 0 of four is elected with the votes of
    servers 1 and 2, gets command 5 and hears from server 1 only. *)
Definition halfCommit : list (Event Z) :=
  [EvTimer 0 1; EvLock 0; EvDeliver 0; EvDeliver 0; EvLock 0; EvDeliver 0; EvDeliver 0; EvLock 0;
   EvLock 0; EvStart 0 (Some 5); EvLock 0; EvDeliver 0; EvDeliver 0; EvLock 0; EvApply 0 0].

(** A reachable state of four servers in which the leader has delivered
    a command that only two of the four logs contain. *)
Theorem even_commit_no_majority :
  ∃ c, reachable (Cmd:=Z) 4 c ∧
    view c 0 = Some (Leader, 1, [mkApplyMsg true (Some 5) 1]) ∧
    ((λ nd, zlen (log (rf nd))) <$> nodes c) = [2; 2; 1; 1].
Proof.
  destruct (crun (initCluster 4) halfCommit) as [c|] eqn:H; [|vm_compute in H; discriminate H].
  exists c. split; [eapply crun_reachable; [constructor|exact H]|].
  vm_compute in H. injection H as <-. split; reflexivity.
Qed.

(** ** Out-of-order delivery *)

(** Two batches of a leader's entries are sent by two goroutines. *)
Definition outOfOrder : list (Event Z) :=
  take 7 demoSchedule ++
  [EvLock 0; EvDeliver 0; EvDeliver 0; EvLock 0;
   EvStart 0 (Some 8); EvTimer 0 0; EvLock 0; EvDeliver 0; EvDeliver 0; EvLock 0;
   EvApply 0 1; EvApply 0 0].

(** A reachable state of three servers in which a leader has delivered index 2
    before index 1 on its apply channel. *)
Theorem out_of_order_delivery :
  ∃ c nd, reachable (Cmd:=Z) 3 c ∧ nodes c !! 0%nat = Some nd ∧
    (CommandIndex <$> delivered nd) = [2; 1].
Proof.
  destruct (crun (initCluster 3) outOfOrder) as [c|] eqn:H; [|vm_compute in H; discriminate H].
  exists c. eexists. split; [eapply crun_reachable; [constructor|exact H]|].
  vm_compute in H. injection H as <-. split; reflexivity.
Qed.

(** ** Acknowledged entries that are lost *)

(** A follower acknowledges three entries; an older, shorter request of the
    same leader arrives late and removes the last one (line 282 cuts the log
    although nothing conflicts). *)
Theorem stale_append_truncates :
  ∃ rf1 rf2 r1 r2,
    AppendEntries fresh (mkAEArgs 1 0 0 0 [mkEntry (Some 5) 1; mkEntry (Some 6) 1] 0) = Some (rf1, r1) ∧
    aer_Success r1 = true ∧ zlen (log rf1) = 3 ∧
    AppendEntries rf1 (mkAEArgs 1 0 0 0 [mkEntry (Some 5) 1] 0) = Some (rf2, r2) ∧
    aer_Success r2 = true ∧ zlen (log rf2) = 2.
Proof. eexists _, _, _, _. split_and!; vm_compute; reflexivity. Qed.

(** A follower acknowledges entries and restarts: line 283 persists the log
    before line 286 appends them, so they are gone. *)
Theorem acknowledged_entries_lost :
  ∃ rf1 r1,
    AppendEntries fresh (mkAEArgs 1 0 0 0 [mkEntry (Some 5) 1; mkEntry (Some 6) 1] 0) = Some (rf1, r1) ∧
    aer_Success r1 = true ∧ zlen (log rf1) = 3 ∧
    zlen (log (Make (Cmd:=Z) 3 1 (persister rf1))) = 1.
Proof. eexists _, _. split_and!; vm_compute; reflexivity. Qed.

