(* ===== verification/Labrpc.v ===== *)
(** * The simulated network: labrpc/labrpc.go

    A client's [Call] becomes a [reqMsg]; the network's goroutine starts one
    [ProcessReq] for each, which looks the end up, may drop the request, starts
    the handler in a goroutine of its own, waits for it while it polls whether
    the server was deleted, and answers on the request's channel. The state of
    one [ProcessReq] is a [PC]; the processes, the handlers and the calls that
    reconfigure the network interleave as the events of [nstep]. The draws of
    [math/rand] are arguments of the events, so every outcome is covered.

    [Name] is the type of end and server names (the code's [interface{}]),
    [Val] and [Ty] are Go values and their types as reflect sees them, and [W] is the
    state behind the receivers that the registered methods act on.
    A [*Server] is its index in [heap]. *)

From S2P Require Import Prelude Persister.

(** ** What labrpc relies on of labgob

    [decodeInto old b] decodes [b] into a variable that holds [old]: the value
    it holds afterwards and whether [Decode] returned no error. As labgob warns,
    decoding is only reliable into a variable that holds its zero value. *)
Class LabGob (Val Ty : Type) := {
  typeOf : Val → Ty;
  zero : Ty → Val;
  encodeVal : Val → bytes;
  decodeInto : Val → bytes → Val * bool;
  decodeInto_encode : ∀ v, decodeInto (zero (typeOf v)) (encodeVal v) = (v, true);
}.

(** ** Strings: [strings.LastIndex(s, c)], [s[:n]] and [s[n:]] *)

Fixpoint LastIndex (s : string) (c : Ascii.ascii) : option nat :=
  match s with
  | EmptyString => None
  | String x s =>
      match LastIndex s c with
      | Some n => Some (S n)
      | None => if decide (x = c) then Some O else None
      end
  end.

Fixpoint strTo (n : nat) (s : string) : string :=
  match n, s with S n, String x s => String x (strTo n s) | _, _ => EmptyString end.

Fixpoint strFrom (n : nat) (s : string) : string :=
  match n, s with S n, String _ s => strFrom n s | _, _ => s end.

Definition dotChar : Ascii.ascii := Ascii.ascii_of_nat 46.

(** [svcMeth[:dot]] and [svcMeth[dot+1:]]; without a dot, [dot] is -1 and the
    first slice expression panics. *)
Definition splitMeth (svcMeth : string) : option (string * string) :=
  let* dot := LastIndex svcMeth dotChar in
  Some (strTo dot svcMeth, strFrom (S dot) svcMeth).

Section Labrpc.
Context {Name Val Ty W : Type} `{Countable Name} `{LG : LabGob Val Ty}.

(** ** Messages, services, servers *)

Record reqMsg := mkReq { endname : Name; svcMeth : string; argsType : Ty; args : bytes }.

Record replyMsg := mkReply { ok : bool; reply : bytes }.

(** A method as reflect describes it. [Func rcvr args reply] is the call with
    the zeroed reply variable. *)
Record Method := mkMethod {
  MethodName : string;
  PkgPath : string;
  NumIn : Z;
  in2Ptr : bool;
  replyType : Ty;
  NumOut : Z;
  Func : nat → Val → Val → W → W * Val;
}.

Record Service := mkService { svcName : string; rcvr : nat; methods : gmap string Method }.

Record Server := mkServer { services : gmap string Service; count : Z }.

Definition isHandler (m : Method) : bool :=
  negb (bool_decide (PkgPath m ≠ "") || bool_decide (NumIn m ≠ 3) ||
        negb (in2Ptr m) || bool_decide (NumOut m ≠ 0)).

(** [MakeService] of a receiver whose type is called [name] and has methods [ms]. *)
Definition MakeService (rcvr : nat) (name : string) (ms : list Method) : Service :=
  mkService name rcvr
    (foldl (λ acc m, if isHandler m then <[MethodName m := m]> acc else acc) ∅ ms).

Definition MakeServer : Server := mkServer ∅ 0.

Definition AddService (rs : Server) (svc : Service) : Server :=
  mkServer (<[svcName svc := svc]> (services rs)) (count rs).

(** Service.dispatch: the error of [ad.Decode] is ignored, an unknown method
    ends the process. *)
Definition serviceDispatch (svc : Service) (methname : string) (req : reqMsg) (w : W)
    : option (W * replyMsg) :=
  let* m := methods svc !! methname in
  let a := (decodeInto (zero (argsType req)) (args req)).1 in
  let '(w, replyv) := Func m (rcvr svc) a (zero (replyType m)) w in
  Some (w, mkReply true (encodeVal replyv)).

(** Server.dispatch: [None] when the process ends (no dot in the method's name,
    unknown service, unknown method). *)
Definition dispatch (rs : Server) (req : reqMsg) (w : W) : option (Server * W * replyMsg) :=
  let rs := mkServer (services rs) (count rs + 1) in
  let* '(serviceName, methodName) := splitMeth (svcMeth req) in
  let* service := services rs !! serviceName in
  let* '(w, r) := serviceDispatch service methodName req w in
  Some (rs, w, r).

(** ** The network *)

Record Network := mkNetwork {
  reliable : bool;
  longDelays : bool;
  longReordering : bool;
  ends : gset Name;
  enabled : gmap Name bool;
  servers : gmap Name (option nat);
  connections : gmap Name (option Name);
  done : bool;
  total : Z;
}.

Definition MakeNetwork : Network := mkNetwork true false false ∅ ∅ ∅ ∅ false 0.

(** [rn.enabled[e]], [rn.servers[s]] and [rn.connections[e]]: a missing key
    reads as the zero value. *)
Definition isEnabled (rn : Network) (e : Name) : bool := default false (enabled rn !! e).
Definition serverOf (rn : Network) (s : Name) : option nat := default None (servers rn !! s).
Definition connectionOf (rn : Network) (e : Name) : option Name := default None (connections rn !! e).

Definition Reliable (yes : bool) (rn : Network) : Network :=
  mkNetwork yes (longDelays rn) (longReordering rn) (ends rn) (enabled rn) (servers rn)
    (connections rn) (done rn) (total rn).

Definition LongReordering (yes : bool) (rn : Network) : Network :=
  mkNetwork (reliable rn) (longDelays rn) yes (ends rn) (enabled rn) (servers rn)
    (connections rn) (done rn) (total rn).

Definition LongDelays (yes : bool) (rn : Network) : Network :=
  mkNetwork (reliable rn) yes (longReordering rn) (ends rn) (enabled rn) (servers rn)
    (connections rn) (done rn) (total rn).

(** A name that exists already ends the process. *)
Definition MakeEnd (e : Name) (rn : Network) : option Network :=
  if decide (e ∈ ends rn) then None
  else Some (mkNetwork (reliable rn) (longDelays rn) (longReordering rn) ({[ e ]} ∪ ends rn)
    (<[e := false]> (enabled rn)) (servers rn) (<[e := None]> (connections rn)) (done rn) (total rn)).

Definition setServer (s : Name) (rs : option nat) (rn : Network) : Network :=
  mkNetwork (reliable rn) (longDelays rn) (longReordering rn) (ends rn) (enabled rn)
    (<[s := rs]> (servers rn)) (connections rn) (done rn) (total rn).

Definition AddServer (s : Name) (rs : nat) (rn : Network) : Network := setServer s (Some rs) rn.

Definition DeleteServer (s : Name) (rn : Network) : Network := setServer s None rn.

Definition Connect (e s : Name) (rn : Network) : Network :=
  mkNetwork (reliable rn) (longDelays rn) (longReordering rn) (ends rn) (enabled rn) (servers rn)
    (<[e := Some s]> (connections rn)) (done rn) (total rn).

Definition Enable (e : Name) (b : bool) (rn : Network) : Network :=
  mkNetwork (reliable rn) (longDelays rn) (longReordering rn) (ends rn) (<[e := b]> (enabled rn))
    (servers rn) (connections rn) (done rn) (total rn).

(** Closing [rn.done] a second time panics. *)
Definition Cleanup (rn : Network) : option Network :=
  if done rn then None
  else Some (mkNetwork (reliable rn) (longDelays rn) (longReordering rn) (ends rn) (enabled rn)
    (servers rn) (connections rn) true (total rn)).

(** The network goroutine's [atomic.AddInt32(&rn.count, 1)]. *)
Definition countReq (rn : Network) : Network :=
  mkNetwork (reliable rn) (longDelays rn) (longReordering rn) (ends rn) (enabled rn) (servers rn)
    (connections rn) (done rn) ((total rn + 1 + 2 ^ 31) mod 2 ^ 32 - 2 ^ 31).

Definition GetTotalCount (rn : Network) : Z := total rn.

(** [GetCount] on a deleted server calls a method of a nil pointer: a panic. *)
Definition GetCount (rn : Network) (heap : list Server) (s : Name) : option Z :=
  let* p := serverOf rn s in
  let* rs := heap !! p in
  Some (count rs).

Record Info := mkInfo {
  iEnabled : bool;
  iServername : option Name;
  iServer : option nat;
  iReliable : bool;
  iLongreordering : bool;
}.

Definition ReadEndnameInfo (rn : Network) (e : Name) : Info :=
  let servername := connectionOf rn e in
  mkInfo (isEnabled rn e) servername
    (match servername with Some s => serverOf rn s | None => None end)
    (reliable rn) (longReordering rn).

Definition IsServerDead (rn : Network) (e : Name) (s : Name) (server : nat) : bool :=
  negb (isEnabled rn e) || bool_decide (serverOf rn s ≠ Some server).

(** ** One [ProcessReq] *)

(** The goroutine that runs the handler on [server]: it has not called [dispatch]
    yet, it offers the reply on [ech], or its reply was taken. *)
Inductive Handler := HRunning (server : nat) | HOffers (r : replyMsg) | HTaken.

(** Where [ProcessReq] is: before [ReadEndnameInfo]; in the waiting loop; after
    the loop, with the reply when [replyOK]; with a reply or a refusal
    on a timer; finished, with what it sent on [replyCh]. *)
Inductive PC :=
  | PStart
  | PWait (s : Name) (server : nat) (rel longre : bool)
  | PAfter (s : Name) (server : nat) (rel longre : bool) (got : option replyMsg)
  | PTimer (r : replyMsg)
  | PReplied (r : replyMsg).

Record Thread := mkThread { req : reqMsg; pc : PC; handler : option Handler }.

Definition refused : replyMsg := mkReply false [].

(** The first part, up to the waiting loop. The draw [rnd] decides a drop. *)
Definition processStart (rn : Network) (rnd : Z) (t : Thread) : Thread :=
  let info := ReadEndnameInfo rn (endname (req t)) in
  match iEnabled info, iServername info, iServer info with
  | true, Some s, Some server =>
      if negb (iReliable info) && bool_decide (rnd mod 1000 < 100)
      then mkThread (req t) (PReplied refused) None
      else mkThread (req t) (PWait s server (iReliable info) (iLongreordering info))
             (Some (HRunning server))
  | _, _, _ => mkThread (req t) (PTimer refused) None
  end.

(** [case reply = <-ech]. *)
Definition processReceive (t : Thread) : option Thread :=
  match pc t, handler t with
  | PWait s server rel longre, Some (HOffers r) =>
      Some (mkThread (req t) (PAfter s server rel longre (Some r)) (Some HTaken))
  | _, _ => None
  end.

(** [case <-time.After(100 * time.Millisecond)]. *)
Definition processTick (rn : Network) (t : Thread) : option Thread :=
  match pc t with
  | PWait s server rel longre =>
      Some (if IsServerDead rn (endname (req t)) s server
            then mkThread (req t) (PAfter s server rel longre None) (handler t) else t)
  | _ => None
  end.

(** After the loop, with the draws of [rand.Int()%1000] and [rand.Intn(900)]. *)
Definition processFinish (rn : Network) (rnd1 rnd2 : Z) (t : Thread) : option Thread :=
  match pc t with
  | PAfter s server rel longre got =>
      let serverDead := IsServerDead rn (endname (req t)) s server in
      Some (mkThread (req t)
        (match got with
         | Some r =>
             if serverDead then PReplied refused
             else if negb rel && bool_decide (rnd1 mod 1000 < 100) then PReplied refused
             else if longre && bool_decide (rnd2 < 600) then PTimer r
             else PReplied r
         | None => PReplied refused
         end) (handler t))
  | _ => None
  end.

(** The function given to [time.AfterFunc]. *)
Definition processTimer (t : Thread) : option Thread :=
  match pc t with
  | PTimer r => Some (mkThread (req t) (PReplied r) (handler t))
  | _ => None
  end.

(** ** The client: [ClientEnd.Call]

    [makeReq] is what it sends; [callReturn] what it returns once [rep] has
    arrived, [reply0] being the caller's reply variable. A call whose request is
    not received because the network was cleaned up returns false and leaves no
    trace in the network. *)
Definition makeReq (e : Name) (svcMeth : string) (a : Val) : reqMsg :=
  mkReq e svcMeth (typeOf a) (encodeVal a).

Definition callReturn (reply0 : Val) (rep : replyMsg) : option (bool * Val) :=
  if ok rep then
    let '(v, noerr) := decodeInto reply0 (reply rep) in
    assert* noerr in Some (true, v)
  else Some (false, reply0).

(** ** The system *)

Inductive Conf :=
  | CReliable (yes : bool)
  | CLongReordering (yes : bool)
  | CLongDelays (yes : bool)
  | CMakeEnd (e : Name)
  | CConnect (e s : Name)
  | CEnable (e : Name) (b : bool)
  | CDeleteServer (s : Name)
  | CMakeServer
  | CAddService (p : nat) (svc : Service)
  | CAddServer (s : Name) (p : nat)
  | CCleanup.

Inductive NEvent :=
  | EConf (cf : Conf)
  | ECall (e : Name) (svcMeth : string) (a : Val)
  | ELoopExit
  | EStart (k : nat) (rnd : Z)
  | EHandle (k : nat)
  | EReceive (k : nat)
  | ETick (k : nat)
  | EFinish (k : nat) (rnd1 rnd2 : Z)
  | ETimer (k : nat).

(** [executed] is a ghost record of the handlers that ran, with their replies;
    [serving] says whether the network's goroutine still receives. *)
Record System := mkSystem {
  net : Network;
  heap : list Server;
  world : W;
  threads : list Thread;
  executed : list (nat * replyMsg);
  serving : bool;
}.

(** [None]: the process ends (a panic or log.Fatalf). *)
Definition confStep (cf : Conf) (rn : Network) (hp : list Server) : option (Network * list Server) :=
  match cf with
  | CReliable yes => Some (Reliable yes rn, hp)
  | CLongReordering yes => Some (LongReordering yes rn, hp)
  | CLongDelays yes => Some (LongDelays yes rn, hp)
  | CMakeEnd e => let* rn := MakeEnd e rn in Some (rn, hp)
  | CConnect e s => Some (Connect e s rn, hp)
  | CEnable e b => Some (Enable e b rn, hp)
  | CDeleteServer s => Some (DeleteServer s rn, hp)
  | CMakeServer => Some (rn, hp ++ [MakeServer])
  | CAddService p svc => let* rs := hp !! p in Some (rn, <[p := AddService rs svc]> hp)
  | CAddServer s p => let* _ := hp !! p in Some (AddServer s p rn, hp)
  | CCleanup => let* rn := Cleanup rn in Some (rn, hp)
  end.

Definition withThread (s : System) (k : nat) (t : Thread) : System :=
  mkSystem (net s) (heap s) (world s) (<[k := t]> (threads s)) (executed s) (serving s).

(** The handler goroutine of request [k] runs [server.dispatch(req)]. *)
Definition handleStep (s : System) (k : nat) (t : Thread) : option System :=
  match handler t with
  | Some (HRunning server) =>
      let* rs := heap s !! server in
      let* '(rs, w, r) := dispatch rs (req t) (world s) in
      Some (mkSystem (net s) (<[server := rs]> (heap s)) w
        (<[k := mkThread (req t) (pc t) (Some (HOffers r))]> (threads s))
        (executed s ++ [(k, r)]) (serving s))
  | _ => None
  end.

(** [None]: the event is not possible in [s], or the process ends. *)
Definition nstep (s : System) (e : NEvent) : option System :=
  match e with
  | EConf cf =>
      let* '(rn, hp) := confStep cf (net s) (heap s) in
      Some (mkSystem rn hp (world s) (threads s) (executed s) (serving s))
  | ECall e svcMeth a =>
      assert* serving s in
      Some (mkSystem (countReq (net s)) (heap s) (world s)
        (threads s ++ [mkThread (makeReq e svcMeth a) PStart None]) (executed s) true)
  | ELoopExit =>
      assert* done (net s) in
      Some (mkSystem (net s) (heap s) (world s) (threads s) (executed s) false)
  | EStart k rnd =>
      let* t := threads s !! k in
      match pc t, handler t with
      | PStart, None => Some (withThread s k (processStart (net s) rnd t))
      | _, _ => None
      end
  | EHandle k => let* t := threads s !! k in handleStep s k t
  | EReceive k =>
      let* t := threads s !! k in let* t := processReceive t in Some (withThread s k t)
  | ETick k =>
      let* t := threads s !! k in let* t := processTick (net s) t in Some (withThread s k t)
  | EFinish k r1 r2 =>
      let* t := threads s !! k in let* t := processFinish (net s) r1 r2 t in Some (withThread s k t)
  | ETimer k =>
      let* t := threads s !! k in let* t := processTimer t in Some (withThread s k t)
  end.

Fixpoint nrun (s : System) (es : list NEvent) : option System :=
  match es with
  | [] => Some s
  | e :: es => let* s := nstep s e in nrun s es
  end.

Definition initSystem (w : W) : System := mkSystem MakeNetwork [] w [] [] true.

(** ** Steps of one request *)

(** The handler of [t] has not run. *)
Definition pending (t : Thread) : Prop :=
  match handler t with None | Some (HRunning _) => True | _ => False end.

(** [r] is the positive reply that [t] has decided to send. *)
Definition settled (t : Thread) (r : replyMsg) : Prop :=
  ok r = true ∧ (pc t = PTimer r ∨ pc t = PReplied r).

(** [t] holds [r], which can only come from its handler. *)
Definition holds (t : Thread) (r : replyMsg) : Prop :=
  handler t = Some (HOffers r) ∨ (∃ s p a b, pc t = PAfter s p a b (Some r)) ∨ settled t r.

(** No handler was or will be started. *)
Definition rejected (t : Thread) : Prop :=
  handler t = None ∧ (pc t = PTimer refused ∨ pc t = PReplied refused).

Record tmove (rn : Network) (t t' : Thread) : Prop := {
  tm_req : req t' = req t;
  tm_pending : pending t' → pending t;
  tm_holds : ∀ r, holds t' r → holds t r;
  tm_settled : ∀ r, settled t' r → settled t r ∨
    ∃ s p a b, pc t = PAfter s p a b (Some r) ∧ IsServerDead rn (endname (req t)) s p = false;
  tm_rejected : rejected t → rejected t';
}.

Ltac tm_crush :=
  constructor; unfold pending, holds, settled, rejected in *; simpl in *;
  [done | naive_solver | naive_solver | naive_solver | naive_solver].

Lemma processStart_move rn rnd t : pc t = PStart → handler t = None → tmove rn t (processStart rn rnd t).
Proof.
  destruct t as [q c h]. simpl. intros -> ->. unfold processStart. simpl.
  repeat case_match; tm_crush.
Qed.

Lemma processReceive_move rn t t' : processReceive t = Some t' → tmove rn t t'.
Proof.
  destruct t as [q c h]. unfold processReceive. simpl. intros. repeat case_match; simplify_eq.
  tm_crush.
Qed.

Lemma processTick_move rn t t' : processTick rn t = Some t' → tmove rn t t'.
Proof.
  destruct t as [q c h]. unfold processTick. simpl. intros.
  repeat case_match; simplify_eq; tm_crush.
Qed.

Lemma processFinish_move rn r1 r2 t t' : processFinish rn r1 r2 t = Some t' → tmove rn t t'.
Proof.
  destruct t as [q c h]. unfold processFinish. simpl. intros.
  repeat case_match; simplify_eq; tm_crush.
Qed.

Lemma processTimer_move rn t t' : processTimer t = Some t' → tmove rn t t'.
Proof.
  destruct t as [q c h]. unfold processTimer. simpl. intros.
  repeat case_match; simplify_eq. tm_crush.
Qed.

(** The four things a step does to the requests and the executions. *)
Inductive step_kind (s s' : System) : Prop :=
  | sk_same : threads s' = threads s → executed s' = executed s → step_kind s s'
  | sk_call q : threads s' = threads s ++ [mkThread q PStart None] →
      executed s' = executed s → step_kind s s'
  | sk_move k t t' : threads s !! k = Some t → tmove (net s) t t' →
      threads s' = <[k := t']> (threads s) → executed s' = executed s → step_kind s s'
  | sk_handle k t p r : threads s !! k = Some t → handler t = Some (HRunning p) →
      threads s' = <[k := mkThread (req t) (pc t) (Some (HOffers r))]> (threads s) →
      executed s' = executed s ++ [(k, r)] → step_kind s s'.

Lemma nstep_kind s e s' : nstep s e = Some s' → step_kind s s'.
Proof.
  destruct e as [cf|e m a| |k rnd|k|k|k|k r1 r2|k]; simpl; intros Hs.
  - destruct (confStep _ _ _) as [[rn hp]|]; simplify_eq/=. by apply sk_same.
  - case_match; simplify_eq. by eapply sk_call.
  - case_match; simplify_eq. by apply sk_same.
  - go_inv. repeat case_match; simplify_eq.
    eapply sk_move; [done|by apply (processStart_move _ rnd)|done..].
  - go_inv. unfold handleStep in Hs. repeat case_match; simplify_eq. go_inv.
    repeat case_match; simplify_eq. by eapply sk_handle.
  - go_inv. eapply sk_move; [done|by apply processReceive_move|done..].
  - go_inv. eapply sk_move; [done|by apply processTick_move|done..].
  - go_inv. eapply sk_move; [done|by eapply processFinish_move|done..].
  - go_inv. eapply sk_move; [done|by apply processTimer_move|done..].
Qed.

(** ** The invariant *)

Record system_ok (s : System) : Prop := {
  so_once : NoDup (executed s).*1;
  so_range : ∀ k, k ∈ (executed s).*1 → (k < length (threads s))%nat;
  so_pending : ∀ k t, threads s !! k = Some t → pending t → k ∉ (executed s).*1;
  so_holds : ∀ k t r, threads s !! k = Some t → holds t r → (k, r) ∈ executed s;
}.

Lemma init_ok w : system_ok (initSystem w).
Proof. split; simpl; [constructor|intros ? ?%elem_of_nil|..]; done. Qed.

Lemma nstep_ok s e s' : nstep s e = Some s' → system_ok s → system_ok s'.
Proof.
  intros Hs [Ho Hr Hp Hh].
  destruct (nstep_kind _ _ _ Hs) as [Ht He|q Ht He|k t t' Hk Hm Ht He|k t p r Hk Hrun Ht He].
  - split; rewrite ?Ht, ?He; eauto.
  - split; rewrite ?Ht, ?He; [done|..].
    + intros k Hk. rewrite length_app. specialize (Hr k Hk). simpl. lia.
    + intros k t [?|[? ?]]%lookup_app_Some Hpend; [by eapply Hp|].
      intros Hin%Hr. lia.
    + intros k t r [?|[? Hx]]%lookup_app_Some Hold; [by eapply Hh|].
      apply list_lookup_singleton_Some in Hx as [? <-].
      unfold holds, settled in Hold. simpl in Hold. naive_solver.
  - split; rewrite ?Ht, ?He, ?length_insert; [done..| |].
    + intros k1 t1 [(<- & <- & _)|[? ?]]%list_lookup_insert_Some Hpend; [|by eapply Hp].
      eapply Hp; [done|]. by apply Hm.
    + intros k1 t1 r [(<- & <- & _)|[? ?]]%list_lookup_insert_Some Hold; [|by eapply Hh].
      eapply Hh; [done|]. by apply Hm.
  - assert (Hlt : (k < length (threads s))%nat) by by eapply lookup_lt_Some.
    assert (Hnew : k ∉ (executed s).*1).
    { eapply Hp; [done|]. unfold pending. by rewrite Hrun. }
    split; rewrite ?Ht, ?He, ?length_insert, ?fmap_app.
    + apply NoDup_app. split_and!; [done| |apply NoDup_singleton].
      by intros k1 Hin ->%list_elem_of_singleton.
    + intros k1 [?| ->%list_elem_of_singleton]%elem_of_app; eauto.
    + intros k1 t1 [(<- & <- & _)|[Hne Hk1]]%list_lookup_insert_Some Hpend; [done|].
      intros [Hin| ->%list_elem_of_singleton]%elem_of_app; [|done]. by eapply Hp.
    + intros k1 t1 r1 Hl Hold. apply elem_of_app.
      apply list_lookup_insert_Some in Hl as [(<- & <- & _)|[Hne Hk1]]; [|left; by eapply Hh].
      destruct Hold as [Ho1|Ho1].
      * simplify_eq/=. right. by apply list_elem_of_singleton.
      * left. eapply Hh; [done|]. right. exact Ho1.
Qed.

Lemma nrun_app s es es' : nrun s (es ++ es') = obind (nrun s es) (λ s, nrun s es').
Proof. revert s. induction es as [|e es IH]; intros s; simpl; [done|]. by destruct (nstep s e); simpl. Qed.

Lemma nrun_snoc s es e s' :
  nrun s (es ++ [e]) = Some s' ↔ ∃ s1, nrun s es = Some s1 ∧ nstep s1 e = Some s'.
Proof.
  rewrite nrun_app, obind_Some. simpl. split; intros (s1 & ? & Hs); exists s1; split; try done.
  - by apply obind_Some in Hs as (? & ? & [= ->]).
  - by rewrite Hs.
Qed.

Lemma nrun_ok s es s' : nrun s es = Some s' → system_ok s → system_ok s'.
Proof.
  revert s. induction es as [|e es IH]; intros s; simpl; [by intros [= ->]|].
  intros (s1 & Hs1 & Hrun)%obind_Some Hok. eapply IH, nstep_ok; done.
Qed.

(** A request keeps its index and its message. *)
Lemma nstep_back s e s' k t' :
  nstep s e = Some s' → threads s' !! k = Some t' →
  (∃ t, threads s !! k = Some t ∧ req t' = req t ∧
     (∀ r, settled t' r → settled t r ∨
        ∃ sn p a b, pc t = PAfter sn p a b (Some r) ∧
                    IsServerDead (net s) (endname (req t)) sn p = false)) ∨
  (threads s !! k = None ∧ pc t' = PStart).
Proof.
  intros Hs Hk'.
  destruct (nstep_kind _ _ _ Hs) as [Ht He|q Ht He|k1 t t1 Hk Hm Ht He|k1 t p r Hk Hrun Ht He];
    rewrite Ht in Hk'.
  - left. exists t'. naive_solver.
  - apply lookup_app_Some in Hk' as [?|[? Hx]]; [left; exists t'; naive_solver|].
    apply list_lookup_singleton_Some in Hx as [? <-]. right.
    split; [by apply lookup_ge_None|done].
  - left. apply list_lookup_insert_Some in Hk' as [(<- & <- & _)|[? ?]].
    + exists t. split_and!; [done|apply Hm|apply Hm].
    + exists t'. naive_solver.
  - left. apply list_lookup_insert_Some in Hk' as [(<- & <- & _)|[? ?]].
    + exists t. split_and!; [done|done|]. unfold settled. simpl. naive_solver.
    + exists t'. naive_solver.
Qed.

Lemma nstep_executed s e s' : nstep s e = Some s' → ∀ x, x ∈ executed s → x ∈ executed s'.
Proof.
  intros Hs x Hx. destruct (nstep_kind _ _ _ Hs) as [? ->|? ? ->|? ? ? ? ? ? ->|? ? ? ? ? ? ? ->];
    [done..|]. apply elem_of_app. by left.
Qed.

(** The moment at which the positive reply [r] to request [k] was settled. *)
Definition decided (w : W) (es : list NEvent) (k : nat) (q : reqMsg) (r : replyMsg) : Prop :=
  ∃ es1 es2 s1 t1 sn p a b,
    es = es1 ++ es2 ∧ nrun (initSystem w) es1 = Some s1 ∧ threads s1 !! k = Some t1 ∧
    req t1 = q ∧ pc t1 = PAfter sn p a b (Some r) ∧ (k, r) ∈ executed s1 ∧
    isEnabled (net s1) (endname q) = true ∧ serverOf (net s1) sn = Some p.

Lemma IsServerDead_false rn e sn p :
  IsServerDead rn e sn p = false ↔ isEnabled rn e = true ∧ serverOf rn sn = Some p.
Proof.
  unfold IsServerDead. rewrite orb_false_iff, negb_false_iff, bool_decide_eq_false.
  destruct (decide (serverOf rn sn = Some p)); naive_solver.
Qed.

Lemma settled_decided w es s k t r :
  nrun (initSystem w) es = Some s → threads s !! k = Some t → settled t r →
  decided w es k (req t) r.
Proof.
  revert s t. induction es as [|e es IH] using rev_ind; intros s t.
  { by intros [= <-]. }
  intros (s1 & Hrun & Hs)%nrun_snoc Hk Hset.
  destruct (nstep_back _ _ _ _ _ Hs Hk) as [(t1 & Hk1 & Hreq & Hback)|[_ Hpc]].
  2: { destruct Hset as [_ [? | ?]]; congruence. }
  destruct (Hback r Hset) as [Hset1|(sn & p & a & b & Hpc & Hdead)].
  - destruct (IH _ _ Hrun Hk1 Hset1) as (es1 & es2 & s0 & t0 & sn & p & a & b & -> & ?).
    exists es1, (es2 ++ [e]), s0, t0, sn, p, a, b. rewrite Hreq, (assoc_L (++)). naive_solver.
  - exists es, [e], s1, t1, sn, p, a, b. apply IsServerDead_false in Hdead as [? ?].
    rewrite Hreq. split_and!; try done.
    eapply (so_holds _ (nrun_ok _ _ _ Hrun (init_ok w))); [done|]. right. left. by do 4 eexists.
Qed.

(** C21: Every request's handler is executed at most once, and a request that
    is answered positively was executed exactly once, with the reply its handler
    produced: the network never duplicates a request and never makes up a reply. *)
Theorem rpc_at_most_once w es s :
  nrun (initSystem w) es = Some s →
  NoDup (executed s).*1 ∧
  ∀ k t r, threads s !! k = Some t → pc t = PReplied r → ok r = true → (k, r) ∈ executed s.
Proof.
  intros Hrun. pose proof (nrun_ok _ _ _ Hrun (init_ok w)) as Hok. split; [apply Hok|].
  intros k t r Hk Hpc Hr. eapply so_holds; [done..|]. right. right. split; [done|by right].
Qed.

(** C20: A client gets a positive reply only if, at some moment before, the handler
    had already produced it while the client's end was enabled and the server that ran
    it was still registered under its name: never after [DeleteServer] superseded it. *)
Theorem rpc_reply_from_live_server w es s k t r :
  nrun (initSystem w) es = Some s → threads s !! k = Some t → pc t = PReplied r → ok r = true →
  decided w es k (req t) r.
Proof. intros. eapply settled_decided; [done..|]. split; [done|by right]. Qed.

(** *** Requests on dead ends *)

Lemma nrun_rejected s es s' k t :
  nrun s es = Some s' → threads s !! k = Some t → rejected t →
  k ∉ (executed s).*1 →
  k ∉ (executed s').*1 ∧ ∃ t', threads s' !! k = Some t' ∧ rejected t'.
Proof.
  revert s t. induction es as [|e es IH]; intros s t; simpl.
  { intros [= <-] ? ? ?. eauto. }
  intros (s1 & Hs & Hrun)%obind_Some Hk Hrej Hno.
  destruct (nstep_kind _ _ _ Hs) as [Ht He|q Ht He|k1 t1 t1' Hk1 Hm Ht He|k1 t1 p r Hk1 Hh Ht He].
  - eapply IH; rewrite ?Ht, ?He; done.
  - eapply IH; rewrite ?Ht, ?He; [done|by apply lookup_app_l_Some|done..].
  - destruct (decide (k1 = k)) as [->|Hne]; simplify_eq.
    + eapply IH; rewrite ?Ht, ?He; [done| |by apply Hm|done].
      apply list_lookup_insert_eq. by eapply lookup_lt_Some.
    + eapply IH; rewrite ?Ht, ?He; [done|by rewrite list_lookup_insert_ne|done..].
  - destruct (decide (k1 = k)) as [->|Hne]; simplify_eq.
    { destruct Hrej as [Hn _]. congruence. }
    eapply IH; rewrite ?Ht, ?He; [done|by rewrite list_lookup_insert_ne|done|].
    rewrite fmap_app. intros [?|Hx]%elem_of_app; [done|].
    apply list_elem_of_singleton in Hx. simpl in Hx. congruence.
Qed.

(** What a request needs when [ProcessReq] looks its end up. *)
Definition routable (rn : Network) (e : Name) : Prop :=
  isEnabled rn e = true ∧ ∃ sn p, connectionOf rn e = Some sn ∧ serverOf rn sn = Some p.

Lemma processStart_rejected rn rnd t :
  ¬ routable rn (endname (req t)) → rejected (processStart rn rnd t).
Proof.
  unfold processStart, ReadEndnameInfo, routable. simpl. intros Hno.
  destruct (isEnabled _ _); [|split; simpl; auto].
  destruct (connectionOf _ _) as [sn|] eqn:Hc; [|split; simpl; auto].
  destruct (serverOf _ _) as [p|] eqn:Hp; [|split; simpl; auto].
  destruct Hno. naive_solver.
Qed.

(** A request whose end is disabled, not connected, or connected to a
    server that was deleted when the network looks at it never reaches a handler,
    whatever happens later, and is only ever refused. *)
Theorem dead_end_never_served w es s k rnd s1 es' s2 t :
  nrun (initSystem w) es = Some s → threads s !! k = Some t →
  ¬ routable (net s) (endname (req t)) →
  nstep s (EStart k rnd) = Some s1 → nrun s1 es' = Some s2 →
  k ∉ (executed s2).*1 ∧
  ∀ t2 r, threads s2 !! k = Some t2 → pc t2 = PReplied r → r = refused.
Proof.
  intros Hrun Hk Hno Hs Hrun2. pose proof (nrun_ok _ _ _ Hrun (init_ok w)) as Hok.
  simpl in Hs. rewrite Hk in Hs. simpl in Hs. repeat case_match; simplify_eq.
  destruct (nrun_rejected _ _ _ k (processStart (net s) rnd t) Hrun2) as (? & t2 & Ht2 & Hrej).
  - simpl. apply list_lookup_insert_eq. by eapply lookup_lt_Some.
  - by apply processStart_rejected.
  - simpl. eapply so_pending; [done..|]. unfold pending. by rewrite H1.
  - split; [done|]. intros t3 r ? ?. destruct Hrej as [_ [? | ?]]; congruence.
Qed.

(** ** A call on a reliable network *)

Fixpoint noDot (s : string) : bool :=
  match s with
  | EmptyString => true
  | String x s => negb (bool_decide (x = dotChar)) && noDot s
  end.

Lemma LastIndex_noDot s : noDot s = true → LastIndex s dotChar = None.
Proof.
  induction s as [|x s IH]; simpl; [done|]. intros [Hx Hs]%andb_true_iff.
  rewrite (IH Hs). apply negb_true_iff, bool_decide_eq_false in Hx. by rewrite decide_False.
Qed.

Lemma splitMeth_app sn m : noDot m = true → splitMeth (sn +:+ String dotChar m) = Some (sn, m).
Proof.
  intros Hm. unfold splitMeth.
  assert (LastIndex (sn +:+ String dotChar m) dotChar = Some (String.length sn)) as ->.
  { induction sn as [|x sn IH].
    - change ("" +:+ String dotChar m) with (String dotChar m). cbn [LastIndex].
      rewrite (LastIndex_noDot m Hm). by rewrite decide_True.
    - change (String x sn +:+ String dotChar m) with (String x (sn +:+ String dotChar m)).
      cbn [LastIndex]. by rewrite IH. }
  unfold obind. f_equal. f_equal.
  - induction sn as [|x sn IH]; [done|]. exact (f_equal (String x) IH).
  - induction sn as [|x sn IH]; [done|]. exact IH.
Qed.

Lemma MakeService_methods r name ms m :
  NoDup (MethodName <$> ms) → m ∈ ms → isHandler m = true →
  methods (MakeService r name ms) !! MethodName m = Some m.
Proof.
  unfold MakeService. simpl. generalize (∅ : gmap string Method).
  induction ms as [|m1 ms IH]; intros acc; [by intros _ ?%elem_of_nil|].
  rewrite fmap_cons. intros [Hnew Hnd]%NoDup_cons [->|Hin]%elem_of_cons Hh; [|by apply IH].
  simpl. rewrite Hh. clear IH.
  assert (∀ acc : gmap string Method, acc !! MethodName m1 = Some m1 →
    foldl (λ acc m, if isHandler m then <[MethodName m := m]> acc else acc) acc ms
      !! MethodName m1 = Some m1) as Hkeep.
  { clear Hnd. induction ms as [|m2 ms IH]; intros acc2 Ha; [done|].
    rewrite fmap_cons in Hnew. apply not_elem_of_cons in Hnew as [Hne Hnew].
    simpl. apply IH; [done|]. case_match; [|done]. by rewrite lookup_insert_ne. }
  apply Hkeep. apply lookup_insert_eq.
Qed.

(** The events of an undisturbed call as request [k]. *)
Definition callEvents (k : nat) (e : Name) (sm : string) (a : Val) (rnd r1 r2 : Z) : list NEvent :=
  [ECall e sm a; EStart k rnd; EHandle k; EReceive k; EFinish k r1 r2].

(** Whose request an event moves; a turn of request [k] is any of these events but the
    tick of its waiting loop. *)
Definition subject (ev : NEvent) : option nat :=
  match ev with
  | EStart k _ | EHandle k | EReceive k | ETick k | EFinish k _ _ | ETimer k => Some k
  | _ => None
  end.

Definition isTurn (k : nat) (ev : NEvent) : bool :=
  match ev with ETick _ => false | _ => bool_decide (subject ev = Some k) end.

Definition turns (k : nat) (es : list NEvent) : nat := length (filter (λ ev, isTurn k ev = true) es).

Lemma turns_snoc k es ev : turns k (es ++ [ev]) = (turns k es + if isTurn k ev then 1 else 0)%nat.
Proof.
  unfold turns. rewrite filter_app, length_app, filter_cons. by destruct (isTurn k ev).
Qed.

Lemma nstep_other s ev s' k t :
  nstep s ev = Some s' → threads s !! k = Some t → subject ev ≠ Some k → threads s' !! k = Some t.
Proof.
  assert (Hne : ∀ k' t', Some k' ≠ Some k → threads s !! k = Some t → <[k' := t']> (threads s) !! k = Some t).
  { intros k' t' Hk Ht. by rewrite list_lookup_insert_ne by congruence. }
  destruct ev as [cf|e sm a| |k' rnd|k'|k'|k'|k' r1 r2|k']; cbn [nstep subject]; intros Hs Hk Hn.
  1: apply obind_Some in Hs as ([rn hp] & _ & [= <-]); done.
  1: destruct (serving s); simplify_eq; by apply lookup_app_l_Some.
  1: by destruct (done (net s)); simplify_eq.
  all: apply obind_Some in Hs as (t' & _ & Hs).
  - destruct (pc t'), (handler t'); simplify_eq. by apply Hne.
  - unfold handleStep in Hs. destruct (handler t') as [[]|]; [|done..].
    apply obind_Some in Hs as (rs & _ & ([[? ?] ?] & _ & [= <-])%obind_Some). by apply Hne.
  - apply obind_Some in Hs as (t2 & _ & [= <-]). by apply Hne.
  - apply obind_Some in Hs as (t2 & _ & [= <-]). by apply Hne.
  - apply obind_Some in Hs as (t2 & _ & [= <-]). by apply Hne.
  - apply obind_Some in Hs as (t2 & _ & [= <-]). by apply Hne.
Qed.

(** [R] holds at every moment of the run [es] from [s] to [s']. *)
Definition throughout (R : System → Prop) (s : System) (es : list NEvent) (s' : System) : Prop :=
  nrun s es = Some s' ∧ ∀ es1 es2 s1, es = es1 ++ es2 → nrun s es1 = Some s1 → R s1.

Lemma throughout_snoc R s es ev s' :
  throughout R s (es ++ [ev]) s' → ∃ s1, throughout R s es s1 ∧ R s1 ∧ nstep s1 ev = Some s'.
Proof.
  intros [(s1 & Hrun & Hs)%nrun_snoc HR]. exists s1. split_and!; [split; [done|]|by eapply (HR es)|done].
  intros es1 es2 s2 -> Hr. eapply (HR es1 (es2 ++ [ev])); [by rewrite app_assoc|done].
Qed.

Section Reliable.
Context (e sn : Name) (p ptr : nat) (name : string) (ms : list Method) (m : Method) (a : Val).

(** The network is reliable, and the end is enabled and leads to a server that has the
    service. *)
Record serves (s : System) : Prop := {
  sv_reliable : reliable (net s) = true;
  sv_order : longReordering (net s) = false;
  sv_enabled : isEnabled (net s) e = true;
  sv_connected : connectionOf (net s) e = Some sn;
  sv_server : serverOf (net s) sn = Some p;
  sv_service : ∃ rs, heap s !! p = Some rs ∧ services rs !! name = Some (MakeService ptr name ms);
}.

Definition theCall : reqMsg := makeReq e (name +:+ String dotChar (MethodName m)) a.

(** What the method does in world [w], and the message that carries its reply. *)
Definition runs (w : W) : W * Val := Func m ptr a (zero (replyType m)) w.
Definition replyIn (w : W) : replyMsg := mkReply true (encodeVal (runs w).2).

(** The request after [c] turns, with the reply [r] from the second one on. *)
Definition stage (r : replyMsg) (c : nat) : Thread :=
  match c with
  | 0 => mkThread theCall PStart None
  | 1 => mkThread theCall (PWait sn p true false) (Some (HRunning p))
  | 2 => mkThread theCall (PWait sn p true false) (Some (HOffers r))
  | 3 => mkThread theCall (PAfter sn p true false (Some r)) (Some HTaken)
  | _ => mkThread theCall (PReplied r) (Some HTaken)
  end%nat.

Hypothesis Hmethods : NoDup (MethodName <$> ms).
Hypothesis Hm : m ∈ ms.
Hypothesis Hhandler : isHandler m = true.
Hypothesis Hdot : noDot (MethodName m) = true.

Lemma dispatch_call s rs :
  services rs !! name = Some (MakeService ptr name ms) →
  dispatch rs theCall (world s) =
    Some (mkServer (services rs) (count rs + 1), (runs (world s)).1, replyIn (world s)).
Proof.
  intros Hsvc. unfold dispatch. cbn [svcMeth theCall makeReq]. rewrite (splitMeth_app _ _ Hdot). simpl.
  rewrite Hsvc. simpl. unfold serviceDispatch.
  rewrite (MakeService_methods _ _ _ _ Hmethods Hm Hhandler). cbn [obind theCall makeReq argsType args].
  rewrite decodeInto_encode. cbn [fst rcvr MakeService]. unfold replyIn, runs.
  by destruct (Func m ptr a (zero (replyType m)) (world s)).
Qed.

(** Nothing but a call that reconfigures the network can end this; new ends do not. *)
Definition harmless (ev : NEvent) : Prop :=
  match ev with EConf (CMakeEnd e') => e' ≠ e | EConf _ => False | _ => True end.

Lemma serves_step s ev s' : harmless ev → serves s → nstep s ev = Some s' → serves s'.
Proof.
  intros Hev [Hr Hl He Hc Hs (rs & Hp & Hsvc)].
  assert (Hnet : ∀ s', reliable (net s') = reliable (net s) → longReordering (net s') = longReordering (net s) →
    enabled (net s') = enabled (net s) → connections (net s') = connections (net s) →
    servers (net s') = servers (net s) → heap s' = heap s → serves s').
  { intros s1 E1 E2 E3 E4 E5 E6. unfold isEnabled, connectionOf, serverOf in *.
    split; unfold isEnabled, connectionOf, serverOf; rewrite ?E1, ?E2, ?E3, ?E4, ?E5, ?E6; eauto. }
  destruct ev as [cf|e' sm b| |k rnd|k|k|k|k r1 r2|k]; cbn [nstep].
  2: destruct (serving s); [|done]; intros [= <-]; by apply Hnet.
  2: destruct (done (net s)); [|done]; intros [= <-]; by apply Hnet.
  2: intros (t & _ & Hx)%obind_Some; destruct (pc t), (handler t); simplify_eq; by apply Hnet.
  3-6: intros (t & _ & (t' & _ & [= <-])%obind_Some)%obind_Some; by apply Hnet.
  - destruct cf; try done. simpl in *. unfold MakeEnd. case_decide; [done|]. intros [= <-].
    split; simpl; try done; unfold isEnabled, connectionOf in *; simpl; rewrite ?lookup_insert_ne by done; eauto.
  - intros (t & _ & Hx)%obind_Some. unfold handleStep in Hx. destruct (handler t) as [[q| |]|]; [|done..].
    apply obind_Some in Hx as (rs' & Hq & ([[rs2 w] r] & Hd & [= <-])%obind_Some). split; simpl; try done.
    assert (services rs2 = services rs') as Hsame 
      by (unfold dispatch in Hd; apply obind_Some in Hd as ([? ?] & _ & (? & _ & ([? ?] & _ & [= <- _ _])%obind_Some)%obind_Some); done).
    destruct (decide (q = p)) as [->|Hne].
    + exists rs2. rewrite list_lookup_insert_eq by (by eapply lookup_lt_Some). simplify_eq. by rewrite Hsame.
    + exists rs. by rewrite list_lookup_insert_ne by done.
Qed.

Lemma serves_run s es s' : Forall harmless es → serves s → nrun s es = Some s' → throughout serves s es s'.
Proof.
  intros Hes HR Hrun. split; [done|]. intros es1 es2 s1 -> H1. apply Forall_app in Hes as [Hes _].
  clear Hrun. revert s HR H1. induction Hes as [|ev es Hev Hes IH]; intros s HR; simpl; [by intros [= <-]|].
  intros (s2 & Hs & Hr)%obind_Some. eapply IH; [|done]. by eapply serves_step.
Qed.

Lemma start_stage s rnd r : serves s → processStart (net s) rnd (stage r 0) = stage r 1.
Proof.
  intros [Hr Hl He Hc Hs _]. unfold processStart, ReadEndnameInfo. simpl. by rewrite He, Hc, Hs, Hr, Hl.
Qed.

Lemma serves_alive s : serves s → IsServerDead (net s) e sn p = false.
Proof. intros [? ? ? ? ? ?]. by apply IsServerDead_false. Qed.

(** The method is called, in world [w], by the second turn. *)
Definition answers (s : System) (c : nat) (r r' : replyMsg) : Prop :=
  if decide (c = 1%nat) then r' = replyIn (world s) else r' = r.

(** Every event of the request takes it one stage on, but for ticks, which leave it alone. *)
Lemma stage_step s ev s' k r c :
  serves s → (c ≤ 4)%nat → threads s !! k = Some (stage r c) → subject ev = Some k → nstep s ev = Some s' →
  if isTurn k ev then
    (c < 4)%nat ∧ (∃ r', answers s c r r' ∧ threads s' !! k = Some (stage r' (S c))) ∧
    (c = 1%nat ↔ ev = EHandle k) ∧ (c = 1%nat → world s' = (runs (world s)).1)
  else threads s' !! k = Some (stage r c).
Proof.
  intros HR Hc Hk Hev Hs. pose proof (serves_alive s HR) as Hlive.
  assert (Hset : ∀ t, <[k := t]> (threads s) !! k = Some t).
  { intros t. apply list_lookup_insert_eq. by eapply lookup_lt_Some. }
  destruct (sv_service s HR) as (rs & Hp & Hsvc).
  destruct c as [|[|[|[|[|c]]]]]; [..|lia];
    (destruct ev; simpl in Hev; simplify_eq; cbn [nstep] in Hs; rewrite Hk in Hs;
     cbn [obind stage pc handler handleStep processReceive processTick processFinish processTimer req theCall
       makeReq endname] in Hs; try done;
     rewrite ?Hp, ?Hlive in Hs; cbn [obind] in Hs;
     rewrite ?(dispatch_call s rs Hsvc) in Hs; simplify_eq/=; rewrite ?bool_decide_true by done; try (by apply Hset)).
  - split_and!; [lia|exists r; split; [done|]|split; lia || done|lia].
    change (mkThread theCall PStart None) with (stage r 0). by rewrite (start_stage s rnd r HR).
  - split_and!; [lia|by exists (replyIn (world s))|done|done].
  - split_and!; [lia|by exists r|split; lia || done|lia].
  - split_and!; [lia|by exists r|split; lia || done|lia].
Qed.

(** A turn is always possible until the fourth. *)
Lemma stage_progress s k r c :
  serves s → (c < 4)%nat → threads s !! k = Some (stage r c) →
  ∃ ev s', isTurn k ev = true ∧ nstep s ev = Some s'.
Proof.
  intros HR Hc Hk. destruct (sv_service s HR) as (rs & Hp & Hsvc).
  exists (match c with 0 => EStart k 0 | 1 => EHandle k | 2 => EReceive k | _ => EFinish k 0 0 end)%nat.
  destruct c as [|[|[|[|c]]]]; [..|lia]; cbn [nstep]; rewrite Hk; eexists;
    (split; [simpl; by rewrite bool_decide_true|]); cbn [obind stage pc handler handleStep req]; try done.
  rewrite Hp. cbn [obind]. rewrite (dispatch_call s rs Hsvc). done.
Qed.

(** Where the request is after its turns, and which moment its reply is from. *)
Definition answeredBy (s0 : System) (es : list NEvent) (k : nat) (r : replyMsg) : Prop :=
  ∃ es1 es2 s1 s2, es = es1 ++ EHandle k :: es2 ∧ EHandle k ∉ es1 ++ es2 ∧ nrun s0 es1 = Some s1 ∧
    nstep s1 (EHandle k) = Some s2 ∧ world s2 = (runs (world s1)).1 ∧ r = replyIn (world s1).

Lemma stage_run s0 es s' k :
  threads s0 !! k = Some (stage refused 0) → throughout serves s0 es s' →
  (turns k es ≤ 4)%nat ∧ ∃ r, threads s' !! k = Some (stage r (turns k es)) ∧
    (if decide (2 ≤ turns k es)%nat then answeredBy s0 es k r else EHandle k ∉ es).
Proof.
  intros Hk. revert s'. induction es as [|ev es IH] using rev_ind; intros s' Hall.
  { destruct Hall as [[= <-] _]. change (turns k []) with 0%nat. split; [lia|]. exists refused. split; [done|].
    apply not_elem_of_nil. }
  apply throughout_snoc in Hall as (s1 & Hall & HR & Hs). destruct (IH s1 Hall) as (Hle & r & Hr & Hans).
  assert (Hkeep : ev ≠ EHandle k → if decide (2 ≤ turns k es)%nat then answeredBy s0 (es ++ [ev]) k r
    else EHandle k ∉ es ++ [ev]).
  { intros Hne. case_decide.
    - destruct Hans as (es1 & es2 & x & y & -> & Hno & ?). exists es1, (es2 ++ [ev]), x, y.
      rewrite <-app_assoc. split_and!; [done|set_solver|naive_solver..].
    - set_solver. }
  rewrite turns_snoc. destruct (decide (subject ev = Some k)) as [Hev|Hev].
  - pose proof (stage_step _ _ _ _ _ _ HR Hle Hr Hev Hs) as Hst. destruct (isTurn k ev) eqn:Ht.
    + destruct Hst as (Hlt & (r' & Ha & Hr') & Hcall & Hw). rewrite Nat.add_1_r. split; [lia|]. exists r'.
      split; [done|]. unfold answers in Ha. destruct (decide (turns k es = 1%nat)) as [H1|H1]; subst r'.
      * rewrite decide_True by lia. rewrite decide_False in Hans by lia. rewrite (proj1 Hcall H1) in *.
        exists es, [], s1, s'. rewrite app_nil_r. split_and!; [done|done|apply Hall|done|auto|done].
      * assert (ev ≠ EHandle k) as Hne by (intros E; by apply H1, Hcall).
        specialize (Hkeep Hne). destruct (decide (2 ≤ turns k es)%nat); [by rewrite decide_True by lia|].
        by rewrite decide_False by lia.
    + rewrite Nat.add_0_r. split; [done|]. exists r. split; [done|]. apply Hkeep. intros ->.
      simpl in Ht. by rewrite bool_decide_true in Ht.
  - assert (isTurn k ev = false) as ->.
    { destruct ev; simpl in *; try done; by rewrite bool_decide_false by congruence. }
    rewrite Nat.add_0_r. split; [done|]. exists r. split; [by eapply nstep_other|]. apply Hkeep. by intros ->.
Qed.
End Reliable.

(** C22: As long as the network is reliable and does not reorder, and the end stays enabled and
    connected to a registered server that has the service with a handler of that name, a call is answered
    whatever else happens in between: other requests, ticks of the waiting loop, changes of the
    rest of the network, any random draws. It takes exactly four turns of its own goroutines
    (look-up, handler, reception of the reply, answer): until then one of them is always possible,
    and no other event undoes a turn. Then the call returns true with the value that the method, which ran
    once, on the value the caller passed, left in its reply at the moment it ran. *)
Theorem rpc_reliable_call (s s0 s' : System) e sn p ptr name ms m a es :
  NoDup (MethodName <$> ms) → m ∈ ms → isHandler m = true → noDot (MethodName m) = true →
  (∀ w, typeOf (runs ptr m a w).2 = replyType m) →
  nstep s (ECall e (name +:+ String dotChar (MethodName m)) a) = Some s0 →
  throughout (serves e sn p ptr name ms) s0 es s' →
  let k := length (threads s) in
  (turns k es ≤ 4)%nat ∧
  ((turns k es < 4)%nat → ∃ ev s2, isTurn k ev = true ∧ nstep s' ev = Some s2) ∧
  (turns k es = 4%nat →
   ∃ t r es1 es2 s1 s2, threads s' !! k = Some t ∧ pc t = PReplied r ∧
     es = es1 ++ EHandle k :: es2 ∧ EHandle k ∉ es1 ++ es2 ∧
     nrun s0 es1 = Some s1 ∧ nstep s1 (EHandle k) = Some s2 ∧ world s2 = (runs ptr m a (world s1)).1 ∧
     callReturn (zero (replyType m)) r = Some (true, (runs ptr m a (world s1)).2)).
Proof.
  intros Hnd Hm Hh Hdot Hty Hcall Hall k.
  assert (Hk : threads s0 !! k = Some (stage e sn p name m a refused 0)).
  { simpl in Hcall. destruct (serving s); simplify_eq/=. by apply list_lookup_middle. }
  destruct (stage_run e sn p ptr name ms m a Hnd Hm Hh Hdot s0 es s' k Hk Hall) as (Hle & r & Hr & Hans).
  split_and!; [done| |].
  - intros Hlt. eapply stage_progress; [done..| |exact Hlt|exact Hr].
    eapply (proj2 Hall es []); [by rewrite app_nil_r|apply Hall].
  - intros H4. rewrite H4 in Hr, Hans. destruct Hans as (es1 & es2 & s1 & s2 & ? & ? & ? & ? & ? & ->).
    eexists _, _, es1, es2, s1, s2. split_and!; [exact Hr|done..|].
    unfold callReturn, replyIn. simpl. rewrite <-(Hty (world s1)). by rewrite decodeInto_encode.
Qed.

End Labrpc.

(** ** Witnesses: a counter service

    One server with a method [Counter.Add] that adds its argument to the state
    and replies with the sum. *)

Program Definition zGob : LabGob Z unit := {|
  typeOf _ := tt; zero _ := 0;
  encodeVal z := pos_to_bytes (encode z);
  decodeInto old b :=
    match obind (pos_of_bytes b) decode with Some z => (z, true) | None => (old, false) end;
|}.
Next Obligation. intros v. cbn beta. rewrite pos_of_to_bytes. cbn [obind]. by rewrite decode_encode. Qed.

#[local] Existing Instance zGob.

Definition addMethod : Method (Val := Z) (Ty := unit) (W := Z) :=
  mkMethod "Add" "" 3 true tt 0 (λ _ a _ w, (w + a, w + a)).

Definition helper : Method (Val := Z) (Ty := unit) (W := Z) :=
  mkMethod "Get" "" 1 true tt 1 (λ _ _ _ w, (w, w)).

Definition counterEvents : list (NEvent (Name := string) (Val := Z) (Ty := unit) (W := Z)) :=
  [EConf CMakeServer; EConf (CAddService 0 (MakeService 0 "Counter" [helper; addMethod]));
   EConf (CAddServer "s" 0); EConf (CMakeEnd "e"); EConf (CConnect "e" "s");
   EConf (CEnable "e" true)].

Definition counterSystem (es : list NEvent) : System (Name := string) (Val := Z) (Ty := unit) (W := Z) :=
  default (initSystem 10) (nrun (initSystem 10) es).

Definition addReply : replyMsg := mkReply true (encodeVal 15).

Definition addCall : list (NEvent (Name := string) (Val := Z) (Ty := unit) (W := Z)) :=
  counterEvents ++ callEvents 0 "e" "Counter.Add" 5 0 0 0.

Lemma rpc_at_most_once_witness : NoDup (executed (counterSystem addCall)).*1.
Proof. refine (proj1 (rpc_at_most_once 10 addCall _ _)). vm_compute. reflexivity. Defined.

Lemma rpc_reply_from_live_server_witness :
  ∃ t, threads (counterSystem addCall) !! 0%nat = Some t ∧ decided 10 addCall 0 (req t) addReply.
Proof.
  eexists. split; [vm_compute; reflexivity|].
  eapply (rpc_reply_from_live_server 10 addCall (counterSystem addCall));
    vm_compute; reflexivity.
Defined.

(** The end is disabled after the call was made: nothing reaches the server. *)
Definition cutEvents : list (NEvent (Name := string) (Val := Z) (Ty := unit) (W := Z)) :=
  counterEvents ++ [ECall "e" "Counter.Add" 5; EConf (CEnable "e" false)].

Definition cutAfter : list (NEvent (Name := string) (Val := Z) (Ty := unit) (W := Z)) :=
  [EConf (CEnable "e" true); ETimer 0].

Lemma dead_end_never_served_witness :
  0%nat ∉ (executed (counterSystem (cutEvents ++ EStart 0 0 :: cutAfter))).*1.
Proof.
  eapply (proj1 (dead_end_never_served 10 cutEvents (counterSystem cutEvents) 0 0
    (counterSystem (cutEvents ++ [EStart 0 0])) cutAfter _
    (mkThread (makeReq "e" "Counter.Add" 5) PStart None) _ _ _ _ _)).
  Unshelve. all: try (vm_compute; reflexivity).
  intros [Hen _]. vm_compute in Hen. discriminate.
Defined.

(** Two calls at once: the loop of the first one ticks while the second one is served. *)
Definition twoCalls : list (NEvent (Name := string) (Val := Z) (Ty := unit) (W := Z)) :=
  [EStart 0 7; ECall "e" "Counter.Add" 1; ETick 0; EStart 1 0; EHandle 1; EConf (CMakeEnd "f"); EReceive 1;
   EHandle 0; ETick 0; EFinish 1 0 0; EReceive 0; EFinish 0 8 9].

Lemma twoCalls_served :
  throughout (serves "e" "s" 0 0 "Counter" [helper; addMethod])
    (counterSystem (counterEvents ++ [ECall "e" "Counter.Add" 5])) twoCalls
    (counterSystem (counterEvents ++ ECall "e" "Counter.Add" 5 :: twoCalls)).
Proof.
  apply serves_run; [by repeat constructor| |vm_compute; reflexivity].
  split; try (vm_compute; reflexivity). eexists. split; [vm_compute; reflexivity|]. vm_compute. reflexivity.
Qed.

Lemma rpc_reliable_call_witness :
  ∃ t r, threads (counterSystem (counterEvents ++ ECall "e" "Counter.Add" 5 :: twoCalls)) !! 0%nat = Some t ∧
    pc t = PReplied r ∧ callReturn 0 r = Some (true, 16).
Proof.
  destruct (proj2 (proj2 (rpc_reliable_call (counterSystem counterEvents)
    (counterSystem (counterEvents ++ [ECall "e" "Counter.Add" 5]))
    (counterSystem (counterEvents ++ ECall "e" "Counter.Add" 5 :: twoCalls))
    "e" "s" 0 0 "Counter" [helper; addMethod] addMethod 5 twoCalls ltac:(apply (bool_decide_unpack _); vm_compute; exact I)
    ltac:(right; left) eq_refl eq_refl ltac:(done) ltac:(vm_compute; reflexivity)
    twoCalls_served)) ltac:(vm_compute; reflexivity))
    as (t & r & _ & _ & _ & _ & Ht & Hpc & _).
  exists t, r. split_and!; [exact Ht|exact Hpc|].
  vm_compute in Ht. injection Ht as <-. injection Hpc as <-. vm_compute. reflexivity.
Defined.
