(* ===== verification/Harness.v ===== *)
(** * What the test harnesses share

    raft/config.go, kvraft/config.go, shardmaster/config.go and
    shardkv/config.go build servers on one labrpc network in the same way: every server
    gets a row of client ends with fresh random names, one per server, which
    are connected once and enabled and disabled later; and every server has a
    slot with the persister it is to be restarted from. Here are the loops over
    the ends, the invariant of the rows and the invariant of the slots.

    A [*Persister] is its index in a list of persisters; an instance of a server is its
    index in a list of the persisters the instances were made with. *)

From S2P Require Import Prelude Persister Labrpc.

(** How a package names the ends on the network. *)
Class EndNames (Name : Type) := {
  endOf : string → Name;
  endOf_inj :: Inj (=) (=) endOf;
}.

Section Ends.
Context {Name : Type} `{Countable Name} `{EN : !EndNames Name}.
Notation Net := (@Network Name _ _).

(** [endnames[i][j]]: a nil slice has no element, so the index panics. *)
Definition endnameOf (en : list (option (list string))) (i j : nat) : option string :=
  let* row := en !! i in let* names := row in names !! j.

(** A loop that calls [net.Enable(f j, b)] for the [j] that [f] selects;
    [f j = None] is an index out of range. *)
Fixpoint enableAll (js : list nat) (f : nat → option (option string)) (b : bool) (rn : Net)
    : option Net :=
  match js with
  | [] => Some rn
  | j :: js =>
      let* nm := f j in
      enableAll js f b (match nm with Some nm => Enable (endOf nm) b rn | None => rn end)
  end.

(** The loop that makes the ends [names] and connects the [j]-th to server
    [target j]. *)
Fixpoint makeEnds (target : nat → Name) (js : list nat) (names : list string) (rn : Net)
    : option Net :=
  match js with
  | [] => Some rn
  | j :: js =>
      let* nm := names !! j in
      let* rn := MakeEnd (endOf nm) rn in
      makeEnds target js names (Connect (endOf nm) (target j) rn)
  end.

(** ** Enabling *)

(** [rn'] is [rn] up to the enabled ends. *)
Definition same_wiring (rn rn' : Net) : Prop :=
  ends rn' = ends rn ∧ servers rn' = servers rn ∧ connections rn' = connections rn.

#[global] Instance same_wiring_preorder : PreOrder same_wiring.
Proof. split; [by intros ?|]. intros ? ? ? (? & ? & ?) (? & ? & ?). by split_and!; etrans. Qed.

Lemma isEnabled_Enable (rn : Net) e b x :
  isEnabled (Enable e b rn) x = if decide (x = e) then b else isEnabled rn x.
Proof.
  unfold isEnabled. simpl. case_decide; subst; [by rewrite lookup_insert_eq|].
  by rewrite lookup_insert_ne.
Qed.

Lemma enableAll_spec js f b rn rn' :
  enableAll js f b rn = Some rn' →
  same_wiring rn rn' ∧
  (∀ j nm, j ∈ js → f j = Some (Some nm) → isEnabled rn' (endOf nm) = b) ∧
  (∀ x, (∀ j nm, j ∈ js → f j = Some (Some nm) → x ≠ endOf nm) → isEnabled rn' x = isEnabled rn x).
Proof.
  revert rn. induction js as [|j js IH]; intros rn; simpl.
  { intros [= <-]. split_and!; [done|by intros ? ? ?%elem_of_nil|done]. }
  intros (o & Hj & (Hw & Hin & Hout)%IH)%obind_Some. split_and!.
  - destruct o; apply Hw.
  - intros k nm [->|Hk]%elem_of_cons Hf; [|by eapply Hin].
    destruct (decide (Exists (λ k, f k = Some (Some nm)) js)) as [(k & ? & ?)%Exists_exists|Hno].
    { by eapply Hin. }
    simplify_eq. rewrite Hout; [by rewrite isEnabled_Enable, decide_True|].
    intros k1 nm1 ? Hf1 ?%(inj endOf). subst. apply Hno, Exists_exists. eauto.
  - intros x Hx. rewrite Hout; [|intros; eapply Hx; [by apply elem_of_cons; right|done]].
    destruct o as [nm|]; [|done]. rewrite isEnabled_Enable, decide_False; [done|].
    eapply Hx; [by apply elem_of_cons; left|done].
Qed.

(** The names that a loop over [js] with selector [f] touches. *)
Definition selected (js : list nat) (f : nat → option (option string)) (nm : string) : Prop :=
  ∃ j, j ∈ js ∧ f j = Some (Some nm).

Lemma enableAll_twice js f ks g b rn rn1 rn2 :
  enableAll js f b rn = Some rn1 → enableAll ks g b rn1 = Some rn2 →
  same_wiring rn rn2 ∧
  (∀ nm, selected js f nm ∨ selected ks g nm → isEnabled rn2 (endOf nm) = b) ∧
  (∀ x, (∀ nm, selected js f nm ∨ selected ks g nm → x ≠ endOf nm) → isEnabled rn2 x = isEnabled rn x).
Proof.
  intros (Hw1 & Hin1 & Hout1)%enableAll_spec (Hw2 & Hin2 & Hout2)%enableAll_spec. split_and!.
  - by etrans.
  - intros nm Hsel. destruct (decide (Exists (λ k, g k = Some (Some nm)) ks)) as [Hex|Hno].
    { apply Exists_exists in Hex as (k & ? & ?). by eapply Hin2. }
    destruct Hsel as [(j & ? & ?)|(k & ? & ?)].
    + rewrite Hout2; [by eapply Hin1|]. intros k nm' ? ? ->%(inj endOf).
      apply Hno, Exists_exists. eauto.
    + destruct Hno. apply Exists_exists. eauto.
  - intros x Hx. rewrite Hout2, Hout1; [done|..]; intros ? ? ? ?; apply Hx; unfold selected; eauto.
Qed.

Lemma enableAll_is_Some js f b rn :
  (∀ j, j ∈ js → is_Some (f j)) → is_Some (enableAll js f b rn).
Proof.
  revert rn. induction js as [|j js IH]; intros rn Hf; simpl; [eauto|].
  destruct (Hf j) as [o ->]; [by apply elem_of_cons; left|]. apply IH.
  intros. apply Hf. by apply elem_of_cons; right.
Qed.

(** ** Making ends *)

Lemma isEnabled_fresh (rn : Net) e rn' x :
  MakeEnd e rn = Some rn' →
  e ∉ ends rn ∧ ends rn' = {[ e ]} ∪ ends rn ∧ servers rn' = servers rn ∧
  isEnabled rn' x = (if decide (x = e) then false else isEnabled rn x) ∧
  connectionOf rn' x = (if decide (x = e) then None else connectionOf rn x).
Proof.
  unfold MakeEnd. case_decide; [done|]. intros [= <-]. unfold isEnabled, connectionOf. simpl.
  split_and!; [done..| |]; case_decide; subst; rewrite ?lookup_insert_eq, ?lookup_insert_ne; done.
Qed.

Lemma connectionOf_Connect (rn : Net) e s x :
  connectionOf (Connect e s rn) x = if decide (x = e) then Some s else connectionOf rn x.
Proof.
  unfold connectionOf. simpl. case_decide; subst; [by rewrite lookup_insert_eq|].
  by rewrite lookup_insert_ne.
Qed.

(** The loop succeeds only with new names, different from each other. *)
Record made (target : nat → Name) (js : list nat) (names : list string) (rn rn' : Net) : Prop := {
  md_servers : servers rn' = servers rn;
  md_ends : ends rn ⊆ ends rn';
  md_new : ∀ j, j ∈ js → ∃ nm, names !! j = Some nm ∧ endOf nm ∉ ends rn ∧ endOf nm ∈ ends rn' ∧
    isEnabled rn' (endOf nm) = false ∧ connectionOf rn' (endOf nm) = Some (target j);
  md_inj : ∀ j j' nm, j ∈ js → j' ∈ js → names !! j = Some nm → names !! j' = Some nm → j = j';
  md_old : ∀ x, (∀ j nm, j ∈ js → names !! j = Some nm → x ≠ endOf nm) →
    isEnabled rn' x = isEnabled rn x ∧ connectionOf rn' x = connectionOf rn x ∧
    (x ∈ ends rn' → x ∈ ends rn);
}.

Lemma makeEnds_spec target js names rn rn' :
  NoDup js → makeEnds target js names rn = Some rn' → made target js names rn rn'.
Proof.
  revert rn. induction js as [|j js IH]; intros rn Hnd; simpl.
  { intros [= <-]. split; try done; intros *; by intros ?%elem_of_nil. }
  apply NoDup_cons in Hnd as [Hj Hnd].
  intros (nm & Hnm & (rn1 & Hmk & Hrec)%obind_Some)%obind_Some.
  destruct (IH _ Hnd Hrec) as [Hsrv Hsub Hin Hinj Hout].
  pose proof (λ x, isEnabled_fresh rn _ rn1 x Hmk) as Hfr.
  destruct (Hfr (endOf nm)) as (Hnew & Hends & Hsrv1 & _).
  assert (Hdiff : ∀ k nm', k ∈ js → names !! k = Some nm' → nm' ≠ nm).
  { intros k nm' Hk Hn ->. destruct (Hin k Hk) as (? & Hn' & Hno & _). simplify_eq.
    apply Hno. simpl. rewrite Hends. set_solver. }
  assert (Hown : isEnabled rn' (endOf nm) = false ∧ connectionOf rn' (endOf nm) = Some (target j)).
  { destruct (Hout (endOf nm)) as (He & Hc & _).
    { intros k nm' Hk Hn <-%(inj endOf). by eapply Hdiff. }
    rewrite He, Hc, connectionOf_Connect, decide_True by done.
    split; [|done]. destruct (Hfr (endOf nm)) as (_ & _ & _ & Hx & _).
    by rewrite decide_True in Hx. }
  split.
  - rewrite Hsrv. exact Hsrv1.
  - etrans; [|exact Hsub]. simpl. rewrite Hends. set_solver.
  - intros k [->|Hk]%elem_of_cons.
    + exists nm. destruct Hown. split_and!; try done. apply Hsub. simpl. rewrite Hends. set_solver.
    + destruct (Hin k Hk) as (nm' & ? & Hno & ? & ? & ?). exists nm'. split_and!; try done.
      intros Hx. apply Hno. simpl. rewrite Hends. set_solver.
  - intros k k' nm' [->|Hk]%elem_of_cons [->|Hk']%elem_of_cons Hn Hn'; simplify_eq; [done|..].
    + by destruct (Hdiff _ _ Hk' Hn').
    + by destruct (Hdiff _ _ Hk Hn).
    + by eapply Hinj.
  - intros x Hx. destruct (Hout x) as (-> & -> & Hends').
    { intros k nm' Hk Hn. eapply Hx; [by apply elem_of_cons; right|done]. }
    assert (x ≠ endOf nm) by (eapply Hx; [by apply elem_of_cons; left|done]).
    destruct (Hfr x) as (_ & _ & _ & He & Hc). rewrite decide_False in He by done.
    rewrite decide_False in Hc by done. rewrite connectionOf_Connect, decide_False by done.
    split_and!; [exact He|exact Hc|]. intros Hin2%Hends'. simpl in Hin2. rewrite Hends in Hin2. set_solver.
Qed.

(** ** The rows of ends of [n] servers *)

Record rows_ok (target : nat → Name) (n : nat) (en : list (option (list string))) (rn : Net) : Prop := {
  ro_len : length en = n;
  ro_row : ∀ i l, en !! i = Some (Some l) → length l = n;
  ro_inj : ∀ i j i' j' nm, endnameOf en i j = Some nm → endnameOf en i' j' = Some nm → i = i' ∧ j = j';
  ro_known : ∀ i j nm, endnameOf en i j = Some nm → endOf nm ∈ ends rn;
  ro_target : ∀ i j nm, endnameOf en i j = Some nm → connectionOf rn (endOf nm) = Some (target j);
}.

Lemma endnameOf_Some en i j nm :
  endnameOf en i j = Some nm ↔ ∃ l, en !! i = Some (Some l) ∧ l !! j = Some nm.
Proof.
  unfold endnameOf. rewrite obind_Some. split.
  - intros (o & ? & (l & -> & ?)%obind_Some). eauto.
  - intros (l & ? & ?). exists (Some l). split; [done|]. simpl. done.
Qed.

Lemma endnameOf_insert en i names i' j :
  (i < length en)%nat →
  endnameOf (<[i := Some names]> en) i' j =
    if decide (i' = i) then names !! j else endnameOf en i' j.
Proof.
  intros Hi. unfold endnameOf. case_decide; subst; [by rewrite list_lookup_insert_eq|].
  by rewrite list_lookup_insert_ne.
Qed.

Lemma endnameOf_replicate n i j : endnameOf (replicate n None) i j = None.
Proof.
  unfold endnameOf. destruct (replicate n None !! i) eqn:Hi; [|done].
  by apply lookup_replicate_1 in Hi as [-> _].
Qed.

Lemma rows_range target n en rn i j nm :
  rows_ok target n en rn → endnameOf en i j = Some nm → (i < n)%nat ∧ (j < n)%nat.
Proof.
  intros Hok (l & Hi & Hj)%endnameOf_Some. pose proof (ro_len _ _ _ _ Hok).
  apply lookup_lt_Some in Hj as ?. rewrite (ro_row _ _ _ _ Hok _ _ Hi) in *.
  apply lookup_lt_Some in Hi. lia.
Qed.

Lemma rows_wiring target n en rn rn' :
  ends rn ⊆ ends rn' → (∀ i j nm, endnameOf en i j = Some nm →
    connectionOf rn' (endOf nm) = connectionOf rn (endOf nm)) →
  rows_ok target n en rn → rows_ok target n en rn'.
Proof.
  intros He Hc [? ? ? Hk Ht]. split; [done..|eauto|]. intros. rewrite (Hc i j) by done. eauto.
Qed.

Lemma same_wiring_rows target n en rn rn' :
  same_wiring rn rn' → rows_ok target n en rn → rows_ok target n en rn'.
Proof.
  intros (He & _ & Hc). apply rows_wiring; [by rewrite He|]. intros. unfold connectionOf. by rewrite Hc.
Qed.

(** The ends of a new row, and that no name of an old one is among them. *)
Lemma made_fresh target n names rn rn' j nm :
  length names = n → made target (seq 0 n) names rn rn' → names !! j = Some nm →
  endOf nm ∉ ends rn ∧ endOf nm ∈ ends rn' ∧
  isEnabled rn' (endOf nm) = false ∧ connectionOf rn' (endOf nm) = Some (target j).
Proof.
  intros Hlen Hm Hj. destruct (md_new _ _ _ _ _ Hm j) as (nm' & Hnm & ?).
  { apply elem_of_seq. apply lookup_lt_Some in Hj. lia. }
  rewrite Hj in Hnm. by simplify_eq.
Qed.

Lemma made_keep target n names rn rn' nm :
  length names = n → made target (seq 0 n) names rn rn' → endOf nm ∈ ends rn →
  isEnabled rn' (endOf nm) = isEnabled rn (endOf nm) ∧
  connectionOf rn' (endOf nm) = connectionOf rn (endOf nm).
Proof.
  intros Hlen Hm Hin. destruct (md_old _ _ _ _ _ Hm (endOf nm)) as (? & ? & _); [|done].
  intros j nm' _ Hj <-%(inj endOf).
  by destruct (made_fresh _ _ _ _ _ _ _ Hlen Hm Hj).
Qed.

Lemma rows_new target n en rn i names rn' :
  rows_ok target n en rn → (i < n)%nat → length names = n →
  made target (seq 0 n) names rn rn' →
  rows_ok target n (<[i := Some names]> en) rn'.
Proof.
  intros [Hlen Hrow Hinj Hk Ht] Hi Hnames Hm.
  assert (Hclash : ∀ i' j nm k, endnameOf en i' j = Some nm → names !! k = Some nm → False).
  { intros i' j nm k Hnm Hk'. destruct (made_fresh _ _ _ _ _ _ _ Hnames Hm Hk') as [Hno _]. eauto. }
  split.
  - by rewrite length_insert.
  - intros i' l [(<- & [= <-] & _)|[? ?]]%list_lookup_insert_Some; [done|eauto].
  - intros a b a' b' nm. rewrite !endnameOf_insert by lia. repeat case_decide; subst; intros E1 E2.
    + split; [done|]. apply (md_inj _ _ _ _ _ Hm b b' nm); try done;
        apply elem_of_seq; apply lookup_lt_Some in E1, E2; lia.
    + by destruct (Hclash _ _ _ _ E2 E1).
    + by destruct (Hclash _ _ _ _ E1 E2).
    + eauto.
  - intros a b nm. rewrite endnameOf_insert by lia. case_decide; intros Hx.
    + by apply (made_fresh _ _ _ _ _ b _ Hnames Hm).
    + apply (md_ends _ _ _ _ _ Hm). eauto.
  - intros a b nm. rewrite endnameOf_insert by lia. case_decide; intros Hx.
    + by apply (made_fresh _ _ _ _ _ b _ Hnames Hm).
    + destruct (made_keep _ _ _ _ _ nm Hnames Hm) as [_ ->]; eauto.
Qed.

Lemma rows_empty target n rn : rows_ok target n (replicate n None) rn.
Proof.
  split; [by rewrite length_replicate|by intros ? ? [? ?]%lookup_replicate_1|..];
    intros *; by rewrite endnameOf_replicate.
Qed.

End Ends.

(** ** The slots of servers and persisters *)

Lemma go_update_nat {A} (l l' : list A) (i : nat) x :
  go_update l (Z.of_nat i) x = Some l' ↔ (i < length l)%nat ∧ l' = <[i := x]> l.
Proof.
  rewrite go_update_Some. unfold zlen. rewrite Nat2Z.id. naive_solver lia.
Qed.

(** [rs] are the running instances, [sv] the persisters saved for the servers,
    [ps] all persisters, [ins] the persister of every instance. *)
Record slots_ok (rs sv : list (option nat)) (ps : list Persister) (ins : list nat) : Prop := {
  so_len : length rs = length sv;
  so_saved : ∀ i p, sv !! i = Some (Some p) → (p < length ps)%nat;
  so_inst : ∀ k p, ins !! k = Some p → (p < length ps)%nat;
  so_uniq : ∀ i j p, sv !! i = Some (Some p) → sv !! j = Some (Some p) → i = j;
  so_own : ∀ i k p, sv !! i = Some (Some p) → ins !! k = Some p → rs !! i = Some (Some k);
}.

(** Slot [i] gets a persister [p] that is not among [ps]; either its instance
    stops or a new one starts on [p]. *)
Definition renewed (i p : nat) (rs sv : list (option nat)) (ins : list nat)
    (rs' sv' : list (option nat)) (ins' : list nat) : Prop :=
  sv' = <[i := Some p]> sv ∧
  ((ins' = ins ∧ rs' = <[i := None]> rs) ∨
   (ins' = ins ++ [p] ∧ rs' = <[i := Some (length ins)]> rs)).

Lemma slots_renew i p rs sv ps ins rs' sv' ps' ins' :
  (i < length sv)%nat → (length ps ≤ p < length ps')%nat → (length ps ≤ length ps')%nat →
  renewed i p rs sv ins rs' sv' ins' →
  slots_ok rs sv ps ins → slots_ok rs' sv' ps' ins'.
Proof.
  intros Hi [Hge Hlt] Hext [-> Hcase] [Hlen Hsv Hin Hu Ho]. split.
  - destruct Hcase as [[_ ->]|[_ ->]]; by rewrite !length_insert.
  - intros j q [(<- & [= <-] & _)|[? Hq]]%list_lookup_insert_Some; [lia|]. apply Hsv in Hq. lia.
  - intros k q. destruct Hcase as [[-> _]|[-> _]]; [intros Hq%Hin; lia|].
    intros [Hq|[_ [_ <-]%list_lookup_singleton_Some]]%lookup_app_Some; [|lia]. apply Hin in Hq. lia.
  - intros j j' q.
    intros [(<- & [= <-] & _)|[? Hq]]%list_lookup_insert_Some
           [(<- & Hqq & _)|[? Hq']]%list_lookup_insert_Some; [done|..].
    + apply Hsv in Hq'. lia.
    + simplify_eq. apply Hsv in Hq. lia.
    + eauto.
  - intros j k q [(<- & [= <-] & _)|[Hne Hq]]%list_lookup_insert_Some Hk.
    + destruct Hcase as [[-> _]|[-> ->]].
      { apply Hin in Hk. lia. }
      apply lookup_app_Some in Hk as [Hk|[Hge' [Hk _]%list_lookup_singleton_Some]].
      { apply Hin in Hk. lia. }
      rewrite list_lookup_insert_eq by lia. do 2 f_equal. lia.
    + assert (Hk' : ins !! k = Some q).
      { destruct Hcase as [[-> _]|[-> _]]; [done|].
        apply lookup_app_Some in Hk as [Hk|[_ [_ <-]%list_lookup_singleton_Some]]; [done|].
        apply Hsv in Hq. lia. }
      destruct Hcase as [[_ ->]|[_ ->]]; rewrite list_lookup_insert_ne by done; eauto.
Qed.

(** Stopping a server that has nothing saved. *)
Lemma slots_stop i rs sv ps ins :
  sv !! i = Some None → slots_ok rs sv ps ins → slots_ok (<[i := None]> rs) sv ps ins.
Proof.
  intros Hi [Hlen Hsv Hin Hu Ho]. split; [by rewrite length_insert|done..|].
  intros j k p Hj Hk. rewrite list_lookup_insert_ne by congruence. eauto.
Qed.

Lemma slots_empty n : slots_ok (replicate n None) (replicate n None) [] [].
Proof. split; [done|..]; intros *; try done; by intros [? _]%lookup_replicate_1. Qed.
