(* ===== verification/RaftConfig.v ===== *)
(** * The test harness of Raft: raft/config.go

    [make_config] builds n servers on a labrpc network; [connect],
    [disconnect], [crash1] and [start1] take them on and off it; the goroutine
    that reads a server's apply channel records the commands and, at a disagreement, ends the
    process; [nCommitted] counts the servers that applied an index. A reader gives up
    the lock after it has recorded a command and before it ends the process, so other goroutines
    may see what it has recorded: [errors] are the messages of readers on their way to
    [log.Fatalf].

    A [*Persister] is its index in [persisters] and a [*Raft] is its index
    in [instances], which records the persister the instance was made with: an old
    instance keeps running after a crash, so it may go on writing to it. An end's name
    on the network is [inl] of the random string, a server's is [inr] of its
    number. *)

From S2P Require Import Prelude Persister Raft Labrpc Harness.

Notation EndName := (string + nat)%type.
Notation Net := (@Network EndName _ _).

#[export] Program Instance pairNames : EndNames EndName := {| endOf := inl |}.

(** What a reader complains about: a command that is not an int; index [idx] without the one before;
    a command that differs from the one of server [j]. *)
Inductive ApplyErr :=
  | ENotInt (i : nat) (idx : Z)
  | EOutOfOrder (i : nat) (idx : Z)
  | EConflict (i : nat) (idx v : Z) (j : nat) (old : Z).

Record config := mkConfig {
  cn : nat;
  cnet : Net;
  rafts : list (option nat);
  connected : list bool;
  saved : list (option nat);
  endnames : list (option (list string));
  logs : list (gmap Z Z);
  maxIndex : Z;
  errors : list ApplyErr;
  persisters : list Persister;
  instances : list nat;
}.

Definition with_net (rn : Net) (c : config) : config :=
  mkConfig (cn c) rn (rafts c) (connected c) (saved c) (endnames c) (logs c) (maxIndex c) (errors c)
    (persisters c) (instances c).

Definition with_connected (l : list bool) (c : config) : config :=
  mkConfig (cn c) (cnet c) (rafts c) l (saved c) (endnames c) (logs c) (maxIndex c) (errors c)
    (persisters c) (instances c).

Definition with_rafts (l : list (option nat)) (c : config) : config :=
  mkConfig (cn c) (cnet c) l (connected c) (saved c) (endnames c) (logs c) (maxIndex c) (errors c)
    (persisters c) (instances c).

Definition with_endnames (l : list (option (list string))) (c : config) : config :=
  mkConfig (cn c) (cnet c) (rafts c) (connected c) (saved c) l (logs c) (maxIndex c) (errors c)
    (persisters c) (instances c).

Definition with_logs (l : list (gmap Z Z)) (m : Z) (c : config) : config :=
  mkConfig (cn c) (cnet c) (rafts c) (connected c) (saved c) (endnames c) l m (errors c)
    (persisters c) (instances c).

Definition with_error (err : option ApplyErr) (c : config) : config :=
  mkConfig (cn c) (cnet c) (rafts c) (connected c) (saved c) (endnames c) (logs c) (maxIndex c)
    (errors c ++ option_list err) (persisters c) (instances c).

Definition with_persisters (l : list Persister) (c : config) : config :=
  mkConfig (cn c) (cnet c) (rafts c) (connected c) (saved c) (endnames c) (logs c) (maxIndex c) (errors c)
    l (instances c).

(** [cfg.saved[i] = p] for a new persister [ps]. *)
Definition saveNew (i : nat) (ps : Persister) (c : config) : option config :=
  let* s := go_update (saved c) (Z.of_nat i) (Some (length (persisters c))) in
  Some (mkConfig (cn c) (cnet c) (rafts c) (connected c) s (endnames c) (logs c) (maxIndex c) (errors c)
    (persisters c ++ [ps]) (instances c)).

(** What [cfg.saved[i]] points to, [None] when it is nil. *)
Definition savedOf (c : config) (i : nat) : option Persister :=
  let* p := saved c !! i in let* p := p in persisters c !! p.

(** ** Links *)

Definition connect (i : nat) (c : config) : option config :=
  let* conn := go_update (connected c) (Z.of_nat i) true in
  let sel out j :=
    let* cj := conn !! j in
    if cj : bool then
      let* nm := (if out : bool then endnameOf (endnames c) i j else endnameOf (endnames c) j i) in
      Some (Some nm)
    else Some None in
  let* rn := enableAll (seq 0 (cn c)) (sel true) true (cnet c) in
  let* rn := enableAll (seq 0 (cn c)) (sel false) true rn in
  Some (with_net rn (with_connected conn c)).

Definition disconnect (i : nat) (c : config) : option config :=
  let* conn := go_update (connected c) (Z.of_nat i) false in
  let* ei := endnames c !! i in
  let outgoing j :=
    match ei with Some names => let* nm := names !! j in Some (Some nm) | None => Some None end in
  let incoming j :=
    let* ej := endnames c !! j in
    match ej with Some names => let* nm := names !! i in Some (Some nm) | None => Some None end in
  let* rn := enableAll (seq 0 (cn c)) outgoing false (cnet c) in
  let* rn := enableAll (seq 0 (cn c)) incoming false rn in
  Some (with_net rn (with_connected conn c)).

(** ** Crash and restart *)

Definition crash1 (i : nat) (c : config) : option config :=
  let* c := disconnect i c in
  let c := with_net (DeleteServer (inr i) (cnet c)) c in
  let* c := match savedOf c i with Some ps => saveNew i (Copy ps) c | None => Some c end in
  let* l := go_update (rafts c) (Z.of_nat i) None in
  let c := with_rafts l c in
  match savedOf c i with
  | Some ps => saveNew i (SaveRaftState MakePersister (ReadRaftState ps)) c
  | None => Some c
  end.

(** [names] are the n random strings drawn for the new ends. *)
Definition start1 (i : nat) (names : list string) (c : config) : option config :=
  let* c := crash1 i c in
  let* en := go_update (endnames c) (Z.of_nat i) (Some names) in
  let c := with_endnames en c in
  let* rn := makeEnds inr (seq 0 (cn c)) names (cnet c) in
  let c := with_net rn c in
  let* c := saveNew i (match savedOf c i with Some ps => Copy ps | None => MakePersister end) c in
  let* p := saved c !! i in
  let* p := p in
  let rf := length (instances c) in
  let* l := go_update (rafts c) (Z.of_nat i) (Some rf) in
  Some (mkConfig (cn c) (AddServer (inr i) rf (cnet c)) l (connected c) (saved c) (endnames c)
    (logs c) (maxIndex c) (errors c) (persisters c) (instances c ++ [p])).

(** [cfg] right after its slices are made, before the servers start. *)
Definition emptyConfig (n : nat) (unreliable : bool) : config :=
  mkConfig n (LongDelays true (Reliable (negb unreliable) MakeNetwork)) (replicate n None)
    (replicate n false) (replicate n None) (replicate n None) (replicate n ∅) 0 [] [] [].

Fixpoint startAll (ids : list nat) (names : nat → list string) (c : config) : option config :=
  match ids with
  | [] => Some c
  | i :: ids => let* c := start1 i (names i) c in startAll ids names c
  end.

Fixpoint connectAll (ids : list nat) (c : config) : option config :=
  match ids with
  | [] => Some c
  | i :: ids => let* c := connect i c in connectAll ids c
  end.

Definition make_config (n : nat) (unreliable : bool) (names : nat → list string) : option config :=
  let* c := startAll (seq 0 n) names (emptyConfig n unreliable) in
  connectAll (seq 0 n) c.

Definition cleanup (c : config) : option config :=
  let* rn := Cleanup (cnet c) in Some (with_net rn c).

Definition setunreliable (unrel : bool) (c : config) : config := with_net (Reliable (negb unrel) (cnet c)) c.
Definition setlongreordering (longrel : bool) (c : config) : config := with_net (LongReordering longrel (cnet c)) c.

Definition rpcTotal (c : config) : Z := GetTotalCount (cnet c).

(** The numbers [begin] takes down, and what [end] prints of the peers, the RPCs and the
    agreements. *)
Record stats := mkStats { rpcs0 : Z; maxIndex0 : Z }.

Definition begin (c : config) : stats := mkStats (rpcTotal c) (maxIndex c).
Definition end_ (c : config) (st : stats) : nat * Z * Z :=
  (cn c, rpcTotal c - rpcs0 st, maxIndex c - maxIndex0 st).

(** ** The apply readers and [nCommitted] *)

(** The loop over the logs of all servers: the last one that holds another command at the index. *)
Definition conflictOf (i : nat) (idx v : Z) (ls : list (gmap Z Z)) : option ApplyErr :=
  foldl (λ err '(j, lj),
    match lj !! idx with
    | Some old => if decide (old = v) then err else Some (EConflict i idx v j old)
    | None => err
    end) None (imap pair ls).

(** The reader of server [i]'s channel receives [m]: it records the command whether or not it
    finds an error; [log.Fatalf] comes later. *)
Definition applier (i : nat) (m : ApplyMsg Z) (c : config) : option config :=
  if CommandValid m then
    match Command m with
    | Some v =>
        let conflict := conflictOf i (CommandIndex m) v (logs c) in
        let* li := logs c !! i in
        let prevok := bool_decide (is_Some (li !! (CommandIndex m - 1))) in
        let mx := if decide (CommandIndex m > maxIndex c) then CommandIndex m else maxIndex c in
        let c := with_logs (<[i := <[CommandIndex m := v]> li]> (logs c)) mx c in
        Some (with_error (if bool_decide (CommandIndex m > 1) && negb prevok
                          then Some (EOutOfOrder i (CommandIndex m)) else conflict) c)
    | None => Some (with_error (Some (ENotInt i (CommandIndex m))) c)
    end
  else Some c.

(** The loop over the servers: [count] and [cmd] so far. [None] is [cfg.t.Fatalf]. *)
Fixpoint nCommittedLoop (ls : list (gmap Z Z)) (index count cmd : Z) : option (Z * Z) :=
  match ls with
  | [] => Some (count, cmd)
  | l :: ls =>
      match l !! index with
      | Some cmd1 =>
          if bool_decide (count > 0) && negb (bool_decide (cmd = cmd1)) then None
          else nCommittedLoop ls index (count + 1) cmd1
      | None => nCommittedLoop ls index count cmd
      end
  end.

(** [nCommitted] takes the lock anew for every server: [cs] are the configurations at the moments when
    it reads the logs of servers 0, 1, .. and [seen] what it finds. The test of
    [cfg.applyErr] never succeeds, since only the line after [log.Fatalf] sets it. *)
Definition seen (cs : list config) : list (gmap Z Z) := imap (λ i c, default ∅ (logs c !! i)) cs.

Definition nCommitted (cs : list config) (index : Z) : option (Z * Z) :=
  nCommittedLoop (seen cs) index 0 (-1).

(** ** The leader and term checks, on the answers of [GetState]

    A sample is what the servers answered, [None] for a server that is not
    connected. *)

Notation sample := (list (option (Z * bool))).

(** [leaders]: the servers that claim to lead, by term. *)
Definition leadersOf (sm : sample) : gmap Z (list nat) :=
  foldl (λ acc '(i, st),
    match st with
    | Some (term, true) => <[term := default [] (acc !! term) ++ [i]]> acc
    | _ => acc
    end) ∅ (imap pair sm).

(** One turn of checkOneLeader: [None] is [cfg.t.Fatalf], [Some None] no leader yet. *)
Definition checkOnce (sm : sample) : option (option nat) :=
  let ls := leadersOf sm in
  if existsb (λ '(_, l), bool_decide (1 < length (l : list nat))%nat) (map_to_list ls) then None
  else
    let last := foldr (λ '(term, _) acc, if decide (term > acc) then term else acc) (-1) (map_to_list ls) in
    if bool_decide (ls = ∅) then Some None
    else let* l := ls !! last in let* i := l !! 0%nat in Some (Some i).

(** The samples of the ten turns; [None]: a fatal error, also when no turn saw
    a leader. *)
Fixpoint checkOneLeader (turns : list sample) : option nat :=
  match turns with
  | [] => None
  | sm :: turns =>
      let* o := checkOnce sm in
      match o with Some i => Some i | None => checkOneLeader turns end
  end.

Fixpoint checkTermsLoop (sm : sample) (term : Z) : option Z :=
  match sm with
  | [] => Some term
  | Some (xterm, _) :: sm =>
      if decide (term = -1) then checkTermsLoop sm xterm
      else if decide (term = xterm) then checkTermsLoop sm term else None
  | None :: sm => checkTermsLoop sm term
  end.

Definition checkTerms (sm : sample) : option Z := checkTermsLoop sm (-1).

(** ** Runs of the harness

    [OPersist k b] is a write of instance [k], alive or not, to its persister. *)

Inductive Op :=
  | OConnect (i : nat)
  | ODisconnect (i : nat)
  | OCrash (i : nat)
  | OStart (i : nat) (names : list string)
  | OReliable (b : bool)
  | OPersist (k : nat) (b : bytes)
  | OApply (i : nat) (m : ApplyMsg Z).

Definition opStep (c : config) (o : Op) : option config :=
  match o with
  | OConnect i => connect i c
  | ODisconnect i => disconnect i c
  | OCrash i => crash1 i c
  | OStart i names => assert* bool_decide (length names = cn c) in start1 i names c
  | OReliable b => Some (setunreliable (negb b) c)
  | OPersist k b =>
      let* p := instances c !! k in
      let* ps := persisters c !! p in
      Some (with_persisters (<[p := SaveRaftState ps b]> (persisters c)) c)
  | OApply i m => applier i m c
  end.

Fixpoint orun (c : config) (os : list Op) : option config :=
  match os with
  | [] => Some c
  | o :: os => let* c := opStep c o in orun c os
  end.
