(* ===== verification/RaftConfigSpec.v ===== *)
(** * Properties of the test harness (raft/config.go)

    Whatever sequence of connects, disconnects, crashes and restarts is made,
    the links of the network are exactly those between two connected running
    servers, an old instance cannot write over the state of its successor, and as long as no
    reader of an apply channel has found an error the servers agree. *)

From S2P Require Import Prelude Persister Raft Labrpc Harness RaftConfig.
From Stdlib Require Import Strings.Byte.

Definition conn (c : config) (i : nat) : bool := default false (connected c !! i).

(** ** Links *)

Record links_ok (c : config) : Prop := {
  lk_len : length (connected c) = cn c ∧ length (rafts c) = cn c;
  lk_rows : rows_ok inr (cn c) (endnames c) (cnet c);
  lk_enabled : ∀ i j nm, endnameOf (endnames c) i j = Some nm →
    isEnabled (cnet c) (inl nm) = conn c i && conn c j;
  lk_old : ∀ x, (∀ i j nm, endnameOf (endnames c) i j = Some nm → x ≠ inl nm) →
    isEnabled (cnet c) x = false;
  lk_server : ∀ i, (i < cn c)%nat → serverOf (cnet c) (inr i) = default None (rafts c !! i);
}.

(** What connect and disconnect have to do to the network. *)
Lemma relink c cs rn :
  links_ok c → length cs = cn c → same_wiring (cnet c) rn →
  (∀ i j nm, endnameOf (endnames c) i j = Some nm →
     isEnabled rn (inl nm) = default false (cs !! i) && default false (cs !! j)) →
  (∀ x, (∀ i j nm, endnameOf (endnames c) i j = Some nm → x ≠ inl nm) →
     isEnabled rn x = isEnabled (cnet c) x) →
  links_ok (with_net rn (with_connected cs c)).
Proof.
  intros [[? ?] Hrows He Ho Hs] Hlen Hw Hnew Hold. split; simpl; [done|by eapply same_wiring_rows|done|..].
  - intros x Hx. rewrite Hold by done. by apply Ho.
  - destruct Hw as (_ & Hsrv & _). unfold serverOf in *. by rewrite Hsrv.
Qed.

(** Two loops over the row and the column of server [i], one after the other. *)
Lemma enable_row_col c i b f g rn1 rn2 :
  links_ok c →
  enableAll (seq 0 (cn c)) f b (cnet c) = Some rn1 →
  enableAll (seq 0 (cn c)) g b rn1 = Some rn2 →
  (∀ j nm, f j = Some (Some nm) → endnameOf (endnames c) i j = Some nm) →
  (∀ j nm, g j = Some (Some nm) → endnameOf (endnames c) j i = Some nm) →
  same_wiring (cnet c) rn2 ∧
  (∀ j nm, (j < cn c)%nat → f j = Some (Some nm) → isEnabled rn2 (inl nm) = b) ∧
  (∀ j nm, (j < cn c)%nat → g j = Some (Some nm) → isEnabled rn2 (inl nm) = b) ∧
  (∀ i' j' nm, endnameOf (endnames c) i' j' = Some nm →
     (i' = i → f j' ≠ Some (Some nm)) → (j' = i → g i' ≠ Some (Some nm)) →
     isEnabled rn2 (inl nm) = isEnabled (cnet c) (inl nm)) ∧
  (∀ x, (∀ i j nm, endnameOf (endnames c) i j = Some nm → x ≠ inl nm) →
     isEnabled rn2 x = isEnabled (cnet c) x).
Proof.
  intros Hok H1 H2 Hf Hg. destruct (enableAll_twice _ _ _ _ _ _ _ _ H1 H2) as (Hw & Hin & Hout).
  assert (Hj : ∀ j, (j < cn c)%nat → j ∈ seq 0 (cn c)) by (intros; apply elem_of_seq; lia).
  split_and!; [done| | | |].
  - intros j nm Hlt Hfj. apply Hin. left. exists j. auto.
  - intros j nm Hlt Hgj. apply Hin. right. exists j. auto.
  - intros i' j' nm Hnm Hnf Hng. apply Hout.
    intros nm' [(k & _ & Hk)|(k & _ & Hk)] [= <-].
    + destruct (ro_inj _ _ _ _ (lk_rows c Hok) _ _ _ _ _ Hnm (Hf _ _ Hk)). naive_solver.
    + destruct (ro_inj _ _ _ _ (lk_rows c Hok) _ _ _ _ _ Hnm (Hg _ _ Hk)). naive_solver.
  - intros x Hx. apply Hout. intros nm [(k & _ & Hk)|(k & _ & Hk)]; eapply Hx; eauto.
Qed.

Lemma disconnect_links i c c' : disconnect i c = Some c' → links_ok c → links_ok c'.
Proof.
  unfold disconnect.
  intros (cs & (Hi & ->)%go_update_nat & (ei & Hei & (rn1 & H1 & (rn2 & H2 & [= <-])%obind_Some)%obind_Some)%obind_Some)%obind_Some Hok.
  destruct (lk_len c Hok) as [Hlc _].
  assert (Hrow : ∀ j nm, match ei with
    | Some names => let* nm := names !! j in Some (Some nm) | None => Some None end = Some (Some nm) ↔
    endnameOf (endnames c) i j = Some nm).
  { intros j nm. unfold endnameOf. rewrite Hei. destruct ei as [l|]; simpl; [|naive_solver].
    destruct (l !! j); naive_solver. }
  assert (Hcol : ∀ j nm, (let* ej := endnames c !! j in match ej with
    | Some names => let* nm := names !! i in Some (Some nm) | None => Some None end) = Some (Some nm) ↔
    endnameOf (endnames c) j i = Some nm).
  { intros j nm. unfold endnameOf. destruct (endnames c !! j) as [[l|]|]; simpl; [|naive_solver..].
    destruct (l !! i); naive_solver. }
  destruct (enable_row_col c i false _ _ _ _ Hok H1 H2) as (Hw & Hf & Hg & Hrest & Hout);
    [by intros ? ? ?%Hrow|by intros ? ? ?%Hcol|].
  apply relink; [done|by rewrite length_insert|done| |done].
  intros i' j' nm Hnm. destruct (rows_range _ _ _ _ _ _ _ (lk_rows c Hok) Hnm) as [Hi' Hj'].
  destruct (decide (i' = i)) as [->|Hni]; [|destruct (decide (j' = i)) as [->|Hnj]].
  - rewrite list_lookup_insert_eq by done. simpl. eapply Hf; [done|]. by apply Hrow.
  - rewrite (list_lookup_insert_eq _ i) by done. simpl. rewrite andb_false_r.
    eapply Hg; [exact Hi'|]. by apply Hcol.
  - rewrite !list_lookup_insert_ne by done. erewrite Hrest; [by apply lk_enabled|done..].
Qed.

Lemma connect_links i c c' : connect i c = Some c' → links_ok c → links_ok c'.
Proof.
  unfold connect.
  intros (cs & (Hi & ->)%go_update_nat & (rn1 & H1 & (rn2 & H2 & [= <-])%obind_Some)%obind_Some)%obind_Some Hok.
  destruct (lk_len c Hok) as [Hlc _].
  set (cs := <[i := true]> (connected c)) in *.
  assert (Hsel : ∀ (o : option string) j nm,
    (let* cj := cs !! j in if cj : bool then let* nm := o in Some (Some nm) else Some None) = Some (Some nm) ↔
    default false (cs !! j) = true ∧ o = Some nm).
  { intros o j nm. destruct (cs !! j) as [[]|]; simpl; [|naive_solver..].
    destruct o; naive_solver. }
  destruct (enable_row_col c i true _ _ _ _ Hok H1 H2) as (Hw & Hf & Hg & Hrest & Hout);
    [by intros ? ? [? ?]%Hsel|by intros ? ? [? ?]%Hsel|].
  apply relink; [done|unfold cs; by rewrite length_insert|done| |done].
  assert (Hci : cs !! i = Some true) by (unfold cs; by rewrite list_lookup_insert_eq).
  assert (Hcs : ∀ k, k ≠ i → cs !! k = connected c !! k) by (intros; unfold cs; by rewrite list_lookup_insert_ne).
  intros i' j' nm Hnm. destruct (rows_range _ _ _ _ _ _ _ (lk_rows c Hok) Hnm) as [Hi' Hj'].
  destruct (default false (cs !! i') && default false (cs !! j')) eqn:Hb.
  - apply andb_true_iff in Hb as [Hb1 Hb2].
    destruct (decide (i' = i)) as [->|Hni]; [|destruct (decide (j' = i)) as [->|Hnj]].
    + eapply Hf; [exact Hj'|]. by apply Hsel.
    + eapply Hg; [exact Hi'|]. by apply Hsel.
    + erewrite Hrest; [|done..]. rewrite (lk_enabled c Hok _ _ _ Hnm). unfold conn.
      rewrite !Hcs in * by done. by rewrite Hb1, Hb2.
  - erewrite Hrest; [|done|by intros -> [? _]%Hsel; rewrite Hci in Hb; simpl in Hb; congruence
      |by intros -> [? _]%Hsel; rewrite Hci, andb_comm in Hb; simpl in Hb; congruence].
    rewrite (lk_enabled c Hok _ _ _ Hnm).
    assert (Hmono : ∀ k, conn c k = true → default false (cs !! k) = true).
    { intros k. destruct (decide (k = i)) as [->|?]; [by rewrite Hci|]. by rewrite Hcs. }
    destruct (conn c i') eqn:E1; [|done]. destruct (conn c j') eqn:E2; [|done].
    by rewrite (Hmono _ E1), (Hmono _ E2) in Hb.
Qed.

(** *** Crash and restart *)

(** The parts the links depend on. *)
Definition same_links (c c' : config) : Prop :=
  cn c' = cn c ∧ cnet c' = cnet c ∧ rafts c' = rafts c ∧ connected c' = connected c ∧
  endnames c' = endnames c.

Lemma same_links_ok c c' : same_links c c' → links_ok c → links_ok c'.
Proof.
  intros (Hn & Hnet & Hr & Hc & He) [].
  split; unfold conn in *; rewrite ?Hn, ?Hnet, ?Hr, ?Hc, ?He; done.
Qed.

Lemma saveNew_same i ps c c' : saveNew i ps c = Some c' → same_links c c'.
Proof. unfold saveNew. intros (? & _ & [= <-])%obind_Some. by split_and!. Qed.

Lemma set_server_links i o l c :
  links_ok c → go_update (rafts c) (Z.of_nat i) o = Some l →
  links_ok (with_rafts l (with_net (setServer (inr i) o (cnet c)) c)).
Proof.
  intros [[? Hlr] ? ? ? Hs] (Hi & ->)%go_update_nat. split; simpl; try done.
  - by rewrite length_insert.
  - by apply (rows_wiring _ _ _ (cnet c)).
  - intros j Hj. unfold serverOf in *. simpl. destruct (decide (j = i)) as [->|Hne].
    + by rewrite lookup_insert_eq, list_lookup_insert_eq.
    + rewrite lookup_insert_ne, list_lookup_insert_ne by congruence. by apply Hs.
Qed.

Lemma saveIf_same (o : option Persister) (f : Persister → Persister) i c c' :
  match o with Some ps => saveNew i (f ps) c | None => Some c end = Some c' → same_links c c'.
Proof. destruct o; [apply saveNew_same|intros [= <-]; by split_and!]. Qed.

Lemma crash1_links i c c' : crash1 i c = Some c' → links_ok c → links_ok c'.
Proof.
  unfold crash1. intros (c1 & Hd & (c2 & H2 & (l & Hl & H3)%obind_Some)%obind_Some)%obind_Some Hok.
  apply (disconnect_links _ _ _ Hd) in Hok.
  apply (saveIf_same _ Copy) in H2.
  apply (saveIf_same _ (λ ps, SaveRaftState MakePersister (ReadRaftState ps))) in H3.
  apply (same_links_ok _ _ H3). destruct H2 as (E1 & E2 & E3 & E4 & E5).
  rewrite E3 in Hl. eapply same_links_ok; [|apply (set_server_links i None l c1 Hok Hl)].
  by split_and!.
Qed.

(** A disconnected server gets a new row of ends. *)
Lemma new_row_links i names rn c :
  links_ok c → (i < cn c)%nat → conn c i = false → length names = cn c →
  makeEnds inr (seq 0 (cn c)) names (cnet c) = Some rn →
  links_ok (with_net rn (with_endnames (<[i := Some names]> (endnames c)) c)).
Proof.
  intros Hok Hi Hci Hlen Hrn. pose proof (makeEnds_spec _ _ _ _ _ (NoDup_seq _ _) Hrn) as Hm.
  pose proof (lk_rows c Hok) as Hrows. pose proof (ro_len _ _ _ _ Hrows) as Hle.
  destruct (lk_len c Hok) as [Hlc Hlr]. split; simpl; [done|by eapply rows_new|..].
  - intros a b nm. rewrite endnameOf_insert by lia. unfold conn. simpl.
    fold (conn c a). fold (conn c b). case_decide as Ha; intros Hx.
    + rewrite Ha, Hci. by apply (made_fresh _ _ _ _ _ b nm Hlen Hm).
    + destruct (made_keep _ _ _ _ _ nm Hlen Hm) as [Hen _]; [by eapply ro_known|].
      etrans; [exact Hen|]. by apply lk_enabled.
  - intros x Hx. destruct (md_old _ _ _ _ _ Hm x) as (-> & _).
    { intros j nm _ Hj. apply (Hx i j). by rewrite endnameOf_insert, decide_True by lia. }
    destruct (decide (isEnabled (cnet c) x = false)) as [|Hen]; [done|].
    apply lk_old; [done|]. intros a b nm Hnm ->. destruct (decide (a = i)) as [->|Ha].
    + apply Hen. by rewrite (lk_enabled c Hok _ _ _ Hnm), Hci.
    + apply (Hx a b nm); [|done]. by rewrite endnameOf_insert, decide_False by lia.
  - intros j Hj. unfold serverOf. rewrite (md_servers _ _ _ _ _ Hm). by apply lk_server.
Qed.

Lemma disconnect_conn i c c' : disconnect i c = Some c' → conn c' i = false ∧ cn c' = cn c ∧ (i < length (connected c))%nat.
Proof.
  unfold disconnect.
  intros (cs & (Hi & ->)%go_update_nat & (? & _ & (? & _ & (? & _ & [= <-])%obind_Some)%obind_Some)%obind_Some)%obind_Some.
  unfold conn. simpl. by rewrite list_lookup_insert_eq.
Qed.

Lemma crash1_conn i c c' : crash1 i c = Some c' → conn c' i = false ∧ cn c' = cn c ∧ (i < length (connected c))%nat.
Proof.
  unfold crash1. intros (c1 & Hd & (c2 & H2 & (l & Hl & H3)%obind_Some)%obind_Some)%obind_Some.
  apply disconnect_conn in Hd as (Hci & Hn & Hi).
  apply (saveIf_same _ Copy) in H2 as (E1 & _ & _ & E4 & _).
  apply (saveIf_same _ (λ ps, SaveRaftState MakePersister (ReadRaftState ps))) in H3 as (F1 & _ & _ & F4 & _).
  unfold conn in *. rewrite F4, F1. simpl. rewrite E4, E1. simpl. by rewrite Hn.
Qed.

Lemma start1_links i names c c' :
  length names = cn c → start1 i names c = Some c' → links_ok c → links_ok c'.
Proof.
  unfold start1. intros Hlen (c1 & Hcr & (en & Hen & (rn & Hrn & (c2 & H2 & (o & _ & (p & -> &
    (l & Hl & [= <-])%obind_Some)%obind_Some)%obind_Some)%obind_Some)%obind_Some)%obind_Some)%obind_Some Hok.
  destruct (crash1_conn _ _ _ Hcr) as (Hci & Hn & _). apply (crash1_links _ _ _ Hcr) in Hok.
  apply go_update_nat in Hen as [Hi ->]. pose proof (ro_len _ _ _ _ (lk_rows c1 Hok)) as Hle.
  apply saveNew_same in H2. simpl in Hrn.
  assert (Hok2 : links_ok c2).
  { apply (same_links_ok _ _ H2). apply new_row_links; [done|lia|done|lia|done]. }
  eapply same_links_ok; [|apply (set_server_links i (Some (length (instances c2))) l c2 Hok2 Hl)].
  by split_and!.
Qed.

Lemma empty_links n u : links_ok (emptyConfig n u).
Proof.
  split; simpl; rewrite ?length_replicate; [done|apply rows_empty| |done|].
  - intros *. by rewrite endnameOf_replicate.
  - intros i Hi. by rewrite lookup_replicate_2.
Qed.

Lemma applier_same i m c c' :
  applier i m c = Some c' →
  same_links c c' ∧ saved c' = saved c ∧ persisters c' = persisters c ∧ instances c' = instances c.
Proof.
  unfold applier, same_links. destruct (CommandValid m); [|by intros [= <-]].
  destruct (Command m) as [v|]; [|by intros [= <-]]. by intros (li & _ & [= <-])%obind_Some.
Qed.

Lemma opStep_links c o c' : opStep c o = Some c' → links_ok c → links_ok c'.
Proof.
  destruct o as [i|i|i|i names|b|k b|i m]; simpl.
  - apply connect_links.
  - apply disconnect_links.
  - apply crash1_links.
  - case_bool_decide; [|done]. by apply start1_links.
  - intros [= <-] [? Hr ? ? ?]. split; [done|by apply (rows_wiring _ _ _ (cnet c))|done..].
  - intros (p & _ & (ps & _ & [= <-])%obind_Some)%obind_Some. apply same_links_ok. by split_and!.
  - intros [Hs _]%applier_same. by apply same_links_ok.
Qed.

(** ** Runs *)

Lemma orun_app c os os' : orun c (os ++ os') = obind (orun c os) (λ c, orun c os').
Proof. revert c. induction os as [|o os IH]; intros c; simpl; [done|]. by destruct (opStep c o); simpl. Qed.

Lemma orun_inv (P : config → Prop) :
  (∀ c o c', opStep c o = Some c' → P c → P c') →
  ∀ os c c', orun c os = Some c' → P c → P c'.
Proof.
  intros Hstep. induction os as [|o os IH]; intros c c'; simpl; [by intros [= <-]|].
  intros (c1 & Ho & Hr)%obind_Some HP. eauto.
Qed.

(** [c] is reached by the harness: [make_config] and then any operations. *)
Definition harness (n : nat) (unreliable : bool) (c : config) : Prop :=
  ∃ names c0 os, (∀ i, length (names i) = n) ∧ make_config n unreliable names = Some c0 ∧
    orun c0 os = Some c.

Lemma opStep_cn c o c' : opStep c o = Some c' → cn c' = cn c.
Proof.
  destruct o as [i|i|i|i names|b|k b|i m]; simpl; intros Hs.
  - unfold connect in Hs. by go_inv.
  - by apply disconnect_conn in Hs as (_ & ? & _).
  - by apply crash1_conn in Hs as (_ & ? & _).
  - case_bool_decide; [|done]. unfold start1, saveNew in Hs. go_inv.
    by apply crash1_conn in Hx as (_ & ? & _).
  - by simplify_eq.
  - by go_inv.
  - by apply applier_same in Hs as [(? & _) _].
Qed.

Lemma startAll_run ids names c c' :
  (∀ i, length (names i) = cn c) → startAll ids names c = Some c' →
  orun c ((λ i, OStart i (names i)) <$> ids) = Some c'.
Proof.
  revert c. induction ids as [|i ids IH]; intros c Hlen; [done|]. rewrite fmap_cons. cbn [startAll orun opStep].
  intros (c1 & H1 & H2)%obind_Some. rewrite bool_decide_true by done. rewrite H1. cbn [obind].
  apply IH; [|done]. intros j. rewrite Hlen. symmetry. apply (opStep_cn c (OStart i (names i))).
  simpl. by rewrite bool_decide_true.
Qed.

Lemma connectAll_run ids c c' : connectAll ids c = Some c' → orun c (OConnect <$> ids) = Some c'.
Proof.
  revert c. induction ids as [|i ids IH]; intros c; [done|]. rewrite fmap_cons. cbn [connectAll orun opStep].
  intros (c1 & H1 & H2)%obind_Some. rewrite H1. by apply IH.
Qed.

Lemma harness_run n u c : harness n u c → ∃ os, orun (emptyConfig n u) os = Some c.
Proof.
  intros (names & c0 & os & Hlen & (c1 & H1 & H2)%obind_Some & Hrun).
  apply (startAll_run _ names) in H1; [|done]. apply connectAll_run in H2.
  eexists (_ ++ _ ++ os). rewrite orun_app, H1. cbn [obind]. rewrite orun_app, H2. exact Hrun.
Qed.

(** An invariant of the operations that holds before the servers start holds
    of every state of the harness. *)
Lemma harness_inv (P : config → Prop) n u c :
  (∀ c o c', opStep c o = Some c' → P c → P c') → P (emptyConfig n u) →
  harness n u c → P c.
Proof. intros Hstep H0 (os & Hrun)%harness_run. by eapply orun_inv. Qed.

(** C23: After any sequence of connects, disconnects, crashes and restarts,
    the network carries a request on server i's end to server j exactly when i and j
    are both connected and j is running; every other end, such as those of
    crashed instances, carries nothing. *)
Theorem harness_links n u c :
  harness n u c →
  (∀ i j nm, endnameOf (endnames c) i j = Some nm →
     routable (cnet c) (inl nm) ↔
       conn c i = true ∧ conn c j = true ∧ is_Some (default None (rafts c !! j))) ∧
  (∀ x, (∀ i j nm, endnameOf (endnames c) i j = Some nm → x ≠ inl nm) → ¬ routable (cnet c) x).
Proof.
  intros Hok%(harness_inv links_ok); [|apply opStep_links|apply empty_links]. split.
  - intros i j nm Hnm. destruct (rows_range _ _ _ _ _ _ _ (lk_rows c Hok) Hnm) as [Hi Hj].
    unfold routable. rewrite (lk_enabled c Hok _ _ _ Hnm), andb_true_iff.
    assert (connectionOf (cnet c) (inl nm) = Some (inr j)) as -> by
      exact (ro_target _ _ _ _ (lk_rows c Hok) _ _ _ Hnm).
    rewrite <-(lk_server c Hok j Hj).
    split; [intros [[? ?] (sn & p & [= <-] & ->)]|intros (? & ? & [p Hp])]; eauto 10.
  - intros x Hx [Hen _]. by rewrite (lk_old c Hok x Hx) in Hen.
Qed.

(** ** Persisters *)

Notation pers_ok c := (slots_ok (rafts c) (saved c) (persisters c) (instances c)).

(** Server [i] is given a persister that did not exist before, with the Raft
    state [st]; a new instance of it may start at the same time. *)
Record fresh_saved (i : nat) (st : bytes) (c c' : config) : Prop := {
  fs_old : ∃ extra, persisters c' = persisters c ++ extra;
  fs_new : ∃ p, (length (persisters c) ≤ p)%nat ∧ persisters c' !! p = Some (mkPersister st []) ∧
    renewed i p (rafts c) (saved c) (instances c) (rafts c') (saved c') (instances c');
}.

Lemma fresh_saved_ok i st c c' :
  (i < length (saved c))%nat → fresh_saved i st c c' → pers_ok c → pers_ok c'.
Proof.
  intros Hi [(extra & Hp) (p & Hge & Hlk & Hr)]. apply lookup_lt_Some in Hlk.
  eapply slots_renew; [done|done| |done]. rewrite Hp, length_app. lia.
Qed.

(** The parts the persisters depend on. *)
Definition same_pers (c c' : config) : Prop :=
  rafts c' = rafts c ∧ saved c' = saved c ∧ persisters c' = persisters c ∧ instances c' = instances c.

Lemma same_pers_ok c c' : same_pers c c' → pers_ok c → pers_ok c'.
Proof. intros (E1 & E2 & E3 & E4) []. split; rewrite ?E1, ?E2, ?E3, ?E4; done. Qed.

Lemma connect_pers i c c' : connect i c = Some c' → same_pers c c'.
Proof. unfold connect. intros Hs. go_inv. by split_and!. Qed.

Lemma disconnect_pers i c c' : disconnect i c = Some c' → same_pers c c'.
Proof. unfold disconnect. intros Hs. go_inv. by split_and!. Qed.

Lemma saveNew_Some i ps c c' :
  saveNew i ps c = Some c' →
  saved c' = <[i := Some (length (persisters c))]> (saved c) ∧
  persisters c' = persisters c ++ [ps] ∧ instances c' = instances c ∧ rafts c' = rafts c ∧
  savedOf c' i = Some ps.
Proof.
  unfold saveNew, savedOf. intros (l & [Hi ->]%go_update_nat & [= <-])%obind_Some. simpl.
  split_and!; try done. rewrite list_lookup_insert_eq by done. simpl.
  by rewrite list_lookup_middle.
Qed.

(** What crash1 leaves: nothing saved stays nothing; otherwise a new persister
    with the Raft state only. *)
Lemma crash1_pers i c c' :
  crash1 i c = Some c' →
  match savedOf c i with
  | None => rafts c' = <[i := None]> (rafts c) ∧ saved c' = saved c ∧
            persisters c' = persisters c ∧ instances c' = instances c
  | Some ps => fresh_saved i (raftstate ps) c c' ∧ instances c' = instances c ∧
               rafts c' = <[i := None]> (rafts c) ∧ savedOf c' i = Some (mkPersister (raftstate ps) [])
  end.
Proof.
  unfold crash1. intros (c1 & Hd & (c2 & H2 & (l & [Hi ->]%go_update_nat & H3)%obind_Some)%obind_Some)%obind_Some.
  apply disconnect_pers in Hd as (E1 & E2 & E3 & E4).
  assert (Hsv : savedOf (with_net (DeleteServer (inr i) (cnet c1)) c1) i = savedOf c i).
  { unfold savedOf. simpl. by rewrite E2, E3. }
  rewrite Hsv in H2. destruct (savedOf c i) as [ps|] eqn:Hps.
  - apply saveNew_Some in H2 as (S1 & S2 & S3 & S4 & S5). simpl in *.
    unfold savedOf in S5 at 1. unfold savedOf in H3 at 1. simpl in H3. rewrite S5 in H3.
    apply saveNew_Some in H3 as (T1 & T2 & T3 & T4 & T5). simpl in *.
    split_and!; [|congruence..|exact T5].
    assert (persisters c' = persisters c ++ [Copy ps; SaveRaftState MakePersister (raftstate (Copy ps))]) as Hp.
    { rewrite T2, S2, E3, <-(assoc_L (++)). done. }
    split; [by eexists|]. exists (length (persisters c2)). split_and!.
    + rewrite S2, E3, length_app. simpl. lia.
    + rewrite T2. by rewrite list_lookup_middle.
    + split; [rewrite T1, S1, E2; apply list_insert_insert_eq|]. left. split; congruence.
  - simplify_eq. change (savedOf _ i) with (savedOf (with_net (DeleteServer (inr i) (cnet c1)) c1) i) in H3.
    rewrite Hsv in H3. simplify_eq. simpl. split_and!; congruence.
Qed.

Lemma crash1_ok i c c' : crash1 i c = Some c' → pers_ok c → pers_ok c'.
Proof.
  intros Hc Hok. apply crash1_pers in Hc as Hp. destruct (savedOf c i) as [ps|] eqn:Hps.
  - destruct Hp as (Hf & _). eapply fresh_saved_ok; [|done..].
    unfold savedOf in Hps. apply obind_Some in Hps as (? & ?%lookup_lt_Some & _). done.
  - destruct Hp as (E1 & E2 & E3 & E4). pose proof Hok as [Hlen Hsv Hin Hu Ho].
    split; rewrite ?E1, ?E2, ?E3, ?E4, ?length_insert; try done.
    intros j k p Hj Hk. destruct (decide (j = i)) as [->|Hne].
    + exfalso. apply Hsv in Hj as Hlt. apply lookup_lt_is_Some_2 in Hlt as [ps Hlt].
      unfold savedOf in Hps. rewrite Hj in Hps. simpl in Hps. congruence.
    + rewrite list_lookup_insert_ne by done. by eapply Ho.
Qed.

(** The Raft state server [i] last persisted. *)
Definition lastState (c : config) (i : nat) : bytes :=
  match savedOf c i with Some ps => raftstate ps | None => [] end.

Lemma crash1_saved i c c' :
  crash1 i c = Some c' →
  ∃ extra o, persisters c' = persisters c ++ extra ∧
    (saved c' = <[i := o]> (saved c) ∨ saved c' = saved c) ∧
    instances c' = instances c ∧ rafts c' = <[i := None]> (rafts c) ∧
    default MakePersister (savedOf c' i) = mkPersister (lastState c i) [].
Proof.
  intros Hcr%crash1_pers. unfold lastState. destruct (savedOf c i) as [ps|] eqn:Hps.
  - destruct Hcr as ([(extra & ?) (q & ? & ? & Hq & ?)] & ? & ? & ->). exists extra, (Some q). auto 10.
  - destruct Hcr as (? & E2 & E3 & ?). exists [], None. rewrite app_nil_r. split_and!; auto.
    unfold savedOf in *. by rewrite E2, E3, Hps.
Qed.

(** Restart: the new instance's persister holds the Raft state last saved. *)
Lemma start1_pers i names c c' :
  start1 i names c = Some c' →
  fresh_saved i (lastState c i) c c' ∧ (i < length (saved c))%nat ∧
  rafts c' !! i = Some (Some (length (instances c))) ∧
  instances c' !! length (instances c) = default None (saved c' !! i) ∧
  savedOf c' i = Some (mkPersister (lastState c i) []).
Proof.
  unfold start1. intros (c1 & Hcr & (en & _ & (rn & _ & (c2 & H2 & (o & Ho & (p & Hp &
    (l & Hl & Hc')%obind_Some)%obind_Some)%obind_Some)%obind_Some)%obind_Some)%obind_Some)%obind_Some.
  apply go_update_nat in Hl as [Hi ->]. simplify_eq.
  destruct (crash1_saved _ _ _ Hcr) as (extra & o & F1 & F2 & F3 & F4 & F5).
  assert (match savedOf (with_net rn (with_endnames en c1)) i with
    Some ps => Copy ps | None => MakePersister end = mkPersister (lastState c i) []) as Hps.
  { rewrite <-F5. unfold savedOf. simpl. fold (savedOf c1 i). by destruct (savedOf c1 i) as [[]|]. }
  rewrite Hps in H2. apply saveNew_Some in H2 as (S1 & S2 & S3 & S4 & S5). simpl in *.
  assert (Hlen : length (saved c1) = length (saved c)).
  { destruct F2 as [-> | ->]; by rewrite ?length_insert. }
  assert (Hs : saved c2 = <[i := Some (length (persisters c1))]> (saved c)).
  { rewrite S1. destruct F2 as [-> | ->]; [apply list_insert_insert_eq|done]. }
  assert (Hil : (i < length (saved c))%nat).
  { apply lookup_lt_Some in Ho. by rewrite Hs, length_insert in Ho. }
  rewrite Hs, list_lookup_insert_eq in Ho by done. simplify_eq. split_and!; simpl; try done.
  - split; [exists (extra ++ [mkPersister (lastState c i) []]); simpl; rewrite S2, F1; by rewrite (assoc_L (++))|].
    exists (length (persisters c1)). simpl. split_and!; [rewrite F1, length_app; lia| |].
    + rewrite S2. by rewrite list_lookup_middle.
    + split; [done|]. right. rewrite S3, F3, S4, F4. split; [done|apply list_insert_insert_eq].
  - rewrite S3, F3. apply list_lookup_insert_eq. done.
  - rewrite S3, F3, Hs, list_lookup_insert_eq by done. simpl. by rewrite list_lookup_middle.
Qed.

Lemma opStep_pers c o c' : opStep c o = Some c' → pers_ok c → pers_ok c'.
Proof.
  destruct o as [i|i|i|i names|b|k b|i m]; simpl.
  - intros ?%connect_pers. by apply same_pers_ok.
  - intros ?%disconnect_pers. by apply same_pers_ok.
  - apply crash1_ok.
  - case_bool_decide; [|done]. intros (Hf & Hi & _)%start1_pers. by eapply fresh_saved_ok.
  - intros [= <-]. by apply same_pers_ok.
  - intros (p & _ & (ps & _ & [= <-])%obind_Some)%obind_Some []. split; simpl; rewrite ?length_insert; done.
  - intros ((_ & _ & ? & _) & ? & ? & ?)%applier_same. by apply same_pers_ok.
Qed.

Lemma empty_pers n u : pers_ok (emptyConfig n u).
Proof. apply slots_empty. Qed.

(** A restart hands the new instance exactly the Raft state the server last
    persisted (empty at the first start), in a persister of its own: from then on
    no write of any other instance, in particular of the crashed one
    that is still running, changes what the server has saved. *)
Theorem restart_isolated n u c i names c' :
  harness n u c → opStep c (OStart i names) = Some c' →
  rafts c' !! i = Some (Some (length (instances c))) ∧
  savedOf c' i = Some (mkPersister (lastState c i) []) ∧
  ∀ os c1 k b c2,
    orun c' os = Some c1 → rafts c1 !! i ≠ Some (Some k) →
    opStep c1 (OPersist k b) = Some c2 → savedOf c2 i = savedOf c1 i.
Proof.
  intros Hok%(harness_inv (λ c, pers_ok c)) Hs; [|apply opStep_pers|apply empty_pers].
  pose proof (opStep_pers _ _ _ Hs Hok) as Hok'. simpl in Hs. case_bool_decide; [|done].
  destruct (start1_pers _ _ _ _ Hs) as (_ & _ & Hr & _ & Hsv). split_and!; [done..|].
  intros os c1 k b c2 Hrun Hne (p & Hk & (ps & Hp & [= <-])%obind_Some)%obind_Some.
  pose proof (orun_inv (λ c, pers_ok c) opStep_pers _ _ _ Hrun Hok') as Hok1.
  unfold savedOf. simpl. destruct (saved c1 !! i) as [[q|]|] eqn:Hq; simpl; [|done..].
  apply list_lookup_insert_ne. intros ->. apply Hne. by eapply (Harness.so_own _ _ _ _ Hok1).
Qed.

(** ** Applied commands *)

Record logs_ok (c : config) : Prop := {
  lg_agree : ∀ i j li lj x v w, logs c !! i = Some li → logs c !! j = Some lj →
    li !! x = Some v → lj !! x = Some w → v = w;
  lg_prefix : ∀ i li x, logs c !! i = Some li → is_Some (li !! x) → x > 1 → is_Some (li !! (x - 1));
  lg_max : ∀ i li x, logs c !! i = Some li → is_Some (li !! x) → x ≤ maxIndex c;
}.

Definition same_logs (c c' : config) : Prop :=
  logs c' = logs c ∧ maxIndex c' = maxIndex c ∧ errors c' = errors c.

Lemma saveNew_logs i ps c c' : saveNew i ps c = Some c' → same_logs c c'.
Proof. unfold saveNew. intros Hs. by go_inv. Qed.

Lemma crash1_logs i c c' : crash1 i c = Some c' → same_logs c c'.
Proof.
  unfold crash1, disconnect. intros Hs. go_inv.
  repeat case_match; simplify_eq;
    repeat match goal with H : saveNew _ _ _ = Some _ |- _ => apply saveNew_logs in H as (? & ? & ?) end;
    unfold same_logs; simpl in *; split_and!; congruence.
Qed.

Lemma start1_logs i names c c' : start1 i names c = Some c' → same_logs c c'.
Proof.
  unfold start1. intros Hs. go_inv.
  repeat match goal with
  | H : saveNew _ _ _ = Some _ |- _ => apply saveNew_logs in H as (? & ? & ?)
  | H : crash1 _ _ = Some _ |- _ => apply crash1_logs in H as (? & ? & ?) end.
  unfold same_logs. simpl in *. split_and!; congruence.
Qed.

(** Only the readers touch the logs. *)
Lemma opStep_same c o c' : opStep c o = Some c' → same_logs c c' ∨ ∃ i m, applier i m c = Some c'.
Proof.
  destruct o as [i|i|i|i names|b|k b|i m]; simpl; intros Hs.
  - left. unfold connect in Hs. by go_inv.
  - left. unfold disconnect in Hs. by go_inv.
  - left. by apply crash1_logs in Hs.
  - left. case_bool_decide; [|done]. by apply start1_logs in Hs.
  - left. by simplify_eq.
  - left. by go_inv.
  - right. eauto.
Qed.

Lemma conflictOf_None i idx v ls j lj w :
  conflictOf i idx v ls = None → ls !! j = Some lj → lj !! idx = Some w → w = v.
Proof.
  unfold conflictOf. intros Hc Hj Hw.
  assert (Hin : (j, lj) ∈ imap pair ls).
  { apply (list_elem_of_lookup_2 _ j). by rewrite list_lookup_imap, Hj. }
  revert Hc Hin. generalize (imap pair ls). intros ps.
  induction ps as [|[j' l'] ps IH] using rev_ind; [by intros _ ?%elem_of_nil|].
  rewrite foldl_app. simpl. rewrite elem_of_app, list_elem_of_singleton.
  destruct (decide (w = v)) as [|Hne]; [done|]. intros Hc [Hin|[= <- <-]].
  - destruct (l' !! idx) as [old|]; [case_decide|]; by auto.
  - rewrite Hw in Hc. by case_decide.
Qed.

(** A message that a reader accepts. *)
Lemma applier_accepts i m c c' :
  applier i m c = Some c' → errors c' = [] →
  errors c = [] ∧ (same_logs c c' ∨
  ∃ v li, logs c !! i = Some li ∧ logs c' = <[i := <[CommandIndex m := v]> li]> (logs c) ∧
    maxIndex c' = Z.max (CommandIndex m) (maxIndex c) ∧
    (CommandIndex m > 1 → is_Some (li !! (CommandIndex m - 1))) ∧
    ∀ j lj w, logs c !! j = Some lj → lj !! CommandIndex m = Some w → w = v).
Proof.
  unfold applier. destruct (CommandValid m); [|intros [= <-] He; split; [done|by left]].
  destruct (Command m) as [v|]; [|intros [= <-]; simpl; by intros [_ ?]%app_nil].
  intros (li & Hi & [= <-])%obind_Some. simpl. intros [He Herr]%app_nil. split; [done|]. right.
  exists v, li. split_and!; [done|done|destruct (decide (CommandIndex m > maxIndex c)); lia| |].
  - intros Hgt. destruct (decide (is_Some (li !! (CommandIndex m - 1)))) as [|Hno]; [done|].
    rewrite (bool_decide_true (_ > 1)), (bool_decide_false (is_Some _)) in Herr by done. done.
  - intros j lj w. apply (conflictOf_None i). by destruct (_ && _), (conflictOf _ _ _ _).
Qed.

Lemma accepted_logs i (m : ApplyMsg Z) c c' v li :
  logs c !! i = Some li → logs c' = <[i := <[CommandIndex m := v]> li]> (logs c) →
  maxIndex c' = Z.max (CommandIndex m) (maxIndex c) →
  (CommandIndex m > 1 → is_Some (li !! (CommandIndex m - 1))) →
  (∀ j lj w, logs c !! j = Some lj → lj !! CommandIndex m = Some w → w = v) →
  logs_ok c → logs_ok c'.
Proof.
  intros Hi E1 E2 Hord Hv [Ha Hp Hm]. set (x := CommandIndex m) in *.
  assert (Hnew : ∀ k lk y u, logs c' !! k = Some lk → lk !! y = Some u →
    (y = x ∧ u = v ∧ k = i) ∨ ∃ lk0, logs c !! k = Some lk0 ∧ lk0 !! y = Some u).
  { rewrite E1. intros k lk y u [(<- & <- & _)|[? ?]]%list_lookup_insert_Some Hy; [|eauto].
    apply lookup_insert_Some in Hy as [[<- <-]|[? ?]]; eauto. }
  split; [| |rewrite E2].
  - intros a b la lb y w1 w2 H1 H2 H3 H4.
    destruct (Hnew _ _ _ _ H1 H3) as [(-> & -> & _)|(la0 & A1 & A2)];
    destruct (Hnew _ _ _ _ H2 H4) as [(E & -> & _)|(lb0 & B1 & B2)]; subst; eauto using eq_sym.
  - rewrite E1. intros k lk y Hk [u Hu] Hy.
    apply list_lookup_insert_Some in Hk as [(<- & <- & _)|[? ?]]; [|by eapply Hp].
    rewrite lookup_insert_is_Some. apply lookup_insert_Some in Hu as [[<- _]|[? ?]].
    + right. split; [lia|auto].
    + destruct (decide (x = y - 1)); [by left|right]. split; [done|]. eapply Hp; eauto.
  - intros k lk y Hk [u Hu]. destruct (Hnew _ _ _ _ Hk Hu) as [(-> & _)|(lk0 & K1 & K2)]; [lia|].
    assert (y ≤ maxIndex c) by (eapply Hm; eauto). lia.
Qed.

(** Without errors the logs agree, and a step only adds to them. *)
Lemma opStep_logs c o c' :
  opStep c o = Some c' → (errors c = [] → logs_ok c) → errors c' = [] →
  errors c = [] ∧ logs_ok c' ∧ Forall2 (⊆) (logs c) (logs c').
Proof.
  intros [(E1 & E2 & E3)|(i & m & Hs)]%opStep_same Hok He.
  - rewrite E3 in He. split; [done|]. specialize (Hok He). destruct Hok as [Ha Hp Hm].
    split; [split; rewrite ?E1, ?E2; done|]. rewrite E1. by apply Forall2_refl, _.
  - destruct (applier_accepts _ _ _ _ Hs He) as [He0 [(E1 & E2 & E3)|(v & li & Hi & E1 & E2 & Hord & Hv)]];
      (split; [done|]); specialize (Hok He0).
    + destruct Hok as [Ha Hp Hm]. split; [split; rewrite ?E1, ?E2; done|]. rewrite E1.
      by apply Forall2_refl, _.
    + split; [by eapply accepted_logs|]. rewrite E1.
      apply Forall2_set_r with li; [by apply Forall2_refl, _|done|]. apply map_subseteq_spec. intros x w Hw.
      destruct (decide (x = CommandIndex m)) as [->|Hne]; [|by rewrite lookup_insert_ne].
      rewrite lookup_insert_eq. by rewrite (Hv i li w Hi Hw).
Qed.

Lemma empty_logs n u : logs_ok (emptyConfig n u).
Proof.
  assert (Hno : ∀ i (li : gmap Z Z) x, replicate n ∅ !! i = Some li → li !! x = None).
  { intros i li x [-> _]%lookup_replicate_1. apply lookup_empty. }
  split; simpl; intros *.
  - intros H1%(Hno _ _ x). congruence.
  - intros H1%(Hno _ _ x) []. congruence.
  - intros H1%(Hno _ _ x) []. congruence.
Qed.

(** The servers whose log has [index]. *)
Definition appliedBy (ls : list (gmap Z Z)) (index : Z) : Z :=
  zlen (filter (λ l, is_Some (l !! index)) ls).

Lemma nCommittedLoop_spec ls index count cmd v :
  (∀ l w, l ∈ ls → l !! index = Some w → w = v) → 0 ≤ count → (count > 0 → cmd = v) →
  ∃ cmd', nCommittedLoop ls index count cmd = Some (count + appliedBy ls index, cmd') ∧
    (count + appliedBy ls index > 0 → cmd' = v).
Proof.
  revert count cmd. induction ls as [|l ls IH]; intros count cmd Hall Hc Hcmd.
  { exists cmd. unfold appliedBy, zlen. simpl. rewrite Z.add_0_r. auto. }
  assert (Hall' : ∀ l w, l ∈ ls → l !! index = Some w → w = v).
  { intros l' w ?. apply Hall. by apply elem_of_cons; right. }
  unfold appliedBy. cbn [nCommittedLoop]. rewrite filter_cons.
  destruct (l !! index) as [w|] eqn:Hl.
  - assert (w = v) as -> by (eapply Hall; [by apply elem_of_cons; left|done]).
    rewrite decide_True by eauto. unfold zlen. cbn [length].
    assert (bool_decide (count > 0) && negb (bool_decide (cmd = v)) = false) as ->.
    { apply andb_false_iff. destruct (decide (count > 0)).
      - right. rewrite bool_decide_true; [done|auto].
      - left. by apply bool_decide_false. }
    destruct (IH (count + 1) v Hall') as (cmd' & -> & Hc'); [lia|done|]. exists cmd'.
    unfold appliedBy, zlen in *. split; [f_equal; f_equal; lia|]. intros. apply Hc'. lia.
  - rewrite decide_False by (intros []; done). destruct (IH count cmd Hall' Hc Hcmd) as (cmd' & -> & Hc').
    by exists cmd'.
Qed.

Lemma nCommittedLoop_inv ls index count cmd nd cmd' :
  nCommittedLoop ls index count cmd = Some (nd, cmd') → 0 ≤ count →
  nd = count + appliedBy ls index ∧ (count > 0 → cmd' = cmd) ∧
  ∀ l v, l ∈ ls → l !! index = Some v → v = cmd'.
Proof.
  revert count cmd. induction ls as [|l ls IH]; intros count cmd; cbn [nCommittedLoop].
  { intros [= <- <-] _. unfold appliedBy. simpl. split_and!; [by rewrite Z.add_0_r|done|by intros ?? ?%elem_of_nil]. }
  unfold appliedBy in *. rewrite filter_cons. destruct (l !! index) as [w|] eqn:Hl; intros Hn Hc.
  - destruct (_ && _) eqn:Hb; [done|]. destruct (IH _ _ Hn) as (-> & Hw & Hall); [lia|]. specialize (Hw ltac:(lia)).
    subst w. rewrite decide_True by eauto. unfold zlen. simpl. split_and!; [lia| |].
    + intros Hpos. rewrite bool_decide_true in Hb by done. simpl in Hb.
      by apply negb_false_iff, bool_decide_eq_true in Hb.
    + intros l' v [->|Hin]%elem_of_cons Hv; [congruence|by eapply Hall].
  - destruct (IH _ _ Hn Hc) as (-> & Hw & Hall). rewrite decide_False by (intros [? ?]; congruence).
    split_and!; [done|done|]. intros l' v [->|Hin]%elem_of_cons Hv; [congruence|by eapply Hall].
Qed.

(** [c'] comes after [c]; [cs] are configurations at successive moments from [c] to [c']. *)
Definition later (c c' : config) : Prop := ∃ os, orun c os = Some c'.

Fixpoint moments (c : config) (cs : list config) (c' : config) : Prop :=
  match cs with
  | [] => later c c'
  | c1 :: cs => later c c1 ∧ moments c1 cs c'
  end.

#[export] Instance later_preorder : PreOrder later.
Proof.
  split; [by exists []|]. intros c1 c2 c3 [os H1] [os' H2]. exists (os ++ os'). by rewrite orun_app, H1.
Qed.

Lemma moments_later c cs c' : moments c cs c' → later c c'.
Proof. revert c. induction cs as [|c1 cs IH]; intros c; [done|]. intros [? ?%IH]. by etrans. Qed.

Lemma harness_later n u c c' : harness n u c → later c c' → harness n u c'.
Proof.
  intros (names & c0 & os & Hn & H0 & Hr) [os' Hr']. exists names, c0, (os ++ os'). split_and!; [done..|].
  by rewrite orun_app, Hr.
Qed.

Lemma harness_logs n u c : harness n u c → (errors c = [] → logs_ok c) ∧ length (logs c) = n.
Proof.
  intros (os & Hrun)%harness_run. split.
  - refine (orun_inv (λ c, errors c = [] → logs_ok c) _ os _ _ Hrun (λ _, empty_logs n u)).
    intros c1 o c2 Hs Hok He. by apply (opStep_logs _ _ _ Hs Hok He).
  - assert (Hlen : length (logs (emptyConfig n u)) = n) by (simpl; by rewrite length_replicate).
    refine (orun_inv (λ c, length (logs c) = n) _ os _ _ Hrun Hlen). intros c1 o c2 Hs.
    apply opStep_same in Hs as [(-> & _)|(i & m & Hs)]; [done|].
    unfold applier in Hs. repeat case_match; go_inv; simpl; by rewrite ?length_insert.
Qed.

Lemma later_logs n u c c' :
  harness n u c → later c c' → errors c' = [] → errors c = [] ∧ Forall2 (⊆) (logs c) (logs c').
Proof.
  intros Hh [os Hrun]. revert c' Hrun. induction os as [|o os IH] using rev_ind; intros c' Hrun He.
  - injection Hrun as <-. split; [done|]. by apply Forall2_refl, _.
  - rewrite orun_app in Hrun. apply obind_Some in Hrun as (c1 & H1 & (c2 & H2 & [= ->])%obind_Some).
    destruct (harness_logs n u c1) as [Hok _]; [by eapply harness_later; [|exists os]|].
    destruct (opStep_logs _ _ _ H2 Hok He) as (He1 & _ & Hsub). destruct (IH c1 H1 He1) as [? Hsub'].
    split; [done|]. by etrans.
Qed.

(** What is read lies between the logs before and after. *)
Lemma moments_logs n u c cs c' :
  harness n u c → moments c cs c' → length cs = n → errors c' = [] →
  Forall2 (⊆) (logs c) (seen cs) ∧ Forall2 (⊆) (seen cs) (logs c').
Proof.
  intros Hh Hm Hlen He. destruct (harness_logs n u c Hh) as [_ Hl].
  assert (Hh' : harness n u c') by (eapply harness_later, moments_later; done).
  destruct (harness_logs n u c' Hh') as [_ Hl'].
  assert (Hone : ∀ i ci, cs !! i = Some ci → later c ci ∧ later ci c').
  { clear -Hm. revert c Hm. induction cs as [|c1 cs IH]; intros c; [by intros _ i ci ?|].
    intros [H1 Hm] [|i] ci Hi; simplify_eq/=; [split; [done|by eapply moments_later]|].
    destruct (IH c1 Hm i ci Hi). split; [by etrans|done]. }
  assert (Hsub : ∀ i ci, cs !! i = Some ci → Forall2 (⊆) (logs c) (logs ci) ∧ Forall2 (⊆) (logs ci) (logs c')).
  { intros i ci [H1 H2]%Hone. assert (harness n u ci) as Hi by exact (harness_later _ _ _ _ Hh H1).
    destruct (later_logs _ _ _ _ Hi H2 He) as [Hei ?]. split; [|done]. by apply (later_logs _ _ _ _ Hh H1). }
  split; apply Forall2_same_length_lookup; unfold seen; (split; [rewrite length_imap; lia|]); intros i l1 l2 H1 H2;
    rewrite list_lookup_imap in *; destruct (cs !! i) as [ci|] eqn:Hi; simplify_eq/=;
    destruct (Hsub i ci Hi) as [Ha Hb].
  - destruct (Forall2_lookup_l _ _ _ _ _ Ha H1) as (li & -> & ?). done.
  - destruct (Forall2_lookup_r _ _ _ _ _ Hb H2) as (li & -> & ?). done.
Qed.

Lemma appliedBy_mono (ls ls' : list (gmap Z Z)) index :
  Forall2 (⊆) ls ls' → appliedBy ls index ≤ appliedBy ls' index.
Proof.
  unfold appliedBy, zlen. induction 1 as [|l l' ls ls' Hsub _ IH]; [done|]. rewrite !filter_cons.
  destruct (decide (is_Some (l !! index))) as [[v Hv]|]; [|case_decide; simpl; lia].
  rewrite decide_True by (eexists; by eapply lookup_weaken). simpl. lia.
Qed.

(** The result of [nCommitted] while there are no errors. *)
Lemma reads_committed n u c0 cs c index :
  harness n u c0 → moments c0 cs c → length cs = n → errors c = [] →
  ∃ count cmd, nCommitted cs index = Some (count, cmd) ∧
    appliedBy (logs c0) index ≤ count ≤ appliedBy (logs c) index ∧
    (count > 0 → ∀ i li v, logs c !! i = Some li → li !! index = Some v → v = cmd).
Proof.
  intros Hh Hm Hlen He. destruct (moments_logs _ _ _ _ _ Hh Hm Hlen He) as [Hlo Hhi].
  destruct (harness_logs n u c) as [Hok _]; [by eapply harness_later, moments_later|].
  specialize (Hok He).
  set (v := match filter (λ l, is_Some (l !! index)) (logs c) with l :: _ => default 0 (l !! index) | [] => 0 end).
  assert (Hv : ∀ i li w, logs c !! i = Some li → li !! index = Some w → w = v).
  { intros i li w Hi Hw. assert (Hin : li ∈ filter (λ l, is_Some (l !! index)) (logs c)).
    { apply list_elem_of_filter. split; [eauto|by eapply list_elem_of_lookup_2]. }
    subst v. destruct (filter _ (logs c)) as [|l0 ls] eqn:Hf; [by apply elem_of_nil in Hin|].
    assert (l0 ∈ filter (λ l, is_Some (l !! index)) (logs c)) as [[w0 H0] (j & Hj)%list_elem_of_lookup_1]%list_elem_of_filter
      by (rewrite Hf; by left).
    rewrite H0. exact (lg_agree c Hok i j li l0 index w w0 Hi Hj Hw H0). }
  destruct (nCommittedLoop_spec (seen cs) index 0 (-1) v) as (cmd & Hn & Hcmd); [|lia..|].
  { intros l w (i & Hi)%list_elem_of_lookup_1 Hw. destruct (Forall2_lookup_l _ _ _ _ _ Hhi Hi) as (li & Hli & Hsub).
    eapply Hv; [exact Hli|]. by eapply lookup_weaken. }
  exists (appliedBy (seen cs) index), cmd. split_and!; [done|by apply appliedBy_mono..|].
  intros Hpos i li w Hi Hw. rewrite Hcmd by lia. by eapply Hv.
Qed.

Lemma committed_logs n u c0 cs c index nd cmd :
  harness n u c0 → moments c0 cs c → length cs = n → errors c = [] → nCommitted cs index = Some (nd, cmd) →
  nd ≤ appliedBy (logs c) index ∧
  (nd > 0 → ∀ i li v, logs c !! i = Some li → li !! index = Some v → v = cmd).
Proof.
  intros Hh Hm Hlen He Hn. destruct (reads_committed n u c0 cs c index Hh Hm Hlen He) as (? & ? & Hn' & ? & ?).
  simplify_eq. split; [lia|done].
Qed.

(** C24: As long as no reader of an apply channel has found an error, all
    servers agree on the command at every index and have applied every index before it. So
    a call of [nCommitted] that ends before any reader found one does not fail, although it reads the
    logs of the servers one after the other while commands are applied: it counts no fewer servers than had
    applied the index when it began and no more than had when it ended, and the
    command it returns, if it counts any, is the one that each server has there. *)
Theorem committed_agree n u c0 cs c index :
  harness n u c0 → moments c0 cs c → length cs = n → errors c = [] →
  (∀ i li, logs c !! i = Some li → is_Some (li !! index) → index > 1 → is_Some (li !! (index - 1))) ∧
  ∃ count cmd, nCommitted cs index = Some (count, cmd) ∧
    appliedBy (logs c0) index ≤ count ≤ appliedBy (logs c) index ∧
    (count > 0 → ∀ i li v, logs c !! i = Some li → li !! index = Some v → v = cmd).
Proof.
  intros Hh Hm Hlen He. split; [|by eapply reads_committed].
  destruct (harness_logs n u c) as [Hok _]; [by eapply harness_later, moments_later|].
  intros. by eapply (lg_prefix c (Hok He)).
Qed.

(** ** The leader check *)

(** Server [i] claims to lead term [t] in the sample. *)
Definition claims (sm : sample) (i : nat) (t : Z) : Prop := sm !! i = Some (Some (t, true)).

Definition claimants (ps : list (nat * option (Z * bool))) (t : Z) : list nat :=
  (filter (λ p, p.2 = Some (t, true)) ps).*1.

Lemma leadersOf_lookup sm t :
  leadersOf sm !! t =
    match claimants (imap pair sm) t with [] => None | l => Some l end.
Proof.
  unfold leadersOf. generalize (imap pair sm). intros ps. clear sm.
  induction ps as [|[i st] ps IH] using rev_ind; [done|].
  rewrite foldl_app. cbn [foldl]. set (m := foldl _ _ ps) in *. unfold claimants in *.
  rewrite filter_app, fmap_app, filter_cons, filter_nil. cbn [snd].
  destruct (decide (st = Some (t, true))) as [->|Hne].
  - rewrite lookup_insert_eq, IH. cbn [fmap list_fmap]. by destruct ((filter _ ps).*1).
  - rewrite fmap_nil, app_nil_r, <-IH. destruct st as [[t' []]|]; [|done..].
    rewrite lookup_insert_ne; [done|]. congruence.
Qed.

Lemma elem_of_claimants sm i t : i ∈ claimants (imap pair sm) t ↔ claims sm i t.
Proof.
  unfold claimants, claims. rewrite list_elem_of_fmap. split.
  - intros ([j st] & -> & [Hst (k & Hk)%list_elem_of_lookup_1]%list_elem_of_filter). simpl in *.
    rewrite list_lookup_imap in Hk. destruct (sm !! k) eqn:Hs; simplify_eq/=. done.
  - intros Hi. exists (i, Some (t, true)). split; [done|]. apply list_elem_of_filter. split; [done|].
    apply (list_elem_of_lookup_2 _ i). rewrite list_lookup_imap, Hi. done.
Qed.

Lemma NoDup_claimants sm t : NoDup (claimants (imap pair sm) t).
Proof.
  unfold claimants. eapply (NoDup_sub _ (imap pair sm).*1).
  - apply fmap_submseteq, sublist_submseteq, sublist_filter.
  - apply NoDup_alt. intros i j x. rewrite !list_lookup_fmap, !list_lookup_imap.
    destruct (sm !! i), (sm !! j); naive_solver.
Qed.

(** Two servers claim to lead one term. *)
Definition rivals (sm : sample) : Prop := ∃ i j t, i ≠ j ∧ claims sm i t ∧ claims sm j t.

Lemma checkOnce_fatal sm :
  existsb (λ '(_, l), bool_decide (1 < length (l : list nat))%nat) (map_to_list (leadersOf sm)) = true ↔
  rivals sm.
Proof.
  rewrite existsb_exists. split.
  - intros ([t l] & Hin%list_elem_of_In%elem_of_map_to_list & Hlen%bool_decide_eq_true).
    rewrite leadersOf_lookup in Hin. pose proof (NoDup_claimants sm t) as Hnd.
    pose proof (λ i, proj1 (elem_of_claimants sm i t)) as Hcl.
    destruct (claimants (imap pair sm) t) as [|i [|j l']]; simplify_eq/=; [lia|].
    exists i, j, t. apply NoDup_cons in Hnd as [Hnd _]. split_and!; [set_solver|apply Hcl; set_solver..].
  - intros (i & j & t & Hne & Hi%elem_of_claimants & Hj%elem_of_claimants).
    exists (t, claimants (imap pair sm) t).
    split.
    + apply list_elem_of_In, elem_of_map_to_list. rewrite leadersOf_lookup.
      destruct (claimants (imap pair sm) t); [by apply elem_of_nil in Hi|done].
    + apply bool_decide_eq_true. destruct (claimants (imap pair sm) t) as [|a [|b l]]; [set_solver| |simpl; lia].
      apply list_elem_of_singleton in Hi, Hj. congruence.
Qed.

Lemma foldr_last (l : list (Z * list nat)) t ls :
  (t, ls) ∈ l → (∀ t' l', (t', l') ∈ l → 0 ≤ t') →
  ∃ ls', (foldr (λ '(term, _) acc, if decide (term > acc) then term else acc) (-1) l, ls') ∈ l ∧
    ∀ t' l', (t', l') ∈ l → t' ≤ foldr (λ '(term, _) acc, if decide (term > acc) then term else acc) (-1) l.
Proof.
  intros Hin Hpos. set (g := foldr _ (-1)).
  assert (Hall : ∀ l, (∀ t' l', (t', l') ∈ l → t' ≤ g l) ∧ (g l = -1 ∨ ∃ ls', (g l, ls') ∈ l)).
  { clear. induction l as [|[t0 l0] l [IH1 IH2]].
    - split; [by intros ? ? ?%elem_of_nil|by left].
    - change (g ((t0, l0) :: l)) with (if decide (t0 > g l) then t0 else g l). split.
      + intros t' l' [[= -> ->]|Hin]%elem_of_cons; [case_decide; lia|].
        apply IH1 in Hin. case_decide; lia.
      + case_decide; [right; exists l0; by apply elem_of_cons; left|].
        destruct IH2 as [?|[ls' ?]]; [by left|right]. exists ls'. by apply elem_of_cons; right. }
  destruct (Hall l) as [Hmax [Hm|[ls' Hls]]]; [|eauto].
  specialize (Hmax _ _ Hin). specialize (Hpos _ _ Hin). lia.
Qed.

(** One turn of checkOneLeader stops the test exactly when two connected servers
    claim to lead the same term; otherwise it returns a leader of the
    highest term that has one, and goes on to the next turn when nobody leads. *)
Theorem check_one_leader_exact sm :
  (∀ i t b, sm !! i = Some (Some (t, b)) → 0 ≤ t) →
  (checkOnce sm = None ↔ rivals sm) ∧
  (checkOnce sm = Some None ↔ ∀ i t, ¬ claims sm i t) ∧
  (∀ i, checkOnce sm = Some (Some i) →
     ∃ t, claims sm i t ∧ ∀ j t', claims sm j t' → t' ≤ t).
Proof.
  intros Hpos. unfold checkOnce.
  pose proof (checkOnce_fatal sm) as Hf. destruct (existsb _ _) eqn:Hex.
  { split_and!; [naive_solver| |done]. split; [done|]. intros Hno.
    destruct (proj1 Hf eq_refl) as (i & j & t & _ & Hi & _). by destruct (Hno i t). }
  assert (Hnr : ¬ rivals sm) by (rewrite <-Hf; done).
  assert (Hcl : ∀ i t, claims sm i t → ∃ l, leadersOf sm !! t = Some l).
  { intros i t Hi%elem_of_claimants. rewrite leadersOf_lookup.
    destruct (claimants _ t); [by apply elem_of_nil in Hi|eauto]. }
  case_bool_decide as Hemp.
  { split_and!; [naive_solver| |done]. split; [|done]. intros _ i t (l & Hl)%Hcl.
    by rewrite Hemp, lookup_empty in Hl. }
  assert (∃ t l, leadersOf sm !! t = Some l) as (t0 & l0 & H0).
  { apply map_choose in Hemp as (t & l & ?). eauto. }
  destruct (foldr_last (map_to_list (leadersOf sm)) t0 l0) as (ls & Hin & Hmax).
  { by apply elem_of_map_to_list. }
  { intros t' l' Hl%elem_of_map_to_list. rewrite leadersOf_lookup in Hl.
    destruct (claimants _ t') as [|i ?] eqn:Hc; [done|].
    apply (Hpos i t' true), elem_of_claimants. rewrite Hc. set_solver. }
  set (last := foldr _ _ _) in *. apply elem_of_map_to_list in Hin. rewrite Hin. cbn [obind].
  rewrite leadersOf_lookup in Hin. destruct (claimants (imap pair sm) last) as [|i l] eqn:Hc; [done|].
  simplify_eq. cbn [obind lookup list_lookup].
  assert (Hi : claims sm i last) by (apply elem_of_claimants; rewrite Hc; set_solver).
  split_and!; [naive_solver|naive_solver|].
  intros i' [= <-]. exists last. split; [done|]. intros j t' (l' & Hl')%Hcl.
  eapply Hmax. by apply elem_of_map_to_list.
Qed.

(** ** Witnesses: two servers, one of which crashes and restarts *)

Definition names2 (i : nat) : list string := if decide (i = O) then ["a"; "b"] else ["c"; "d"].

Definition ops2 : list Op :=
  [OPersist 0 [x01; x02]; OApply 0 (mkApplyMsg true (Some 7) 1); OApply 1 (mkApplyMsg true (Some 7) 1);
   OApply 0 (mkApplyMsg true (Some 8) 2); OCrash 0; OPersist 0 [x03]].

Definition config2 (os : list Op) : config :=
  default (emptyConfig 2 false) (let* c := make_config 2 false names2 in orun c os).

Lemma harness2 os : is_Some (let* c := make_config 2 false names2 in orun c os) → harness 2 false (config2 os).
Proof.
  intros [c Hc]. unfold config2. rewrite Hc. apply obind_Some in Hc as (c0 & H0 & Hr).
  exists names2, c0, os. split_and!; [|done..]. intros i. unfold names2. by case_decide.
Qed.

Lemma harness_links_witness :
  routable (cnet (config2 [])) (inl "b") ∧ ¬ routable (cnet (config2 ops2)) (inl "c").
Proof.
  split.
  - refine (proj2 (proj1 (harness_links 2 false (config2 []) _) 0%nat 1%nat "b" _) _).
    + apply harness2. vm_compute. eauto.
    + vm_compute. reflexivity.
    + split; [vm_compute; reflexivity|]. split; [vm_compute; reflexivity|]. vm_compute. eauto.
  - refine (λ Hr, _ (proj1 (proj1 (harness_links 2 false (config2 ops2) _) 1%nat 0%nat "c" _) Hr)).
    + intros (_ & H0 & _). vm_compute in H0. discriminate.
    + apply harness2. vm_compute. eauto.
    + vm_compute. reflexivity.
Defined.

Lemma restart_isolated_witness :
  savedOf (config2 (ops2 ++ [OStart 0 ["e"; "f"]])) 0 = Some (mkPersister [x01; x02] []).
Proof.
  refine (proj1 (proj2 (restart_isolated 2 false (config2 ops2) 0 ["e"; "f"] _ _ _))).
  - apply harness2. vm_compute. eauto.
  - vm_compute. reflexivity.
Defined.

(** Server 0 is read before, server 1 after the message for server 1 has arrived. *)
Lemma config2_later os os' :
  is_Some (let* c := make_config 2 false names2 in orun c (os ++ os')) → later (config2 os) (config2 (os ++ os')).
Proof.
  intros [c Hc]. exists os'. unfold config2. rewrite Hc. apply obind_Some in Hc as (c0 & H0 & Hr).
  rewrite H0. cbn [obind]. rewrite orun_app in Hr. apply obind_Some in Hr as (c1 & -> & Hr). exact Hr.
Qed.

Lemma committed_agree_witness :
  ∃ count cmd, nCommitted [config2 (take 2 ops2); config2 (take 3 ops2)] 1 = Some (count, cmd) ∧ 1 ≤ count ≤ 2.
Proof.
  destruct (committed_agree 2 false (config2 (take 2 ops2)) [config2 (take 2 ops2); config2 (take 3 ops2)]
    (config2 ops2) 1) as (_ & count & cmd & Hn & Hle & _).
  - apply harness2. vm_compute. eauto.
  - split; [reflexivity|]. split.
    + apply (config2_later (take 2 ops2) (drop 2 (take 3 ops2))). vm_compute. eauto.
    + apply (config2_later (take 3 ops2) (drop 3 ops2)). vm_compute. eauto.
  - reflexivity.
  - vm_compute. reflexivity.
  - exists count, cmd. split; [exact Hn|]. vm_compute in Hle. vm_compute. exact Hle.
Defined.

(** The process outlives the message that two servers disagree on: until log.Fatalf is reached, nCommitted
    finds the conflict and fails. *)
Lemma conflict_seen :
  let c := config2 (take 2 ops2 ++ [OApply 1 (mkApplyMsg true (Some 9) 1)]) in
  errors c = [EConflict 1 1 9 0 7] ∧ nCommitted [c; c] 1 = None.
Proof. vm_compute. done. Qed.

Lemma check_one_leader_exact_witness :
  checkOnce [Some (3, true); None; Some (4, true); Some (4, false)] ≠ None.
Proof.
  intros Hn.
  refine (_ (proj1 (proj1 (check_one_leader_exact
    [Some (3, true); None; Some (4, true); Some (4, false)] _)) Hn)).
  - intros (i & j & t & Hne & Hi & Hj). unfold claims in *.
    destruct i as [|[|[|[|i]]]], j as [|[|[|[|j]]]]; simplify_eq/=; done.
  - intros i t b Hi. destruct i as [|[|[|[|i]]]]; simplify_eq/=; lia.
Defined.
