(* ===== verification/RaftNet.v ===== *)
(** * Raft peers on the simulated network, driven by their test harness

    The composition of raft/raft.go, labrpc/labrpc.go and raft/config.go. A
    [*Raft] is its index in [insts]: every [Make] adds an instance, and the
    instances a crash leaves behind keep running. The goroutine that a routine
    starts per peer ([rf.sendRequestVote], [rf.sendAppendEntries]) is a
    [Caller]: it hands its request to the network's goroutine, waits for
    what [ProcessReq] sends back and, if the call succeeded, offers the reply
    on the channel of its round. The handlers are methods of the service that
    [MakeService] finds on the instance.

    The test goroutine runs one harness operation at a time, as a list of
    actions ([script]), between which everything else may happen: every [Enable]
    and every change of the saved persister is an action of its own.
    A server is connected only while it runs. [cfg.saved[i]] is either the persister that an instance was made with ([SOwn])
    or one that no instance has ([SHeld]).

    The rounds of a new instance are numbered on from those of the last one,
    since a number stands for the identity of a channel; [SHeld] carries it. *)

From S2P Require Import Prelude Persister Raft RaftCluster Labrpc Harness RaftConfig.

(** ** What travels *)

Section Wire.
Context {Cmd : Type}.

Inductive Val :=
  | VVoteArgs (args : RequestVoteArgs)
  | VVoteReply (reply : RequestVoteReply)
  | VAppendArgs (args : AppendEntriesArgs Cmd)
  | VAppendReply (reply : AppendEntriesReply).

Inductive Ty := TVoteArgs | TVoteReply | TAppendArgs | TAppendReply.

Definition valTy (v : Val) : Ty :=
  match v with
  | VVoteArgs _ => TVoteArgs | VVoteReply _ => TVoteReply
  | VAppendArgs _ => TAppendArgs | VAppendReply _ => TAppendReply
  end.

Definition zeroVal (t : Ty) : Val :=
  match t with
  | TVoteArgs => VVoteArgs (mkRVArgs 0 0 0 0)
  | TVoteReply => VVoteReply (mkRVReply 0 false)
  | TAppendArgs => VAppendArgs (mkAEArgs 0 0 0 0 [] 0)
  | TAppendReply => VAppendReply (mkAEReply 0 false 0)
  end.

(** labgob on these four types. *)
Class RaftWire := {
  rw_gob :: LabGob Val Ty;
  rw_typeOf : ∀ v, typeOf v = valTy v;
  rw_zero : ∀ t, zero t = zeroVal t;
}.
End Wire.

Arguments Val : clear implicits.
Arguments RaftWire : clear implicits.

Section RaftNet.
Context {Cmd : Type} `{!Gob (Z * Z * list (LogEntry Cmd))} `{!RaftWire Cmd}.
Implicit Types (nd : Node Cmd) (p : Packet Cmd).

(** ** Instances and their service *)

(** [died]: a goroutine panicked, which ends the whole process. *)
Record World := mkWorld { insts : list (Node Cmd); died : bool }.

Definition die (w : World) : World := mkWorld (insts w) true.

Definition setInst (k : nat) nd (w : World) : World := mkWorld (<[k := nd]> (insts w)) (died w).

Definition withRaft nd (rf' : Raft Cmd) : Node Cmd := mkNode rf' (rt nd) (rounds nd) (delivered nd).

(** The two handlers as reflect calls them, on the receiver [k]. *)
Definition callRequestVote (k : nat) (a r0 : Val Cmd) (w : World) : World * Val Cmd :=
  match insts w !! k, a with
  | Some nd, VVoteArgs args =>
      match RequestVote (rf nd) args with
      | Some (rf', reply) => (setInst k (withRaft nd rf') w, VVoteReply reply)
      | None => (die w, r0)
      end
  | _, _ => (die w, r0)
  end.

Definition callAppendEntries (k : nat) (a r0 : Val Cmd) (w : World) : World * Val Cmd :=
  match insts w !! k, a with
  | Some nd, VAppendArgs args =>
      match AppendEntries (rf nd) args with
      | Some (rf', reply) => (setInst k (withRaft nd rf') w, VAppendReply reply)
      | None => (die w, r0)
      end
  | _, _ => (die w, r0)
  end.

(** The exported methods of [*Raft] with their numbers of arguments (the receiver counts) and
    results: only the two RPCs are suitable as handlers. *)
Definition raftMethods : list (@Method (Val Cmd) Ty World) :=
  [ mkMethod "AppendEntries" "" 3 true TAppendReply 0 callAppendEntries;
    mkMethod "GetState" "" 1 false TVoteReply 2 (λ _ _ r w, (w, r));
    mkMethod "Kill" "" 1 false TVoteReply 0 (λ _ _ r w, (w, r));
    mkMethod "RequestVote" "" 3 true TVoteReply 0 callRequestVote;
    mkMethod "Start" "" 2 false TVoteReply 3 (λ _ _ r w, (w, r)) ].

Definition raftService (k : nat) : @Service (Val Cmd) Ty World := MakeService k "Raft" raftMethods.

Notation Sys := (@System EndName (Val Cmd) Ty World _ _).
Notation NEv := (@NEvent EndName (Val Cmd) Ty World).
Notation Thr := (@Thread EndName Ty).

(** ** The goroutines that call *)

(** [CReady]: before [Call]; [CCalling k]: waiting for request [k]; [COffers k v]: the call
    succeeded and [v] is being sent on the channel; [CGone]: the goroutine has ended. *)
Inductive CState := CReady | CCalling (k : nat) | COffers (k : nat) (v : Val Cmd) | CGone (k : option nat).

Record Caller := mkCaller { cInst : nat; cReq : Packet Cmd; cState : CState }.

Definition setState (st : CState) (cl : Caller) : Caller := mkCaller (cInst cl) (cReq cl) st.

(** What the two methods pass to [Call] of the peer's end: the method, the arguments and the
    type of the reply variable. *)
Definition sendRequestVote (server : nat) (args : RequestVoteArgs) : nat * string * Val Cmd * Ty :=
  (server, "Raft.RequestVote", VVoteArgs args, TVoteReply).

Definition sendAppendEntries (server : nat) (args : AppendEntriesArgs Cmd) : nat * string * Val Cmd * Ty :=
  (server, "Raft.AppendEntries", VAppendArgs args, TAppendReply).

#[global] Arguments sendRequestVote /.
#[global] Arguments sendAppendEntries /.

Definition callOf p : option (nat * string * Val Cmd * Ty) :=
  match p with
  | VoteReq _ dst _ args => Some (sendRequestVote dst args)
  | AppReq _ dst _ args => Some (sendAppendEntries dst args)
  | _ => None
  end.

(** What the goroutine sends on the channel of its round. *)
Definition replyOf p (v : Val Cmd) : option (Packet Cmd) :=
  match p, v with
  | VoteReq src dst r _, VVoteReply reply => Some (VoteRep src dst r reply)
  | AppReq src dst r _, VAppendReply reply => Some (AppRep src dst r reply)
  | _, _ => None
  end.

(** ** The harness *)

Inductive SavedP := SOwn (k : nat) | SHeld (ps : Persister) (r : nat).

Inductive HAct :=
  | HEnable (nm : string) (b : bool)
  | HDelete (i : nat)
  | HCopy (i : nat)
  | HKill (i : nat)
  | HClean (i : nat)
  | HMakeEnds (i : nat) (names : list string)
  | HFresh (i : nat)
  | HMake (i : nat)
  | HServe (i : nat).

Record HState := mkHState {
  hrafts : list (option nat);
  hconnected : list bool;
  hsaved : list (option SavedP);
  hendnames : list (option (list string));
}.

Definition set_hrafts x (h : HState) := mkHState x (hconnected h) (hsaved h) (hendnames h).
Definition set_hconnected x (h : HState) := mkHState (hrafts h) x (hsaved h) (hendnames h).
Definition set_hsaved x (h : HState) := mkHState (hrafts h) (hconnected h) x (hendnames h).
Definition set_hendnames x (h : HState) := mkHState (hrafts h) (hconnected h) (hsaved h) x.

(** [iends]: the server each instance was made for and the names of the
    client ends it was made with. *)
Record RSys := mkRSys {
  rn : nat;
  sys : Sys;
  iends : list (nat * list string);
  callers : list Caller;
  hst : HState;
  script : list HAct;
}.

Definition set_sys x (s : RSys) := mkRSys (rn s) x (iends s) (callers s) (hst s) (script s).
Definition set_callers x (s : RSys) := mkRSys (rn s) (sys s) (iends s) x (hst s) (script s).
Definition set_hst x (s : RSys) := mkRSys (rn s) (sys s) (iends s) (callers s) x (script s).
Definition set_script x (s : RSys) := mkRSys (rn s) (sys s) (iends s) (callers s) (hst s) x.

Definition sys_net (rn' : Net) (y : Sys) : Sys :=
  mkSystem rn' (heap y) (world y) (threads y) (executed y) (serving y).
Definition sys_world (w : World) (y : Sys) : Sys :=
  mkSystem (Labrpc.net y) (heap y) w (threads y) (executed y) (serving y).

Definition snet (s : RSys) : Net := Labrpc.net (sys s).
Definition swld (s : RSys) : World := world (sys s).
Definition sinsts (s : RSys) : list (Node Cmd) := insts (swld s).

Definition set_net (rn' : Net) (s : RSys) : RSys := set_sys (sys_net rn' (sys s)) s.
Definition set_world (w : World) (s : RSys) : RSys := set_sys (sys_world w (sys s)) s.

(** What a saved persister holds, and the number of rounds of its server. *)
Definition savedContent (s : RSys) (sv : SavedP) : option (Persister * nat) :=
  match sv with
  | SOwn k => nd ← sinsts s !! k; Some (persister (rf nd), rounds nd)
  | SHeld ps r => Some (ps, r)
  end.

Definition set_saved (i : nat) (sv : SavedP) (s : RSys) : RSys :=
  set_hst (set_hsaved (<[i := Some sv]> (hsaved (hst s))) (hst s)) s.

(** [if cfg.saved[i] != nil { cfg.saved[i] = f(cfg.saved[i]) }] *)
Definition mapSaved (i : nat) (f : Persister → Persister) (s : RSys) : option RSys :=
  let* o := hsaved (hst s) !! i in
  match o with
  | None => Some s
  | Some sv => let* '(ps, r) := savedContent s sv in Some (set_saved i (SHeld (f ps) r) s)
  end.

(** The requests that the server now registered under a number has handled. *)
Definition rpcCount (s : RSys) (server : nat) : option Z := GetCount (snet s) (heap (sys s)) (inr server).

(** One action of the test goroutine. *)
Definition hact (a : HAct) (s : RSys) : option RSys :=
  match a with
  | HEnable nm b => Some (set_net (Enable (inl nm) b (snet s)) s)
  | HDelete i => Some (set_net (DeleteServer (inr i) (snet s)) s)
  | HCopy i => mapSaved i Copy s
  | HKill i =>
      let* o := hrafts (hst s) !! i in
      match o with
      | None => Some s
      | Some k =>
          let* nd := sinsts s !! k in
          Some (set_hst (set_hrafts (<[i := None]> (hrafts (hst s))) (hst s))
                 (set_world (setInst k (withRaft nd (Kill (rf nd))) (swld s)) s))
      end
  | HClean i => mapSaved i (λ ps, SaveRaftState MakePersister (ReadRaftState ps)) s
  | HMakeEnds i names =>
      assert* bool_decide (length names = rn s) in
      let* en := go_update (hendnames (hst s)) (Z.of_nat i) (Some names) in
      let* rn' := makeEnds inr (seq 0 (rn s)) names (snet s) in
      Some (set_hst (set_hendnames en (hst s)) (set_net rn' s))
  | HFresh i =>
      let* o := hsaved (hst s) !! i in
      match o with
      | None => Some (set_saved i (SHeld MakePersister 0) s)
      | Some sv => let* '(ps, r) := savedContent s sv in Some (set_saved i (SHeld (Copy ps) r) s)
      end
  | HMake i =>
      let* o := hsaved (hst s) !! i in
      let* sv := o in
      let* '(ps, r) := savedContent s sv in
      let* row := hendnames (hst s) !! i in
      let* names := row in
      let k := length (sinsts s) in
      let nd := mkNode (Make (rn s) (Z.of_nat i) ps) (FollowerWait 1) r [] in
      let s := set_world (mkWorld (sinsts s ++ [nd]) (died (swld s))) s in
      let s := mkRSys (rn s) (sys s) (iends s ++ [(i, names)]) (callers s) (hst s) (script s) in
      let s := set_saved i (SOwn k) s in
      Some (set_hst (set_hrafts (<[i := Some k]> (hrafts (hst s))) (hst s)) s)
  | HServe i =>
      let* o := hrafts (hst s) !! i in
      let* k := o in
      let srv := AddService MakeServer (raftService k) in
      let y := sys s in
      Some (set_sys (mkSystem (AddServer (inr i) (length (heap y)) (Labrpc.net y)) (heap y ++ [srv])
              (world y) (threads y) (executed y) (serving y)) s)
  end.

(** The actions of a loop that enables the ends [f] selects; [enableAll] does
    them at once. *)
Fixpoint enableActs (js : list nat) (f : nat → option (option string)) (b : bool)
    : option (list HAct) :=
  match js with
  | [] => Some []
  | j :: js =>
      let* nm := f j in
      let* l := enableActs js f b in
      Some (match nm with Some nm => HEnable nm b :: l | None => l end)
  end.

(** [connect], after [cfg.connected[i] = true]. *)
Definition connectActs (s : RSys) (conn : list bool) (i : nat) : option (list HAct) :=
  let en := hendnames (hst s) in
  let sel out j :=
    let* cj := conn !! j in
    if cj : bool then
      let* nm := (if out : bool then endnameOf en i j else endnameOf en j i) in Some (Some nm)
    else Some None in
  let* l1 := enableActs (seq 0 (rn s)) (sel true) true in
  let* l2 := enableActs (seq 0 (rn s)) (sel false) true in
  Some (l1 ++ l2).

(** [disconnect], after [cfg.connected[i] = false]. *)
Definition disconnectActs (s : RSys) (i : nat) : option (list HAct) :=
  let en := hendnames (hst s) in
  let* ei := en !! i in
  let outgoing j :=
    match ei with Some names => let* nm := names !! j in Some (Some nm) | None => Some None end in
  let incoming j :=
    let* ej := en !! j in
    match ej with Some names => let* nm := names !! i in Some (Some nm) | None => Some None end in
  let* l1 := enableActs (seq 0 (rn s)) outgoing false in
  let* l2 := enableActs (seq 0 (rn s)) incoming false in
  Some (l1 ++ l2).

Definition crashActs (s : RSys) (i : nat) : option (list HAct) :=
  let* l := disconnectActs s i in
  Some (l ++ [HDelete i; HCopy i; HKill i; HClean i]).

Definition startActs (s : RSys) (i : nat) (names : list string) : option (list HAct) :=
  let* l := crashActs s i in
  Some (l ++ [HMakeEnds i names; HFresh i; HMake i; HServe i]).

Inductive HOp :=
  | HoConnect (i : nat)
  | HoDisconnect (i : nat)
  | HoCrash (i : nat)
  | HoStart (i : nat) (names : list string)
  | HoReliable (b : bool)
  | HoLongReordering (b : bool)
  | HoLongDelays (b : bool)
  | HoCleanup.

Definition begin_ (s : RSys) (i : nat) (b : bool) (acts : list bool → option (list HAct))
    : option RSys :=
  let* conn := go_update (hconnected (hst s)) (Z.of_nat i) b in
  let* l := acts conn in
  Some (set_script l (set_hst (set_hconnected conn (hst s)) s)).

(** The test goroutine calls an operation. [connect] does not look at cfg.rafts; that the tests connect a server only
    after start1 has made it is an assumption of this model (the ends of an instance that has crashed would be
    enabled again otherwise). *)
Definition hop (o : HOp) (s : RSys) : option RSys :=
  match o with
  | HoConnect i =>
      let* r := hrafts (hst s) !! i in
      let* _ := r in
      begin_ s i true (λ conn, connectActs s conn i)
  | HoDisconnect i => begin_ s i false (λ _, disconnectActs s i)
  | HoCrash i => begin_ s i false (λ _, crashActs s i)
  | HoStart i names => begin_ s i false (λ _, startActs s i names)
  | HoReliable b => Some (set_net (Reliable b (snet s)) s)
  | HoLongReordering b => Some (set_net (LongReordering b (snet s)) s)
  | HoLongDelays b => Some (set_net (LongDelays b (snet s)) s)
  | HoCleanup => let* rn' := Cleanup (snet s) in Some (set_net rn' s)
  end.

(** ** Steps *)

Inductive REvent :=
  (** instance [k] takes a local step, a client's [Start] or a [Kill] *)
  | RLocal (k : nat) (e : Event Cmd)
  (** caller [m] hands its request over, or finds the network closed *)
  | RCall (m : nat)
  | RAbort (m : nat)
  (** a goroutine of the network *)
  | RNet (e : NEv)
  (** the call of caller [m] returns *)
  | RReturn (m : nat)
  (** the routine receives what caller [m] offers *)
  | RReply (m : nat)
  (** the test goroutine *)
  | ROp (o : HOp)
  | RAct.

(** The events of the network's own goroutines. *)
Definition netOwn (e : NEv) : bool :=
  match e with EConf _ | ECall _ _ _ => false | _ => true end.

Definition stepInst (s : RSys) (k : nat) (r : Res Cmd) : option RSys :=
  match r with
  | Blocked => None
  | Panic => Some (set_world (die (swld s)) s)
  | Next nd' out =>
      Some (set_callers (callers s ++ ((λ p, mkCaller k p CReady) <$> sends out))
             (set_world (setInst k nd' (swld s)) s))
  end.

Definition upd_caller (m : nat) (st : CState) (s : RSys) : RSys :=
  set_callers (alter (setState st) m (callers s)) s.

Definition rstep (s : RSys) (e : REvent) : option RSys :=
  assert* negb (died (swld s)) in
  match e with
  | RLocal k e =>
      let* nd := sinsts s !! k in
      stepInst s k (nodeStep nd e)
  | RCall m =>
      let* cl := callers s !! m in
      match cState cl with
      | CReady =>
          let* '(dst, meth, a, _) := callOf (cReq cl) in
          let* '(_, names) := iends s !! cInst cl in
          let* nm := names !! dst in
          let* y := nstep (sys s) (ECall (inl nm) meth a) in
          Some (upd_caller m (CCalling (length (threads (sys s)))) (set_sys y s))
      | _ => None
      end
  | RAbort m =>
      let* cl := callers s !! m in
      match cState cl with
      | CReady => assert* done (snet s) in Some (upd_caller m (CGone None) s)
      | _ => None
      end
  | RNet e => assert* netOwn e in let* y := nstep (sys s) e in Some (set_sys y s)
  | RReturn m =>
      let* cl := callers s !! m in
      match cState cl with
      | CCalling k =>
          let* t := threads (sys s) !! k in
          match pc t, callOf (cReq cl) with
          | PReplied r, Some (_, _, _, ty) =>
              match callReturn (zero ty) r with
              | None => Some (set_world (die (swld s)) s)
              | Some (true, v) => Some (upd_caller m (COffers k v) s)
              | Some (false, _) => Some (upd_caller m (CGone (Some k)) s)
              end
          | _, _ => None
          end
      | _ => None
      end
  | RReply m =>
      let* cl := callers s !! m in
      match cState cl with
      | COffers k v =>
          let* p := replyOf (cReq cl) v in
          let* nd := sinsts s !! cInst cl in
          let* s := stepInst s (cInst cl) (arrive nd p) in
          Some (upd_caller m (CGone (Some k)) s)
      | _ => None
      end
  | ROp o => assert* bool_decide (length (script s) = 0%nat) in hop o s
  | RAct =>
      match script s with
      | [] => None
      | a :: l => hact a (set_script l s)
      end
  end.

Fixpoint rrun (s : RSys) (es : list REvent) : option RSys :=
  match es with
  | [] => Some s
  | e :: es => let* s := rstep s e in rrun s es
  end.

(** [make_config] before the servers are started. *)
Definition initRSys (n : nat) (unreliable : bool) : RSys :=
  mkRSys n (mkSystem (LongDelays true (Reliable (negb unreliable) MakeNetwork)) [] (mkWorld [] false) [] [] true)
    [] [] (mkHState (replicate n None) (replicate n false) (replicate n None) (replicate n None)) [].

Inductive rreachable (n : nat) : RSys → Prop :=
  | rreachable_init unreliable : rreachable n (initRSys n unreliable)
  | rreachable_step s e s' : rreachable n s → rstep s e = Some s' → rreachable n s'.

(** The instance that a server's state lives in: the one that writes to the
    persister the server would be restarted from. *)
Definition current (s : RSys) (i : nat) : option nat :=
  match hsaved (hst s) !! i with Some (Some (SOwn k)) => Some k | _ => None end.

End RaftNet.

Arguments World : clear implicits.
Arguments Caller : clear implicits.
Arguments RSys : clear implicits.
Arguments REvent : clear implicits.
