(* ===== verification/RaftNetSim.v ===== *)
(** * Raft over labrpc refines the abstract cluster

    [RaftCluster] lets packets be delivered or lost at will and replaces a
    server at a crash. Here every step of the composition [RaftNet], with its
    ends, servers, [ProcessReq]s and the instances that survive a crash, is shown to be zero
    or one steps of [RaftCluster]. The request of a caller is an abstract
    packet until a handler of the server's current instance has run, and its reply
    is one until the routine reads it; what an old instance sends or answers corresponds
    to nothing, since its ends stay disabled and [ProcessReq] drops the replies of a
    server that is no longer registered. *)

From S2P Require Import Prelude Persister Raft RaftInv RaftOps RaftCluster RaftSafety RaftElection.
From S2P Require Import Labrpc Harness RaftConfig RaftNet.

(** ** Lists of optional packets *)

Lemma omap_insert_perm {A} (l : list (option A)) m o o' :
  l !! m = Some o → omap id (<[m := o']> l) ++ option_list o ≡ₚ omap id l ++ option_list o'.
Proof.
  intros Hm. apply list_elem_of_split_length in Hm as (l1 & l2 & -> & ->).
  rewrite insert_app_r_alt, Nat.sub_diag by lia. simpl. rewrite !omap_app. simpl.
  destruct o, o'; simpl; rewrite ?app_nil_r, <-?app_assoc; try done; solve_Permutation || idtac.
  all: f_equiv; rewrite ?(Permutation_app_comm (omap id l2)); simpl; try done; constructor.
Qed.

Lemma omap_set_perm {A} (l : list (option A)) m o x :
  l !! m = Some o → omap id (<[m := Some x]> l) ≡ₚ x :: omap id (<[m := None]> l).
Proof.
  intros Hm. assert (H0 : <[m := None]> l !! m = Some None).
  { apply list_lookup_insert_eq. by eapply lookup_lt_Some. }
  pose proof (omap_insert_perm _ _ _ (Some x) H0) as Hp. simpl in Hp.
  rewrite list_insert_insert_eq, app_nil_r in Hp. rewrite Hp. apply Permutation_app_comm.
Qed.

Section Ops.
Context {Cmd : Type} `{!Gob (Z * Z * list (LogEntry Cmd))}.
Implicit Types (nd : Node Cmd) (c : Cluster Cmd) (p : Packet Cmd) (rf : Raft Cmd).

(** ** What a step of a node leaves alone *)

(** No operation writes a snapshot. *)
Definition snap rf : bytes := snapshot (persister rf).

Lemma updateTerm_snap rf t : snap (updateTerm rf t).1 = snap rf.
Proof. unfold updateTerm. by repeat case_decide. Qed.

Lemma pokeTimer_snap rf : snap (pokeTimer rf) = snap rf.
Proof. unfold pokeTimer. by case_decide. Qed.

Lemma applyLog_snap rf rf' : applyLog rf = Some rf' → snap rf' = snap rf.
Proof. unfold applyLog. intros. by go_inv. Qed.

Lemma RequestVote_snap rf args rf' reply : RequestVote rf args = Some (rf', reply) → snap rf' = snap rf.
Proof.
  unfold RequestVote. intros H. rewrite <-(updateTerm_snap rf (rv_Term args)).
  repeat case_decide; go_inv; [done..|]. case_match; simplify_eq; [by rewrite pokeTimer_snap|done].
Qed.

Lemma AppendEntries_snap rf args rf' reply : AppendEntries rf args = Some (rf', reply) → snap rf' = snap rf.
Proof.
  unfold AppendEntries. intros H. rewrite <-(updateTerm_snap rf (ae_Term args)).
  case_decide; go_inv; [done|]. case_match; go_inv; rewrite pokeTimer_snap; [done|].
  unfold acceptEntries in *. go_inv. case_decide; go_inv; [|done].
  by erewrite applyLog_snap by done.
Qed.

Lemma Start_snap rf cmd rf' res : Start rf cmd = Some (rf', res) → snap rf' = snap rf.
Proof. unfold Start. intros H. case_bool_decide; go_inv; done. Qed.

Lemma leaderReply_snap rf args q reply rf' b :
  leaderReply rf args q reply = Some (rf', b) → snap rf' = snap rf.
Proof.
  unfold leaderReply, advanceCommit. intros H.
  repeat (case_decide || case_match || go_inv); simplify_eq; try done.
  all: match goal with H : applyLog _ = Some _ |- _ => by rewrite (applyLog_snap _ _ H) end.
Qed.

(** What holds of a node again after any step: it is alive, and it keeps its snapshot. *)
Definition keeps nd nd' : Prop :=
  alive nd' = true ∧ snap (RaftCluster.rf nd') = snap (RaftCluster.rf nd).

Lemma enter_keeps nd rf0 nd' out :
  enter nd rf0 = Next nd' out → snap rf0 = snap (RaftCluster.rf nd) → keeps nd nd'.
Proof.
  unfold enter, runLeader, runCandidate, runFollower, orPanic, leaderInit, candidateStart.
  intros H Hs. unfold keeps. rewrite <-Hs.
  repeat (case_decide || case_match); simplify_eq; go_inv; simplify_eq; try done.
Qed.

Lemma lockStep_keeps nd nd' out : lockStep nd = Next nd' out → keeps nd nd'.
Proof.
  unfold lockStep, runRound, orPanic. destruct (rt nd) eqn:Hrt; intros H; try done;
    try (by eapply enter_keeps).
  - unfold runCandidate, orPanic, candidateStart in H. case_match; simplify_eq.
    case_match; simplify_eq. go_inv. by split.
  - unfold candidateReply in H. case_decide; [by eapply enter_keeps|].
    repeat case_match; simplify_eq; by split.
  - case_match; simplify_eq. by split.
  - destruct (args !! peer ≫= _) as [[rf1 b]|] eqn:Hl; simplify_eq.
    apply bind_Some in Hl as (a & _ & Hl). apply leaderReply_snap in Hl.
    destruct b; [by eapply enter_keeps|]. simplify_eq. by split.
Qed.

Lemma nodeStep_keeps nd e nd' out : alive nd = true → nodeStep nd e = Next nd' out → keeps nd nd'.
Proof.
  intros Ha. destruct e; simpl; try done.
  - apply lockStep_keeps.
  - unfold timerStep, goto. intros. repeat (case_match || case_decide); simplify_eq; by split.
  - unfold resetStep, goto. intros. repeat case_match; simplify_eq; by split.
  - unfold toFollowerStep, goto. intros. repeat case_match; simplify_eq; by split.
  - unfold terminateStep, goto. intros. repeat case_match; simplify_eq; by split.
  - unfold applySend. intros. repeat case_match; simplify_eq; by split.
  - unfold orPanic. intros. repeat case_match; simplify_eq. split; [done|]. by eapply Start_snap.
  - intros. simplify_eq. split; [done|]. unfold Kill. simpl. by case_decide.
Qed.

Lemma arrive_keeps nd p nd' out : alive nd = true → arrive nd p = Next nd' out → keeps nd nd'.
Proof.
  intros Ha. destruct p; simpl; unfold serveVote, serveAppend, voteReplyStep, appendReplyStep, goto, orPanic;
    intros; repeat (case_match || case_decide); simplify_eq; split; try done;
    first [by eapply RequestVote_snap | by eapply AppendEntries_snap].
Qed.

(** ** Requests a node sends *)

Definition is_request (i : nat) p : Prop :=
  match p with VoteReq src _ _ _ | AppReq src _ _ _ => src = i | _ => False end.

Lemma requests_fmap i (ps : list nat) (f : nat → Packet Cmd) :
  (∀ q, is_request i (f q)) → Forall (is_request i) (sends ((λ q, Send (f q)) <$> ps)).
Proof. intros Hf. induction ps as [|q ps IH]; simpl; [done|]. by constructor. Qed.

Lemma requests_round i r (args : list (AppendEntriesArgs Cmd)) (l : list nat) :
  Forall (is_request i) (sends (omap (λ q, a ← args !! q; Some (Send (AppReq i q r a))) l)).
Proof.
  induction l as [|q l IH]; simpl; [done|]. destruct (args !! q); simpl; [|done]. by constructor.
Qed.

Lemma runCandidate_requests i nd rf0 nd' out :
  runCandidate nd rf0 = Next nd' out → me rf0 = Z.of_nat i → Forall (is_request i) (sends out).
Proof.
  unfold runCandidate, orPanic, candidateStart. intros H Hi. repeat case_match; simplify_eq. go_inv. simpl.
  apply (requests_fmap i). intros q. simpl. lia.
Qed.

Lemma enter_requests i nd rf0 nd' out :
  enter nd rf0 = Next nd' out → me rf0 = Z.of_nat i → Forall (is_request i) (sends out).
Proof.
  unfold enter, runLeader, runFollower, orPanic. intros H Hi.
  repeat (case_decide || case_match); simplify_eq; try done. by eapply runCandidate_requests.
Qed.

Lemma leaderReply_me rf args q reply rf' b :
  leaderReply rf args q reply = Some (rf', b) → me rf' = me rf.
Proof.
  unfold leaderReply, advanceCommit, applyLog. intros H.
  repeat (case_decide || case_match || go_inv); simplify_eq; done.
Qed.

Lemma nodeStep_requests i nd e nd' out :
  nodeStep nd e = Next nd' out → me (RaftCluster.rf nd) = Z.of_nat i → Forall (is_request i) (sends out).
Proof.
  intros H Hi. destruct e; simpl in H; try done.
  - unfold lockStep in H. destruct (rt nd) eqn:Hrt; try done;
      try (by eapply enter_requests); try (by eapply runCandidate_requests).
    + unfold candidateReply in H. case_decide; [by eapply enter_requests|].
      repeat case_match; by simplify_eq.
    + unfold runRound, orPanic in H. case_match; simplify_eq.
      rewrite Hi, Nat2Z.id. apply requests_round.
    + unfold orPanic in H. destruct (args !! peer ≫= _) as [[rf1 b]|] eqn:Hl; simplify_eq.
      apply bind_Some in Hl as (a & _ & Hl). apply leaderReply_me in Hl.
      destruct b; [eapply enter_requests; [done|congruence]|by simplify_eq].
  - unfold timerStep, goto in H. repeat (case_match || case_decide); by simplify_eq.
  - unfold resetStep, goto in H. repeat case_match; by simplify_eq.
  - unfold toFollowerStep, goto in H. repeat case_match; by simplify_eq.
  - unfold terminateStep, goto in H. repeat case_match; by simplify_eq.
  - unfold applySend in H. repeat case_match; by simplify_eq.
  - unfold orPanic in H. repeat case_match; by simplify_eq.
  - by simplify_eq.
Qed.
End Ops.

Section Sim.
Context {Cmd : Type} `{!Gob (Z * Z * list (LogEntry Cmd))} `{!RaftWire Cmd}.
Implicit Types (s : RSys Cmd) (nd : Node Cmd) (c : Cluster Cmd) (p : Packet Cmd).
Notation Thr := (@Thread EndName Ty).
Notation threadsOf s := (threads (sys s)).

(** ** Instances, servers and their owners *)

(** The server at [q] in the heap runs the handlers of instance [k]. *)
Definition host s (q k : nat) : Prop :=
  ∃ srv, heap (sys s) !! q = Some srv ∧ services srv = {["Raft" := raftService k]}.

(** Instance [k] was made for server [i]. *)
Definition owner s (k i : nat) : Prop := ∃ names, iends s !! k = Some (i, names).

(** An old instance. *)
Definition gone s (k : nat) : Prop := (k < length (sinsts s))%nat ∧ ∀ i, current s i ≠ Some k.

(** [nm] is the end of instance [k] for server [j]. *)
Definition endOfInst s (k j : nat) (nm : string) : Prop :=
  ∃ i names, iends s !! k = Some (i, names) ∧ names !! j = Some nm.

Lemma host_inj s q k k' : host s q k → host s q k' → k = k'.
Proof.
  intros (srv & Hs & He) (srv' & Hs' & He'). rewrite Hs in Hs'. simplify_eq. rewrite He in He'.
  apply (f_equal (lookup "Raft")) in He'. rewrite !lookup_singleton_eq in He'.
  apply (f_equal (fmap rcvr)) in He'. by simplify_eq/=.
Qed.

Lemma owner_inj s k i i' : owner s k i → owner s k i' → i = i'.
Proof. intros (? & H) (? & H'). congruence. Qed.

Record wired s : Prop := {
  w_rafts : length (hrafts (hst s)) = rn s;
  w_conn : length (hconnected (hst s)) = rn s;
  w_saved : length (hsaved (hst s)) = rn s;
  w_names : length (hendnames (hst s)) = rn s;
  w_inst : length (iends s) = length (sinsts s);
  w_row : ∀ k i names, iends s !! k = Some (i, names) → length names = rn s;
  w_cur : ∀ i k, current s i = Some k → owner s k i;
  w_ends : ∀ k j nm, endOfInst s k j nm →
    inl nm ∈ ends (snet s) ∧ connectionOf (snet s) (inl nm) = Some (inr j);
  w_uniq : ∀ k k' j j' nm, endOfInst s k j nm → endOfInst s k' j' nm → k = k';
  w_dead : ∀ k j nm, gone s k → endOfInst s k j nm → isEnabled (snet s) (inl nm) = false;
  w_srv : ∀ sn q, serverOf (snet s) sn = Some q →
    ∃ i k, sn = inr i ∧ host s q k ∧ current s i = Some k;
  w_heap : ∀ q srv, heap (sys s) !! q = Some srv → ∃ k, host s q k;
}.

(** ** The script of the test goroutine *)

Definition raftsOk s (i : nat) : Prop := ∀ k, hrafts (hst s) !! i = Some (Some k) ↔ current s i = Some k.

Definition namesOk s (i : nat) : Prop := ∀ k, current s i = Some k →
  ∃ names, hendnames (hst s) !! i = Some (Some names) ∧ iends s !! k = Some (i, names).

(** The slots of server [i] between two operations. *)
Record slotOk s (i : nat) : Prop := {
  sl_rafts : raftsOk s i;
  sl_names : namesOk s i;
  sl_conn : hconnected (hst s) !! i = Some true → ∃ k, current s i = Some k;
}.

Definition isEnable (a : HAct) : Prop := match a with HEnable _ _ => True | _ => False end.

(** The ends of server [i]'s instance are disabled, or will be by [l]. *)
Definition disabling s (i : nat) (l : list HAct) : Prop :=
  ∀ k j nm, current s i = Some k → endOfInst s k j nm →
    isEnabled (snet s) (inl nm) = false ∨ HEnable nm false ∈ l.

(** The row of ends made for the next instance of server [i]. *)
Definition newRow s (i : nat) : Prop :=
  ∃ names, hendnames (hst s) !! i = Some (Some names) ∧ length names = rn s ∧
    ∀ j nm, names !! j = Some nm →
      inl nm ∈ ends (snet s) ∧ connectionOf (snet s) (inl nm) = Some (inr j) ∧
      ∀ k j', ¬ endOfInst s k j' nm.

Definition restOk (i : nat) (l : list HAct) : Prop :=
  l = [] ∨ ∃ names, l = [HMakeEnds i names; HFresh i; HMake i; HServe i].

(** What holds while an operation on server [i] has [l] left to do. *)
Inductive phase s (i : nat) : list HAct → Prop :=
  | ph_disable l r : Forall (λ a, ∃ nm, a = HEnable nm false) l → disabling s i l →
      raftsOk s i → restOk i r →
      phase s i (l ++ HDelete i :: HCopy i :: HKill i :: HClean i :: r)
  | ph_copy r : disabling s i [] → serverOf (snet s) (inr i) = None → raftsOk s i → restOk i r →
      phase s i (HCopy i :: HKill i :: HClean i :: r)
  | ph_kill r : current s i = None →
      (∀ k, hrafts (hst s) !! i = Some (Some k) → gone s k) → restOk i r →
      phase s i (HKill i :: HClean i :: r)
  | ph_clean r : current s i = None → hrafts (hst s) !! i = Some None → restOk i r →
      phase s i (HClean i :: r)
  | ph_ends names : current s i = None → hrafts (hst s) !! i = Some None →
      phase s i [HMakeEnds i names; HFresh i; HMake i; HServe i]
  | ph_fresh : current s i = None → newRow s i → phase s i [HFresh i; HMake i; HServe i]
  | ph_make : current s i = None → newRow s i → phase s i [HMake i; HServe i]
  | ph_serve : raftsOk s i → namesOk s i → phase s i [HServe i].

Definition scriptOk s : Prop :=
  (Forall isEnable (script s) ∧ (∀ i, (i < rn s)%nat → slotOk s i) ∧
   ∀ nm, HEnable nm true ∈ script s → ∃ i k j, current s i = Some k ∧ endOfInst s k j nm) ∨
  (∃ i, (i < rn s)%nat ∧ (∀ i', (i' < rn s)%nat → i' ≠ i → slotOk s i') ∧
   hconnected (hst s) !! i = Some false ∧ phase s i (script s)).

(** ** Requests *)

Definition pcServer (c : @PC EndName) : option (EndName * nat) :=
  match c with PWait sn q _ _ | PAfter sn q _ _ _ => Some (sn, q) | _ => None end.

(** If [t] still looks at a server, it is [q]. *)
Definition looksAt (t : Thr) (q : nat) : Prop := ∀ x, pcServer (pc t) = Some x → x.2 = q.

Definition valReply (v : Val Cmd) : replyMsg := mkReply true (encodeVal v).

(** The handler has not run and may yet run on server [dst]. *)
Definition awaits s (dst : nat) (t : Thr) : Prop :=
  (pc t = PStart ∧ handler t = None) ∨
  (∃ q k, handler t = Some (HRunning q) ∧ host s q k ∧ owner s k dst ∧ looksAt t q ∧
     pc t ≠ PStart ∧ ∀ r, ¬ holds t r).

(** The handler has run and its reply was [v]. *)
Definition answered (t : Thr) (v : Val Cmd) : Prop :=
  ¬ pending t ∧ pc t ≠ PStart ∧ ∀ r, holds t r → r = valReply v.

(** The caller will not get a reply. *)
Definition lost s (t : Thr) : Prop :=
  rejected t ∨
  (∃ q k, host s q k ∧ gone s k ∧ looksAt t q ∧ pc t ≠ PStart ∧
     (handler t = Some (HRunning q) ∨ ¬ pending t) ∧ ∀ r, ¬ settled t r).

(** Thread [k] carries the request of [cl]. *)
Definition carries s (cl : Caller Cmd) (k : nat) (dst : nat) (t : Thr) : Prop :=
  threadsOf s !! k = Some t ∧
  ∃ nm meth a ty, callOf (cReq cl) = Some (dst, meth, a, ty) ∧ endOfInst s (cInst cl) dst nm ∧
    req t = makeReq (inl nm) meth a.

(** The abstract packet a caller stands for. *)
Definition callerOk s (cl : Caller Cmd) (o : option (Packet Cmd)) : Prop :=
  match cState cl, o with
  | CReady, Some p => p = cReq cl
  | CReady, None => gone s (cInst cl)
  | CCalling k, Some p => ∃ dst t, carries s cl k dst t ∧
      ((p = cReq cl ∧ awaits s dst t) ∨ (∃ v, replyOf (cReq cl) v = Some p ∧ answered t v))
  | CCalling k, None => ∃ dst t, carries s cl k dst t ∧
      ((pc t = PStart ∧ handler t = None ∧ gone s (cInst cl)) ∨ lost s t)
  | COffers k v, Some p => replyOf (cReq cl) v = Some p ∧
      ∃ dst t, carries s cl k dst t ∧ ¬ pending t ∧ pc t ≠ PStart
  | COffers _ _, None => False
  | CGone (Some k), Some p => ∃ dst t, carries s cl k dst t ∧ p = cReq cl ∧ awaits s dst t ∧ pc t ≠ PStart
  | CGone (Some k), None => ∃ dst t, carries s cl k dst t ∧ pc t ≠ PStart ∧ (¬ pending t ∨ lost s t)
  | CGone None, o => o = None
  end.

(** The caller belongs to an instance, and a packet of its is one of the instance's server. *)
Definition callerId s (cl : Caller Cmd) (o : option (Packet Cmd)) : Prop :=
  ∃ i, owner s (cInst cl) i ∧ (is_Some o → is_request i (cReq cl)).

Definition threadIx (st : @CState Cmd) : option nat :=
  match st with CReady => None | CCalling k | COffers k _ => Some k | CGone o => o end.

(** ** The relation *)

Definition fine nd : Prop := alive nd = true ∧ snap (rf nd) = [].

(** What the abstract node [nd] is in the composition. *)
Definition nodeRel s (i : nat) nd : Prop :=
  match hsaved (hst s) !! i with
  | Some (Some (SOwn k)) => sinsts s !! k = Some nd
  | Some (Some (SHeld ps r)) =>
      snapshot ps = [] ∧ nd = mkNode (Make (rn s) (Z.of_nat i) ps) (FollowerWait 1) r []
  | _ => nd = initNode (rn s) i
  end.

Record simCallers s c (pk : list (option (Packet Cmd))) : Prop := {
  sc_len : length pk = length (callers s);
  sc_net : ∃ rest, RaftCluster.net c ≡ₚ omap id pk ++ rest;
  sc_ok : ∀ m cl o, callers s !! m = Some cl → pk !! m = Some o → callerOk s cl o;
  sc_id : ∀ m cl o, callers s !! m = Some cl → pk !! m = Some o → callerId s cl o;
  sc_thread : ∀ k t, threadsOf s !! k = Some t →
    ∃ m cl, callers s !! m = Some cl ∧ threadIx (cState cl) = Some k;
  sc_inj : ∀ m m' cl cl' k, callers s !! m = Some cl → callers s !! m' = Some cl' →
    threadIx (cState cl) = Some k → threadIx (cState cl') = Some k → m = m';
}.

Record simNodes s c : Prop := {
  sn_len : length (nodes c) = rn s;
  sn_fine : Forall fine (nodes c);
  sn_rel : ∀ i nd, nodes c !! i = Some nd → nodeRel s i nd;
}.

Record sim s c (pk : list (option (Packet Cmd))) : Prop := {
  sim_wired : wired s;
  sim_script : scriptOk s;
  sim_callers : simCallers s c pk;
  sim_nodes : simNodes s c;
}.

(** ** What steps keep *)

(** Instances and servers are only added, and old instances stay old. *)
Record ext s s' : Prop := {
  x_rn : rn s' = rn s;
  x_host : ∀ q k, host s q k → host s' q k;
  x_iends : ∀ k e, iends s !! k = Some e → iends s' !! k = Some e;
  x_gone : ∀ k, gone s k → gone s' k;
}.

Lemma ext_owner s s' k i : ext s s' → owner s k i → owner s' k i.
Proof. intros [] (names & ?). exists names. eauto. Qed.

Lemma ext_end s s' k j nm : ext s s' → endOfInst s k j nm → endOfInst s' k j nm.
Proof. intros [] (i & names & ? & ?). exists i, names. eauto. Qed.

#[local] Hint Resolve ext_owner ext_end x_host x_gone : core.

Lemma awaits_ext s s' dst t : ext s s' → awaits s dst t → awaits s' dst t.
Proof. intros Hx [?|(q & k & ? & ? & ? & ?)]; [by left|]. right. exists q, k. split_and!; eauto; naive_solver. Qed.

Lemma lost_ext s s' t : ext s s' → lost s t → lost s' t.
Proof. intros Hx [?|(q & k & ? & ? & ?)]; [by left|]. right. exists q, k. eauto. Qed.

Lemma carries_ext s s' cl k dst t :
  ext s s' → threadsOf s' !! k = threadsOf s !! k → carries s cl k dst t → carries s' cl k dst t.
Proof. intros Hx Ht [Hk (nm & meth & a & ty & ? & ? & ?)]. split; [by rewrite Ht|]. exists nm, meth, a, ty. eauto. Qed.

Lemma callerOk_ext s s' cl o :
  ext s s' → (∀ k, threadIx (cState cl) = Some k → threadsOf s' !! k = threadsOf s !! k) →
  callerOk s cl o → callerOk s' cl o.
Proof.
  intros Hx Ht. unfold callerOk. destruct (cState cl) as [|k|k v|[k|]], o as [p|]; simpl in Ht; try done; eauto.
  - intros (dst & t & Hc & Hor). exists dst, t. split; [by eapply carries_ext; eauto|].
    destruct Hor as [[? ?]|?]; [left|by right]. split; [done|]. by eapply awaits_ext.
  - intros (dst & t & Hc & Hor). exists dst, t. split; [by eapply carries_ext; eauto|].
    destruct Hor as [(? & ? & ?)|?]; [left; eauto|right]. by eapply lost_ext.
  - intros (? & dst & t & Hc & ?). split; [done|]. exists dst, t. split; [by eapply carries_ext; eauto|done].
  - intros (dst & t & Hc & ? & ? & ?). exists dst, t. split_and!; [by eapply carries_ext; eauto|done| |done].
    by eapply awaits_ext.
  - intros (dst & t & Hc & ? & Hor). exists dst, t. split_and!; [by eapply carries_ext; eauto|done|].
    destruct Hor; [by left|right]. by eapply lost_ext.
Qed.

Lemma callerId_ext s s' cl o : ext s s' → callerId s cl o → callerId s' cl o.
Proof. intros Hx (i & ? & ?). exists i. eauto. Qed.

(** What every step but those of the test goroutine keeps. *)
Record frame s s' : Prop := {
  f_rn : rn s' = rn s;
  f_hst : hst s' = hst s;
  f_script : script s' = script s;
  f_iends : iends s' = iends s;
  f_insts : length (sinsts s') = length (sinsts s);
  f_enabled : enabled (snet s') = enabled (snet s);
  f_servers : servers (snet s') = servers (snet s);
  f_conns : connections (snet s') = connections (snet s);
  f_ends : ends (snet s') = ends (snet s);
  f_heap : services <$> heap (sys s') = services <$> heap (sys s);
}.

Lemma frame_host s s' q k : services <$> heap (sys s') = services <$> heap (sys s) → host s q k → host s' q k.
Proof.
  intros Hf (srv & Hq & Hs). apply (f_equal (lookup q)) in Hf. rewrite !list_lookup_fmap, Hq in Hf.
  destruct (heap (sys s') !! q) as [srv'|] eqn:Hq'; simplify_eq/=. exists srv'. split; [done|congruence].
Qed.

Lemma frame_current s s' i : hst s' = hst s → current s' i = current s i.
Proof. unfold current. by intros ->. Qed.

Lemma frame_gone s s' k : hst s' = hst s → length (sinsts s') = length (sinsts s) → gone s k → gone s' k.
Proof. unfold gone. intros Hh ->. intros [? Hc]. split; [done|]. intros i. by rewrite (frame_current _ _ _ Hh). Qed.

Lemma frame_sym s s' : frame s s' → frame s' s.
Proof. intros []. by split. Qed.

Lemma frame_ext s s' : frame s s' → ext s s'.
Proof.
  intros F. split; [apply F|..].
  - intros q k. apply frame_host, F.
  - intros k e. by rewrite (f_iends _ _ F).
  - intros k. apply frame_gone; apply F.
Qed.

Ltac framed F := unfold isEnabled, serverOf, connectionOf in *;
  rewrite ?(f_rn _ _ F), ?(f_hst _ _ F), ?(f_script _ _ F), ?(f_iends _ _ F), ?(f_insts _ _ F), ?(f_enabled _ _ F),
    ?(f_servers _ _ F), ?(f_conns _ _ F), ?(f_ends _ _ F), ?(frame_current _ _ _ (f_hst _ _ F)) in *.

Lemma frame_wired s s' : frame s s' → wired s → wired s'.
Proof.
  intros F W. pose proof (frame_ext _ _ F) as X. pose proof (frame_ext _ _ (frame_sym _ _ F)) as X'.
  destruct W. split; try (framed F; done).
  - intros i k Hc. framed F. eauto.
  - intros k j nm Hk%(ext_end _ _ _ _ _ X'). apply w_ends0 in Hk. by framed F.
  - intros k k' j j' nm Hk%(ext_end _ _ _ _ _ X') Hk'%(ext_end _ _ _ _ _ X'). eauto.
  - intros k j nm Hg%(x_gone _ _ X') Hk%(ext_end _ _ _ _ _ X'). pose proof (w_dead0 k j nm Hg Hk). by framed F.
  - intros sn q Hq. destruct (w_srv0 sn q) as (i & k & -> & ? & ?); [by framed F|].
    exists i, k. rewrite (frame_current _ _ _ (f_hst _ _ F)). eauto.
  - intros q srv Hq. pose proof (f_heap _ _ F) as Hf. apply (f_equal (lookup q)) in Hf.
    rewrite !list_lookup_fmap, Hq in Hf. destruct (heap (sys s) !! q) as [srv0|] eqn:Hq0; [|done].
    destruct (w_heap0 _ _ Hq0) as (k & ?). eauto.
Qed.

Lemma frame_slot s s' i : frame s s' → slotOk s i → slotOk s' i.
Proof.
  intros F [Hr Hn Hc]. split.
  - unfold raftsOk in *. by framed F.
  - unfold namesOk in *. by framed F.
  - by framed F.
Qed.

Lemma frame_newRow s s' i : frame s s' → newRow s i → newRow s' i.
Proof.
  intros F (names & ? & ? & Hall). exists names. split_and!; [by framed F..|].
  intros j nm Hj. destruct (Hall j nm Hj) as (? & ? & Hno). split_and!; [by framed F..|].
  intros k j' ?%(ext_end _ _ _ _ _ (frame_ext _ _ (frame_sym _ _ F))). by eapply Hno.
Qed.

Lemma frame_phase s s' i l : frame s s' → phase s i l → phase s' i l.
Proof.
  intros F. pose proof (frame_ext _ _ F) as X. pose proof (frame_ext _ _ (frame_sym _ _ F)) as X'.
  assert (Hd : ∀ l, disabling s i l → disabling s' i l).
  { intros l' Hd k j nm Hk He. destruct (Hd k j nm); [by framed F|eauto|left; by framed F|by right]. }
  assert (Hr : raftsOk s i → raftsOk s' i) by (unfold raftsOk; by framed F).
  destruct 1.
  - apply ph_disable; auto.
  - apply ph_copy; auto. by framed F.
  - apply ph_kill; auto; [by framed F|]. intros k Hk. apply (x_gone _ _ X). framed F. eauto.
  - apply ph_clean; auto; by framed F.
  - apply ph_ends; auto; by framed F.
  - apply ph_fresh; auto; [by framed F|]. by eapply frame_newRow.
  - apply ph_make; auto; [by framed F|]. by eapply frame_newRow.
  - apply ph_serve; auto. unfold namesOk in *. by framed F.
Qed.

Lemma frame_script s s' : frame s s' → scriptOk s → scriptOk s'.
Proof.
  intros F [(He & Hs & Ht)|(i & Hi & Hs & Hc & Hp)]; [left|right].
  - rewrite (f_script _ _ F), (f_rn _ _ F). split_and!; [done| |].
    + intros i Hi. eapply frame_slot; eauto.
    + intros nm (i & k & j & ? & ?)%Ht. exists i, k, j. split; [by framed F|].
      eapply ext_end; [by apply frame_ext|done].
  - exists i. rewrite (f_script _ _ F), (f_rn _ _ F), (f_hst _ _ F). split_and!; [done| |done|].
    + intros. eapply frame_slot; eauto.
    + by eapply frame_phase.
Qed.

(** ** Moves of a request *)

(** A move after [ReadEndnameInfo]: the server looked at and the state of the
    handler's goroutine do not change. *)
Record later (t t' : Thr) : Prop := {
  la_start : pc t ≠ PStart ∧ pc t' ≠ PStart;
  la_server : ∀ x, pcServer (pc t') = Some x → pcServer (pc t) = Some x;
  la_running : ∀ q, handler t = Some (HRunning q) → handler t' = Some (HRunning q);
}.

Inductive moved s (t : Thr) : Thr → Prop :=
  | mv_start rnd : pc t = PStart → handler t = None → moved s t (processStart (snet s) rnd t)
  | mv_later t' : tmove (snet s) t t' → later t t' → moved s t t'.

Lemma looksAt_later t t' q : later t t' → looksAt t q → looksAt t' q.
Proof. intros L H x Hx. apply H. by apply (la_server _ _ L). Qed.

Lemma lost_later s t t' :
  wired s → tmove (snet s) t t' → later t t' → lost s t → lost s t'.
Proof.
  intros W M L [Hr|(q & k & Hh & Hg & Hl & Hp & Hrun & Hs)].
  { left. by apply M. }
  right. exists q, k. split_and!; [done|done|by eapply looksAt_later|apply L| |].
  - destruct Hrun as [?|Hn]; [left; by apply L|right]. intros ?%(tm_pending _ _ _ M). done.
  - intros r Hr. destruct (tm_settled _ _ _ M r Hr) as [?|(sn & q' & a & b & Hpc & Hd)]; [by eapply Hs|].
    apply IsServerDead_false in Hd as [_ Hd].
    assert (q' = q) as ->. { apply (Hl (sn, q')). by rewrite Hpc. }
    destruct (w_srv _ W _ _ Hd) as (i & k' & -> & Hh' & Hc).
    rewrite (host_inj _ _ _ _ Hh' Hh) in Hc. destruct Hg as [_ Hg]. by eapply Hg.
Qed.

Lemma awaits_later s dst t t' :
  tmove (snet s) t t' → later t t' → awaits s dst t → awaits s dst t'.
Proof.
  intros M L [[Hp _]|(q & k & Hh & ? & ? & ? & _ & Hno)]; [by destruct (la_start _ _ L)|].
  right. exists q, k. split_and!; [by apply L|done|done|by eapply looksAt_later|apply L|].
  intros r Hr%(tm_holds _ _ _ M). by eapply Hno.
Qed.

Lemma answered_later s t t' v :
  tmove (snet s) t t' → later t t' → answered t v → answered t' v.
Proof.
  intros M L (Hn & Hp & Hr). split_and!; [|apply L|].
  - by intros ?%(tm_pending _ _ _ M).
  - intros r ?%(tm_holds _ _ _ M). eauto.
Qed.

(** *** [ReadEndnameInfo] *)

Lemma start_awaits s k dst nm rnd t :
  wired s → endOfInst s k dst nm → endname (req t) = inl nm →
  let t' := processStart (snet s) rnd t in
  pc t' ≠ PStart ∧ req t' = req t ∧ (rejected t' ∨ (gone s k → False) ∧ awaits s dst t').
Proof.
  intros W He Hn t'. destruct (w_ends _ W _ _ _ He) as [_ Hc].
  subst t'. unfold processStart, ReadEndnameInfo. rewrite Hn. simpl. rewrite Hc.
  assert (Hrej : ∀ o, rejected (mkThread (req t) (PTimer refused) None) ∨ o) by (left; split; [done|by left]).
  destruct (isEnabled (snet s) (inl nm)) eqn:Hen; [|split_and!; done].
  destruct (serverOf (snet s) (inr dst)) as [q|] eqn:Hq; [|split_and!; done].
  case_match; [split_and!; [done|done|]; left; split; [done|by right]|].
  split_and!; [done|done|]. right. split.
  { intros Hg. pose proof (w_dead _ W _ _ _ Hg He). congruence. }
  right. destruct (w_srv _ W _ _ Hq) as (i & k' & [= <-] & Hh & Hcur).
  exists q, k'. split_and!; [done|done|by apply (w_cur _ W)|by intros x [= <-]|done|].
  intros r [Hr|[(? & ? & ? & ? & Hr)|[_ [Hr|Hr]]]]; by simplify_eq/=.
Qed.

(** A move takes the packet of the caller along, or drops it. *)
Lemma callerOk_moved s s' cl o k t t' :
  wired s → ext s s' → threadIx (cState cl) = Some k →
  threadsOf s !! k = Some t → threadsOf s' !! k = Some t' → moved s t t' →
  callerOk s cl o → ∃ o', (o' = o ∨ o' = None) ∧ callerOk s' cl o'.
Proof.
  intros W X Hix Hk Hk' M.
  assert (Hreq : req t' = req t).
  { destruct M as [rnd|t' M _]; [|apply M]. unfold processStart. by repeat case_match. }
  assert (Hcar : ∀ dst t0, carries s cl k dst t0 → t0 = t ∧ carries s' cl k dst t' ∧
    ∃ nm, endOfInst s (cInst cl) dst nm ∧ endname (req t) = inl nm).
  { intros dst t0 [H0 (nm & meth & a & ty & ? & ? & Hrq)]. rewrite Hk in H0. simplify_eq. split_and!; [done| |].
    - split; [done|]. exists nm, meth, a, ty. split_and!; eauto. congruence.
    - exists nm. by rewrite Hrq. }
  unfold callerOk. destruct (cState cl) as [|k0|k0 v|[k0|]]; simplify_eq/=.
  - destruct o as [p|].
    + intros (dst & t0 & (-> & Hc & nm & He & Hn)%Hcar & Hor).
      destruct M as [rnd Hpc Hh|t' M L].
      * destruct Hor as [[-> _]|(v & _ & _ & Hp & _)]; [|done].
        destruct (start_awaits s (cInst cl) dst nm rnd t W He Hn) as (_ & _ & [Hr|[_ Ha]]).
        -- exists None. split; [by right|]. exists dst, (processStart (snet s) rnd t). split; [done|]. right. by left.
        -- exists (Some (cReq cl)). split; [by left|]. exists dst, (processStart (snet s) rnd t). split; [done|]. left. split; [done|].
           by eapply awaits_ext.
      * exists (Some p). split; [by left|]. exists dst, t'. split; [done|].
        destruct Hor as [[-> Ha]|(v & ? & ?)].
        -- left. split; [done|]. eapply awaits_ext, awaits_later; eauto.
        -- right. exists v. split; [done|]. by eapply answered_later.
    + intros (dst & t0 & (-> & Hc & nm & He & Hn)%Hcar & Hor). exists None. split; [by left|].
      exists dst, t'. split; [done|]. right. eapply lost_ext; [done|].
      destruct M as [rnd Hpc Hh|t' M L].
      * destruct Hor as [(_ & _ & Hg)|[[_ [?|?]]|(? & ? & ? & ? & ? & ? & _)]]; [|congruence..].
        destruct (start_awaits s (cInst cl) dst nm rnd t W He Hn) as (_ & _ & [Hr|[Hr _]]); [by left|done].
      * destruct Hor as [(Hp & _)|Hl]; [by destruct (la_start _ _ L)|]. by eapply lost_later.
  - destruct o as [p|]; [|done]. intros (Hrep & dst & t0 & (-> & Hc & _)%Hcar & Hn & Hp).
    exists (Some p). split; [by left|]. split; [done|]. exists dst, t'. destruct M as [|t' M L]; [done|].
    split_and!; [done| |apply L]. by intros ?%(tm_pending _ _ _ M).
  - destruct o as [p|].
    + intros (dst & t0 & (-> & Hc & _)%Hcar & -> & Ha & Hp). exists (Some (cReq cl)). split; [by left|].
      exists dst, t'. destruct M as [|t' M L]; [done|]. split_and!; [done|done| |apply L].
      eapply awaits_ext, awaits_later; eauto.
    + intros (dst & t0 & (-> & Hc & _)%Hcar & Hp & Hor). exists None. split; [by left|].
      exists dst, t'. destruct M as [|t' M L]; [done|]. split_and!; [done|apply L|].
      destruct Hor as [Hn|Hl]; [left; by intros ?%(tm_pending _ _ _ M)|right].
      eapply lost_ext, lost_later; eauto.
Qed.

(** The goroutines of the network, except the handlers. *)
Lemma nstep_moved s e y :
  nstep (sys s) e = Some y → netOwn e = true → (∀ k, e ≠ EHandle k) →
  (∃ b, y = mkSystem (snet s) (heap (sys s)) (swld s) (threadsOf s) (executed (sys s)) b) ∨
  ∃ k t t', threadsOf s !! k = Some t ∧ moved s t t' ∧ y = withThread (sys s) k t'.
Proof.
  intros Hs Hown Hne. destruct e as [| | |k rnd|k|k|k|k r1 r2|k]; simpl in Hs; try done.
  - left. case_match; simplify_eq. by eexists.
  - right. go_inv. repeat case_match; simplify_eq. do 3 eexists. split_and!; [done|by apply mv_start|done].
  - by destruct (Hne k).
  - right. go_inv. do 3 eexists. split_and!; [done| |done].
    apply mv_later; [by apply processReceive_move|].
    match goal with H : processReceive _ = Some _ |- _ => unfold processReceive in H end.
    repeat case_match; simplify_eq. split; simpl; [by split; congruence| |by congruence].
    match goal with H : pc _ = _ |- _ => by rewrite H end.
  - right. go_inv. do 3 eexists. split_and!; [done| |done].
    apply mv_later; [by apply processTick_move|].
    match goal with H : processTick _ _ = Some _ |- _ => unfold processTick in H end.
    repeat case_match; simplify_eq; (split; simpl; [by split; congruence| |done]);
    match goal with H : pc _ = _ |- _ => by rewrite H end.
  - right. go_inv. do 3 eexists. split_and!; [done| |done].
    apply mv_later; [by eapply processFinish_move|].
    match goal with H : processFinish _ _ _ _ = Some _ |- _ => unfold processFinish in H end.
    case_match; simplify_eq. split; simpl; [|by repeat case_match|done].
    split; [congruence|by repeat case_match].
  - right. go_inv. do 3 eexists. split_and!; [done| |done].
    apply mv_later; [by apply processTimer_move|].
    match goal with H : processTimer _ = Some _ |- _ => unfold processTimer in H end.
    case_match; simplify_eq. split; simpl; [by split; congruence|done|done].
Qed.

(** ** Changing one caller *)

(** Caller [m] goes from [cState cl] to [st'] and its packet from [o] to [o']; only the
    request it has or gets may change. *)
Lemma sc_change s s' c c' pk m cl o st' o' :
  simCallers s c pk → ext s s' →
  callers s !! m = Some cl → pk !! m = Some o →
  callers s' = <[m := setState st' cl]> (callers s) →
  (∀ k, threadIx (cState cl) = Some k → threadIx st' = Some k) →
  (∀ k, threadIx st' = Some k → threadIx (cState cl) = Some k ∨ threadsOf s !! k = None) →
  (∀ k, threadIx st' ≠ Some k → threadsOf s' !! k = threadsOf s !! k) →
  callerOk s' (setState st' cl) o' → (is_Some o' → is_Some o) →
  (∃ rest, RaftCluster.net c' ≡ₚ omap id (<[m := o']> pk) ++ rest) →
  simCallers s' c' (<[m := o']> pk).
Proof.
  intros [Hl Hn Hok Hid Hth Hinj] X Hm Ho Hc Hix Hnew Hsame Hok' Ho' Hn'.
  assert (Hkeep : ∀ m' cl' k, m' ≠ m → callers s !! m' = Some cl' → threadIx (cState cl') = Some k →
    threadsOf s !! k ≠ None → threadIx st' ≠ Some k).
  { intros m' cl' k Hne Hm' Hk Hex Hst. destruct (Hnew k Hst) as [Hk'|?]; [|done].
    apply Hne. by eapply (Hinj m' m). }
  assert (Hex : ∀ m' cl' k, callers s !! m' = Some cl' → threadIx (cState cl') = Some k →
    threadsOf s !! k ≠ None).
  { intros m' cl' k Hm' Hk. destruct (lookup_lt_is_Some_2 pk m') as [o1 Ho1].
    { rewrite Hl. by eapply lookup_lt_Some. }
    specialize (Hok _ _ _ Hm' Ho1). unfold callerOk in Hok.
    destruct (cState cl') as [|k1|k1 v|[k1|]], o1; simplify_eq/=; try done;
      unfold carries in Hok; destruct_and?; naive_solver. }
  split.
  - rewrite Hc, !length_insert. done.
  - done.
  - intros m' cl' o1. rewrite Hc.
    intros [(<- & <- & _)|[Hne Hm']]%list_lookup_insert_Some [(? & Ho1 & _)|[Hne' Ho1]]%list_lookup_insert_Some; try done.
    + by subst.
    + eapply callerOk_ext; [done| |by eapply Hok]. intros k Hk. apply Hsame. eauto.
  - intros m' cl' o1. rewrite Hc.
    intros [(<- & <- & _)|[Hne Hm']]%list_lookup_insert_Some [(? & Ho1 & _)|[Hne' Ho1]]%list_lookup_insert_Some; try done.
    + subst. destruct (Hid _ _ _ Hm Ho) as (i & ? & Hr). exists i. split; [by eapply ext_owner|]. auto.
    + eapply callerId_ext; eauto.
  - intros k t Hk. destruct (decide (threadIx st' = Some k)) as [Hst|Hst].
    + exists m, (setState st' cl). split; [|done]. rewrite Hc.
      apply list_lookup_insert_eq. by eapply lookup_lt_Some.
    + rewrite (Hsame _ Hst) in Hk. destruct (Hth _ _ Hk) as (m' & cl' & Hm' & Hk').
      exists m', cl'. split; [|done]. rewrite Hc. destruct (decide (m' = m)) as [->|Hne].
      * rewrite Hm in Hm'. simplify_eq. by destruct Hst; apply Hix.
      * by rewrite list_lookup_insert_ne.
  - intros m1 m2 cl1 cl2 k. rewrite Hc.
    intros [(<- & <- & _)|[Hne1 H1]]%list_lookup_insert_Some
           [(<- & <- & _)|[Hne2 H2]]%list_lookup_insert_Some Hk1 Hk2; [done|..]; simpl in *.
    + exfalso. eapply Hkeep; [|exact H2|exact Hk2|eauto|exact Hk1]. done.
    + exfalso. eapply Hkeep; [|exact H1|exact Hk1|eauto|exact Hk2]. done.
    + eauto.
Qed.

(** Only packets are lost. *)
Lemma perm_drop (c : Cluster Cmd) (pk : list (option (Packet Cmd))) m o o' rest :
  RaftCluster.net c ≡ₚ omap id pk ++ rest → pk !! m = Some o → o' = o ∨ o' = None →
  ∃ rest', RaftCluster.net c ≡ₚ omap id (<[m := o']> pk) ++ rest'.
Proof.
  intros Hn Hm [->| ->]; [rewrite list_insert_id by done; eauto|].
  exists (option_list o ++ rest). rewrite Hn, (assoc_L (++)). f_equiv.
  rewrite (omap_insert_perm _ _ _ None Hm). simpl. by rewrite app_nil_r.
Qed.

(** Everything but the callers and requests. *)
Lemma sc_same s s' c c' pk x :
  simCallers s c pk → ext s s' → callers s' = callers s → threadsOf s' = threadsOf s →
  RaftCluster.net c' ≡ₚ x ++ RaftCluster.net c → simCallers s' c' pk.
Proof.
  intros [Hl [rest Hn] Hok Hid Hth Hinj] X Hc Ht Hn'. split; rewrite ?Hc, ?Ht; try done.
  - exists (x ++ rest). rewrite Hn', Hn, !(assoc_L (++)). f_equiv. apply Permutation_app_comm.
  - intros. eapply callerOk_ext; [done| |by eauto]. by rewrite Ht.
  - intros. eapply callerId_ext; eauto.
Qed.

(** New callers of instance [k] for the packets [ps]. *)
Lemma sc_new s s' c c' pk k ps os :
  simCallers s c pk → ext s s' → threadsOf s' = threadsOf s →
  callers s' = callers s ++ ((λ p, mkCaller k p CReady) <$> ps) →
  (os = Some <$> ps ∧ (∃ i, owner s k i ∧ Forall (is_request i) ps) ∨
   os = (λ _, None) <$> ps ∧ gone s k ∧ ∃ i, owner s k i) →
  RaftCluster.net c' ≡ₚ omap id os ++ RaftCluster.net c → simCallers s' c' (pk ++ os).
Proof.
  intros [Hl [rest Hn] Hok Hid Hth Hinj] X Ht Hc Hos Hn'.
  assert (Hlo : length os = length ps) by (destruct Hos as [[-> _]|[-> _]]; by rewrite length_fmap).
  assert (Hnew : ∀ m cl, (((λ p, mkCaller k p CReady) <$> ps) : list (Caller Cmd)) !! m = Some cl →
    ∃ p, ps !! m = Some p ∧ cl = mkCaller k p CReady).
  { intros m cl. rewrite list_lookup_fmap, fmap_Some. intros (p & ? & ->). eauto. }
  assert (Hcase : ∀ m p o, ps !! m = Some p → os !! m = Some o →
    callerOk s' (mkCaller k p CReady) o ∧ callerId s' (mkCaller k p CReady) o).
  { intros m p o Hp Ho. destruct Hos as [[-> (i & Hi & Hall)]|[-> [Hg (i & Hi)]]];
      rewrite list_lookup_fmap, Hp in Ho; simplify_eq/=.
    - split; [done|]. exists i. split; [by eapply ext_owner|]. intros _. simpl.
      rewrite Forall_lookup in Hall. eauto.
    - split; [by apply (x_gone _ _ X)|]. exists i. split; [by eapply ext_owner|]. by intros []. }
  split.
  - rewrite Hc, !length_app, length_fmap. lia.
  - exists rest. rewrite Hn', Hn, omap_app, !(assoc_L (++)). f_equiv. apply Permutation_app_comm.
  - intros m cl o. rewrite Hc. intros [Hm|[Hge (p & Hp & ->)%Hnew]]%lookup_app_Some Ho.
    + rewrite lookup_app_l in Ho; [|rewrite Hl; by eapply lookup_lt_Some].
      eapply callerOk_ext; [done| |by eauto]. by rewrite Ht.
    + rewrite lookup_app_r, Hl in Ho by lia. by eapply Hcase.
  - intros m cl o. rewrite Hc. intros [Hm|[Hge (p & Hp & ->)%Hnew]]%lookup_app_Some Ho.
    + rewrite lookup_app_l in Ho; [|rewrite Hl; by eapply lookup_lt_Some]. eapply callerId_ext; eauto.
    + rewrite lookup_app_r, Hl in Ho by lia. by eapply Hcase.
  - intros k1 t. rewrite Ht, Hc. intros (m & cl & ? & ?)%Hth. exists m, cl.
    split; [by apply lookup_app_l_Some|done].
  - intros m1 m2 cl1 cl2 k1. rewrite Hc.
    intros [H1|[_ (p & _ & ->)%Hnew]]%lookup_app_Some [H2|[_ (p' & _ & ->)%Hnew]]%lookup_app_Some ? ?; try done.
    eauto.
Qed.

(** ** Nodes and instances *)

Lemma current_saved s i k : current s i = Some k ↔ hsaved (hst s) !! i = Some (Some (SOwn k)).
Proof. unfold current. split; [by repeat case_match; intros [= ->]|by intros ->]. Qed.

Lemma current_node s c i k :
  wired s → simNodes s c → current s i = Some k →
  ∃ nd, nodes c !! i = Some nd ∧ sinsts s !! k = Some nd ∧ fine nd.
Proof.
  intros W [Hl Hf Hr] Hc%current_saved. destruct (lookup_lt_is_Some_2 (nodes c) i) as [nd Hnd].
  { rewrite Hl, <-(w_saved _ W). by eapply lookup_lt_Some. }
  exists nd. split; [done|]. specialize (Hr _ _ Hnd). unfold nodeRel in Hr. rewrite Hc in Hr.
  split; [done|]. rewrite Forall_lookup in Hf. eauto.
Qed.

(** Either an instance is some server's current one or it is an old one. *)
Lemma inst_cases s k : wired s → is_Some (sinsts s !! k) → (∃ i, current s i = Some k) ∨ gone s k.
Proof.
  intros W Hk. set (own := λ o, match o with Some (SOwn k') => bool_decide (k' = k) | _ => false end).
  destruct (decide (Exists (λ o, own o = true) (hsaved (hst s)))) as [He|Hne].
  - left. apply Exists_exists in He as (o & Ho & Hown). apply list_elem_of_lookup in Ho as [i Hi].
    exists i. apply current_saved. rewrite Hi. subst own. simpl in Hown.
    destruct o as [[k'|ps r]|]; try done. by apply bool_decide_eq_true in Hown as ->.
  - right. split; [by apply lookup_lt_is_Some|]. intros i Hi%current_saved. apply Hne.
    apply Exists_exists. eexists. split; [by eapply list_elem_of_lookup_2|]. simpl.
    by apply bool_decide_eq_true.
Qed.

Lemma nodes_upd s s' c c' i k nd' :
  wired s → simNodes s c → current s i = Some k → rn s' = rn s → hst s' = hst s →
  sinsts s' = <[k := nd']> (sinsts s) → nodes c' = <[i := nd']> (nodes c) → fine nd' → simNodes s' c'.
Proof.
  intros W [Hl Hf Hr] Hc Hrn Hh Hi Hn Hfine. split.
  - by rewrite Hn, length_insert, Hrn.
  - rewrite Hn. by apply Forall_insert.
  - intros i1 nd1. rewrite Hn. unfold nodeRel. rewrite Hh, Hrn, Hi.
    intros [(<- & <- & ?)|[Hne Hnd]]%list_lookup_insert_Some.
    + destruct (current_node s c i k) as (nd & _ & Hk & _); [done..|].
      apply current_saved in Hc as ->. apply list_lookup_insert_eq. by eapply lookup_lt_Some.
    + specialize (Hr _ _ Hnd). unfold nodeRel in Hr.
      destruct (hsaved (hst s) !! i1) as [[[k1|ps r]|]|] eqn:Hs; try done.
      rewrite list_lookup_insert_ne; [done|]. intros ->. apply Hne.
      apply current_saved in Hs. eapply owner_inj; by apply (w_cur _ W).
Qed.

Lemma nodes_gone s s' c k nd' :
  simNodes s c → gone s k → rn s' = rn s → hsaved (hst s') = hsaved (hst s) →
  sinsts s' = <[k := nd']> (sinsts s) → simNodes s' c.
Proof.
  intros [Hl Hf Hr] [_ Hg] Hrn Hh Hi. split; [by rewrite Hrn|done|].
  intros i nd Hnd. specialize (Hr _ _ Hnd). unfold nodeRel in *. rewrite Hh, Hrn, Hi.
  destruct (hsaved (hst s) !! i) as [[[k1|ps r]|]|] eqn:Hs; try done.
  rewrite list_lookup_insert_ne; [done|]. intros ->. apply (Hg i). by apply current_saved.
Qed.

Lemma nodes_same s s' c :
  simNodes s c → rn s' = rn s → hsaved (hst s') = hsaved (hst s) → sinsts s' = sinsts s → simNodes s' c.
Proof. intros [Hl Hf Hr] Hrn Hh Hi. split; [by rewrite Hrn|done|]. intros i nd Hnd. specialize (Hr _ _ Hnd).
  unfold nodeRel in *. by rewrite Hh, Hrn, Hi. Qed.

(** ** Steps of the abstract cluster *)

Definition relabel (i : nat) (e : Event Cmd) : Event Cmd :=
  match e with
  | EvLock _ => EvLock i | EvTimer _ t => EvTimer i t | EvReset _ => EvReset i
  | EvToFollower _ => EvToFollower i | EvTerminate _ => EvTerminate i | EvApply _ k => EvApply i k
  | EvStart _ cmd => EvStart i cmd | EvKill _ => EvKill i | e => e
  end.

Lemma local_cstep c i nd e nd' out :
  nodes c !! i = Some nd → alive nd = true → nodeStep nd e = Next nd' out →
  ∃ c', cstep c (relabel i e) = Some c' ∧ nodes c' = <[i := nd']> (nodes c) ∧
    RaftCluster.net c' = sends out ++ RaftCluster.net c.
Proof.
  intros Hi Ha Hs. destruct e; try done; simpl; rewrite Hi; simpl; rewrite Ha; simpl in Hs; simplify_eq/=;
    rewrite ?Hs; simpl; by eexists.
Qed.

Lemma deliver_cstep c p nd nd' out :
  p ∈ RaftCluster.net c → nodes c !! target p = Some nd → alive nd = true → arrive nd p = Next nd' out →
  ∃ e c' net0, cstep c e = Some c' ∧ nodes c' = <[target p := nd']> (nodes c) ∧
    RaftCluster.net c ≡ₚ p :: net0 ∧ RaftCluster.net c' = sends out ++ net0.
Proof.
  intros [k Hk]%list_elem_of_lookup Hi Ha Hs. exists (EvDeliver k). simpl. rewrite Hk. simpl.
  rewrite Hi. simpl. rewrite Ha, Hs. simpl. eexists _, _. split_and!; [done|done| |done].
  by apply delete_Permutation.
Qed.

(** ** The local steps *)

(** Instance [k] goes to [nd'] and sends [out]. *)
Definition stepped (k : nat) nd' (out : list (Output Cmd)) s : RSys Cmd :=
  set_callers (callers s ++ ((λ p, mkCaller k p CReady) <$> sends out))
    (set_world (setInst k nd' (swld s)) s).

Lemma stepped_frame k nd' out s : frame s (stepped k nd' out s).
Proof. split; try done. unfold sinsts. simpl. by rewrite length_insert. Qed.

Definition simulates n s' : Prop := ∃ c' pk', reachable n c' ∧ sim s' c' pk'.

Lemma sim_local n s c pk k nd e nd' out :
  sim s c pk → reachable n c → n = rn s → sinsts s !! k = Some nd → nodeStep nd e = Next nd' out →
  simulates n (stepped k nd' out s).
Proof.
  intros [W Sc C N] Hr Hn Hk Hs. pose proof (stepped_frame k nd' out s) as F.
  assert (Hown : ∃ i, owner s k i).
  { destruct (lookup_lt_is_Some_2 (iends s) k) as [[i names] Hi].
    - rewrite (w_inst _ W). by eapply lookup_lt_Some.
    - exists i. by exists names. }
  destruct (inst_cases s k W ltac:(eauto)) as [[i Hi]|Hg].
  - destruct (current_node s c i k W N Hi) as (nd0 & Hnd & Hk0 & Hfine). rewrite Hk in Hk0. simplify_eq.
    destruct (local_cstep c i nd0 e nd' out Hnd (proj1 Hfine) Hs) as (c' & Hc & Hnodes & Hnet).
    destruct (nodeStep_keeps _ _ _ _ (proj1 Hfine) Hs) as [? Hsn].
    exists c', (pk ++ (Some <$> sends out)). split; [by eapply reachable_step|]. split.
    + by eapply frame_wired.
    + by eapply frame_script.
    + eapply sc_new; [exact C|by apply frame_ext|done|done| |].
      * left. split; [done|]. exists i. split; [by apply (w_cur _ W)|].
        eapply nodeStep_requests; [done|].
        apply (ok_me (rn s) i), (node_raft _ _ _ (cok_nodes _ _ (reachable_ok _ _ Hr) _ _ Hnd)).
      * rewrite Hnet. f_equiv. clear. induction (sends out) as [|p l IH]; simpl; [done|by f_equiv].
    + eapply nodes_upd; [done..|]. split; [done|]. rewrite Hsn. apply Hfine.
  - exists c, (pk ++ ((λ _, None) <$> sends out)). split; [done|]. split.
    + by eapply frame_wired.
    + by eapply frame_script.
    + eapply sc_new; [exact C|by apply frame_ext|done|done|by right|].
      clear. by induction (sends out).
    + by eapply (nodes_gone s).
Qed.

(** ** The handlers *)

Definition callMeth p : nat → Val Cmd → Val Cmd → World Cmd → World Cmd * Val Cmd :=
  match p with VoteReq _ _ _ _ => callRequestVote | _ => callAppendEntries end.

(** [dispatch] finds the method, decodes the arguments and calls it. *)
Lemma dispatch_raft srv k p dst meth a ty (e : EndName) w :
  services srv = {["Raft" := raftService k]} → callOf p = Some (dst, meth, a, ty) →
  dispatch srv (makeReq e meth a) w =
  (let '(w', v) := callMeth p k a (zeroVal ty) w in
   Some (mkServer (services srv) (count srv + 1), w', valReply v)).
Proof.
  intros Hsrv Hp. assert (Hm : dispatch srv (makeReq e meth a) w = match p with
    | VoteReq _ _ _ _ => let* '(w, r) := serviceDispatch (raftService k) "RequestVote" (makeReq e meth a) w in
        Some (mkServer (services srv) (count srv + 1), w, r)
    | _ => let* '(w, r) := serviceDispatch (raftService k) "AppendEntries" (makeReq e meth a) w in
        Some (mkServer (services srv) (count srv + 1), w, r) end).
  { unfold dispatch. destruct p; simplify_eq/=; by rewrite Hsrv. }
  rewrite Hm. unfold serviceDispatch.
  assert (Hv : methods (raftService (Cmd := Cmd) k) !! "RequestVote" =
    Some (mkMethod "RequestVote" "" 3 true TVoteReply 0 callRequestVote)) by reflexivity.
  assert (Ha : methods (raftService (Cmd := Cmd) k) !! "AppendEntries" =
    Some (mkMethod "AppendEntries" "" 3 true TAppendReply 0 callAppendEntries)) by reflexivity.
  destruct p; simplify_eq/=; rewrite ?Hv, ?Ha; cbn [obind Func rcvr raftService MakeService replyType Labrpc.argsType Labrpc.args makeReq];
    rewrite decodeInto_encode, rw_zero; cbn [fst]; by destruct (_ : World Cmd * Val Cmd).
Qed.

Lemma callMeth_live p dst meth a ty k nd w w' v r0 :
  callOf p = Some (dst, meth, a, ty) → insts w !! k = Some nd → callMeth p k a r0 w = (w', v) →
  died w' = true ∨
  ∃ nd' out rep, arrive nd p = Next nd' out ∧ w' = setInst k nd' w ∧ replyOf p v = Some rep ∧
    sends out = [rep] ∧ target p = dst.
Proof.
  intros Hp Hk Hm. destruct p as [src d r args| |src d r args|]; simplify_eq/=;
    [unfold callRequestVote in Hm|unfold callAppendEntries in Hm]; rewrite Hk in Hm.
  - unfold serveVote, orPanic. destruct (RequestVote (rf nd) args) as [[rf' reply]|]; simplify_eq; [right|by left].
    eexists _, _, _. split_and!; [done..| |done]. by destruct (rvr_VoteGranted reply).
  - unfold serveAppend, orPanic. destruct (AppendEntries (rf nd) args) as [[rf' reply]|]; simplify_eq; [right|by left].
    by eexists _, _, _.
Qed.

(** The state after the handler of request [k] ran on the server at [q]. *)
Definition handled s (k q : nat) (t : Thr) (rs : Server) (w : World Cmd) (r : replyMsg) : RSys Cmd :=
  set_sys (mkSystem (snet s) (<[q := rs]> (heap (sys s))) w
    (<[k := mkThread (req t) (pc t) (Some (HOffers r))]> (threadsOf s))
    (executed (sys s) ++ [(k, r)]) (serving (sys s))) s.

Lemma handled_frame s k q t rs w r srv :
  heap (sys s) !! q = Some srv → services rs = services srv → length (insts w) = length (sinsts s) →
  frame s (handled s k q t rs w r).
Proof.
  intros Hq Hs Hw. split; try done. simpl. rewrite list_fmap_insert, Hs.
  apply list_insert_id. by rewrite list_lookup_fmap, Hq.
Qed.

(** A request that is running is the packet of its caller, or lost. *)
Lemma running_caller s c pk k q t :
  simCallers s c pk → threadsOf s !! k = Some t → handler t = Some (HRunning q) →
  ∃ m cl o dst k1, callers s !! m = Some cl ∧ pk !! m = Some o ∧ carries s cl k dst t ∧
    (cState cl = CCalling k ∨ cState cl = CGone (Some k)) ∧
    host s q k1 ∧ looksAt t q ∧ pc t ≠ PStart ∧
    ((o = Some (cReq cl) ∧ owner s k1 dst ∧ ∀ r, ¬ holds t r) ∨
     (o = None ∧ gone s k1 ∧ ∀ r, ¬ settled t r)).
Proof.
  intros C Hk Hh. destruct (sc_thread _ _ _ C _ _ Hk) as (m & cl & Hm & Hix).
  destruct (lookup_lt_is_Some_2 pk m) as [o Ho].
  { rewrite (sc_len _ _ _ C). by eapply lookup_lt_Some. }
  exists m, cl, o. pose proof (sc_ok _ _ _ C _ _ _ Hm Ho) as Hok. unfold callerOk in Hok.
  assert (Hpend : pending t) by (unfold pending; by rewrite Hh).
  assert (Haw : ∀ dst, awaits s dst t → ∃ k1, host s q k1 ∧ looksAt t q ∧ pc t ≠ PStart ∧
    owner s k1 dst ∧ ∀ r, ¬ holds t r).
  { intros dst [[_ ?]|(q' & k1 & Hh' & ?)]; [congruence|]. rewrite Hh in Hh'. simplify_eq. naive_solver. }
  assert (Hlost : lost s t → ∃ k1, host s q k1 ∧ looksAt t q ∧ pc t ≠ PStart ∧ gone s k1 ∧ ∀ r, ¬ settled t r).
  { intros [[Hn _]|(q' & k1 & ? & ? & ? & ? & [Hh'|?] & ?)]; [congruence| |done].
    rewrite Hh in Hh'. simplify_eq. eauto 10. }
  assert (Hcar : ∀ dst t0, carries s cl k dst t0 → t0 = t).
  { intros dst t0 [H0 _]. congruence. }
  destruct (cState cl) as [|k0|k0 v|[k0|]], o as [p|]; simplify_eq/=; try done.
  - destruct Hok as (dst & t0 & Hc & Hor). pose proof (Hcar _ _ Hc) as ->. exists dst.
    destruct Hor as [[-> (k1 & ? & ? & ? & ? & ?)%Haw]|(v & _ & Hn & _)]; [|done].
    exists k1. split_and!; auto 10.
  - destruct Hok as (dst & t0 & Hc & Hor). pose proof (Hcar _ _ Hc) as ->. exists dst.
    destruct Hor as [(_ & ? & _)|(k1 & ? & ? & ? & ? & ?)%Hlost]; [congruence|].
    exists k1. split_and!; auto 10.
  - destruct Hok as (_ & dst & t0 & Hc & Hn & _). pose proof (Hcar _ _ Hc) as ->. done.
  - destruct Hok as (dst & t0 & Hc & -> & Ha & _). pose proof (Hcar _ _ Hc) as ->. exists dst.
    destruct (Haw _ Ha) as (k1 & ? & ? & ? & ? & ?). exists k1. split_and!; auto 10.
  - destruct Hok as (dst & t0 & Hc & _ & Hor). pose proof (Hcar _ _ Hc) as ->. exists dst.
    destruct Hor as [?|(k1 & ? & ? & ? & ? & ?)%Hlost]; [done|]. exists k1. split_and!; auto 10.
Qed.

(** Once the handler has run: the caller has its reply coming, or nothing. *)
Lemma executed_caller s s' cl k dst q k1 t r v :
  ext s s' → carries s cl k dst t →
  threadsOf s' !! k = Some (mkThread (req t) (pc t) (Some (HOffers r))) →
  cState cl = CCalling k ∨ cState cl = CGone (Some k) → host s q k1 → looksAt t q → pc t ≠ PStart →
  (gone s k1 → (∀ r, ¬ settled t r) → callerOk s' cl None) ∧
  (r = valReply v → (∀ r, ¬ holds t r) → ∀ rep, replyOf (cReq cl) v = Some rep →
   ∃ o', (o' = Some rep ∨ o' = None) ∧ callerOk s' cl o').
Proof.
  intros X [Hk (nm & meth & a & ty & Hp & He & Hreq)] Hk' Hst Hh Hl Hpc.
  set (t' := mkThread (req t) (pc t) (Some (HOffers r))) in *.
  assert (Hc : carries s' cl k dst t').
  { split; [done|]. exists nm, meth, a, ty. split_and!; [done|by eapply ext_end|done]. }
  split.
  - intros Hg Hs. unfold callerOk. destruct Hst as [-> | ->]; exists dst, t'; split; try done.
    + right. right. exists q, k1. split_and!; [by eapply x_host|by eapply x_gone|done|done|right; by intros []|done].
    + split; [done|]. left. by intros [].
  - intros -> Hno rep Hrep. unfold callerOk. destruct Hst as [-> | ->].
    + exists (Some rep). split; [by left|]. exists dst, t'. split; [done|]. right. exists v. split; [done|].
      split_and!; [by intros []|done|]. intros r [Hr|Hr]; [by simplify_eq/=|].
      destruct (Hno r). right. exact Hr.
    + exists None. split; [by right|]. exists dst, t'. split_and!; [done|done|]. left. by intros [].
Qed.

Lemma handle_inv s k y :
  nstep (sys s) (EHandle k) = Some y →
  ∃ t q srv rs w r, threadsOf s !! k = Some t ∧ handler t = Some (HRunning q) ∧
    heap (sys s) !! q = Some srv ∧ dispatch srv (req t) (swld s) = Some (rs, w, r) ∧
    set_sys y s = handled s k q t rs w r.
Proof.
  simpl. intros (t & Ht & H)%obind_Some. unfold handleStep in H.
  destruct (handler t) as [[q| |]|] eqn:Hh; try done.
  apply obind_Some in H as (srv & Hsrv & H). apply obind_Some in H as ([[rs w] r] & Hd & H).
  simplify_eq. by exists t, q, srv, rs, w, r.
Qed.

Lemma settled_holds (t : Thr) r : settled t r → holds t r.
Proof. intros. right. by right. Qed.

(** The caller of the request whose handler ran changes its packet to [o']. *)
Lemma handled_callers s c c' pk k q t rs w r srv m cl o o' :
  simCallers s c pk → threadsOf s !! k = Some t → callers s !! m = Some cl → pk !! m = Some o →
  cState cl = CCalling k ∨ cState cl = CGone (Some k) →
  heap (sys s) !! q = Some srv → services rs = services srv → length (insts w) = length (sinsts s) →
  callerOk (handled s k q t rs w r) cl o' → (is_Some o' → is_Some o) →
  (∃ rest, RaftCluster.net c' ≡ₚ omap id (<[m := o']> pk) ++ rest) →
  simCallers (handled s k q t rs w r) c' (<[m := o']> pk).
Proof.
  intros C Hk Hm Ho Hst Hq Hs Hw Hok His Hnet.
  assert (Hix : threadIx (cState cl) = Some k) by (by destruct Hst as [-> | ->]).
  eapply (sc_change s _ c c' pk m cl o (cState cl)); try done.
  - eapply frame_ext, handled_frame; done.
  - simpl. rewrite list_insert_id; [done|]. by rewrite Hm; destruct cl.
  - by left.
  - intros k' Hk'. simpl. apply list_lookup_insert_ne. congruence.
Qed.

(** A request of a caller is delivered: its reply takes its place, or is left to the network. *)
Lemma deliver_reachable n s c pk m p nd nd' out rep :
  simCallers s c pk → reachable n c → pk !! m = Some (Some p) → nodes c !! target p = Some nd → alive nd = true →
  arrive nd p = Next nd' out → sends out = [rep] →
  ∃ c', reachable n c' ∧ nodes c' = <[target p := nd']> (nodes c) ∧
    ∀ o', o' = Some rep ∨ o' = None → ∃ rest, RaftCluster.net c' ≡ₚ omap id (<[m := o']> pk) ++ rest.
Proof.
  intros C Hr Ho Hnd Ha Harr Hsend. destruct (sc_net _ _ _ C) as [rest Hnet].
  pose proof (omap_insert_perm _ _ _ None Ho) as Hperm. simpl in Hperm. rewrite app_nil_r in Hperm.
  destruct (deliver_cstep c p nd nd' out) as (e & c' & net0 & Hc' & Hnodes & Hnet0 & Hnet'); [|done..|].
  { rewrite Hnet, <-Hperm. set_solver. }
  rewrite Hnet0, <-Hperm, (Permutation_app_comm _ [_]) in Hnet. simpl in Hnet. apply Permutation_cons_inv in Hnet.
  exists c'. split_and!; [by eapply reachable_step|done|]. rewrite Hnet', Hsend. intros o' [-> | ->].
  - exists rest. by rewrite (omap_set_perm _ _ _ _ Ho), Hnet.
  - exists (rep :: rest). simpl. by rewrite Hnet, Permutation_middle.
Qed.

Lemma sim_handle n s c pk k y :
  sim s c pk → reachable n c → n = rn s → nstep (sys s) (EHandle k) = Some y →
  died (world y) = false → simulates n (set_sys y s).
Proof.
  intros [W Sc C N] Hr Hn (t & q & srv & rs & w & r & Hk & Hh & Hq & Hdis & Heq)%handle_inv Hd.
  assert (Hdw : died w = false).
  { pose proof (f_equal swld Heq) as Hw. change (world y = w) in Hw. congruence. }
  rewrite Heq. clear y Heq Hd.
  destruct (running_caller _ _ _ _ _ _ C Hk Hh)
    as (m & cl & o & dst & k1 & Hm & Ho & Hcar & Hst & Hhost & Hlook & Hpc & Hcase).
  pose proof Hcar as [_ (nm & meth & a & ty & Hp & He & Hreq)].
  pose proof Hhost as (srv' & Hq' & Hsrv). rewrite Hq in Hq'. simplify_eq.
  rewrite Hreq, (dispatch_raft _ k1 (cReq cl) dst meth a ty) in Hdis by done.
  destruct (callMeth (cReq cl) k1 a (zeroVal ty) (swld s)) as [w' v] eqn:Hcall. simplify_eq.
  destruct (sinsts s !! k1) as [nd|] eqn:Hnd; [|by
    destruct (cReq cl); simplify_eq/=; unfold callRequestVote, callAppendEntries in Hcall;
    unfold sinsts in Hnd; rewrite Hnd in Hcall; simplify_eq].
  destruct (callMeth_live _ _ _ _ _ _ _ _ _ _ _ Hp Hnd Hcall)
    as [?|(nd' & out & rep & Harr & -> & Hrep & Hsend & Htgt)]; [congruence|].
  set (s' := handled s k q t _ _ _).
  assert (Hlen : length (insts (setInst k1 nd' (swld s))) = length (sinsts s)) by apply length_insert.
  assert (F : frame s s') by (by eapply handled_frame).
  assert (Hk' : threadsOf s' !! k = Some (mkThread (req t) (pc t) (Some (HOffers (valReply v))))).
  { simpl. apply list_lookup_insert_eq. by eapply lookup_lt_Some. }
  destruct (executed_caller s s' cl k dst q k1 t (valReply v) v (frame_ext _ _ F) Hcar Hk' Hst Hhost Hlook Hpc)
    as [Hex1 Hex2].
  destruct (inst_cases s k1 W ltac:(eauto)) as [[i Hi]|Hg].
  - destruct Hcase as [(-> & Hown & Hno)|(_ & [_ Hg] & _)]; [|by destruct (Hg i)].
    assert (i = dst) as -> by (eapply owner_inj; [by apply (w_cur _ W)|done]).
    destruct (current_node s c dst k1 W N Hi) as (nd0 & Hn0 & Hk0 & Hf). rewrite Hnd in Hk0. simplify_eq.
    destruct (deliver_reachable (rn s) s c pk m (cReq cl) nd0 nd' out rep C) as (c' & Hc' & Hnodes & Hnet');
      [done|done|done|apply Hf|done|done|].
    destruct (Hex2 eq_refl Hno rep Hrep) as (o' & Ho' & Hok').
    exists c', (<[m := o']> pk). split; [done|]. split.
    + by eapply frame_wired.
    + by eapply frame_script.
    + eapply handled_callers; try done. by apply Hnet'.
    + eapply nodes_upd; [done..|]. destruct (arrive_keeps _ _ _ _ (proj1 Hf) Harr) as [? Hsn].
      split; [done|]. rewrite Hsn. apply Hf.
  - exists c, (<[m := None]> pk). split; [done|]. split.
    + by eapply frame_wired.
    + by eapply frame_script.
    + destruct (sc_net _ _ _ C) as [rest Hnet]. eapply handled_callers; try done.
      * apply Hex1; [done|]. destruct Hcase as [(_ & _ & Hno)|(_ & _ & ?)]; [|done].
        intros r' ?%settled_holds. by eapply Hno.
      * eapply perm_drop; [done..|by right].
    + by eapply (nodes_gone s).
Qed.

(** ** The other goroutines of the network *)

Lemma set_thread_frame s k t' : frame s (set_sys (withThread (sys s) k t') s).
Proof. by split. Qed.

Lemma sim_net n s c pk e y :
  sim s c pk → reachable n c → nstep (sys s) e = Some y → netOwn e = true → (∀ k, e ≠ EHandle k) →
  simulates n (set_sys y s).
Proof.
  intros [W Sc C N] Hr Hy Hown Hne.
  destruct (nstep_moved s e y Hy Hown Hne) as [(b & ->)|(k & t & t' & Hk & M & ->)].
  - exists c, pk. split; [done|].
    assert (F : frame s (set_sys (mkSystem (snet s) (heap (sys s)) (swld s) (threadsOf s) (executed (sys s)) b) s))
      by done.
    split; [by eapply frame_wired|by eapply frame_script| |by eapply nodes_same].
    by apply (sc_same s _ c c pk []); [|apply frame_ext|..].
  - pose proof (set_thread_frame s k t') as F. set (s' := set_sys _ s) in *.
    destruct (sc_thread _ _ _ C _ _ Hk) as (m & cl & Hm & Hix).
    destruct (lookup_lt_is_Some_2 pk m) as [o Ho].
    { rewrite (sc_len _ _ _ C). by eapply lookup_lt_Some. }
    assert (Hk' : threadsOf s' !! k = Some t').
    { simpl. apply list_lookup_insert_eq. by eapply lookup_lt_Some. }
    destruct (callerOk_moved s s' cl o k t t' W (frame_ext _ _ F) Hix Hk Hk' M (sc_ok _ _ _ C _ _ _ Hm Ho))
      as (o' & Ho' & Hok').
    exists c, (<[m := o']> pk). split; [done|].
    split; [by eapply frame_wired|by eapply frame_script| |by eapply nodes_same].
    destruct (sc_net _ _ _ C) as [rest Hnet].
    eapply (sc_change s s' c c pk m cl o (cState cl)); try done.
    + simpl. rewrite list_insert_id; [done|]. rewrite Hm. by destruct cl.
    + by left.
    + intros k' Hne'. simpl. apply list_lookup_insert_ne. congruence.
    + intros [x ->]. by destruct Ho' as [<-|?].
    + by eapply perm_drop.
Qed.

(** ** The callers *)

Lemma upd_caller_eq m st s cl :
  callers s !! m = Some cl → callers (upd_caller m st s) = <[m := setState st cl]> (callers s).
Proof.
  intros Hm. simpl. apply list_eq. intros k. destruct (decide (k = m)) as [->|Hne].
  - rewrite list_lookup_alter_eq, Hm, list_lookup_insert_eq; [done|]. by eapply lookup_lt_Some.
  - by rewrite list_lookup_alter_ne, list_lookup_insert_ne.
Qed.

Lemma upd_caller_frame m st s : frame s (upd_caller m st s).
Proof. by split. Qed.

(** Caller [m] moves on and nothing else changes. *)
Lemma sim_caller n s c pk m cl o st' o' :
  sim s c pk → reachable n c → callers s !! m = Some cl → pk !! m = Some o →
  threadIx st' = threadIx (cState cl) → o' = o ∨ o' = None →
  callerOk (upd_caller m st' s) (setState st' cl) o' → simulates n (upd_caller m st' s).
Proof.
  intros [W Sc C N] Hr Hm Ho Hix Ho' Hok. pose proof (upd_caller_frame m st' s) as F.
  exists c, (<[m := o']> pk). split; [done|].
  split; [by eapply frame_wired|by eapply frame_script| |by eapply nodes_same].
  destruct (sc_net _ _ _ C) as [rest Hnet].
  eapply (sc_change s _ c c pk m cl o st'); try done.
  - by apply upd_caller_eq.
  - intros k. by rewrite Hix.
  - intros k. rewrite Hix. by left.
  - intros [x ->]. by destruct Ho' as [<-|?].
  - by eapply perm_drop.
Qed.

Lemma get_packet s c pk m cl :
  simCallers s c pk → callers s !! m = Some cl → ∃ o, pk !! m = Some o ∧ callerOk s cl o.
Proof.
  intros C Hm. destruct (lookup_lt_is_Some_2 pk m) as [o Ho].
  { rewrite (sc_len _ _ _ C). by eapply lookup_lt_Some. }
  exists o. split; [done|]. by eapply sc_ok.
Qed.

Lemma sim_call n s c pk m cl dst meth a ty i names nm y :
  sim s c pk → reachable n c → callers s !! m = Some cl → cState cl = CReady →
  callOf (cReq cl) = Some (dst, meth, a, ty) → iends s !! cInst cl = Some (i, names) →
  names !! dst = Some nm → nstep (sys s) (ECall (inl nm) meth a) = Some y →
  simulates n (upd_caller m (CCalling (length (threadsOf s))) (set_sys y s)).
Proof.
  intros [W Sc C N] Hr Hm Hst Hp Hi Hnm Hy. simpl in Hy. case_match; [|done]. simplify_eq.
  set (y := mkSystem _ _ _ _ _ _). set (st' := CCalling _).
  assert (F : frame s (upd_caller m st' (set_sys y s))) by done.
  destruct (get_packet _ _ _ _ _ C Hm) as (o & Ho & Hok).
  exists c, (<[m := o]> pk). split; [done|].
  split; [by eapply frame_wired|by eapply frame_script| |by eapply nodes_same].
  destruct (sc_net _ _ _ C) as [rest Hnet].
  eapply (sc_change s _ c c pk m cl o st'); try done.
  - by apply (upd_caller_eq m st' (set_sys y s)).
  - by rewrite Hst.
  - intros k [= <-]. right. by apply lookup_ge_None.
  - intros k Hne. simpl. destruct (decide (k < length (threadsOf s))%nat) as [Hlt|Hge].
    + by apply lookup_app_l.
    + assert (k ≠ length (threadsOf s)) by (intros ->; by apply Hne).
      rewrite !lookup_ge_None_2; [done|lia|]. rewrite length_app. simpl. lia.
  - unfold callerOk in *. rewrite Hst in Hok. simpl.
    assert (Hcar : carries (upd_caller m st' (set_sys y s)) (setState st' cl) (length (threadsOf s)) dst
      (mkThread (makeReq (inl nm) meth a) PStart None)).
    { split; [by apply list_lookup_middle|]. exists nm, meth, a, ty. split_and!; [done| |done].
      by exists i, names. }
    destruct o as [p|]; subst; exists dst; eexists; (split; [exact Hcar|]); [left|left].
    + split; [done|]. by left.
    + split_and!; [done|done|]. by apply (x_gone _ _ (frame_ext _ _ F)).
  - by eapply perm_drop; [..|left].
Qed.

Lemma replyOf_ty p v rep dst meth a ty :
  callOf p = Some (dst, meth, a, ty) → replyOf p v = Some rep → valTy v = ty.
Proof. by destruct p, v; intros; simplify_eq/=. Qed.

Lemma carries_upd s m st cl st' k dst t :
  carries s cl k dst t → carries (upd_caller m st s) (setState st' cl) k dst t.
Proof. done. Qed.

(** [Call] returns: with the reply the handler made, or with false. *)
Lemma sim_return n s c pk m cl k t r dst0 meth0 a0 ty b v :
  sim s c pk → reachable n c → callers s !! m = Some cl → cState cl = CCalling k →
  threadsOf s !! k = Some t → pc t = PReplied r → callOf (cReq cl) = Some (dst0, meth0, a0, ty) →
  callReturn (zero ty) r = Some (b, v) →
  simulates n (upd_caller m (if b then COffers k v else CGone (Some k)) s).
Proof.
  intros S Hr Hm Hst Hk Hpc Hp Hret. pose proof (sim_callers _ _ _ S) as C.
  destruct (get_packet _ _ _ _ _ C Hm) as (o & Ho & Hok). unfold callerOk in Hok. rewrite Hst in Hok.
  unfold callReturn in Hret.
  assert (Hsettle : ok r = true → settled t r) by (intros; split; [done|by right]).
  destruct (ok r) eqn:Hokr.
  - destruct (decodeInto (zero ty) (reply r)) as [v' noerr] eqn:Hdec. destruct noerr; simplify_eq.
    destruct o as [p|]; destruct Hok as (dst & t0 & Hcar & Hor); pose proof Hcar as [Hk0 _];
      rewrite Hk in Hk0; simplify_eq.
    + destruct Hor as [[_ [[? _]|(? & ? & _ & _ & _ & _ & _ & Hno)]]|(v0 & Hrep & Hn & Hps & Hall)].
      { congruence. } { destruct (Hno r). by apply settled_holds, Hsettle. }
      rewrite (Hall r) in Hdec by (by apply settled_holds, Hsettle).
      rewrite <-(replyOf_ty _ _ _ _ _ _ _ Hp Hrep), <-rw_typeOf in Hdec. simpl in Hdec.
      rewrite decodeInto_encode in Hdec. simplify_eq.
      eapply (sim_caller n s c pk m cl (Some p) _ (Some p)); try done; [by rewrite Hst|by left|].
      split; [done|]. exists dst, t0. split_and!; [by apply carries_upd|done|done].
    + exfalso. destruct Hor as [[? _]|[[_ [Hx|Hx]]|(? & ? & _ & _ & _ & _ & _ & Hno)]]; [congruence..| |].
      * rewrite Hpc in Hx. by simplify_eq.
      * by destruct (Hno r); apply Hsettle.
  - simplify_eq. destruct o as [p|]; destruct Hok as (dst & t0 & Hcar & Hor); pose proof Hcar as [Hk0 _];
      rewrite Hk in Hk0; simplify_eq.
    + destruct Hor as [[-> Ha]|(v0 & _ & Hn & Hps & _)].
      * eapply (sim_caller n s c pk m cl (Some (cReq cl)) _ (Some (cReq cl))); try done; [by rewrite Hst|by left|].
        exists dst, t0. split_and!; [by apply carries_upd|done| |congruence].
        eapply awaits_ext; [|done]. apply frame_ext, upd_caller_frame.
      * eapply (sim_caller n s c pk m cl (Some p) _ None); try done; [by rewrite Hst|by right|].
        exists dst, t0. split_and!; [by apply carries_upd|done|by left].
    + eapply (sim_caller n s c pk m cl None _ None); try done; [by rewrite Hst|by left|].
      exists dst, t0. split_and!; [by apply carries_upd|congruence|right].
      destruct Hor as [[? _]|?]; [congruence|].
      eapply lost_ext; [|done]. apply frame_ext, upd_caller_frame.
Qed.

Lemma sim_abort n s c pk m cl :
  sim s c pk → reachable n c → callers s !! m = Some cl → cState cl = CReady →
  simulates n (upd_caller m (CGone None) s).
Proof.
  intros S Hr Hm Hst. destruct (get_packet _ _ _ _ _ (sim_callers _ _ _ S) Hm) as (o & Ho & _).
  eapply (sim_caller n s c pk m cl o _ None); try done; [by rewrite Hst|by right].
Qed.

(** ** The routine receives a reply *)

Lemma arrive_reply p v rep i nd nd' out :
  replyOf p v = Some rep → is_request i p → arrive nd rep = Next nd' out → out = [] ∧ target rep = i.
Proof.
  destruct p, v; intros; simplify_eq/=; unfold voteReplyStep, appendReplyStep, goto in *;
    repeat (case_match || case_decide); by simplify_eq.
Qed.

Lemma sim_reply n s c pk m cl k v rep nd nd' out :
  sim s c pk → reachable n c → callers s !! m = Some cl → cState cl = COffers k v →
  replyOf (cReq cl) v = Some rep → sinsts s !! cInst cl = Some nd → arrive nd rep = Next nd' out →
  simulates n (upd_caller m (CGone (Some k)) (stepped (cInst cl) nd' out s)).
Proof.
  intros [W Sc C N] Hr Hm Hst Hrep Hnd Harr.
  destruct (get_packet _ _ _ _ _ C Hm) as (o & Ho & Hok).
  destruct (sc_id _ _ _ C _ _ _ Hm Ho) as (i & Hown & Hreq).
  unfold callerOk in Hok. rewrite Hst in Hok. destruct o as [p|]; [|done].
  destruct Hok as (Hrep' & dst & t & Hcar & Hn & Hps). rewrite Hrep in Hrep'. simplify_eq.
  destruct (arrive_reply _ _ _ _ _ _ _ Hrep (Hreq ltac:(eauto)) Harr) as [-> <-].
  set (s' := upd_caller _ _ _). assert (F : frame s s').
  { destruct (stepped_frame (cInst cl) nd' [] s). by split. }
  assert (Hchange : ∀ c', (∃ rest, RaftCluster.net c' ≡ₚ omap id (<[m := None]> pk) ++ rest) →
    simCallers s' c' (<[m := None]> pk)).
  { intros c' Hc'. eapply (sc_change s s' c c' pk m cl (Some p) (CGone (Some k))); try done.
    - by apply frame_ext.
    - subst s'. rewrite (upd_caller_eq _ _ _ cl); simpl; by rewrite app_nil_r.
    - by rewrite Hst.
    - rewrite Hst. by left.
    - exists dst, t. split_and!; [|done|by left]. eapply carries_ext; [by apply frame_ext|done|done]. }
  destruct (sc_net _ _ _ C) as [rest Hnet].
  destruct (inst_cases s (cInst cl) W ltac:(eauto)) as [[i Hi]|Hg].
  - assert (i = target p) as -> by (eapply owner_inj; [by apply (w_cur _ W)|done]).
    destruct (current_node s c _ _ W N Hi) as (nd0 & Hn0 & Hk0 & Hf). rewrite Hnd in Hk0. simplify_eq.
    pose proof (omap_insert_perm _ _ _ None Ho) as Hperm. simpl in Hperm. rewrite app_nil_r in Hperm.
    destruct (deliver_cstep c p nd0 nd' []) as (e & c' & net0 & Hc' & Hnodes & Hnet0 & Hnet'); [|done|apply Hf|done|].
    { rewrite Hnet, <-Hperm. set_solver. }
    rewrite Hnet0, <-Hperm, (Permutation_app_comm _ [_]) in Hnet. simpl in Hnet. apply Permutation_cons_inv in Hnet.
    exists c', (<[m := None]> pk). split; [by eapply reachable_step|].
    split; [by eapply frame_wired|by eapply frame_script| |].
    + apply Hchange. exists rest. by rewrite Hnet', Hnet.
    + eapply nodes_upd; [done..|]. destruct (arrive_keeps _ _ _ _ (proj1 Hf) Harr) as [? Hsn].
      split; [done|]. rewrite Hsn. apply Hf.
  - exists c, (<[m := None]> pk). split; [done|].
    split; [by eapply frame_wired|by eapply frame_script| |by eapply (nodes_gone s)].
    apply Hchange. eapply perm_drop; [done..|by right].
Qed.

(** ** The test goroutine *)

Lemma current_set_saved s i sv i' :
  (i < length (hsaved (hst s)))%nat →
  current (set_saved i sv s) i' =
    if decide (i' = i) then (match sv with SOwn k => Some k | SHeld _ _ => None end) else current s i'.
Proof.
  intros Hi. unfold current. simpl. case_decide; subst; [by rewrite list_lookup_insert_eq; destruct sv|].
  by rewrite list_lookup_insert_ne.
Qed.

(** Server [i'] is not the one the action is about. *)
Lemma slot_other s s' i' :
  current s' i' = current s i' → hrafts (hst s') !! i' = hrafts (hst s) !! i' →
  hendnames (hst s') !! i' = hendnames (hst s) !! i' → hconnected (hst s') !! i' = hconnected (hst s) !! i' →
  (∀ k e, iends s !! k = Some e → iends s' !! k = Some e) → slotOk s i' → slotOk s' i'.
Proof.
  intros Hc Hr He Hcn Hi [H1 H2 H3]. split.
  - intros k. rewrite Hr, Hc. apply H1.
  - intros k. rewrite Hc, He. intros (names & ? & ?)%H2. eauto.
  - rewrite Hc, Hcn. apply H3.
Qed.

(** An action that leaves the abstract cluster where it is. *)
Lemma sim_act_stay n s s' c pk :
  sim s c pk → reachable n c → ext s s' → callers s' = callers s → threadsOf s' = threadsOf s →
  wired s' → scriptOk s' → simNodes s' c → simulates n s'.
Proof.
  intros [_ _ C _] Hr X Hc Ht W Sc N. exists c, pk. split; [done|]. split; try done.
  by apply (sc_same s s' c c pk []).
Qed.

Lemma act_enable n s c pk nm b l :
  sim s c pk → reachable n c → script s = HEnable nm b :: l →
  simulates n (set_net (Enable (inl nm) b (snet s)) (set_script l s)).
Proof.
  intros S Hr Hl. pose proof S as [W Sc C N]. set (s' := set_net _ _).
  assert (Hen : ∀ x, isEnabled (snet s') (inl x) = if decide (x = nm) then b else isEnabled (snet s) (inl x)).
  { intros x. change (snet s') with (Enable (inl nm : EndName) b (snet s)). rewrite isEnabled_Enable.
    repeat case_decide; congruence. }
  assert (Hb : ∀ k j, gone s k → endOfInst s k j nm → b = false).
  { intros k j [_ Hg] He. destruct b; [|done]. exfalso. unfold scriptOk in Sc. rewrite Hl in Sc.
    destruct Sc as [(_ & _ & Ht)|(i & _ & _ & _ & Hp)].
    - destruct (Ht nm) as (i & k' & j' & Hc & He'); [by left|].
      apply (Hg i). by rewrite (w_uniq _ W _ _ _ _ _ He He').
    - inversion Hp as [l0 r Hf _ _ _ Heq| | | | | | |]. destruct l0 as [|a l0]; [done|].
      simplify_eq/=. inversion Hf as [|? ? [nm' ?] _]; simplify_eq. }
  apply (sim_act_stay n s s' c pk); try done.
  - destruct W. split; try done.
    intros k j x Hg He. rewrite Hen. case_decide; subst; [by eapply Hb|by eapply w_dead0].
  - unfold scriptOk in Sc. rewrite Hl in Sc.
    destruct Sc as [(Hf & Hs & Ht)|(i & Hi & Hs & Hc & Hp)]; [left|right].
    + inversion Hf; subst. split_and!; [done| |].
      * intros i Hi. destruct (Hs i Hi). by split.
      * intros x Hx. apply Ht. by right.
    + exists i. split_and!; [done| |done|].
      * intros i' Hi' Hne. destruct (Hs i' Hi' Hne). by split.
      * inversion Hp as [l0 r Hf Hd Hro Hre Heq| | | | | | |]. destruct l0 as [|a l0]; [done|].
        simplify_eq/=. inversion Hf as [|? ? [nm' ?] Hf']; simplify_eq. apply ph_disable; try done.
        intros k j x Hk He. rewrite Hen. case_decide; subst; [by left|].
        destruct (Hd k j x Hk He) as [?|Hin]; [by left|right].
        apply elem_of_cons in Hin as [?|?]; [by simplify_eq|done].
  - by apply (nodes_same s).
Qed.

(** The phase the rest of the script is in, when an action other than [Enable] is next. *)
Lemma script_phase s a l :
  scriptOk s → script s = a :: l → ¬ isEnable a →
  ∃ i, (i < rn s)%nat ∧ (∀ i', (i' < rn s)%nat → i' ≠ i → slotOk s i') ∧
    hconnected (hst s) !! i = Some false ∧ phase s i (a :: l).
Proof.
  intros [(Hf & _)|H] Hl Ha; rewrite Hl in *; [by inversion Hf|done].
Qed.

Lemma act_delete n s c pk i0 l :
  sim s c pk → reachable n c → script s = HDelete i0 :: l →
  simulates n (set_net (DeleteServer (inr i0) (snet s)) (set_script l s)).
Proof.
  intros S Hr Hl. pose proof S as [W Sc C N]. set (s' := set_net _ _).
  destruct (script_phase _ _ _ Sc Hl) as (i & Hi & Hs & Hc & Hp); [by intros []|].
  inversion Hp as [l0 r Hf Hd Hro Hre Heq| | | | | | |]. destruct l0 as [|a l0]; [|
    simplify_eq/=; by inversion Hf as [|? ? [? ?] _]]. simplify_eq/=.
  assert (Hsv : ∀ sn, serverOf (snet s') sn = if decide (sn = inr i0) then None else serverOf (snet s) sn).
  { intros sn. unfold serverOf. simpl. case_decide; subst; [by rewrite lookup_insert_eq|by rewrite lookup_insert_ne]. }
  apply (sim_act_stay n s s' c pk); try done.
  - destruct W. split; try done. intros sn q. rewrite Hsv. case_decide; [done|]. apply w_srv0.
  - right. exists i0. split_and!; [done| |done|].
    + intros i' Hi' Hne. destruct (Hs i' Hi' Hne). by split.
    + apply ph_copy; try done. rewrite Hsv. by rewrite decide_True.
  - by apply (nodes_same s).
Qed.

(** The saved persister of a crashed server is replaced by an equal one. *)
Lemma nodes_saved s s' c i sv :
  simNodes s c → rn s' = rn s → sinsts s' = sinsts s →
  hsaved (hst s') = <[i := Some sv]> (hsaved (hst s)) →
  (∀ nd, nodes c !! i = Some nd → nodeRel s i nd → nodeRel s' i nd) → simNodes s' c.
Proof.
  intros [Hl Hf Hr] Hrn Hi Hsv Hrel. split; [by rewrite Hrn|done|]. intros i1 nd Hnd.
  destruct (decide (i1 = i)) as [->|Hne]; [by apply Hrel; auto|].
  specialize (Hr _ _ Hnd). unfold nodeRel in *. by rewrite Hsv, list_lookup_insert_ne, Hrn, Hi.
Qed.


Lemma mapSaved_inv i f s s' :
  mapSaved i f s = Some s' →
  (hsaved (hst s) !! i = Some None ∧ s' = s) ∨
  ∃ sv ps r, hsaved (hst s) !! i = Some (Some sv) ∧ savedContent s sv = Some (ps, r) ∧
    s' = set_saved i (SHeld (f ps) r) s.
Proof.
  unfold mapSaved. intros (o & Ho & H)%obind_Some. destruct o as [sv|]; [right|left; by simplify_eq].
  apply obind_Some in H as ([ps r] & ? & ?). simplify_eq. by exists sv, ps, r.
Qed.

Lemma set_held_ext s i ps r l :
  (i < length (hsaved (hst s)))%nat → ext s (set_saved i (SHeld ps r) (set_script l s)).
Proof.
  intros Hi. split; try done. intros k [Hk Hg]. split; [done|]. intros i'.
  rewrite current_set_saved by done. case_decide; [done|]. apply (Hg i').
Qed.

(** Saving a persister that no instance has makes the current instance, if
    there is one, an old one; it must be cut off before. *)
Lemma wired_held s i ps r l :
  wired s → (i < rn s)%nat → disabling s i [] → serverOf (snet s) (inr i) = None ∨ current s i = None →
  wired (set_saved i (SHeld ps r) (set_script l s)).
Proof.
  intros W Hi Hd Hs. assert (Hl : (i < length (hsaved (hst s)))%nat) by (by rewrite (w_saved _ W)).
  assert (Hcur : ∀ i' k, current (set_saved i (SHeld ps r) (set_script l s)) i' = Some k ↔
    i' ≠ i ∧ current s i' = Some k).
  { intros i' k. rewrite current_set_saved by done. case_decide; naive_solver. }
  destruct W. split; try done.
  - simpl. by rewrite length_insert.
  - intros i' k [_ ?]%Hcur. by apply w_cur0.
  - intros k j nm [Hlt Hg] He. destruct (decide (current s i = Some k)) as [Hk|Hk].
    + destruct (Hd k j nm Hk He) as [?|Hin]; [done|by inversion Hin].
    + apply (w_dead0 k j); [|done]. split; [done|]. intros i' Hi'. destruct (decide (i' = i)) as [->|Hne]; [done|].
      apply (Hg i'). by apply Hcur.
  - intros sn q Hq. destruct (w_srv0 sn q Hq) as (i' & k & -> & ? & ?). exists i', k.
    split_and!; [done|done|]. apply Hcur. split; [|done]. intros ->.
    change (serverOf (snet s) (inr i) = Some q) in Hq. destruct Hs; congruence.
Qed.

Lemma Copy_id ps : Copy ps = ps.
Proof. by destruct ps. Qed.

(** The persister of the instance is copied: the abstract server restarts. *)
Lemma nodes_restart s c i0 nd0 l :
  simNodes s c → nodes c !! i0 = Some nd0 → fine nd0 → raft_ok (rn s) i0 (rf nd0) →
  (i0 < length (hsaved (hst s)))%nat →
  simNodes (set_saved i0 (SHeld (Copy (persister (rf nd0))) (rounds nd0)) (set_script l s))
    (mkCluster (<[i0 := restart nd0]> (nodes c)) (RaftCluster.net c) (votes c) (elected c)).
Proof.
  intros [Hlc Hfc Hrel] Hn0 [Hap Hsn] Hok Hlen. split.
  - simpl. by rewrite length_insert.
  - apply Forall_insert; [done|]. split; [done|].
    unfold snap, restart. simpl. unfold Make, readPersist. by repeat case_match.
  - intros i1 nd1 [(<- & <- & _)|[Hne Hn1]]%list_lookup_insert_Some; unfold nodeRel; simpl.
    + rewrite list_lookup_insert_eq by done. split; [done|].
      unfold restart. by rewrite (ok_peers _ _ _ Hok), (ok_me _ _ _ Hok).
    + rewrite list_lookup_insert_ne by done. by apply Hrel.
Qed.

Lemma act_copy n s c pk i0 l s' :
  sim s c pk → reachable n c → n = rn s → script s = HCopy i0 :: l →
  mapSaved i0 Copy (set_script l s) = Some s' → simulates n s'.
Proof.
  intros S Hr Hn Hl Hs'. pose proof S as [W Sc C N].
  destruct (script_phase _ _ _ Sc Hl) as (i & Hi & Hs & Hc & Hp); [by intros []|].
  inversion Hp as [l0 r0 Hf _ _ _ Heq|r0 Hd Hsrv Hro Hre Heq| | | | | |];
    [by destruct l0 as [|? l0]; simplify_eq/=; inversion Hf as [|? ? [? ?] _]|]. simplify_eq.
  assert (Hlen : (i0 < length (hsaved (hst s)))%nat) by (by rewrite (w_saved _ W)).
  apply mapSaved_inv in Hs' as [[Hsv ->]|(sv & ps & r & Hsv & Hcont & ->)]; simpl in Hsv.
  - assert (Hcur : current s i0 = None) by (unfold current; by rewrite Hsv).
    apply (sim_act_stay _ s _ c pk); try done.
    + destruct W. by split.
    + right. exists i0. split_and!; [done| |done|].
      * intros i' Hi' Hne. destruct (Hs i' Hi' Hne). by split.
      * apply ph_kill; try done. intros k Hk%Hro. change (current s i0 = Some k) in Hk. congruence.
    + by apply (nodes_same s).
  - set (s' := set_saved _ _ _). pose proof (set_held_ext s i0 (Copy ps) r (HKill i0 :: HClean i0 :: r0) Hlen) as X.
    fold s' in X. assert (W' : wired s') by (apply wired_held; auto).
    assert (Hcur : ∀ i', current s' i' = if decide (i' = i0) then None else current s i').
    { intros i'. subst s'. by rewrite current_set_saved. }
    assert (Sc' : scriptOk s').
    { right. exists i0. split_and!; [done| |done|].
      - intros i' Hi' Hne. eapply (slot_other s); try done; [|by apply Hs]. by rewrite Hcur, decide_False.
      - apply ph_kill; try done; [by rewrite Hcur, decide_True|]. intros k Hk%Hro.
        change (current s i0 = Some k) in Hk.
        assert (Hlt : (k < length (sinsts s))%nat).
        { rewrite <-(w_inst _ W). destruct (w_cur _ W _ _ Hk) as [names ?]. by eapply lookup_lt_Some. }
        split; [done|]. intros i'. rewrite Hcur. case_decide as Hne; [done|]. intros Hi'. apply Hne.
        eapply owner_inj; by apply (w_cur _ W). }
    destruct sv as [k|ps0 r1]; simpl in Hcont.
    + apply bind_Some in Hcont as (nd & Hnd & Hcont). simplify_eq.
      assert (Hk : current s i0 = Some k) by by apply current_saved.
      destruct (current_node s c i0 k W N Hk) as (nd0 & Hn0 & Hk0 & Hfine). change (sinsts s !! k = Some nd) in Hnd.
      rewrite Hnd in Hk0. simplify_eq.
      pose proof (node_raft _ _ _ (cok_nodes _ _ (reachable_ok _ _ Hr) _ _ Hn0)) as Hok.
      set (c' := mkCluster (<[i0 := restart nd0]> (nodes c)) (RaftCluster.net c) (votes c) (elected c)).
      exists c', pk. split.
      { eapply (reachable_step _ c c' (EvRestart i0)); [done|]. simpl. by rewrite Hn0. }
      split; [done|done|by apply (sc_same s s' c c' pk [])|].
      by apply nodes_restart.
    + simplify_eq. apply (sim_act_stay _ s s' c pk); try done.
      eapply nodes_saved; [done..|]. intros nd _. unfold nodeRel. simpl.
      rewrite list_lookup_insert_eq, Hsv by done. by rewrite Copy_id.
Qed.

(** Give up the phases that do not fit the next action. *)
Ltac phase_inv Hp :=
  inversion Hp as [l0 r0 Hf _ _ _ Heq|r0 Hd Hsrv Hro Hre Heq|r0 Hcur Hgone Hre Heq|r0 Hcur Hraft Hre Heq|
    names0 Hcur Hraft Heq|Hcur Hrow Heq|Hcur Hrow Heq|Hro Hno Heq]; simplify_eq/=;
  try (by destruct l0 as [|? l0]; simplify_eq/=; inversion Hf as [|? ? [? ?] _]).

Lemma act_kill n s c pk i0 l s' :
  sim s c pk → reachable n c → n = rn s → script s = HKill i0 :: l →
  hact (HKill i0) (set_script l s) = Some s' → simulates n s'.
Proof.
  intros S Hr Hn Hl Hs'. pose proof S as [W Sc C N].
  destruct (script_phase _ _ _ Sc Hl) as (i & Hi & Hs & Hc & Hp); [by intros []|]. phase_inv Hp.
  apply obind_Some in Hs' as (o & Ho & Hs'). simpl in Ho.
  assert (Hlen : (i0 < length (hrafts (hst s)))%nat) by (by rewrite (w_rafts _ W)).
  destruct o as [k|].
  - apply obind_Some in Hs' as (nd & Hnd & Hs'). simplify_eq. change (sinsts s !! k = Some nd) in Hnd.
    set (s' := set_hst _ _). specialize (Hgone k Ho).
    assert (Hlin : length (sinsts s') = length (sinsts s)) by (unfold sinsts; simpl; apply length_insert).
    assert (X : ext s s').
    { split; try done. intros k' [? Hg]. split; [by rewrite Hlin|exact Hg]. }
    apply (sim_act_stay _ s s' c pk); try done.
    + destruct W. split; try done.
      * simpl. by rewrite length_insert.
      * by rewrite Hlin.
      * intros k' j nm [Hk' Hg]. apply (w_dead0 k'). split; [by rewrite <-Hlin|exact Hg].
    + right. exists i0. split_and!; [done| |done|].
      * intros i' Hi' Hne. eapply (slot_other s); try done; [|by apply Hs]. simpl. by rewrite list_lookup_insert_ne.
      * apply ph_clean; try done. simpl. by apply list_lookup_insert_eq.
    + by eapply (nodes_gone s).
  - simplify_eq. apply (sim_act_stay _ s _ c pk); try done.
    + destruct W. by split.
    + right. exists i0. split_and!; [done| |done|by apply ph_clean].
      intros i' Hi' Hne. destruct (Hs i' Hi' Hne). by split.
    + by apply (nodes_same s).
Qed.

(** What is left after the saved persister is cleaned: nothing, or a start. *)
Lemma rest_script s i l :
  (i < rn s)%nat → (∀ i', (i' < rn s)%nat → i' ≠ i → slotOk s i') → hconnected (hst s) !! i = Some false →
  current s i = None → hrafts (hst s) !! i = Some None → restOk i l → script s = l → scriptOk s.
Proof.
  intros Hi Hs Hc Hcur Hr [->|(names & ->)] Hl; [left|right].
  - rewrite Hl. split_and!; [done| |by intros ? ?%elem_of_nil].
    intros i' Hi'. destruct (decide (i' = i)) as [->|Hne]; [|by apply Hs]. split.
    + intros k. rewrite Hr, Hcur. naive_solver.
    + intros k. by rewrite Hcur.
    + congruence.
  - exists i. rewrite Hl. split_and!; [done|done|done|]. by apply ph_ends.
Qed.

(** A new persister with the same state for a server that is down. *)
Lemma sim_held n s c pk i ps r ps' l :
  sim s c pk → reachable n c → (i < rn s)%nat → current s i = None →
  hsaved (hst s) !! i = Some (Some (SHeld ps r)) → (snapshot ps = [] → ps' = ps) →
  let s' := set_saved i (SHeld ps' r) (set_script l s) in scriptOk s' → simulates n s'.
Proof.
  intros S Hr Hi Hcur Hsv Hps s' Sc'. pose proof S as [W _ C N].
  assert (Hlen : (i < length (hsaved (hst s)))%nat) by (by rewrite (w_saved _ W)).
  apply (sim_act_stay n s s' c pk); try done.
  - by apply set_held_ext.
  - apply wired_held; try done; [|by right]. intros k j nm. by rewrite Hcur.
  - eapply nodes_saved; [done..|]. intros nd _. unfold nodeRel. simpl.
    rewrite list_lookup_insert_eq, Hsv by done. intros [Hsn ->]. by rewrite Hps.
Qed.

Lemma act_clean n s c pk i0 l s' :
  sim s c pk → reachable n c → script s = HClean i0 :: l →
  hact (HClean i0) (set_script l s) = Some s' → simulates n s'.
Proof.
  intros S Hr Hl Hs'. pose proof S as [W Sc C N].
  destruct (script_phase _ _ _ Sc Hl) as (i & Hi & Hs & Hc & Hp); [by intros []|]. phase_inv Hp.
  assert (Hlen : (i0 < length (hsaved (hst s)))%nat) by (by rewrite (w_saved _ W)).
  apply mapSaved_inv in Hs' as [[Hsv ->]|(sv & ps & r & Hsv & Hcont & ->)]; simpl in Hsv.
  - apply (sim_act_stay _ s _ c pk); try done.
    + destruct W. by split.
    + eapply (rest_script _ i0); try done. intros i' Hi' Hne. destruct (Hs i' Hi' Hne). by split.
    + by apply (nodes_same s).
  - destruct sv as [k|ps0 r1]; [apply current_saved in Hsv; congruence|]. simplify_eq/=.
    eapply sim_held; try done.
    + intros Hsn. destruct ps as [rs sn]. simpl in *. by subst.
    + eapply (rest_script _ i0); try done; [|by rewrite current_set_saved, decide_True].
      intros i' Hi' Hne. eapply (slot_other s); try done; [|by apply Hs].
      by rewrite current_set_saved, decide_False.
Qed.

Lemma act_ends n s c pk i0 names l s' :
  sim s c pk → reachable n c → script s = HMakeEnds i0 names :: l →
  hact (HMakeEnds i0 names) (set_script l s) = Some s' → simulates n s'.
Proof.
  intros S Hr Hl Hs'. pose proof S as [W Sc C N].
  destruct (script_phase _ _ _ Sc Hl) as (i & Hi & Hs & Hc & Hp); [by intros []|]. phase_inv Hp.
  case_bool_decide as Hnl; [|done]. simpl in Hnl.
  apply obind_Some in Hs' as (en & [_ ->]%go_update_nat & Hs').
  apply obind_Some in Hs' as (rn' & Hmk%makeEnds_spec & Hs'); [|apply NoDup_seq]. simplify_eq.
  change (snet (set_script _ s)) with (snet s) in Hmk. simpl in Hmk. set (s' := set_hst _ _).
  assert (Hlen : (i0 < length (hendnames (hst s)))%nat) by (by rewrite (w_names _ W)).
  assert (Hold : ∀ k j nm, endOfInst s k j nm →
    isEnabled (snet s') (inl nm) = isEnabled (snet s) (inl nm) ∧
    connectionOf (snet s') (inl nm) = connectionOf (snet s) (inl nm)).
  { intros k j nm He. apply (made_keep (EN := pairNames) inr (rn s) names (snet s) rn' nm); try done. by apply (w_ends _ W k j). }
  apply (sim_act_stay _ s s' c pk); try done.
  - destruct W. split; try done.
    + simpl. by rewrite length_insert.
    + intros k j nm He. destruct (Hold _ _ _ He) as [_ ->]. destruct (w_ends0 _ _ _ He). split; [|done].
      by apply (md_ends _ _ _ _ _ Hmk).
    + intros k j nm Hg He. destruct (Hold _ _ _ He) as [-> _]. by eapply w_dead0.
    + intros sn q. unfold serverOf. change (servers (snet s')) with (servers rn'). rewrite (md_servers _ _ _ _ _ Hmk). apply w_srv0.
  - right. exists i0. split_and!; [done| |done|].
    + intros i' Hi' Hne. eapply (slot_other s); try done; [|by apply Hs]. simpl. by rewrite list_lookup_insert_ne.
    + apply ph_fresh; [done|]. exists names. simpl. rewrite list_lookup_insert_eq by done. split_and!; [done|done|].
      intros j nm Hj. destruct (made_fresh inr (rn s) names (snet s) rn' j nm Hnl Hmk Hj) as (Hnew & ? & _ & ?).
      split_and!; [done|done|]. intros k j' He. apply Hnew. by apply (w_ends _ W k j').
  - by apply (nodes_same s).
Qed.

Lemma newRow_saved s i i' sv l : newRow s i → newRow (set_saved i' sv (set_script l s)) i.
Proof. done. Qed.

Lemma act_fresh n s c pk i0 l s' :
  sim s c pk → reachable n c → script s = HFresh i0 :: l →
  hact (HFresh i0) (set_script l s) = Some s' → simulates n s'.
Proof.
  intros S Hr Hl Hs'. pose proof S as [W Sc C N].
  destruct (script_phase _ _ _ Sc Hl) as (i & Hi & Hs & Hc & Hp); [by intros []|]. phase_inv Hp.
  assert (Hlen : (i0 < length (hsaved (hst s)))%nat) by (by rewrite (w_saved _ W)).
  assert (Hsc : ∀ ps r, scriptOk (set_saved i0 (SHeld ps r) (set_script [HMake i0; HServe i0] s))).
  { intros ps r. right. exists i0. split_and!; [done| |done|].
    - intros i' Hi' Hne. eapply (slot_other s); try done; [|by apply Hs]. by rewrite current_set_saved, decide_False.
    - apply ph_make; [by rewrite current_set_saved, decide_True|by apply newRow_saved]. }
  apply obind_Some in Hs' as (o & Ho & Hs'). simpl in Ho. destruct o as [sv|].
  - apply obind_Some in Hs' as ([ps r] & Hcont & Hs'). simplify_eq.
    destruct sv as [k|ps0 r1]; [apply current_saved in Ho; congruence|]. simplify_eq/=.
    eapply sim_held; try done. intros _. apply Copy_id.
  - simplify_eq. apply (sim_act_stay _ s _ c pk); try done.
    + by apply set_held_ext.
    + apply wired_held; try done; [|by right]. intros k j nm. by rewrite Hcur.
    + eapply nodes_saved; [done..|]. intros nd _. unfold nodeRel. simpl. by rewrite list_lookup_insert_eq, Ho.
Qed.

(** The state with a new instance of server [i]. *)
Definition madeInst s i ps r names l : RSys Cmd :=
  let k := length (sinsts s) in
  let nd := mkNode (Make (rn s) (Z.of_nat i) ps) (FollowerWait 1) r [] in
  mkRSys (rn s) (sys_world (mkWorld (sinsts s ++ [nd]) (died (swld s))) (sys s))
    (iends s ++ [(i, names)]) (callers s)
    (set_hrafts (<[i := Some k]> (hrafts (hst s))) (set_hsaved (<[i := Some (SOwn k)]> (hsaved (hst s))) (hst s))) l.

Lemma make_inv i l s s' :
  hact (HMake i) (set_script l s) = Some s' →
  ∃ sv ps r names, hsaved (hst s) !! i = Some (Some sv) ∧ savedContent s sv = Some (ps, r) ∧
    hendnames (hst s) !! i = Some (Some names) ∧ s' = madeInst s i ps r names l.
Proof.
  simpl. intros (o & Ho & H)%obind_Some. apply obind_Some in H as (sv & -> & H).
  apply obind_Some in H as ([ps r] & Hc & H). apply obind_Some in H as (row & Hrow & H).
  apply obind_Some in H as (names & -> & H). simplify_eq. by exists sv, ps, r, names.
Qed.

Lemma madeInst_length s i ps r names l :
  length (sinsts (madeInst s i ps r names l)) = S (length (sinsts s)).
Proof. unfold madeInst, sinsts at 1. simpl. rewrite length_app. simpl. lia. Qed.

Lemma madeInst_end s i ps r names l k j nm :
  length (iends s) = length (sinsts s) →
  endOfInst (madeInst s i ps r names l) k j nm ↔
  endOfInst s k j nm ∨ (k = length (sinsts s) ∧ names !! j = Some nm).
Proof.
  intros Hl. unfold endOfInst. simpl. split.
  - intros (i' & ns & [?|[Hge [? Heq]%list_lookup_singleton_Some]]%lookup_app_Some & ?); [left; eauto|].
    simplify_eq. right. split; [lia|done].
  - intros [(i' & ns & ? & ?)|[-> ?]]; [exists i', ns|exists i, names]; (split; [|done]).
    + by apply lookup_app_l_Some.
    + rewrite <-Hl. by apply list_lookup_middle.
Qed.

Lemma madeInst_current s i ps r names l i' :
  (i < length (hsaved (hst s)))%nat →
  current (madeInst s i ps r names l) i' =
    if decide (i' = i) then Some (length (sinsts s)) else current s i'.
Proof.
  intros Hi. unfold current. simpl. case_decide; subst; [by rewrite list_lookup_insert_eq|].
  by rewrite list_lookup_insert_ne.
Qed.

Lemma madeInst_wired s i ps r names l :
  wired s → (i < rn s)%nat → current s i = None → newRow s i →
  hendnames (hst s) !! i = Some (Some names) →
  wired (madeInst s i ps r names l) ∧ ext s (madeInst s i ps r names l).
Proof.
  intros W Hi Hcur (names' & Hn' & Hlen & Hrow) Hn. rewrite Hn in Hn'. simplify_eq.
  pose proof (w_inst _ W) as Hl. assert (Hls : (i < length (hsaved (hst s)))%nat) by (by rewrite (w_saved _ W)).
  assert (Hc : ∀ i' k, current s i' = Some k → current (madeInst s i ps r names' l) i' = Some k).
  { intros i' k Hk. rewrite madeInst_current by done. case_decide; [congruence|done]. }
  assert (Hlt : ∀ i' k, current s i' = Some k → (k < length (sinsts s))%nat).
  { intros i' k Hk. rewrite <-Hl. destruct (w_cur _ W _ _ Hk) as [? ?]. by eapply lookup_lt_Some. }
  destruct W. split.
  - split; try done; try (simpl; by rewrite length_insert).
    + rewrite madeInst_length. simpl. rewrite length_app. simpl. lia.
    + intros k i' ns [?|[_ [_ ?]%list_lookup_singleton_Some]]%lookup_app_Some; [by eapply w_row0|by simplify_eq].
    + intros i' k. rewrite madeInst_current by done. case_decide; [intros [= <-]; subst|intros [ns Hk]%w_cur0].
      * exists names'. simpl. rewrite <-Hl. by apply list_lookup_middle.
      * exists ns. simpl. by apply lookup_app_l_Some.
    + intros k j nm [He|[-> Hj]]%madeInst_end; [by eapply w_ends0| |done]. by destruct (Hrow j nm Hj) as (? & ? & _).
    + intros k k' j j' nm [He|[-> Hj]]%madeInst_end [He'|[-> Hj']]%madeInst_end; try done.
      * by eapply w_uniq0.
      * by destruct (Hrow _ _ Hj') as (_ & _ & []%(λ H, H k j)).
      * by destruct (Hrow _ _ Hj) as (_ & _ & []%(λ H, H k' j')).
    + intros k j nm [Hk Hg] [He|[-> _]]%madeInst_end; [|by destruct (Hg i); rewrite madeInst_current, decide_True|done].
      apply (w_dead0 k j); [|done]. split.
      * destruct He as (? & ? & Hx & _). rewrite <-Hl. by eapply lookup_lt_Some.
      * intros i' Hi'. apply (Hg i'). by apply Hc.
    + intros sn q Hq. destruct (w_srv0 sn q Hq) as (i' & k & -> & ? & ?). exists i', k. split_and!; auto.
  - split; try done.
    + intros k e ?. simpl. by apply lookup_app_l_Some.
    + intros k [Hk Hg]. split.
      * rewrite madeInst_length. lia.
      * intros i'. rewrite madeInst_current by done. case_decide; [|apply Hg]. intros [= <-]. lia.
Qed.

Lemma act_make n s c pk i0 l s' :
  sim s c pk → reachable n c → script s = HMake i0 :: l →
  hact (HMake i0) (set_script l s) = Some s' → simulates n s'.
Proof.
  intros S Hr Hl (sv & ps & r & names & Hsv & Hcont & Hen & ->)%make_inv. pose proof S as [W Sc C N].
  destruct (script_phase _ _ _ Sc Hl) as (i & Hi & Hs & Hc & Hp); [by intros []|]. phase_inv Hp.
  assert (Hlen : (i0 < length (hsaved (hst s)))%nat) by (by rewrite (w_saved _ W)).
  destruct sv as [k|ps0 r1]; [apply current_saved in Hsv; congruence|]. simplify_eq/=.
  destruct (madeInst_wired s i0 ps r names [HServe i0] W Hi Hcur Hrow Hen) as [W' X].
  apply (sim_act_stay _ s _ c pk); try done.
  - right. exists i0. split_and!; [done| |done|].
    + intros i' Hi' Hne. eapply (slot_other s); try done; [| |apply X|by apply Hs].
      * by rewrite madeInst_current, decide_False.
      * simpl. by rewrite list_lookup_insert_ne.
    + apply ph_serve.
      * intros k. rewrite madeInst_current, decide_True by done. simpl.
        rewrite list_lookup_insert_eq by (by rewrite (w_rafts _ W)). naive_solver.
      * intros k. rewrite madeInst_current, decide_True by done. intros [= <-]. exists names. split; [done|].
        simpl. rewrite <-(w_inst _ W). by apply list_lookup_middle.
  - destruct N as [Hlc Hf Hrel]. split; [done|done|]. intros i' nd Hnd. specialize (Hrel _ _ Hnd).
    unfold nodeRel in *. simpl. destruct (decide (i' = i0)) as [->|Hne].
    + rewrite list_lookup_insert_eq by done. rewrite Hsv in Hrel. destruct Hrel as [_ ->].
      unfold sinsts. simpl. by apply list_lookup_middle.
    + rewrite list_lookup_insert_ne by done. destruct (hsaved (hst s) !! i') as [[[k|? ?]|]|]; try done.
      unfold sinsts. simpl. by apply lookup_app_l_Some.
Qed.

Lemma act_serve n s c pk i0 l s' :
  sim s c pk → reachable n c → script s = HServe i0 :: l →
  hact (HServe i0) (set_script l s) = Some s' → simulates n s'.
Proof.
  intros S Hr Hl Hs'. pose proof S as [W Sc C N].
  destruct (script_phase _ _ _ Sc Hl) as (i & Hi & Hs & Hc & Hp); [by intros []|]. phase_inv Hp.
  apply obind_Some in Hs' as (o & Ho & Hs'). apply obind_Some in Hs' as (k & -> & Hs'). simplify_eq.
  apply Hro in Ho as Hcur. set (s' := set_sys _ _).
  assert (Hhost : ∀ q k1, host s q k1 → host s' q k1).
  { intros q k1 (srv & ? & ?). exists srv. split; [|done]. simpl. by apply lookup_app_l_Some. }
  assert (Hnew : host s' (length (heap (sys s))) k).
  { eexists. split; [by apply list_lookup_middle|]. simpl. done. }
  assert (X : ext s s') by (by split).
  apply (sim_act_stay _ s s' c pk); try done.
  - destruct W. split; try done.
    + intros sn q. unfold serverOf. simpl. destruct (decide (sn = inr i0)) as [->|Hne].
      * rewrite lookup_insert_eq. simpl. intros [= <-]. exists i0, k. by split_and!.
      * rewrite lookup_insert_ne by done. intros (i' & k' & ? & ? & ?)%w_srv0. exists i', k'. split_and!; auto.
    + intros q srv [Hq|[Hge [Hq _]%list_lookup_singleton_Some]]%lookup_app_Some.
      * destruct (w_heap0 _ _ Hq) as (k' & ?). eauto.
      * exists k. replace q with (length (heap (sys s))); [done|]. simpl in Hge, Hq. lia.
  - left. split_and!; [done| |by intros ? ?%elem_of_nil]. intros i' Hi'.
    destruct (decide (i' = i0)) as [->|Hne].
    + split; [done|done|]. change (hconnected (hst s) !! i0 = Some true → ∃ k, current s' i0 = Some k). congruence.
    + destruct (Hs i' Hi' Hne). by split.
  - by apply (nodes_same s).
Qed.

(** ** Beginning an operation *)

Lemma enableActs_spec js f b l :
  enableActs js f b = Some l →
  Forall (λ a, ∃ nm, a = HEnable nm b) l ∧
  ∀ nm, HEnable nm b ∈ l ↔ selected js f nm.
Proof.
  unfold selected. revert l. induction js as [|j js IH]; intros l; simpl.
  { intros [= <-]. split; [done|]. intros nm. split; [by intros ?%elem_of_nil|].
    intros (j & ?%elem_of_nil & _). done. }
  intros (o & Hj & (l' & (Hf & Hin)%IH & [= <-])%obind_Some)%obind_Some.
  assert (Hsel : ∀ nm, (∃ j', j' ∈ j :: js ∧ f j' = Some (Some nm)) ↔
    o = Some nm ∨ ∃ j', j' ∈ js ∧ f j' = Some (Some nm)).
  { intros nm. split.
    - intros (j' & [->|?]%elem_of_cons & Hf'); [left; congruence|right; eauto].
    - intros [->|(j' & ? & ?)]; [exists j|exists j']; (split; [|done]); [by left|by right]. }
  destruct o as [nm0|].
  - split; [constructor; eauto|]. intros nm. rewrite Hsel, elem_of_cons, Hin. naive_solver.
  - split; [done|]. intros nm. rewrite Hsel, Hin. naive_solver.
Qed.

Lemma idle_slots s : scriptOk s → script s = [] → ∀ i, (i < rn s)%nat → slotOk s i.
Proof.
  intros [(_ & Hs & _)|(i & _ & _ & _ & Hp)] Hl; [done|]. rewrite Hl in Hp.
  inversion Hp as [l0 ? ? ? ? ? Heq| | | | | | |]. by destruct l0.
Qed.

(** The state in which the operation begins. *)
Definition begun s (conn : list bool) (l : list HAct) : RSys Cmd :=
  set_script l (set_hst (set_hconnected conn (hst s)) s).

Lemma begin_inv s i b acts s' :
  begin_ s i b acts = Some s' →
  ∃ l, (i < length (hconnected (hst s)))%nat ∧ acts (<[i := b]> (hconnected (hst s))) = Some l ∧
    s' = begun s (<[i := b]> (hconnected (hst s))) l.
Proof.
  unfold begin_. intros (conn & [? ->]%go_update_nat & (l & ? & [= <-])%obind_Some)%obind_Some. by exists l.
Qed.

Lemma sim_begun n s c pk conn l :
  sim s c pk → reachable n c → length conn = rn s → scriptOk (begun s conn l) → simulates n (begun s conn l).
Proof.
  intros S Hr Hl Sc. pose proof S as [W _ C N]. apply (sim_act_stay n s _ c pk); try done.
  - destruct W. by split.
  - by apply (nodes_same s).
Qed.

(** A server's slots do not depend on the links, and a new link needs an instance. *)
Lemma slot_begun s i b l i' :
  slotOk s i' → (i' = i → b = true → ∃ k, current s i = Some k) →
  slotOk (begun s (<[i := b]> (hconnected (hst s))) l) i'.
Proof.
  intros [H1 H2 H3] Hb. split; [done|done|]. simpl.
  intros [(<- & Hx & _)|[_ ?]]%list_lookup_insert_Some; [by apply Hb|by apply H3].
Qed.

Lemma op_connect n s c pk i s' :
  sim s c pk → reachable n c → script s = [] → hop (HoConnect i) s = Some s' → simulates n s'.
Proof.
  intros S Hr Hnil Hop. pose proof S as [W Sc C N]. pose proof (idle_slots _ Sc Hnil) as Hslots.
  apply obind_Some in Hop as (o & Ho & (k & -> & Hop)%obind_Some).
  apply begin_inv in Hop as (l & Hi & Hl & ->). rewrite (w_conn _ W) in Hi.
  apply (sim_begun n s c pk); try done; [by rewrite length_insert, (w_conn _ W)|].
  set (conn := <[i := true]> (hconnected (hst s))) in *.
  apply obind_Some in Hl as (l1 & [Hf1 Hin1]%enableActs_spec & Hl).
  apply obind_Some in Hl as (l2 & [Hf2 Hin2]%enableActs_spec & [= <-]).
  assert (Hcur : ∀ j, conn !! j = Some true → ∃ k, current s j = Some k).
  { intros j [(<- & _ & _)|[_ Hj]]%list_lookup_insert_Some.
    - exists k. by apply (sl_rafts _ _ (Hslots i Hi)).
    - eapply sl_conn; [|done]. apply Hslots. rewrite <-(w_conn _ W). by eapply lookup_lt_Some. }
  assert (Hend : ∀ a b nm, (∃ k, current s a = Some k) → endnameOf (hendnames (hst s)) a b = Some nm →
    ∃ i k j, current s i = Some k ∧ endOfInst s k j nm).
  { intros a b nm [k' Hk'] (names & Hrow & Hnm)%endnameOf_Some. exists a, k', b. split; [done|].
    assert (Ha : (a < rn s)%nat) by (rewrite <-(w_names _ W); by eapply lookup_lt_Some).
    destruct (sl_names _ _ (Hslots a Ha) _ Hk') as (names' & Hrow' & ?). simplify_eq. by exists a, names. }
  left. split_and!.
  - apply Forall_app. split; (eapply Forall_impl; [done|]); by intros ? [nm ->].
  - intros i' Hi'. apply slot_begun; [by apply Hslots|]. intros -> _. apply Hcur.
    apply list_lookup_insert_eq. by rewrite (w_conn _ W).
  - intros nm [Hx|Hx]%elem_of_app.
    + apply Hin1 in Hx as (j & _ & Hj). apply obind_Some in Hj as ([] & Hj & Hx); [|done].
      apply obind_Some in Hx as (? & Hx & [= ->]). eapply (Hend i j); [|done].
      apply Hcur, list_lookup_insert_eq. by rewrite (w_conn _ W).
    + apply Hin2 in Hx as (j & _ & Hj). apply obind_Some in Hj as ([] & Hj & Hx); [|done].
      apply obind_Some in Hx as (? & Hx & [= ->]). eapply (Hend j i); [|done]. by apply Hcur.
Qed.

(** [disconnect] disables every end of the server's instance. *)
Lemma disconnectActs_spec s i l :
  wired s → namesOk s i → disconnectActs s i = Some l →
  Forall (λ a, ∃ nm, a = HEnable nm false) l ∧
  ∀ k j nm, current s i = Some k → endOfInst s k j nm → HEnable nm false ∈ l.
Proof.
  intros W Hn Hl. apply obind_Some in Hl as (ei & Hei & Hl).
  apply obind_Some in Hl as (l1 & [Hf1 Hin1]%enableActs_spec & Hl).
  apply obind_Some in Hl as (l2 & [Hf2 Hin2]%enableActs_spec & [= <-]).
  split; [by apply Forall_app|]. intros k j nm Hk (i' & names & Hrow & Hnm).
  apply elem_of_app. left. apply Hin1. destruct (Hn k Hk) as (names' & Hen & Hrow'). simplify_eq.
  exists j. split.
  - apply elem_of_seq. apply lookup_lt_Some in Hnm. rewrite (w_row _ W _ _ _ Hrow) in Hnm. lia.
  - simpl. by rewrite Hnm.
Qed.

(** Disconnecting, crashing and starting: the links go, then come the rest. *)
Lemma op_down n s c pk i l r :
  sim s c pk → reachable n c → script s = [] → (i < rn s)%nat → disconnectActs s i = Some l →
  r = [] ∨ (∃ r', r = HDelete i :: HCopy i :: HKill i :: HClean i :: r' ∧ restOk i r') →
  simulates n (begun s (<[i := false]> (hconnected (hst s))) (l ++ r)).
Proof.
  intros S Hr Hnil Hi Hl Hrest. pose proof S as [W Sc C N]. pose proof (idle_slots _ Sc Hnil) as Hslots.
  destruct (disconnectActs_spec s i l W (sl_names _ _ (Hslots i Hi)) Hl) as [Hf Hdis].
  assert (Hslot : ∀ i', (i' < rn s)%nat → slotOk (begun s (<[i := false]> (hconnected (hst s))) (l ++ r)) i').
  { intros i' Hi'. apply slot_begun; [by apply Hslots|done]. }
  apply (sim_begun n s c pk); try done; [by rewrite length_insert, (w_conn _ W)|].
  destruct Hrest as [->|(r' & -> & Hr')]; [left|right].
  - rewrite app_nil_r in *. split_and!; [|done|].
    + eapply Forall_impl; [exact Hf|]. by intros ? [nm ->].
    + intros nm Hin. simpl in Hin. rewrite Forall_forall in Hf. by destruct (Hf _ Hin).
  - exists i. split_and!; [done|by auto| |].
    + simpl. apply list_lookup_insert_eq. by rewrite (w_conn _ W).
    + apply ph_disable; try done.
      * intros k j nm Hk He. right. by eapply Hdis.
      * apply (sl_rafts _ _ (Hslot i Hi)).
Qed.

Lemma sim_op n s c pk o s' :
  sim s c pk → reachable n c → script s = [] → hop o s = Some s' → simulates n s'.
Proof.
  intros S Hr Hnil Hop. pose proof S as [W Sc C N].
  assert (Hflag : ∀ rn', enabled rn' = enabled (snet s) → servers rn' = servers (snet s) →
    connections rn' = connections (snet s) → ends rn' = ends (snet s) → simulates n (set_net rn' s)).
  { intros rn' ? ? ? ?. assert (F : frame s (set_net rn' s)) by (by split).
    apply (sim_act_stay n s _ c pk); try done; [by eapply frame_wired|by eapply frame_script|].
    by apply (nodes_same s). }
  destruct o as [i|i|i|i names|b|b|b|]; simpl in Hop; simplify_eq; try (by apply Hflag).
  - by eapply op_connect.
  - apply begin_inv in Hop as (l & Hi & Hl & ->). rewrite (w_conn _ W) in Hi.
    rewrite <-(app_nil_r l). eapply op_down; try done. by left.
  - apply begin_inv in Hop as (l & Hi & Hl & ->). rewrite (w_conn _ W) in Hi.
    apply obind_Some in Hl as (l0 & Hl & [= <-]). eapply op_down; try done. right.
    eexists. split; [done|]. by left.
  - apply begin_inv in Hop as (l & Hi & Hl & ->). rewrite (w_conn _ W) in Hi.
    apply obind_Some in Hl as (l1 & Hl & [= <-]). apply obind_Some in Hl as (l0 & Hl & [= <-]).
    rewrite <-(assoc_L (++)). eapply op_down; try done. right.
    eexists. split; [done|]. right. by exists names.
  - unfold Cleanup in Hop. apply obind_Some in Hop as (rn' & Hc & [= <-]).
    case_match; simplify_eq. by apply Hflag.
Qed.

(** ** The simulation *)

Lemma sim_step n s c pk e s' :
  sim s c pk → reachable n c → n = rn s → rstep s e = Some s' → died (swld s') = false → simulates n s'.
Proof.
  intros S Hr Hn Hs Hd. unfold rstep in Hs. case_match; [|done].
  destruct e as [k e|m|m|e|m|m|o|].
  - apply obind_Some in Hs as (nd & Hk & Hs). unfold stepInst in Hs.
    destruct (nodeStep nd e) as [| |nd' out] eqn:Hstep; simplify_eq. by eapply sim_local.
  - apply obind_Some in Hs as (cl & Hm & Hs). destruct (cState cl) eqn:Hst; try done.
    apply obind_Some in Hs as ([[[dst meth] a] ty] & Hp & Hs).
    apply obind_Some in Hs as ([i names] & Hi & Hs). apply obind_Some in Hs as (nm & Hnm & Hs).
    apply obind_Some in Hs as (y & Hy & [= <-]). by eapply sim_call.
  - apply obind_Some in Hs as (cl & Hm & Hs). destruct (cState cl) eqn:Hst; try done.
    case_match; simplify_eq. by eapply sim_abort.
  - case_match; [|done]. apply obind_Some in Hs as (y & Hy & [= <-]).
    destruct e; try (by eapply sim_net). by eapply sim_handle.
  - apply obind_Some in Hs as (cl & Hm & Hs). destruct (cState cl) eqn:Hst; try done.
    apply obind_Some in Hs as (t & Hk & Hs). destruct (pc t) eqn:Hpc; try done.
    destruct (callOf (cReq cl)) as [[[[dst meth] a] ty]|] eqn:Hp; [|done].
    destruct (callReturn (zero ty) r) as [[[] v]|] eqn:Hret; simplify_eq.
    + by eapply (sim_return _ s c pk m cl k t r dst meth a ty true v).
    + by eapply (sim_return _ s c pk m cl k t r dst meth a ty false v).
  - apply obind_Some in Hs as (cl & Hm & Hs). destruct (cState cl) eqn:Hst; try done.
    apply obind_Some in Hs as (rep & Hrep & Hs). apply obind_Some in Hs as (nd & Hnd & Hs).
    apply obind_Some in Hs as (s1 & Hs1 & [= <-]). unfold stepInst in Hs1.
    destruct (arrive nd rep) as [| |nd' out] eqn:Harr; simplify_eq. by eapply sim_reply.
  - case_bool_decide as Hnil; [|done]. apply length_zero_iff_nil in Hnil. by eapply sim_op.
  - destruct (script s) as [|a l] eqn:Hl; [done|]. destruct a; simpl in Hs.
    + simplify_eq. by apply (act_enable _ s c pk).
    + simplify_eq. by apply (act_delete _ s c pk).
    + by eapply act_copy.
    + by eapply act_kill.
    + by eapply act_clean.
    + by eapply act_ends.
    + by eapply act_fresh.
    + by eapply act_make.
    + by eapply act_serve.
Qed.

End Sim.
