(* ===== verification/RaftNetTheorems.v ===== *)
(** * What holds of Raft over labrpc

    The results of the simulation of [RaftNetSim]: the composition refines the
    abstract cluster, so that Raft's theorems hold of the instances a server currently runs, in
    spite of the old instances that a crash leaves behind. *)

From S2P Require Import Prelude Persister Raft RaftInv RaftOps RaftCluster RaftSafety RaftElection.
From S2P Require Import Labrpc Harness RaftConfig RaftNet RaftNetSim.

Section Theorems.
Context {Cmd : Type} `{!Gob (Z * Z * list (LogEntry Cmd))} `{!RaftWire Cmd}.
Implicit Types (s : RSys Cmd) (nd : Node Cmd) (c : Cluster Cmd) (p : Packet Cmd).

(** ** Every reachable state is simulated *)

Lemma sim_init n b : ∃ c pk, reachable n c ∧ sim (initRSys (Cmd := Cmd) n b) c pk.
Proof.
  exists (initCluster n), []. split; [apply reachable_init|].
  assert (Hcur : ∀ i, current (initRSys (Cmd := Cmd) n b) i = None).
  { intros i. unfold current. simpl. destruct (replicate n None !! i) as [o|] eqn:Hi; [|done].
    by apply lookup_replicate in Hi as [-> _]. }
  assert (Hno : ∀ k j nm, ¬ endOfInst (initRSys (Cmd := Cmd) n b) k j nm) by (by intros k j nm (i & ns & ? & _)).
  split.
  - split; simpl; rewrite ?length_replicate; try done; intros *; rewrite ?Hcur; try done; by intros ?%Hno.
  - left. split_and!; [done| |by intros ? ?%elem_of_nil]. intros i Hi. split.
    + intros k. rewrite Hcur. simpl. rewrite lookup_replicate_2 by done. naive_solver.
    + intros k. by rewrite Hcur.
    + simpl. by rewrite lookup_replicate_2.
  - split; simpl; try done. by exists [].
  - split.
    + simpl. by rewrite length_fmap, length_seq.
    + apply Forall_fmap, Forall_forall. intros i _. split; [done|].
      unfold snap. simpl. unfold Make, readPersist. by repeat case_match.
    + intros i nd. simpl. rewrite list_lookup_fmap, fmap_Some. intros (j & [-> Hj]%lookup_seq & ->).
      unfold nodeRel. simpl. by rewrite lookup_replicate_2.
Qed.

Lemma rstep_died s e s' : rstep s e = Some s' → died (swld s) = false.
Proof. unfold rstep. by destruct (died (swld s)). Qed.

Lemma sim_reachable n s :
  rreachable n s → died (swld s) = false → rn s = n ∧ ∃ c pk, reachable n c ∧ sim s c pk.
Proof.
  induction 1 as [b|s e s' Hr IH Hs]; intros Hd; [split; [done|apply sim_init]|].
  destruct IH as (Hn & c & pk & Hc & S); [by eapply rstep_died|].
  destruct (sim_step n s c pk e s' S Hc (eq_sym Hn) Hs Hd) as (c' & pk' & Hc' & S').
  split; [|by exists c', pk']. pose proof (sn_len _ _ (sim_nodes _ _ _ S')) as Hl.
  rewrite <-Hl. apply (cok_length n c'). by apply reachable_ok.
Qed.

(** ** A majority is counted by one server per term *)

Definition won_ok c : Prop :=
  ∀ i nd args, nodes c !! i = Some nd → rt nd = CandWon args → (rv_Term args, i) ∈ elected c.

Lemma enter_not_won nd rf0 nd' out args : enter nd rf0 = Next nd' out → rt nd' ≠ CandWon args.
Proof.
  unfold enter, runLeader, runCandidate, runFollower, orPanic. intros.
  repeat (case_decide || case_match); by simplify_eq.
Qed.

Lemma nodeStep_won nd e nd' out args i :
  nodeStep nd e = Next nd' out → rt nd' = CandWon args →
  rt nd = CandWon args ∨ (rv_Term args, i) ∈ winsOf i out.
Proof.
  intros H Hw. destruct e; simpl in H; try done.
  - unfold lockStep in H. destruct (rt nd) eqn:Hrt; try done;
      try (by apply (enter_not_won _ _ _ _ args) in H).
    + unfold runCandidate, orPanic in H. repeat case_match; by simplify_eq.
    + unfold candidateReply in H. case_decide; [by apply (enter_not_won _ _ _ _ args) in H|].
      repeat case_match; simplify_eq/=; try done. right. by left.
    + unfold runRound, orPanic in H. case_match; by simplify_eq.
    + unfold orPanic in H. destruct (args0 !! peer ≫= _) as [[rf1 []]|]; simplify_eq/=.
      by apply (enter_not_won _ _ _ _ args) in H.
  - unfold timerStep, goto in H. repeat (case_match || case_decide); by simplify_eq.
  - unfold resetStep, goto in H. repeat case_match; by simplify_eq.
  - unfold toFollowerStep, goto in H. repeat case_match; by simplify_eq.
  - unfold terminateStep, goto in H. repeat case_match; by simplify_eq.
  - unfold applySend in H. repeat case_match; simplify_eq. by left.
  - unfold orPanic in H. repeat case_match; simplify_eq. by left.
  - simplify_eq. by left.
Qed.

Lemma arrive_won nd p nd' out args :
  arrive nd p = Next nd' out → rt nd' = CandWon args → rt nd = CandWon args.
Proof.
  destruct p; simpl; unfold serveVote, serveAppend, voteReplyStep, appendReplyStep, goto, orPanic;
    intros; repeat (case_match || case_decide); by simplify_eq.
Qed.

Lemma reachable_won n c : reachable n c → won_ok c.
Proof.
  induction 1 as [|c c' e Hr IH Hs].
  { intros i nd args. simpl. rewrite list_lookup_fmap, fmap_Some. by intros (j & _ & ->). }
  destruct (cstep_step_of _ _ _ Hs) as [i nd nd' out net' Hi -> Hcase|i nd net' Hi _ ->|i nd Hi ->|k ->].
  - intros i1 nd1 args [(<- & <- & _)|[Hne H1]]%list_lookup_insert_Some Hw; apply elem_of_app.
    + destruct Hcase as [[_ [e' Hn]]|(k & p & _ & _ & _ & Ha)].
      * destruct (nodeStep_won _ _ _ _ _ i Hn Hw); [right; by eapply IH|by left].
      * right. eapply IH; [done|]. by eapply arrive_won.
    + right. by eapply IH.
  - intros i1 nd1 args [(<- & <- & _)|[Hne H1]]%list_lookup_insert_Some Hw; [done|by eapply IH].
  - intros i1 nd1 args [(<- & <- & _)|[Hne H1]]%list_lookup_insert_Some Hw; [done|by eapply IH].
  - exact IH.
Qed.

Lemma host_intro n s q k :
  rreachable n s → died (swld s) = false →
  (heap (sys s) !! q ≫= λ srv, rcvr <$> services srv !! "Raft") = Some k → host s q k.
Proof.
  intros Hr Hd (srv & Hq & Hs)%bind_Some. destruct (sim_reachable n s Hr Hd) as (_ & c & pk & _ & [W _ _ _]).
  destruct (w_heap _ W _ _ Hq) as (k' & srv' & Hq' & Hsrv). simplify_eq.
  rewrite Hsrv, lookup_singleton_eq in Hs. simplify_eq/=. by exists srv.
Qed.

Lemma sim_in_net s c pk m p : simCallers s c pk → pk !! m = Some (Some p) → p ∈ RaftCluster.net c.
Proof.
  intros C Ho. destruct (sc_net _ _ _ C) as [rest ->]. apply elem_of_app. left.
  apply list_elem_of_omap. exists (Some p). split; [by eapply list_elem_of_lookup_2|done].
Qed.

(** ** Properties *)

(** C1: Raft on labrpc under its test harness refines the abstract cluster: as long as
    the process lives, whatever the network does and however servers are connected,
    disconnected, crashed and restarted in the middle of calls, there is a reachable cluster
    state whose nodes are the current instances of the servers that run and the states
    saved for those that are down, and every reply a routine can still read is a packet in
    that cluster's network. Old instances have no part in it. The harness is assumed to connect only
    servers that run, as the tests do: connect itself does not check it. *)
Theorem raft_network_refines n s :
  rreachable n s → died (swld s) = false →
  ∃ c, reachable n c ∧
    (∀ i k, current s i = Some k → ∃ nd, sinsts s !! k = Some nd ∧ nodes c !! i = Some nd) ∧
    (∀ i ps r, hsaved (hst s) !! i = Some (Some (SHeld ps r)) →
       nodes c !! i = Some (mkNode (Make n (Z.of_nat i) ps) (FollowerWait 1) r [])) ∧
    (∀ m cl k v, callers s !! m = Some cl → cState cl = COffers k v →
       ∃ p, replyOf (cReq cl) v = Some p ∧ p ∈ RaftCluster.net c).
Proof.
  intros Hr Hd. destruct (sim_reachable n s Hr Hd) as (Hn & c & pk & Hc & [W Sc C N]).
  exists c. split_and!; [done|..].
  - intros i k Hk. destruct (current_node s c i k W N Hk) as (nd & ? & ? & _). eauto.
  - intros i ps r Hsv. destruct (lookup_lt_is_Some_2 (nodes c) i) as [nd Hnd].
    { rewrite (sn_len _ _ N), <-(w_saved _ W). by eapply lookup_lt_Some. }
    pose proof (sn_rel _ _ N _ _ Hnd) as Hrel. unfold nodeRel in Hrel. rewrite Hsv, Hn in Hrel.
    by destruct Hrel as [_ <-].
  - intros m cl k v Hm Hst. destruct (get_packet _ _ _ _ _ C Hm) as (o & Ho & Hok).
    unfold callerOk in Hok. rewrite Hst in Hok. destruct o as [p|]; [|done]. destruct Hok as [Hp _].
    exists p. split; [done|]. by eapply sim_in_net.
Qed.

(** C10: Over the network, two servers never both run an instance that has just counted a
    majority of votes for the same term. *)
Theorem network_election_safety n s i j k k' nd nd' args args' :
  rreachable n s → died (swld s) = false →
  current s i = Some k → sinsts s !! k = Some nd → rt nd = CandWon args →
  current s j = Some k' → sinsts s !! k' = Some nd' → rt nd' = CandWon args' →
  rv_Term args = rv_Term args' → i = j.
Proof.
  intros Hr Hd Hi Hk Hw Hj Hk' Hw' Ht.
  destruct (sim_reachable n s Hr Hd) as (Hn & c & pk & Hc & [W Sc C N]).
  destruct (current_node s c i k W N Hi) as (nd0 & Hci & Hk0 & _).
  destruct (current_node s c j k' W N Hj) as (nd1 & Hcj & Hk1 & _). simplify_eq.
  pose proof (reachable_won _ _ Hc _ _ _ Hci Hw) as He. pose proof (reachable_won _ _ Hc _ _ _ Hcj Hw') as He'.
  rewrite <-Ht in He'. pose proof (reachable_election _ c Hc) as Hel.
  destruct (quorum_meet (rn s) (votes c) (rv_Term args) i j) as (v & Hvi & Hvj); [by apply Hel..|].
  destruct (reachable_votes _ c Hc) as [_ Hu]. specialize (Hu _ _ _ _ Hvi Hvj). lia.
Qed.

(** C11: A handler that labrpc has started on a server's current instance always runs to
    its end: the service and the method are found, the arguments decode, and
    neither RequestVote nor AppendEntries panics. *)
Theorem network_handlers_run n s k t q i k1 :
  rreachable n s → died (swld s) = false →
  threads (sys s) !! k = Some t → handler t = Some (HRunning q) → host s q k1 → current s i = Some k1 →
  ∃ s', rstep s (RNet (EHandle k)) = Some s' ∧ died (swld s') = false.
Proof.
  intros Hr Hd Hk Hh Hhost Hi. destruct (sim_reachable n s Hr Hd) as (Hn & c & pk & Hc & [W Sc C N]).
  destruct (running_caller _ _ _ _ _ _ C Hk Hh)
    as (m & cl & o & dst & k2 & Hm & Ho & Hcar & _ & Hhost' & _ & _ & Hcase).
  rewrite (host_inj _ _ _ _ Hhost' Hhost) in *.
  destruct Hcase as [(-> & Hown & _)|(_ & [_ Hg] & _)]; [|by destruct (Hg i)].
  assert (i = dst) as -> by (eapply owner_inj; [by apply (w_cur _ W)|done]).
  pose proof Hcar as [_ (nm & meth & a & ty & Hp & He & Hreq)].
  pose proof Hhost as (srv & Hq & Hsrv).
  destruct (current_node s c dst k1 W N Hi) as (nd & Hnd & Hk1 & Hf).
  assert (Hok : packet_ok (cReq cl)).
  { pose proof (cok_net _ _ (reachable_ok _ _ Hc)) as Hall. rewrite Forall_forall in Hall. apply Hall. by eapply sim_in_net. }
  pose proof (node_raft _ _ _ (cok_nodes _ _ (reachable_ok _ _ Hc) _ _ Hnd)) as Hraft.
  assert (Hrun : ∃ w v, callMeth (cReq cl) k1 a (zeroVal ty) (swld s) = (w, v) ∧ died w = false).
  { destruct (cReq cl) as [? ? ? args| |? ? ? args|]; simplify_eq/=;
      unfold callRequestVote, callAppendEntries; unfold sinsts in Hk1; rewrite Hk1.
    - destruct (RequestVote_total _ _ _ args Hraft) as (rf' & reply & ->). by eexists _, _.
    - destruct (AppendEntries_total _ _ _ args Hraft (proj1 Hok)) as (rf' & reply & ->). by eexists _, _. }
  destruct Hrun as (w & v & Hcall & Hdw).
  exists (handled s k q t (mkServer (services srv) (count srv + 1)) w (valReply v)). split; [|done].
  unfold rstep. rewrite Hd. simpl. rewrite Hk. simpl. unfold handleStep. rewrite Hh, Hq. simpl.
  change (world (sys s)) with (swld s).
  assert (Hdis : dispatch srv (req t) (swld s) =
    Some (mkServer (services srv) (count srv + 1), w, valReply v)).
  { by rewrite Hreq, (dispatch_raft _ k1 (cReq cl) dst meth a ty), Hcall. }
  by rewrite Hdis.
Qed.

End Theorems.

(** ** A run

    Three servers start and are connected, server 0 times out, and server 1
    votes for it over the network. *)

#[local] Instance RequestVoteArgs_eq_dec : EqDecision RequestVoteArgs.
Proof. solve_decision. Defined.
#[local] Instance RequestVoteArgs_countable : Countable RequestVoteArgs.
Proof.
  refine (inj_countable' (λ a, (rv_Term a, rv_CandidateId a, rv_LastLogIndex a, rv_LastLogTerm a))
    (λ '(a, b, c, d), mkRVArgs a b c d) _). by intros [].
Defined.
#[local] Instance RequestVoteReply_eq_dec : EqDecision RequestVoteReply.
Proof. solve_decision. Defined.
#[local] Instance RequestVoteReply_countable : Countable RequestVoteReply.
Proof. refine (inj_countable' (λ a, (rvr_Term a, rvr_VoteGranted a)) (λ '(a, b), mkRVReply a b) _). by intros []. Defined.
#[local] Instance AppendEntriesArgs_eq_dec : EqDecision (AppendEntriesArgs Z).
Proof. solve_decision. Defined.
#[local] Instance AppendEntriesArgs_countable : Countable (AppendEntriesArgs Z).
Proof.
  refine (inj_countable' (λ a, (ae_Term a, ae_LeaderId a, ae_PrevLogIndex a, ae_PrevLogTerm a, ae_Entries a, ae_LeaderCommit a))
    (λ '(a, b, c, d, e, f), mkAEArgs a b c d e f) _). by intros [].
Defined.
#[local] Instance AppendEntriesReply_eq_dec : EqDecision AppendEntriesReply.
Proof. solve_decision. Defined.
#[local] Instance AppendEntriesReply_countable : Countable AppendEntriesReply.
Proof.
  refine (inj_countable' (λ a, (aer_Term a, aer_Success a, aer_NextIndex a)) (λ '(a, b, c), mkAEReply a b c) _).
  by intros [].
Defined.
#[local] Instance Val_eq_dec : EqDecision (Val Z).
Proof. solve_decision. Defined.
#[local] Instance Val_countable : Countable (Val Z).
Proof.
  refine (inj_countable'
    (λ v, match v with
          | VVoteArgs a => inl (inl a) | VVoteReply r => inl (inr r)
          | VAppendArgs a => inr (inl a) | VAppendReply r => inr (inr r) end)
    (λ x, match x with
          | inl (inl a) => VVoteArgs a | inl (inr r) => VVoteReply r
          | inr (inl a) => VAppendArgs a | inr (inr r) => VAppendReply r end) _).
  by intros [].
Defined.

#[local] Program Instance demoWire : RaftWire Z := {|
  rw_gob := {| typeOf := valTy; zero := zeroVal; encodeVal := λ v, pos_to_bytes (encode v);
               decodeInto := λ old b, match (pos_of_bytes b ≫= decode : option (Val Z)) with
                                      | Some v => (v, true) | None => (old, false) end |} |}.
Next Obligation. intros v. simpl. by rewrite pos_of_to_bytes; simpl; rewrite decode_encode. Qed.
Next Obligation. done. Qed.
Next Obligation. done. Qed.

#[local] Instance demoGob : Gob (Z * Z * list (LogEntry Z)) := gob_countable.

Definition netNames (i : nat) : list string :=
  match i with O => ["a0"; "a1"; "a2"] | S O => ["b0"; "b1"; "b2"] | _ => ["c0"; "c1"; "c2"] end.

Definition netSchedule : list (REvent Z) :=
  (ROp (HoStart 0 (netNames 0)) :: replicate 8 RAct) ++
  (ROp (HoStart 1 (netNames 1)) :: replicate 9 RAct) ++
  (ROp (HoStart 2 (netNames 2)) :: replicate 10 RAct) ++
  (ROp (HoConnect 0) :: replicate 2 RAct) ++ (ROp (HoConnect 1) :: replicate 4 RAct) ++
  (ROp (HoConnect 2) :: replicate 6 RAct) ++
  [RLocal 0 (EvTimer 0 1); RLocal 0 (EvLock 0); RCall 0; RNet (EStart 0 500);
   RNet (EHandle 0); RNet (EReceive 0); RNet (EFinish 0 500 900); RReturn 0; RReply 0;
   RLocal 0 (EvLock 0)].

Definition netDemo (k : nat) : RSys Z :=
  default (initRSys 3 false) (rrun (initRSys 3 false) (take k netSchedule)).

Lemma rrun_reachable n (s s' : RSys Z) es : rreachable n s → rrun s es = Some s' → rreachable n s'.
Proof.
  revert s. induction es as [|e es IH]; simpl; intros s Hr; [by intros [= <-]|].
  intros (s1 & Hs & ?)%obind_Some. eapply IH; [|done]. by eapply rreachable_step.
Qed.

Lemma netDemo_reachable k : rreachable 3 (netDemo k).
Proof.
  unfold netDemo. destruct (rrun _ _) as [s|] eqn:E; simpl; [|apply rreachable_init].
  eapply rrun_reachable; [|done]. apply rreachable_init.
Qed.

Definition netNode (k j : nat) : Node Z := default (initNode 3 0) (sinsts (netDemo k) !! j).

Definition netThread (k j : nat) : @Thread EndName Ty :=
  default (mkThread (mkReq (inr 0%nat) "" TVoteArgs []) PStart None) (threads (sys (netDemo k)) !! j).

Lemma netNode_some k j :
  bool_decide (is_Some (sinsts (netDemo k) !! j)) = true → sinsts (netDemo k) !! j = Some (netNode k j).
Proof. unfold netNode. intros H%bool_decide_eq_true. by destruct (sinsts (netDemo k) !! j), H. Qed.

Lemma netThread_some k j :
  bool_decide (is_Some (threads (sys (netDemo k)) !! j)) = true →
  threads (sys (netDemo k)) !! j = Some (netThread k j).
Proof. unfold netThread. intros H%bool_decide_eq_true. by destruct (threads (sys (netDemo k)) !! j), H. Qed.

Lemma raft_network_refines_witness :
  ∃ c, reachable 3 c ∧ nodes c !! 0%nat = Some (netNode 55 0).
Proof.
  assert (Hk : sinsts (netDemo 55) !! 0%nat = Some (netNode 55 0)).
  { apply netNode_some. vm_compute. reflexivity. }
  destruct (raft_network_refines 3 (netDemo 55) (netDemo_reachable 55)) as (c & Hc & Hcur & _).
  { vm_compute. reflexivity. }
  exists c. split; [exact Hc|]. destruct (Hcur 0%nat 0%nat) as (nd & Hnd & ?); [vm_compute; reflexivity|].
  congruence.
Defined.

Lemma network_election_safety_witness :
  current (netDemo 55) 0 = Some 0%nat ∧ rt (netNode 55 0) = CandWon (mkRVArgs 1 0 0 0) ∧ 0%nat = 0%nat.
Proof.
  assert (Hc : current (netDemo 55) 0 = Some 0%nat) by (vm_compute; reflexivity).
  assert (Hw : rt (netNode 55 0) = CandWon (mkRVArgs 1 0 0 0)) by (vm_compute; reflexivity).
  assert (Hk : sinsts (netDemo 55) !! 0%nat = Some (netNode 55 0)).
  { apply netNode_some. vm_compute. reflexivity. }
  assert (Hd : died (swld (netDemo 55)) = false) by (vm_compute; reflexivity).
  split_and!; [exact Hc|exact Hw|].
  exact (network_election_safety 3 (netDemo 55) 0 0 0 0 (netNode 55 0) (netNode 55 0)
    (mkRVArgs 1 0 0 0) (mkRVArgs 1 0 0 0) (netDemo_reachable 55) Hd Hc Hk Hw Hc Hk Hw eq_refl).
Defined.

Lemma network_handlers_run_witness :
  handler (netThread 49 0) = Some (HRunning 1) ∧
  ∃ s', rstep (netDemo 49) (RNet (EHandle 0)) = Some s' ∧ died (swld s') = false.
Proof.
  assert (Hh : handler (netThread 49 0) = Some (HRunning 1)) by (vm_compute; reflexivity).
  split; [exact Hh|].
  apply (network_handlers_run 3 (netDemo 49) 0 (netThread 49 0) 1 1 1 (netDemo_reachable 49)).
  - vm_compute. reflexivity.
  - apply netThread_some. vm_compute. reflexivity.
  - exact Hh.
  - apply (host_intro 3); [apply netDemo_reachable|vm_compute; reflexivity|vm_compute; reflexivity].
  - vm_compute. reflexivity.
Defined.
