(* ===== verification/Clerk.v ===== *)
(** * Programs that talk to servers and may run forever

    The clerks of shardmaster/client.go and shardkv/client.go are loops without a
    bound that call servers until one gives an answer they accept. They are modelled as
    interaction trees whose events are the remote calls, the pauses and the
    making of ends. [exec] runs a tree against an environment that answers every
    event knowing all that happened before, so it may lose, delay or change
    answers in any way; [returns] and [diverges] are stated of all its runs. *)

From ITree Require Import ITree.
From S2P Require Import Prelude.

Notation "'let!' x ':=' t 'in' k" := (ITree.bind t (λ x, k)) (at level 200, x name, right associativity).
Notation "'do!' t 'in' k" := (ITree.bind t (λ _, k)) (at level 200, right associativity).

Section Exec.
Context {E : Type → Type} {Obs : Type} (obs : ∀ X, E X → X → Obs).

(** The answers of the network and the servers, given the trace so far (latest
    event first). *)
Definition Env : Type := list Obs → ∀ X, E X → X.

Context (env : Env).

(** Runs [t] after the trace [tr] for at most [fuel] steps: its result, if it has
    returned, and the trace so far. *)
Fixpoint exec {R} (fuel : nat) (t : itree E R) (tr : list Obs) : option R * list Obs :=
  match fuel with
  | O => (None, tr)
  | S fuel =>
      match observe t with
      | RetF r => (Some r, tr)
      | TauF t => exec fuel t tr
      | VisF e k => let x := env tr _ e in exec fuel (k x) (obs _ e x :: tr)
      end
  end.

(** The traces that the environment can have answered. *)
Inductive genuine : list Obs → Prop :=
  | genuine_nil : genuine []
  | genuine_cons tr X (e : E X) : genuine tr → genuine (obs X e (env tr X e) :: tr).

Lemma exec_genuine {R} fuel (t : itree E R) tr : genuine tr → genuine (exec fuel t tr).2.
Proof.
  revert t tr. induction fuel as [|fuel IH]; intros t tr Htr; simpl; [done|].
  destruct (observe t); [done|by apply IH|]. apply IH. by constructor.
Qed.

Definition returns {R} (t : itree E R) (tr : list Obs) (r : R) (tr' : list Obs) : Prop :=
  ∃ fuel, exec fuel t tr = (Some r, tr').

Definition diverges {R} (t : itree E R) (tr : list Obs) : Prop := ∀ fuel, (exec fuel t tr).1 = None.

Lemma exec_mono {R} fuel fuel' (t : itree E R) tr r tr' :
  exec fuel t tr = (Some r, tr') → (fuel ≤ fuel')%nat → exec fuel' t tr = (Some r, tr').
Proof.
  revert fuel' t tr. induction fuel as [|fuel IH]; intros [|fuel'] t tr; simpl; [done|done|lia|].
  intros Hx Hle. destruct (observe t); [done|by apply IH; [|lia]..].
Qed.

Lemma returns_det {R} (t : itree E R) tr r tr' r2 tr2 :
  returns t tr r tr' → returns t tr r2 tr2 → r = r2 ∧ tr' = tr2.
Proof.
  intros [f1 H1] [f2 H2]. destruct (Nat.le_ge_cases f1 f2) as [Hle|Hle].
  - rewrite (exec_mono _ _ _ _ _ _ H1 Hle) in H2. by simplify_eq.
  - rewrite (exec_mono _ _ _ _ _ _ H2 Hle) in H1. by simplify_eq.
Qed.

Lemma diverges_returns {R} (t : itree E R) tr : diverges t tr ↔ ∀ r tr', ¬ returns t tr r tr'.
Proof.
  split.
  - intros Hd r tr' [f Hf]. specialize (Hd f). by rewrite Hf in Hd.
  - intros Hr f. destruct (exec f t tr) as [[r|] tr'] eqn:Hf; [|done]. destruct (Hr r tr'). by exists f.
Qed.

Lemma returns_ret {R} (r : R) tr r' tr' : returns (Ret r) tr r' tr' ↔ r' = r ∧ tr' = tr.
Proof.
  split; [intros [[|f] Hf]; simpl in Hf; by simplify_eq|]. intros [-> ->]. by exists 1%nat.
Qed.

Lemma returns_tau {R} (t : itree E R) tr r tr' : returns (Tau t) tr r tr' ↔ returns t tr r tr'.
Proof.
  split; [intros [[|f] Hf]; simpl in Hf; [done|by exists f]|]. intros [f Hf]. by exists (S f).
Qed.

(** A step in front of a tree. *)
Lemma returns_observe {R} (t t' : itree E R) tr r tr' :
  observe t = observe t' → returns t tr r tr' ↔ returns t' tr r tr'.
Proof.
  intros Ho. assert (∀ f, exec f t tr = exec f t' tr) as He by (intros [|f]; simpl; [done|by rewrite Ho]).
  split; intros [f Hf]; exists f; congruence.
Qed.

Lemma observe_bind {R T} (t : itree E R) (k : R → itree E T) :
  observe (ITree.bind t k) =
    observe (match observe t with
    | RetF r => k r
    | TauF t => Tau (ITree.bind t k)
    | VisF e h => Vis e (λ x, ITree.bind (h x) k)
    end).
Proof. reflexivity. Qed.

Lemma exec_bind_inv {R T} fuel (t : itree E R) (k : R → itree E T) tr s tr' :
  exec fuel (ITree.bind t k) tr = (Some s, tr') →
  ∃ r tr1 fuel', returns t tr r tr1 ∧ exec fuel' (k r) tr1 = (Some s, tr') ∧ (fuel' ≤ fuel)%nat.
Proof.
  revert t tr. induction fuel as [|fuel IH]; intros t tr; [done|]. cbn [exec].
  rewrite observe_bind. destruct (observe t) as [r|t'|X e h] eqn:Ht.
  - intros Hx. exists r, tr, (S fuel). split_and!; [exists 1%nat; simpl; by rewrite Ht|done|lia].
  - intros (r & tr1 & f2 & [f Hf] & Hk & Hle)%IH. exists r, tr1, f2. split_and!; [|done|lia].
    exists (S f). cbn [exec]. by rewrite Ht.
  - intros (r & tr1 & f2 & [f Hf] & Hk & Hle)%IH. exists r, tr1, f2. split_and!; [|done|lia].
    exists (S f). cbn [exec]. by rewrite Ht.
Qed.

Lemma exec_bind {R T} fuel (t : itree E R) (k : R → itree E T) tr r tr1 s tr' :
  exec fuel t tr = (Some r, tr1) → returns (k r) tr1 s tr' → returns (ITree.bind t k) tr s tr'.
Proof.
  revert t tr. induction fuel as [|fuel IH]; intros t tr; [done|]. cbn [exec].
  intros Hx Hk. pose proof (observe_bind t k) as Ho.
  destruct (observe t) as [r0|t'|X e h] eqn:Ht.
  - simplify_eq. by eapply returns_observe.
  - destruct (IH _ _ Hx Hk) as [f Hf]. exists (S f). cbn [exec]. by rewrite Ho.
  - destruct (IH _ _ Hx Hk) as [f Hf]. exists (S f). cbn [exec]. by rewrite Ho.
Qed.

Lemma returns_bind {R T} (t : itree E R) (k : R → itree E T) tr s tr' :
  returns (ITree.bind t k) tr s tr' ↔ ∃ r tr1, returns t tr r tr1 ∧ returns (k r) tr1 s tr'.
Proof.
  split.
  { intros [f (r & tr1 & f2 & Ht & Hk & _)%exec_bind_inv]. exists r, tr1. split; [done|by exists f2]. }
  intros (r & tr1 & [f Hf] & Hk). by eapply exec_bind.
Qed.

Lemma returns_trigger {X} (e : E X) tr x tr' :
  returns (ITree.trigger e) tr x tr' ↔ x = env tr X e ∧ tr' = obs X e x :: tr.
Proof.
  split.
  - intros [[|[|f]] Hf]; simpl in Hf; by simplify_eq.
  - intros [-> ->]. by exists 2%nat.
Qed.

Lemma returns_iter {I R} (body : I → itree E (I + R)) i tr r tr' :
  returns (ITree.iter body i) tr r tr' ↔
  ∃ x tr1, returns (body i) tr x tr1 ∧
    match x with inl i => returns (ITree.iter body i) tr1 r tr' | inr r' => r = r' ∧ tr' = tr1 end.
Proof.
  rewrite (returns_observe _ (ITree.bind (body i) (λ x : I + R,
    match x with inl l => Tau (ITree.iter body l) | inr r => Ret r end))) by done.
  rewrite returns_bind.
  split; intros ([i'|r'] & tr1 & Hb & Hx); eexists _, tr1; (split; [exact Hb|]).
  - exact (proj1 (returns_tau _ _ _ _) Hx).
  - exact (proj1 (returns_ret _ _ _ _) Hx).
  - exact (proj2 (returns_tau _ _ _ _) Hx).
  - exact (proj2 (returns_ret _ _ _ _) Hx).
Qed.

(** Rule induction over the turns of a loop that returns. *)
Lemma iter_ind {I R} (body : I → itree E (I + R)) (P : I → list Obs → R → list Obs → Prop) :
  (∀ i tr r tr', returns (body i) tr (inr r) tr' → P i tr r tr') →
  (∀ i i' tr tr1 r tr', returns (body i) tr (inl i') tr1 →
    returns (ITree.iter body i') tr1 r tr' → P i' tr1 r tr' → P i tr r tr') →
  ∀ i tr r tr', returns (ITree.iter body i) tr r tr' → P i tr r tr'.
Proof.
  intros Hret Hagain i tr r tr' [fuel Hf]. revert i tr Hf.
  induction (lt_wf fuel) as [fuel _ IH]. intros i tr Hf.
  assert (exec fuel (ITree.bind (body i) (λ x : I + R,
    match x with inl l => Tau (ITree.iter body l) | inr r => Ret r end)) tr = (Some r, tr')) as Hb.
  { by destruct fuel. }
  apply exec_bind_inv in Hb as ([i'|r'] & tr1 & [|f2] & Hb & Hx & Hle); simpl in Hx; [done| |done|].
  - eapply Hagain; [done|by exists f2|]. eapply (IH f2); [lia|done].
  - simplify_eq. by apply Hret.
Qed.

(** Trees that return in every environment. *)
Definition total {R} (t : itree E R) : Prop := ∀ tr, ∃ r tr', returns t tr r tr'.

Lemma total_ret {R} (r : R) : total (Ret r).
Proof. intros tr. exists r, tr. by apply returns_ret. Qed.

Lemma total_trigger {X} (e : E X) : total (ITree.trigger e).
Proof. intros tr. eexists _, _. by apply returns_trigger. Qed.

Lemma total_bind {R T} (t : itree E R) (k : R → itree E T) :
  total t → (∀ r, total (k r)) → total (ITree.bind t k).
Proof.
  intros Ht Hk tr. destruct (Ht tr) as (r & tr1 & Hr). destruct (Hk r tr1) as (x & tr2 & Hx).
  exists x, tr2. apply returns_bind. eauto.
Qed.

(** ** A logic for safety

    [safe P Q t tr]: whatever [t] has done so far, the trace satisfies [P], and when it
    returns [Q] holds too. [safeN] is the same of the first [N] steps. *)

Definition safeN {R} (N : nat) (P : list Obs → Prop) (Q : R → list Obs → Prop) (t : itree E R)
    (tr : list Obs) : Prop :=
  ∀ fuel, (fuel ≤ N)%nat →
    let '(o, tr') := exec fuel t tr in P tr' ∧ match o with Some r => Q r tr' | None => True end.

Definition safe {R} (P : list Obs → Prop) (Q : R → list Obs → Prop) (t : itree E R) (tr : list Obs) : Prop :=
  ∀ N, safeN N P Q t tr.

Lemma safeN_now {R} N P (Q : R → list Obs → Prop) t tr : safeN N P Q t tr → P tr.
Proof. intros Hs. apply (Hs 0%nat). lia. Qed.

Lemma safeN_bind {R T} N P (Q1 : R → list Obs → Prop) (Q : T → list Obs → Prop) t (k : R → itree E T) tr :
  safeN N P Q1 t tr → (∀ r tr1, P tr1 → Q1 r tr1 → safeN N P Q (k r) tr1) → safeN N P Q (ITree.bind t k) tr.
Proof.
  intros Ht Hk fuel. revert N t tr Ht Hk. induction fuel as [|fuel IH]; intros N t tr Ht Hk Hle.
  { split; [by eapply safeN_now|done]. }
  cbn [exec]. rewrite observe_bind. destruct N as [|N]; [lia|].
  assert (Hrest : ∀ t' tr', (∀ f, exec (S f) t tr = exec f t' tr') → safeN N P Q1 t' tr').
  { intros t' tr' He f Hf. rewrite <-He. apply Ht. lia. }
  assert (Hk' : ∀ r tr1, P tr1 → Q1 r tr1 → safeN N P Q (k r) tr1).
  { intros r tr1 HP HQ f Hf. apply (Hk r tr1 HP HQ). lia. }
  destruct (observe t) as [r|t'|X e h] eqn:Ho.
  - specialize (Ht 1%nat ltac:(lia)). cbn [exec] in Ht. rewrite Ho in Ht. destruct Ht as [HP HQ].
    exact (Hk r tr HP HQ (S fuel) Hle).
  - cbn [observe _observe]. apply (IH N); [|done|lia]. apply Hrest. intros f. cbn [exec]. by rewrite Ho.
  - cbn [observe _observe]. apply (IH N); [|done|lia]. apply Hrest. intros f. cbn [exec]. by rewrite Ho.
Qed.

Lemma safe_bind {R T} P (Q1 : R → list Obs → Prop) (Q : T → list Obs → Prop) t (k : R → itree E T) tr :
  safe P Q1 t tr → (∀ r tr1, P tr1 → Q1 r tr1 → safe P Q (k r) tr1) → safe P Q (ITree.bind t k) tr.
Proof. intros Ht Hk N. eapply safeN_bind; [apply Ht|]. intros. by apply Hk. Qed.

Lemma safe_ret {R} (P : list Obs → Prop) (Q : R → list Obs → Prop) r tr : P tr → Q r tr → safe P Q (Ret r) tr.
Proof. intros HP HQ N [|fuel] _; simpl; done. Qed.

Lemma safe_trigger {X} (P : list Obs → Prop) (Q : X → list Obs → Prop) (e : E X) tr :
  P tr → (∀ x, x = env tr X e → P (obs X e x :: tr) ∧ Q x (obs X e x :: tr)) → safe P Q (ITree.trigger e) tr.
Proof.
  intros HP HQ N fuel _. destruct (HQ _ eq_refl) as [HP' HQ']. destruct fuel as [|[|fuel]]; simpl; done.
Qed.

Lemma safe_conseq {R} (P P' : list Obs → Prop) (Q Q' : R → list Obs → Prop) t tr :
  safe P Q t tr → (∀ tr, P tr → P' tr) → (∀ r tr, P tr → Q r tr → Q' r tr) → safe P' Q' t tr.
Proof.
  intros Hs HP HQ N fuel Hle. specialize (Hs N fuel Hle). destruct (exec fuel t tr) as [[r|] tr'];
    destruct Hs; naive_solver.
Qed.

(** [J] is the invariant of the loop. *)
Lemma safe_iter {I R} P (Q : R → list Obs → Prop) (J : I → list Obs → Prop) (body : I → itree E (I + R)) i tr :
  (∀ i tr, J i tr →
    safe P (λ x tr1, match x with inl i => J i tr1 | inr r => Q r tr1 end) (body i) tr) →
  J i tr → safe P Q (ITree.iter body i) tr.
Proof.
  intros Hbody HJ N. revert i tr HJ. induction N as [|N IH]; intros i tr HJ.
  { intros fuel Hle. destruct fuel; [|lia]. split; [|done]. exact (safeN_now 0 _ _ _ _ (Hbody i tr HJ 0%nat)). }
  assert (He : ∀ fuel, exec fuel (ITree.iter body i) tr = exec fuel (ITree.bind (body i) (λ x : I + R,
    match x with inl l => Tau (ITree.iter body l) | inr r => Ret r end)) tr) by by intros [|fuel].
  intros fuel Hle. rewrite He. revert fuel Hle. eapply safeN_bind; [by apply Hbody|].
  intros [i'|r] tr1 HP HQ; cbn beta iota in HQ.
  - intros [|fuel] Hle; cbn [exec observe _observe]; [done|]. apply (IH i' tr1 HQ). lia.
  - apply (safe_ret P Q r tr1 HP HQ (S N)).
Qed.

Lemma safe_returns {R} P (Q : R → list Obs → Prop) t tr r tr' :
  safe P Q t tr → returns t tr r tr' → P tr' ∧ Q r tr'.
Proof. intros Hs [fuel Hf]. specialize (Hs fuel fuel ltac:(lia)). by rewrite Hf in Hs. Qed.

(** The traces a run passes through. *)
Lemma safe_reaches {R} P (Q : R → list Obs → Prop) (t : itree E R) tr fuel :
  safe P Q t tr → P (exec fuel t tr).2.
Proof. intros Hs. specialize (Hs fuel fuel ltac:(lia)). by destruct (exec fuel t tr), Hs. Qed.

Lemma safe_never {R} P (t : itree E R) tr : safe P (λ _ _, False) t tr → diverges t tr.
Proof. intros Hs. apply diverges_returns. intros r tr' Hr. by eapply safe_returns in Hs as [_ []]. Qed.

End Exec.

(** ** Asking one server after the other *)

Section Poll.
Context {E : Type → Type} {Obs : Type} (obs : ∀ X, E X → X → Obs) (env : @Env E Obs).
Context {Srv Rep R : Type} (call : Srv → E (option Rep)) (accept : Rep → option R) (pause : E unit).
Context (servers : list Srv).

(** One pass over the servers: the first reply that is accepted. [None] from a
    call is [ok == false]. *)
Fixpoint tryEach (srvs : list Srv) : itree E (option R) :=
  match srvs with
  | [] => Ret None
  | srv :: srvs =>
      let! rep := ITree.trigger (call srv) in
      match rep ≫= accept with
      | Some r => Ret (Some r)
      | None => tryEach srvs
      end
  end.

(** [for { for _, srv := range servers { ... return } time.Sleep(...) }] *)
Definition untilAccepted : itree E R :=
  ITree.iter (λ _ : unit,
    let! o := tryEach servers in
    match o with
    | Some r => Ret (inr r)
    | None => do! ITree.trigger pause in Ret (inl tt)
    end) tt.

(** What the loop must do in its [m]-th step as long as nothing was accepted: call
    the next server, or pause after the last one. *)
Definition turn (m : nat) : option Srv := servers !! (m mod S (length servers))%nat.

Context (tr0 : list Obs).

Fixpoint pollTrace (m : nat) : list Obs :=
  match m with
  | O => tr0
  | S m =>
      let tr := pollTrace m in
      match turn m with
      | Some srv => obs _ (call srv) (env tr _ (call srv)) :: tr
      | None => obs _ pause (env tr _ pause) :: tr
      end
  end.

Definition accepted (m : nat) : option R :=
  match turn m with
  | Some srv => env (pollTrace m) _ (call srv) ≫= accept
  | None => None
  end.

(** [m] is the first of the steps from [k] on with an accepted reply. *)
Definition firstFrom (k m : nat) (r : R) : Prop :=
  (k ≤ m)%nat ∧ accepted m = Some r ∧ ∀ m', (k ≤ m' < m)%nat → accepted m' = None.

Lemma firstFrom_exists m r : accepted m = Some r → ∃ m' r', (m' ≤ m)%nat ∧ firstFrom 0 m' r'.
Proof.
  revert r. induction (lt_wf m) as [m _ IH]. intros r Hr.
  destruct (decide (Exists (λ m', is_Some (accepted m')) (seq 0 m))) as [Hex|Hno].
  - apply Exists_exists in Hex as (m1 & [_ Hlt]%elem_of_seq & [r1 Hr1]).
    destruct (IH m1 Hlt r1 Hr1) as (m' & r' & Hle & Hf). exists m', r'. split; [lia|done].
  - exists m, r. split; [lia|]. split_and!; [lia|done|]. intros m' [_ Hlt]. apply eq_None_not_Some. intros Hs.
    apply Hno, Exists_exists. exists m'. split; [apply elem_of_seq; lia|done].
Qed.

Lemma turn_pos q j : (j ≤ length servers)%nat → turn (q * S (length servers) + j) = servers !! j.
Proof.
  intros Hj. unfold turn. rewrite Nat.add_comm, Nat.Div0.mod_add, Nat.mod_small by lia. done.
Qed.

Lemma tryEach_spec q pre srvs :
  servers = pre ++ srvs →
  let k := (q * S (length servers) + length pre)%nat in
  ∃ o tr1, returns obs env (tryEach srvs) (pollTrace k) o tr1 ∧
    match o with
    | Some r => ∃ m, firstFrom k m r ∧ (m < k + length srvs)%nat ∧ tr1 = pollTrace (S m)
    | None => (∀ m', (k ≤ m' < k + length srvs)%nat → accepted m' = None) ∧ tr1 = pollTrace (k + length srvs)
    end.
Proof.
  revert pre. induction srvs as [|srv srvs IH]; intros pre Hs k; cbn [tryEach length].
  { exists None, (pollTrace k). split; [by apply returns_ret|]. rewrite Nat.add_0_r. split; [lia|done]. }
  assert (Hturn : turn k = Some srv).
  { subst k. rewrite turn_pos; rewrite Hs; [by rewrite list_lookup_middle|rewrite length_app; lia]. }
  assert (Hacc : accepted k = env (pollTrace k) _ (call srv) ≫= accept) by (unfold accepted; by rewrite Hturn).
  assert (Hnext : pollTrace (S k) = obs _ (call srv) (env (pollTrace k) _ (call srv)) :: pollTrace k).
  { cbn [pollTrace]. by rewrite Hturn. }
  destruct (env (pollTrace k) _ (call srv) ≫= accept) as [r|] eqn:Hr.
  - exists (Some r), (pollTrace (S k)). split.
    + apply returns_bind. exists (env (pollTrace k) _ (call srv)), (pollTrace (S k)).
      split; [by rewrite Hnext; apply returns_trigger|]. rewrite Hr. by apply returns_ret.
    + exists k. split_and!; [split_and!; [lia|done|lia]|lia|done].
  - destruct (IH (pre ++ [srv])) as (o & tr1 & Hrun & Ho).
    { by rewrite <-app_assoc. }
    rewrite length_app, Nat.add_assoc, Nat.add_1_r in Hrun, Ho. fold k in Hrun, Ho. exists o, tr1. split.
    + apply returns_bind. exists (env (pollTrace k) _ (call srv)), (pollTrace (S k)).
      split; [by rewrite Hnext; apply returns_trigger|]. by rewrite Hr.
    + destruct o as [r|].
      * destruct Ho as (m & (Hle & Hm & Hbefore) & Hlt & ->). exists m. split_and!; [|lia|done].
        split_and!; [lia|done|]. intros m' Hm'. destruct (decide (m' = k)) as [->|]; [done|]. apply Hbefore. lia.
      * destruct Ho as [Hbefore ->]. rewrite Nat.add_succ_r. split; [|done].
        intros m' Hm'. destruct (decide (m' = k)) as [->|]; [done|]. apply Hbefore. lia.
Qed.

(** One turn of the outer loop. *)
Lemma untilAccepted_turn q :
  let k := (q * S (length servers))%nat in
  ∃ x tr1,
    returns obs env (let! o := tryEach servers in
      match o with
      | Some r => Ret (inr r)
      | None => do! ITree.trigger pause in Ret (inl tt)
      end) (pollTrace k) x tr1 ∧
    match x with
    | inr r => ∃ m, firstFrom k m r ∧ tr1 = pollTrace (S m)
    | inl _ => (∀ m', (k ≤ m' < S q * S (length servers))%nat → accepted m' = None) ∧
        tr1 = pollTrace (S q * S (length servers))
    end.
Proof.
  intros k. destruct (tryEach_spec q [] servers) as (o & tr1 & Hrun & Ho); [done|].
  cbn [length] in *. rewrite Nat.add_0_r in *. fold k in Hrun, Ho. destruct o as [r|].
  - exists (inr r), tr1. split.
    + apply returns_bind. exists (Some r), tr1. split; [done|by apply returns_ret].
    + destruct Ho as (m & Hm & _ & ->). eauto.
  - destruct Ho as [Hno ->]. set (k' := (k + length servers)%nat) in *.
    assert (Hturn : turn k' = None) by (subst k' k; by rewrite turn_pos, lookup_ge_None_2).
    assert (Hk' : (S q * S (length servers) = S k')%nat) by lia. rewrite Hk'.
    exists (inl tt), (pollTrace (S k')). split.
    + apply returns_bind. exists None, (pollTrace k'). split; [done|].
      apply returns_bind. exists tt, (pollTrace (S k')). split; [|by apply returns_ret].
      apply returns_trigger. cbn [pollTrace]. rewrite Hturn. by destruct (env (pollTrace k') _ pause).
    + split; [|done]. intros m' Hm'. destruct (decide (m' = k')) as [->|]; [|apply Hno; lia].
      unfold accepted. by rewrite Hturn.
Qed.

(** The loop returns exactly with the first accepted reply, and makes no step after it. *)
Lemma untilAccepted_returns r tr' :
  returns obs env untilAccepted tr0 r tr' ↔ ∃ m, firstFrom 0 m r ∧ tr' = pollTrace (S m).
Proof.
  split.
  - assert (Hind : ∀ q, returns obs env untilAccepted (pollTrace (q * S (length servers))) r tr' →
      ∃ m, firstFrom (q * S (length servers)) m r ∧ tr' = pollTrace (S m)).
    { intros q Hrun. unfold untilAccepted in Hrun.
      remember (pollTrace (q * S (length servers))) as tr eqn:Htr. revert q Htr.
      pattern tt, tr, r, tr'. revert Hrun. apply iter_ind; clear.
      - intros _ tr r tr' Hb q ->. destruct (untilAccepted_turn q) as (x & tr1 & Hb' & Hx).
        destruct (returns_det _ _ _ _ _ _ _ _ Hb Hb') as [<- <-]. done.
      - intros _ [] tr tr1 r tr' Hb _ IH q ->. destruct (untilAccepted_turn q) as (x & tr2 & Hb' & Hx).
        destruct (returns_det _ _ _ _ _ _ _ _ Hb Hb') as [<- <-]. destruct Hx as [Hno Htr].
        destruct (IH (S q) Htr) as (m & (Hle & Hm & Hbefore) & ->). exists m. split; [|done].
        split_and!; [lia|done|]. intros m' Hm'.
        destruct (decide (m' < S q * S (length servers))%nat); [apply Hno; lia|apply Hbefore; lia]. }
    exact (Hind 0%nat).
  - intros (m & Hm & ->).
    assert (Hind : ∀ d q, (m < q * S (length servers) + d)%nat → firstFrom (q * S (length servers)) m r →
      returns obs env untilAccepted (pollTrace (q * S (length servers))) r (pollTrace (S m))).
    { induction d as [|d IH]; intros q Hlt (Hle & Hr & Hbefore); [lia|].
      apply returns_iter. destruct (untilAccepted_turn q) as ([[]|r'] & tr1 & Hb & Hx).
      - destruct Hx as [Hno ->]. eexists _, _. split; [exact Hb|]. cbn beta iota.
        destruct (decide (m < S q * S (length servers))%nat) as [Hin|].
        { rewrite Hno in Hr by lia. done. }
        apply IH; [lia|]. split_and!; [lia|done|]. intros. apply Hbefore. lia.
      - destruct Hx as (m2 & (Hle2 & Hr2 & Hbefore2) & ->). eexists _, _. split; [exact Hb|].
        assert (m2 = m) as ->; [|split; [congruence|done]].
        destruct (Nat.lt_total m2 m) as [Hl|[Hl|Hl]]; [|done|].
        + rewrite Hbefore in Hr2 by lia. done.
        + rewrite Hbefore2 in Hr by lia. done. }
    apply (Hind (S m) 0%nat); [lia|done].
Qed.

Lemma untilAccepted_diverges :
  diverges obs env untilAccepted tr0 ↔ ∀ m, accepted m = None.
Proof.
  rewrite diverges_returns. split.
  - intros Hno m. induction (lt_wf m) as [m _ IH]. destruct (accepted m) as [r|] eqn:Hm; [|done].
    destruct (Hno r (pollTrace (S m))). apply untilAccepted_returns. exists m. split; [|done].
    split_and!; [lia|done|]. intros m' ?. apply IH. lia.
  - intros Hno r tr' (m & (_ & Hm & _) & _)%untilAccepted_returns. by rewrite Hno in Hm.
Qed.

End Poll.
