(* ===== verification/RaftAgree.v ===== *)
(** * Waiting for agreement: one, wait and checkNoLeader of raft/config.go

    The loops of the harness that drive a cluster: [one] submits a command until enough
    servers have applied it, [wait] waits for an index. What they see of the cluster, and the
    clock, are events of an interaction tree; [exec] of [Clerk] runs them against every
    environment. *)

From ITree Require Import ITree.
From S2P Require Import Prelude Persister Labrpc Harness RaftConfig RaftConfigSpec Clerk.

(** [Lookup i]: [cfg.rafts[i]] if server i is connected, else nil. [Start]: index, term
    and whether the server leads. [Committed]: [nCommitted], [None] when it stops the
    test. [Term i]: the term of [cfg.rafts[i].GetState()], [None] when the
    pointer is nil. [Within s]: whether less than s seconds have passed. *)
Variant agreeE : Type → Type :=
  | Lookup (i : nat) : agreeE (option nat)
  | Start (rf : nat) (cmd : Z) : agreeE (Z * Z * bool)
  | Committed (index : Z) : agreeE (option (Z * Z))
  | Term (i : nat) : agreeE (option Z)
  | Within (s : Z) : agreeE bool
  | Sleep (ms : Z) : agreeE unit.

Inductive Outcome := Result (r : Z) | Fatal | Panic.

#[global] Instance Outcome_eq_dec : EqDecision Outcome.
Proof. solve_decision. Defined.

(** ** one *)

Section One.
Context (n : nat) (cmd expectedServers : Z) (retry : bool).

(** The loop over the servers: [starts] and [index]. *)
Fixpoint tryStart (turns : nat) (starts : nat) : itree agreeE (nat * Z) :=
  match turns with
  | O => Ret (starts, -1)
  | S turns =>
      let starts := ((starts + 1) mod n)%nat in
      let! rf := ITree.trigger (Lookup starts) in
      match rf with
      | Some rf =>
          let! r := ITree.trigger (Start rf cmd) in
          if r.2 : bool then Ret (starts, r.1.1) else tryStart turns starts
      | None => tryStart turns starts
      end
  end.

(** The two seconds of waiting; [None] when they are over. *)
Definition waitAgree (index : Z) : itree agreeE (option Outcome) :=
  ITree.iter (λ _ : unit,
    let! more := ITree.trigger (Within 2) in
    if more : bool then
      let! r := ITree.trigger (Committed index) in
      match r with
      | None => Ret (inr (Some Fatal))
      | Some (nd, cmd1) =>
          if bool_decide (nd > 0 ∧ nd >= expectedServers) && bool_decide (cmd1 = cmd)
          then Ret (inr (Some (Result index)))
          else do! ITree.trigger (Sleep 20) in Ret (inl tt)
      end
    else Ret (inr None)) tt.

Definition oneTurn (starts : nat) : itree agreeE (nat + Outcome) :=
  let! more := ITree.trigger (Within 10) in
  if more : bool then
    let! si := tryStart n starts in
    if decide (si.2 = -1) then do! ITree.trigger (Sleep 50) in Ret (inl si.1)
    else
      let! o := waitAgree si.2 in
      match o with
      | Some o => Ret (inr o)
      | None => Ret (if retry then inl si.1 else inr Fatal)
      end
  else Ret (inr Fatal).

Definition one : itree agreeE Outcome := ITree.iter oneTurn 0%nat.

End One.

(** ** wait *)

Section Wait.
Context (nrafts : nat) (index n startTerm : Z).

(** [for _, r := range cfg.rafts]: [Some] when [wait] ends here. *)
Fixpoint movedOn (ids : list nat) : itree agreeE (option Outcome) :=
  match ids with
  | [] => Ret None
  | i :: ids =>
      let! t := ITree.trigger (Term i) in
      match t with
      | None => Ret (Some Panic)
      | Some t => if decide (t > startTerm) then Ret (Some (Result (-1))) else movedOn ids
      end
  end.

(** [iters] turns left, pause [to] in milliseconds. [Some]: [wait] ends here. *)
Fixpoint waitLoop (iters : nat) (to : Z) : itree agreeE (option Outcome) :=
  match iters with
  | O => Ret None
  | S iters =>
      let! r := ITree.trigger (Committed index) in
      match r with
      | None => Ret (Some Fatal)
      | Some (nd, _) =>
          if decide (nd >= n) then Ret None
          else
            do! ITree.trigger (Sleep to) in
            let to := if decide (to < 1000) then to * 2 else to in
            if decide (startTerm > -1) then
              let! o := movedOn (seq 0 nrafts) in
              match o with Some o => Ret (Some o) | None => waitLoop iters to end
            else waitLoop iters to
      end
  end.

Definition wait : itree agreeE Outcome :=
  let! o := waitLoop 30 10 in
  match o with
  | Some o => Ret o
  | None =>
      let! r := ITree.trigger (Committed index) in
      match r with
      | None => Ret Fatal
      | Some (nd, cmd) => Ret (if decide (nd < n) then Fatal else Result cmd)
      end
  end.

End Wait.

(** ** checkNoLeader *)

(** On the connected servers' answers to [GetState]; [false] is a failed test. *)
Fixpoint checkNoLeader (sm : list (option (Z * bool))) : bool :=
  match sm with
  | [] => true
  | Some (_, true) :: _ => false
  | _ :: sm => checkNoLeader sm
  end.

(** ** Traces *)

Inductive agreeObs :=
  | ObsLookup (i : nat) (rf : option nat)
  | ObsStart (rf : nat) (cmd : Z) (r : Z * Z * bool)
  | ObsCommitted (index : Z) (r : option (Z * Z))
  | ObsTerm (i : nat) (t : option Z)
  | ObsWithin (s : Z) (b : bool)
  | ObsSleep (ms : Z).

Definition aobs X (e : agreeE X) : X → agreeObs :=
  match e with
  | Lookup i => λ rf, ObsLookup i rf
  | Start rf cmd => λ r, ObsStart rf cmd r
  | Committed index => λ r, ObsCommitted index r
  | Term i => λ t, ObsTerm i t
  | Within s => λ b, ObsWithin s b
  | Sleep ms => λ _, ObsSleep ms
  end.

(** The indices at which servers that said they lead have put [cmd]. *)
Fixpoint submitted (cmd : Z) (tr : list agreeObs) : list Z :=
  match tr with
  | [] => []
  | ObsStart _ cmd' (index, _, true) :: tr =>
      if decide (cmd' = cmd) then index :: submitted cmd tr else submitted cmd tr
  | _ :: tr => submitted cmd tr
  end.

(** ** What [one] returns *)

Section OneSpec.
Context (env : @Env agreeE agreeObs) (n : nat) (cmd expectedServers : Z) (retry : bool).

(** The last answer said that enough servers have applied [cmd] at [r]. *)
Definition agreed (r : Z) (tr : list agreeObs) : Prop :=
  ∃ nd tr', tr = ObsCommitted r (Some (nd, cmd)) :: tr' ∧ env tr' _ (Committed r) = Some (nd, cmd) ∧
    nd > 0 ∧ nd >= expectedServers.

Context (P : list agreeObs → Prop).
Hypothesis P_submitted : ∀ tr tr', P tr → submitted cmd tr' = submitted cmd tr → P tr'.

Lemma waitAgree_safe index tr0 :
  P tr0 →
  safe aobs env P (λ o tr1, submitted cmd tr1 = submitted cmd tr0 ∧
    match o with Some (Result r) => r = index ∧ agreed r tr1 | _ => True end) (waitAgree cmd expectedServers index) tr0.
Proof.
  intros HP. unfold waitAgree.
  apply (safe_iter _ _ _ _ (λ _ tr, P tr ∧ submitted cmd tr = submitted cmd tr0)); [|done].
  intros _ tr [HPt Hs]. apply (safe_bind _ _ _ (λ b tr1, tr1 = ObsWithin 2 b :: tr)).
  { apply safe_trigger; [done|]. intros b _. split; [by eapply P_submitted|done]. }
  intros [] tr1 HP1 ->; [|by apply safe_ret].
  apply (safe_bind _ _ _ (λ r tr2, tr2 = ObsCommitted index r :: ObsWithin 2 true :: tr ∧
    r = env (ObsWithin 2 true :: tr) _ (Committed index))).
  { apply safe_trigger; [done|]. intros r Hr. split; [by eapply P_submitted|done]. }
  intros [[nd cmd1]|] tr2 HP2 [-> Hr]; [|by apply safe_ret].
  destruct (_ && _) eqn:Hc.
  - apply andb_true_iff in Hc as [[Hn1 Hn2]%bool_decide_eq_true ->%bool_decide_eq_true].
    apply safe_ret; [done|]. split; [done|]. split; [done|]. by eexists _, _.
  - apply (safe_bind _ _ _ (λ _ tr3, tr3 = ObsSleep 20 :: ObsCommitted index (Some (nd, cmd1)) :: ObsWithin 2 true :: tr)).
    { apply safe_trigger; [done|]. intros r _. split; [by eapply P_submitted|done]. }
    intros _ tr3 HP3 ->. apply safe_ret; [done|]. by split.
Qed.

(** [P] also survives a submission. *)
Lemma tryStart_safe turns starts tr :
  (∀ tr1 i, submitted cmd tr1 = i :: submitted cmd tr → P tr1) → P tr →
  safe aobs env P (λ si tr1,
    (submitted cmd tr1 = submitted cmd tr ∧ si.2 = -1) ∨ submitted cmd tr1 = si.2 :: submitted cmd tr ∧
      ∃ tr2 rf t, env tr2 _ (Start rf cmd) = (si.2, t, true))
    (tryStart n cmd turns starts) tr.
Proof.
  intros Hadd HP. enough (∀ tr1, P tr1 → submitted cmd tr1 = submitted cmd tr →
    safe aobs env P (λ si tr1,
    (submitted cmd tr1 = submitted cmd tr ∧ si.2 = -1) ∨ submitted cmd tr1 = si.2 :: submitted cmd tr ∧
      ∃ tr2 rf t, env tr2 _ (Start rf cmd) = (si.2, t, true)) (tryStart n cmd turns starts) tr1) by auto.
  revert starts. induction turns as [|turns IH]; intros starts tr1 HP1 Hs; simpl; [apply safe_ret; auto|].
  set (st := ((starts + 1) mod n)%nat).
  apply (safe_bind _ _ _ (λ rf tr2, tr2 = ObsLookup st rf :: tr1)).
  { apply safe_trigger; [done|]. intros rf _. split; [by eapply P_submitted|done]. }
  intros [rf|] tr2 HP2 ->; [|by apply IH].
  apply (safe_bind _ _ _ (λ r tr3, tr3 = ObsStart rf cmd r :: ObsLookup st (Some rf) :: tr1 ∧
    r = env (ObsLookup st (Some rf) :: tr1) _ (Start rf cmd))).
  { apply safe_trigger; [done|]. intros [[i t] []] Hr; (split; [|done]).
    - eapply (Hadd _ i). simpl. by rewrite decide_True, Hs.
    - by eapply P_submitted. }
  intros [[i t] []] tr3 HP3 [-> Hr]; simpl; [|by apply IH].
  apply safe_ret; [done|]. right. simpl. rewrite decide_True, Hs by done. split; [done|].
  by eexists _, rf, t.
Qed.

Hypothesis P_retry : ∀ tr1, (retry = false → (length (submitted cmd tr1) ≤ 1)%nat) → P tr1.
Hypothesis start_index : retry = false → ∀ tr rf i t, env tr _ (Start rf cmd) = (i, t, true) → i ≠ -1.

Lemma one_safe :
  P [] →
  safe aobs env P (λ o tr, match o with Result r => r ∈ submitted cmd tr ∧ agreed r tr | _ => True end)
    (one n cmd expectedServers retry) [].
Proof.
  intros HP0. unfold one.
  apply (safe_iter _ _ _ _ (λ _ tr, P tr ∧ (retry = false → submitted cmd tr = []))); [|done].
  intros starts tr [HP Hs]. unfold oneTurn. apply (safe_bind _ _ _ (λ b tr1, tr1 = ObsWithin 10 b :: tr)).
  { apply safe_trigger; [done|]. intros b _. split; [by eapply P_submitted|done]. }
  intros [] tr1 HP1 ->; [|by apply safe_ret].
  eapply safe_bind; [apply tryStart_safe; [|done]|].
  { intros tr2 i Hi. apply P_retry. intros Hr. rewrite Hi. simpl. by rewrite (Hs Hr). }
  simpl. intros [st index] tr2 HP2 Hsi. simpl in *. case_decide as Hidx.
  - apply (safe_bind _ _ _ (λ _ tr3, tr3 = ObsSleep 50 :: tr2)).
    { apply safe_trigger; [done|]. intros b _. split; [by eapply P_submitted|done]. }
    intros _ tr3 HP3 ->. apply safe_ret; [done|]. split; [done|]. intros Hr. simpl.
    destruct Hsi as [[-> _]|(_ & tr4 & rf & t & He)]; [auto|]. by destruct (start_index Hr _ _ _ _ He).
  - destruct Hsi as [[_ ?]|[Hsub _]]; [done|]. eapply safe_bind; [by apply waitAgree_safe|].
    intros [o|] tr3 HP3 [Hs3 Ho]; [|destruct retry; by apply safe_ret]. apply safe_ret; [done|].
    destruct o as [r| |]; [|done..]. destruct Ho as [-> Ho]. split; [|done]. rewrite Hs3, Hsub. by left.
Qed.

End OneSpec.

(** The environment of a test on [n] servers: [cfgAt tr] is the configuration when [tr] has
    happened. Between two events the harness and the apply readers go on. [cfg.rafts] is looked up in the
    configuration of the moment, and [nCommitted] reads the logs while it runs. *)
Record drives (env : @Env agreeE agreeObs) (n : nat) (u : bool) (cfgAt : list agreeObs → config) : Prop := {
  dr_start : harness n u (cfgAt []);
  dr_later : ∀ tr X (ev : agreeE X), later (cfgAt tr) (cfgAt (aobs X ev (env tr X ev) :: tr));
  dr_lookup : ∀ tr i, env tr _ (Lookup i) = if conn (cfgAt tr) i then default None (rafts (cfgAt tr) !! i) else None;
  dr_committed : ∀ tr index, ∃ cs, length cs = n ∧ env tr _ (Committed index) = nCommitted cs index ∧
    moments (cfgAt tr) cs (cfgAt (ObsCommitted index (env tr _ (Committed index)) :: tr));
}.

Lemma drives_harness env n u cfgAt tr :
  drives env n u cfgAt → genuine aobs env tr → harness n u (cfgAt tr).
Proof.
  intros D. induction 1 as [|tr X ev _ IH]; [apply (dr_start _ _ _ _ D)|].
  eapply harness_later, (dr_later _ _ _ _ D); done.
Qed.

(** C27: When one(cmd, expected, retry) returns an index, a server that says it leads has put cmd there, and
    the call of nCommitted that made it return, which read the logs of all servers in turn, found
    the index applied by at least [expected] of them, and by at least one, and by none with
    another command. If moreover no reader of an apply channel has found an error by the time
    it returns, then at that time at least [expected] servers have the index, all
    with cmd. Without retry at most one server is made to accept the command, at every moment of the run. (Start is
    assumed not to accept with index -1, which one takes for no leader.) *)
Theorem one_agreement (env : @Env agreeE agreeObs) n u cfgAt cmd expectedServers retry fuel :
  drives env n u cfgAt → (∀ tr rf i t, env tr _ (Start rf cmd) = (i, t, true) → i ≠ -1) →
  let '(o, tr) := exec aobs env fuel (one n cmd expectedServers retry) [] in
  (retry = false → (length (submitted cmd tr) ≤ 1)%nat) ∧
  ∀ index, o = Some (Result index) →
    index ∈ submitted cmd tr ∧
    (∃ tr' nd cs, tr = ObsCommitted index (Some (nd, cmd)) :: tr' ∧
       moments (cfgAt tr') cs (cfgAt tr) ∧ length cs = n ∧
       nd = appliedBy (seen cs) index ∧ nd >= expectedServers ∧ nd > 0 ∧
       ∀ l v, l ∈ seen cs → l !! index = Some v → v = cmd) ∧
    (errors (cfgAt tr) = [] →
       appliedBy (logs (cfgAt tr)) index >= expectedServers ∧ appliedBy (logs (cfgAt tr)) index > 0 ∧
       ∀ i li v, logs (cfgAt tr) !! i = Some li → li !! index = Some v → v = cmd).
Proof.
  intros D Hst.
  assert (Hsafe := one_safe env n cmd expectedServers retry
    (λ tr, retry = false → (length (submitted cmd tr) ≤ 1)%nat)
    ltac:(cbn beta; intros tr tr' HP ->; exact HP) ltac:(auto) ltac:(eauto) ltac:(simpl; lia)).
  specialize (Hsafe fuel fuel ltac:(lia)).
  pose proof (exec_genuine aobs env fuel (one n cmd expectedServers retry) [] (genuine_nil _ _)) as Hg.
  destruct (exec _ _ _ _ _) as [o tr]. destruct Hsafe as [HP HQ]. simpl in Hg.
  split; [done|]. intros index ->. destruct HQ as [Hsub (nd & tr' & -> & Hnd & Hpos & Hge)]. split; [done|].
  destruct (dr_committed _ _ _ _ D tr' index) as (cs & Hlen & He & Hm). rewrite Hnd in He, Hm. symmetry in He.
  destruct (nCommittedLoop_inv _ _ _ _ _ _ He) as (Hcount & _ & Hall); [lia|]. rewrite Z.add_0_l in Hcount.
  assert (Hg' : genuine aobs env tr') by (by inversion Hg).
  split; [by exists tr', nd, cs|]. intros Herr.
  destruct (committed_logs n u _ cs _ index nd cmd (drives_harness _ _ _ _ _ D Hg') Hm Hlen Herr He) as [Hle Hc].
  split_and!; [lia|lia|]. apply Hc. lia.
Qed.

(** ** What [wait] returns *)

Section WaitSpec.
Context (env : @Env agreeE agreeObs) (nrafts : nat) (index n startTerm : Z).

Lemma movedOn_total ids : total aobs env (movedOn startTerm ids).
Proof.
  induction ids as [|i ids IH]; simpl; [apply total_ret|]. apply total_bind; [apply total_trigger|].
  intros [t|]; [case_decide; [apply total_ret|done]|apply total_ret].
Qed.

Lemma wait_total : total aobs env (wait nrafts index n startTerm).
Proof.
  apply total_bind.
  - generalize 10 as to. generalize 30%nat as iters. induction iters as [|iters IH]; intros to; simpl; [apply total_ret|].
    apply total_bind; [apply total_trigger|]. intros [[nd cmd]|]; [|apply total_ret].
    case_decide; [apply total_ret|]. apply total_bind; [apply total_trigger|]. intros _.
    case_decide; [|apply IH]. apply total_bind; [apply movedOn_total|]. intros [o|]; [apply total_ret|apply IH].
  - intros [o|]; [apply total_ret|]. apply total_bind; [apply total_trigger|].
    intros [[nd cmd]|]; apply total_ret.
Qed.

(** Why [wait] ends early. *)
Definition early (o : Outcome) (tr : list agreeObs) : Prop :=
  match o with
  | Result r => r = -1 ∧ startTerm > -1 ∧ ∃ i t, ObsTerm i (Some t) ∈ tr ∧ t > startTerm
  | Fatal => ObsCommitted index None ∈ tr
  | Panic => startTerm > -1 ∧ ∃ i, (i < nrafts)%nat ∧ ObsTerm i None ∈ tr
  end.

Lemma movedOn_safe ids tr :
  startTerm > -1 → (∀ i, i ∈ ids → (i < nrafts)%nat) →
  safe aobs env (λ _, True) (λ o tr1, match o with Some o => early o tr1 | None => True end) (movedOn startTerm ids) tr.
Proof.
  intros Hst. revert tr. induction ids as [|i ids IH]; intros tr Hlt; simpl; [by apply safe_ret|].
  apply (safe_bind _ _ _ (λ t tr1, tr1 = ObsTerm i t :: tr)); [by apply safe_trigger|].
  intros [t|] tr1 _ ->; [case_decide|].
  - apply safe_ret; [done|]. split_and!; [done..|]. exists i, t. split; [by left|done].
  - apply IH. intros. apply Hlt. by right.
  - apply safe_ret; [done|]. split; [done|]. exists i. split; [apply Hlt; by left|by left].
Qed.

Lemma waitLoop_safe iters to tr :
  safe aobs env (λ _, True) (λ o tr1, match o with Some o => early o tr1 | None => True end)
    (waitLoop nrafts index n startTerm iters to) tr.
Proof.
  revert to tr. induction iters as [|iters IH]; intros to tr; simpl; [by apply safe_ret|].
  apply (safe_bind _ _ _ (λ r tr1, tr1 = ObsCommitted index r :: tr)); [by apply safe_trigger|].
  intros [[nd cmd]|] tr1 _ ->; [|by apply safe_ret; [|left]].
  case_decide; [by apply safe_ret|]. apply (safe_bind _ _ _ (λ _ _, True)); [by apply safe_trigger|]. intros _ tr2 _ _.
  case_decide; [|apply IH]. eapply safe_bind; [apply movedOn_safe; [done|]|].
  - intros i [_ ?]%elem_of_seq. lia.
  - intros [o|] tr3 _ Ho; [by apply safe_ret|apply IH].
Qed.

End WaitSpec.

(** wait always returns. If it returns a command, the last nCommitted counted at least n
    servers for it; it returns -1 only if it was given a term and a server is beyond it; it
    panics only if it was given a term and some server is not running. *)
Theorem wait_returns (env : @Env agreeE agreeObs) nrafts index n startTerm :
  ∃ o tr, returns aobs env (wait nrafts index n startTerm) [] o tr ∧
    (early nrafts index startTerm o tr ∨
     ∃ nd cmd tr', tr = ObsCommitted index (Some (nd, cmd)) :: tr' ∧ o = (if decide (nd < n) then Fatal else Result cmd)).
Proof.
  destruct (wait_total env nrafts index n startTerm []) as (o & tr & Hr). exists o, tr. split; [done|].
  refine (proj2 (safe_returns aobs env (λ _, True) (λ o tr, early nrafts index startTerm o tr ∨
    ∃ nd cmd tr', tr = ObsCommitted index (Some (nd, cmd)) :: tr' ∧ o = (if decide (nd < n) then Fatal else Result cmd))
    _ _ _ _ _ Hr)).
  unfold wait. eapply safe_bind; [apply waitLoop_safe|]. intros [o'|] tr1 _ Ho; [apply safe_ret; auto|].
  apply (safe_bind _ _ _ (λ r tr2, tr2 = ObsCommitted index r :: tr1)); [by apply safe_trigger|].
  intros [[nd cmd]|] tr2 _ ->; apply safe_ret; [done| |done|].
  - right. by exists nd, cmd, tr1.
  - left. by left.
Qed.

(** A server that is not running makes [wait] panic. *)
Lemma wait_crashed_panics (env : @Env agreeE agreeObs) index n startTerm :
  startTerm > -1 → (∀ tr, ∃ nd cmd, env tr _ (Committed index) = Some (nd, cmd) ∧ nd < n) →
  (∀ tr, env tr _ (Term 0) = None) →
  ∃ tr, returns aobs env (wait 1 index n startTerm) [] Panic tr.
Proof.
  intros Hst Hc Ht. destruct (Hc []) as (nd & cmd & Hnd & Hlt).
  set (tr1 := [ObsCommitted index (Some (nd, cmd))]). set (tr2 := ObsSleep 10 :: tr1).
  exists (ObsTerm 0 None :: tr2). unfold wait. apply returns_bind.
  exists (Some Panic), (ObsTerm 0 None :: tr2). split; [|by apply returns_ret].
  generalize 29%nat as iters. intros iters. cbn [waitLoop].
  apply returns_bind. exists (Some (nd, cmd)), tr1. split; [by apply returns_trigger; rewrite Hnd|].
  cbn beta iota. rewrite decide_False by lia. apply returns_bind. exists tt, tr2.
  split; [apply returns_trigger; by destruct (env tr1 _ _)|].
  cbn beta iota zeta. rewrite (decide_True (P := startTerm > -1)) by done. apply returns_bind.
  exists (Some Panic), (ObsTerm 0 None :: tr2). split; [|by apply returns_ret].
  cbn [seq movedOn]. apply returns_bind. exists None, (ObsTerm 0 None :: tr2).
  split; [|by apply returns_ret]. apply returns_trigger. by rewrite Ht.
Qed.

(** ** Instances *)

(** Two servers, and a message for one of them arrives at every second event: server 0 applies
    command 7 at index 1 and then server 1 does. *)
Definition agreeAt (tr : list agreeObs) : config := config2 (take (length tr / 2) ops2).

Definition agreeEnv : @Env agreeE agreeObs := λ tr X e,
  match e in agreeE X return X with
  | Lookup i => if conn (agreeAt tr) i then default None (rafts (agreeAt tr) !! i) else None
  | Start rf cmd => (1, 1, bool_decide (rf = 1%nat))
  | Committed index => nCommitted [agreeAt tr; config2 (take (S (length tr) / 2) ops2)] index
  | Term i => Some 1
  | Within s => true
  | Sleep ms => tt
  end.

Lemma ops2_prefix k m : (k ≤ m)%nat → later (config2 (take k ops2)) (config2 (take m ops2)).
Proof.
  intros Hle. assert (Hm : take m ops2 = take k ops2 ++ drop k (take m ops2)).
  { rewrite <-(take_drop k (take m ops2)) at 1. by rewrite take_take, Nat.min_l. }
  rewrite Hm. apply config2_later. rewrite <-Hm. clear.
  do 6 (destruct m as [|m]; [vm_compute; eauto|]).
  rewrite (take_ge ops2) by (simpl; lia). vm_compute. eauto.
Qed.

Lemma agreeEnv_drives : drives agreeEnv 2 false agreeAt.
Proof.
  split.
  - apply harness2. vm_compute. eauto.
  - intros tr X ev. apply ops2_prefix. simpl length. apply Nat.Div0.div_le_mono. lia.
  - done.
  - intros tr index. eexists. split_and!; [|reflexivity|]; [done|]. split; [done|].
    split; [apply ops2_prefix, Nat.Div0.div_le_mono; lia|]. simpl length. by apply ops2_prefix.
Qed.

Lemma one_agreement_witness :
  (exec aobs agreeEnv 40 (one 2 7 2 false) []).1 = Some (Result 1) ∧
  appliedBy (logs (agreeAt (exec aobs agreeEnv 40 (one 2 7 2 false) []).2)) 1 >= 2.
Proof.
  assert (Hrun : (exec aobs agreeEnv 40 (one 2 7 2 false) []).1 = Some (Result 1)) by (vm_compute; reflexivity).
  assert (Herr : errors (agreeAt (exec aobs agreeEnv 40 (one 2 7 2 false) []).2) = []) by (vm_compute; reflexivity).
  split; [exact Hrun|].
  assert (H := one_agreement agreeEnv 2 false agreeAt 7 2 false 40 agreeEnv_drives
    ltac:(intros tr' rf i t Hi; cbn in Hi; injection Hi as <- _ _; lia)).
  destruct (exec aobs agreeEnv 40 (one 2 7 2 false) []) as [o tr]. simpl in *.
  exact (proj1 (proj2 (proj2 (proj2 H 1 Hrun)) Herr)).
Defined.
