(* ===== verification/GoStrings.v ===== *)
(** * Strings as Go's standard library treats them

    [strconv.Itoa] and [strconv.Atoi], the splitting of strings at a
    separator, the order of [sort.Strings], and the JSON stream of key/value
    pairs that encoding/json writes and reads, for the code of mapreduce/ and
    main/ that uses them. A Go string is its bytes. *)

From S2P Require Import Prelude.
From Stdlib Require Import Ascii.

(** ** strconv *)

Definition Itoa (z : Z) : string := pretty z.

Definition digitOf (c : ascii) : option Z :=
  let k := Z.of_N (N_of_ascii c) - 48 in
  if decide (0 ≤ k < 10) then Some k else None.

Fixpoint parseDigits (acc : Z) (s : string) : option Z :=
  match s with
  | EmptyString => Some acc
  | String c s => let* d := digitOf c in parseDigits (acc * 10 + d) s
  end.

(** A 64-bit [int]. *)
Definition int64 (z : Z) : Prop := - 2 ^ 63 ≤ z < 2 ^ 63.
#[export] Instance int64_dec z : Decision (int64 z) := _.

(** [strconv.Atoi]: an optional sign and at least one digit; [None] is an
    error, of syntax or of range. *)
Definition Atoi (s : string) : option Z :=
  let* z := match s with
            | String "-" s => if decide (s = EmptyString) then None else Z.opp <$> parseDigits 0 s
            | String "+" s => if decide (s = EmptyString) then None else parseDigits 0 s
            | s => if decide (s = EmptyString) then None else parseDigits 0 s
            end%char in
  if decide (int64 z) then Some z else None.

Lemma digitOf_pretty x : (x < 10)%N → digitOf (pretty_N_char x) = Some (Z.of_N x).
Proof.
  intros. assert (x = 0 ∨ x = 1 ∨ x = 2 ∨ x = 3 ∨ x = 4 ∨ x = 5 ∨ x = 6 ∨ x = 7 ∨ x = 8 ∨ x = 9)%N
    as Hx by lia. by destruct_or! Hx; subst.
Qed.

Lemma parseDigits_go x s : parseDigits 0 (pretty_N_go x s) = parseDigits (Z.of_N x) s.
Proof.
  revert s. induction (N.lt_wf_0 x) as [x _ IH]; intros s.
  destruct (decide (x = 0)%N) as [->|]; [by rewrite pretty_N_go_0|].
  rewrite pretty_N_go_step by lia. rewrite IH by (apply N.div_lt; lia). simpl.
  rewrite digitOf_pretty by (by apply N.mod_lt). simpl. f_equal.
  pose proof (N.div_mod x 10). lia.
Qed.

Lemma pretty_N_go_nonempty x s : (0 < x)%N ∨ s ≠ "" → pretty_N_go x s ≠ "".
Proof.
  revert s. induction (N.lt_wf_0 x) as [x _ IH]; intros s Hs.
  destruct (decide (x = 0)%N) as [->|]; [rewrite pretty_N_go_0; naive_solver lia|].
  rewrite pretty_N_go_step by lia. apply IH; [apply N.div_lt; lia|by right].
Qed.

(** Atoi inverts Itoa on 64-bit integers. *)
Lemma Atoi_Itoa z : int64 z → Atoi (Itoa z) = Some z.
Proof.
  intros Hz. unfold Itoa, pretty, pretty_Z. destruct z as [|p|p]; [done|..].
  - unfold pretty, pretty_positive, pretty, pretty_N. rewrite decide_False by done.
    pose proof (parseDigits_go (Npos p) "") as Hp. simpl in Hp.
    assert (pretty_N_go (Npos p) "" ≠ "") as Hne by (apply pretty_N_go_nonempty; by left).
    assert (∀ s', pretty_N_go (Npos p) "" ≠ "-" +:+ s') as Hm
      by (intros; by apply pretty_N_go_ne_dash).
    assert (∀ s', pretty_N_go (Npos p) "" ≠ "+" +:+ s') as Hpl.
    { intros s' E. rewrite E in Hp. done. }
    destruct (pretty_N_go (Npos p) "") as [|c s]; [done|].
    unfold Atoi. rewrite decide_False by done. rewrite Hp.
    assert (c ≠ "-"%char) by (intros ->; by destruct (Hm s)).
    assert (c ≠ "+"%char) by (intros ->; by destruct (Hpl s)).
    destruct c as [[] [] [] [] [] [] [] []]; try done; simpl; by rewrite decide_True.
  - unfold pretty, pretty_positive, pretty, pretty_N. rewrite decide_False by done.
    pose proof (parseDigits_go (Npos p) "") as Hp. simpl in Hp.
    assert (pretty_N_go (Npos p) "" ≠ "") as Hne by (apply pretty_N_go_nonempty; by left).
    destruct (pretty_N_go (Npos p) "") as [|c s]; [done|].
    change (Atoi ("-" +:+ String c s)) with
      (let* z := (if decide (String c s = "") then None else Z.opp <$> parseDigits 0 (String c s)) in
       if decide (int64 z) then Some z else None).
    rewrite decide_False by done. rewrite Hp. simpl. by rewrite decide_True.
Qed.

#[export] Instance Itoa_inj : Inj (=) (=) Itoa.
Proof. unfold Itoa. apply _. Qed.

(** ** Appending strings *)

Lemma sapp_assoc (a b c : string) : (a +:+ b) +:+ c = a +:+ (b +:+ c).
Proof. induction a as [|x a IH]; [done|]. exact (f_equal (String x) IH). Qed.

Lemma sapp_nil_r (a : string) : a +:+ "" = a.
Proof. induction a as [|x a IH]; [done|]. exact (f_equal (String x) IH). Qed.

Lemma sconcat_app (l k : list string) :
  foldr String.append "" (l ++ k) = foldr String.append "" l +:+ foldr String.append "" k.
Proof.
  induction l as [|x l IH]; [done|].
  etrans; [exact (f_equal (String.append x) IH)|]. symmetry. apply sapp_assoc.
Qed.

(** The bytes of a string. *)
Fixpoint chars (s : string) : list ascii :=
  match s with EmptyString => [] | String c s => c :: chars s end.

Lemma chars_app a b : chars (a +:+ b) = chars a ++ chars b.
Proof. induction a as [|x a IH]; [done|]. exact (f_equal (cons x) IH). Qed.

(** What precedes the first occurrence of a byte determines the rest. *)
Lemma split_at_char (d : ascii) (a a' b b' : string) :
  d ∉ chars a → d ∉ chars a' → a +:+ String d b = a' +:+ String d b' → a = a' ∧ b = b'.
Proof.
  revert a'. induction a as [|x a IH]; intros [|x' a'] Ha Ha' H; simpl in *; simplify_eq; [done|..].
  - set_solver.
  - set_solver.
  - destruct (IH a') as [-> ->]; [set_solver..|done|done].
Qed.

Lemma chars_pretty_N_go x s d :
  digitOf d = None → d ∈ chars (pretty_N_go x s) → d ∈ chars s.
Proof.
  intros Hd. revert s. induction (N.lt_wf_0 x) as [x _ IH]; intros s.
  destruct (decide (x = 0)%N) as [->|]; [by rewrite pretty_N_go_0|].
  rewrite pretty_N_go_step by lia. intros H%IH; [|apply N.div_lt; lia].
  apply elem_of_cons in H as [->|]; [|done].
  rewrite digitOf_pretty in Hd; [done|]. by apply N.mod_lt.
Qed.

(** The decimal form of a number that is not negative has digits only. *)
Lemma chars_Itoa z d : 0 ≤ z → digitOf d = None → d ∉ chars (Itoa z).
Proof.
  intros Hz Hd Hin. unfold Itoa, pretty, pretty_Z in Hin. destruct z as [|p|p]; [|..|lia].
  - apply list_elem_of_singleton in Hin as ->. done.
  - unfold pretty, pretty_positive, pretty, pretty_N in Hin. rewrite decide_False in Hin by done.
    apply chars_pretty_N_go in Hin; [|done]. by apply elem_of_nil in Hin.
Qed.
