(* ===== verification/Runes.v ===== *)
(** * Runes: unicode/utf8 and strings.FieldsFunc

    The UTF-8 decoding of Go strings, which main/wc.go and main/ii.go use to find
    words and labgob/labgob.go to find the first letter of a field. *)

From S2P Require Import Prelude GoStrings.
From Stdlib Require Import Ascii.

Definition byteOf (c : ascii) : Z := Z.of_N (N_of_ascii c).

(** A continuation byte in the given range. *)
Definition contIn (lo hi : Z) (c : ascii) : bool := bool_decide (lo ≤ byteOf c ≤ hi).

(** The first rune of a text and its number of bytes: [utf8.DecodeRune]. An
    invalid sequence is the rune U+FFFD of width 1. *)
Definition decodeRune (s : list ascii) : Z * nat :=
  let bad := (0xFFFD, 1%nat) in
  match s with
  | [] => (0xFFFD, 0%nat)
  | c0 :: s =>
      let b0 := byteOf c0 in
      if decide (b0 < 0x80) then (b0, 1%nat)
      else if decide (0xC2 ≤ b0 ≤ 0xDF) then
        match s with
        | c1 :: _ =>
            if contIn 0x80 0xBF c1 then (Z.land b0 31 * 64 + Z.land (byteOf c1) 63, 2%nat) else bad
        | _ => bad
        end
      else if decide (0xE0 ≤ b0 ≤ 0xEF) then
        match s with
        | c1 :: c2 :: _ =>
            if contIn (if decide (b0 = 0xE0) then 0xA0 else 0x80)
                 (if decide (b0 = 0xED) then 0x9F else 0xBF) c1 && contIn 0x80 0xBF c2
            then (Z.land b0 15 * 4096 + Z.land (byteOf c1) 63 * 64 + Z.land (byteOf c2) 63, 3%nat)
            else bad
        | _ => bad
        end
      else if decide (0xF0 ≤ b0 ≤ 0xF4) then
        match s with
        | c1 :: c2 :: c3 :: _ =>
            if contIn (if decide (b0 = 0xF0) then 0x90 else 0x80)
                 (if decide (b0 = 0xF4) then 0x8F else 0xBF) c1 &&
               contIn 0x80 0xBF c2 && contIn 0x80 0xBF c3
            then (Z.land b0 7 * 262144 + Z.land (byteOf c1) 63 * 4096 +
                  Z.land (byteOf c2) 63 * 64 + Z.land (byteOf c3) 63, 4%nat)
            else bad
        | _ => bad
        end
      else bad
  end.

(** The runes of a text, each with its bytes. A rune has at least one byte, so
    the number of bytes is enough fuel. *)
Fixpoint runesFuel (fuel : nat) (s : list ascii) : list (Z * list ascii) :=
  match fuel, s with
  | S fuel, _ :: _ =>
      let '(r, w) := decodeRune s in (r, take w s) :: runesFuel fuel (drop w s)
  | _, _ => []
  end.
Definition runes (s : list ascii) : list (Z * list ascii) := runesFuel (length s) s.

Definition ofChars (l : list ascii) : string := foldr String "" l.

(** [strings.FieldsFunc]: the maximal runs of runes that do not satisfy [f]. *)
Fixpoint fieldsLoop (f : Z → bool) (cur : list ascii) (rs : list (Z * list ascii)) : list string :=
  match rs with
  | [] => if decide (cur = []) then [] else [ofChars cur]
  | (r, b) :: rs =>
      if f r then (if decide (cur = []) then [] else [ofChars cur]) ++ fieldsLoop f [] rs
      else fieldsLoop f (cur ++ b) rs
  end.
Definition FieldsFunc (s : string) (f : Z → bool) : list string := fieldsLoop f [] (runes (chars s)).

(** ** Valid UTF-8 *)

(** The first rune of a text [l], as [decodeRune] finds it: an invalid byte, an ASCII
    character, or a sequence of bytes from 128 up. *)
Inductive firstRune (l : list ascii) : Z → nat → Prop :=
  | first_bad : l ≠ [] → firstRune l 0xFFFD 1
  | first_ascii c k : l = c :: k → byteOf c < 0x80 → firstRune l (byteOf c) 1
  | first_multi r w : (2 ≤ w ≤ length l)%nat → Forall (λ c, 0x80 ≤ byteOf c) (take w l) →
      (∀ k, decodeRune (take w l ++ k) = (r, w)) →
      (r = 0x2028 ∨ r = 0x2029 → byteOf <$> take w l = [0xE2; 0x80; r - 0x1F80]) → firstRune l r w.

Lemma contIn_Some lo hi c : contIn lo hi c = true ↔ lo ≤ byteOf c ≤ hi.
Proof. unfold contIn. apply bool_decide_eq_true. Qed.

Lemma land_low x n : 0 ≤ n → Z.land x (2 ^ n - 1) = x mod 2 ^ n.
Proof. intros Hn. rewrite <-Z.land_ones by done. by rewrite Z.ones_equiv, <-Z.sub_1_r. Qed.

Ltac utf8_lia :=
  change 31 with (2 ^ 5 - 1) in *; change 15 with (2 ^ 4 - 1) in *; change 7 with (2 ^ 3 - 1) in *;
  change 63 with (2 ^ 6 - 1) in *; rewrite ?land_low in * by lia; simpl Z.pow in *;
  Z.div_mod_to_equations; lia.

Lemma decodeRune_first l r w : decodeRune l = (r, w) → l ≠ [] → firstRune l r w.
Proof.
  destruct l as [|c0 l]; [done|]. intros Hd Hne. unfold decodeRune in Hd.
  destruct (decide (byteOf c0 < 0x80)) as [H0|H0]; [simplify_eq; by eapply first_ascii|].
  assert (Hbad : (0xFFFD, 1%nat) = (r, w) → firstRune (c0 :: l) r w) by (intros [= <- <-]; by apply first_bad).
  destruct (decide (0xC2 ≤ byteOf c0 ≤ 0xDF)) as [H2|H2].
  { destruct l as [|c1 l]; [by apply Hbad|]. destruct (contIn 0x80 0xBF c1) eqn:C1; [|by apply Hbad].
    simplify_eq. pose proof (proj1 (contIn_Some _ _ _) C1). apply first_multi; simpl.
    - lia.
    - repeat constructor; lia.
    - intros k. rewrite decide_False, decide_True, C1 by lia. done.
    - intros Hr. exfalso. utf8_lia. }
  destruct (decide (0xE0 ≤ byteOf c0 ≤ 0xEF)) as [H3|H3].
  { destruct l as [|c1 [|c2 l]]; [by apply Hbad..|].
    destruct (contIn _ _ c1 && contIn 0x80 0xBF c2) eqn:C; [|by apply Hbad].
    simplify_eq. pose proof C as [C1 C2]%andb_true_iff. apply contIn_Some in C1, C2.
    assert (0x80 ≤ byteOf c1 ≤ 0xBF) by (repeat case_decide; lia). apply first_multi; simpl.
    - lia.
    - repeat constructor; lia.
    - intros k. rewrite !(decide_False (P:=byteOf c0 < _)), (decide_False (P:=_ ≤ _ ≤ 0xDF)), (decide_True (P:=0xE0 ≤ _ ≤ 0xEF)), C by lia. done.
    - intros Hr. clear C C1. assert (byteOf c0 = 0xE2 ∧ byteOf c1 = 0x80) as [-> ->] by utf8_lia.
      do 3 f_equal. utf8_lia. }
  destruct (decide (0xF0 ≤ byteOf c0 ≤ 0xF4)) as [H4|H4]; [|by apply Hbad].
  destruct l as [|c1 [|c2 [|c3 l]]]; [by apply Hbad..|].
  destruct (contIn _ _ c1 && contIn 0x80 0xBF c2 && contIn 0x80 0xBF c3) eqn:C; [|by apply Hbad].
  simplify_eq. pose proof C as [[C1 C2]%andb_true_iff C3]%andb_true_iff. apply contIn_Some in C1, C2, C3.
  assert (0x80 ≤ byteOf c1 ≤ 0xBF ∧ (byteOf c0 = 0xF0 → 0x90 ≤ byteOf c1)) by (repeat case_decide; lia).
  apply first_multi; simpl.
  - lia.
  - repeat constructor; lia.
  - intros k. rewrite !(decide_False (P:=byteOf c0 < _)), (decide_False (P:=_ ≤ _ ≤ 0xDF)), (decide_False (P:=_ ≤ _ ≤ 0xEF)),
      (decide_True (P:=0xF0 ≤ _ ≤ 0xF4)), C by lia. done.
  - intros Hr. exfalso. clear C C1. utf8_lia.
Qed.

Lemma firstRune_width l r w : firstRune l r w → (1 ≤ w ≤ length l)%nat.
Proof. intros [Hne|c k -> _|? ? ? _ _ _]; simpl; [destruct l; simpl; [done|lia]|lia|lia]. Qed.

Lemma runesFuel_enough fuel l : (length l ≤ fuel)%nat → runesFuel fuel l = runes l.
Proof.
  unfold runes. revert l. induction (lt_wf fuel) as [fuel _ IH]. intros l Hf.
  destruct l as [|c l]; [by destruct fuel|]. destruct fuel as [|fuel]; [simpl in Hf; lia|].
  cbn [runesFuel length]. destruct (decodeRune (c :: l)) as [r w] eqn:Hd. f_equal.
  pose proof (firstRune_width _ _ _ (decodeRune_first _ _ _ Hd ltac:(done))) as Hw.
  assert (length (drop w (c :: l)) ≤ length l)%nat by (rewrite length_drop; simpl; lia).
  simpl in Hf. etrans; [apply IH; lia|]. symmetry. apply IH; lia.
Qed.

Lemma runes_first l r w : decodeRune l = (r, w) → l ≠ [] → runes l = (r, take w l) :: runes (drop w l).
Proof.
  intros Hd Hne. destruct l as [|c l]; [done|]. unfold runes at 1. cbn [length runesFuel]. rewrite Hd. f_equal.
  pose proof (firstRune_width _ _ _ (decodeRune_first _ _ _ Hd ltac:(done))) as Hw.
  apply runesFuel_enough. rewrite length_drop. simpl. lia.
Qed.

(** Induction over the runes of a text. *)
Lemma runes_ind (P : list ascii → Prop) :
  P [] → (∀ l r w, l ≠ [] → decodeRune l = (r, w) → firstRune l r w → P (drop w l) → P l) → ∀ l, P l.
Proof.
  intros H0 Hs l. remember (length l) as n eqn:Hn. revert l Hn. induction (lt_wf n) as [n _ IH]. intros l ->.
  destruct (decide (l = [])) as [->|Hne]; [done|]. destruct (decodeRune l) as [r w] eqn:Hd.
  pose proof (decodeRune_first _ _ _ Hd Hne) as Hf. pose proof (firstRune_width _ _ _ Hf) as Hw.
  apply (Hs l r w Hne Hd Hf). eapply IH; [|done]. rewrite length_drop. lia.
Qed.

Lemma runes_bytes l : concat (snd <$> runes l) = l.
Proof.
  induction l as [|l r w Hne Hd _ IH] using runes_ind; [done|].
  rewrite (runes_first _ _ _ Hd Hne), fmap_cons. cbn [concat snd]. by rewrite IH, take_drop.
Qed.

(** [utf8.Valid]: no byte is invalid. *)
Definition goodRune (rb : Z * list ascii) : Prop := ¬ (rb.1 = 0xFFFD ∧ length rb.2 = 1%nat).
Definition Valid (l : list ascii) : Prop := Forall goodRune (runes l).
Definition ValidString (s : string) : Prop := Valid (chars s).

#[export] Instance ValidString_dec s : Decision (ValidString s).
Proof. unfold ValidString, Valid, goodRune. apply _. Defined.

(** A rune is found again wherever its bytes stand. *)
Lemma good_again l r w k :
  firstRune l r w → goodRune (r, take w l) → decodeRune (take w l ++ k) = (r, w).
Proof.
  intros [Hne|c k' -> Hc|? ? _ _ Hd _] Hg; [|simpl; by rewrite decide_True|done].
  destruct Hg. by destruct l.
Qed.

Lemma runes_app l k : Valid l → runes (l ++ k) = runes l ++ runes k.
Proof.
  unfold Valid. induction l as [|l r w Hne Hd Hf IH] using runes_ind; [done|].
  rewrite (runes_first _ _ _ Hd Hne). intros [Hg Hv]%Forall_cons.
  pose proof (firstRune_width _ _ _ Hf) as Hw.
  assert (Hlk : l ++ k = take w l ++ drop w l ++ k) by (by rewrite app_assoc, take_drop).
  assert (Hlen : length (take w l) = w) by (rewrite length_take; lia).
  rewrite (runes_first (l ++ k) r w); [|rewrite Hlk; by apply good_again|by destruct l].
  rewrite take_app_le, drop_app_le by lia. cbn [app]. by rewrite IH.
Qed.

Lemma Valid_app l k : Valid l → Valid k → Valid (l ++ k).
Proof. unfold Valid. intros Hl Hk. rewrite runes_app by done. by apply Forall_app. Qed.

Lemma Valid_rune l r b : (r, b) ∈ runes l → goodRune (r, b) → Valid b.
Proof.
  induction l as [|l r0 w Hne Hd Hf IH] using runes_ind; [by intros ?%elem_of_nil|].
  rewrite (runes_first _ _ _ Hd Hne). intros [[= -> ->]|Hin]%elem_of_cons Hg; [|auto].
  pose proof (good_again _ _ _ [] Hf Hg) as Ha. rewrite app_nil_r in Ha. pose proof (firstRune_width _ _ _ Hf).
  unfold Valid. rewrite (runes_first _ _ _ Ha) by (destruct l, w; simpl in *; (done || lia)).
  rewrite take_take, Nat.min_id, drop_ge by (rewrite length_take; lia). by constructor.
Qed.

Lemma Valid_ascii l : Forall (λ c, byteOf c < 0x80) l → Valid l.
Proof.
  induction 1 as [|c l Hc _ IH]; [constructor|]. apply (Valid_app [c]); [|done].
  unfold Valid. rewrite (runes_first [c] (byteOf c) 1); [|simpl; by rewrite decide_True|done].
  repeat constructor. unfold goodRune. simpl. lia.
Qed.

Lemma ValidString_app a b : ValidString a → ValidString b → ValidString (a +:+ b).
Proof. unfold ValidString. rewrite chars_app. apply Valid_app. Qed.

Lemma chars_ofChars l : chars (ofChars l) = l.
Proof. induction l as [|c l IH]; [done|]. simpl. by rewrite IH. Qed.

Lemma ofChars_chars s : ofChars (chars s) = s.
Proof. induction s as [|c s IH]; [done|]. simpl. by rewrite IH. Qed.

(** The fields of a text are valid if the separators include the invalid bytes. *)
Lemma FieldsFunc_valid s f : f 0xFFFD = true → Forall ValidString (FieldsFunc s f).
Proof.
  intros Hf. unfold FieldsFunc.
  assert (Hgood : Forall (λ rb, f rb.1 = false → Valid rb.2) (runes (chars s))).
  { apply Forall_forall. intros [r b] Hin Hr. eapply Valid_rune; [exact Hin|]. simpl in Hr. intros [E _]. simpl in E. congruence. }
  assert (Hcur : Valid []) by constructor. revert Hcur Hgood. generalize ([] : list ascii).
  induction (runes (chars s)) as [|[r b] rs IH]; intros cur Hcur Hgood; simpl.
  - case_decide; [constructor|]. constructor; [|done]. unfold ValidString. by rewrite chars_ofChars.
  - apply Forall_cons in Hgood as [Hb Hgood]. simpl in Hb. destruct (f r).
    + apply Forall_app. split; [|by apply IH; [constructor|]]. case_decide; [constructor|].
      constructor; [|done]. unfold ValidString. by rewrite chars_ofChars.
    + apply IH; [|done]. apply Valid_app; auto.
Qed.
