(* ===== verification/Labgob.v ===== *)
(** * The checks of labgob: labgob/labgob.go

    labgob wraps encoding/gob and complains about values that would not survive
    it: struct fields whose names are not capitalized, and decoding into
    variables that are not zero. The types of a program form a graph, which may
    have cycles (a struct with a pointer to itself): [types] gives each
    [reflect.Type], a number, its description. The walk over it marks what it has
    seen in the package variable [checked].

    The table behind [unicode.IsUpper] is the parameter [IsUpper]. *)

From S2P Require Import Prelude GoStrings Runes.

(** ** What reflect says of a type *)

Inductive TypeInfo :=
  | Struct (name : string) (fields : list (string * nat))
  | Slice (elem : nat)
  | Array (elem : nat)
  | Ptr (elem : nat)
  | Map (key elem : nat)
  | Basic (name : string)
  | Other.

(** The package variables, and what was printed. *)
Record Labgob := mkLabgob {
  errorCount : Z;
  checked : gset nat;
  printed : list string;
}.

Definition initLabgob : Labgob := mkLabgob 0 ∅ [].

Section Types.
Context (IsUpper : Z → bool) (types : list TypeInfo).

(** The message of line 94, for field [f] of type [t]. *)
Definition lowerMessage (f t : string) : string :=
  "labgob error: lower-case field " +:+ f +:+ " of " +:+ t +:+
  " in RPC or persist/snapshot will break your Raft".

Definition lowerCase (name : string) : bool := negb (IsUpper (decodeRune (chars name)).1).

Definition complain (f t : string) (g : Labgob) : Labgob :=
  mkLabgob (errorCount g + 1) (checked g) (printed g ++ [lowerMessage f t]).

Definition mark (t : nat) (g : Labgob) : Labgob :=
  mkLabgob (errorCount g) ({[ t ]} ∪ checked g) (printed g).

(** The loop over the fields, with [check] for the recursive call. *)
Fixpoint checkFields (check : nat → Labgob → option Labgob) (name : string)
    (fields : list (string * nat)) (g : Labgob) : option Labgob :=
  match fields with
  | [] => Some g
  | (f, t) :: fields =>
      let g := if lowerCase f then complain f name g else g in
      let* g := check t g in
      checkFields check name fields g
  end.

(** checkType. [None]: more than [fuel] nested calls. *)
Fixpoint checkType (fuel : nat) (t : nat) (g : Labgob) : option Labgob :=
  match fuel with
  | O => None
  | S fuel =>
      if decide (t ∈ checked g) then Some g
      else
        let g := mark t g in
        match types !! t with
        | Some (Struct name fields) => checkFields (checkType fuel) name fields g
        | Some (Slice e) | Some (Array e) | Some (Ptr e) => checkType fuel e g
        | Some (Map k e) => let* g := checkType fuel e g in checkType fuel k g
        | _ => Some g
        end
  end.

(** checkValue: [None] is the type of a nil [interface{}], whose methods cannot be
    called. *)
Definition checkValue (fuel : nat) (t : option nat) (g : Labgob) : option Labgob :=
  let* t := t in checkType fuel t g.

(** ** The walk *)

Definition succs (t : nat) : list nat :=
  match types !! t with
  | Some (Struct _ fields) => fields.*2
  | Some (Slice e) | Some (Array e) | Some (Ptr e) => [e]
  | Some (Map k e) => [e; k]
  | _ => []
  end.

Definition edge (t u : nat) : Prop := u ∈ succs t.

(** The complaints about one type, and about a set of types. *)
Definition lowerMessages (t : nat) : list string :=
  match types !! t with
  | Some (Struct name fields) =>
      (λ f, lowerMessage f name) <$> filter (λ f, lowerCase f = true) fields.*1
  | _ => []
  end.

Definition messages (X : gset nat) : list string := elements X ≫= lowerMessages.

Lemma messages_union X Y : X ## Y → messages (X ∪ Y) ≡ₚ messages X ++ messages Y.
Proof.
  intros. unfold messages. rewrite elements_disj_union by done. by rewrite bind_app.
Qed.

(** What a part of the walk does that starts at [ts] and complains about
    [own] besides the types it marks. *)
Record walks (own : list string) (ts : list nat) (g g' : Labgob) : Prop := {
  wk_sub : checked g ⊆ checked g';
  wk_roots : ∀ t, t ∈ ts → t ∈ checked g';
  wk_reach : ∀ u, u ∈ checked g' → u ∈ checked g ∨ ∃ t, t ∈ ts ∧ rtc edge t u;
  wk_closed : ∀ u v, u ∈ checked g' → u ∉ checked g → edge u v → v ∈ checked g';
  wk_msgs : ∃ ms, printed g' = printed g ++ ms ∧ errorCount g' = errorCount g + zlen ms ∧
    ms ≡ₚ own ++ messages (checked g' ∖ checked g);
}.

Lemma walks_nil g : walks [] [] g g.
Proof.
  split; [done|by intros ? ?%elem_of_nil|by left|done|].
  exists []. rewrite app_nil_r, difference_diag_L. unfold zlen. simpl. split_and!; [done|lia|done].
Qed.

Lemma walks_app own1 own2 ts1 ts2 g g1 g2 :
  walks own1 ts1 g g1 → walks own2 ts2 g1 g2 → walks (own1 ++ own2) (ts1 ++ ts2) g g2.
Proof.
  intros [S1 R1 A1 C1 (m1 & P1 & E1 & M1)] [S2 R2 A2 C2 (m2 & P2 & E2 & M2)]. split.
  - set_solver.
  - set_solver.
  - intros u [?|(t & ? & ?)]%A2; [|set_solver].
    destruct (A1 u) as [?|(t & ? & ?)]; [done|by left|]. right. exists t. set_solver.
  - intros u v Hu Hn He. destruct (decide (u ∈ checked g1)) as [H1|H1].
    + apply S2. by eapply C1.
    + by eapply C2.
  - exists (m1 ++ m2). split_and!.
    + by rewrite P2, P1, (assoc_L (++)).
    + rewrite E2, E1, zlen_app. lia.
    + rewrite M1, M2.
      assert (checked g2 ∖ checked g = (checked g1 ∖ checked g) ∪ (checked g2 ∖ checked g1)) as ->.
      { apply set_eq. intros u. destruct (decide (u ∈ checked g1)); set_solver. }
      rewrite messages_union by set_solver. rewrite <-!(assoc_L (++)).
      apply Permutation_app; [done|]. rewrite !(assoc_L (++)).
      apply Permutation_app; [|done]. apply Permutation_app_comm.
Qed.

Lemma walks_complain f n g : walks [lowerMessage f n] [] g (complain f n g).
Proof.
  split; simpl; [done|by intros ? ?%elem_of_nil|by left|done|].
  exists [lowerMessage f n]. split_and!; [done..|]. rewrite difference_diag_L. done.
Qed.

(** Marking [t] and walking on from its successors is walking from [t]. *)
Lemma walks_mark t g g' :
  t ∉ checked g → walks (lowerMessages t) (succs t) (mark t g) g' → walks [] [t] g g'.
Proof.
  intros Hn [S R A C (ms & P & E & M)]. simpl in *. split.
  - set_solver.
  - intros ? ->%list_elem_of_singleton. set_solver.
  - intros u [[->%elem_of_singleton|?]%elem_of_union|(v & Hv & Hr)]%A; [|by left|].
    + right. exists t. split; [by apply list_elem_of_singleton|apply rtc_refl].
    + right. exists t. split; [by apply list_elem_of_singleton|]. by eapply rtc_l.
  - intros u v Hu Hc He. destruct (decide (u = t)) as [->|Hne]; [by apply R|].
    eapply C; [done| |done]. set_solver.
  - exists ms. split_and!; [done..|]. rewrite M.
    assert (checked g' ∖ checked g = {[ t ]} ∪ (checked g' ∖ ({[ t ]} ∪ checked g))) as ->.
    { apply set_eq. intros u. destruct (decide (u = t)) as [->|]; set_solver. }
    rewrite messages_union by set_solver. unfold messages at 2.
    rewrite elements_singleton. simpl. by rewrite app_nil_r.
Qed.

(** ** Enough fuel *)

Definition unchecked (g : Labgob) : nat := size ((set_seq 0 (length types) : gset nat) ∖ checked g).

(** The description of every type that occurs is known. *)
Definition types_ok : Prop := ∀ t u, edge t u → (u < length types)%nat.

Lemma unchecked_mono g g' : checked g ⊆ checked g' → (unchecked g' ≤ unchecked g)%nat.
Proof. intros. unfold unchecked. apply subseteq_size. set_solver. Qed.

Lemma unchecked_mark t g :
  (t < length types)%nat → t ∉ checked g → (unchecked (mark t g) < unchecked g)%nat.
Proof.
  intros Ht Hn. unfold unchecked. apply subset_size. split; [set_solver|].
  intros Hsub. specialize (Hsub t). rewrite !elem_of_difference, elem_of_set_seq in Hsub.
  simpl in Hsub. set_solver by lia.
Qed.

Lemma checkFields_walks (check : nat → Labgob → option Labgob) n name fields g :
  (∀ t g, t ∈ fields.*2 → (unchecked g < n)%nat → ∃ g', check t g = Some g' ∧ walks [] [t] g g') →
  (unchecked g < n)%nat →
  ∃ g', checkFields check name fields g = Some g' ∧
    walks ((λ f, lowerMessage f name) <$> filter (λ f, lowerCase f = true) fields.*1) fields.*2 g g'.
Proof.
  revert g. induction fields as [|[f t] fields IH]; intros g Hc Hlt.
  { exists g. split; [done|apply walks_nil]. }
  cbn [checkFields]. set (g1 := if lowerCase f then complain f name g else g).
  assert (Hw1 : walks (if lowerCase f then [lowerMessage f name] else []) [] g g1).
  { unfold g1. destruct (lowerCase f); [apply walks_complain|apply walks_nil]. }
  destruct (Hc t g1) as (g2 & -> & Hw2); [set_solver|by (unfold g1; destruct (lowerCase f))|].
  cbn [obind]. destruct (IH g2) as (g3 & -> & Hw3).
  { intros. apply Hc; set_solver. }
  { pose proof (unchecked_mono g1 g2 (wk_sub _ _ _ _ Hw2)).
    assert (unchecked g1 = unchecked g) by (unfold g1; by destruct (lowerCase f)). lia. }
  exists g3. split; [done|]. pose proof (walks_app _ _ _ _ _ _ _ (walks_app _ _ _ _ _ _ _ Hw1 Hw2) Hw3) as Hw.
  rewrite app_nil_r in Hw. cbn [app] in Hw. rewrite fmap_cons. cbn [fst snd] in *.
  rewrite filter_cons. destruct (lowerCase f) eqn:Hl.
  - rewrite decide_True by done. by rewrite !fmap_cons.
  - rewrite decide_False by done. by rewrite !fmap_cons.
Qed.

Lemma checkType_walks fuel t g :
  types_ok → (t < length types)%nat → (unchecked g < fuel)%nat →
  ∃ g', checkType fuel t g = Some g' ∧ walks [] [t] g g'.
Proof.
  intros Hok. revert t g. induction fuel as [|fuel IH]; intros t g Ht Hlt; [lia|]. cbn [checkType].
  destruct (decide (t ∈ checked g)) as [Hin|Hn].
  { exists g. split; [done|]. pose proof (walks_nil g) as [? ? ? ? ?].
    split; [done|by intros ? ->%list_elem_of_singleton|by left|done|done]. }
  pose proof (unchecked_mark t g Ht Hn) as Hm.
  assert (Hs : ∀ u, u ∈ succs t → (u < length types)%nat) by (intros u Hu; by apply (Hok t)).
  enough (∃ g', (match types !! t with
    | Some (Struct name fields) => checkFields (checkType fuel) name fields (mark t g)
    | Some (Slice e) | Some (Array e) | Some (Ptr e) => checkType fuel e (mark t g)
    | Some (Map k e) => let* g := checkType fuel e (mark t g) in checkType fuel k g
    | _ => Some (mark t g) end) = Some g' ∧ walks (lowerMessages t) (succs t) (mark t g) g')
    as (g' & -> & Hw).
  { exists g'. split; [done|by apply walks_mark]. }
  unfold succs, lowerMessages in *. destruct (types !! t) as [[name fields|e|e|e|k e|n|]|];
    try (apply IH; [set_solver|lia]); try (exists (mark t g); split; [done|apply walks_nil]).
  - eapply (checkFields_walks _ fuel); [|lia]. intros. by apply IH; [apply Hs|].
  - destruct (IH e (mark t g)) as (g1 & -> & Hw1); [set_solver|lia|]. cbn [obind].
    destruct (IH k g1) as (g2 & -> & Hw2); [set_solver| |].
    { pose proof (unchecked_mono _ _ (wk_sub _ _ _ _ Hw1)). lia. }
    exists g2. split; [done|]. exact (walks_app _ _ _ _ _ _ _ Hw1 Hw2).
Qed.

(** ** The entry points that only check types

    [Encode], [EncodeValue], [Register] and [RegisterName] check the type of their
    argument and hand it to gob: as far as labgob is concerned they are
    [checkValue]. [checkValues] is a sequence of such calls. *)

Definition Encode (fuel : nat) (t : option nat) (g : Labgob) : option Labgob := checkValue fuel t g.
Definition EncodeValue (fuel : nat) (t : option nat) (g : Labgob) : option Labgob := checkValue fuel t g.
Definition Register (fuel : nat) (t : option nat) (g : Labgob) : option Labgob := checkValue fuel t g.
Definition RegisterName (fuel : nat) (t : option nat) (g : Labgob) : option Labgob := checkValue fuel t g.

Fixpoint checkValues (fuel : nat) (ts : list nat) (g : Labgob) : option Labgob :=
  match ts with
  | [] => Some g
  | t :: ts => let* g := checkValue fuel (Some t) g in checkValues fuel ts g
  end.

Lemma checkValues_walks fuel ts g :
  types_ok → (∀ t, t ∈ ts → (t < length types)%nat) → (unchecked g < fuel)%nat →
  ∃ g', checkValues fuel ts g = Some g' ∧ walks [] ts g g'.
Proof.
  intros Hok. revert g. induction ts as [|t ts IH]; intros g Hts Hlt.
  { exists g. split; [done|apply walks_nil]. }
  destruct (checkType_walks fuel t g Hok) as (g1 & H1 & Hw1); [set_solver|done|].
  destruct (IH g1) as (g2 & H2 & Hw2); [set_solver| |].
  { pose proof (unchecked_mono _ _ (wk_sub _ _ _ _ Hw1)). lia. }
  exists g2. cbn [checkValues checkValue obind]. rewrite H1. cbn [obind]. split; [done|].
  exact (walks_app _ _ _ _ _ _ _ Hw1 Hw2).
Qed.

(** Types whose successors are all in a closed set stay in it. *)
Lemma closed_reach (X : gset nat) t u :
  (∀ v w, v ∈ X → edge v w → w ∈ X) → t ∈ X → rtc edge t u → u ∈ X.
Proof. intros Hc Ht Hr. induction Hr; eauto. Qed.

(** C28: Whatever sequence of values labgob is given, over a graph of types with or
    without cycles, it returns, has visited exactly the types reachable from theirs
    through fields, elements and keys, and has reported every
    field of those whose name is not capitalized exactly once. *)
Theorem labgob_reports_exactly ts :
  types_ok → (∀ t, t ∈ ts → (t < length types)%nat) →
  ∃ g, checkValues (S (length types)) ts initLabgob = Some g ∧
    (∀ u, u ∈ checked g ↔ ∃ t, t ∈ ts ∧ rtc edge t u) ∧
    printed g ≡ₚ messages (checked g) ∧ errorCount g = zlen (messages (checked g)).
Proof.
  intros Hok Hts.
  destruct (checkValues_walks (S (length types)) ts initLabgob Hok Hts) as (g & Hg & [S R A C (ms & P & E & M)]).
  { unfold unchecked. simpl. rewrite difference_empty_L, size_set_seq. lia. }
  exists g. simpl in *. rewrite difference_empty_L in M. split_and!; [done| |by rewrite P|].
  - intros u. split; [intros [?%elem_of_empty|?]%A; done|]. intros (t & Ht & Hr).
    apply (closed_reach _ t); [|by apply R|done]. intros v w Hv He. eapply C; [done| |done].
    apply not_elem_of_empty.
  - rewrite E. unfold zlen. by rewrite M.
Qed.

End Types.

(** ** Decoding into a variable that is not zero *)

(** A value as reflect walks it, down to a depth that the check never passes:
    a value with cycles is its unfolding. [zero] says whether a basic value is
    that of its type. *)
Inductive Value :=
  | VStruct (fields : list (string * Value))
  | VPtr (target : option Value)
  | VBasic (tname : string) (zero : bool)
  | VOther.

Definition defaultMessage (what : string) : string :=
  "labgob warning: Decoding into a non-default variable/field " +:+ what +:+ " may not work".

(** Lines 151-167. *)
Definition warn (name tname : string) (g : Labgob) : Labgob :=
  mkLabgob (errorCount g + 1) (checked g)
    (if decide (errorCount g < 1)
     then printed g ++ [defaultMessage (if decide (name = "") then tname else name)]
     else printed g).

Definition fieldName (name f : string) : string := if decide (name = "") then f else name +:+ "." +:+ f.

Fixpoint checkDefault1 (value : Value) (depth : Z) (name : string) (g : Labgob) : Labgob :=
  if decide (depth > 3) then g
  else match value with
  | VStruct fields =>
      foldl (λ g '(f, v), checkDefault1 v (depth + 1) (fieldName name f) g) g fields
  | VPtr None => g
  | VPtr (Some v) => checkDefault1 v (depth + 1) name g
  | VBasic tname zero => if zero then g else warn name tname g
  | VOther => g
  end.

(** [None] is a nil [interface{}]. *)
Definition checkDefault (value : option Value) (g : Labgob) : Labgob :=
  match value with None => g | Some v => checkDefault1 v 1 "" g end.

(** Decode, up to gob's own decoding: the type and the value of the variable. *)
Definition Decode (IsUpper : Z → bool) (types : list TypeInfo) (fuel : nat)
    (e : option (nat * Value)) (g : Labgob) : option Labgob :=
  let* g := checkValue IsUpper types fuel (fst <$> e) g in
  Some (checkDefault (snd <$> e) g).

(** *** Reference: all basic values with their depth and name *)

Fixpoint leaves (value : Value) (depth : Z) (name : string) : list (Z * string * bool) :=
  match value with
  | VStruct fields => fields ≫= (λ '(f, v), leaves v (depth + 1) (fieldName name f))
  | VPtr None => []
  | VPtr (Some v) => leaves v (depth + 1) name
  | VBasic tname zero => [(depth, if decide (name = "") then tname else name, zero)]
  | VOther => []
  end.

(** The names that should be complained about. *)
Definition nonDefault (l : list (Z * string * bool)) : list string :=
  (λ '(_, n, _), n) <$> filter (λ '(d, _, z), d ≤ 3 ∧ z = false) l.

Lemma Value_ind' (P : Value → Prop) :
  (∀ fields, Forall (λ fv, P fv.2) fields → P (VStruct fields)) →
  (∀ o, match o with Some v => P v | None => True end → P (VPtr o)) →
  (∀ n z, P (VBasic n z)) → P VOther → ∀ v, P v.
Proof.
  intros HS HP HB HO. fix IH 1. intros [fields|o|n z|].
  - apply HS. induction fields as [|[f v] fields IHf]; constructor; [apply IH|done].
  - apply HP. destruct o as [v|]; [apply IH|exact I].
  - apply HB.
  - apply HO.
Qed.

Lemma leaves_depth v depth name x : x ∈ leaves v depth name → depth ≤ x.1.1.
Proof.
  revert depth name. induction v as [fields IH|o IH|n z|] using Value_ind'; intros depth name; cbn [leaves].
  - intros ([f v] & Hx & Hin)%list_elem_of_bind. rewrite Forall_forall in IH.
    specialize (IH _ Hin _ _ Hx). lia.
  - destruct o as [v|]; [|by intros ?%elem_of_nil]. intros Hx%IH. lia.
  - by intros ->%list_elem_of_singleton.
  - by intros ?%elem_of_nil.
Qed.

Lemma nonDefault_deep v depth name : 3 < depth → nonDefault (leaves v depth name) = [].
Proof.
  intros Hd. unfold nonDefault.
  destruct (filter _ (leaves v depth name)) as [|x l] eqn:Hf; [done|].
  assert (Hx : x ∈ filter (λ '(d, _, z), d ≤ 3 ∧ z = false) (leaves v depth name)).
  { rewrite Hf. by apply elem_of_cons; left. }
  apply list_elem_of_filter in Hx as [Hx1 Hx2%leaves_depth]. destruct x as [[d n] z]. simpl in *. lia.
Qed.

Lemma nonDefault_app l k : nonDefault (l ++ k) = nonDefault l ++ nonDefault k.
Proof. unfold nonDefault. by rewrite filter_app, fmap_app. Qed.

(** The complaint about a resolved name. *)
Definition warnWhat (g : Labgob) (what : string) : Labgob :=
  mkLabgob (errorCount g + 1) (checked g)
    (if decide (errorCount g < 1) then printed g ++ [defaultMessage what] else printed g).

Lemma checkDefault1_leaves v depth name g :
  checkDefault1 v depth name g = foldl warnWhat g (nonDefault (leaves v depth name)).
Proof.
  revert depth name g. induction v as [fields IH|o IH|n z|] using Value_ind'; intros depth name g;
    (destruct (decide (3 < depth)) as [Hd|Hd];
     [rewrite nonDefault_deep by done; simpl; by rewrite decide_True by lia|]);
    cbn [checkDefault1 leaves]; rewrite decide_False by lia.
  - revert g. induction fields as [|[f v] fields IHf]; intros g; [done|].
    apply Forall_cons in IH as [IHv IH]. rewrite bind_cons, nonDefault_app, foldl_app.
    cbn [foldl]. rewrite IHv. apply IHf, IH.
  - destruct o as [v|]; [|done]. by apply IH.
  - unfold nonDefault. rewrite filter_cons, filter_nil. destruct z.
    + by rewrite decide_False by naive_solver.
    + rewrite decide_True by (split; [lia|done]). done.
  - done.
Qed.

Lemma foldl_warn g names :
  0 ≤ errorCount g →
  foldl warnWhat g names =
    mkLabgob (errorCount g + zlen names) (checked g)
      (printed g ++ if decide (errorCount g < 1) then defaultMessage <$> take 1 names else []).
Proof.
  revert g. induction names as [|n names IH]; intros g Hg; cbn [foldl].
  { unfold zlen. simpl. rewrite Z.add_0_r. destruct g. by case_decide; simpl; rewrite app_nil_r. }
  rewrite IH by (simpl; lia). unfold warnWhat. simpl. unfold zlen. cbn [length].
  rewrite (decide_False (P := errorCount g + 1 < 1)) by lia. rewrite app_nil_r.
  case_decide; simpl; rewrite ?app_nil_r; f_equal; lia.
Qed.

(** Decoding into a variable counts exactly the basic values at depth three or
    less that are not zero, and warns about the first of them only, and only
    if labgob has not complained before. *)
Theorem decode_counts_non_defaults v g :
  0 ≤ errorCount g →
  let bad := nonDefault (leaves v 1 "") in
  checkDefault (Some v) g =
    mkLabgob (errorCount g + zlen bad) (checked g)
      (printed g ++ if decide (errorCount g < 1) then defaultMessage <$> take 1 bad else []).
Proof. intros. unfold checkDefault. rewrite checkDefault1_leaves. by apply foldl_warn. Qed.

(** [Decode(nil)] panics in checkValue although checkDefault allows for nil and gob
    would discard the value. *)
Lemma decode_nil_panics IsUpper types fuel g : Decode IsUpper types fuel None g = None.
Proof. done. Qed.

(** ** Witnesses *)

(** A linked list with a lower-case field, and a reply that points to one. *)
Definition demoTypes : list TypeInfo :=
  [Struct "node" [("Next", 1%nat); ("value", 2%nat)]; Ptr 0; Basic "int";
   Struct "Reply" [("Err", 4%nat); ("Head", 1%nat)]; Basic "string"].

Definition asciiUpper (r : Z) : bool := bool_decide (65 ≤ r ≤ 90).

Lemma labgob_reports_exactly_witness :
  ∃ g, checkValues asciiUpper demoTypes 6 [3%nat; 1%nat] initLabgob = Some g ∧
    printed g ≡ₚ messages asciiUpper demoTypes (checked g) ∧ errorCount g = 1.
Proof.
  destruct (labgob_reports_exactly asciiUpper demoTypes [3%nat; 1%nat]) as (g & Hg & _ & Hp & He).
  - intros t u. unfold edge, succs. do 5 (destruct t as [|t]; [cbn; set_solver by lia|]).
    cbn. by intros ?%elem_of_nil.
  - intros t. cbn. set_solver by lia.
  - exists g. split_and!; [exact Hg|exact Hp|]. vm_compute in Hg. injection Hg as <-. reflexivity.
Defined.

Lemma decode_counts_non_defaults_witness :
  errorCount (checkDefault (Some (VPtr (Some (VStruct
    [("Err", VBasic "string" false); ("Deep", VStruct [("X", VBasic "int" false)])])))) initLabgob) = 1.
Proof.
  rewrite (decode_counts_non_defaults _ initLabgob); [vm_compute; reflexivity|simpl; lia].
Defined.
