(* ===== verification/KvRaft.v ===== *)
(** * The key-value service: kvraft/common.go, client.go and server.go

    Only the outline of the service is there: the clerk's operations make no call, and the
    handlers leave their replies as they get them. Starting a server registers the
    empty struct Op with labgob and starts a Raft peer on the persister. *)

From S2P Require Import Prelude Random Persister Raft Labgob.

Definition OK : string := "OK".
Definition ErrNoKey : string := "ErrNoKey".
Definition Err : Type := string.

Record PutAppendArgs := mkPutAppendArgs { p_Key : string; p_Value : string; p_Op : string }.
Record PutAppendReply := mkPutAppendReply { p_WrongLeader : bool; p_Err : Err }.
Record GetArgs := mkGetArgs { g_Key : string }.
Record GetReply := mkGetReply { g_WrongLeader : bool; g_Err : Err; g_Value : string }.

(** A clerk is the list of its ends. *)
Definition Clerk : Type := list string.

(** From eight random bytes. *)
Definition nrand : list Z → option Z := Random.nrand.

Definition MakeClerk (servers : list string) : Clerk := servers.

Definition Get (ck : Clerk) (key : string) : string := "".
Definition PutAppend (ck : Clerk) (key value op : string) : Clerk := ck.
Definition Put (ck : Clerk) (key value : string) : Clerk := PutAppend ck key value "Put".
Definition Append (ck : Clerk) (key value : string) : Clerk := PutAppend ck key value "Append".

Section Server.
Context {Cmd : Type} `{!Gob (Z * Z * list (LogEntry Cmd))}.
Context (IsUpper : Z → bool) (types : list TypeInfo).

Record KVServer := mkKVServer { me : Z; rf : Raft Cmd; maxraftstate : Z }.

Definition GetHandler (kv : KVServer) (args : GetArgs) (reply : GetReply) : KVServer * GetReply := (kv, reply).
Definition PutAppendHandler (kv : KVServer) (args : PutAppendArgs) (reply : PutAppendReply)
    : KVServer * PutAppendReply := (kv, reply).

Definition Kill (kv : KVServer) : KVServer := mkKVServer (me kv) (Raft.Kill (rf kv)) (maxraftstate kv).

(** [None] when labgob's walk over the types needs more than [fuel] nested calls. *)
Definition StartKVServer (fuel op : nat) (servers : list string) (i : Z) (ps : Persister) (maxraftstate : Z)
    (g : Labgob) : option (KVServer * Labgob) :=
  let* g := Register IsUpper types fuel (Some op) g in
  Some (mkKVServer i (Make (length servers) i ps) maxraftstate, g).

(** A server starts without a complaint of labgob, as the struct Op has no fields, and with
    the term, the vote and the log that were persisted last. *)
Lemma start_recovers fuel op servers i ps mx g t v l :
  types !! op = Some (Struct "Op" []) → (0 < fuel)%nat →
  ReadRaftState ps = gob_encode (t, v, l) →
  ∃ kv g', StartKVServer fuel op servers i ps mx g = Some (kv, g') ∧ printed g' = printed g ∧
    currentTerm (rf kv) = t ∧ votedFor (rf kv) = v ∧ log (rf kv) = l ∧ Raft.persister (rf kv) = ps.
Proof.
  intros Hop Hfuel Hps. unfold StartKVServer, Register, checkValue. cbn [obind].
  destruct fuel as [|fuel]; [lia|]. cbn [checkType]. rewrite Hop. cbn [checkFields].
  assert (∃ g', (if decide (op ∈ checked g) then Some g else Some (mark op g)) = Some g' ∧ printed g' = printed g)
    as (g' & Hg' & Hp).
  { case_decide; eauto. }
  eexists _, g'. rewrite Hg'. cbn [obind]. split; [done|]. split; [done|]. cbn [rf].
  unfold Make, readPersist. rewrite Hps, gob_decode_encode, decide_False; [done|].
  pose proof (gob_encode_nonempty (t, v, l)) as Hne. unfold zlen. destruct (gob_encode (t, v, l)); simpl; [done|lia].
Qed.

End Server.

Arguments KVServer : clear implicits.
