(* ===== verification/KvConfig.v ===== *)
(** * The harness of the key-value servers: kvraft/config.go

    Servers and clerks on a labrpc network: [StartServer] and [ShutdownServer] with
    their persisters, arbitrary links between servers ([connect],
    [disconnect], [partition]), clerks with ends of their own, and the choice of a
    partition that puts the leader in the minority. shardmaster/config.go repeats
    this file; [MasterConfig] names its functions.

    Servers are numbered by [nat]; random strings and the draws of
    [random_handles] are arguments. A [*Clerk] is its index in [clerkServers],
    which holds the ends the clerk was made with. *)

From S2P Require Import Prelude Random Persister Labrpc Harness KvRaft.

Notation EndName := (string + nat)%type.
Notation Net := (@Network EndName _ _).

#[export] Program Instance kvNames : EndNames EndName := {| endOf := inl |}.

Record config := mkConfig {
  n : nat;
  knet : Net;
  kvservers : list (option nat);
  saved : list (option nat);
  endnames : list (option (list string));
  clerks : gmap nat (list string);
  nextClientId : Z;
  maxraftstate : Z;
  persisters : list Persister;
  instances : list nat;
  clerkServers : list (list string);
}.

Definition with_net (rn : Net) (c : config) : config :=
  mkConfig (n c) rn (kvservers c) (saved c) (endnames c) (clerks c) (nextClientId c)
    (maxraftstate c) (persisters c) (instances c) (clerkServers c).

Definition with_clerks (l : gmap nat (list string)) (c : config) : config :=
  mkConfig (n c) (knet c) (kvservers c) (saved c) (endnames c) l (nextClientId c)
    (maxraftstate c) (persisters c) (instances c) (clerkServers c).

Definition with_endnames (l : list (option (list string))) (c : config) : config :=
  mkConfig (n c) (knet c) (kvservers c) (saved c) l (clerks c) (nextClientId c)
    (maxraftstate c) (persisters c) (instances c) (clerkServers c).

Definition with_kvservers (l : list (option nat)) (c : config) : config :=
  mkConfig (n c) (knet c) l (saved c) (endnames c) (clerks c) (nextClientId c)
    (maxraftstate c) (persisters c) (instances c) (clerkServers c).

Definition with_persisters (l : list Persister) (c : config) : config :=
  mkConfig (n c) (knet c) (kvservers c) (saved c) (endnames c) (clerks c) (nextClientId c)
    (maxraftstate c) l (instances c) (clerkServers c).

Definition saveNew (i : nat) (ps : Persister) (c : config) : option config :=
  let* s := go_update (saved c) (Z.of_nat i) (Some (length (persisters c))) in
  Some (mkConfig (n c) (knet c) (kvservers c) s (endnames c) (clerks c) (nextClientId c)
    (maxraftstate c) (persisters c ++ [ps]) (instances c) (clerkServers c)).

(** What [cfg.saved[i]] points to, [None] when it is nil. *)
Definition savedOf (c : config) (i : nat) : option Persister :=
  let* p := saved c !! i in let* p := p in persisters c !! p.

(** ** Sizes *)

(** The loop of LogSize and SnapshotSize; a method of a nil persister panics. *)
Fixpoint maxSize (size : Persister → Z) (c : config) (ids : list nat) (acc : Z) : option Z :=
  match ids with
  | [] => Some acc
  | i :: ids =>
      let* ps := savedOf c i in
      maxSize size c ids (if decide (size ps > acc) then size ps else acc)
  end.

Definition LogSize (c : config) : option Z := maxSize RaftStateSize c (seq 0 (n c)) 0.
Definition SnapshotSize (c : config) : option Z := maxSize Persister.SnapshotSize c (seq 0 (n c)) 0.

(** ** Links between servers *)

Definition All (c : config) : list nat := seq 0 (n c).

Definition connectUnlocked (i : nat) (to : list nat) (c : config) : option config :=
  let* rn := enableAll to (λ j, Some <$> endnameOf (endnames c) i j) true (knet c) in
  let* rn := enableAll to (λ j, Some <$> endnameOf (endnames c) j i) true rn in
  Some (with_net rn c).

(** The second loop tests [endnames[j]] for nil but then uses
    [endnames[from[j]]], as the code does. *)
Definition disconnectUnlocked (i : nat) (from : list nat) (c : config) : option config :=
  let outgoing j :=
    let* row := endnames c !! i in
    match row with Some names => Some <$> names !! j | None => Some None end in
  let incoming j :=
    let* row := endnames c !! j in
    match row with
    | Some _ => let* fj := from !! j in Some <$> endnameOf (endnames c) fj i
    | None => Some None
    end in
  let* rn := enableAll from outgoing false (knet c) in
  let* rn := enableAll (seq 0 (length from)) incoming false rn in
  Some (with_net rn c).

Fixpoint connectEach (ids : list nat) (to : list nat) (c : config) : option config :=
  match ids with
  | [] => Some c
  | i :: ids => let* c := connectUnlocked i to c in connectEach ids to c
  end.

Definition ConnectAll (c : config) : option config := connectEach (All c) (All c) c.

(** One of the two loops of partition: cut the servers [ids] from [others] and
    join them to [own]. *)
Fixpoint separate (ids own others : list nat) (c : config) : option config :=
  match ids with
  | [] => Some c
  | i :: ids =>
      let* c := disconnectUnlocked i others c in
      let* c := connectUnlocked i own c in
      separate ids own others c
  end.

Definition partition (p1 p2 : list nat) (c : config) : option config :=
  let* c := separate p1 p1 p2 c in
  separate p2 p2 p1 c.

(** The servers' answers to [GetState], [None] for a server that is not running. *)
Fixpoint LeaderFrom (i : nat) (st : list (option bool)) : option (bool * nat) :=
  match st with
  | [] => Some (false, 0%nat)
  | None :: _ => None
  | Some true :: _ => Some (true, i)
  | Some false :: st => LeaderFrom (S i) st
  end.

Definition Leader (st : list (option bool)) : option (bool * nat) := LeaderFrom 0 st.

(** The loop of make_partition over the servers [ids]: [p1], [p2] and [j]. *)
Fixpoint deal (l : nat) (ids : list nat) (p1 p2 : list nat) (j : nat) : option (list nat * list nat) :=
  match ids with
  | [] => Some (p1, p2)
  | i :: ids =>
      if decide (i = l) then deal l ids p1 p2 j
      else if decide (j < length p1)%nat then
        let* p1 := go_update p1 (Z.of_nat j) i in deal l ids p1 p2 (S j)
      else
        let* p2 := go_update p2 (Z.of_nat j - zlen p1) i in deal l ids p1 p2 (S j)
  end.

Definition make_partition (n : nat) (st : list (option bool)) : option (list nat * list nat) :=
  let* '(_, l) := Leader st in
  let* '(p1, p2) := deal l (seq 0 n) (replicate (n / 2 + 1) 0%nat) (replicate (n / 2) 0%nat) 0 in
  let* p2 := go_update p2 (zlen p2 - 1) l in
  Some (p1, p2).

(** ** Clerks *)

(** The same under [cfg.mu]. *)
Definition connect : nat → list nat → config → option config := connectUnlocked.
Definition disconnect : nat → list nat → config → option config := disconnectUnlocked.

(** The names of client ends and the seed of math/rand, from random bytes. *)
Definition randstring : nat → list Z → option (list Ascii.ascii) := Random.randstring.
Definition makeSeed : list Z → option Z := Random.makeSeed.

(** [sa[i], sa[j] = sa[j], sa[i]]. *)
Definition swap {A} (i j : nat) (sa : list A) : list A :=
  match sa !! i, sa !! j with
  | Some a, Some b => <[j := a]> (<[i := b]> sa)
  | _, _ => sa
  end.

(** [draws] are the results of [rand.Intn(i + 1)] for i = 0, 1, ... *)
Definition random_handles {A} (draws : list nat) (kvh : list A) : list A :=
  foldl (λ sa '(i, j), swap i j sa) kvh (imap pair draws).

Definition ConnectClientUnlocked (ck : nat) (to : list nat) (c : config) : option config :=
  let names := default [] (clerks c !! ck) in
  let* rn := enableAll to (λ j, Some <$> names !! j) true (knet c) in
  Some (with_net rn c).

Definition DisconnectClientUnlocked (ck : nat) (from : list nat) (c : config) : option config :=
  let names := default [] (clerks c !! ck) in
  let* rn := enableAll from (λ j, Some <$> names !! j) false (knet c) in
  Some (with_net rn c).

Definition ConnectClient : nat → list nat → config → option config := ConnectClientUnlocked.
Definition DisconnectClient : nat → list nat → config → option config := DisconnectClientUnlocked.

(** The names of the new ends and the draws for their order are random. *)
Definition makeClient (to : list nat) (names : list string) (draws : list nat) (c : config)
    : option (config * nat) :=
  let* rn := makeEnds inr (seq 0 (n c)) names (knet c) in
  let ck := length (clerkServers c) in
  let c := mkConfig (n c) rn (kvservers c) (saved c) (endnames c) (<[ck := names]> (clerks c))
    (nextClientId c + 1) (maxraftstate c) (persisters c) (instances c)
    (clerkServers c ++ [KvRaft.MakeClerk (random_handles draws names)]) in
  let* c := ConnectClientUnlocked ck to c in
  Some (c, ck).

(** Removing the files named like the ends changes nothing here. *)
Definition deleteClient (ck : nat) (c : config) : config := with_clerks (delete ck (clerks c)) c.

(** ** Servers *)

Definition ShutdownServer (i : nat) (c : config) : option config :=
  let* c := disconnectUnlocked i (All c) c in
  let c := with_net (DeleteServer (inr i) (knet c)) c in
  let* c := match savedOf c i with Some ps => saveNew i (Copy ps) c | None => Some c end in
  let* l := go_update (kvservers c) (Z.of_nat i) None in
  Some (with_kvservers l c).

(** [names] are the n random strings drawn for the new ends. *)
Definition StartServer (i : nat) (names : list string) (c : config) : option config :=
  let* en := go_update (endnames c) (Z.of_nat i) (Some names) in
  let c := with_endnames en c in
  let* rn := makeEnds inr (seq 0 (n c)) names (knet c) in
  let c := with_net rn c in
  let* c := saveNew i (match savedOf c i with Some ps => Copy ps | None => MakePersister end) c in
  let* p := saved c !! i in
  let* p := p in
  let kv := length (instances c) in
  let* l := go_update (kvservers c) (Z.of_nat i) (Some kv) in
  Some (mkConfig (n c) (AddServer (inr i) kv (knet c)) l (saved c) (endnames c) (clerks c)
    (nextClientId c) (maxraftstate c) (persisters c) (instances c ++ [p]) (clerkServers c)).

Definition emptyConfig (n : nat) (maxraftstate : Z) : config :=
  mkConfig n MakeNetwork (replicate n None) (replicate n None) (replicate n None) ∅
    (Z.of_nat n + 1000) maxraftstate [] [] [].

Fixpoint startEach (ids : list nat) (names : nat → list string) (c : config) : option config :=
  match ids with
  | [] => Some c
  | i :: ids => let* c := StartServer i (names i) c in startEach ids names c
  end.

Definition make_config (n : nat) (unreliable : bool) (maxraftstate : Z) (names : nat → list string)
    : option config :=
  let* c := startEach (seq 0 n) names (emptyConfig n maxraftstate) in
  let* c := ConnectAll c in
  Some (with_net (Reliable (negb unreliable) (knet c)) c).

Definition cleanup (c : config) : option config :=
  let* rn := Cleanup (knet c) in Some (with_net rn c).

(** ** Statistics *)

(** The numbers [begin] takes down and [op] counts. *)
Record stats := mkStats { rpcs0 : Z; ops : Z }.

Definition rpcTotal (c : config) : Z := GetTotalCount (knet c).

Definition begin (c : config) : stats := mkStats (rpcTotal c) 0.

(** [atomic.AddInt32] wraps around. *)
Definition op (st : stats) : stats := mkStats (rpcs0 st) ((ops st + 1 + 2 ^ 31) mod 2 ^ 32 - 2 ^ 31).

(** What [end] prints of the peers, the RPCs and the operations. *)
Definition end_ (c : config) (st : stats) : nat * Z * Z := (n c, rpcTotal c - rpcs0 st, ops st).
