(* ===== verification/KvConfigSpec.v ===== *)
(** * Properties of the key-value harness (kvraft/config.go)

    What its operations keep true, that [partition] makes exactly the
    links it should, that [make_partition] puts the leader into a minority, that
    restarts are isolated, and that [random_handles] is a fair shuffle. *)

From S2P Require Import Prelude Persister Labrpc Harness KvConfig.
From Stdlib Require Import Strings.Byte.

(** ** Runs *)

(** [OPersist k st sn] is a write of instance [k], running or not, to its
    persister. *)
Inductive Op :=
  | OConnect (i : nat) (to : list nat)
  | ODisconnect (i : nat) (from : list nat)
  | OPartition (p1 p2 : list nat)
  | OMakeClient (to : list nat) (names : list string) (draws : list nat)
  | ODeleteClient (ck : nat)
  | OConnectClient (ck : nat) (to : list nat)
  | ODisconnectClient (ck : nat) (from : list nat)
  | OShutdown (i : nat)
  | OStart (i : nat) (names : list string)
  | OPersist (k : nat) (st sn : bytes).

Definition opStep (c : config) (o : Op) : option config :=
  match o with
  | OConnect i to => connectUnlocked i to c
  | ODisconnect i from => disconnectUnlocked i from c
  | OPartition p1 p2 => partition p1 p2 c
  | OMakeClient to names draws => fst <$> makeClient to names draws c
  | ODeleteClient ck => Some (deleteClient ck c)
  | OConnectClient ck to => ConnectClientUnlocked ck to c
  | ODisconnectClient ck from => DisconnectClientUnlocked ck from c
  | OShutdown i => ShutdownServer i c
  | OStart i names => assert* bool_decide (length names = n c) in StartServer i names c
  | OPersist k st sn =>
      let* p := instances c !! k in
      let* ps := persisters c !! p in
      Some (with_persisters (<[p := SaveStateAndSnapshot ps st sn]> (persisters c)) c)
  end.

Fixpoint orun (c : config) (os : list Op) : option config :=
  match os with
  | [] => Some c
  | o :: os => let* c := opStep c o in orun c os
  end.

Definition harness (k : nat) (unreliable : bool) (c : config) : Prop :=
  ∃ mx names c0 os, (∀ i, length (names i) = k) ∧ make_config k unreliable mx names = Some c0 ∧
    orun c0 os = Some c.

(** ** The invariant *)

Record kv_ok (c : config) : Prop := {
  kv_len : length (kvservers c) = n c;
  kv_rows : rows_ok inr (n c) (endnames c) (knet c);
  kv_server : ∀ i, (i < n c)%nat → serverOf (knet c) (inr i) = default None (kvservers c !! i);
  kv_slots : slots_ok (kvservers c) (saved c) (persisters c) (instances c);
}.

(** Every server has been started, so every row of ends exists. *)
Definition started (c : config) : Prop := ∀ i, (i < n c)%nat → ∃ l, endnames c !! i = Some (Some l).

(** Only the enabled ends differ. *)
Lemma with_net_ok c rn : same_wiring (knet c) rn → kv_ok c → kv_ok (with_net rn c).
Proof.
  intros Hw [Hl Hr Hs Hsl]. split; simpl; [done|by eapply same_wiring_rows| |done].
  destruct Hw as (_ & Hsrv & _). unfold serverOf in *. by rewrite Hsrv.
Qed.

(** [c'] is [c] up to the enabled ends. *)
Definition relinked (c c' : config) : Prop := ∃ rn, same_wiring (knet c) rn ∧ c' = with_net rn c.

#[global] Instance relinked_preorder : PreOrder relinked.
Proof.
  split; [intros c; exists (knet c); split; [done|by destruct c]|].
  intros c1 c2 c3 (rn & Hw & ->) (rn' & Hw' & ->). exists rn'. split; [by etrans|done].
Qed.

Lemma relinked_ok c c' : relinked c c' → kv_ok c → kv_ok c'.
Proof. intros (rn & Hw & ->). by apply with_net_ok. Qed.

Lemma relinked_same c c' : relinked c c' → n c' = n c ∧ endnames c' = endnames c.
Proof. by intros (rn & _ & ->). Qed.

Lemma connect_relinked i to c c' : connectUnlocked i to c = Some c' → relinked c c'.
Proof.
  unfold connectUnlocked. intros (rn1 & H1 & (rn2 & H2 & [= <-])%obind_Some)%obind_Some.
  exists rn2. split; [|done]. by eapply enableAll_twice.
Qed.

Lemma disconnect_relinked i from c c' : disconnectUnlocked i from c = Some c' → relinked c c'.
Proof.
  unfold disconnectUnlocked. intros (rn1 & H1 & (rn2 & H2 & [= <-])%obind_Some)%obind_Some.
  exists rn2. split; [|done]. by eapply enableAll_twice.
Qed.

Lemma connectEach_relinked ids to c c' : connectEach ids to c = Some c' → relinked c c'.
Proof.
  revert c. induction ids as [|i ids IH]; intros c; simpl; [by intros [= <-]|].
  intros (c1 & H1%connect_relinked & H2%IH)%obind_Some. by etrans.
Qed.

Lemma separate_relinked ids own others c c' : separate ids own others c = Some c' → relinked c c'.
Proof.
  revert c. induction ids as [|i ids IH]; intros c; simpl; [by intros [= <-]|].
  intros (c1 & H1%disconnect_relinked & (c2 & H2%connect_relinked & H3%IH)%obind_Some)%obind_Some.
  etrans; [done|]. by etrans.
Qed.

Lemma partition_relinked p1 p2 c c' : partition p1 p2 c = Some c' → relinked c c'.
Proof.
  unfold partition. intros (c1 & H1%separate_relinked & H2%separate_relinked)%obind_Some. by etrans.
Qed.

Lemma connectClient_relinked ck to c c' : ConnectClientUnlocked ck to c = Some c' → relinked c c'.
Proof.
  unfold ConnectClientUnlocked. intros (rn & H1 & [= <-])%obind_Some. exists rn. split; [|done].
  by apply enableAll_spec in H1 as (? & _).
Qed.

Lemma disconnectClient_relinked ck from c c' :
  DisconnectClientUnlocked ck from c = Some c' → relinked c c'.
Proof.
  unfold DisconnectClientUnlocked. intros (rn & H1 & [= <-])%obind_Some. exists rn. split; [|done].
  by apply enableAll_spec in H1 as (? & _).
Qed.

Lemma kv_saveNew_Some i ps c c' :
  saveNew i ps c = Some c' →
  (i < length (saved c))%nat ∧ saved c' = <[i := Some (length (persisters c))]> (saved c) ∧
  persisters c' = persisters c ++ [ps] ∧ savedOf c' i = Some ps ∧
  instances c' = instances c ∧ kvservers c' = kvservers c ∧ n c' = n c ∧ knet c' = knet c ∧
  endnames c' = endnames c.
Proof.
  unfold saveNew, savedOf. intros (l & [Hi ->]%go_update_nat & [= <-])%obind_Some. simpl.
  split_and!; try done. rewrite list_lookup_insert_eq by done. simpl.
  by rewrite list_lookup_middle.
Qed.

Lemma saveNew_other i j ps c c' :
  slots_ok (kvservers c) (saved c) (persisters c) (instances c) →
  saveNew i ps c = Some c' → j ≠ i → savedOf c' j = savedOf c j.
Proof.
  intros Hs (_ & S1 & S2 & _)%kv_saveNew_Some Hne. unfold savedOf.
  rewrite S1, list_lookup_insert_ne by done. destruct (saved c !! j) as [[p|]|] eqn:Hj; simpl; [|done..].
  rewrite S2, lookup_app_l; [done|]. by eapply so_saved.
Qed.

Lemma savedOf_None c i :
  kv_ok c → (i < n c)%nat → savedOf c i = None → saved c !! i = Some None.
Proof.
  intros Hok Hi. unfold savedOf. pose proof (kv_slots c Hok) as Hs.
  assert (is_Some (saved c !! i)) as [o Ho].
  { apply lookup_lt_is_Some. rewrite <-(so_len _ _ _ _ Hs), (kv_len c Hok). done. }
  rewrite Ho. cbn [obind]. destruct o as [p|]; [|done]. cbn [obind]. intros Hp.
  apply lookup_ge_None in Hp. apply (so_saved _ _ _ _ Hs) in Ho. lia.
Qed.

(** ** Shutting down and starting *)

Record stopped (i : nat) (c c' : config) : Prop := {
  st_n : n c' = n c;
  st_endnames : endnames c' = endnames c;
  st_running : (i < n c)%nat ∧ kvservers c' = <[i := None]> (kvservers c);
  st_saved : ∀ j, savedOf c' j = savedOf c j;
  st_server : serverOf (knet c') (inr i) = None;
  st_conns : connections (knet c') = connections (knet c);
  st_disabled : ∀ j nm, endnameOf (endnames c) i j = Some nm → isEnabled (knet c') (inl nm) = false;
}.

Lemma disconnectAll_row i c c' j nm :
  kv_ok c → disconnectUnlocked i (All c) c = Some c' → endnameOf (endnames c) i j = Some nm →
  isEnabled (knet c') (inl nm) = false.
Proof.
  intros Hok. unfold disconnectUnlocked.
  intros (rn1 & H1 & (rn2 & H2 & [= <-])%obind_Some)%obind_Some Hnm. simpl.
  destruct (rows_range _ _ _ _ _ _ _ (kv_rows c Hok) Hnm) as [_ Hj].
  apply (enableAll_twice _ _ _ _ _ _ _ _ H1 H2). left. exists j. split; [apply elem_of_seq; lia|].
  apply endnameOf_Some in Hnm as (l & -> & Hl). cbn [obind]. by rewrite Hl.
Qed.

Lemma server_insert (c : config) (i : nat) (o : option nat) (rn : Net) :
  kv_ok c → servers rn = servers (knet c) → (i < n c)%nat →
  ∀ j, (j < n c)%nat →
    serverOf (setServer (inr i) o rn) (inr j) = default None (<[i := o]> (kvservers c) !! j).
Proof.
  intros Hok Hsrv Hi j Hj. pose proof (kv_server c Hok j Hj) as Hs. unfold serverOf in *. simpl.
  rewrite Hsrv. destruct (decide (j = i)) as [->|Hne].
  - rewrite lookup_insert_eq, list_lookup_insert_eq; [done|]. by rewrite (kv_len c Hok).
  - by rewrite lookup_insert_ne, list_lookup_insert_ne by congruence.
Qed.

Lemma kv_shutdown_ok i c c' :
  ShutdownServer i c = Some c' → kv_ok c → kv_ok c' ∧ stopped i c c'.
Proof.
  unfold ShutdownServer.
  intros (c1 & Hd & (c2 & H2 & (l & [Hi ->]%go_update_nat & [= <-])%obind_Some)%obind_Some)%obind_Some Hok.
  pose proof (λ j nm, disconnectAll_row i c c1 j nm Hok Hd) as Hdis.
  apply disconnect_relinked in Hd as Hrel. pose proof (relinked_ok _ _ Hrel Hok) as Hok1.
  destruct Hrel as (rn & (He & Hsrv & Hcon) & ->). simpl in *.
  set (c0 := with_net (DeleteServer (inr i) rn) (with_net rn c)) in *.
  assert (Hi' : (i < n c)%nat).
  { rewrite <-(kv_len c Hok). destruct (savedOf c0 i) eqn:E; [|by simplify_eq].
    apply kv_saveNew_Some in H2 as (_ & _ & _ & _ & _ & E5 & _). by rewrite E5 in Hi. }
  assert (Hlens : (i < length (saved c))%nat).
  { by rewrite <-(so_len _ _ _ _ (kv_slots c Hok)), (kv_len c Hok). }
  assert (Hcase : ∃ extra, persisters c2 = persisters c ++ extra ∧ instances c2 = instances c ∧
    kvservers c2 = kvservers c ∧ n c2 = n c ∧ knet c2 = DeleteServer (inr i) rn ∧
    endnames c2 = endnames c ∧ (∀ j, savedOf c2 j = savedOf c j) ∧
    slots_ok (<[i := None]> (kvservers c)) (saved c2) (persisters c2) (instances c)).
  { assert (Hc0 : savedOf c0 i = savedOf c i) by done. rewrite Hc0 in H2.
    destruct (savedOf c i) as [ps|] eqn:Hps.
    - pose proof (λ j, saveNew_other i j _ _ _ (kv_slots c Hok : slots_ok (kvservers c0) _ _ _) H2) as So.
      apply kv_saveNew_Some in H2 as (_ & S1 & S2 & S3 & S4 & S5 & S6 & S7 & S8). exists [Copy ps].
      split_and!; try done.
      { intros j. destruct (decide (j = i)) as [->|Hne]; [|by rewrite So].
        rewrite S3, Hps. by destruct ps. }
      simpl in *. rewrite S1, S2.
      eapply (slots_renew i (length (persisters c)) (kvservers c) (saved c) (persisters c) (instances c));
        [exact Hlens|rewrite length_app; simpl; lia|rewrite length_app; lia
        |split; [done|by left]|apply (kv_slots c Hok)].
    - simplify_eq. exists []. rewrite app_nil_r. split_and!; try done.
      apply slots_stop; [|apply (kv_slots c Hok)]. exact (savedOf_None c i Hok Hi' Hps). }
  destruct Hcase as (extra & P1 & P2 & P3 & P4 & P5 & P6 & P7 & P8). split.
  - split; simpl.
    + rewrite length_insert, P3, P4. apply (kv_len c Hok).
    + rewrite P4, P5, P6. eapply rows_wiring; [| |apply (kv_rows c Hok)]; simpl; [by rewrite He|].
      intros. unfold connectionOf. simpl. by rewrite Hcon.
    + rewrite P4, P5, P3. by apply server_insert.
    + by rewrite P2, P3.
  - split; simpl; [done..| | | | |].
    + by rewrite P3.
    + exact P7.
    + rewrite P5. unfold serverOf. simpl. by rewrite lookup_insert_eq.
    + by rewrite P5.
    + intros j nm Hnm. rewrite P5. by apply (Hdis j).
Qed.

Record restarted (i : nat) (names : list string) (c c' : config) : Prop := {
  rs_n : n c' = n c;
  rs_endnames : endnames c' = <[i := Some names]> (endnames c);
  rs_running : (i < n c)%nat ∧ kvservers c' = <[i := Some (length (instances c))]> (kvservers c);
  rs_saved : savedOf c' i = Some (default MakePersister (savedOf c i));
  rs_own : ∃ p, saved c' !! i = Some (Some p) ∧ instances c' = instances c ++ [p];
  rs_other : ∀ j, j ≠ i → savedOf c' j = savedOf c j;
  rs_old : ∀ nm, inl nm ∈ ends (knet c) → isEnabled (knet c') (inl nm) = isEnabled (knet c) (inl nm);
  rs_new : ∀ j nm, names !! j = Some nm → isEnabled (knet c') (inl nm) = false;
}.

Lemma kv_start_ok i names c c' :
  length names = n c → StartServer i names c = Some c' → kv_ok c → kv_ok c' ∧ restarted i names c c'.
Proof.
  unfold StartServer. intros Hlen (en & [Hi ->]%go_update_nat & (rn & Hrn & (c2 & H2 & (o & Ho & (p & Hp &
    (l & [Hl ->]%go_update_nat & [= <-])%obind_Some)%obind_Some)%obind_Some)%obind_Some)%obind_Some)%obind_Some Hok.
  simplify_eq. pose proof (makeEnds_spec _ _ _ _ _ (NoDup_seq _ _) Hrn) as Hm. simpl in *.
  pose proof (kv_rows c Hok) as Hrows. pose proof (ro_len _ _ _ _ Hrows) as Hle.
  pose proof (λ j, saveNew_other i j _ (with_net rn (with_endnames (<[i := Some names]> (endnames c)) c)) _
    (kv_slots c Hok) H2) as So.
  apply kv_saveNew_Some in H2 as (Hil & S1 & S2 & S3 & S4 & S5 & S6 & S7 & S8). simpl in *.
  rewrite S1, list_lookup_insert_eq in Ho by done. simplify_eq.
  assert (Hps : match savedOf c i with Some ps => Copy ps | None => MakePersister end =
    default MakePersister (savedOf c i)) by by destruct (savedOf c i) as [[]|].
  split; [split|split]; simpl; rewrite ?S6, ?S7, ?S8, ?S5, ?S4.
  - by rewrite length_insert, (kv_len c Hok).
  - eapply rows_wiring; [| |eapply rows_new; [done..|lia|done|done]]; done.
  - apply server_insert; [done|apply (md_servers _ _ _ _ _ Hm)|lia].
  - rewrite S1, S2. eapply (slots_renew i (length (persisters c)) (kvservers c) (saved c) (persisters c) (instances c));
      [exact Hil|rewrite length_app; simpl; lia|rewrite length_app; lia
      |split; [done|by right]|apply (kv_slots c Hok)].
  - done.
  - done.
  - split; [lia|done].
  - rewrite <-Hps. exact S3.
  - exists (length (persisters c)). by rewrite S1, list_lookup_insert_eq.
  - intros j Hj. exact (So j Hj).
  - intros nm Hin. by apply (made_keep _ _ _ _ _ nm Hlen Hm).
  - intros j nm Hj. by apply (made_fresh _ _ _ _ _ j nm Hlen Hm).
Qed.

Lemma makeClient_ok to names draws c c' ck :
  makeClient to names draws c = Some (c', ck) → kv_ok c →
  kv_ok c' ∧ n c' = n c ∧ endnames c' = endnames c ∧ kvservers c' = kvservers c ∧
  ∀ i, savedOf c' i = savedOf c i.
Proof.
  unfold makeClient. intros (rn & Hrn & (c1 & H1 & [= <- <-])%obind_Some)%obind_Some Hok.
  pose proof (makeEnds_spec _ _ _ _ _ (NoDup_seq _ _) Hrn) as Hm.
  apply connectClient_relinked in H1 as Hrel. destruct (relinked_same _ _ Hrel) as [-> ->]. simpl.
  split; [|by destruct Hrel as (rn' & _ & ->)]. eapply relinked_ok; [done|]. destruct Hok as [Hl Hr Hs Hsl].
  split; simpl; [done| | |done].
  - eapply rows_wiring; [apply (md_ends _ _ _ _ _ Hm)| |done]. intros i j nm Hnm.
    destruct (md_old _ _ _ _ _ Hm (inl nm)) as (_ & Hc & _); [|exact Hc].
    intros k nm' Hk Hn Heq. destruct (md_new _ _ _ _ _ Hm k Hk) as (nm2 & Hn2 & Hno & _).
    injection Heq as ->. rewrite Hn in Hn2. injection Hn2 as <-. apply Hno.
    exact (ro_known _ _ _ _ Hr _ _ _ Hnm).
  - intros i Hi. unfold serverOf. rewrite (md_servers _ _ _ _ _ Hm). by apply Hs.
Qed.

(** The invariant of the runs. *)
Definition kv_inv (k : nat) (c : config) : Prop := kv_ok c ∧ started c ∧ n c = k.

Lemma relinked_inv k c c' : relinked c c' → kv_inv k c → kv_inv k c'.
Proof.
  intros Hr (Hok & Hst & Hn). split; [by eapply relinked_ok|].
  unfold started. by destruct (relinked_same _ _ Hr) as [-> ->].
Qed.

Lemma kv_opStep_ok k c o c' : opStep c o = Some c' → kv_inv k c → kv_inv k c'.
Proof.
  destruct o as [i to|i from|p1 p2|to names draws|ck|ck to|ck from|i|i names|j st sn]; simpl.
  - intros ?%connect_relinked. by apply relinked_inv.
  - intros ?%disconnect_relinked. by apply relinked_inv.
  - intros ?%partition_relinked. by apply relinked_inv.
  - intros Hs (Hok & Hst & Hk). apply fmap_Some in Hs as ([c1 ck] & Hs & ->).
    apply makeClient_ok in Hs as (? & Hn & He & _); [|done]. split; [done|]. unfold started. cbn [fst].
    by rewrite Hn, He.
  - intros [= <-] ([? ? ? ?] & ?). split; [by split|done].
  - intros ?%connectClient_relinked. by apply relinked_inv.
  - intros ?%disconnectClient_relinked. by apply relinked_inv.
  - intros Hs (Hok & Hst & Hk). apply kv_shutdown_ok in Hs as [? [Hn He _ _ _ _ _]]; [|done].
    split; [done|]. unfold started. by rewrite Hn, He.
  - case_bool_decide; [|done]. intros Hs (Hok & Hst & Hk).
    apply kv_start_ok in Hs as [? [Hn He [Hi _] _ _ _ _ _]]; [|done..].
    split; [done|]. split; [|by rewrite Hn]. intros j Hj. rewrite Hn in Hj. rewrite He.
    destruct (decide (j = i)) as [->|].
    + exists names. apply list_lookup_insert_eq. rewrite (ro_len _ _ _ _ (kv_rows c Hok)). done.
    + rewrite list_lookup_insert_ne by done. by apply Hst.
  - intros (p & _ & (ps & _ & [= <-])%obind_Some)%obind_Some ([? ? ? [? ? ? ? ?]] & ?). split; [|done].
    split; simpl; [done..|]. by split; rewrite ?length_insert.
Qed.

Lemma kv_startEach_ok ids names c c' :
  (∀ i, length (names i) = n c) → startEach ids names c = Some c' → kv_ok c →
  kv_ok c' ∧ n c' = n c ∧ length (endnames c') = length (endnames c) ∧
  ∀ i, (i ∈ ids ∨ ∃ l, endnames c !! i = Some (Some l)) → ∃ l, endnames c' !! i = Some (Some l).
Proof.
  revert c. induction ids as [|i ids IH]; intros c Hlen; simpl.
  { intros [= <-] ?. split_and!; try done. intros j [?%elem_of_nil|?]; done. }
  intros (c1 & H1 & H2)%obind_Some Hok.
  apply kv_start_ok in H1 as [Hok1 [Hn He [Hi _] _ _ _ _ _]]; [|done..].
  apply IH in H2 as (Hok2 & Hn2 & Hl2 & Hrow); [|by rewrite Hn|done].
  pose proof (ro_len _ _ _ _ (kv_rows c Hok)) as Hle.
  split_and!; [done|by rewrite Hn2|by rewrite Hl2, He, length_insert|].
  intros j Hj. apply Hrow. rewrite He. destruct (decide (j = i)) as [->|Hne].
  - right. exists (names i). apply list_lookup_insert_eq. lia.
  - rewrite list_lookup_insert_ne by done. set_solver.
Qed.

Lemma kv_orun_ok k c os c' : orun c os = Some c' → kv_inv k c → kv_inv k c'.
Proof.
  revert c. induction os as [|o os IH]; intros c; simpl; [by intros [= <-]|].
  intros (c1 & Ho & Hr)%obind_Some Hk. eapply IH; [done|]. by eapply kv_opStep_ok.
Qed.

Lemma kv_harness_ok k u c : harness k u c → kv_inv k c.
Proof.
  intros (mx & names & c0 & os & Hlen & (c1 & H1 & (c2 & H2 & [= <-])%obind_Some)%obind_Some & Hrun).
  eapply kv_orun_ok; [exact Hrun|]. apply kv_startEach_ok in H1 as (Hok1 & Hn1 & _ & Hrow); [|done|].
  - apply (relinked_inv k c2); [by exists (Reliable (negb u) (knet c2))|].
    eapply relinked_inv; [by eapply connectEach_relinked|]. split; [done|]. split; [|done].
    intros i Hi. apply Hrow. left. apply elem_of_seq. rewrite Hn1 in Hi. simpl in Hi. lia.
  - split; simpl; [by rewrite length_replicate|apply rows_empty| |apply slots_empty].
    intros i Hi. by rewrite lookup_replicate_2.
Qed.

(** ** Links *)

(** The link from [a] to [b] joins a server of [ids] and one of [S]. *)
Definition touches (ids S : list nat) (a b : nat) : Prop := (a ∈ ids ∧ b ∈ S) ∨ (b ∈ ids ∧ a ∈ S).

#[global] Instance touches_dec ids S a b : Decision (touches ids S a b).
Proof. unfold touches. apply _. Defined.

Lemma row_exists c a b :
  kv_ok c → started c → (a < n c)%nat → (b < n c)%nat → is_Some (endnameOf (endnames c) a b).
Proof.
  intros Hok Hst Ha Hb. destruct (Hst a Ha) as [l Hl]. unfold endnameOf. rewrite Hl. cbn [obind].
  apply lookup_lt_is_Some. by rewrite (ro_row _ _ _ _ (kv_rows c Hok) _ _ Hl).
Qed.

(** No end but those between servers differs, and all links are kept. *)
Definition clientsKept (c c' : config) : Prop :=
  relinked c c' ∧ ∀ e, (∀ x y nm, endnameOf (endnames c) x y = Some nm → e ≠ inl nm) →
    isEnabled (knet c') e = isEnabled (knet c) e.

#[global] Instance clientsKept_preorder : PreOrder clientsKept.
Proof.
  split; [by intros c; split|]. intros c1 c2 c3 [R1 K1] [R2 K2]. split; [by etrans|].
  intros e He. rewrite K2, K1; [done..|]. by destruct (relinked_same _ _ R1) as [_ ->].
Qed.

(** [c'] is [c] with the links of [P] set to [b]. *)
Definition linksSet (P : nat → nat → Prop) (b : bool) (c c' : config) : Prop :=
  clientsKept c c' ∧ ∀ x y nm, endnameOf (endnames c) x y = Some nm →
    (P x y → isEnabled (knet c') (inl nm) = b) ∧
    (¬ P x y → isEnabled (knet c') (inl nm) = isEnabled (knet c) (inl nm)).

(** Two loops of [Enable] over row ends, selecting between them the links of [P]. *)
Lemma linksSet_loops P (b : bool) c js f ks g rn1 rn2 :
  kv_ok c → enableAll js f b (knet c) = Some rn1 → enableAll ks g b rn1 = Some rn2 →
  (∀ x y nm, endnameOf (endnames c) x y = Some nm → P x y → selected js f nm ∨ selected ks g nm) →
  (∀ nm, selected js f nm ∨ selected ks g nm → ∃ x y, endnameOf (endnames c) x y = Some nm ∧ P x y) →
  linksSet P b c (with_net rn2 c).
Proof.
  intros Hok H1 H2 Hin Hout.
  destruct (enableAll_twice _ _ _ _ _ _ _ _ H1 H2) as (Hw & Hset & Hkeep).
  split; [split; [by exists rn2|]|].
  { intros e He. apply Hkeep. intros nm Hsel. destruct (Hout _ Hsel) as (x & y & Hnm & _). by eapply He. }
  intros x y nm Hnm. split; [intros HP; apply Hset; by eapply Hin|].
  intros HP. apply Hkeep. intros nm' Hsel Heq. injection Heq as ->.
  destruct (Hout _ Hsel) as (x' & y' & Hnm' & HP').
  by destruct (ro_inj _ _ _ _ (kv_rows c Hok) _ _ _ _ _ Hnm Hnm') as [-> ->].
Qed.

Lemma kv_connect_links i to c :
  kv_ok c → started c → (i < n c)%nat → (∀ j, j ∈ to → (j < n c)%nat) →
  ∃ c', connectUnlocked i to c = Some c' ∧ linksSet (touches [i] to) true c c'.
Proof.
  intros Hok Hst Hi Hto. unfold connectUnlocked.
  destruct (enableAll_is_Some to (λ j, Some <$> endnameOf (endnames c) i j) true (knet c)) as [rn1 H1].
  { intros j Hj. apply fmap_is_Some, row_exists; auto. }
  destruct (enableAll_is_Some to (λ j, Some <$> endnameOf (endnames c) j i) true rn1) as [rn2 H2].
  { intros j Hj. apply fmap_is_Some, row_exists; auto. }
  rewrite H1. cbn [obind]. rewrite H2. cbn [obind]. eexists. split; [done|].
  eapply linksSet_loops; [done..| |].
  - intros x y nm Hnm [[->%list_elem_of_singleton Hy]|[->%list_elem_of_singleton Hx]];
      [left; exists y|right; exists x]; by rewrite Hnm.
  - intros nm [(j & Hj & (? & ? & [= ->])%fmap_Some)|(j & Hj & (? & ? & [= ->])%fmap_Some)];
      eexists _, _; (split; [done|]); [left|right]; by rewrite list_elem_of_singleton.
Qed.

(** All rows exist, so the row the second loop tests for nil does too. *)
Lemma kv_disconnect_links i from c :
  kv_ok c → started c → (i < n c)%nat → (∀ j, j ∈ from → (j < n c)%nat) → NoDup from →
  ∃ c', disconnectUnlocked i from c = Some c' ∧ linksSet (touches [i] from) false c c'.
Proof.
  intros Hok Hst Hi Hfrom Hnd. unfold disconnectUnlocked.
  assert (Hlen : (length from ≤ n c)%nat).
  { rewrite <-(length_seq (n c) 0). apply submseteq_length, NoDup_submseteq; [done|].
    intros j Hj%Hfrom. apply elem_of_seq. lia. }
  match goal with |- context [enableAll from ?f0 _ _] => set (f := f0) end.
  match goal with |- context [enableAll (seq _ _) ?g0 _ _] => set (g := g0) end.
  assert (Hf : ∀ j, f j = Some <$> endnameOf (endnames c) i j).
  { intros j. unfold f, endnameOf. destruct (Hst i Hi) as [l ->]. done. }
  assert (Hg : ∀ j, (j < length from)%nat → g j = (let* fj := from !! j in Some <$> endnameOf (endnames c) fj i)).
  { intros j Hj. unfold g. destruct (Hst j) as [l ->]; [lia|done]. }
  destruct (enableAll_is_Some from f false (knet c)) as [rn1 H1].
  { intros j Hj. rewrite Hf. apply fmap_is_Some, row_exists; auto. }
  destruct (enableAll_is_Some (seq 0 (length from)) g false rn1) as [rn2 H2].
  { intros j [_ Hj]%elem_of_seq. rewrite Hg by done. destruct (lookup_lt_is_Some_2 from j Hj) as [fj Hfj].
    rewrite Hfj. cbn [obind]. apply fmap_is_Some, row_exists; eauto using list_elem_of_lookup_2. }
  rewrite H1. cbn [obind]. rewrite H2. cbn [obind]. eexists. split; [done|].
  eapply linksSet_loops; [done..| |].
  - intros x y nm Hnm [[->%list_elem_of_singleton Hy]|[->%list_elem_of_singleton Hx]].
    + left. exists y. by rewrite Hf, Hnm.
    + right. apply list_elem_of_lookup in Hx as [j Hj]. apply lookup_lt_Some in Hj as Hlt. exists j.
      split; [apply elem_of_seq; lia|]. rewrite Hg by done. rewrite Hj. cbn [obind]. by rewrite Hnm.
  - intros nm [(j & Hj & Hs)|(j & [_ Hj]%elem_of_seq & Hs)].
    + rewrite Hf in Hs. apply fmap_Some in Hs as (? & ? & [= ->]). eexists _, _. split; [done|].
      left. by rewrite list_elem_of_singleton.
    + rewrite Hg in Hs by done. apply obind_Some in Hs as (fj & Hfj & (? & ? & [= ->])%fmap_Some).
      eexists _, _. split; [done|]. right. rewrite list_elem_of_singleton.
      split; [done|by eapply list_elem_of_lookup_2].
Qed.

Lemma separate_links ids own others c :
  kv_ok c → started c → NoDup others → (∀ x, x ∈ own ++ others → (x < n c)%nat) →
  own ## others → ids ⊆ own →
  ∃ c', separate ids own others c = Some c' ∧ clientsKept c c' ∧
    ∀ x y nm, endnameOf (endnames c) x y = Some nm →
      (touches ids own x y → isEnabled (knet c') (inl nm) = true) ∧
      (touches ids others x y → isEnabled (knet c') (inl nm) = false) ∧
      (¬ touches ids own x y → ¬ touches ids others x y →
        isEnabled (knet c') (inl nm) = isEnabled (knet c) (inl nm)).
Proof.
  intros Hok Hst Hnd Hlt Hdisj. revert c Hok Hst Hlt. induction ids as [|i ids IH]; intros c Hok Hst Hlt Hsub; simpl.
  { exists c. split_and!; [done..|]. intros x y nm _. unfold touches.
    split_and!; [intros [[?%elem_of_nil _]|[?%elem_of_nil _]]; done..|done]. }
  destruct (kv_disconnect_links i others c) as (c1 & H1 & (R1 & L1)); [done|done|set_solver..|done|].
  destruct (relinked_same _ _ (proj1 R1)) as [N1 E1].
  assert (Hok1 : kv_ok c1) by by eapply relinked_ok, Hok; apply R1.
  assert (Hst1 : started c1) by (unfold started; by rewrite N1, E1).
  destruct (kv_connect_links i own c1) as (c2 & H2 & (R2 & L2)); [done|done|rewrite ?N1; set_solver..|].
  destruct (relinked_same _ _ (proj1 R2)) as [N2 E2].
  destruct (IH c2) as (c3 & H3 & R3 & L3).
  { by eapply relinked_ok, Hok1; apply R2. }
  { unfold started. by rewrite N2, E2. }
  { rewrite N2, N1. set_solver. }
  { set_solver. }
  rewrite H1. cbn [obind]. rewrite H2. cbn [obind]. exists c3. split; [done|].
  split; [etrans; [exact R1|by etrans]|].
  intros x y nm Hnm. destruct (L1 x y nm Hnm) as [T1 F1]. rewrite E1 in L2.
  destruct (L2 x y nm Hnm) as [T2 F2]. rewrite E2, E1 in L3. destruct (L3 x y nm Hnm) as (T3 & F3 & K3).
  assert (Hcons : ∀ S, touches (i :: ids) S x y ↔ touches [i] S x y ∨ touches ids S x y).
  { intros S. unfold touches. set_solver. }
  assert (Hboth : touches (i :: ids) own x y → touches (i :: ids) others x y → False).
  { unfold touches. set_solver. }
  rewrite !Hcons in *. split_and!.
  - intros Ho. destruct (decide (touches ids own x y)); [auto|]. rewrite K3, T2; tauto.
  - intros Ho. destruct (decide (touches ids others x y)); [auto|]. rewrite K3, F2, T1; tauto.
  - intros. rewrite K3, F2, F1; tauto.
Qed.

(** C25: In every configuration the harness reaches, partition(p1, p2) with
    different servers in range succeeds, joins every two servers of the same side in
    both directions, cuts every link across, and leaves all other links, those of the
    clerks included, as they were. *)
Theorem partition_links k u c p1 p2 :
  harness k u c → NoDup (p1 ++ p2) → (∀ x, x ∈ p1 ++ p2 → (x < k)%nat) →
  ∃ c', partition p1 p2 c = Some c' ∧ clientsKept c c' ∧
    ∀ a b nm, endnameOf (endnames c) a b = Some nm →
      isEnabled (knet c') (inl nm) =
        if decide (touches p1 p1 a b ∨ touches p2 p2 a b) then true
        else if decide (touches p1 p2 a b) then false
        else isEnabled (knet c) (inl nm).
Proof.
  intros Hh (Hnd1 & Hdisj & Hnd2)%NoDup_app Hlt.
  destruct (kv_harness_ok _ _ _ Hh) as (Hok & Hst & <-).
  destruct (separate_links p1 p1 p2 c) as (c1 & H1 & R1 & L1); [done..|].
  destruct (relinked_same _ _ (proj1 R1)) as [N1 E1].
  destruct (separate_links p2 p2 p1 c1) as (c2 & H2 & R2 & L2).
  { by eapply relinked_ok, Hok; apply R1. }
  { unfold started. by rewrite N1, E1. }
  { done. }
  { rewrite N1. set_solver. }
  { set_solver. }
  { done. }
  unfold partition. rewrite H1. cbn [obind]. exists c2. split_and!; [done|by etrans|].
  intros a b nm Hnm. destruct (L1 a b nm Hnm) as (T1 & F1 & K1). rewrite E1 in L2.
  destruct (L2 a b nm Hnm) as (T2 & F2 & K2).
  assert (Hsym : touches p2 p1 a b ↔ touches p1 p2 a b) by (unfold touches; tauto).
  assert (Hx : touches p1 p1 a b → ¬ touches p2 p2 a b ∧ ¬ touches p1 p2 a b) by (unfold touches; set_solver).
  rewrite Hsym in *. case_decide as Hown; [|case_decide].
  - destruct (decide (touches p2 p2 a b)); [auto|]. rewrite K2, T1; tauto.
  - auto.
  - rewrite K2, K1; tauto.
Qed.

(** ** Restarts *)

(** Server [i] is stopped and has the persister [ps] saved. *)
Definition down (i : nat) (ps : option Persister) (c : config) : Prop :=
  kvservers c !! i = Some None ∧ savedOf c i = ps.

Lemma relinked_down i ps c c' : relinked c c' → down i ps c → down i ps c'.
Proof. by intros (rn & _ & ->). Qed.

(** No instance writes to the persister of a stopped server. *)
Lemma opStep_down i ps k c o c' :
  opStep c o = Some c' → (∀ names, o ≠ OStart i names) → kv_inv k c → down i ps c → down i ps c'.
Proof.
  intros Hs Ho (Hok & _ & _) Hd. pose proof Hd as [Hi Hsv]. revert Hs.
  destruct o as [a to|a from|p1 p2|to names draws|ck|ck to|ck from|a|a names|j st sn]; simpl.
  - intros Hr%connect_relinked. by eapply relinked_down.
  - intros Hr%disconnect_relinked. by eapply relinked_down.
  - intros Hr%partition_relinked. by eapply relinked_down.
  - intros ([c1 ck] & Hc & ->)%fmap_Some. apply makeClient_ok in Hc as (_ & _ & _ & Hk & He); [|done].
    split; cbn [fst]; [by rewrite Hk|by rewrite He].
  - by intros [= <-].
  - intros Hr%connectClient_relinked. by eapply relinked_down.
  - intros Hr%disconnectClient_relinked. by eapply relinked_down.
  - intros Hc. apply kv_shutdown_ok in Hc as [_ [_ _ [_ Hk] He _ _ _]]; [|done].
    split; [|by rewrite He]. rewrite Hk. destruct (decide (a = i)) as [->|]; [|by rewrite list_lookup_insert_ne].
    apply list_lookup_insert_eq. by apply lookup_lt_Some in Hi.
  - case_bool_decide; [|done]. intros Hc. assert (i ≠ a) by (intros ->; by destruct (Ho names)).
    apply kv_start_ok in Hc as [_ [_ _ [_ Hk] _ _ He _ _]]; [|done..].
    split; [by rewrite Hk, list_lookup_insert_ne|by rewrite He].
  - intros (p & Hj & (q & Hq & [= <-])%obind_Some)%obind_Some. split; [done|]. revert Hsv. unfold savedOf. simpl.
    destruct (saved c !! i) as [[p'|]|] eqn:Hp'; simpl; [|done..].
    rewrite list_lookup_insert_ne; [done|]. intros ->.
    pose proof (so_own _ _ _ _ (kv_slots c Hok) _ _ _ Hp' Hj). congruence.
Qed.

Lemma orun_down i ps k c os c' :
  orun c os = Some c' → (∀ names, OStart i names ∉ os) → kv_inv k c → down i ps c →
  kv_inv k c' ∧ down i ps c'.
Proof.
  revert c. induction os as [|o os IH]; intros c; simpl; [by intros [= <-]|].
  intros (c1 & Hs & Hr)%obind_Some Ho Hk Hd. apply (IH c1); [done|set_solver|by eapply kv_opStep_ok|].
  eapply opStep_down; [done|set_solver|done..].
Qed.

(** C30: Once ShutdownServer(i) has returned, whatever else the harness
    does and whatever the stopped instances still write, no request is routed to
    server i until it is started again, and StartServer(i) then hands the new instance
    exactly the Raft state and the snapshot of the moment of the shutdown (an empty
    persister if there was none), in a persister that no other instance has. *)
Theorem shutdown_restart k u c i c1 os c2 names c3 :
  harness k u c → ShutdownServer i c = Some c1 →
  orun c1 os = Some c2 → (∀ names, OStart i names ∉ os) →
  length names = k → StartServer i names c2 = Some c3 →
  (∀ e, connectionOf (knet c2) e = Some (inr i) → ¬ routable (knet c2) e) ∧
  ∃ kv p, kvservers c3 !! i = Some (Some kv) ∧ instances c3 !! kv = Some p ∧
    persisters c3 !! p = Some (default MakePersister (savedOf c i)) ∧
    ∀ kv', instances c3 !! kv' = Some p → kv' = kv.
Proof.
  intros Hh%kv_harness_ok Hsd Hrun Ho Hlen Hst.
  pose proof (kv_opStep_ok k c (OShutdown i) c1 Hsd Hh) as Hk1.
  apply kv_shutdown_ok in Hsd as [_ Hs]; [|apply Hh]. destruct (st_running _ _ _ Hs) as [Hi Hkv].
  destruct (orun_down i (savedOf c i) k c1 os c2) as [Hk2 [Hd2 Hsv2]]; [done..| |].
  { split; [|apply (st_saved _ _ _ Hs)]. rewrite Hkv. apply list_lookup_insert_eq.
    by rewrite (kv_len c (proj1 Hh)). }
  destruct Hk2 as (Hok2 & _ & Hn2). split.
  - intros e He (_ & s & x & Hcon & Hx). rewrite He in Hcon. injection Hcon as <-. pose proof (kv_server c2 Hok2 i) as Hq. rewrite Hd2 in Hq. simpl in Hq.
    rewrite Hq in Hx; [done|]. apply lookup_lt_Some in Hd2. by rewrite <-(kv_len c2 Hok2).
  - destruct (kv_start_ok i names c2 c3) as [Hok3 Hr]; [congruence|done..|].
    destruct (rs_running _ _ _ _ Hr) as [Hi3 Hkv3].
    destruct (rs_own _ _ _ _ Hr) as (p & Hp & Hins).
    pose proof (rs_saved _ _ _ _ Hr) as Hsv. rewrite Hsv2 in Hsv. unfold savedOf in Hsv at 1.
    rewrite Hp in Hsv. cbn [obind] in Hsv. exists (length (instances c2)), p.
    assert (Hrun3 : kvservers c3 !! i = Some (Some (length (instances c2)))).
    { rewrite Hkv3. apply list_lookup_insert_eq. by rewrite (kv_len c2 Hok2). }
    split_and!; [done|by rewrite Hins, list_lookup_middle|done|].
    intros kv' Hk'. pose proof (so_own _ _ _ _ (kv_slots c3 Hok3) _ _ _ Hp Hk'). congruence.
Qed.

(** ** make_partition *)

Lemma LeaderFrom_spec i st :
  None ∉ st →
  ∃ b l, LeaderFrom i st = Some (b, l) ∧
    (if b then (i ≤ l)%nat ∧ st !! (l - i)%nat = Some (Some true) else l = 0%nat ∧ Some true ∉ st).
Proof.
  revert i. induction st as [|[[|]|] st IH]; intros i Hno; simpl.
  - exists false, 0%nat. split_and!; [done..|apply not_elem_of_nil].
  - exists true, i. split; [done|]. by rewrite Nat.sub_diag.
  - destruct (IH (S i)) as ([|] & l & -> & Hl); [set_solver| |].
    + exists true, l. destruct Hl as [Hle Hl]. split_and!; [done|lia|].
      replace (l - i)%nat with (S (l - S i)) by lia. done.
    + exists false, l. split_and!; [done|naive_solver|]. rewrite not_elem_of_cons. naive_solver.
  - set_solver.
Qed.

Lemma leader_spec st :
  None ∉ st → (0 < length st)%nat →
  ∃ b l, Leader st = Some (b, l) ∧ (l < length st)%nat ∧ (Some true ∈ st → st !! l = Some (Some true)).
Proof.
  intros Hno Hlen. destruct (LeaderFrom_spec 0 st Hno) as (b & l & Hl & Hb). exists b, l.
  destruct b.
  - destruct Hb as [_ Hb]. rewrite Nat.sub_0_r in Hb. split_and!; [done| |done]. by eapply lookup_lt_Some.
  - destruct Hb as [-> Hb]. by split_and!.
Qed.

Lemma insert_app_take {A} (l1 l2 : list A) j x :
  (j < length l1 + length l2)%nat →
  (if decide (j < length l1)%nat then <[j := x]> l1 ++ l2 else l1 ++ <[(j - length l1)%nat := x]> l2) =
    take j (l1 ++ l2) ++ x :: drop (S j) (l1 ++ l2).
Proof.
  intros Hj. rewrite <-insert_take_drop by (rewrite length_app; lia).
  case_decide; [by rewrite insert_app_l|by rewrite insert_app_r_alt by lia].
Qed.

(** The loop fills the places from [j] on of the two lists, seen as one, with the
    servers other than [l]. *)
Lemma deal_spec l ids p1 p2 j :
  let rest := filter (λ i, i ≠ l) ids in
  (j + length rest ≤ length p1 + length p2)%nat →
  ∃ p1' p2', deal l ids p1 p2 j = Some (p1', p2') ∧ length p1' = length p1 ∧ length p2' = length p2 ∧
    p1' ++ p2' = take j (p1 ++ p2) ++ rest ++ drop (j + length rest) (p1 ++ p2).
Proof.
  revert p1 p2 j. induction ids as [|i ids IH]; intros p1 p2 j rest Hj.
  { exists p1, p2. split_and!; [done..|]. subst rest. simpl. by rewrite Nat.add_0_r, take_drop. }
  subst rest. rewrite filter_cons in *. destruct (decide (i = l)) as [->|Hne].
  { rewrite (decide_False (P := l ≠ l)) in * by tauto. cbn [deal]. rewrite decide_True by done. by apply IH. }
  rewrite (decide_True (P := i ≠ l)) in Hj by done. rewrite (decide_True (P := i ≠ l)) by done. cbn [length] in *.
  assert (Hstep : ∃ q1 q2, deal l (i :: ids) p1 p2 j = deal l ids q1 q2 (S j) ∧
    length q1 = length p1 ∧ length q2 = length p2 ∧
    q1 ++ q2 = take j (p1 ++ p2) ++ i :: drop (S j) (p1 ++ p2)).
  { pose proof (insert_app_take p1 p2 j i ltac:(lia)) as Hins. cbn [deal]. rewrite (decide_False (P := i = l)) by done.
    case_decide as Hlt.
    - exists (<[j := i]> p1), p2. rewrite length_insert. split_and!; [|done..|exact Hins].
      by rewrite (proj2 (go_update_nat p1 (<[j := i]> p1) j i)).
    - exists p1, (<[(j - length p1)%nat := i]> p2). rewrite length_insert. split_and!; [|done..|exact Hins].
      unfold zlen. rewrite <-Nat2Z.inj_sub by lia.
      rewrite (proj2 (go_update_nat p2 (<[(j - length p1)%nat := i]> p2) _ i)); [done|]. split; [lia|done]. }
  destruct Hstep as (q1 & q2 & Hd & L1 & L2 & Hq).
  destruct (IH q1 q2 (S j)) as (p1' & p2' & Hdeal & M1 & M2 & Hp); [lia|].
  exists p1', p2'. rewrite Hd. split_and!; [done|lia|lia|].
  assert (Htk : length (take j (p1 ++ p2)) = j) by (rewrite length_take, length_app; lia).
  rewrite Hp, Hq. rewrite (take_app_ge (take j (p1 ++ p2))), (drop_app_ge (take j (p1 ++ p2))), Htk by lia.
  replace (S j - j)%nat with 1%nat by lia.
  replace (S j + length (filter (λ i0, i0 ≠ l) ids) - j)%nat with (S (length (filter (λ i0, i0 ≠ l) ids))) by lia.
  cbn [take drop app]. rewrite take_0, drop_drop, <-app_assoc. cbn [app].
  by rewrite <-Nat.add_succ_comm.
Qed.

(** C32: Make_partition of n >= 2 running servers returns n/2 + 1 and n/2 servers
    with the leader, if any server says it is one, last in the smaller list. Read one
    after the other the lists are the other servers in order and the leader,
    so a true partition, when n is odd; when n is even a 0 that the
    loop does not overwrite stands before the leader. *)
Theorem make_partition_exact m st :
  (2 ≤ m)%nat → length st = m → None ∉ st →
  ∃ b l p1 p2, Leader st = Some (b, l) ∧ (Some true ∈ st → st !! l = Some (Some true)) ∧
    make_partition m st = Some (p1, p2) ∧
    length p1 = (m / 2 + 1)%nat ∧ length p2 = (m / 2)%nat ∧ last p2 = Some l ∧
    p1 ++ p2 = filter (λ i, i ≠ l) (seq 0 m) ++ (if Nat.odd m then [] else [0%nat]) ++ [l] ∧
    (Nat.odd m = true → p1 ++ p2 ≡ₚ seq 0 m).
Proof.
  intros Hm Hlen Hno. destruct (leader_spec st Hno) as (b & l & Hl & Hlt & Hlead); [lia|].
  rewrite Hlen in Hlt. set (rest := filter (λ i, i ≠ l) (seq 0 m)).
  assert (Hperm : rest ++ [l] ≡ₚ seq 0 m).
  { etrans; [|apply (filter_app_complement (λ i, i ≠ l) (seq 0 m))]. apply Permutation_app_head.
    apply NoDup_Permutation; [apply NoDup_singleton|apply NoDup_filter, NoDup_seq|].
    intros x. rewrite list_elem_of_filter, elem_of_seq, list_elem_of_singleton.
    split; [intros ->; split; [by intros []|lia]|intros [Hx _]]. destruct (decide (x = l)); [done|by destruct Hx]. }
  assert (Hr : (length rest + 1)%nat = m).
  { apply Permutation_length in Hperm. by rewrite length_app, length_seq in Hperm. }
  pose proof (Nat.div_mod_eq m 2) as Hdiv. pose proof (Nat.bit0_mod m) as Hodd. rewrite Nat.bit0_odd in Hodd.
  destruct (deal_spec l (seq 0 m) (replicate (m / 2 + 1) 0%nat) (replicate (m / 2) 0%nat) 0)
    as (p1 & p2 & Hd & L1 & L2 & Happ).
  { rewrite !length_replicate. fold rest. destruct (Nat.odd m); cbn [Nat.b2n] in Hodd; lia. }
  rewrite length_replicate in L1, L2. fold rest in Happ. rewrite <-replicate_add, drop_replicate, take_0 in Happ.
  cbn [app Nat.add] in Happ. assert (H2 : (0 < m / 2)%nat) by (apply Nat.div_str_pos; lia).
  destruct p2 as [|y p2 _] using rev_ind; [cbn [length] in L2; lia|]. rewrite length_app in L2. cbn [length] in L2.
  exists b, l, p1, (p2 ++ [l]). unfold make_partition. rewrite Hl. cbn [obind]. rewrite Hd. cbn [obind].
  assert (Hout : p1 ++ p2 ++ [l] = rest ++ (if Nat.odd m then [] else [0%nat]) ++ [l]).
  { rewrite !app_assoc. f_equal. apply (app_inj_2 _ _ [y] [0%nat]); [done|].
    rewrite <-!app_assoc, Happ. f_equal. destruct (Nat.odd m); cbn [Nat.b2n] in Hodd.
    - by replace (m / 2 + 1 + m / 2 - length rest)%nat with 1%nat by lia.
    - by replace (m / 2 + 1 + m / 2 - length rest)%nat with 2%nat by lia. }
  split_and!; try done; [|by rewrite length_app|by rewrite last_snoc|].
  - unfold zlen. rewrite length_app. simpl. replace (Z.of_nat (length p2 + 1) - 1) with (Z.of_nat (length p2)) by lia.
    rewrite (proj2 (go_update_nat (p2 ++ [y]) (p2 ++ [l]) _ l)); [done|].
    split; [rewrite length_app; simpl; lia|]. by rewrite insert_app_r_alt, Nat.sub_diag by lia.
  - intros Ho. by rewrite Hout, Ho.
Qed.

(** ** random_handles *)

Section Shuffle.
Context {A : Type}.
Implicit Types (l : list A).

Definition transpose (i j k : nat) : nat := if decide (k = i) then j else if decide (k = j) then i else k.

Lemma transpose_twice i j k : transpose i j (transpose i j k) = k.
Proof. unfold transpose. repeat case_decide; congruence. Qed.

Lemma swap_lookup i j k l :
  (i < length l)%nat → (j < length l)%nat → swap i j l !! k = l !! transpose i j k.
Proof.
  intros Hi Hj. unfold swap, transpose.
  destruct (lookup_lt_is_Some_2 l i Hi) as [a Ha], (lookup_lt_is_Some_2 l j Hj) as [b Hb].
  rewrite Ha, Hb. destruct (decide (k = j)) as [->|Hkj].
  - rewrite list_lookup_insert_eq by by rewrite length_insert. case_decide; congruence.
  - rewrite list_lookup_insert_ne by done. case_decide; subst; [by rewrite list_lookup_insert_eq|].
    by rewrite list_lookup_insert_ne.
Qed.

Lemma swap_length i j l : length (swap i j l) = length l.
Proof. unfold swap. repeat case_match; by rewrite ?length_insert. Qed.

Lemma swap_twice i j l : (i < length l)%nat → (j < length l)%nat → swap i j (swap i j l) = l.
Proof.
  intros Hi Hj. apply list_eq. intros k. by rewrite !swap_lookup, transpose_twice by by rewrite ?swap_length.
Qed.

Lemma swap_perm i j l : (i < length l)%nat → (j < length l)%nat → swap i j l ≡ₚ l.
Proof.
  intros Hi Hj. apply Permutation_inj. split; [apply swap_length|]. exists (transpose i j).
  split; [|intros k; by apply swap_lookup]. intros x y E. by rewrite <-(transpose_twice i j x), E, transpose_twice.
Qed.

Lemma swap_app i j l x : (i < length l)%nat → (j < length l)%nat → swap i j (l ++ [x]) = swap i j l ++ [x].
Proof.
  intros Hi Hj. unfold swap. rewrite !lookup_app_l by done.
  destruct (lookup_lt_is_Some_2 l i Hi) as [a ->], (lookup_lt_is_Some_2 l j Hj) as [b ->].
  by rewrite !insert_app_l by by rewrite ?length_insert.
Qed.

(** What [rand.Intn(i + 1)] can return in turn [i]. *)
Definition drawsOk (draws : list nat) (m : nat) : Prop :=
  length draws = m ∧ ∀ i j, draws !! i = Some j → (j ≤ i)%nat.

Lemma drawsOk_snoc ds j m : drawsOk (ds ++ [j]) (S m) ↔ drawsOk ds m ∧ (j ≤ m)%nat.
Proof.
  unfold drawsOk. rewrite length_app. simpl. split.
  - intros [Hlen Hd]. split; [split; [lia|]|].
    + intros i j' Hi. eapply Hd. by rewrite lookup_app_l by by eapply lookup_lt_Some.
    + replace m with (length ds) by lia. apply Hd. by rewrite list_lookup_middle.
  - intros [[Hlen Hd] Hj]. split; [lia|]. intros i j' [Hi|[Hge [Hi <-]%list_lookup_singleton_Some]]%lookup_app_Some.
    + by apply Hd.
    + lia.
Qed.

Lemma random_handles_snoc ds j l x :
  length ds = length l → drawsOk ds (length l) →
  random_handles (ds ++ [j]) (l ++ [x]) = swap (length l) j (random_handles ds l ++ [x]) ∧
  length (random_handles ds l) = length l.
Proof.
  intros Hlen Hd. unfold random_handles. rewrite imap_app, foldl_app. simpl. rewrite Nat.add_0_r, Hlen.
  enough (foldl (λ sa '(i, j), swap i j sa) (l ++ [x]) (imap pair ds) =
    foldl (λ sa '(i, j), swap i j sa) l (imap pair ds) ++ [x] ∧
    length (foldl (λ sa '(i, j), swap i j sa) l (imap pair ds)) = length l) as [-> ->] by done.
  clear j. assert (Hin : ∀ i j, (i, j) ∈ imap pair ds → (i < length l)%nat ∧ (j < length l)%nat).
  { intros i j (i' & j' & E & Hi)%elem_of_lookup_imap. simplify_eq. apply lookup_lt_Some in Hi as ?.
    apply (proj2 Hd) in Hi. lia. }
  clear Hd Hlen. revert l Hin. induction (imap pair ds) as [|[i j] ps IH]; intros l Hin; simpl; [done|].
  destruct (Hin i j) as [Hi Hj]; [by left|]. rewrite swap_app by done.
  rewrite <-(swap_length i j l). apply IH. intros i' j' Hp. rewrite swap_length. apply Hin. by right.
Qed.

Lemma random_handles_perm ds l : drawsOk ds (length l) → random_handles ds l ≡ₚ l.
Proof.
  revert ds. induction l as [|x l IH] using rev_ind; intros ds Hd.
  { destruct Hd as [Hlen _]. by destruct ds. }
  destruct ds as [|j ds _] using rev_ind; [destruct Hd as [Hlen _]; rewrite length_app in Hlen; simpl in *; lia|].
  rewrite length_app, Nat.add_1_r in Hd. apply drawsOk_snoc in Hd as [Hd Hj].
  destruct (random_handles_snoc ds j l x) as [-> Hlen]; [apply Hd|done|].
  rewrite swap_perm; [by rewrite IH|..]; rewrite length_app; simpl; lia.
Qed.

(** With different elements the last draw says where the last element went. *)
Lemma random_handles_last ds j l x :
  NoDup (l ++ [x]) → drawsOk (ds ++ [j]) (S (length l)) →
  random_handles (ds ++ [j]) (l ++ [x]) !! j = Some x ∧
  swap (length l) j (random_handles (ds ++ [j]) (l ++ [x])) = random_handles ds l ++ [x].
Proof.
  intros Hnd [Hd Hj]%drawsOk_snoc. destruct (random_handles_snoc ds j l x) as [-> Hlen]; [apply Hd|done|].
  assert (Hl : length (random_handles ds l ++ [x]) = S (length l)) by (rewrite length_app; simpl; lia).
  split; [|apply swap_twice; lia]. rewrite swap_lookup by lia. unfold transpose.
  assert (Hx : (random_handles ds l ++ [x]) !! length l = Some x) by (by rewrite <-Hlen, list_lookup_middle).
  by repeat case_decide; subst.
Qed.

(** Random_handles returns a permutation of its argument, and when the
    handles are different each permutation comes from exactly one sequence of draws:
    with uniform draws the shuffle is uniform. *)
Theorem random_handles_fair l :
  (∀ ds, drawsOk ds (length l) → random_handles ds l ≡ₚ l) ∧
  (NoDup l → ∀ l', l' ≡ₚ l →
    ∃ ds, drawsOk ds (length l) ∧ random_handles ds l = l' ∧
      ∀ ds', drawsOk ds' (length l) → random_handles ds' l = l' → ds' = ds).
Proof.
  split; [intros; by apply random_handles_perm|].
  induction l as [|x l IH] using rev_ind; intros Hnd l' Hperm.
  { apply Permutation_nil_r in Hperm as ->. exists []. split_and!; [by split|done|]. intros ds' [Hlen _] _. by destruct ds'. }
  rewrite length_app, Nat.add_1_r. apply NoDup_app in Hnd as Hnd'. destruct Hnd' as (Hnd1 & Hx & _).
  assert (Hndp : NoDup l') by by rewrite Hperm.
  assert (Hlen' : length l' = S (length l)) by (rewrite Hperm, length_app; simpl; lia).
  assert (∃ j, l' !! j = Some x) as [j Hj].
  { apply list_elem_of_lookup. rewrite Hperm. set_solver. }
  apply lookup_lt_Some in Hj as Hlt.
  assert (∃ q, swap (length l) j l' = q ++ [x] ∧ q ≡ₚ l) as (q & Hq & Hql).
  { assert (Hlast : swap (length l) j l' !! length l = Some x).
    { rewrite swap_lookup by lia. unfold transpose. by rewrite decide_True. }
    destruct (swap (length l) j l') as [|y q _] eqn:E using rev_ind; [done|].
    assert (length q = length l).
    { apply (f_equal length) in E. rewrite swap_length, length_app in E. simpl in E. lia. }
    rewrite list_lookup_middle in Hlast by done. simplify_eq. exists q. split; [done|].
    apply (Permutation_app_inv_r [x]). by rewrite <-E, swap_perm by lia. }
  destruct (IH Hnd1 q Hql) as (ds & Hds & Hrun & Huniq). exists (ds ++ [j]).
  assert (Hok : drawsOk (ds ++ [j]) (S (length l))) by (apply drawsOk_snoc; split; [done|lia]). split_and!; [done|..].
  - destruct (random_handles_snoc ds j l x) as [-> _]; [apply Hds|done|].
    rewrite Hrun, <-Hq. apply swap_twice; lia.
  - intros ds' Hds' Heq. destruct ds' as [|j' ds' _] using rev_ind; [by destruct Hds'|].
    destruct (random_handles_last ds' j' l x Hnd Hds') as [Hj' Hsw]. rewrite Heq in Hj', Hsw.
    assert (j' = j) as -> by by eapply NoDup_lookup. rewrite Hq in Hsw. apply app_inj_tail in Hsw as [Hsw _].
    f_equal. apply Huniq; [by apply drawsOk_snoc in Hds' as [? _]|done].
Qed.

End Shuffle.

(** ** Instances *)

Definition kvNames3 (i : nat) : list string :=
  default ["x"; "y"; "z"] ([["a"; "b"; "c"]; ["d"; "e"; "f"]; ["g"; "h"; "i"]] !! i).

Definition kvConfig3 (os : list Op) : config :=
  default (emptyConfig 3 (-1)) (let* c := make_config 3 false (-1) kvNames3 in orun c os).

Lemma default_Some {A} (d : A) (o : option A) : bool_decide (is_Some o) = true → o = Some (default d o).
Proof. intros [x ->]%bool_decide_eq_true. done. Qed.

Lemma kvHarness3 os :
  bool_decide (is_Some (let* c := make_config 3 false (-1) kvNames3 in orun c os)) = true →
  harness 3 false (kvConfig3 os).
Proof.
  intros Hc%(default_Some (emptyConfig 3 (-1))). fold (kvConfig3 os) in Hc.
  apply obind_Some in Hc as (c0 & H0 & Hr).
  exists (-1), kvNames3, c0, os. split_and!; [|done..]. intros i. by do 3 (destruct i as [|i]; [done|]).
Qed.

Definition kvOps : list Op :=
  [OMakeClient [0; 1]%nat ["j"; "k"; "l"] [0; 1; 0]%nat; OPersist 1 [x01; x02] [x03]].

Lemma partition_links_witness :
  ∃ c', partition [0; 1]%nat [2]%nat (kvConfig3 kvOps) = Some c' ∧
    isEnabled (knet c') (inl "b") = true ∧ isEnabled (knet c') (inl "c") = false.
Proof.
  destruct (partition_links 3 false (kvConfig3 kvOps) [0; 1]%nat [2]%nat) as (c' & Hp & _ & Hl).
  - apply kvHarness3. vm_compute. reflexivity.
  - by repeat constructor; set_solver.
  - set_solver by lia.
  - exists c'. split_and!; [done|..].
    + rewrite (Hl 0%nat 1%nat "b") by (vm_compute; reflexivity). vm_compute. reflexivity.
    + rewrite (Hl 0%nat 2%nat "c") by (vm_compute; reflexivity). vm_compute. reflexivity.
Defined.

Definition kvAfter (f : config → option config) (c : config) : config := default c (f c).

Definition kvDown : config := kvAfter (ShutdownServer 1) (kvConfig3 kvOps).
Definition kvZombie : config := kvAfter (λ c, orun c [OPersist 1 [x04] []]) kvDown.
Definition kvUp : config := kvAfter (StartServer 1 ["m"; "n"; "o"]) kvZombie.

(** The stopped instance 1 goes on writing; the restarted server has its old state. *)
Lemma shutdown_restart_witness :
  ∃ kv p, instances kvUp !! kv = Some p ∧ persisters kvUp !! p = Some (mkPersister [x01; x02] [x03]).
Proof.
  destruct (shutdown_restart 3 false (kvConfig3 kvOps) 1 kvDown [OPersist 1 [x04] []] kvZombie ["m"; "n"; "o"] kvUp)
    as (_ & kv & p & _ & Hk & Hp & _).
  - apply kvHarness3. vm_compute. reflexivity.
  - apply default_Some. vm_compute. reflexivity.
  - apply (default_Some kvDown). vm_compute. reflexivity.
  - by intros nms Hin%list_elem_of_singleton.
  - reflexivity.
  - apply default_Some. vm_compute. reflexivity.
  - exists kv, p. split; [exact Hk|]. rewrite Hp. vm_compute. reflexivity.
Defined.

Lemma make_partition_exact_witness :
  ∃ p1 p2, make_partition 5 [Some false; Some false; Some true; Some false; Some false] = Some (p1, p2) ∧
    p1 ++ p2 ≡ₚ seq 0 5.
Proof.
  destruct (make_partition_exact 5 [Some false; Some false; Some true; Some false; Some false])
    as (_ & _ & p1 & p2 & _ & _ & Hp & _ & _ & _ & _ & Ho); [lia|done|set_solver|].
  exists p1, p2. split; [done|]. by apply Ho.
Defined.

(** With four servers the lists are [0; 1; 3] and [0; 2]. *)
Lemma make_partition_even :
  make_partition 4 [Some false; Some false; Some true; Some false] = Some ([0; 1; 3], [0; 2])%nat.
Proof. reflexivity. Qed.

(** A single server has no minority to be in: the last index of p2 is out of range. *)
Lemma make_partition_single : make_partition 1 [Some true] = None.
Proof. reflexivity. Qed.

Lemma random_handles_fair_witness :
  ∃ ds, drawsOk ds 3 ∧ random_handles ds [10; 20; 30] = [30; 10; 20].
Proof.
  destruct (proj2 (random_handles_fair [10; 20; 30])
    ltac:(repeat constructor; set_solver) [30; 10; 20]) as (ds & Hds & Hr & _).
  - apply Permutation_sym, (Permutation_app_comm [10; 20] [30]).
  - by exists ds.
Defined.
