(* ===== verification/MasterConfig.v ===== *)
(** * The harness of the shard master: shardmaster/config.go

    The file repeats kvraft/config.go text for text, with [servers] for [kvservers] and
    without [maxraftstate], [SnapshotSize] and the statistics. So its functions are
    those of [KvConfig], whose theorems hold of them. *)

From S2P Require Import Prelude Random Persister Labrpc Harness KvConfig.

Definition config : Type := KvConfig.config.

Definition randstring : nat → list Z → option (list Ascii.ascii) := Random.randstring.
Definition connect : nat → list nat → config → option config := KvConfig.connect.
Definition disconnect : nat → list nat → config → option config := KvConfig.disconnect.
Definition ConnectClient : nat → list nat → config → option config := KvConfig.ConnectClient.
Definition DisconnectClient : nat → list nat → config → option config := KvConfig.DisconnectClient.
Definition LogSize : config → option Z := KvConfig.LogSize.
Definition connectUnlocked : nat → list nat → config → option config := KvConfig.connectUnlocked.
Definition disconnectUnlocked : nat → list nat → config → option config := KvConfig.disconnectUnlocked.
Definition All : config → list nat := KvConfig.All.
Definition ConnectAll : config → option config := KvConfig.ConnectAll.
Definition partition : list nat → list nat → config → option config := KvConfig.partition.
Definition random_handles {A} : list nat → list A → list A := KvConfig.random_handles.
Definition makeClient : list nat → list string → list nat → config → option (config * nat) := KvConfig.makeClient.
Definition deleteClient : nat → config → config := KvConfig.deleteClient.
Definition ConnectClientUnlocked : nat → list nat → config → option config := KvConfig.ConnectClientUnlocked.
Definition DisconnectClientUnlocked : nat → list nat → config → option config := KvConfig.DisconnectClientUnlocked.
Definition ShutdownServer : nat → config → option config := KvConfig.ShutdownServer.
Definition StartServer : nat → list string → config → option config := KvConfig.StartServer.
Definition Leader : list (option bool) → option (bool * nat) := KvConfig.Leader.
Definition make_partition : nat → list (option bool) → option (list nat * list nat) := KvConfig.make_partition.
Definition cleanup : config → option config := KvConfig.cleanup.

(** There is no [maxraftstate] here. *)
Definition make_config (n : nat) (unreliable : bool) (names : nat → list string) : option config :=
  KvConfig.make_config n unreliable 0 names.
