(* ===== verification/ShardMaster.v ===== *)
(** * The shard master: shardmaster/common.go, client.go and server.go

    The configurations, the clerk, whose four operations ask the master's servers
    in turn until one takes the request, and the server, whose handlers are still
    empty. A clerk is the list of its ends. [None] as the answer to a call is
    [ok == false]. A nil map and an empty one are not distinguished: the code
    never writes to the maps it receives. *)

From ITree Require Import ITree.
From S2P Require Import Prelude Random Persister Raft Labgob Clerk.

(** ** common.go *)

Definition NShards : nat := 10.

Record Config := mkConfig {
  Num : Z;
  Shards : vec Z NShards;
  Groups : gmap Z (list string);
}.

(** The zero value. *)
Definition zeroConfig : Config := mkConfig 0 (vreplicate NShards 0) ∅.

Definition OK : string := "OK".

Definition Err : Type := string.

Record JoinArgs := mkJoinArgs { Servers : gmap Z (list string) }.
Record JoinReply := mkJoinReply { j_WrongLeader : bool; j_Err : Err }.
Record LeaveArgs := mkLeaveArgs { GIDs : list Z }.
Record LeaveReply := mkLeaveReply { l_WrongLeader : bool; l_Err : Err }.
Record MoveArgs := mkMoveArgs { Shard : Z; GID : Z }.
Record MoveReply := mkMoveReply { m_WrongLeader : bool; m_Err : Err }.
Record QueryArgs := mkQueryArgs { q_Num : Z }.
Record QueryReply := mkQueryReply { q_WrongLeader : bool; q_Err : Err; q_Config : Config }.

Definition ClientEnd : Type := string.

(** ** client.go *)

(** From eight random bytes. *)
Definition nrand : list Z → option Z := Random.nrand.

(** What the clerk asks of its environment. *)
Variant masterE : Type → Type :=
  | CallQuery (srv : ClientEnd) (args : QueryArgs) : masterE (option QueryReply)
  | CallJoin (srv : ClientEnd) (args : JoinArgs) : masterE (option JoinReply)
  | CallLeave (srv : ClientEnd) (args : LeaveArgs) : masterE (option LeaveReply)
  | CallMove (srv : ClientEnd) (args : MoveArgs) : masterE (option MoveReply)
  | Sleep : masterE unit.

Definition MakeClerk (servers : list ClientEnd) : list ClientEnd := servers.

(** The replies that end the loop, and what is returned then. *)
Definition takeQuery (r : QueryReply) : option Config :=
  if q_WrongLeader r then None else Some (q_Config r).
Definition takeJoin (r : JoinReply) : option unit := if j_WrongLeader r then None else Some tt.
Definition takeLeave (r : LeaveReply) : option unit := if l_WrongLeader r then None else Some tt.
Definition takeMove (r : MoveReply) : option unit := if m_WrongLeader r then None else Some tt.

Section Client.
Context {E : Type → Type} `{HE : masterE -< E}.

Definition callQuery (num : Z) (srv : ClientEnd) : E (option QueryReply) :=
  subevent _ (CallQuery srv (mkQueryArgs num)).
Definition callJoin (servers : gmap Z (list string)) (srv : ClientEnd) : E (option JoinReply) :=
  subevent _ (CallJoin srv (mkJoinArgs servers)).
Definition callLeave (gids : list Z) (srv : ClientEnd) : E (option LeaveReply) :=
  subevent _ (CallLeave srv (mkLeaveArgs gids)).
Definition callMove (shard gid : Z) (srv : ClientEnd) : E (option MoveReply) :=
  subevent _ (CallMove srv (mkMoveArgs shard gid)).
Definition sleep : E unit := subevent _ Sleep.

Definition Query (ck : list ClientEnd) (num : Z) : itree E Config :=
  untilAccepted (callQuery num) takeQuery sleep ck.
Definition Join (ck : list ClientEnd) (servers : gmap Z (list string)) : itree E unit :=
  untilAccepted (callJoin servers) takeJoin sleep ck.
Definition Leave (ck : list ClientEnd) (gids : list Z) : itree E unit :=
  untilAccepted (callLeave gids) takeLeave sleep ck.
Definition Move (ck : list ClientEnd) (shard gid : Z) : itree E unit :=
  untilAccepted (callMove shard gid) takeMove sleep ck.

End Client.

(** ** server.go *)

Section Server.
Context {Cmd : Type} `{!Gob (Z * Z * list (LogEntry Cmd))}.
Context (IsUpper : Z → bool) (types : list TypeInfo).

Record ShardMaster := mkShardMaster {
  me : Z;
  rf : Raft Cmd;
  configs : list Config;
}.

(** The handlers leave the reply as they get it. *)
Definition JoinHandler (sm : ShardMaster) (args : JoinArgs) (reply : JoinReply) : ShardMaster * JoinReply :=
  (sm, reply).
Definition LeaveHandler (sm : ShardMaster) (args : LeaveArgs) (reply : LeaveReply) : ShardMaster * LeaveReply :=
  (sm, reply).
Definition MoveHandler (sm : ShardMaster) (args : MoveArgs) (reply : MoveReply) : ShardMaster * MoveReply :=
  (sm, reply).
Definition QueryHandler (sm : ShardMaster) (args : QueryArgs) (reply : QueryReply) : ShardMaster * QueryReply :=
  (sm, reply).

Definition Kill (sm : ShardMaster) : ShardMaster := mkShardMaster (me sm) (Raft.Kill (rf sm)) (configs sm).

(** labgob.Register of the empty struct [op], then a master with one configuration;
    [None] when labgob's walk needs more than [fuel] nested calls. *)
Definition StartServer (fuel op : nat) (servers : list ClientEnd) (i : Z) (ps : Persister) (g : Labgob)
    : option (ShardMaster * Labgob) :=
  let* g := Register IsUpper types fuel (Some op) g in
  Some (mkShardMaster i (Make (length servers) i ps) [zeroConfig], g).

End Server.

Arguments ShardMaster : clear implicits.

(** ** The clerk's loops *)

Section Spec.
Context {E : Type → Type} `{HE : masterE -< E} {Obs : Type} (obs : ∀ X, E X → X → Obs) (env : @Env E Obs).

(** Whatever the network and the servers answer, each operation of the
    shard master's clerk returns exactly with the first reply that arrives
    and is not WrongLeader, of the calls made to the servers one after the other
    with a pause after the last, and makes no further call; Query returns the
    configuration of that reply. If there is no such reply it runs forever. *)
Theorem master_clerk_first (ck : list ClientEnd) tr :
  (∀ num c tr', returns obs env (Query ck num) tr c tr' ↔
    ∃ m, firstFrom obs env (callQuery num) takeQuery sleep ck tr 0 m c ∧
      tr' = pollTrace obs env (callQuery num) sleep ck tr (S m)) ∧
  (∀ servers tr', returns obs env (Join ck servers) tr tt tr' ↔
    ∃ m, firstFrom obs env (callJoin servers) takeJoin sleep ck tr 0 m tt ∧
      tr' = pollTrace obs env (callJoin servers) sleep ck tr (S m)) ∧
  (∀ gids tr', returns obs env (Leave ck gids) tr tt tr' ↔
    ∃ m, firstFrom obs env (callLeave gids) takeLeave sleep ck tr 0 m tt ∧
      tr' = pollTrace obs env (callLeave gids) sleep ck tr (S m)) ∧
  (∀ shard gid tr', returns obs env (Move ck shard gid) tr tt tr' ↔
    ∃ m, firstFrom obs env (callMove shard gid) takeMove sleep ck tr 0 m tt ∧
      tr' = pollTrace obs env (callMove shard gid) sleep ck tr (S m)) ∧
  (∀ num, diverges obs env (Query ck num) tr ↔
    ∀ m, accepted obs env (callQuery num) takeQuery sleep ck tr m = None).
Proof. split_and!; intros; [apply untilAccepted_returns..|apply untilAccepted_diverges]. Qed.

End Spec.
