(* ===== verification/ShardKv.v ===== *)
(** * The sharded key-value service: shardkv/common.go, client.go and server.go

    The clerk looks up the group of a key's shard in the configuration it has,
    asks the group's servers one after the other, and gets a new
    configuration from the shard master when none of them serves the key. The server's
    handlers are still empty. A clerk's operation returns with [None] when an
    index is out of range. *)

From ITree Require Import ITree.
From S2P Require Import Prelude Random Persister Raft Labgob Clerk ShardMaster.

(** ** common.go *)

Definition OK : string := "OK".
Definition ErrNoKey : string := "ErrNoKey".
Definition ErrWrongGroup : string := "ErrWrongGroup".

Definition Err : Type := string.

Record PutAppendArgs := mkPutAppendArgs { p_Key : string; p_Value : string; p_Op : string }.
Record PutAppendReply := mkPutAppendReply { p_WrongLeader : bool; p_Err : Err }.
Record GetArgs := mkGetArgs { g_Key : string }.
Record GetReply := mkGetReply { g_WrongLeader : bool; g_Err : Err; g_Value : string }.

(** ** client.go *)

(** From eight random bytes. *)
Definition nrand : list Z → option Z := Random.nrand.

Definition key2shard (key : string) : Z :=
  match key with
  | "" => 0
  | String.String c _ => Z.of_N (Ascii.N_of_ascii c)
  end `mod` Z.of_nat NShards.

(** The calls to the servers of the groups; [MakeEnd] is the function
    [make_end]. *)
Variant kvE : Type → Type :=
  | MakeEnd (servername : string) : kvE ClientEnd
  | CallGet (srv : ClientEnd) (args : GetArgs) : kvE (option GetReply)
  | CallPutAppend (srv : ClientEnd) (args : PutAppendArgs) : kvE (option PutAppendReply).

Record Clerk := mkClerk { sm : list ClientEnd; config : Config }.

Definition MakeClerk (masters : list ClientEnd) : Clerk :=
  mkClerk (ShardMaster.MakeClerk masters) zeroConfig.

(** What a reply makes of the loop over the servers. *)
Inductive Verdict (R : Type) := Done (r : R) | Break | Next.
Arguments Done {_} _.
Arguments Break {_}.
Arguments Next {_}.

Definition judgeGet (rep : option GetReply) : Verdict string :=
  match rep with
  | Some r =>
      if negb (g_WrongLeader r) && (bool_decide (g_Err r = OK) || bool_decide (g_Err r = ErrNoKey))
      then Done (g_Value r)
      else if bool_decide (g_Err r = ErrWrongGroup) then Break else Next
  | None => Next
  end.

Definition judgePutAppend (rep : option PutAppendReply) : Verdict unit :=
  match rep with
  | Some r =>
      if negb (p_WrongLeader r) && bool_decide (p_Err r = OK) then Done tt
      else if bool_decide (p_Err r = ErrWrongGroup) then Break else Next
  | None => Next
  end.

Section Client.
Context {E : Type → Type} `{HM : masterE -< E} `{HK : kvE -< E}.

Section Loop.
Context {Rep R : Type} (call : ClientEnd → E (option Rep)) (judge : option Rep → Verdict R).

(** The loop over the servers of a group. *)
Fixpoint tryServers (servers : list string) : itree E (option R) :=
  match servers with
  | [] => Ret None
  | name :: servers =>
      let! srv := ITree.trigger (subevent _ (MakeEnd name)) in
      let! rep := ITree.trigger (call srv) in
      match judge rep with
      | Done r => Ret (Some r)
      | Break => Ret None
      | Next => tryServers servers
      end
  end.

(** One turn of the outer loop, which changes [ck.config]. *)
Definition kvTurn (key : string) (ck : Clerk) : itree E (Clerk + option (R * Clerk)) :=
  match go_index (vec_to_list (Shards (config ck))) (key2shard key) with
  | None => Ret (inr None)
  | Some gid =>
      let! o := match Groups (config ck) !! gid with
                | Some servers => tryServers servers
                | None => Ret None
                end in
      match o with
      | Some r => Ret (inr (Some (r, ck)))
      | None =>
          do! ITree.trigger sleep in
          let! c := Query (sm ck) (-1) in
          Ret (inl (mkClerk (sm ck) c))
      end
  end.

Definition kvLoop (key : string) (ck : Clerk) : itree E (option (R * Clerk)) :=
  ITree.iter (kvTurn key) ck.

End Loop.

Definition callGet (key : string) (srv : ClientEnd) : E (option GetReply) :=
  subevent _ (CallGet srv (mkGetArgs key)).
Definition callPutAppend (key value op : string) (srv : ClientEnd) : E (option PutAppendReply) :=
  subevent _ (CallPutAppend srv (mkPutAppendArgs key value op)).

Definition Get (key : string) (ck : Clerk) : itree E (option (string * Clerk)) :=
  kvLoop (callGet key) judgeGet key ck.
Definition PutAppend (key value op : string) (ck : Clerk) : itree E (option (unit * Clerk)) :=
  kvLoop (callPutAppend key value op) judgePutAppend key ck.
Definition Put (key value : string) (ck : Clerk) := PutAppend key value "Put" ck.
Definition Append (key value : string) (ck : Clerk) := PutAppend key value "Append" ck.

End Client.

(** ** server.go *)

Section Server.
Context {Cmd : Type} `{!Gob (Z * Z * list (LogEntry Cmd))}.
Context (IsUpper : Z → bool) (types : list TypeInfo).

Record ShardKV := mkShardKV {
  me : Z;
  rf : Raft Cmd;
  gid : Z;
  masters : list ClientEnd;
  maxraftstate : Z;
}.

Definition GetHandler (kv : ShardKV) (args : GetArgs) (reply : GetReply) : ShardKV * GetReply := (kv, reply).
Definition PutAppendHandler (kv : ShardKV) (args : PutAppendArgs) (reply : PutAppendReply)
    : ShardKV * PutAppendReply := (kv, reply).

Definition Kill (kv : ShardKV) : ShardKV :=
  mkShardKV (me kv) (Raft.Kill (rf kv)) (gid kv) (masters kv) (maxraftstate kv).

Definition StartServer (fuel op : nat) (servers : list ClientEnd) (i : Z) (ps : Persister)
    (maxraftstate gid : Z) (masters : list ClientEnd) (g : Labgob) : option (ShardKV * Labgob) :=
  let* g := Register IsUpper types fuel (Some op) g in
  Some (mkShardKV i (Make (length servers) i ps) gid masters maxraftstate, g).

End Server.

Arguments ShardKV : clear implicits.
