(* ===== verification/ShardKvSpec.v ===== *)
(** * Properties of the sharded key-value clerk (shardkv/client.go)

    Shards are in range; every request goes to a server of the group that the
    clerk's configuration assigns to the key's shard; the clerk's operations
    return exactly with the first reply they accept; and with the handlers of the
    repository, which are empty, they never return. *)

From ITree Require Import ITree.
From S2P Require Import Prelude Persister Raft Clerk ShardMaster ShardKv.

(** ** Shards *)

Lemma key2shard_range key : 0 ≤ key2shard key < Z.of_nat NShards.
Proof. unfold key2shard. apply Z.mod_pos_bound. unfold NShards. lia. Qed.

Lemma shard_is_Some (c : Config) key : ∃ gid, go_index (vec_to_list (Shards c)) (key2shard key) = Some gid.
Proof.
  apply go_index_is_Some. unfold zlen. rewrite length_vec_to_list. apply key2shard_range.
Qed.

(** ** Traces *)

Inductive kvObs :=
  | ObsQuery (srv : ClientEnd) (num : Z) (rep : option QueryReply)
  | ObsMaster
  | ObsSleep
  | ObsMakeEnd (name : string) (srv : ClientEnd)
  | ObsGet (srv : ClientEnd) (key : string) (rep : option GetReply)
  | ObsPutAppend (srv : ClientEnd) (args : PutAppendArgs) (rep : option PutAppendReply).

Notation clerkE := (masterE +' kvE).

Definition masterObs X (e : masterE X) : X → kvObs :=
  match e with
  | CallQuery srv args => λ rep, ObsQuery srv (q_Num args) rep
  | CallJoin _ _ => λ _, ObsMaster
  | CallLeave _ _ => λ _, ObsMaster
  | CallMove _ _ => λ _, ObsMaster
  | Sleep => λ _, ObsSleep
  end.

Definition groupObs X (e : kvE X) : X → kvObs :=
  match e with
  | MakeEnd name => λ srv, ObsMakeEnd name srv
  | CallGet srv args => λ rep, ObsGet srv (g_Key args) rep
  | CallPutAppend srv args => λ rep, ObsPutAppend srv args rep
  end.

Definition kvobs X (e : clerkE X) : X → kvObs :=
  match e with
  | inl1 e => masterObs X e
  | inr1 e => groupObs X e
  end.

(** The configuration of the latest query that was answered, [c0] before the first. *)
Fixpoint configOf (c0 : Config) (tr : list kvObs) : Config :=
  match tr with
  | [] => c0
  | ObsQuery _ _ (Some r) :: tr => if q_WrongLeader r then configOf c0 tr else q_Config r
  | _ :: tr => configOf c0 tr
  end.

(** [c] assigns the shard of [key] to a group that [name] is a server of. *)
Definition serves (c : Config) (key name : string) : Prop :=
  ∃ gid servers, go_index (vec_to_list (Shards c)) (key2shard key) = Some gid ∧
    Groups c !! gid = Some servers ∧ name ∈ servers.

(** The end was made, just before, for a server of the right group. *)
Definition rightGroup (c0 : Config) (key : string) (srv : ClientEnd) (tr : list kvObs) : Prop :=
  match tr with
  | ObsMakeEnd name srv' :: tr => srv' = srv ∧ serves (configOf c0 tr) key name
  | _ => False
  end.

Fixpoint routed (c0 : Config) (key : string) (tr : list kvObs) : Prop :=
  match tr with
  | [] => True
  | o :: tr =>
      routed c0 key tr ∧
      match o with
      | ObsGet srv k _ => k = key ∧ rightGroup c0 key srv tr
      | ObsPutAppend srv args _ => p_Key args = key ∧ rightGroup c0 key srv tr
      | _ => True
      end
  end.

(** No reply to a Get or a PutAppend was one to return with. *)
Definition unserved (tr : list kvObs) : Prop :=
  Forall (λ o, match o with
    | ObsGet _ _ rep => ∀ v, judgeGet rep ≠ Done v
    | ObsPutAppend _ _ rep => judgePutAppend rep ≠ Done tt
    | _ => True
    end) tr.

(** ** The loops *)

Section Env.
Context (env : @Env clerkE kvObs) (c0 : Config) (key : string).

Lemma query_safe (masters : list ClientEnd) num tr :
  routed c0 key tr → unserved tr →
  safe kvobs env (routed c0 key) (λ c tr1, configOf c0 tr1 = c ∧ unserved tr1) (Query masters num) tr.
Proof.
  intros Hr Hu. unfold Query, untilAccepted.
  apply (safe_iter _ _ _ _ (λ _ tr, routed c0 key tr ∧ unserved tr)); [|done]. clear tr Hr Hu.
  intros _ tr [Hr Hu].
  apply (safe_bind _ _ _ (λ o tr1, unserved tr1 ∧ match o with Some c => configOf c0 tr1 = c | None => True end)).
  - generalize masters as srvs. intros srvs. revert tr Hr Hu.
    induction srvs as [|srv srvs IH]; intros tr Hr Hu; simpl; [by apply safe_ret|].
    apply (safe_bind _ _ _ (λ rep tr1, tr1 = ObsQuery srv num rep :: tr)).
    { apply safe_trigger; [done|]. intros rep _. by repeat split. }
    intros rep tr1 Hr1 ->. assert (Hu1 : unserved (ObsQuery srv num rep :: tr)) by by constructor.
    destruct rep as [r|]; simpl; [|by apply IH]. unfold takeQuery. destruct (q_WrongLeader r) eqn:Hw; [by apply IH|].
    apply safe_ret; [done|]. split; [done|]. simpl. by rewrite Hw.
  - intros [c|] tr1 Hr1 [Hu1 Hc]; [by apply safe_ret|].
    apply (safe_bind _ _ _ (λ _ tr2, tr2 = ObsSleep :: tr1)).
    { apply safe_trigger; [done|]. intros rep _. by repeat split. }
    intros _ tr2 Hr2 ->. apply safe_ret; [done|]. split; [done|by constructor].
Qed.

Section Loop.
Context {Rep R : Type} (call : ClientEnd → clerkE (option Rep)) (judge : option Rep → Verdict R).
Context (callObs : ClientEnd → option Rep → kvObs).
Hypothesis call_obs : ∀ srv rep, kvobs _ (call srv) rep = callObs srv rep.
Hypothesis call_config : ∀ srv rep tr, configOf c0 (callObs srv rep :: tr) = configOf c0 tr.
Hypothesis call_routed : ∀ srv rep tr,
  routed c0 key (callObs srv rep :: tr) ↔ routed c0 key tr ∧ rightGroup c0 key srv tr.
Hypothesis call_unserved : ∀ srv rep tr,
  unserved tr → (∀ r, judge rep ≠ Done r) → unserved (callObs srv rep :: tr).

(** The trace ends with the reply that is returned. *)
Definition ended (r : R) (tr : list kvObs) : Prop :=
  ∃ srv rep tr', tr = callObs srv rep :: tr' ∧ judge rep = Done r ∧ unserved tr'.

Lemma tryServers_safe c servers tr :
  (∀ name, name ∈ servers → serves c key name) → configOf c0 tr = c → routed c0 key tr → unserved tr →
  safe kvobs env (routed c0 key)
    (λ o tr1, configOf c0 tr1 = c ∧ match o with Some r => ended r tr1 | None => unserved tr1 end)
    (tryServers call judge servers) tr.
Proof.
  revert tr. induction servers as [|name servers IH]; intros tr Hs Hc Hr Hu; simpl; [by apply safe_ret|].
  apply (safe_bind _ _ _ (λ srv tr1, tr1 = ObsMakeEnd name srv :: tr)).
  { apply safe_trigger; [done|]. intros srv _. by repeat split. }
  intros srv tr1 Hr1 ->.
  apply (safe_bind _ _ _ (λ rep tr2, tr2 = callObs srv rep :: ObsMakeEnd name srv :: tr)).
  { apply safe_trigger; [done|]. intros rep _. rewrite call_obs, call_routed. split; [|done].
    split; [done|]. simpl. split; [done|]. rewrite Hc. apply Hs. by left. }
  intros rep tr2 Hr2 ->. assert (Hu1 : unserved (ObsMakeEnd name srv :: tr)) by by constructor.
  assert (Hc2 : configOf c0 (callObs srv rep :: ObsMakeEnd name srv :: tr) = c) by by rewrite call_config.
  destruct (judge rep) as [r| |] eqn:Hj.
  - apply safe_ret; [done|]. split; [done|]. by exists srv, rep, (ObsMakeEnd name srv :: tr).
  - apply safe_ret; [done|]. split; [done|]. apply call_unserved; [done|by rewrite Hj].
  - apply IH; [set_solver|done|done|]. apply call_unserved; [done|by rewrite Hj].
Qed.

Definition kvPost (ck : Clerk) (res : option (R * Clerk)) (tr : list kvObs) : Prop :=
  ∃ r ck', res = Some (r, ck') ∧ sm ck' = sm ck ∧ config ck' = configOf c0 tr ∧ ended r tr.

Lemma kvLoop_safe ck tr :
  config ck = configOf c0 tr → routed c0 key tr → unserved tr →
  safe kvobs env (routed c0 key) (kvPost ck) (kvLoop call judge key ck) tr.
Proof.
  intros Hc Hr Hu. unfold kvLoop.
  apply (safe_iter _ _ _ _ (λ ck' tr, sm ck' = sm ck ∧ config ck' = configOf c0 tr ∧ routed c0 key tr ∧ unserved tr));
    [|done].
  clear tr Hc Hr Hu. intros ck' tr (Hsm & Hc & Hr & Hu). unfold kvTurn.
  destruct (shard_is_Some (config ck') key) as [gid Hgid]. rewrite Hgid.
  apply (safe_bind _ _ _ (λ o tr1, configOf c0 tr1 = config ck' ∧
    match o with Some r => ended r tr1 | None => unserved tr1 end)).
  - destruct (Groups (config ck') !! gid) as [servers|] eqn:Hg; [|by apply safe_ret].
    apply tryServers_safe; [|done..]. intros name Hin. by exists gid, servers.
  - intros [r|] tr1 Hr1 [Hc1 Hu1].
    + apply safe_ret; [done|]. by exists r, ck'.
    + apply (safe_bind _ _ _ (λ _ tr2, tr2 = ObsSleep :: tr1)).
      { apply safe_trigger; [done|]. intros rep _. by repeat split. }
      intros _ tr2 Hr2 ->. apply (safe_bind _ _ _ (λ c tr3, configOf c0 tr3 = c ∧ unserved tr3)).
      { apply query_safe; [done|by constructor]. }
      intros c tr3 Hr3 [<- Hu3]. by apply safe_ret.
Qed.

End Loop.
End Env.

(** C26: Whatever the network and the servers answer, at every moment of a Get or
    a PutAppend each request made so far went, for that key, to an end made for a
    server of the group that the configuration the clerk had last received
    assigns to the key's shard; an index is never out of range; and the operation returns
    only right after a reply that it accepts, the first one, with its value. *)
Theorem shardkv_clerk_routes env ck key value op fuel :
  (let '(o, tr) := exec kvobs env fuel (Get key ck) [] in
   routed (config ck) key tr ∧
   match o with
   | None => True
   | Some res => kvPost (config ck) judgeGet (λ srv rep, ObsGet srv key rep) ck res tr
   end) ∧
  (let '(o, tr) := exec kvobs env fuel (PutAppend key value op ck) [] in
   routed (config ck) key tr ∧
   match o with
   | None => True
   | Some res => kvPost (config ck) judgePutAppend
       (λ srv rep, ObsPutAppend srv (mkPutAppendArgs key value op) rep) ck res tr
   end).
Proof.
  split.
  - refine (kvLoop_safe env (config ck) key (callGet key) judgeGet _ _ _ _ _ ck [] _ _ _ fuel fuel _); try done.
    + intros srv rep tr. simpl. tauto.
    + intros srv rep tr Hu Hj. by constructor.
    + by constructor.
  - refine (kvLoop_safe env (config ck) key (callPutAppend key value op) judgePutAppend _ _ _ _ _ ck [] _ _ _ fuel fuel _);
      try done.
    + intros srv rep tr. simpl. tauto.
    + intros srv rep tr Hu Hj. by constructor.
    + by constructor.
Qed.

(** The shard of a key is one of the NShards entries of a configuration: the
    clerk's index into Shards never panics, and the shard depends on the first byte only. *)
Theorem key2shard_in_range key (c : Config) :
  0 ≤ key2shard key < Z.of_nat NShards ∧
  (∃ gid, go_index (vec_to_list (Shards c)) (key2shard key) = Some gid) ∧
  ∀ k rest rest', key2shard (String.String k rest) = key2shard (String.String k rest').
Proof. split_and!; [apply key2shard_range..|apply shard_is_Some|done]. Qed.

(** ** Servers with the handlers of the repository *)

(** Every call is lost or answered by a handler, which gets a zero reply. *)
Record emptyServers {Cmd : Type} (env : @Env clerkE kvObs) : Prop := {
  es_query : ∀ tr srv args r, env tr _ (inl1 (CallQuery srv args)) = Some r →
    ∃ s : ShardMaster Cmd, r = (QueryHandler s args (mkQueryReply false "" zeroConfig)).2;
  es_get : ∀ tr srv args r, env tr _ (inr1 (CallGet srv args)) = Some r →
    ∃ s : ShardKV Cmd, r = (GetHandler s args (mkGetReply false "" "")).2;
  es_put : ∀ tr srv args r, env tr _ (inr1 (CallPutAppend srv args)) = Some r →
    ∃ s : ShardKV Cmd, r = (PutAppendHandler s args (mkPutAppendReply false "")).2;
}.

Lemma tryServers_none (env : @Env clerkE kvObs) {Rep R} (call : ClientEnd → clerkE (option Rep)) (judge : option Rep → Verdict R)
    servers tr :
  (∀ tr srv r, judge (env tr _ (call srv)) ≠ Done r) →
  safe kvobs env (λ _, True) (λ o _, o = None) (tryServers call judge servers) tr.
Proof.
  intros Hj. revert tr. induction servers as [|name servers IH]; intros tr; simpl; [by apply safe_ret|].
  apply (safe_bind _ _ _ (λ _ _, True)); [by apply safe_trigger|]. intros srv tr1 _ _.
  apply (safe_bind _ _ _ (λ rep _, ∀ r, judge rep ≠ Done r)).
  { apply safe_trigger; [done|]. intros rep ->. split; [done|]. apply Hj. }
  intros rep tr2 _ Hrep. destruct (judge rep) as [r| |] eqn:E; [by destruct (Hrep r)|by apply safe_ret|apply IH].
Qed.

Lemma kvLoop_never (env : @Env clerkE kvObs) {Rep R} (call : ClientEnd → clerkE (option Rep)) (judge : option Rep → Verdict R) key ck tr :
  (∀ tr srv r, judge (env tr _ (call srv)) ≠ Done r) → diverges kvobs env (kvLoop call judge key ck) tr.
Proof.
  intros Hj. apply (safe_never _ _ (λ _, True)). apply (safe_iter _ _ _ _ (λ _ _, True)); [|done].
  clear ck tr. intros ck tr _. unfold kvTurn. destruct (shard_is_Some (config ck) key) as [gid ->].
  apply (safe_bind _ _ _ (λ o _, o = None)).
  { destruct (Groups (config ck) !! gid); [by apply tryServers_none|by apply safe_ret]. }
  intros o tr1 _ ->. apply (safe_bind _ _ _ (λ _ _, True)); [by apply safe_trigger|]. intros _ tr2 _ _.
  apply (safe_bind _ _ _ (λ _ _, True)); [|by intros; apply safe_ret].
  intros N fuel _. by destruct (exec kvobs env fuel (Query (sm ck) (-1)) tr2) as [[]].
Qed.

(** With the handlers of the repository, which are empty, no Get and no
    PutAppend of the sharded service ever returns, whatever configuration the clerk has. *)
Theorem empty_servers_never_return {Cmd : Type} env key value op ck tr :
  emptyServers (Cmd := Cmd) env →
  diverges kvobs env (Get key ck) tr ∧ diverges kvobs env (PutAppend key value op ck) tr.
Proof.
  intros He. split; apply kvLoop_never; intros tr1 srv r.
  - unfold callGet, judgeGet.
    destruct (env tr1 _ _) as [rep|] eqn:E; [|done]. by apply (es_get _ He) in E as [? ->].
  - unfold callPutAppend, judgePutAppend.
    destruct (env tr1 _ _) as [rep|] eqn:E; [|done]. by apply (es_put _ He) in E as [? ->].
Qed.

(** ** Servers that work from some time on *)

(** After [N] events the master answers every query with [c], no server of a group
    says ErrWrongGroup any more, and the server [name], which [c] lists for the key,
    accepts. Before, and of all other servers, anything may be answered. *)
Record healthy (env : @Env clerkE kvObs) (N : nat) (c : Config) (key name : string) : Prop := {
  hl_serves : serves c key name;
  hl_query : ∀ tr srv, (N ≤ length tr)%nat →
    ∃ r, env tr _ (inl1 (CallQuery srv (mkQueryArgs (-1)))) = Some r ∧ takeQuery r = Some c;
  hl_others : ∀ tr srv, (N ≤ length tr)%nat →
    judgeGet (env tr _ (inr1 (CallGet srv (mkGetArgs key)))) ≠ Break;
  hl_serving : ∀ tr srv, (N ≤ length tr)%nat →
    ∃ v, judgeGet (env (ObsMakeEnd name srv :: tr) _ (inr1 (CallGet srv (mkGetArgs key)))) = Done v;
}.

Section Live.
Context (env : @Env clerkE kvObs) (N : nat) (c : Config) (key name : string).
Context (Hh : healthy env N c key name).

(** The loop over the servers always ends; it ends with a value if it starts
    late enough and [name] is among them. *)
Lemma tryServers_returns servers tr :
  ∃ o tr1, returns kvobs env (tryServers (callGet key) judgeGet servers) tr o tr1 ∧
    (length tr ≤ length tr1)%nat ∧ ((N ≤ length tr)%nat → name ∈ servers → is_Some o).
Proof.
  revert tr. induction servers as [|nm servers IH]; intros tr; simpl.
  { exists None, tr. split_and!; [by apply returns_ret|done|by intros _ ?%elem_of_nil]. }
  set (srv := env tr _ (inr1 (MakeEnd nm))). set (tr1 := ObsMakeEnd nm srv :: tr).
  set (rep := env tr1 _ (callGet key srv)). set (tr2 := ObsGet srv key rep :: tr1).
  assert (Hstep : ∀ o tr3,
    returns kvobs env (match judgeGet rep with Done r => Ret (Some r) | Break => Ret None
      | Next => tryServers (callGet key) judgeGet servers end) tr2 o tr3 →
    returns kvobs env (tryServers (callGet key) judgeGet (nm :: servers)) tr o tr3).
  { intros o tr3 Hr. simpl. apply returns_bind. exists srv, tr1. split; [by apply returns_trigger|].
    apply returns_bind. exists rep, tr2. split; [by apply returns_trigger|done]. }
  destruct (judgeGet rep) as [v| |] eqn:Hj.
  - exists (Some v), tr2. split_and!; [apply Hstep; by apply returns_ret|simpl; lia|by eexists].
  - exists None, tr2. split_and!; [apply Hstep; by apply returns_ret|simpl; lia|].
    intros Hle _. destruct (hl_others _ _ _ _ _ Hh tr1 srv); [simpl; lia|exact Hj].
  - destruct (IH tr2) as (o & tr3 & Hr & Hlen & Hsome). exists o, tr3.
    split_and!; [by apply Hstep|simpl in Hlen; lia|]. intros Hle [<-|Hin]%elem_of_cons.
    + destruct (hl_serving _ _ _ _ _ Hh tr srv Hle) as [v Hv]. change (judgeGet rep = Done v) in Hv. congruence.
    + apply Hsome; [simpl; lia|done].
Qed.

Lemma pollTrace_length {X Y} (call : X → clerkE (option Y)) srvs tr m :
  length (pollTrace kvobs env call sleep srvs tr m) = (length tr + m)%nat.
Proof. induction m as [|m IH]; simpl; [lia|]. destruct (turn _ _); simpl; lia. Qed.

(** A query returns, with [c] if it is made late enough. *)
Lemma query_returns masters tr :
  masters ≠ [] →
  ∃ c1 tr1, returns kvobs env (Query masters (-1)) tr c1 tr1 ∧ (length tr < length tr1)%nat ∧
    ((N ≤ length tr)%nat → c1 = c).
Proof.
  intros Hne.
  assert (Hacc : ∀ m, (N ≤ length tr + m)%nat → is_Some (turn masters m) →
    accepted kvobs env (callQuery (-1)) takeQuery sleep masters tr m = Some c).
  { intros m Hm [srv Hs]. unfold accepted. rewrite Hs.
    destruct (hl_query _ _ _ _ _ Hh (pollTrace kvobs env (callQuery (-1)) sleep masters tr m) srv) as (r & Hr & Hc).
    { by rewrite pollTrace_length. }
    change (inl1 (CallQuery srv (mkQueryArgs (-1)))) with (callQuery (E := clerkE) (-1) srv) in Hr.
    by rewrite Hr. }
  destruct masters as [|srv0 srvs] eqn:Hm; [done|]. rewrite <-Hm in *.
  destruct (firstFrom_exists kvobs env (callQuery (-1)) takeQuery sleep masters tr (N * S (length masters)) c)
    as (m & c1 & _ & Hfirst).
  { apply Hacc; [lia|]. rewrite <-(Nat.add_0_r (N * _)), turn_pos by lia. by rewrite Hm. }
  exists c1, (pollTrace kvobs env (callQuery (-1)) sleep masters tr (S m)).
  split_and!; [by apply untilAccepted_returns; exists m|rewrite pollTrace_length; lia|].
  intros Hle. destruct Hfirst as (_ & Hm1 & _). rewrite Hacc in Hm1; [by simplify_eq|lia|].
  unfold accepted in Hm1. by destruct (turn masters m).
Qed.

(** One turn: it ends; it ends with a value if the clerk already has [c] late enough. *)
Lemma kvTurn_returns ck tr :
  sm ck ≠ [] →
  ∃ x tr1, returns kvobs env (kvTurn (callGet key) judgeGet key ck) tr x tr1 ∧
    match x with
    | inr res => is_Some res
    | inl ck1 => sm ck1 = sm ck ∧ (length tr < length tr1)%nat ∧
        ((N ≤ length tr)%nat → config ck1 = c ∧ config ck ≠ c)
    end.
Proof.
  intros Hne. unfold kvTurn. destruct (shard_is_Some (config ck) key) as [gid Hgid]. rewrite Hgid.
  assert (∃ o tr1, returns kvobs env
      (match Groups (config ck) !! gid with
       | Some servers => tryServers (callGet key) judgeGet servers
       | None => Ret None
       end) tr o tr1 ∧ (length tr ≤ length tr1)%nat ∧ ((N ≤ length tr)%nat → config ck = c → is_Some o))
    as (o & tr1 & Hr & Hlen & Hsome).
  { destruct (hl_serves _ _ _ _ _ Hh) as (gid' & servers' & Hs1 & Hs2 & Hin).
    destruct (Groups (config ck) !! gid) as [servers|] eqn:Hg.
    - destruct (tryServers_returns servers tr) as (o & tr1 & ? & ? & Hs). exists o, tr1. split_and!; [done..|].
      intros Hle <-. apply Hs; [done|]. congruence.
    - exists None, tr. split_and!; [by apply returns_ret|done|]. intros _ <-. congruence. }
  destruct o as [v|].
  { exists (inr (Some (v, ck))), tr1. split; [|done]. apply returns_bind. exists (Some v), tr1.
    split; [exact Hr|by apply returns_ret]. }
  destruct (query_returns (sm ck) (ObsSleep :: tr1) Hne) as (c1 & tr2 & Hq & Hlt & Hc). simpl in Hlt, Hc.
  exists (inl (mkClerk (sm ck) c1)), tr2. split.
  - apply returns_bind. exists None, tr1. split; [exact Hr|]. apply returns_bind. exists tt, (ObsSleep :: tr1).
    split; [apply returns_trigger; by destruct (env tr1 _ _)|]. apply returns_bind. exists c1, tr2.
    split; [exact Hq|by apply returns_ret].
  - simpl. split_and!; [done|lia|]. intros Hle. split; [apply Hc; lia|]. intros Heq. by destruct (Hsome Hle Heq).
Qed.

Lemma kvLoop_returns d ck tr :
  sm ck ≠ [] → (N < length tr + d)%nat →
  ∃ res tr1, returns kvobs env (kvLoop (callGet key) judgeGet key ck) tr (Some res) tr1.
Proof.
  revert ck tr. induction d as [|d IH]; intros ck tr Hne Hlt.
  - destruct (kvTurn_returns ck tr Hne) as ([ck1|[res|]] & tr1 & Hr & Hx); [|by exists res, tr1; apply returns_iter; eexists _, _|by destruct Hx].
    destruct Hx as (Hsm & Hlen & Hc). destruct (Hc ltac:(lia)) as [Hc1 _].
    destruct (kvTurn_returns ck1 tr1) as ([ck2|[res|]] & tr2 & Hr2 & Hx); [by rewrite Hsm| | |by destruct Hx].
    + destruct Hx as (_ & _ & Hc2). by destruct (Hc2 ltac:(lia)) as [_ []].
    + exists res, tr2. apply returns_iter. eexists _, _. split; [exact Hr|]. cbn beta iota.
      apply returns_iter. by eexists _, _.
  - destruct (kvTurn_returns ck tr Hne) as ([ck1|[res|]] & tr1 & Hr & Hx); [|by exists res, tr1; apply returns_iter; eexists _, _|by destruct Hx].
    destruct Hx as (Hsm & Hlen & _). destruct (IH ck1 tr1) as (res & tr2 & Hr2); [by rewrite Hsm|lia|].
    exists res, tr2. apply returns_iter. eexists _, _. split; [exact Hr|exact Hr2].
Qed.

End Live.

(** C31: A Get of the sharded service returns if from some time on the masters answer
    with a configuration that gives the key to a group in which a server accepts and none says
    ErrWrongGroup, whatever was answered before and whichever configuration the clerk began with. *)
Theorem shardkv_get_live env n c key name ck tr :
  healthy env n c key name → sm ck ≠ [] →
  ∃ v ck' tr', returns kvobs env (Get key ck) tr (Some (v, ck')) tr'.
Proof.
  intros Hh Hne. destruct (kvLoop_returns env n c key name Hh (S n) ck tr Hne) as ([v ck'] & tr' & Hr); [lia|].
  by exists v, ck', tr'.
Qed.

(** ** Instances *)

Definition demoConfig : Config := mkConfig 1 (vreplicate NShards 100) {[ 100 := ["s0"; "s1"] ]}.

(** A master that loses the first calls; server "s0" is not the leader and "s1" is. *)
Definition demoMaster (tr : list kvObs) X (e : masterE X) : X :=
  match e in masterE X return X with
  | CallQuery _ _ => if decide (length tr < 3)%nat then None else Some (mkQueryReply false "" demoConfig)
  | CallJoin _ _ => None
  | CallLeave _ _ => None
  | CallMove _ _ => None
  | Sleep => tt
  end.

Definition demoGroup (tr : list kvObs) X (e : kvE X) : X :=
  match e in kvE X return X with
  | MakeEnd name => name
  | CallGet srv _ =>
      Some (mkGetReply (match tr with ObsMakeEnd name _ :: _ => bool_decide (name = "s0") | _ => true end) OK "value")
  | CallPutAppend _ _ => None
  end.

(** The repository's servers: all calls arrive. *)
Definition emptyMaster X (e : masterE X) : X :=
  match e in masterE X return X with
  | CallQuery _ _ => Some (mkQueryReply false "" zeroConfig)
  | CallJoin _ _ => Some (mkJoinReply false "")
  | CallLeave _ _ => Some (mkLeaveReply false "")
  | CallMove _ _ => Some (mkMoveReply false "")
  | Sleep => tt
  end.

Definition emptyGroup X (e : kvE X) : X :=
  match e in kvE X return X with
  | MakeEnd name => name
  | CallGet _ _ => Some (mkGetReply false "" "")
  | CallPutAppend _ _ => Some (mkPutAppendReply false "")
  end.

Definition demoEnv : @Env clerkE kvObs := λ tr X e,
  match e with inl1 e => demoMaster tr X e | inr1 e => demoGroup tr X e end.

Definition emptyEnv : @Env clerkE kvObs := λ tr X e,
  match e with inl1 e => emptyMaster X e | inr1 e => emptyGroup X e end.

Lemma demo_get :
  (exec kvobs demoEnv 60 (Get "k" (MakeClerk ["m0"])) []).1 = Some (Some ("value", mkClerk ["m0"] demoConfig)).
Proof. vm_compute. reflexivity. Qed.

Lemma shardkv_get_live_witness :
  ∃ v ck' tr', returns kvobs demoEnv (Get "k" (MakeClerk ["m0"])) [] (Some (v, ck')) tr'.
Proof.
  apply (shardkv_get_live demoEnv 3 demoConfig "k" "s1" (MakeClerk ["m0"]) []); [|done]. split.
  - exists 100, ["s0"; "s1"]. split_and!; [vm_compute; reflexivity..|]. right. left.
  - intros tr srv Hle. exists (mkQueryReply false "" demoConfig). simpl. rewrite decide_False by lia. done.
  - intros tr srv _. unfold judgeGet. cbn. by destruct (_ && _).
  - intros tr srv Hle. by exists "value".
Defined.

Lemma empty_servers_never_return_witness :
  diverges kvobs emptyEnv (Get "k" (mkClerk ["m0"] demoConfig)) [].
Proof.
  apply (empty_servers_never_return (Cmd := Z) emptyEnv "k" "" "" (mkClerk ["m0"] demoConfig) []).
  split; intros tr srv args r Hr; cbn in Hr; injection Hr as <-.
  - by exists (mkShardMaster 0 (Raft.mkRaft 0 0 MakePersister 0 0 [] 0 0 [] [] Raft.Follower 0 0 0 []) []).
  - by exists (mkShardKV 0 (Raft.mkRaft 0 0 MakePersister 0 0 [] 0 0 [] [] Raft.Follower 0 0 0 []) 0 [] 0).
  - by exists (mkShardKV 0 (Raft.mkRaft 0 0 MakePersister 0 0 [] 0 0 [] [] Raft.Follower 0 0 0 []) 0 [] 0).
Defined.
