(* ===== verification/ShardConfig.v ===== *)
(** * The harness of the sharded service: shardkv/config.go

    Three masters and three groups of [n] servers on one labrpc network, where
    servers have names. Every server has a row of ends to the servers of its group and a
    row of ends to the masters; rows are made enabled. As in [KvConfig], random
    strings are arguments, a [*Persister] is its index in [persisters], and a server
    instance is its index in [instances]. *)

From ITree Require Import ITree.
From S2P Require Import Prelude Random GoStrings Persister Labrpc Harness Clerk ShardMaster.

Notation Net := (@Network string _ _).

#[export] Program Instance stringNames : EndNames string := {| endOf := λ s, s |}.

Record group := mkGroup {
  gid : Z;
  servers : list (option nat);
  saved : list (option nat);
  endnames : list (option (list string));
  mendnames : list (option (list string));
}.

Record config := mkConfig {
  snet : Net;
  nmasters : nat;
  masterservers : list (option nat);
  mck : list string;
  ngroups : nat;
  n : nat;
  groups : list group;
  clerks : gmap nat (list string);
  nextClientId : Z;
  maxraftstate : Z;
  persisters : list Persister;
  instances : list nat;
  clerkMasters : list (list string);
}.

Definition with_net (rn : Net) (c : config) : config :=
  mkConfig rn (nmasters c) (masterservers c) (mck c) (ngroups c) (n c) (groups c) (clerks c) (nextClientId c)
    (maxraftstate c) (persisters c) (instances c) (clerkMasters c).

Definition with_groups (l : list group) (c : config) : config :=
  mkConfig (snet c) (nmasters c) (masterservers c) (mck c) (ngroups c) (n c) l (clerks c) (nextClientId c)
    (maxraftstate c) (persisters c) (instances c) (clerkMasters c).

Definition with_persisters (l : list Persister) (c : config) : config :=
  mkConfig (snet c) (nmasters c) (masterservers c) (mck c) (ngroups c) (n c) (groups c) (clerks c) (nextClientId c)
    (maxraftstate c) l (instances c) (clerkMasters c).

Definition with_servers (l : list (option nat)) (g : group) : group :=
  mkGroup (gid g) l (saved g) (endnames g) (mendnames g).
Definition with_saved (l : list (option nat)) (g : group) : group :=
  mkGroup (gid g) (servers g) l (endnames g) (mendnames g).
Definition with_rows (en men : list (option (list string))) (g : group) : group :=
  mkGroup (gid g) (servers g) (saved g) en men.

(** ** Names *)

(** The names of client ends and the seed of math/rand, from random bytes. *)
Definition randstring : nat → list Z → option (list Ascii.ascii) := Random.randstring.
Definition makeSeed : list Z → option Z := Random.makeSeed.

Definition mastername (i : nat) : string := "master" +:+ Itoa (Z.of_nat i).

Definition servername (gid : Z) (i : nat) : string :=
  "server-" +:+ Itoa gid +:+ "-" +:+ Itoa (Z.of_nat i).

(** ** Ends *)

(** The function make_end that clerks and servers get. *)
Definition make_end (name servername : string) (rn : Net) : option Net :=
  let* rn := MakeEnd name rn in
  Some (Enable name true (Connect name servername rn)).

(** The loop that makes the ends [names], enabled, the [j]-th to [target j]. *)
Fixpoint makeEnabled (target : nat → string) (js : list nat) (names : list string) (rn : Net) : option Net :=
  match js with
  | [] => Some rn
  | j :: js =>
      let* nm := names !! j in
      let* rn := make_end nm (target j) rn in
      makeEnabled target js names rn
  end.

Definition savedOf (c : config) (g : group) (i : nat) : option Persister :=
  let* p := saved g !! i in let* p := p in persisters c !! p.

(** check that no server's log is too big: [Some false] is a failed test. *)
Definition logOk (c : config) (ps : Persister) : bool :=
  negb (bool_decide (maxraftstate c >= 0) && bool_decide (RaftStateSize ps > 2 * maxraftstate c)) &&
  negb (bool_decide (maxraftstate c < 0) && bool_decide (zlen (ReadSnapshot ps) > 0)).

Fixpoint checkGroup (c : config) (g : group) (ids : list nat) : option bool :=
  match ids with
  | [] => Some true
  | i :: ids =>
      let* ps := savedOf c g i in
      if logOk c ps then checkGroup c g ids else Some false
  end.

Fixpoint checkGroups (c : config) (gis : list nat) : option bool :=
  match gis with
  | [] => Some true
  | gi :: gis =>
      let* g := groups c !! gi in
      let* ok := checkGroup c g (seq 0 (n c)) in
      if ok : bool then checkGroups c gis else Some false
  end.

Definition checklogs (c : config) : option bool := checkGroups c (seq 0 (ngroups c)).

(** ** Clerks *)

(** [make([]string, cfg.n)] is filled up to index [nmasters - 1]. *)
Definition makeClient (names : list string) (c : config) : option (config * nat) :=
  assert* bool_decide (nmasters c ≤ n c)%nat in
  let* rn := makeEnabled mastername (seq 0 (nmasters c)) names (snet c) in
  let ck := length (clerkMasters c) in
  let endnames := take (nmasters c) names ++ replicate (n c - nmasters c) "" in
  Some (mkConfig rn (nmasters c) (masterservers c) (mck c) (ngroups c) (n c) (groups c)
    (<[ck := endnames]> (clerks c)) (nextClientId c + 1) (maxraftstate c) (persisters c) (instances c)
    (clerkMasters c ++ [take (nmasters c) names]), ck).

(** Removing the files named like the ends changes nothing here. *)
Definition deleteClient (ck : nat) (c : config) : config :=
  mkConfig (snet c) (nmasters c) (masterservers c) (mck c) (ngroups c) (n c) (groups c) (delete ck (clerks c))
    (nextClientId c) (maxraftstate c) (persisters c) (instances c) (clerkMasters c).

(** ** Servers *)

Definition saveNew (gi i : nat) (ps : Persister) (c : config) : option config :=
  let* g := groups c !! gi in
  let* s := go_update (saved g) (Z.of_nat i) (Some (length (persisters c))) in
  Some (with_persisters (persisters c ++ [ps]) (with_groups (<[gi := with_saved s g]> (groups c)) c)).

(** [len(gg.mendnames[i])] of a nil row is 0. *)
Definition ShutdownServer (gi i : nat) (c : config) : option config :=
  let* g := groups c !! gi in
  let* rn := enableAll (seq 0 (length (servers g))) (λ j, Some <$> endnameOf (endnames g) i j) false (snet c) in
  let* row := mendnames g !! i in
  let names := default [] row in
  let* rn := enableAll (seq 0 (length names)) (λ j, Some <$> names !! j) false rn in
  let c := with_net (DeleteServer (servername (gid g) i) rn) c in
  let* c := match savedOf c g i with Some ps => saveNew gi i (Copy ps) c | None => Some c end in
  let* g := groups c !! gi in
  let* l := go_update (servers g) (Z.of_nat i) None in
  Some (with_groups (<[gi := with_servers l g]> (groups c)) c).

Fixpoint shutdownEach (gi : nat) (ids : list nat) (c : config) : option config :=
  match ids with
  | [] => Some c
  | i :: ids => let* c := ShutdownServer gi i c in shutdownEach gi ids c
  end.

Definition ShutdownGroup (gi : nat) (c : config) : option config := shutdownEach gi (seq 0 (n c)) c.

(** [names] and [mnames] are the random strings for the ends to the group and
    to the masters. *)
Definition StartServer (gi i : nat) (names mnames : list string) (c : config) : option config :=
  let* g := groups c !! gi in
  let* en := go_update (endnames g) (Z.of_nat i) (Some names) in
  let* rn := makeEnabled (servername (gid g)) (seq 0 (n c)) names (snet c) in
  let* men := go_update (mendnames g) (Z.of_nat i) (Some mnames) in
  let* rn := makeEnabled mastername (seq 0 (nmasters c)) mnames rn in
  let c := with_groups (<[gi := with_rows en men g]> (groups c)) (with_net rn c) in
  let* c := saveNew gi i (match savedOf c g i with Some ps => Copy ps | None => MakePersister end) c in
  let* g := groups c !! gi in
  let* p := saved g !! i in
  let* p := p in
  let kv := length (instances c) in
  let* l := go_update (servers g) (Z.of_nat i) (Some kv) in
  Some (mkConfig (AddServer (servername (gid g) i) kv (snet c)) (nmasters c) (masterservers c) (mck c)
    (ngroups c) (n c) (<[gi := with_servers l g]> (groups c)) (clerks c) (nextClientId c) (maxraftstate c)
    (persisters c) (instances c ++ [p]) (clerkMasters c)).

Fixpoint startEach (gi : nat) (ids : list nat) (names mnames : nat → list string) (c : config) : option config :=
  match ids with
  | [] => Some c
  | i :: ids => let* c := StartServer gi i (names i) (mnames i) c in startEach gi ids names mnames c
  end.

Definition StartGroup (gi : nat) (names mnames : nat → list string) (c : config) : option config :=
  startEach gi (seq 0 (n c)) names mnames c.

(** The master's persister is its own. *)
Definition StartMasterServer (i : nat) (names : list string) (c : config) : option config :=
  let* rn := makeEnabled mastername (seq 0 (nmasters c)) names (snet c) in
  let sm := length (instances c) in
  let* l := go_update (masterservers c) (Z.of_nat i) (Some sm) in
  Some (mkConfig (AddServer (mastername i) sm rn) (nmasters c) l (mck c) (ngroups c) (n c) (groups c)
    (clerks c) (nextClientId c) (maxraftstate c) (persisters c ++ [MakePersister])
    (instances c ++ [length (persisters c)]) (clerkMasters c)).

Definition shardclerk (names : list string) (c : config) : option (config * list string) :=
  let* rn := makeEnabled mastername (seq 0 (nmasters c)) names (snet c) in
  Some (with_net rn c, ShardMaster.MakeClerk (take (nmasters c) names)).

(** ** Groups joining and leaving *)

(** The argument of [cfg.mck.Join], built up in [m]. *)
Fixpoint joinMap (gis : list nat) (m : gmap Z (list string)) (c : config) : option (gmap Z (list string)) :=
  match gis with
  | [] => Some m
  | g :: gis =>
      let* g := groups c !! g in
      joinMap gis (<[gid g := servername (gid g) <$> seq 0 (n c)]> m) c
  end.

Fixpoint leaveList (gis : list nat) (c : config) : option (list Z) :=
  match gis with
  | [] => Some []
  | g :: gis => let* g := groups c !! g in let* l := leaveList gis c in Some (gid g :: l)
  end.

Section Clients.
Context {E : Type → Type} `{HE : masterE -< E}.

Definition joinm (gis : list nat) (c : config) : option (itree E unit) :=
  let* m := joinMap gis ∅ c in Some (Join (mck c) m).
Definition join (gi : nat) (c : config) : option (itree E unit) := joinm [gi] c.
Definition leavem (gis : list nat) (c : config) : option (itree E unit) :=
  let* l := leaveList gis c in Some (Leave (mck c) l).
Definition leave (gi : nat) (c : config) : option (itree E unit) := leavem [gi] c.
End Clients.

(** ** make_config *)

Fixpoint startMasters (ids : list nat) (names : nat → list string) (c : config) : option config :=
  match ids with
  | [] => Some c
  | i :: ids => let* c := StartMasterServer i (names i) c in startMasters ids names c
  end.

Definition emptyConfig (maxraftstate : Z) : config :=
  mkConfig MakeNetwork 3 (replicate 3 None) [] 0 0 [] ∅ 0 maxraftstate [] [] [].

(** A new group; [mendnames] has one row per master. *)
Definition newGroup (c : config) (gi : nat) : group :=
  mkGroup (100 + Z.of_nat gi) (replicate (n c) None) (replicate (n c) None) (replicate (n c) None)
    (replicate (nmasters c) None).

(** [cfg.groups] grows here; in the code its entries are nil until then. *)
Fixpoint makeGroups (gis : list nat) (names mnames : nat → nat → list string) (c : config) : option config :=
  match gis with
  | [] => Some c
  | gi :: gis =>
      let c := with_groups (groups c ++ [newGroup c gi]) c in
      let* c := startEach gi (seq 0 (n c)) (names gi) (mnames gi) c in
      makeGroups gis names mnames c
  end.

(** [masterNames], [clerkNames], [names] and [mnames] are the random strings. *)
Definition make_config (n : nat) (unreliable : bool) (maxraftstate : Z) (masterNames : nat → list string)
    (clerkNames : list string) (names mnames : nat → nat → list string) : option config :=
  let* c := startMasters (seq 0 3) masterNames (emptyConfig maxraftstate) in
  let* '(c, ck) := shardclerk clerkNames c in
  let c := mkConfig (snet c) (nmasters c) (masterservers c) ck 3 n [] ∅ 0 maxraftstate
    (persisters c) (instances c) [] in
  let* c := makeGroups (seq 0 3) names mnames c in
  Some (mkConfig (Reliable (negb unreliable) (snet c)) (nmasters c) (masterservers c) (mck c) (ngroups c)
    n (groups c) ∅ (Z.of_nat n + 1000) maxraftstate (persisters c) (instances c) []).

Fixpoint shutdownGroups (gis : list nat) (c : config) : option config :=
  match gis with
  | [] => Some c
  | gi :: gis => let* c := ShutdownGroup gi c in shutdownGroups gis c
  end.

Definition cleanup (c : config) : option config :=
  let* c := shutdownGroups (seq 0 (ngroups c)) c in
  let* rn := Cleanup (snet c) in
  Some (with_net rn c).
