(* ===== verification/ShardConfigSpec.v ===== *)
(** * Properties of the harness of the sharded service (shardkv/config.go)

    Names are unambiguous; in every configuration the harness reaches the ends of a
    server lead to its own group and to the masters and carry requests exactly
    while the server runs; and the sizes of two slices limit how the harness can be used. *)

From S2P Require Import Prelude GoStrings Persister Labrpc Harness ShardConfig.

(** ** Names *)

Lemma servername_eq g i g' i' :
  0 ≤ g → 0 ≤ g' → servername g i = servername g' i' → g = g' ∧ i = i'.
Proof.
  intros Hg Hg' Heq. unfold servername in Heq.
  assert (Itoa g +:+ "-" +:+ Itoa (Z.of_nat i) = Itoa g' +:+ "-" +:+ Itoa (Z.of_nat i')) as Hs by by simplify_eq.
  apply (split_at_char (Ascii.ascii_of_nat 45)) in Hs as [H1 H2]; [|by apply chars_Itoa..].
  apply (inj Itoa) in H1. apply (inj Itoa) in H2. lia.
Qed.

Lemma mastername_eq i i' : mastername i = mastername i' → i = i'.
Proof. unfold mastername. intros Heq. by simplify_eq. Qed.

(** Server names determine group and index, master names the index, and no
    server is named like a master: the harness's AddServer and DeleteServer calls
    never touch another server. *)
Theorem shard_names_distinct g i g' i' :
  0 ≤ g → 0 ≤ g' →
  (servername g i = servername g' i' ↔ g = g' ∧ i = i') ∧
  (mastername i = mastername i' ↔ i = i') ∧ servername g i ≠ mastername i'.
Proof.
  intros Hg Hg'. split_and!.
  - split; [by apply servername_eq|by intros [-> ->]].
  - split; [apply mastername_eq|by intros ->].
  - done.
Qed.

(** ** Ends made enabled *)

Record lit (target : nat → string) (js : list nat) (names : list string) (rn rn' : Net) : Prop := {
  lt_servers : Labrpc.servers rn' = Labrpc.servers rn;
  lt_ends : ends rn ⊆ ends rn';
  lt_new : ∀ j, j ∈ js → ∃ nm, names !! j = Some nm ∧ nm ∉ ends rn ∧ nm ∈ ends rn' ∧
    isEnabled rn' nm = true ∧ connectionOf rn' nm = Some (target j);
  lt_inj : ∀ j j' nm, j ∈ js → j' ∈ js → names !! j = Some nm → names !! j' = Some nm → j = j';
  lt_old : ∀ x, x ∈ ends rn → isEnabled rn' x = isEnabled rn x ∧ connectionOf rn' x = connectionOf rn x;
}.

Lemma make_end_spec nm t (rn rn' : Net) :
  make_end nm t rn = Some rn' →
  nm ∉ ends rn ∧ ends rn' = {[ nm ]} ∪ ends rn ∧ Labrpc.servers rn' = Labrpc.servers rn ∧
  isEnabled rn' nm = true ∧ connectionOf rn' nm = Some t ∧
  ∀ x, x ≠ nm → isEnabled rn' x = isEnabled rn x ∧ connectionOf rn' x = connectionOf rn x.
Proof.
  unfold make_end. intros (rn1 & Hmk & [= <-])%obind_Some.
  pose proof (λ x, isEnabled_fresh rn nm rn1 x Hmk) as Hf. destruct (Hf nm) as (Hno & He & Hs & _).
  split_and!; [done..| | |].
  - by rewrite isEnabled_Enable, decide_True.
  - etrans; [apply connectionOf_Connect|]. by rewrite decide_True.
  - intros x Hx. destruct (Hf x) as (_ & _ & _ & He' & Hc). rewrite decide_False in He' by done. rewrite decide_False in Hc by done.
    rewrite isEnabled_Enable, decide_False by done. split; [exact He'|].
    etrans; [apply connectionOf_Connect|]. by rewrite decide_False.
Qed.

Lemma makeEnabled_spec target js names rn rn' :
  NoDup js → makeEnabled target js names rn = Some rn' → lit target js names rn rn'.
Proof.
  revert rn. induction js as [|j js IH]; intros rn Hnd; simpl.
  { intros [= <-]. split; try done; intros *; by intros ?%elem_of_nil. }
  apply NoDup_cons in Hnd as [Hj Hnd].
  intros (nm & Hnm & (rn1 & (Hno & He & Hs & Hon & Hc & Hrest)%make_end_spec & Hrec)%obind_Some)%obind_Some.
  destruct (IH _ Hnd Hrec) as [Hsrv Hsub Hnew Hinj Hold].
  assert (Hdiff : ∀ k, k ∈ js → names !! k ≠ Some nm).
  { intros k Hk Hn. destruct (Hnew k Hk) as (nm' & Hn' & Hno' & _). simplify_eq. apply Hno'. rewrite He. set_solver. }
  split.
  - by rewrite Hsrv.
  - etrans; [|exact Hsub]. rewrite He. set_solver.
  - intros k [->|Hk]%elem_of_cons.
    + exists nm. destruct (Hold nm) as [-> ->]; [rewrite He; set_solver|]. split_and!; [done..| |done|done].
      apply Hsub. rewrite He. set_solver.
    + destruct (Hnew k Hk) as (nm' & ? & Hno' & ? & ? & ?). exists nm'. split_and!; try done.
      rewrite He in Hno'. set_solver.
  - intros k k' nm' [->|Hk]%elem_of_cons [->|Hk']%elem_of_cons Hn Hn'; simplify_eq; [done|..].
    + by destruct (Hdiff k' Hk').
    + by destruct (Hdiff k Hk).
    + by eapply Hinj.
  - intros x Hx. destruct (Hold x) as [-> ->]; [rewrite He; set_solver|]. apply Hrest. by intros ->.
Qed.

(** ** Rows of ends *)

(** Group, server, and whether it is the row to the masters. *)
Notation Slot := (nat * nat * bool)%type.

Definition rowsOf (m : bool) (g : group) : list (option (list string)) :=
  if m then mendnames g else endnames g.

Definition slotName (c : config) (s : Slot) (j : nat) : option string :=
  let '(gi, i, m) := s in let* g := groups c !! gi in endnameOf (rowsOf m g) i j.

Definition slotTarget (s : Slot) (j : nat) : string :=
  let '(gi, i, m) := s in if m : bool then mastername j else servername (100 + Z.of_nat gi) j.

Definition running (g : group) (i : nat) : bool := bool_decide (is_Some (default None (servers g !! i))).

Definition up (c : config) (s : Slot) : bool :=
  let '(gi, i, m) := s in match groups c !! gi with Some g => running g i | None => false end.

(** [σ] names the ends, which are all different, lead to [slotTarget] and are enabled
    as [u] says. *)
Record wired (σ : Slot → nat → option string) (u : Slot → bool) (rn : Net) : Prop := {
  wi_inj : ∀ s j s' j' nm, σ s j = Some nm → σ s' j' = Some nm → s = s' ∧ j = j';
  wi_known : ∀ s j nm, σ s j = Some nm → nm ∈ ends rn;
  wi_conn : ∀ s j nm, σ s j = Some nm → connectionOf rn nm = Some (slotTarget s j);
  wi_up : ∀ s j nm, σ s j = Some nm → isEnabled rn nm = u s;
}.

Lemma wired_ext σ u σ' u' rn :
  (∀ s j, σ' s j = σ s j) → (∀ s j, is_Some (σ s j) → u' s = u s) → wired σ u rn → wired σ' u' rn.
Proof.
  intros Hσ Hu [Hi Hk Hc He]. split; intros *; rewrite !Hσ; [apply Hi|apply Hk|apply Hc|].
  intros Hnm. rewrite (Hu _ j) by by eexists. by eapply He.
Qed.

Lemma wired_keep σ u (rn rn' : Net) :
  ends rn ⊆ ends rn' →
  (∀ x, x ∈ ends rn → isEnabled rn' x = isEnabled rn x ∧ connectionOf rn' x = connectionOf rn x) →
  wired σ u rn → wired σ u rn'.
Proof.
  intros Hs Hx [Hi Hk Hc He]. split; [done|by eauto|..]; intros s j nm Hnm;
    destruct (Hx nm) as [He' Hc']; [by eauto| |by eauto|]; [rewrite Hc'|rewrite He']; eauto.
Qed.

Lemma wired_lit σ u s names m (rn rn' : Net) :
  length names = m → lit (slotTarget s) (seq 0 m) names rn rn' → wired σ u rn →
  wired (λ s' j, if decide (s' = s) then names !! j else σ s' j)
    (λ s', if decide (s' = s) then true else u s') rn'.
Proof.
  intros Hlen Hl Hw. pose proof (wired_keep _ _ _ _ (lt_ends _ _ _ _ _ Hl) (lt_old _ _ _ _ _ Hl) Hw) as Hw'.
  assert (Hnew : ∀ j nm, names !! j = Some nm → j ∈ seq 0 m ∧ nm ∉ ends rn ∧ nm ∈ ends rn' ∧
    isEnabled rn' nm = true ∧ connectionOf rn' nm = Some (slotTarget s j)).
  { intros j nm Hj. assert (Hin : j ∈ seq 0 m) by (apply elem_of_seq; apply lookup_lt_Some in Hj; lia).
    split; [done|]. destruct (lt_new _ _ _ _ _ Hl j Hin) as (nm' & Hj' & Hrest). by simplify_eq. }
  assert (Hno : ∀ s' j j' nm, σ s' j' = Some nm → names !! j ≠ Some nm).
  { intros s' j j' nm Hs' Hj. destruct (Hnew j nm Hj) as (_ & Hno & _). apply Hno. by eapply (wi_known _ _ _ Hw). }
  split; intros *; repeat case_decide; subst; intros Hj.
  - intros Hj'. split; [done|]. eapply (lt_inj _ _ _ _ _ Hl); [by eapply Hnew..|done|done].
  - intros Hj'. by destruct (Hno _ _ _ _ Hj' Hj).
  - intros Hj'. by destruct (Hno _ _ _ _ Hj Hj').
  - by eapply (wi_inj _ _ _ Hw).
  - by eapply Hnew.
  - by eapply (wi_known _ _ _ Hw').
  - by eapply Hnew.
  - by eapply (wi_conn _ _ _ Hw').
  - by eapply Hnew.
  - by eapply (wi_up _ _ _ Hw').
Qed.

Lemma wired_off σ u s js f (rn rn' : Net) :
  enableAll js f false rn = Some rn' →
  (∀ j nm, σ s j = Some nm ↔ j ∈ js ∧ f j = Some (Some nm)) → wired σ u rn →
  wired σ (λ s', if decide (s' = s) then false else u s') rn'.
Proof.
  intros ((He & Hs & Hc) & Hin & Hout)%enableAll_spec Hσ [Hi Hk Hcn Hu]. split; [done|..].
  - intros *. rewrite He. by apply Hk.
  - intros * Hnm. unfold connectionOf in *. rewrite Hc. by eapply Hcn.
  - intros s' j nm Hnm. case_decide as Heq.
    + subst. apply Hσ in Hnm as [? ?]. by eapply Hin.
    + rewrite Hout; [by eapply Hu|]. intros j' nm' Hj' Hf Hx. simpl in Hx. subst nm'.
      assert (σ s j' = Some nm) as Hnm' by by apply Hσ. by destruct (Hi _ _ _ _ _ Hnm Hnm') as [-> _].
Qed.

(** ** The invariant *)

Record group_ok (c : config) (gi : nat) (g : group) : Prop := {
  go_gid : gid g = 100 + Z.of_nat gi;
  go_servers : length (servers g) = n c;
  go_saved : length (saved g) = n c;
  go_rows : length (endnames g) = n c ∧ ∀ i l, endnames g !! i = Some (Some l) → length l = n c;
  go_mrows : length (mendnames g) = nmasters c ∧ ∀ i l, mendnames g !! i = Some (Some l) → length l = nmasters c;
  go_server : ∀ i, (i < n c)%nat →
    serverOf (snet c) (servername (100 + Z.of_nat gi) i) = default None (servers g !! i);
}.

Record shard_ok (c : config) : Prop := {
  sk_group : ∀ gi g, groups c !! gi = Some g → group_ok c gi g;
  sk_wired : wired (slotName c) (up c) (snet c);
  sk_master : ∀ i, (i < nmasters c)%nat → serverOf (snet c) (mastername i) = default None (masterservers c !! i);
  sk_fresh : ∀ gi i, (length (groups c) ≤ gi)%nat → serverOf (snet c) (servername (100 + Z.of_nat gi) i) = None;
}.

(** What starting a server does. *)
Lemma start_inv gi i names mnames c c' :
  StartServer gi i names mnames c = Some c' →
  ∃ g rn1 rn2 s, let kv := length (instances c) in
    groups c !! gi = Some g ∧
    (i < length (endnames g))%nat ∧ (i < length (mendnames g))%nat ∧ (i < length (servers g))%nat ∧
    makeEnabled (servername (gid g)) (seq 0 (n c)) names (snet c) = Some rn1 ∧
    makeEnabled mastername (seq 0 (nmasters c)) mnames rn1 = Some rn2 ∧ length s = length (saved g) ∧
    snet c' = AddServer (servername (gid g) i) kv rn2 ∧
    groups c' = <[gi := mkGroup (gid g) (<[i := Some kv]> (servers g)) s
      (<[i := Some names]> (endnames g)) (<[i := Some mnames]> (mendnames g))]> (groups c) ∧
    n c' = n c ∧ nmasters c' = nmasters c ∧ masterservers c' = masterservers c.
Proof.
  unfold StartServer, saveNew.
  intros (g & Hg & (en & [Hi ->]%go_update_nat & (rn1 & H1 & (men & [Hmi ->]%go_update_nat & (rn2 & H2 & H)%obind_Some)%obind_Some)%obind_Some)%obind_Some)%obind_Some.
  assert (Hlt : (gi < length (groups c))%nat) by by eapply lookup_lt_Some.
  simpl in H. rewrite list_lookup_insert_eq in H by done. cbn [obind] in H.
  apply obind_Some in H as (c2 & (s & [Hs ->]%go_update_nat & [= <-])%obind_Some & H). simpl in H, Hs.
  rewrite list_lookup_insert_eq in H by by rewrite length_insert. cbn [obind] in H.
  apply obind_Some in H as (o & Ho & (p & -> & (l & [Hl ->]%go_update_nat & [= <-])%obind_Some)%obind_Some).
  simpl in *. exists g, rn1, rn2, (<[i := Some (length (persisters c))]> (saved g)).
  split_and!; try done; [by rewrite length_insert|by rewrite !list_insert_insert_eq].
Qed.

Lemma serverOf_set (rn : Net) x o y :
  serverOf (setServer x o rn) y = if decide (y = x) then o else serverOf rn y.
Proof.
  unfold serverOf. simpl. case_decide; subst; [by rewrite lookup_insert_eq|by rewrite lookup_insert_ne].
Qed.

(** Both rows and the slot of one server change. *)
Lemma slotName_update c c' gi g g' i row mrow s j :
  groups c !! gi = Some g → groups c' = <[gi := g']> (groups c) →
  (i < length (endnames g))%nat → (i < length (mendnames g))%nat →
  endnames g' = <[i := Some row]> (endnames g) → mendnames g' = <[i := Some mrow]> (mendnames g) →
  slotName c' s j = if decide (s = (gi, i, true)) then mrow !! j
    else if decide (s = (gi, i, false)) then row !! j else slotName c s j.
Proof.
  intros Hg Hc Hi Hmi Hr Hm. destruct s as [[gi' i'] m]. simpl. rewrite Hc.
  destruct (decide (gi' = gi)) as [->|Hne].
  - rewrite list_lookup_insert_eq by by eapply lookup_lt_Some. rewrite Hg. cbn [obind].
    destruct m; simpl; rewrite ?Hr, ?Hm, endnameOf_insert by done; repeat case_decide; congruence.
  - rewrite list_lookup_insert_ne by done. by rewrite !decide_False by congruence.
Qed.

Lemma up_update c c' gi g g' i o s :
  groups c !! gi = Some g → groups c' = <[gi := g']> (groups c) →
  (i < length (servers g))%nat → servers g' = <[i := o]> (servers g) →
  up c' s = if decide (s = (gi, i, true) ∨ s = (gi, i, false)) then bool_decide (is_Some o) else up c s.
Proof.
  intros Hg Hc Hi Hs. destruct s as [[gi' i'] m]. simpl. rewrite Hc.
  destruct (decide (gi' = gi)) as [->|Hne].
  - rewrite list_lookup_insert_eq, Hg by by eapply lookup_lt_Some. unfold running. rewrite Hs.
    destruct (decide (i' = i)) as [->|].
    + rewrite list_lookup_insert_eq by done. rewrite decide_True by (destruct m; auto). done.
    + by rewrite list_lookup_insert_ne, decide_False by naive_solver.
  - by rewrite list_lookup_insert_ne, decide_False by naive_solver.
Qed.

(** The other groups, when one server of group [gi] is set to [o]. *)
Lemma group_ok_other c c' gi i o gi' g (rn : Net) :
  gi' ≠ gi → n c' = n c → nmasters c' = nmasters c →
  snet c' = setServer (servername (100 + Z.of_nat gi) i) o rn → Labrpc.servers rn = Labrpc.servers (snet c) →
  group_ok c gi' g → group_ok c' gi' g.
Proof.
  intros Hne Hn Hm Hnet Hrn [? ? ? ? ? Hs]. split; rewrite ?Hn, ?Hm; try done.
  intros k Hk. rewrite Hnet, serverOf_set, decide_False.
  - rewrite <-Hs by done. unfold serverOf. by rewrite Hrn.
  - intros [? _]%servername_eq; lia.
Qed.

Lemma master_other c c' gi i o (rn : Net) :
  nmasters c' = nmasters c → masterservers c' = masterservers c →
  snet c' = setServer (servername (100 + Z.of_nat gi) i) o rn → Labrpc.servers rn = Labrpc.servers (snet c) →
  shard_ok c → ∀ k, (k < nmasters c')%nat → serverOf (snet c') (mastername k) = default None (masterservers c' !! k).
Proof.
  intros Hm Hms Hnet Hrn Hok k Hk. rewrite Hnet, serverOf_set, decide_False by done.
  rewrite Hm in Hk. rewrite Hms, <-(sk_master c Hok k Hk). unfold serverOf. by rewrite Hrn.
Qed.

Lemma fresh_other c c' gi i o (rn : Net) g' :
  (gi < length (groups c))%nat → groups c' = <[gi := g']> (groups c) →
  snet c' = setServer (servername (100 + Z.of_nat gi) i) o rn → Labrpc.servers rn = Labrpc.servers (snet c) →
  shard_ok c → ∀ gi' k, (length (groups c') ≤ gi')%nat → serverOf (snet c') (servername (100 + Z.of_nat gi') k) = None.
Proof.
  intros Hlt Hgs Hnet Hrn Hok gi' k Hle. rewrite Hgs, length_insert in Hle.
  rewrite Hnet, serverOf_set, decide_False by (intros [? _]%servername_eq; lia).
  rewrite <-(sk_fresh c Hok gi' k Hle). unfold serverOf. by rewrite Hrn.
Qed.

Lemma group_servers c c' gi i o g l (rn : Net) :
  n c' = n c → (i < n c)%nat → l = <[i := o]> (servers g) →
  snet c' = setServer (servername (100 + Z.of_nat gi) i) o rn → Labrpc.servers rn = Labrpc.servers (snet c) →
  group_ok c gi g → ∀ k, (k < n c')%nat →
    serverOf (snet c') (servername (100 + Z.of_nat gi) k) = default None (l !! k).
Proof.
  intros Hn Hi -> Hnet Hrn Hok k Hk. rewrite Hn in Hk. rewrite Hnet, serverOf_set.
  destruct (decide (k = i)) as [->|Hne].
  - rewrite decide_True, list_lookup_insert_eq; [done|by rewrite (go_servers _ _ _ Hok)|done].
  - rewrite decide_False, list_lookup_insert_ne by (done || by intros [_ ?]%servername_eq; lia).
    rewrite <-(go_server _ _ _ Hok k Hk). unfold serverOf. by rewrite Hrn.
Qed.

Lemma rows_insert (m : nat) (en : list (option (list string))) i names :
  length names = m → (∀ i l, en !! i = Some (Some l) → length l = m) →
  ∀ k l, <[i := Some names]> en !! k = Some (Some l) → length l = m.
Proof. intros Hn Hr k l [(_ & [= <-] & _)|[_ ?]]%list_lookup_insert_Some; eauto. Qed.

Lemma start_ok gi i names mnames c c' :
  length names = n c → length mnames = nmasters c →
  StartServer gi i names mnames c = Some c' → shard_ok c → shard_ok c'.
Proof.
  intros Hln Hlm (g & rn1 & rn2 & s & Hg & Hi & Hmi & Hsi & H1 & H2 & Hs & Hnet & Hgs & Hn & Hm & Hms)%start_inv Hok.
  pose proof (sk_group c Hok gi g Hg) as Hgo. rewrite (go_gid _ _ _ Hgo) in *.
  apply makeEnabled_spec in H1; [|apply NoDup_seq]. apply makeEnabled_spec in H2; [|apply NoDup_seq].
  assert (Hsrv : Labrpc.servers rn2 = Labrpc.servers (snet c)).
  { rewrite (lt_servers _ _ _ _ _ H2). apply (lt_servers _ _ _ _ _ H1). }
  assert (Hin : (i < n c)%nat) by by rewrite <-(go_servers _ _ _ Hgo).
  split.
  - intros gi' g'. rewrite Hgs. intros [(<- & <- & _)|[Hne Hg']]%list_lookup_insert_Some.
    + split; simpl.
      * done.
      * rewrite length_insert, Hn. apply Hgo.
      * rewrite Hs, Hn. apply Hgo.
      * rewrite length_insert, Hn. split; [apply Hgo|]. apply rows_insert; [done|apply Hgo].
      * rewrite length_insert, Hm. split; [apply Hgo|]. apply rows_insert; [done|apply Hgo].
      * by eapply group_servers.
    + eapply group_ok_other; [|done..|by apply (sk_group c Hok)]. done.
  - pose proof (sk_wired c Hok) as Hw. rewrite Hnet.
    apply (wired_lit _ _ (gi, i, false) names (n c) _ rn1) in Hw; [|done|exact H1].
    apply (wired_lit _ _ (gi, i, true) mnames (nmasters c) _ rn2) in Hw; [|done|exact H2].
    eapply wired_keep; [| |eapply wired_ext; [| |exact Hw]]; [done|done|..].
    + intros s0 j. by erewrite slotName_update by done.
    + intros s0 j _. erewrite up_update by done. repeat case_decide; naive_solver.
  - by eapply master_other.
  - eapply fresh_other; [by eapply lookup_lt_Some|done..].
Qed.

Lemma shutdown_inv gi i c c' :
  ShutdownServer gi i c = Some c' →
  ∃ g rn1 rn2 row s,
    groups c !! gi = Some g ∧ (i < length (servers g))%nat ∧
    enableAll (seq 0 (length (servers g))) (λ j, Some <$> endnameOf (endnames g) i j) false (snet c) = Some rn1 ∧
    mendnames g !! i = Some row ∧
    enableAll (seq 0 (length (default [] row))) (λ j, Some <$> default [] row !! j) false rn1 = Some rn2 ∧
    length s = length (saved g) ∧ snet c' = DeleteServer (servername (gid g) i) rn2 ∧
    groups c' = <[gi := mkGroup (gid g) (<[i := None]> (servers g)) s (endnames g) (mendnames g)]> (groups c) ∧
    n c' = n c ∧ nmasters c' = nmasters c ∧ masterservers c' = masterservers c.
Proof.
  unfold ShutdownServer.
  intros (g & Hg & (rn1 & H1 & (row & Hrow & (rn2 & H2 & (c2 & Hc2 & H)%obind_Some)%obind_Some)%obind_Some)%obind_Some)%obind_Some.
  assert (Hlt : (gi < length (groups c))%nat) by by eapply lookup_lt_Some.
  assert (∃ s ps, length s = length (saved g) ∧ c2 = with_persisters ps (with_groups (<[gi := with_saved s g]> (groups c))
    (with_net (DeleteServer (servername (gid g) i) rn2) c))) as (s & ps & Hs & ->).
  { destruct (savedOf _ g i) as [q|].
    - unfold saveNew in Hc2. simpl in Hc2. rewrite Hg in Hc2. cbn [obind] in Hc2.
      apply obind_Some in Hc2 as (s & [_ ->]%go_update_nat & [= <-]).
      eexists _, _. split; [|done]. by rewrite length_insert.
    - injection Hc2 as <-. exists (saved g), (persisters c). split; [done|].
      assert (with_saved (saved g) g = g) as -> by by destruct g. by rewrite list_insert_id. }
  simpl in H. rewrite list_lookup_insert_eq in H by done. cbn [obind] in H.
  apply obind_Some in H as (l & [Hl ->]%go_update_nat & [= <-]). simpl in *.
  exists g, rn1, rn2, row, s. split_and!; try done. by rewrite list_insert_insert_eq.
Qed.

Lemma shutdown_ok gi i c c' : ShutdownServer gi i c = Some c' → shard_ok c → shard_ok c'.
Proof.
  intros (g & rn1 & rn2 & row & s & Hg & Hi & H1 & Hrow & H2 & Hs & Hnet & Hgs & Hn & Hm & Hms)%shutdown_inv Hok.
  pose proof (sk_group c Hok gi g Hg) as Hgo. rewrite (go_gid _ _ _ Hgo) in *.
  assert (Hsrv : Labrpc.servers rn2 = Labrpc.servers (snet c)).
  { apply enableAll_spec in H1 as ((_ & <- & _) & _). by apply enableAll_spec in H2 as ((_ & -> & _) & _). }
  assert (Hin : (i < n c)%nat) by by rewrite <-(go_servers _ _ _ Hgo).
  split.
  - intros gi' g'. rewrite Hgs. intros [(<- & <- & _)|[Hne Hg']]%list_lookup_insert_Some.
    + split; simpl.
      * done.
      * rewrite length_insert, Hn. apply Hgo.
      * rewrite Hs, Hn. apply Hgo.
      * rewrite Hn. apply Hgo.
      * rewrite Hm. apply Hgo.
      * by eapply group_servers.
    + eapply group_ok_other; [|done..|by apply (sk_group c Hok)]. done.
  - pose proof (sk_wired c Hok) as Hw. rewrite Hnet.
    assert (Hlt : (gi < length (groups c))%nat) by by eapply lookup_lt_Some.
    apply (wired_off _ _ (gi, i, false) _ _ _ _ H1) in Hw.
    2: { intros j nm. simpl. rewrite Hg. cbn [obind]. rewrite (go_servers _ _ _ Hgo), elem_of_seq. split.
         - intros Hnm. rewrite Hnm. split; [|done]. apply endnameOf_Some in Hnm as (l & Hl & Hj).
           apply lookup_lt_Some in Hj. rewrite (proj2 (go_rows _ _ _ Hgo) _ _ Hl) in Hj. lia.
         - intros [_ (? & ? & [= ->])%fmap_Some]. done. }
    apply (wired_off _ _ (gi, i, true) _ _ _ _ H2) in Hw.
    2: { intros j nm. simpl. rewrite Hg. cbn [obind]. unfold endnameOf. simpl. rewrite Hrow. cbn [obind].
         destruct row as [l|]; simpl; [rewrite elem_of_seq|by split; [|intros [?%elem_of_nil _]]]. split.
         - intros Hnm. rewrite Hnm. split; [|done]. apply lookup_lt_Some in Hnm. lia.
         - intros [_ (? & ? & [= ->])%fmap_Some]. done. }
    eapply wired_keep; [| |eapply wired_ext; [| |exact Hw]]; [done|done|..].
    + intros [[gi' i'] m] j. simpl. rewrite Hgs. destruct (decide (gi' = gi)) as [->|].
      * rewrite list_lookup_insert_eq, Hg by done. by destruct m.
      * by rewrite list_lookup_insert_ne.
    + intros s0 j _. erewrite up_update by done. repeat case_decide; naive_solver.
  - by eapply master_other.
  - eapply fresh_other; [by eapply lookup_lt_Some|done..].
Qed.

(** Everything but the network, and there only ends that are in no row, is as before. *)
Lemma more_ends_ok c c' target js names :
  groups c' = groups c → n c' = n c → nmasters c' = nmasters c → masterservers c' = masterservers c →
  lit target js names (snet c) (snet c') → shard_ok c → shard_ok c'.
Proof.
  intros Hg Hn Hm Hms Hl [Hgr Hw Hma Hfr]. pose proof (lt_servers _ _ _ _ _ Hl) as Hs.
  assert (Hso : ∀ x, serverOf (snet c') x = serverOf (snet c) x) by (intros x; unfold serverOf; by rewrite Hs).
  split.
  - intros gi g. rewrite Hg. intros [? ? ? ? ? Hsv]%Hgr. split; rewrite ?Hn, ?Hm; try done.
    intros. rewrite Hso. by apply Hsv.
  - eapply wired_ext; [| |eapply wired_keep; [| |exact Hw]]; [| |apply Hl|apply Hl].
    + intros [[gi i] m] j. simpl. by rewrite Hg.
    + intros [[gi i] m] j _. simpl. by rewrite Hg.
  - intros i. rewrite Hm, Hms, Hso. apply Hma.
  - intros gi i. rewrite Hg, Hso. apply Hfr.
Qed.

Lemma startMaster_ok i names c c' :
  StartMasterServer i names c = Some c' → shard_ok c →
  shard_ok c' ∧ (i < length (masterservers c))%nat ∧ groups c' = groups c ∧ nmasters c' = nmasters c ∧
  masterservers c' = <[i := Some (length (instances c))]> (masterservers c).
Proof.
  unfold StartMasterServer.
  intros (rn & Hrn & (l & [Hi ->]%go_update_nat & [= <-])%obind_Some)%obind_Some Hok. split; [|done].
  apply makeEnabled_spec in Hrn; [|apply NoDup_seq].
  pose proof (more_ends_ok c (with_net rn c) _ _ _ eq_refl eq_refl eq_refl eq_refl Hrn Hok) as [Hgr Hw Hma Hfr].
  unfold AddServer. split; simpl in *.
  - intros gi g [? ? ? ? ? Hsv]%Hgr. split; simpl in *; try done. intros k Hk.
    rewrite serverOf_set, decide_False by done. by apply Hsv.
  - eapply wired_keep; [| |exact Hw]; done.
  - intros k Hk. rewrite serverOf_set. destruct (decide (k = i)) as [->|Hne].
    + by rewrite decide_True, list_lookup_insert_eq.
    + rewrite decide_False, list_lookup_insert_ne by (done || by intros ?%mastername_eq). by apply Hma.
  - intros gi k Hk. rewrite serverOf_set, decide_False by done. by apply Hfr.
Qed.

(** ** Runs *)

(** [OMakeEnd] is a call of make_end by a clerk or a server; [OPersist] a write of
    an instance to its persister. *)
Inductive Op :=
  | OStart (gi i : nat) (names mnames : list string)
  | OShutdown (gi i : nat)
  | OMakeClient (names : list string)
  | ODeleteClient (ck : nat)
  | OMakeEnd (name servername : string)
  | OPersist (k : nat) (st sn : bytes).

Definition opStep (c : config) (o : Op) : option config :=
  match o with
  | OStart gi i names mnames =>
      assert* bool_decide (length names = n c ∧ length mnames = nmasters c) in StartServer gi i names mnames c
  | OShutdown gi i => ShutdownServer gi i c
  | OMakeClient names => fst <$> makeClient names c
  | ODeleteClient ck => Some (deleteClient ck c)
  | OMakeEnd name servername => let* rn := make_end name servername (snet c) in Some (with_net rn c)
  | OPersist k st sn =>
      let* p := instances c !! k in
      let* ps := persisters c !! p in
      Some (with_persisters (<[p := SaveStateAndSnapshot ps st sn]> (persisters c)) c)
  end.

Fixpoint orun (c : config) (os : list Op) : option config :=
  match os with
  | [] => Some c
  | o :: os => let* c := opStep c o in orun c os
  end.

Definition harness (k : nat) (unreliable : bool) (c : config) : Prop :=
  ∃ mx masterNames clerkNames names mnames c0 os,
    (∀ gi i, length (names gi i) = k ∧ length (mnames gi i) = 3%nat) ∧
    make_config k unreliable mx masterNames clerkNames names mnames = Some c0 ∧ orun c0 os = Some c.

(** All masters run. *)
Record shard_inv (k : nat) (c : config) : Prop := {
  sv_ok : shard_ok c;
  sv_n : n c = k ∧ nmasters c = 3%nat;
  sv_masters : ∀ i, (i < 3)%nat → is_Some (default None (masterservers c !! i));
}.

Lemma make_end_lit nm t (rn rn' : Net) : make_end nm t rn = Some rn' → lit (λ _, t) [0%nat] [nm] rn rn'.
Proof. intros Hm. apply makeEnabled_spec; [apply NoDup_singleton|]. simpl. by rewrite Hm. Qed.

Lemma opStep_ok k c o c' : opStep c o = Some c' → shard_inv k c → shard_inv k c'.
Proof.
  intros Hs [Hok Hn Hma]. revert Hs. destruct o as [gi i names mnames|gi i|names|ck|nm t|j st sn]; simpl.
  - case_bool_decide as Hl; [|done]. intros Hs. destruct Hl. split; [by eapply start_ok|..];
      apply start_inv in Hs as (g & rn1 & rn2 & s & _ & _ & _ & _ & _ & _ & _ & _ & _ & E1 & E2 & E3).
    + by rewrite E1, E2.
    + by rewrite E3.
  - intros Hs. split; [by eapply shutdown_ok|..];
      apply shutdown_inv in Hs as (g & rn1 & rn2 & row & s & _ & _ & _ & _ & _ & _ & _ & _ & E1 & E2 & E3).
    + by rewrite E1, E2.
    + by rewrite E3.
  - intros ([c1 ck] & Hm & ->)%fmap_Some. unfold makeClient in Hm. case_bool_decide; [|done].
    apply obind_Some in Hm as (rn & Hrn & [= <- <-]). apply makeEnabled_spec in Hrn; [|apply NoDup_seq].
    split; [|done..]. by eapply (more_ends_ok c).
  - intros [= <-]. split; [|done..]. destruct Hok as [Hg ? ? ?]. split; try done. intros gi g [? ? ? ? ? ?]%Hg. by split.
  - intros (rn & Hrn%make_end_lit & [= <-])%obind_Some. split; [|done..]. by eapply (more_ends_ok c).
  - intros (p & _ & (ps & _ & [= <-])%obind_Some)%obind_Some. split; [|done..]. destruct Hok as [Hg ? ? ?]. split; try done.
    intros gi g [? ? ? ? ? ?]%Hg. by split.
Qed.

Lemma orun_ok k c os c' : orun c os = Some c' → shard_inv k c → shard_inv k c'.
Proof.
  revert c. induction os as [|o os IH]; intros c; simpl; [by intros [= <-]|].
  intros (c1 & Ho & Hr)%obind_Some Hk. eapply IH; [done|]. by eapply opStep_ok.
Qed.

Lemma startEach_ok gi ids names mnames k c c' :
  (∀ i, length (names i) = k ∧ length (mnames i) = 3%nat) →
  startEach gi ids names mnames c = Some c' → shard_inv k c → shard_inv k c' ∧ length (groups c') = length (groups c).
Proof.
  intros Hl. revert c. induction ids as [|i ids IH]; intros c; simpl; [by intros [= <-]|].
  intros (c1 & Hs & Hr)%obind_Some Hk.
  assert (Ho : opStep c (OStart gi i (names i) (mnames i)) = Some c1).
  { simpl. destruct (sv_n _ _ Hk) as [-> ->]. by rewrite bool_decide_true by apply Hl. }
  destruct (IH c1 Hr) as [Hk2 Hlen]; [by eapply opStep_ok|]. split; [done|]. rewrite Hlen.
  apply start_inv in Hs as (g & rn1 & rn2 & s & _ & _ & _ & _ & _ & _ & _ & _ & -> & _). by rewrite length_insert.
Qed.

(** A group without ends and servers. *)
Lemma newGroup_ok k c : shard_inv k c → shard_inv k (with_groups (groups c ++ [newGroup c (length (groups c))]) c).
Proof.
  intros [Hok Hn Hma]. split; [|done..]. destruct Hok as [Hg Hw Hms Hfr].
  assert (Hrep : ∀ m i j, endnameOf (rowsOf m (newGroup c (length (groups c)))) i j = None).
  { intros [] i j; simpl; apply endnameOf_replicate. }
  assert (Hnone : ∀ m i, default None (replicate m (None : option nat) !! i) = None).
  { intros m i. destruct (replicate m None !! i) eqn:E; [|done]. by apply lookup_replicate_1 in E as [-> _]. }
  split; simpl.
  - intros gi g [Hgi|[Hge [Hi <-]%list_lookup_singleton_Some]]%lookup_app_Some.
    { destruct (Hg gi g Hgi) as [? ? ? ? ? ?]. by split. }
    assert (gi = length (groups c)) as -> by lia.
    split; simpl; rewrite ?length_replicate; try done; try (split; [done|by intros ? ? [? _]%lookup_replicate_1]).
    intros i Hi'. rewrite Hfr, Hnone by done. done.
  - eapply wired_ext; [| |exact Hw].
    + intros [[gi i] m] j. simpl. destruct (decide (gi < length (groups c))%nat); [by rewrite lookup_app_l|].
      rewrite (lookup_ge_None_2 (groups c)) by lia. simpl.
      destruct ((groups c ++ [newGroup c (length (groups c))]) !! gi) as [g|] eqn:E; [|done]. simpl.
      apply lookup_app_Some in E as [E|[_ [_ <-]%list_lookup_singleton_Some]]; [|apply Hrep].
      apply lookup_lt_Some in E. lia.
    + intros [[gi i] m] j [nm Hnm]. simpl in *. apply obind_Some in Hnm as (g & E & _).
      by rewrite (lookup_app_l_Some _ _ _ _ E), E.
  - exact Hms.
  - intros gi i. rewrite length_app. simpl. intros. apply Hfr. lia.
Qed.

Lemma makeGroups_ok m names mnames k c c' :
  (∀ gi i, length (names gi i) = k ∧ length (mnames gi i) = 3%nat) →
  makeGroups (seq (length (groups c)) m) names mnames c = Some c' → shard_inv k c → shard_inv k c'.
Proof.
  intros Hl. revert c. induction m as [|m IH]; intros c; simpl; [by intros [= <-]|].
  intros (c1 & Hs & Hr)%obind_Some Hk%newGroup_ok. apply (startEach_ok _ _ _ _ k) in Hs as [Hk1 Hlen]; [|done..].
  simpl in Hlen. rewrite length_app in Hlen. simpl in Hlen. apply (IH c1); [|done]. by rewrite Hlen, Nat.add_1_r.
Qed.

Lemma harness_ok k u c : harness k u c → shard_inv k c.
Proof.
  intros (mx & mN & cN & names & mnames & c0 & os & Hl & Hmk & Hrun). eapply orun_ok; [exact Hrun|]. clear Hrun os.
  unfold make_config in Hmk.
  apply obind_Some in Hmk as (c1 & H1 & ([c2 ck] & H2 & (c3 & H3 & [= <-])%obind_Some)%obind_Some).
  assert (Hok1 : shard_ok c1 ∧ groups c1 = [] ∧ nmasters c1 = 3%nat ∧
    ∀ i, (i < 3)%nat → is_Some (default None (masterservers c1 !! i))).
  { assert (Hok0 : shard_ok (emptyConfig mx)).
    { split; simpl; [done| | |done].
      - split; intros [[gi i] m]; simpl; done.
      - intros i Hi. by do 3 (destruct i as [|i]; [done|]). }
    simpl in H1.
    apply obind_Some in H1 as (d1 & M1 & (d2 & M2 & (d3 & M3 & [= <-])%obind_Some)%obind_Some).
    apply startMaster_ok in M1 as (O1 & _ & G1 & N1 & E1); [|done]. apply startMaster_ok in M2 as (O2 & _ & G2 & N2 & E2); [|done].
    apply startMaster_ok in M3 as (O3 & _ & G3 & N3 & E3); [|done]. split_and!; [done|by rewrite G3, G2|by rewrite N3, N2|].
    intros i Hi. rewrite E3, E2, E1. simpl. do 3 (destruct i as [|i]; [by eexists|]). lia. }
  destruct Hok1 as (Hok1 & Hg1 & Hn1 & Hm1).
  unfold shardclerk in H2. apply obind_Some in H2 as (rn & Hrn & [= <- <-]).
  apply makeEnabled_spec in Hrn; [|apply NoDup_seq].
  assert (Hk3 : shard_inv k c3).
  { match type of H3 with makeGroups _ _ _ ?d = _ => apply (makeGroups_ok 3 names mnames k d c3 Hl H3) end.
    split; simpl; [|done|done].
    destruct (more_ends_ok c1 (with_net rn c1) _ _ _ eq_refl eq_refl eq_refl eq_refl Hrn Hok1) as [_ Hw Hma Hfr].
    split; simpl in *; [done| |done|].
    - eapply wired_ext; [| |exact Hw]; intros [[gi i] m] j; simpl; by rewrite Hg1.
    - intros gi i _. apply Hfr. rewrite Hg1. simpl. lia. }
  destruct Hk3 as [[Hg Hw Hma Hfr] [<- Hn'] Hms].
  split; simpl; [|by rewrite Hn'|done]. split; [|eapply wired_keep; [| |exact Hw]; done|exact Hma|exact Hfr].
  intros gi g [? ? ? ? ? ?]%Hg. by split.
Qed.

(** *** Ends that servers and clerks make themselves *)

(** An enabled end to [t] that is in no row. *)
Definition loose (c : config) (nm t : string) : Prop :=
  nm ∈ ends (snet c) ∧ isEnabled (snet c) nm = true ∧ connectionOf (snet c) nm = Some t ∧
  ∀ s j, slotName c s j ≠ Some nm.

Lemma loose_lit c c' target js names nm t :
  groups c' = groups c → lit target js names (snet c) (snet c') → loose c nm t → loose c' nm t.
Proof.
  intros Hg Hl (Hin & He & Hc & Hno). destruct (lt_old _ _ _ _ _ Hl nm Hin) as [E1 E2].
  split_and!; [by apply (lt_ends _ _ _ _ _ Hl)|by rewrite E1|by rewrite E2|].
  intros [[gi i] m] k. simpl. rewrite Hg. apply (Hno (gi, i, m)).
Qed.

Lemma loose_start c gi i names mnames c' nm t :
  length names = n c → length mnames = nmasters c →
  StartServer gi i names mnames c = Some c' → loose c nm t → loose c' nm t.
Proof.
  intros Hln Hlm (g & rn1 & rn2 & s & Hg & Hi & Hmi & Hsi & H1 & H2 & Hs & Hnet & Hgs & _)%start_inv (Hin & He & Hc & Hno).
  apply makeEnabled_spec in H1; [|apply NoDup_seq]. apply makeEnabled_spec in H2; [|apply NoDup_seq].
  assert (Hin1 : nm ∈ ends rn1) by by apply (lt_ends _ _ _ _ _ H1).
  destruct (lt_old _ _ _ _ _ H1 nm Hin) as [E1 E2], (lt_old _ _ _ _ _ H2 nm Hin1) as [F1 F2].
  split_and!; [rewrite Hnet; by apply (lt_ends _ _ _ _ _ H2)|rewrite Hnet; etrans; [exact F1|by rewrite E1]|
    rewrite Hnet; etrans; [exact F2|by rewrite E2]|].
  intros s0 k. rewrite (slotName_update c c' gi g _ i names mnames) by done. repeat case_decide; [| |apply Hno].
  - intros Hk. destruct (lt_new _ _ _ _ _ H2 k) as (nm' & Hk' & Hnew & _); [|by simplify_eq].
    apply elem_of_seq. apply lookup_lt_Some in Hk. lia.
  - intros Hk. destruct (lt_new _ _ _ _ _ H1 k) as (nm' & Hk' & Hnew & _); [|by simplify_eq].
    apply elem_of_seq. apply lookup_lt_Some in Hk. lia.
Qed.

Lemma loose_shutdown c gi i c' nm t : ShutdownServer gi i c = Some c' → loose c nm t → loose c' nm t.
Proof.
  intros (g & rn1 & rn2 & row & s & Hg & Hi & H1 & Hrow & H2 & Hs & Hnet & Hgs & _)%shutdown_inv (Hin & He & Hc & Hno).
  apply enableAll_spec in H1 as ((A1 & _ & A2) & _ & A3). apply enableAll_spec in H2 as ((B1 & _ & B2) & _ & B3).
  assert (Hlt : (gi < length (groups c))%nat) by by eapply lookup_lt_Some.
  split_and!.
  - rewrite Hnet. simpl. by rewrite B1, A1.
  - rewrite Hnet. change (isEnabled rn2 nm = true). rewrite B3, A3; [done|..]; intros k nm' Hk Hf ->.
    + apply fmap_Some in Hf as (? & Hf & [= <-]). apply (Hno (gi, i, false) k). simpl. by rewrite Hg.
    + apply fmap_Some in Hf as (? & Hf & [= <-]). apply (Hno (gi, i, true) k). simpl. rewrite Hg. simpl.
      unfold endnameOf. rewrite Hrow. by destruct row.
  - rewrite Hnet. unfold connectionOf in *. simpl. by rewrite B2, A2.
  - intros [[gi' i'] m] k. simpl. rewrite Hgs. specialize (Hno (gi', i', m) k). simpl in Hno.
    destruct (decide (gi' = gi)) as [->|]; [|by rewrite list_lookup_insert_ne].
    rewrite list_lookup_insert_eq by done. rewrite Hg in Hno. by destruct m.
Qed.

Lemma loose_run c os c' nm t : orun c os = Some c' → loose c nm t → loose c' nm t.
Proof.
  revert c. induction os as [|o os IH]; intros c; simpl; [by intros [= <-]|].
  intros (c1 & Ho & Hr)%obind_Some HL. apply (IH c1 Hr). clear IH Hr.
  destruct o as [gi i names mnames|gi i|names|ck|x tx|k st sn]; simpl in Ho.
  - case_bool_decide as Hl; [|done]. destruct Hl. by eapply loose_start.
  - by eapply loose_shutdown.
  - apply fmap_Some in Ho as ([c2 ck] & Hm & ->). unfold makeClient in Hm. case_bool_decide; [|done].
    apply obind_Some in Hm as (rn & Hrn & [= <- <-]). apply makeEnabled_spec in Hrn; [|apply NoDup_seq].
    by eapply (loose_lit c).
  - by simplify_eq.
  - apply obind_Some in Ho as (rn & Hrn%make_end_lit & [= <-]). by eapply (loose_lit c).
  - apply obind_Some in Ho as (p & _ & (ps & _ & [= <-])%obind_Some). done.
Qed.

(** C29: In every configuration the harness reaches, the j-th end of the row that a server of a
    group got at its last start is connected to the j-th server of that group and carries
    requests exactly while both run, and the j-th end of its row to the masters is connected to master j and
    carries requests exactly while the server runs. An end that a server or a clerk got from its make_end is in
    no row and is never disabled: it carries requests whenever the server it names runs, also after
    the server that made it has been shut down. *)
Theorem shard_harness_links k u c gi g i j nm :
  harness k u c → groups c !! gi = Some g →
  (endnameOf (endnames g) i j = Some nm →
    connectionOf (snet c) nm = Some (servername (gid g) j) ∧
    (routable (snet c) nm ↔ running g i = true ∧ running g j = true)) ∧
  (endnameOf (mendnames g) i j = Some nm →
    connectionOf (snet c) nm = Some (mastername j) ∧ (routable (snet c) nm ↔ running g i = true)) ∧
  (∀ x t rn os c', make_end x t (snet c) = Some rn → orun (with_net rn c) os = Some c' →
    connectionOf (snet c') x = Some t ∧ (routable (snet c') x ↔ is_Some (serverOf (snet c') t))).
Proof.
  intros [Hok [Hn Hm] Hms]%harness_ok Hg. pose proof (sk_wired c Hok) as [_ _ Hc Hu].
  pose proof (sk_group c Hok gi g Hg) as Hgo. rewrite (go_gid _ _ _ Hgo).
  assert (Hslot : ∀ m, endnameOf (rowsOf m g) i j = Some nm → slotName c (gi, i, m) j = Some nm).
  { intros m Hnm. simpl. by rewrite Hg. }
  assert (Hup : ∀ m, endnameOf (rowsOf m g) i j = Some nm → isEnabled (snet c) nm = running g i).
  { intros m Hnm. rewrite (Hu _ _ _ (Hslot m Hnm)). simpl. by rewrite Hg. }
  split_and!; [intros Hnm..|].
  - pose proof (Hc _ _ _ (Hslot false Hnm)) as Hcon. simpl in Hcon. split; [done|].
    unfold routable. rewrite (Hup false Hnm), Hcon.
    assert (j < n c)%nat as Hj.
    { apply endnameOf_Some in Hnm as (l & Hl & Hj). apply lookup_lt_Some in Hj.
      by rewrite (proj2 (go_rows _ _ _ Hgo) _ _ Hl) in Hj. }
    assert (running g j = true ↔ is_Some (serverOf (snet c) (servername (100 + Z.of_nat gi) j))) as ->.
    { unfold running. by rewrite bool_decide_eq_true, (go_server _ _ _ Hgo j Hj). }
    unfold is_Some. naive_solver.
  - pose proof (Hc _ _ _ (Hslot true Hnm)) as Hcon. simpl in Hcon. split; [done|].
    unfold routable. rewrite (Hup true Hnm), Hcon.
    assert (j < nmasters c)%nat as Hj.
    { apply endnameOf_Some in Hnm as (l & Hl & Hj). apply lookup_lt_Some in Hj.
      by rewrite (proj2 (go_mrows _ _ _ Hgo) _ _ Hl) in Hj. }
    destruct (Hms j) as [x Hx]; [lia|]. rewrite <-(sk_master c Hok j Hj) in Hx. naive_solver.
  - intros x t rn os c' (Hno & Hends & _ & Hen & Hcon & _)%make_end_spec Hrun.
    assert (HL : loose (with_net rn c) x t).
    { split_and!; [simpl; rewrite Hends; set_solver|done|done|]. intros s k' Hs. apply Hno.
      eapply (wi_known _ _ _ (sk_wired c Hok) s k'). by destruct s as [[? ?] ?]. }
    destruct (loose_run _ _ _ _ _ Hrun HL) as (_ & He & Hcn & _). split; [done|].
    unfold routable. rewrite He, Hcn. unfold is_Some. naive_solver.
Qed.

(** ** Sizes *)

Lemma startEach_mrows gi ids names mnames c c' g :
  startEach gi ids names mnames c = Some c' → groups c !! gi = Some g →
  ∀ i, i ∈ ids → (i < length (mendnames g))%nat.
Proof.
  revert c g. induction ids as [|a ids IH]; intros c g; simpl; [by intros _ _ i ?%elem_of_nil|].
  intros (c1 & Hs & Hr)%obind_Some Hg i.
  apply start_inv in Hs as (g' & rn1 & rn2 & s & Hg' & _ & Hmi & _ & _ & _ & _ & _ & Hgs & _).
  rewrite Hg in Hg'. injection Hg' as <-. intros [->|Hi]%elem_of_cons; [done|].
  apply lookup_lt_Some in Hg as Hlt.
  specialize (IH c1 _ Hr ltac:(rewrite Hgs; by apply list_lookup_insert_eq) i Hi). simpl in IH.
  by rewrite length_insert in IH.
Qed.

(** C33: The harness works for groups of exactly three servers only. With more,
    make_config panics: mendnames has one row per master but is indexed by the server. With
    fewer, every makeClient panics: endnames has one name per server but is
    indexed by the master. *)
Theorem shard_harness_sizes k u :
  ((3 < k)%nat → ∀ mx mN cN names mnames, make_config k u mx mN cN names mnames = None) ∧
  ((k < 3)%nat → ∀ c names, harness k u c → makeClient names c = None).
Proof.
  split.
  - intros Hk mx mN cN names mnames. apply eq_None_not_Some. intros [c Hmk]. unfold make_config in Hmk.
    apply obind_Some in Hmk as (c1 & H1 & ([c2 ck] & H2 & (c3 & H3 & _)%obind_Some)%obind_Some).
    assert (Hn : nmasters c1 = 3%nat).
    { clear -H1. unfold startMasters, StartMasterServer in H1. simpl in H1. go_inv. done. }
    unfold shardclerk in H2. apply obind_Some in H2 as (rn & _ & [= <- <-]). simpl in H3.
    apply obind_Some in H3 as (c4 & H4 & _).
    assert (3 < length (mendnames (newGroup (mkConfig rn (nmasters c1) (masterservers c1)
      (ShardMaster.MakeClerk (take (nmasters c1) cN)) 3 k [] ∅ 0 mx (persisters c1) (instances c1) []) 0)))%nat as Hlt.
    { eapply startEach_mrows; [exact H4|done|apply elem_of_seq; lia]. }
    simpl in Hlt. rewrite Hn in Hlt. simpl in Hlt. lia.
  - intros Hk c names [_ [Hn Hm] _]%harness_ok. unfold makeClient. rewrite Hn, Hm, bool_decide_false by lia. done.
Qed.

(** ** Instances *)

Definition rowNames (tag : string) (m : nat) (gi i : nat) : list string :=
  (λ j, tag +:+ Itoa (Z.of_nat gi) +:+ Itoa (Z.of_nat i) +:+ Itoa (Z.of_nat j)) <$> seq 0 m.

Definition shardMake (k : nat) (os : list Op) : option config :=
  let* c := make_config k false (-1) (rowNames "m" 3 0) (rowNames "c" 3 0 0) (rowNames "g" k) (rowNames "t" 3) in
  orun c os.

Definition shardConfig (k : nat) (os : list Op) : config := default (emptyConfig 0) (shardMake k os).

Lemma shardHarness k os : bool_decide (is_Some (shardMake k os)) = true → harness k false (shardConfig k os).
Proof.
  intros [c Hc]%bool_decide_eq_true. unfold shardConfig. rewrite Hc. apply obind_Some in Hc as (c0 & Hm & Hr).
  exists (-1), (rowNames "m" 3 0), (rowNames "c" 3 0 0), (rowNames "g" k), (rowNames "t" 3), c0, os.
  split_and!; [|exact Hm|exact Hr].
  intros gi i. unfold rowNames. split; by rewrite length_fmap, length_seq.
Qed.

Definition shardOps : list Op := [OMakeClient ["x"; "y"; "z"]; OShutdown 1 2].

Definition shardGroup (gi : nat) : group :=
  default (mkGroup 0 [] [] [] []) (groups (shardConfig 3 shardOps) !! gi).

Lemma shard_names_distinct_witness : servername 101 2 ≠ mastername 0.
Proof. apply (shard_names_distinct 101 2 100 0); lia. Defined.

(** Server 2 of the second group is down: it cannot be reached from server 0, which
    still reaches server 1 and the masters. *)
Lemma shard_harness_links_witness :
  ¬ routable (snet (shardConfig 3 shardOps)) "g102" ∧ routable (snet (shardConfig 3 shardOps)) "g101" ∧
  routable (snet (shardConfig 3 shardOps)) "t101" ∧
  (** an end that server 2 of the second group made before it went down *)
  routable (snet (shardConfig 3 [OMakeEnd "own" (servername 100 0); OShutdown 1 2])) "own".
Proof.
  assert (Hh : harness 3 false (shardConfig 3 shardOps)) by (apply shardHarness; vm_compute; reflexivity).
  assert (Hg : groups (shardConfig 3 shardOps) !! 1%nat = Some (shardGroup 1)) by (vm_compute; reflexivity).
  split_and!.
  - intros Hr. refine (_ (proj1 (proj2 (proj1 (shard_harness_links 3 false _ 1 _ 0 2 "g102" Hh Hg) _)) Hr)).
    + intros [_ Hx]. vm_compute in Hx. discriminate.
    + vm_compute. reflexivity.
  - refine (proj2 (proj2 (proj1 (shard_harness_links 3 false _ 1 _ 0 1 "g101" Hh Hg) _)) _).
    + vm_compute. reflexivity.
    + split; vm_compute; reflexivity.
  - refine (proj2 (proj2 (proj1 (proj2 (shard_harness_links 3 false _ 1 _ 0 1 "t101" Hh Hg)) _)) _).
    + vm_compute. reflexivity.
    + vm_compute. reflexivity.
  - assert (H0 : harness 3 false (shardConfig 3 [])) by (apply shardHarness; vm_compute; reflexivity).
    assert (Hg0 : groups (shardConfig 3 []) !! 0%nat = Some
      (default (mkGroup 0 [] [] [] []) (groups (shardConfig 3 []) !! 0%nat))) by (vm_compute; reflexivity).
    refine (proj2 (proj2 (proj2 (proj2 (shard_harness_links 3 false _ 0 _ 0 0 "" H0 Hg0)) "own" (servername 100 0) _
      [OShutdown 1 2] _ _ _)) _).
    + vm_compute. reflexivity.
    + vm_compute. reflexivity.
    + vm_compute. eauto.
Defined.

Lemma shard_harness_sizes_witness :
  make_config 4 false (-1) (rowNames "m" 3 0) (rowNames "c" 3 0 0) (rowNames "g" 4) (rowNames "t" 3) = None ∧
  makeClient ["x"; "y"; "z"] (shardConfig 2 []) = None ∧
  is_Some (makeClient ["x"; "y"; "z"] (shardConfig 3 [])).
Proof.
  split_and!.
  - apply (proj1 (shard_harness_sizes 4 false)). lia.
  - apply (proj2 (shard_harness_sizes 2 false)); [lia|]. apply shardHarness. vm_compute. reflexivity.
  - apply (bool_decide_unpack _). vm_compute. exact I.
Defined.
