(* ===== verification/Schedule.v ===== *)
(** * The task scheduler: mapreduce/schedule.go

    [schedule] runs in one goroutine that only blocks in the [select] of line
    58. Between two receptions it runs to completion, so a reception and what
    follows it is one step. The goroutines it starts (line 99) are the [calls]
    in flight: each ends by sending its result, which the [select] receives.
    Whether an RPC succeeds, when it ends and which workers register when is up
    to the environment: the events. *)

From S2P Require Import Prelude.

Inductive jobPhase := mapPhase | reducePhase.

#[export] Instance jobPhase_eq_dec : EqDecision jobPhase.
Proof. solve_decision. Defined.

Record DoTaskArgs := mkDoTaskArgs {
  JobName : string;
  File : string;
  Phase : jobPhase;
  TaskNumber : Z;
  NumOtherPhase : Z;
}.

Record DoTaskResult := mkDoTaskResult { Ok : bool; TaskIdx : Z; Worker : string }.

(** A goroutine of line 99 that has not sent its result yet. *)
Record Call := mkCall { callee : string; callArg : DoTaskArgs }.

(** The arguments of [schedule]. *)
Record Job := mkJob {
  jobName : string;
  mapFiles : list string;
  nReduce : nat;
  phase : jobPhase;
}.

(** Lines 25-32. *)
Definition ntasks (j : Job) : Z :=
  match phase j with mapPhase => zlen (mapFiles j) | reducePhase => Z.of_nat (nReduce j) end.
Definition n_other (j : Job) : Z :=
  match phase j with mapPhase => Z.of_nat (nReduce j) | reducePhase => zlen (mapFiles j) end.

(** The local variables of [schedule]; [returned] after [break DoneAll]. *)
Record Sched := mkSched {
  doneMap : gset Z;
  doneN : Z;
  taskQu : list Z;
  taskHead : Z;
  idleWorkers : list string;
  idleHead : Z;
  calls : list Call;
  returned : bool;
}.

(** Lines 41-50. *)
Definition schedInit (j : Job) : Sched :=
  mkSched ∅ 0 (seqZ 0 (ntasks j)) 0 [] 0 [] false.

(** What the [select] receives: a worker from [registerChan], or the result of
    the [k]-th call in flight. *)
Inductive SEvent := Registered (w : string) | Result (k : nat) (ok : bool).

Inductive SRes := SBlocked | SPanic | SNext (s : Sched).

Definition orSPanic (o : option Sched) : SRes :=
  match o with Some s => SNext s | None => SPanic end.

(** Lines 88-107: the call that is started. *)
Definition taskArg (j : Job) (taskIdx : Z) : option DoTaskArgs :=
  let* file := (if decide (phase j = mapPhase) then go_index (mapFiles j) taskIdx else Some "") in
  Some (mkDoTaskArgs (jobName j) file (phase j) taskIdx (n_other j)).

(** From the end of the [select] to the next one, lines 79-108: go back to the
    [select] without a worker, hand the next task to the worker, or keep the
    worker idle. *)
Definition dispatch (j : Job) (s : Sched) (worker : string) : option Sched :=
  if decide (worker = "") then Some s
  else if decide (zlen (taskQu s) ≠ taskHead s) then
    let* taskIdx := go_index (taskQu s) (taskHead s) in
    let* arg := taskArg j taskIdx in
    Some (mkSched (doneMap s) (doneN s) (taskQu s) (taskHead s + 1) (idleWorkers s) (idleHead s)
            (calls s ++ [mkCall worker arg]) (returned s))
  else
    Some (mkSched (doneMap s) (doneN s) (taskQu s) (taskHead s) (idleWorkers s ++ [worker])
            (idleHead s) (calls s) (returned s)).

(** Lines 60-77: a result is received. *)
Definition onResult (j : Job) (s : Sched) (result : DoTaskResult) : option Sched :=
  if Ok result then
    if decide (TaskIdx result ∈ doneMap s) then dispatch j s (Worker result)
    else
      let s := mkSched ({[TaskIdx result]} ∪ doneMap s) (doneN s + 1) (taskQu s) (taskHead s)
                 (idleWorkers s) (idleHead s) (calls s) (returned s) in
      if decide (doneN s = ntasks j) then
        Some (mkSched (doneMap s) (doneN s) (taskQu s) (taskHead s) (idleWorkers s) (idleHead s)
                (calls s) true)
      else dispatch j s (Worker result)
  else
    let s := mkSched (doneMap s) (doneN s) (taskQu s ++ [TaskIdx result]) (taskHead s)
               (idleWorkers s) (idleHead s) (calls s) (returned s) in
    if decide (zlen (idleWorkers s) ≠ idleHead s) then
      let* worker := go_index (idleWorkers s) (idleHead s) in
      dispatch j (mkSched (doneMap s) (doneN s) (taskQu s) (taskHead s) (idleWorkers s)
                    (idleHead s + 1) (calls s) (returned s)) worker
    else dispatch j s "".

(** The state with the [k]-th call taken out. *)
Definition without (k : nat) (s : Sched) : Sched :=
  mkSched (doneMap s) (doneN s) (taskQu s) (taskHead s) (idleWorkers s) (idleHead s)
    (delete k (calls s)) (returned s).

Definition schedStep (j : Job) (s : Sched) (e : SEvent) : SRes :=
  if returned s then SBlocked
  else match e with
       | Registered w => orSPanic (dispatch j s w)
       | Result k ok =>
           match calls s !! k with
           | None => SBlocked
           | Some c =>
               orSPanic (onResult j (without k s)
                 (mkDoTaskResult ok (TaskNumber (callArg c)) (callee c)))
           end
       end.

(** A run of [schedule] on a sequence of events. *)
Fixpoint schedule (j : Job) (s : Sched) (es : list SEvent) : SRes :=
  match es with
  | [] => SNext s
  | e :: es => match schedStep j s e with SNext s' => schedule j s' es | r => r end
  end.

(** The workers received and the successful results in a sequence of events. *)
Definition registrations (es : list SEvent) : list string :=
  omap (λ e, match e with Registered w => Some w | _ => None end) es.
Definition successes (es : list SEvent) : nat :=
  length (omap (λ e, match e with Result k true => Some k | _ => None end) es).

(** The arguments of the calls whose success a step, or a run, receives. *)
Definition completes (s : Sched) (e : SEvent) : list DoTaskArgs :=
  match e with
  | Result k true => match calls s !! k with Some c => [callArg c] | None => [] end
  | _ => []
  end.
Fixpoint completed (j : Job) (s : Sched) (es : list SEvent) : list DoTaskArgs :=
  match es with
  | [] => []
  | e :: es =>
      match schedStep j s e with SNext s' => completes s e ++ completed j s' es | _ => [] end
  end.

(** The workers whose call a step, or a run, sees fail. *)
Definition fails (s : Sched) (e : SEvent) : list string :=
  match e with
  | Result k false => match calls s !! k with Some c => [callee c] | None => [] end
  | _ => []
  end.
Fixpoint failed (j : Job) (s : Sched) (es : list SEvent) : list string :=
  match es with
  | [] => []
  | e :: es => match schedStep j s e with SNext s' => fails s e ++ failed j s' es | _ => [] end
  end.

(** ** The invariant *)

(** Tasks waiting, tasks in flight, workers waiting, workers in use. *)
Definition waiting (s : Sched) : list Z := drop (Z.to_nat (taskHead s)) (taskQu s).
Definition running (s : Sched) : list Z := TaskNumber ∘ callArg <$> calls s.
Definition idle (s : Sched) : list string := drop (Z.to_nat (idleHead s)) (idleWorkers s).
Definition busy (s : Sched) : list string := callee <$> calls s.

(** What holds also in the middle of a step. *)
Record sched_mid (j : Job) (s : Sched) : Prop := {
  sk_head : 0 ≤ taskHead s ≤ zlen (taskQu s);
  sk_idle : 0 ≤ idleHead s ≤ zlen (idleWorkers s);
  (** every task is done, waiting or in flight, and in one of them only *)
  sk_tasks : elements (doneMap s) ++ waiting s ++ running s ≡ₚ seqZ 0 (ntasks j);
  sk_doneN : doneN s = Z.of_nat (size (doneMap s));
  sk_returned : returned s = true ↔ (0 < ntasks j ∧ doneN s = ntasks j);
  sk_names : "" ∉ idleWorkers s ++ busy s;
  (** every call in flight has the arguments of its task *)
  sk_args : Forall (λ c, taskArg j (TaskNumber (callArg c)) = Some (callArg c)) (calls s);
}.

(** Between two steps no worker idles while a task waits. *)
Definition sched_ok (j : Job) (s : Sched) : Prop :=
  sched_mid j s ∧ (waiting s = [] ∨ idle s = []).

Lemma ntasks_nonneg j : 0 ≤ ntasks j.
Proof. unfold ntasks, zlen. case_match; lia. Qed.

Lemma schedInit_ok j : sched_ok j (schedInit j).
Proof.
  split; [|by right]. split; simpl; try done.
  - pose proof (zlen_nonneg (seqZ 0 (ntasks j))). lia.
  - by rewrite app_nil_r.
  - split; [done|]. lia.
  - set_solver.
Qed.

Lemma taskArg_total j t : 0 ≤ t < ntasks j → ∃ a, taskArg j t = Some a ∧ TaskNumber a = t.
Proof.
  intros Ht. unfold taskArg. unfold ntasks in Ht. case_decide as Hp.
  - rewrite Hp in Ht. destruct (go_index_is_Some (mapFiles j) t Ht) as [f ->]. simpl. eauto.
  - simpl. eauto.
Qed.

Lemma sched_mid_task j s t :
  sched_mid j s → t ∈ elements (doneMap s) ++ waiting s ++ running s → 0 ≤ t < ntasks j.
Proof. intros [_ _ Ht _ _ _ _] Hin. rewrite Ht, elem_of_seqZ in Hin. lia. Qed.

Lemma drop_pop {A} (l : list A) (h : Z) :
  0 ≤ h ≤ zlen l → zlen l ≠ h →
  ∃ x, go_index l h = Some x ∧ drop (Z.to_nat h) l = x :: drop (Z.to_nat (h + 1)) l ∧ h + 1 ≤ zlen l.
Proof.
  intros Hh Hne. destruct (go_index_is_Some l h) as [x Hx]; [lia|]. exists x. split; [done|].
  apply go_index_Some in Hx as [_ Hx]. split; [|lia].
  rewrite (drop_S _ _ _ Hx). do 2 f_equal. lia.
Qed.

Lemma drop_all_len {A} (l : list A) (h : Z) : zlen l = h → drop (Z.to_nat h) l = [].
Proof. intros <-. apply drop_ge. unfold zlen. lia. Qed.

Lemma drop_snoc {A} (l : list A) (h : Z) x :
  0 ≤ h ≤ zlen l → drop (Z.to_nat h) (l ++ [x]) = drop (Z.to_nat h) l ++ [x].
Proof. intros Hh. rewrite drop_app_le; [done|]. unfold zlen in Hh. lia. Qed.

(** The rest of a step from any state in the middle of it: it never panics and
    the worker ends up idle or busy. *)
Lemma dispatch_ok j s w :
  sched_mid j s → returned s = false →
  (if decide (w = "") then waiting s = [] ∨ idle s = []
   else idle s = [] ∨ (length (waiting s) ≤ 1)%nat) →
  ∃ s', dispatch j s w = Some s' ∧ sched_ok j s' ∧
    idle s' ++ busy s' ≡ₚ (if decide (w = "") then [] else [w]) ++ idle s ++ busy s ∧
    doneMap s' = doneMap s ∧ doneN s' = doneN s ∧ returned s' = false.
Proof.
  intros Hm Hret Hw. unfold dispatch. case_decide as Hw0; [by exists s|].
  destruct (Hm) as [Hh Hi Ht Hn Hr Hnm Ha]. case_decide as Hq.
  - destruct (drop_pop _ _ Hh Hq) as (t & -> & Hd & Hle). simpl.
    destruct (taskArg_total j t) as (a & Harg & Hta).
    { apply (sched_mid_task _ _ _ Hm). unfold waiting. rewrite Hd. set_solver. }
    rewrite Harg. simpl. eexists. split; [done|]. split_and!; try done.
    + split; [|unfold waiting, idle in *; rewrite Hd in Hw; simpl in *;
               destruct Hw as [->|Hw]; [by right|left];
               destruct (drop _ (taskQu s)); simpl in *; [done|lia]].
      split; simpl; try done; try lia.
      * rewrite <-Ht. unfold waiting, running. simpl. rewrite Hd, fmap_app. simpl. rewrite Hta.
        f_equiv. rewrite (Permutation_app_comm _ [t]). simpl. by rewrite <-Permutation_middle.
      * unfold busy in *. simpl. rewrite fmap_app. set_solver.
      * apply Forall_app. split; [done|]. constructor; [|done]. simpl. by rewrite Hta.
    + unfold idle, busy. simpl. rewrite fmap_app. simpl.
      rewrite app_assoc. by rewrite Permutation_app_comm.
  - eexists. split; [done|].
    assert (Hwt : waiting s = []) by (unfold waiting; apply drop_all_len; lia).
    split_and!; try done.
    + split; [|by left]. split; simpl; try done.
      * rewrite zlen_app. pose proof (zlen_nonneg [w]). lia.
      * unfold busy in *. simpl. set_solver.
    + unfold idle, busy. simpl. rewrite drop_snoc by done.
      rewrite <-app_assoc. simpl. by rewrite <-Permutation_middle.
Qed.

(** The workers that count: the empty name is how [schedule] says that it has none. *)
Definition named (ws : list string) : list string := filter (λ w, w ≠ "") ws.

(** What a step from [s] on the event [e] gives: until [schedule] returns no worker is lost, except
    one whose call failed. *)
Definition step_ok (j : Job) (s : Sched) (e : SEvent) (s' : Sched) : Prop :=
  sched_ok j s' ∧
  doneN s' = doneN s + Z.of_nat (successes [e]) ∧
  elements (doneMap s') ≡ₚ (TaskNumber <$> completes s e) ++ elements (doneMap s) ∧
  idle s' ++ busy s' ⊆+ registrations [e] ++ idle s ++ busy s ∧
  (returned s' = false →
     fails s e ++ idle s' ++ busy s' ≡ₚ named (registrations [e]) ++ idle s ++ busy s).

Lemma without_perm s k c :
  calls s !! k = Some c →
  running s ≡ₚ TaskNumber (callArg c) :: running (without k s) ∧
  busy s ≡ₚ callee c :: busy (without k s).
Proof.
  intros Hk%delete_Permutation. unfold running, busy. simpl.
  split; [by apply (fmap_Permutation (TaskNumber ∘ callArg)) in Hk|].
  by apply (fmap_Permutation callee) in Hk.
Qed.

(** A successful result. *)
Lemma onResult_success j s k c :
  sched_ok j s → returned s = false → calls s !! k = Some c →
  ∃ s', onResult j (without k s) (mkDoTaskResult true (TaskNumber (callArg c)) (callee c)) = Some s' ∧
    step_ok j s (Result k true) s'.
Proof.
  intros [Hm Hc] Hret Hk. destruct (without_perm _ _ _ Hk) as [Hrun Hbusy].
  destruct (Hm) as [Hh Hi Ht Hn Hr Hnm Ha]. set (t := TaskNumber (callArg c)) in *.
  assert (Hnew : t ∉ doneMap s).
  { pose proof (NoDup_seqZ 0 (ntasks j)) as Hnd. rewrite <-Ht in Hnd.
    apply NoDup_app in Hnd as (_ & Hnd & _). intros Hin. apply (Hnd t); [set_solver|].
    rewrite Hrun. set_solver. }
  unfold onResult. simpl. rewrite decide_False by done.
  set (s1 := mkSched _ (doneN s + 1) _ _ _ _ _ (returned s)).
  assert (Hp1 : elements (doneMap s1) ++ waiting s1 ++ running s1 ≡ₚ seqZ 0 (ntasks j)).
  { rewrite <-Ht. subst s1. simpl. rewrite elements_union_singleton by done.
    change (waiting _) with (waiting s) at 1. change (running _) with (running (without k s)) at 1.
    rewrite Hrun. simpl. rewrite <-Permutation_middle. by rewrite <-Permutation_middle. }
  assert (Hs1 : doneN s1 = Z.of_nat (size (doneMap s1))).
  { subst s1. simpl. rewrite size_union by set_solver. rewrite size_singleton. lia. }
  assert (Hnm1 : "" ∉ idleWorkers s1 ++ busy s1).
  { rewrite Hbusy in Hnm. subst s1. unfold busy, without in *. simpl in *. set_solver. }
  assert (Ha1 : Forall (λ c, taskArg j (TaskNumber (callArg c)) = Some (callArg c)) (calls s1)).
  { subst s1. simpl. rewrite (delete_Permutation _ _ _ Hk) in Ha. by inversion Ha. }
  assert (Hel : elements (doneMap s1) ≡ₚ
    (TaskNumber <$> completes s (Result k true)) ++ elements (doneMap s)).
  { simpl. rewrite Hk. simpl. by rewrite elements_union_singleton. }
  case_decide as Hall; simpl.
  - eexists. split; [done|]. split_and!; [|done|done| |done].
    + assert (0 < ntasks j) by (simpl in Hall; lia).
      split; [by split|].
      left. apply Permutation_length in Hp1. rewrite !length_app, length_seqZ in Hp1.
      change (waiting _) with (waiting s1). apply nil_length_inv.
      unfold size, set_size in Hs1. simpl in Hs1, Hall, Hp1. lia.
    + simpl. change (idle s ++ busy (without k s) ⊆+ idle s ++ busy s).
      apply submseteq_app; [done|]. rewrite Hbusy. by apply submseteq_cons.
  - destruct (dispatch_ok j s1 (callee c)) as (s' & He & Hok & Hperm & Hd & HdN & _).
    + split; try done. simpl. rewrite Hret. split; [done|]. intros [_ ?]. done.
    + done.
    + rewrite decide_False; [|rewrite Hbusy in Hnm; set_solver].
      change (waiting s1) with (waiting s). change (idle s1) with (idle s).
      destruct Hc as [-> | ->]; [right; simpl; lia|by left].
    + assert (Hw : idle s' ++ busy s' ≡ₚ idle s ++ busy s).
      { rewrite Hperm. simpl. rewrite decide_False; [|rewrite Hbusy in Hnm; set_solver].
        change (idle s1 ++ busy s1) with (idle s ++ busy (without k s)).
        rewrite Hbusy. simpl. by rewrite <-Permutation_middle. }
      exists s'. split; [done|]. split_and!; [done|by rewrite HdN|by rewrite Hd|by rewrite Hw|]. intros _. exact Hw.
Qed.

(** A failed call: its task waits again, and an idle worker takes it at once. *)
Lemma onResult_failure j s k c :
  sched_ok j s → returned s = false → calls s !! k = Some c →
  ∃ s', onResult j (without k s) (mkDoTaskResult false (TaskNumber (callArg c)) (callee c)) = Some s' ∧
    step_ok j s (Result k false) s'.
Proof.
  intros [Hm Hc] Hret Hk. destruct (without_perm _ _ _ Hk) as [Hrun Hbusy].
  destruct (Hm) as [Hh Hi Ht Hn Hr Hnm Ha]. set (t := TaskNumber (callArg c)) in *.
  unfold onResult. simpl. set (s1 := mkSched _ _ (taskQu s ++ [t]) _ _ (idleHead s) _ _).
  assert (Hwt : waiting s1 = waiting s ++ [t]) by (unfold waiting; simpl; by rewrite drop_snoc).
  assert (Hbs : busy s1 = busy (without k s)) by done.
  assert (Hm1 : sched_mid j s1).
  { split; simpl; try done.
    - rewrite zlen_app. pose proof (zlen_nonneg [t]). lia.
    - rewrite <-Ht, Hwt, Hrun, <-app_assoc. done.
    - rewrite Hbs. rewrite Hbusy in Hnm. set_solver.
    - rewrite (delete_Permutation _ _ _ Hk) in Ha. by inversion Ha. }
  case_decide as Hid.
  - destruct (drop_pop _ _ Hi Hid) as (w & -> & Hd & Hle). simpl.
    set (s2 := mkSched _ _ (taskQu s ++ [t]) _ _ (idleHead s + 1) _ _).
    assert (Hw : w ≠ "").
    { intros ->. apply Hnm, elem_of_app. left.
      rewrite <-(take_drop (Z.to_nat (idleHead s)) (idleWorkers s)), Hd. set_solver. }
    destruct Hc as [Hc|Hc]; [|unfold idle in Hc; rewrite Hd in Hc; done].
    destruct (dispatch_ok j s2 w) as (s' & He & Hok & Hperm & HdM & HdN & _).
    + destruct Hm1 as []. split; simpl in *; try done. lia.
    + done.
    + rewrite decide_False by done. right. change (waiting s2) with (waiting s1).
      rewrite Hwt, Hc. simpl. lia.
    + assert (Hw' : callee c :: idle s' ++ busy s' ≡ₚ idle s ++ busy s).
      { rewrite Hperm, decide_False by done. rewrite Hbusy. simpl. unfold idle. rewrite Hd. simpl.
        rewrite perm_swap, <-Permutation_middle. done. }
      exists s'. split; [done|]. split_and!; [done|rewrite HdN; unfold successes; simpl; lia|by rewrite HdM| |].
      * simpl. rewrite <-Hw'. by apply submseteq_cons.
      * intros _. simpl. by rewrite Hk.
  - assert (Hd : idle s = []) by (apply drop_all_len; lia).
    destruct (dispatch_ok j s1 "") as (s' & He & Hok & Hperm & HdM & HdN & _); [done|done|by right|].
    assert (Hw' : callee c :: idle s' ++ busy s' ≡ₚ idle s ++ busy s).
    { rewrite Hperm. simpl. change (idle s1) with (idle s). by rewrite Hd, Hbs, Hbusy. }
    exists s'. split; [done|]. split_and!; [done|rewrite HdN; unfold successes; simpl; lia|by rewrite HdM| |].
    + simpl. rewrite <-Hw'. by apply submseteq_cons.
    + intros _. simpl. by rewrite Hk.
Qed.

(** A step of [schedule] never panics and keeps the invariant. *)
Lemma schedStep_ok j s e :
  sched_ok j s →
  match schedStep j s e with SPanic => False | SBlocked => True | SNext s' => step_ok j s e s' end.
Proof.
  intros Hok. unfold schedStep. destruct (returned s) eqn:Hret; [done|].
  destruct e as [w|k ok].
  - destruct (dispatch_ok j s w) as (s' & -> & Hs & Hperm & HdM & HdN & _); [apply Hok|done| |].
    { destruct Hok as [_ [Hw | ->]]; [rewrite Hw; simpl|]; case_decide; auto; right; lia. }
    simpl. split_and!; [done|rewrite HdN; unfold successes; simpl; lia|by rewrite HdM| |].
    + rewrite Hperm. simpl. case_decide; simpl; [by apply submseteq_cons|done].
    + intros _. rewrite Hperm. unfold named. simpl. rewrite filter_cons, filter_nil.
      case_decide as Hw0; [by rewrite decide_False by (by intros [])|by rewrite decide_True].
  - destruct (calls s !! k) as [c|] eqn:Hk; [|done]. destruct ok.
    + by destruct (onResult_success j s k c Hok Hret Hk) as (s' & -> & ?).
    + by destruct (onResult_failure j s k c Hok Hret Hk) as (s' & -> & ?).
Qed.

Lemma successes_cons e es : successes (e :: es) = (successes [e] + successes es)%nat.
Proof. by destruct e as [w|k []]. Qed.

Lemma registrations_cons e es : registrations (e :: es) = registrations [e] ++ registrations es.
Proof. by destruct e as [w|k []]. Qed.

Lemma schedule_inv j es s s' :
  sched_ok j s → schedule j s es = SNext s' →
  sched_ok j s' ∧ doneN s' = doneN s + Z.of_nat (successes es) ∧
  elements (doneMap s') ≡ₚ (TaskNumber <$> completed j s es) ++ elements (doneMap s) ∧
  idle s' ++ busy s' ⊆+ registrations es ++ idle s ++ busy s.
Proof.
  revert s. induction es as [|e es IH]; cbn [schedule completed]; intros s Hok H.
  { simplify_eq. split_and!; [done|unfold successes; simpl; lia|done|done]. }
  pose proof (schedStep_ok j s e Hok) as Hs. destruct (schedStep j s e) as [| |s1]; try done.
  destruct Hs as (Hok1 & Hd1 & Hc1 & Hp1 & _). destruct (IH s1 Hok1 H) as (? & Hd2 & Hc2 & Hp2).
  split_and!; [done| | |].
  - rewrite Hd2, Hd1, (successes_cons e es). lia.
  - rewrite Hc2, Hc1, fmap_app, !app_assoc. f_equiv. by rewrite Permutation_app_comm.
  - etrans; [exact Hp2|]. rewrite (registrations_cons e es), <-app_assoc.
    etrans; [apply submseteq_app; [done|exact Hp1]|].
    by rewrite (app_assoc (registrations es)), (Permutation_app_comm (registrations es)), <-app_assoc.
Qed.

Lemma named_cons e es : named (registrations (e :: es)) = named (registrations [e]) ++ named (registrations es).
Proof. unfold named. by rewrite registrations_cons, filter_app. Qed.

(** Until [schedule] returns, every worker it was given is idle, busy, or failed. *)
Lemma schedule_workers j es s s' :
  sched_ok j s → schedule j s es = SNext s' → returned s' = false →
  failed j s es ++ idle s' ++ busy s' ≡ₚ named (registrations es) ++ idle s ++ busy s.
Proof.
  revert s. induction es as [|e es IH]; cbn [schedule failed]; intros s Hok H Hret; [by simplify_eq|].
  pose proof (schedStep_ok j s e Hok) as Hs. destruct (schedStep j s e) as [| |s1] eqn:He; try done.
  destruct Hs as (Hok1 & _ & _ & _ & Hw). rewrite <-app_assoc, (IH s1 Hok1 H Hret).
  destruct (returned s1) eqn:Hr1.
  { destruct es; simpl in H; [simplify_eq; congruence|]. unfold schedStep in H. by rewrite Hr1 in H. }
  rewrite named_cons, <-app_assoc, !(Permutation_app_swap_app _ (named (registrations es))).
  by rewrite Hw.
Qed.

Lemma schedule_total j es s :
  sched_ok j s → schedule j s es ≠ SPanic.
Proof.
  revert s. induction es as [|e es IH]; simpl; intros s Hok; [done|].
  pose proof (schedStep_ok j s e Hok) as Hs. destruct (schedStep j s e) as [| |s1]; try done.
  apply IH, Hs.
Qed.

Lemma completed_args j es s s' :
  sched_ok j s → schedule j s es = SNext s' →
  Forall (λ a, taskArg j (TaskNumber a) = Some a) (completed j s es).
Proof.
  revert s. induction es as [|e es IH]; cbn [schedule completed]; intros s Hok H; [done|].
  pose proof (schedStep_ok j s e Hok) as Hs. destruct (schedStep j s e) as [| |s1]; try done.
  apply Forall_app. split; [|apply IH, H; apply Hs].
  destruct e as [w|k []]; simpl; try done.
  destruct (calls s !! k) as [c|] eqn:Hk; [|done]. constructor; [|done].
  destruct Hok as [Hm _]. exact (Forall_lookup_1 _ _ _ _ (sk_args _ _ Hm) Hk).
Qed.

Lemma completed_all j es s :
  schedule j (schedInit j) es = SNext s → returned s = true →
  Some <$> completed j (schedInit j) es ≡ₚ taskArg j <$> seqZ 0 (ntasks j).
Proof.
  intros H Hret. pose proof (schedInit_ok j) as Hok0.
  destruct (schedule_inv _ _ _ _ Hok0 H) as ([Hm _] & _ & Hel & _).
  pose proof (completed_args _ _ _ _ Hok0 H) as Hargs.
  destruct Hm as [_ _ Ht Hn Hr _ _]. apply Hr in Hret as [_ Hall].
  change (elements (doneMap (schedInit j))) with (elements (∅ : gset Z)) in Hel.
  rewrite elements_empty, app_nil_r in Hel.
  assert (Hrest : waiting s ++ running s = []).
  { apply Permutation_length in Ht as Hlen. rewrite !length_app, length_seqZ in Hlen.
    apply nil_length_inv. rewrite length_app. unfold size, set_size in Hn. simpl in Hn. lia. }
  rewrite Hrest, app_nil_r, Hel in Ht. rewrite <-Ht.
  clear -Hargs. induction Hargs as [|a l Ha _ IH]; [done|]. simpl. by rewrite Ha, IH.
Qed.

(** With no call in flight, [schedule] has returned or knows no worker. *)
Lemma stuck_without_workers j s (l : list string) :
  sched_ok j s → 0 < ntasks j → returned s = false →
  (length l < length (l ++ idle s ++ busy s))%nat → calls s ≠ [].
Proof.
  intros [Hm Hor] Hpos Hret Hlt Hc. destruct Hm as [_ _ Ht Hn Hr _ _]. unfold busy, running in *.
  rewrite Hc in Hlt, Ht. simpl in *. rewrite app_nil_r, length_app in *.
  destruct Hor as [Hwait|Hi]; [|rewrite Hi in Hlt; simpl in Hlt; lia].
  rewrite Hwait, app_nil_r in Ht. apply Permutation_length in Ht. rewrite length_seqZ in Ht.
  assert (returned s = true); [|congruence]. apply Hr. split; [done|].
  unfold size, set_size in Hn. simpl in Hn. lia.
Qed.

(** ** Properties *)

(** C7: Schedule never panics and receives at most one success per task; it returns exactly
    on the last one, and then every task of the phase has succeeded exactly once,
    with the arguments of that task, whatever calls failed in between. *)
Theorem schedule_complete j es :
  schedule j (schedInit j) es ≠ SPanic ∧
  ∀ s, schedule j (schedInit j) es = SNext s →
    Z.of_nat (successes es) ≤ ntasks j ∧
    (returned s = true ↔ 0 < ntasks j ∧ Z.of_nat (successes es) = ntasks j) ∧
    (returned s = true → Some <$> completed j (schedInit j) es ≡ₚ taskArg j <$> seqZ 0 (ntasks j)).
Proof.
  split; [apply schedule_total, schedInit_ok|]. intros s H. split_and!; [..|by apply completed_all];
    destruct (schedule_inv _ _ _ _ (schedInit_ok j) H) as ([Hm _] & Hd & _);
    destruct Hm as [_ _ Ht Hn Hr _ _]; change (doneN (schedInit j)) with 0 in Hd;
    apply Permutation_length in Ht; rewrite !length_app, length_seqZ in Ht;
    unfold size, set_size in Hn; simpl in Hn; pose proof (ntasks_nonneg j); [lia|].
  rewrite Hr. lia.
Qed.

(** If no worker name is received twice from registerChan, schedule
    never has two calls to one worker in flight. *)
Theorem schedule_exclusive j es s :
  schedule j (schedInit j) es = SNext s → NoDup (registrations es) → NoDup (busy s).
Proof.
  intros H Hnd. destruct (schedule_inv _ _ _ _ (schedInit_ok j) H) as (_ & _ & _ & Hsub).
  change (idle (schedInit j) ++ busy (schedInit j)) with ([] : list string) in Hsub.
  rewrite app_nil_r in Hsub. apply (NoDup_sub _ _ Hsub), NoDup_app in Hnd. naive_solver.
Qed.

(** C38: In a phase with tasks, schedule does not get stuck while one of its workers is good: as long as it has not
    returned, every worker it has received from registerChan (the empty name, which stands for no worker, apart) waits for a task, works on one, or had a
    call that failed; and if fewer calls have failed than workers were received (so if one of them never
    failed), then a call is in flight, its result can be received, and if it is a success one
    more task is done. *)
Theorem schedule_progress j es s :
  schedule j (schedInit j) es = SNext s → 0 < ntasks j → returned s = false →
  named (registrations es) ≡ₚ failed j (schedInit j) es ++ idle s ++ busy s ∧
  ((length (failed j (schedInit j) es) < length (named (registrations es)))%nat →
   calls s ≠ [] ∧
   ∀ k ok, (k < length (calls s))%nat → ∃ s', schedStep j s (Result k ok) = SNext s' ∧
     doneN s' = doneN s + (if ok then 1 else 0)).
Proof.
  intros H Hpos Hret. pose proof (schedInit_ok j) as Hok0.
  destruct (schedule_inv _ _ _ _ Hok0 H) as (Hok & _).
  pose proof (schedule_workers _ _ _ _ Hok0 H Hret) as Hw.
  change (idle (schedInit j) ++ busy (schedInit j)) with ([] : list string) in Hw. rewrite app_nil_r in Hw.
  split; [by symmetry|]. intros Hlt. split; [by eapply stuck_without_workers; [..|rewrite <-Hw in Hlt; exact Hlt]|].
  intros k ok [c Hk]%lookup_lt_is_Some_2. pose proof (schedStep_ok j s (Result k ok) Hok) as Hs.
  destruct (schedStep j s (Result k ok)) as [| |s'] eqn:E; [|done|].
  - unfold schedStep in E. rewrite Hret, Hk in E. by destruct (onResult _ _ _).
  - exists s'. split; [done|]. destruct Hs as (_ & -> & _). by destruct ok.
Qed.

(** A phase without tasks never returns: the test of line 66 is reached only
    through a successful task. *)
Theorem schedule_empty_never_returns j es s :
  ntasks j = 0 → schedule j (schedInit j) es = SNext s → returned s = false.
Proof.
  intros H0 H. destruct (schedule_inv _ _ _ _ (schedInit_ok j) H) as ([Hm _] & _).
  destruct (returned s) eqn:E; [|done]. apply (sk_returned _ _ Hm) in E. lia.
Qed.

(** Two map tasks and three workers: task 0 fails on worker a and is redone by
    the idle worker c. *)
Definition job2 : Job := mkJob "wc" ["f0"; "f1"] 3 mapPhase.
Definition run2 : list SEvent :=
  [Registered "a"; Registered "b"; Registered "c"; Result 0 false; Result 0 true; Result 0 true].
Definition state2 (k : nat) : Sched :=
  match schedule job2 (schedInit job2) (take k run2) with SNext s => s | _ => schedInit job2 end.

Lemma schedule_complete_witness :
  returned (state2 6) = true ∧
  Some <$> completed job2 (schedInit job2) run2 ≡ₚ taskArg job2 <$> seqZ 0 (ntasks job2).
Proof.
  split; [vm_compute; reflexivity|].
  apply (proj2 (schedule_complete job2 run2) (state2 6)); vm_compute; reflexivity.
Defined.

Lemma schedule_exclusive_witness : busy (state2 4) = ["b"; "c"] ∧ NoDup (busy (state2 4)).
Proof.
  split; [vm_compute; reflexivity|]. apply (schedule_exclusive job2 (take 4 run2)).
  - vm_compute. reflexivity.
  - apply (bool_decide_unpack _). vm_compute. exact I.
Defined.

Lemma schedule_progress_witness :
  registrations (take 5 run2) = ["a"; "b"; "c"] ∧ failed job2 (schedInit job2) (take 5 run2) = ["a"] ∧
  calls (state2 5) ≠ [].
Proof.
  split; [vm_compute; reflexivity|]. split; [vm_compute; reflexivity|].
  apply (proj2 (schedule_progress job2 (take 5 run2) (state2 5) ltac:(vm_compute; reflexivity)
    ltac:(vm_compute; reflexivity) ltac:(vm_compute; reflexivity))). vm_compute. lia.
Defined.
