(* ===== verification/Json.v ===== *)
(** * Key/value pairs and the JSON stream they are stored in

    [KeyValue] of mapreduce/common.go, and what mapreduce/ uses of
    encoding/json: [Encoder.Encode] of a KeyValue appends one line, and
    [Decoder.Decode] in a loop until it fails reads the lines back. The class
    [KVCodec] is what the map and reduce tasks rely on; [jsonCodec] implements
    it.

    Strings are escaped as encoding/json does, rune by rune: quotes, backslashes, control
    characters, the characters <, > and & of its HTML escaping, U+2028 and U+2029; an invalid byte is
    replaced by U+FFFD, so only valid UTF-8 comes back as it was. The decoder accepts
    the lines the encoder writes, and any escape of a character of the basic plane in them. *)

From S2P Require Import Prelude GoStrings Runes.
From Stdlib Require Import Ascii.

Record KeyValue := mkKV { Key : string; Value : string }.

#[export] Instance KeyValue_eq_dec : EqDecision KeyValue.
Proof. solve_decision. Defined.

Definition validKV (kv : KeyValue) : Prop := ValidString (Key kv) ∧ ValidString (Value kv).

(** What the tasks rely on: a file that holds the encodings of some pairs of valid
    strings one after the other decodes to these pairs. *)
Class KVCodec := {
  encodeKV : KeyValue → string;
  decodeAll : string → list KeyValue;
  decode_encode : ∀ l, Forall validKV l → decodeAll (foldr String.append "" (encodeKV <$> l)) = l;
}.

(** ** Strings *)

Definition hexDigit (n : nat) : ascii :=
  match String.get n "0123456789abcdef" with Some c => c | None => "0"%char end.

Definition hexValue (c : ascii) : option nat :=
  let k := nat_of_ascii c in
  if decide (48 ≤ k < 58)%nat then Some (k - 48)%nat
  else if decide (97 ≤ k < 103)%nat then Some (k - 87)%nat else None.

Definition quote : ascii := ascii_of_nat 34.
Definition backslash : ascii := ascii_of_nat 92.

Definition escape (c : ascii) (rest : string) : string :=
  let k := nat_of_ascii c in
  if decide (c = quote ∨ c = backslash) then String backslash (String c rest)
  else if decide (k = 10%nat) then String backslash (String "n" rest)
  else if decide (k = 13%nat) then String backslash (String "r" rest)
  else if decide (k = 9%nat) then String backslash (String "t" rest)
  else if decide ((k < 32)%nat ∨ c = "<"%char ∨ c = ">"%char ∨ c = "&"%char) then
    String backslash (String "u" (String "0" (String "0"
      (String (hexDigit (k / 16)) (String (hexDigit (k mod 16)) rest)))))
  else String c rest.

(** [\uXXXX] *)
Definition escape16 (r : Z) (rest : string) : string :=
  let digit k := hexDigit (Z.to_nat (r / 16 ^ k mod 16)) in
  String backslash (String "u" (String (digit 3) (String (digit 2) (String (digit 1) (String (digit 0) rest))))).

Definition escapeRune (rb : Z * list ascii) (rest : string) : string :=
  let '(r, b) := rb in
  match b with
  | [c] => if decide (r = 0xFFFD) then escape16 0xFFFD rest else escape c rest
  | _ => if decide (r = 0x2028 ∨ r = 0x2029) then escape16 r rest else foldr String rest b
  end.

(** The body of a string and its closing quote, then [rest]. *)
Definition escapeAll (s : string) (rest : string) : string :=
  foldr escapeRune (String quote rest) (runes (chars s)).

(** The character an escape sequence of one letter stands for. *)
Definition unescape (c : ascii) : option ascii :=
  if decide (c = quote ∨ c = backslash ∨ c = "/"%char) then Some c
  else if decide (c = "n"%char) then Some (ascii_of_nat 10)
  else if decide (c = "r"%char) then Some (ascii_of_nat 13)
  else if decide (c = "t"%char) then Some (ascii_of_nat 9)
  else if decide (c = "b"%char) then Some (ascii_of_nat 8)
  else if decide (c = "f"%char) then Some (ascii_of_nat 12)
  else None.

(** [utf8.EncodeRune] of a rune of the basic plane; surrogates are replaced by U+FFFD. *)
Definition byte (z : Z) : ascii := ascii_of_N (Z.to_N z).
Definition encodeRune (r : Z) : list ascii :=
  if decide (r < 0x80) then [byte r]
  else if decide (r < 0x800) then [byte (0xC0 + r / 64); byte (0x80 + r mod 64)]
  else if decide (0xD800 ≤ r ≤ 0xDFFF) then [byte 0xEF; byte 0xBF; byte 0xBD]
  else [byte (0xE0 + r / 4096); byte (0x80 + r / 64 mod 64); byte (0x80 + r mod 64)].

(** Read the body of a string up to its closing quote: its value and what
    follows. *)
Fixpoint unescapeAll (s : string) : option (string * string) :=
  match s with
  | EmptyString => None
  | String c s1 =>
      if decide (c = quote) then Some (EmptyString, s1)
      else if decide (c = backslash) then
        match s1 with
        | EmptyString => None
        | String d s2 =>
            if decide (d = "u"%char) then
              match s2 with
              | String h3 (String h2 (String h1 (String h0 s3))) =>
                  let* x3 := hexValue h3 in
                  let* x2 := hexValue h2 in
                  let* x1 := hexValue h1 in
                  let* x0 := hexValue h0 in
                  let* '(v, rest) := unescapeAll s3 in
                  Some (foldr String v (encodeRune (Z.of_nat (4096 * x3 + 256 * x2 + 16 * x1 + x0))), rest)
              | _ => None
              end
            else
              let* x := unescape d in
              let* '(v, rest) := unescapeAll s2 in
              Some (String x v, rest)
        end
      else
        let* '(v, rest) := unescapeAll s1 in
        Some (String c v, rest)
  end.

Lemma unescapeAll_escape c s v rest :
  byteOf c < 0x80 → unescapeAll s = Some (v, rest) → unescapeAll (escape c s) = Some (String c v, rest).
Proof.
  intros Hc H. destruct c as [[] [] [] [] [] [] [] []]; try (exfalso; vm_compute in Hc; discriminate Hc);
    vm_compute (escape _ _); cbn; rewrite H; reflexivity.
Qed.

(** Bytes from 128 up stand for themselves. *)
Lemma unescapeAll_raw b s v rest :
  Forall (λ c, 0x80 ≤ byteOf c) b → unescapeAll s = Some (v, rest) →
  unescapeAll (foldr String s b) = Some (foldr String v b, rest).
Proof.
  induction 1 as [|c b Hc _ IH]; intros Hs; [done|]. simpl.
  rewrite !decide_False by (intros ->; by vm_compute in Hc). by rewrite IH.
Qed.

Lemma byteOf_inj c d : byteOf c = byteOf d → c = d.
Proof. unfold byteOf. intros E%N2Z.inj. by rewrite <-(ascii_N_embedding c), <-(ascii_N_embedding d), E. Qed.

(** A rune is read back as its bytes. *)
Lemma unescapeAll_rune l r w s v rest :
  decodeRune l = (r, w) → l ≠ [] → goodRune (r, take w l) → unescapeAll s = Some (v, rest) →
  unescapeAll (escapeRune (r, take w l) s) = Some (foldr String v (take w l), rest).
Proof.
  intros Hd Hne Hg Hs. destruct (decodeRune_first _ _ _ Hd Hne) as [_|c k -> Hc|r w Hw Hall _ Hsep].
  - destruct Hg. by destruct l.
  - change (take 1 (c :: k)) with [c]. cbn [escapeRune foldr]. rewrite decide_False by lia. by apply unescapeAll_escape.
  - assert (Hlen : length (take w l) = w) by (rewrite length_take; lia).
    unfold escapeRune. destruct (take w l) as [|c0 [|c1 b]] eqn:Hb; simpl in Hlen; [lia|lia|].
    case_decide as Hr; [|by apply unescapeAll_raw].
    specialize (Hsep Hr). destruct b as [|c2 [|c3 b]]; simplify_eq/=.
    replace c0 with (byte 0xE2) by (apply byteOf_inj; rewrite H; done).
    replace c1 with (byte 0x80) by (apply byteOf_inj; rewrite H0; done).
    destruct Hr as [-> | ->].
    + replace c2 with (byte 0xA8) by (apply byteOf_inj; rewrite H1; done).
      vm_compute (escape16 _ _). cbn. rewrite Hs. done.
    + replace c2 with (byte 0xA9) by (apply byteOf_inj; rewrite H1; done).
      vm_compute (escape16 _ _). cbn. rewrite Hs. done.
Qed.

Lemma unescapeAll_runes l rest :
  Valid l → unescapeAll (foldr escapeRune (String quote rest) (runes l)) = Some (ofChars l, rest).
Proof.
  unfold Valid. induction l as [|l r w Hne Hd Hf IH] using runes_ind; [done|].
  rewrite (runes_first _ _ _ Hd Hne). intros [Hg Hv]%Forall_cons. cbn [foldr].
  rewrite (unescapeAll_rune _ _ _ _ _ _ Hd Hne Hg (IH Hv)). do 2 f_equal. unfold ofChars.
  by rewrite <-foldr_app, take_drop.
Qed.

Lemma unescapeAll_escapeAll s rest : ValidString s → unescapeAll (escapeAll s rest) = Some (s, rest).
Proof. intros Hs. unfold escapeAll. rewrite unescapeAll_runes by done. by rewrite ofChars_chars. Qed.

(** ** Pairs *)

Fixpoint strip (p s : string) : option string :=
  match p, s with
  | EmptyString, _ => Some s
  | String c p, String d s => if decide (c = d) then strip p s else None
  | String _ _, EmptyString => None
  end.

Lemma strip_app p s : strip p (p +:+ s) = Some s.
Proof. induction p as [|c p IH]; [by destruct s|]. simpl. by rewrite decide_True. Qed.

Definition q : string := String quote "".
Definition openKey : string := "{" +:+ q +:+ "Key" +:+ q +:+ ":" +:+ q.
Definition openValue : string := "," +:+ q +:+ "Value" +:+ q +:+ ":" +:+ q.
Definition newline : string := String (ascii_of_nat 10) "".
Definition closeKV : string := "}" +:+ newline.

Definition jsonEncode (kv : KeyValue) (rest : string) : string :=
  openKey +:+ escapeAll (Key kv) (openValue +:+ escapeAll (Value kv) (closeKV +:+ rest)).

Definition jsonDecode (s : string) : option (KeyValue * string) :=
  let* s := strip openKey s in
  let* '(k, s) := unescapeAll s in
  let* s := strip openValue s in
  let* '(v, s) := unescapeAll s in
  let* s := strip closeKV s in
  Some (mkKV k v, s).

(** The loop that decodes until the decoder returns an error (the end of the
    file included). Every pair takes at least one byte, so the length of the
    file is enough fuel. *)
Fixpoint jsonStream (fuel : nat) (s : string) : list KeyValue :=
  match fuel with
  | O => []
  | S fuel =>
      match jsonDecode s with
      | None => []
      | Some (kv, s) => kv :: jsonStream fuel s
      end
  end.

Lemma jsonDecode_encode kv rest : validKV kv → jsonDecode (jsonEncode kv rest) = Some (kv, rest).
Proof.
  intros [Hk Hv]. unfold jsonDecode, jsonEncode.
  repeat (rewrite ?strip_app, ?unescapeAll_escapeAll by done; cbn [obind]). by destruct kv.
Qed.

Lemma jsonStream_encode l fuel :
  Forall validKV l → (length l ≤ fuel)%nat → jsonStream fuel (foldr jsonEncode "" l) = l.
Proof.
  intros Hv. revert fuel. induction Hv as [|kv l Hkv _ IH]; intros [|fuel] Hf; simpl in *; try done; [lia|].
  rewrite jsonDecode_encode by done. rewrite IH; [done|lia].
Qed.

Lemma slength_app (a b : string) : String.length (a +:+ b) = (String.length a + String.length b)%nat.
Proof. induction a as [|x a IH]; [done|]. exact (f_equal S IH). Qed.

Lemma escape_app c s rest : escape c s +:+ rest = escape c (s +:+ rest).
Proof. unfold escape. by repeat case_decide. Qed.

Lemma raw_app l s rest : foldr String s l +:+ rest = foldr String (s +:+ rest) l.
Proof. induction l as [|c l IH]; [done|]. exact (f_equal (String c) IH). Qed.

Lemma escapeRune_app rb s rest : escapeRune rb s +:+ rest = escapeRune rb (s +:+ rest).
Proof.
  destruct rb as [r b]. unfold escapeRune. destruct b as [|c [|c' b]]; case_decide;
    (apply escape_app || apply raw_app || done).
Qed.

Lemma escapeAll_app s a b : escapeAll s a +:+ b = escapeAll s (a +:+ b).
Proof.
  unfold escapeAll. induction (runes (chars s)) as [|rb rs IH]; [done|]. cbn [foldr]. by rewrite escapeRune_app, IH.
Qed.

Lemma jsonEncode_app kv rest : jsonEncode kv "" +:+ rest = jsonEncode kv rest.
Proof.
  unfold jsonEncode. rewrite sapp_assoc, escapeAll_app, sapp_assoc, escapeAll_app, sapp_assoc. done.
Qed.

Lemma jsonEncode_concat l :
  foldr String.append "" ((λ kv, jsonEncode kv "") <$> l) = foldr jsonEncode "" l.
Proof.
  induction l as [|kv l IH]; [done|]. cbn [foldr].
  rewrite <-(jsonEncode_app kv (foldr _ _ _)). exact (f_equal (String.append (jsonEncode kv "")) IH).
Qed.

Lemma length_encode l : (length l ≤ String.length (foldr jsonEncode "" l))%nat.
Proof.
  induction l as [|kv l IH]; cbn [foldr length]; [lia|].
  rewrite <-jsonEncode_app, slength_app. unfold jsonEncode at 1. rewrite slength_app.
  change (String.length openKey) with 8%nat. lia.
Qed.

#[export] Program Instance jsonCodec : KVCodec := {|
  encodeKV := λ kv, jsonEncode kv "";
  decodeAll := λ s, jsonStream (String.length s) s;
|}.
Next Obligation.
  intros l Hl. rewrite jsonEncode_concat. apply jsonStream_encode, length_encode; done.
Qed.

(** Two different keys that are not valid UTF-8 become one: the text that describes doMap
    promises keys with any character. *)
Theorem invalid_keys_merge :
  let kv b := mkKV (String (byte b) "") "1" in
  let out := mkKV (ofChars [byte 0xEF; byte 0xBF; byte 0xBD]) "1" in
  decodeAll (encodeKV (kv 0xFE) +:+ encodeKV (kv 0xFF)) = [out; out].
Proof. vm_compute. reflexivity. Qed.
