(* ===== verification/MapReduce.v ===== *)
(** * Map and reduce tasks: mapreduce/common.go, common_map.go,
      common_reduce.go and master_splitmerge.go

    The file system is a finite map from names to contents. Opening a file
    that does not exist is the error the code handles (by a panic or
    [log.Fatal], [None] here); other I/O errors are not modelled. An encoder
    on a file that [os.Create] has just opened appends to that file.

    [sort.Slice] is not stable, so the order of pairs with one key is not
    determined: the class [SortByKey] is all that doReduce may rely on. A map
    function that ranges over a Go map need not return the same list twice, so
    what is called more than once is a family of functions: [mapF n] is what the map function
    computes at its [n]-th call. *)

From S2P Require Import Prelude GoStrings Json Schedule.
From Stdlib Require Import Ascii.

Notation FS := (gmap string string).
Notation MapFn := (string → string → list KeyValue).

(** ** Names of files *)

Definition reduceName (jobName : string) (mapTask reduceTask : Z) : string :=
  "mrtmp." +:+ jobName +:+ "-" +:+ Itoa mapTask +:+ "-" +:+ Itoa reduceTask.

Definition mergeName (jobName : string) (reduceTask : Z) : string :=
  "mrtmp." +:+ jobName +:+ "-res-" +:+ Itoa reduceTask.

(** The final output, master_splitmerge.go, line 41. *)
Definition outName (jobName : string) : string := "mrtmp." +:+ jobName.

(** ** Partitioning: FNV-1a on 32 bits *)

Fixpoint fnv32a (h : Z) (s : string) : Z :=
  match s with
  | EmptyString => h
  | String c s => fnv32a ((Z.lxor h (Z.of_N (N_of_ascii c)) * 16777619) mod 2 ^ 32) s
  end.

Definition ihash (s : string) : Z := Z.land (fnv32a 2166136261 s) 0x7fffffff.

(** ** Sorting *)

Definition key_le (a b : KeyValue) : Prop := String.le (Key a) (Key b).

Class SortByKey := {
  sortByKey : list KeyValue → list KeyValue;
  sortByKey_perm : ∀ l, sortByKey l ≡ₚ l;
  sortByKey_sorted : ∀ l, Sorted key_le (sortByKey l);
}.

#[export] Instance key_le_dec : RelDecision key_le.
Proof. unfold key_le. solve_decision. Defined.
#[export] Instance key_le_total : Total key_le.
Proof. intros a b. apply (total String.le). Qed.
#[export] Instance key_le_trans : Transitive key_le.
Proof. intros a b c. unfold key_le. apply transitivity. Qed.

Program Definition mergeSortByKey : SortByKey := {| sortByKey := merge_sort key_le |}.
Next Obligation. intros. apply merge_sort_Permutation. Qed.
Next Obligation. intros. apply (Sorted_merge_sort key_le). Qed.

Definition sort_Strings (l : list string) : list string := merge_sort String.le l.

Section Tasks.
Context `{codec : !KVCodec} `{sorter : !SortByKey}.
Implicit Types (fs : FS) (kvs : list KeyValue).

Definition encodeAll kvs : string := foldr String.append "" (encodeKV <$> kvs).

(** ** doMap *)

(** Lines 72-82: create one file per reduce task. *)
Definition createAll (names : list string) fs : FS := foldl (λ fs n, <[n := ""]> fs) fs names.

(** Lines 83-89: append every pair to the file of its partition. *)
Fixpoint writePairs (encs : list string) (nReduce : Z) kvs fs : option FS :=
  match kvs with
  | [] => Some fs
  | kv :: kvs =>
      if decide (nReduce = 0) then None
      else
        let* outF := go_index encs (Z.rem (ihash (Key kv)) nReduce) in
        writePairs encs nReduce kvs (alter (λ c, c +:+ encodeKV kv) outF fs)
  end.

Definition doMap fs (jobName : string) (mapTask : Z) (inFile : string) (nReduce : Z)
    (mapF : MapFn) : option FS :=
  let* content := fs !! inFile in
  let kvs := mapF inFile content in
  let encs := reduceName jobName mapTask <$> seqZ 0 nReduce in
  writePairs encs nReduce kvs (createAll encs fs).

(** ** doReduce *)

(** Lines 53-71: all pairs of the intermediate files, in the order of the map
    tasks. *)
Definition readPairs fs (jobName : string) (reduceTask nMap : Z) : option (list KeyValue) :=
  let* cs := mapM (λ i, fs !! reduceName jobName i reduceTask) (seqZ 0 nMap) in
  Some (concat (decodeAll <$> cs)).

(** Lines 87-101: the pairs the loop over the sorted pairs and the code after
    it emit, with [curKey] and [values] so far. *)
Fixpoint reduceLoop (reduceF : string → list string → string) (curKey : string)
    (values : list string) kvs : list KeyValue :=
  match kvs with
  | [] => [mkKV curKey (reduceF curKey values)]
  | kv :: kvs =>
      if decide (curKey = Key kv) then reduceLoop reduceF curKey (values ++ [Value kv]) kvs
      else mkKV curKey (reduceF curKey values) :: reduceLoop reduceF (Key kv) [Value kv] kvs
  end.

Definition doReduce fs (jobName : string) (reduceTask : Z) (outFile : string) (nMap : Z)
    (reduceF : string → list string → string) : option FS :=
  let* kvs := readPairs fs jobName reduceTask nMap in
  match sortByKey kvs with
  | [] => Some fs
  | (kv :: _) as kvs => Some (<[outFile := encodeAll (reduceLoop reduceF (Key kv) [] kvs)]> fs)
  end.

(** ** merge and cleanup *)

Definition mergePairs kvs (m : gmap string string) : gmap string string :=
  foldl (λ m kv, <[Key kv := Value kv]> m) m kvs.

(** [fmt.Fprintf(w, "%s: %s\n", k, v)] *)
Definition line (k v : string) : string := k +:+ ": " +:+ v +:+ newline.

Definition merge fs (jobName : string) (nReduce : Z) : option FS :=
  let* cs := mapM (λ i, fs !! mergeName jobName i) (seqZ 0 nReduce) in
  let kvs := mergePairs (concat (decodeAll <$> cs)) ∅ in
  let keys := sort_Strings (elements (dom kvs)) in
  Some (<[outName jobName :=
      foldr String.append "" ((λ k, line k (default "" (kvs !! k))) <$> keys)]> fs).

(** [removeFile]: a file that does not exist is fatal. *)
Definition removeFile fs (n : string) : option FS :=
  let* _ := fs !! n in Some (delete n fs).

Fixpoint removeAll fs (names : list string) : option FS :=
  match names with
  | [] => Some fs
  | n :: names => let* fs := removeFile fs n in removeAll fs names
  end.

Definition CleanupFiles fs (jobName : string) (files : list string) (nReduce : Z) : option FS :=
  removeAll fs
    ((i ← seqZ 0 (zlen files); reduceName jobName i <$> seqZ 0 nReduce) ++
     (mergeName jobName <$> seqZ 0 nReduce) ++ [outName jobName]).

(** ** Sequential: the two phases in order, then merge *)

(** Task [i] is the [i]-th to call the map function. *)
Fixpoint mapPhaseSeq fs (jobName : string) (i : Z) (files : list string) (nReduce : Z)
    (mapF : nat → MapFn) : option FS :=
  match files with
  | [] => Some fs
  | f :: files =>
      let* fs := doMap fs jobName i f nReduce (mapF (Z.to_nat i)) in
      mapPhaseSeq fs jobName (i + 1) files nReduce mapF
  end.

Fixpoint reducePhaseSeq fs (jobName : string) (tasks : list Z) (nMap : Z)
    (reduceF : string → list string → string) : option FS :=
  match tasks with
  | [] => Some fs
  | i :: tasks =>
      let* fs := doReduce fs jobName i (mergeName jobName i) nMap reduceF in
      reducePhaseSeq fs jobName tasks nMap reduceF
  end.

(** [run] of master.go, with the scheduling function it is given: the map
    phase, the reduce phase, the merge. *)
Definition run fs (jobName : string) (nreduce : Z) (schedule : jobPhase → FS → option FS)
    : option FS :=
  let* fs := schedule mapPhase fs in
  let* fs := schedule reducePhase fs in
  merge fs jobName nreduce.

Definition Sequential fs (jobName : string) (files : list string) (nreduce : Z)
    (mapF : nat → MapFn) (reduceF : string → list string → string)
    : option FS :=
  run fs jobName nreduce (λ phase fs,
    match phase with
    | mapPhase => mapPhaseSeq fs jobName 0 files nreduce mapF
    | reducePhase => reducePhaseSeq fs jobName (seqZ 0 nreduce) (zlen files) reduceF
    end).

End Tasks.

(** ** Facts on names and hashes *)

Lemma Itoa_no_dash z : 0 ≤ z → "-"%char ∉ chars (Itoa z).
Proof. intros. by apply chars_Itoa. Qed.

Lemma reduceName_inj jobName m r m' r' :
  0 ≤ m → 0 ≤ m' → reduceName jobName m r = reduceName jobName m' r' → m = m' ∧ r = r'.
Proof.
  intros Hm Hm' Heq. unfold reduceName in Heq.
  do 3 apply (inj (String.append _)) in Heq.
  apply split_at_char in Heq as [Ha Hb]; [|by apply Itoa_no_dash..].
  split; by apply (inj Itoa).
Qed.

Lemma mergeName_inj jobName r r' : mergeName jobName r = mergeName jobName r' → r = r'.
Proof.
  unfold mergeName. intros Heq. do 3 apply (inj (String.append _)) in Heq. by apply (inj Itoa).
Qed.

Lemma reduceName_mergeName jobName m r r' :
  0 ≤ m → reduceName jobName m r ≠ mergeName jobName r'.
Proof.
  intros Hm Heq. unfold reduceName, mergeName in Heq.
  do 2 apply (inj (String.append _)) in Heq.
  change ("-res-" +:+ Itoa r') with ("-" +:+ ("res" +:+ String "-" (Itoa r'))) in Heq.
  apply (inj (String.append _)) in Heq.
  apply split_at_char in Heq as [Ha _]; [|by apply Itoa_no_dash|set_solver].
  assert (Hin : "r"%char ∈ chars (Itoa m)) by (rewrite Ha; set_solver).
  by apply chars_Itoa in Hin.
Qed.

Lemma fnv32a_range s h : 0 ≤ h < 2 ^ 32 → 0 ≤ fnv32a h s < 2 ^ 32.
Proof.
  revert h. induction s as [|c s IH]; intros h Hh; [done|]. simpl. apply IH.
  apply Z.mod_pos_bound. lia.
Qed.
