(* ===== verification/MapReduceSpec.v ===== *)
(** * What the map and reduce tasks compute

    [doMap] splits the pairs of its input by the hash of the key; [doReduce]
    calls the reduce function once per key with all its values; [merge] lists
    the results by key; and [Sequential] as a whole computes [reference], which
    knows nothing of files, tasks or partitions. *)

From S2P Require Import Prelude GoStrings Runes Json MapReduce.
From Stdlib Require Import Ascii.

(** ** The reference *)

(** The values of one key, and all the pairs of the input files. *)
Definition valuesOf (k : string) (kvs : list KeyValue) : list string :=
  Value <$> filter (λ kv, Key kv = k) kvs.

Definition keysOf (kvs : list KeyValue) : gset string := list_to_set (Key <$> kvs).

Definition allPairs (fs : FS) (files : list string) (mapF : nat → MapFn) : list KeyValue :=
  concat (imap (λ i f, mapF i f (default "" (fs !! f))) files).

(** One line per key, in the order of the keys. *)
Definition reference (kvs : list KeyValue) (reduceF : string → list string → string) : string :=
  foldr String.append ""
    ((λ k, line k (reduceF k (valuesOf k kvs))) <$> sort_Strings (elements (keysOf kvs))).

(** The pairs that go to reduce task [r] of [n]. *)
Definition bucket (n r : Z) (kvs : list KeyValue) : list KeyValue :=
  filter (λ kv, ihash (Key kv) mod n = r) kvs.

(** ** Hashes *)

(** The hash of a key is an unsigned 31-bit number. *)
Lemma ihash_range s : 0 ≤ ihash s < 2 ^ 31.
Proof.
  unfold ihash. pose proof (fnv32a_range s 2166136261).
  change 0x7fffffff with (Z.ones 31). rewrite Z.land_ones by lia.
  apply Z.mod_pos_bound. lia.
Qed.

Lemma ihash_rem s n : 0 < n → Z.rem (ihash s) n = ihash s mod n.
Proof. intros. pose proof (ihash_range s). apply Z.rem_mod_nonneg; lia. Qed.

Section Spec.
Context `{codec : !KVCodec} `{sorter : !SortByKey}.
Implicit Types (fs : FS) (kvs : list KeyValue).

(** ** doMap *)

Lemma encodeAll_app kvs kvs' : encodeAll (kvs ++ kvs') = encodeAll kvs +:+ encodeAll kvs'.
Proof. unfold encodeAll. by rewrite fmap_app, sconcat_app. Qed.

Lemma createAll_lookup names fs f :
  createAll names fs !! f = if decide (f ∈ names) then Some "" else fs !! f.
Proof.
  unfold createAll. revert fs. induction names as [|n names IH]; intros fs; [done|].
  simpl. rewrite IH. destruct (decide (f = n)) as [->|Hne].
  - rewrite lookup_insert_eq, (decide_True (P:=n ∈ n :: names)) by set_solver. by case_decide.
  - rewrite lookup_insert_ne by done.
    rewrite (decide_ext (f ∈ n :: names) (f ∈ names)) by set_solver. done.
Qed.

(** The loop that writes the pairs: the file of partition [r] grows by the
    pairs of that partition, in order. *)
Lemma writePairs_spec (name : Z → string) (n : Z) kvs fs :
  0 < n → (∀ r r', 0 ≤ r < n → 0 ≤ r' < n → name r = name r' → r = r') →
  ∃ fs', writePairs (name <$> seqZ 0 n) n kvs fs = Some fs' ∧
    (∀ r, 0 ≤ r < n → fs' !! name r = (λ c, c +:+ encodeAll (bucket n r kvs)) <$> fs !! name r) ∧
    (∀ f, (∀ r, 0 ≤ r < n → f ≠ name r) → fs' !! f = fs !! f).
Proof.
  intros Hn Hinj. revert fs. induction kvs as [|kv kvs IH]; intros fs.
  { exists fs. split_and!; [done| |done]. intros r _. unfold bucket, encodeAll. simpl.
    destruct (fs !! name r) eqn:E; simpl; [|done]. by rewrite sapp_nil_r. }
  simpl. rewrite decide_False by lia. rewrite ihash_rem by done.
  set (p := ihash (Key kv) mod n).
  assert (Hp : 0 ≤ p < n) by (apply Z.mod_pos_bound; lia).
  assert (go_index (name <$> seqZ 0 n) p = Some (name p)) as ->.
  { apply go_index_Some. split; [lia|]. rewrite list_lookup_fmap, lookup_seqZ_lt by lia.
    simpl. f_equal. f_equal. lia. }
  simpl. destruct (IH (alter (λ c, c +:+ encodeKV kv) (name p) fs)) as (fs' & -> & Hin & Hout).
  exists fs'. split_and!; [done|..].
  - intros r Hr. rewrite Hin by done. unfold bucket. rewrite filter_cons. fold p. case_decide as E.
    + subst r. rewrite lookup_alter_eq. destruct (fs !! name p); simpl; [|done].
      by rewrite sapp_assoc.
    + rewrite lookup_alter_ne; [done|]. intros Heq. apply E. by apply Hinj.
  - intros f Hf. rewrite Hout by done. rewrite lookup_alter_ne; [done|].
    intros <-. by apply (Hf p).
Qed.

Lemma doMap_spec fs jobName m inFile n mapF c :
  0 < n → 0 ≤ m → fs !! inFile = Some c →
  ∃ fs', doMap fs jobName m inFile n mapF = Some fs' ∧
    (∀ r, 0 ≤ r < n →
       fs' !! reduceName jobName m r = Some (encodeAll (bucket n r (mapF inFile c)))) ∧
    (∀ f, (∀ r, 0 ≤ r < n → f ≠ reduceName jobName m r) → fs' !! f = fs !! f).
Proof.
  intros Hn Hm Hc. unfold doMap. rewrite Hc. simpl.
  destruct (writePairs_spec (reduceName jobName m) n (mapF inFile c)
    (createAll (reduceName jobName m <$> seqZ 0 n) fs)) as (fs' & -> & Hin & Hout); [done|..].
  { intros r r' _ _ Heq. by apply reduceName_inj in Heq as [_ ?]. }
  exists fs'. split_and!; [done|..].
  - intros r Hr. rewrite Hin by done. rewrite createAll_lookup, decide_True; [done|].
    apply list_elem_of_fmap. exists r. split; [done|]. apply elem_of_seqZ. lia.
  - intros f Hf. rewrite Hout by done. rewrite createAll_lookup, decide_False; [done|].
    intros (r & -> & Hr)%list_elem_of_fmap. apply elem_of_seqZ in Hr. apply (Hf r); [lia|done].
Qed.

(** Every pair goes to one bucket. *)
Lemma bucket_concat n kvs : 0 < n → concat ((λ r, bucket n r kvs) <$> seqZ 0 n) ≡ₚ kvs.
Proof.
  intros Hn. induction kvs as [|kv kvs IH].
  - induction (seqZ 0 n); simpl; done.
  - set (p := ihash (Key kv) mod n).
    assert (0 ≤ p < n) as Hp by (apply Z.mod_pos_bound; lia).
    assert (seqZ 0 n = seqZ 0 p ++ p :: seqZ (p + 1) (n - p - 1)) as Hs.
    { replace n with (p + (n - p)) at 1 by lia. rewrite seqZ_app, (seqZ_cons (0 + p)) by lia.
      do 3 f_equal; lia. }
    rewrite Hs in IH |- *. rewrite !fmap_app, !concat_app in *. simpl in *.
    assert (Hsame : ∀ a k, (∀ r, r ∈ seqZ a k → r ≠ p) →
      (λ r, bucket n r (kv :: kvs)) <$> seqZ a k = (λ r, bucket n r kvs) <$> seqZ a k).
    { intros a k Hr. apply list_fmap_ext. intros i r Hi%list_elem_of_lookup_2.
      unfold bucket. rewrite filter_cons_False; [done|]. intros E. by apply (Hr r Hi). }
    rewrite !Hsame by (intros r Hr%elem_of_seqZ; lia).
    assert (bucket n p (kv :: kvs) = kv :: bucket n p kvs) as ->.
    { unfold bucket. by rewrite filter_cons_True. }
    simpl. rewrite <-Permutation_middle. by rewrite IH.
Qed.

(** ** doReduce *)

Definition slt (a b : string) : Prop := String.le a b ∧ a ≠ b.

Lemma valuesOf_app k kvs kvs' : valuesOf k (kvs ++ kvs') = valuesOf k kvs ++ valuesOf k kvs'.
Proof. unfold valuesOf. by rewrite filter_app, fmap_app. Qed.

Lemma valuesOf_none k kvs : k ∉ Key <$> kvs → valuesOf k kvs = [].
Proof.
  intros Hk. unfold valuesOf. induction kvs as [|kv kvs IH]; [done|].
  rewrite filter_cons_False by set_solver. apply IH. set_solver.
Qed.

Lemma valuesOf_same k vs : valuesOf k (mkKV k <$> vs) = vs.
Proof.
  unfold valuesOf. induction vs as [|v vs IH]; [done|].
  rewrite fmap_cons, filter_cons_True, fmap_cons by done. by rewrite IH.
Qed.

#[export] Instance valuesOf_perm k : Proper ((≡ₚ) ==> (≡ₚ)) (valuesOf k).
Proof. intros l l' Hl. unfold valuesOf. by rewrite Hl. Qed.

(** The emitted pairs [out] are the reduction of the pairs [P]: each key once,
    in increasing order, with the values of the key. *)
Definition reduces (reduceF : string → list string → string) (P out : list KeyValue) : Prop :=
  StronglySorted slt (Key <$> out) ∧
  (∀ k, k ∈ Key <$> out ↔ k ∈ Key <$> P) ∧
  Forall (λ kv, Value kv = reduceF (Key kv) (valuesOf (Key kv) P)) out.

Lemma reduceLoop_spec reduceF kvs cur vs :
  StronglySorted key_le kvs → Forall (λ kv, String.le cur (Key kv)) kvs → vs ≠ [] ∨ cur ∈ Key <$> kvs →
  reduces reduceF ((mkKV cur <$> vs) ++ kvs) (reduceLoop reduceF cur vs kvs).
Proof.
  revert cur vs. induction kvs as [|kv kvs IH]; intros cur vs Hs Hcur Hne; simpl.
  { rewrite app_nil_r. split_and!; [by repeat constructor| |].
    - intros k. simpl. rewrite list_elem_of_singleton.
      destruct vs as [|v vs]; [set_solver|]. rewrite <-list_fmap_compose.
      split; [intros ->; set_solver|]. by intros (? & -> & _)%list_elem_of_fmap.
    - constructor; [|done]. simpl. by rewrite valuesOf_same. }
  apply StronglySorted_inv in Hs as [Hs Hkv]. inversion Hcur as [|? ? Hle Hcur']; subst.
  case_decide as E.
  - subst cur. specialize (IH (Key kv) (vs ++ [Value kv]) Hs Hcur').
    rewrite fmap_app, <-app_assoc in IH. simpl in IH.
    replace (mkKV (Key kv) (Value kv)) with kv in IH by (by destruct kv).
    apply IH. left. by destruct vs.
  - assert (Hnot : cur ∉ Key <$> kv :: kvs).
    { intros (kv' & Hk & Hin)%list_elem_of_fmap. apply elem_of_cons in Hin as [->|Hin]; [done|].
      rewrite Forall_forall in Hkv. specialize (Hkv kv' Hin). unfold key_le in Hkv. rewrite <-Hk in Hkv.
      apply E. by apply (anti_symm String.le). }
    destruct Hne as [Hne|]; [|done].
    destruct (IH (Key kv) [Value kv] Hs) as (Hsort & Hkeys & Hval); [|by left|].
    { rewrite Forall_forall in Hkv |- *. exact Hkv. }
    replace ((mkKV (Key kv) <$> [Value kv]) ++ kvs) with (kv :: kvs) in * by (by destruct kv).
    split_and!.
    + simpl. constructor; [done|]. apply Forall_forall. intros k Hk.
      split; [|intros <-; apply Hnot, Hkeys, Hk].
      apply Hkeys, list_elem_of_fmap in Hk as (kv' & -> & Hin).
      rewrite Forall_forall in Hcur. by apply Hcur.
    + intros k. simpl. rewrite elem_of_cons, Hkeys, fmap_app, elem_of_app.
      rewrite <-list_fmap_compose. split; intros [Hk|Hk]; auto.
      * left. subst k. apply list_elem_of_fmap. destruct vs as [|v vs]; [done|].
        exists v. split; [done|set_solver].
      * apply list_elem_of_fmap in Hk as (? & -> & _). by left.
    + assert (Hrest : ∀ k, k ≠ cur → valuesOf k ((mkKV cur <$> vs) ++ kv :: kvs) =
        valuesOf k (kv :: kvs)).
      { intros k Hk. rewrite valuesOf_app, (valuesOf_none k (mkKV cur <$> vs)); [done|].
        rewrite <-list_fmap_compose. intros (? & -> & _)%list_elem_of_fmap. done. }
      constructor; simpl.
      * by rewrite valuesOf_app, valuesOf_same, (valuesOf_none cur (kv :: kvs)), app_nil_r.
      * rewrite Forall_forall in Hval |- *. intros x Hx. rewrite Hrest; [by apply Hval|].
        intros Hkx. apply Hnot, Hkeys. rewrite <-Hkx. by apply list_elem_of_fmap_2.
Qed.

Lemma decode_files (kvss : list (list KeyValue)) :
  Forall validKV (concat kvss) → decodeAll <$> (encodeAll <$> kvss) = kvss.
Proof.
  intros Hv. rewrite <-list_fmap_compose. etrans; [|apply list_fmap_id]. apply list_fmap_ext.
  intros i kvs Hi. apply decode_encode. apply Forall_concat in Hv. exact (Forall_lookup_1 _ _ _ _ Hv Hi).
Qed.

Lemma readPairs_spec fs jobName r (kvss : list (list KeyValue)) :
  Forall validKV (concat kvss) →
  (∀ i kvs, kvss !! i = Some kvs →
     fs !! reduceName jobName (Z.of_nat i) r = Some (encodeAll kvs)) →
  readPairs fs jobName r (zlen kvss) = Some (concat kvss).
Proof.
  intros Hv Hf. unfold readPairs.
  assert (mapM (λ i, fs !! reduceName jobName i r) (seqZ 0 (zlen kvss)) =
    Some (encodeAll <$> kvss)) as ->.
  { apply mapM_Some. apply Forall2_same_length_lookup. split.
    - rewrite length_seqZ, length_fmap. unfold zlen. lia.
    - intros i z c [-> Hi]%lookup_seqZ Hc. rewrite list_lookup_fmap in Hc.
      destruct (kvss !! i) as [kvs|] eqn:Hk; simplify_eq/=. by apply Hf. }
  simpl. by rewrite decode_files.
Qed.

(** One reduce task on the files that the map tasks have written. *)
Lemma doReduce_spec fs jobName r outFile kvss reduceF :
  Forall validKV (concat kvss) →
  (∀ i kvs, kvss !! i = Some kvs →
     fs !! reduceName jobName (Z.of_nat i) r = Some (encodeAll kvs)) →
  concat kvss ≠ [] →
  (∀ k vs vs', vs ≡ₚ vs' → reduceF k vs = reduceF k vs') →
  ∃ out, reduces reduceF (concat kvss) out ∧
    doReduce fs jobName r outFile (zlen kvss) reduceF = Some (<[outFile := encodeAll out]> fs).
Proof.
  intros Hv Hf Hne Hperm. unfold doReduce. rewrite (readPairs_spec _ _ _ _ Hv Hf). simpl.
  pose proof (sortByKey_perm (concat kvss)) as Hp.
  pose proof (Sorted_StronglySorted key_le _ (sortByKey_sorted (concat kvss))) as Hs.
  destruct (sortByKey (concat kvss)) as [|kv kvs] eqn:E.
  { symmetry in Hp. by apply Permutation_nil_r in Hp. }
  eexists. split; [|done]. pose proof (StronglySorted_inv Hs) as [_ Hkv].
  destruct (reduceLoop_spec reduceF (kv :: kvs) (Key kv) [] Hs) as (H1 & H2 & H3).
  - constructor; [|done]. by apply (reflexivity (R:=String.le)).
  - right. simpl. set_solver.
  - change ((mkKV (Key kv) <$> []) ++ kv :: kvs) with (kv :: kvs) in *.
    split_and!; [exact H1| |].
    + intros k. rewrite H2. by rewrite Hp.
    + eapply Forall_impl; [exact H3|]. intros x ->. apply Hperm. by rewrite Hp.
Qed.

(** ** The phases *)

Lemma mapPhaseSeq_spec fs jobName i files n mapF :
  0 < n → 0 ≤ i → (∀ f, f ∈ files → is_Some (fs !! f)) →
  (∀ f m r, f ∈ files → 0 ≤ m → 0 ≤ r → f ≠ reduceName jobName m r) →
  ∃ fs', mapPhaseSeq fs jobName i files n mapF = Some fs' ∧
    (∀ j f r, files !! j = Some f → 0 ≤ r < n →
       fs' !! reduceName jobName (i + Z.of_nat j) r =
         Some (encodeAll (bucket n r (mapF (Z.to_nat i + j)%nat f (default "" (fs !! f)))))) ∧
    (∀ f, (∀ m r, i ≤ m < i + zlen files → 0 ≤ r < n → f ≠ reduceName jobName m r) →
       fs' !! f = fs !! f).
Proof.
  intros Hn. revert fs i. induction files as [|f files IH]; intros fs i Hi Hex Hfree.
  { exists fs. by split_and!. }
  destruct (Hex f) as [c Hc]; [set_solver|]. simpl.
  destruct (doMap_spec fs jobName i f n (mapF (Z.to_nat i)) c) as (fs1 & -> & Hw & Hframe); [done..|]. simpl.
  assert (Hsame : ∀ g, g ∈ files → fs1 !! g = fs !! g).
  { intros g Hg. apply Hframe. intros r Hr. apply Hfree; [set_solver|lia..]. }
  destruct (IH fs1 (i + 1)) as (fs2 & -> & Hw2 & Hframe2); [lia| |set_solver|].
  { intros g Hg. rewrite Hsame by done. apply Hex. set_solver. }
  exists fs2. split_and!; [done|..].
  - intros [|j] g r Hj Hr; simpl in Hj.
    + simplify_eq. rewrite Z.add_0_r, Nat.add_0_r, Hframe2; [by rewrite Hw, Hc|].
      intros m r' Hm Hr' [? _]%reduceName_inj; lia.
    + replace (i + Z.of_nat (S j)) with (i + 1 + Z.of_nat j) by lia.
      rewrite (Hw2 j g r) by done. rewrite Hsame by (by eapply list_elem_of_lookup_2).
      by replace (Z.to_nat (i + 1) + j)%nat with (Z.to_nat i + S j)%nat by lia.
  - unfold zlen in *. simpl. intros g Hg.
    rewrite Hframe2, Hframe; [done|intros r Hr; apply Hg; lia|].
    intros m r Hm Hr. apply Hg; lia.
Qed.

Lemma reducePhaseSeq_spec fs jobName tasks nMap reduceF (B : Z → list (list KeyValue)) :
  NoDup tasks →
  (∀ r, r ∈ tasks → zlen (B r) = nMap ∧ Forall validKV (concat (B r)) ∧ concat (B r) ≠ [] ∧ ∀ i kvs, B r !! i = Some kvs →
     fs !! reduceName jobName (Z.of_nat i) r = Some (encodeAll kvs)) →
  (∀ k vs vs', vs ≡ₚ vs' → reduceF k vs = reduceF k vs') →
  ∃ fs' outs, reducePhaseSeq fs jobName tasks nMap reduceF = Some fs' ∧
    Forall2 (λ r out, reduces reduceF (concat (B r)) out ∧
                      fs' !! mergeName jobName r = Some (encodeAll out)) tasks outs ∧
    (∀ f, (∀ r, r ∈ tasks → f ≠ mergeName jobName r) → fs' !! f = fs !! f).
Proof.
  intros Hnd HB Hperm. revert fs HB. induction Hnd as [|r tasks Hr Hnd IH]; intros fs HB.
  { exists fs, []. by split_and!. }
  destruct (HB r) as (Hlen & Hv & Hne & Hfiles); [set_solver|]. simpl. rewrite <-Hlen.
  destruct (doReduce_spec fs jobName r (mergeName jobName r) (B r) reduceF) as (out & Hred & ->);
    [done..|]. simpl. rewrite Hlen.
  destruct (IH (<[mergeName jobName r := encodeAll out]> fs)) as (fs' & outs & -> & Hall & Hframe).
  { intros r' Hr'. destruct (HB r') as (? & ? & ? & Hf'); [set_solver|]. split_and!; [done..|].
    intros i kvs Hi. rewrite lookup_insert_ne; [by apply Hf'|].
    apply not_eq_sym, reduceName_mergeName. lia. }
  exists fs', (out :: outs). split_and!; [done| |].
  - constructor; [|done]. split; [done|]. rewrite Hframe, lookup_insert_eq; [done|].
    intros r' Hr' ?%mergeName_inj. set_solver.
  - intros f Hf. rewrite Hframe by set_solver. rewrite lookup_insert_ne; [done|].
    apply not_eq_sym, Hf. set_solver.
Qed.

(** ** merge *)

Lemma mergePairs_lookup (g : string → string) kvs m k :
  Forall (λ kv, Value kv = g (Key kv)) kvs →
  mergePairs kvs m !! k = if decide (k ∈ Key <$> kvs) then Some (g k) else m !! k.
Proof.
  unfold mergePairs. revert m. induction kvs as [|kv kvs IH]; intros m Hg.
  { by rewrite decide_False by (apply not_elem_of_nil). }
  inversion Hg as [|? ? Hkv Hg']; subst. simpl foldl. rewrite IH by done.
  rewrite fmap_cons. destruct (decide (k ∈ Key <$> kvs)) as [Hin|Hin].
  - by rewrite decide_True by set_solver.
  - destruct (decide (k = Key kv)) as [->|Hne].
    + rewrite decide_True by set_solver. by rewrite lookup_insert_eq, Hkv.
    + rewrite decide_False by set_solver. by rewrite lookup_insert_ne.
Qed.

Lemma merge_spec fs jobName n (outs : list (list KeyValue)) (g : string → string) :
  zlen outs = n → Forall validKV (concat outs) →
  (∀ i out, outs !! i = Some out → fs !! mergeName jobName (Z.of_nat i) = Some (encodeAll out)) →
  Forall (λ kv, Value kv = g (Key kv)) (concat outs) →
  merge fs jobName n = Some (<[outName jobName := foldr String.append ""
    ((λ k, line k (g k)) <$> sort_Strings (elements (keysOf (concat outs))))]> fs).
Proof.
  intros Hlen Hv Hf Hg. unfold merge.
  assert (mapM (λ i, fs !! mergeName jobName i) (seqZ 0 n) = Some (encodeAll <$> outs)) as ->.
  { apply mapM_Some. apply Forall2_same_length_lookup. split.
    - rewrite length_seqZ, length_fmap, <-Hlen. unfold zlen. lia.
    - intros i z c [-> Hi]%lookup_seqZ Hc. rewrite list_lookup_fmap in Hc.
      destruct (outs !! i) as [out|] eqn:Ho; simplify_eq/=. by apply Hf. }
  simpl. do 3 f_equal.
  rewrite decode_files by done.
  set (l := concat outs) in *.
  assert (dom (mergePairs l ∅) = keysOf l) as ->.
  { apply set_eq. intros k. rewrite elem_of_dom, (mergePairs_lookup g) by done.
    unfold keysOf. rewrite elem_of_list_to_set. case_decide; [naive_solver|].
    rewrite lookup_empty. split; [by intros []|done]. }
  apply list_fmap_ext. intros i k Hk. rewrite (mergePairs_lookup g) by done.
  rewrite decide_True; [done|]. apply list_elem_of_lookup_2 in Hk.
  unfold sort_Strings in Hk. rewrite merge_sort_Permutation in Hk.
  unfold keysOf in Hk. by rewrite elem_of_elements, elem_of_list_to_set in Hk.
Qed.

(** ** Properties *)

(** What a job asks of its input and its functions: the input files exist and
    none of them has the name of an intermediate file of the job; and, since
    the order of equal keys is up to sort.Slice, the reduce function does not
    depend on the order of the values. *)
Definition inputs_ok fs (jobName : string) (files : list string) : Prop :=
  (∀ f, f ∈ files → is_Some (fs !! f)) ∧
  (∀ f m r, f ∈ files → 0 ≤ m → 0 ≤ r → f ≠ reduceName jobName m r).

(** Keys, values and results pass through encoding/json, which keeps only valid UTF-8. *)
Definition valid_pairs (kvs : list KeyValue) (reduceF : string → list string → string) : Prop :=
  Forall validKV kvs ∧ ∀ k, k ∈ Key <$> kvs → ValidString (reduceF k (valuesOf k kvs)).

Definition order_free (reduceF : string → list string → string) : Prop :=
  ∀ k vs vs', vs ≡ₚ vs' → reduceF k vs = reduceF k vs'.

Lemma valuesOf_bucket n r k kvs :
  ihash k mod n = r → valuesOf k (bucket n r kvs) = valuesOf k kvs.
Proof.
  intros Hr. unfold valuesOf, bucket. f_equal. rewrite list_filter_filter.
  apply list_filter_iff. intros kv. split; [by intros [? _]|]. by intros <-.
Qed.

Lemma bucket_keys n r k kvs :
  k ∈ Key <$> bucket n r kvs ↔ k ∈ Key <$> kvs ∧ ihash k mod n = r.
Proof.
  unfold bucket. rewrite !list_elem_of_fmap. setoid_rewrite list_elem_of_filter. naive_solver.
Qed.

Lemma bucket_concat_imap n r (F : nat → string → list KeyValue) files :
  concat (imap (λ i f, bucket n r (F i f)) files) = bucket n r (concat (imap F files)).
Proof.
  revert F. induction files as [|f files IH]; intros F; [done|]. cbn [imap concat].
  etrans; [exact (f_equal (app (bucket n r (F 0%nat f))) (IH (F ∘ S)))|]. unfold bucket. by rewrite filter_app.
Qed.

Lemma elem_of_concat_list {A} (x : A) (ls : list (list A)) :
  x ∈ concat ls ↔ ∃ l, x ∈ l ∧ l ∈ ls.
Proof.
  induction ls as [|l ls IH]; simpl; [set_solver|]. rewrite elem_of_app, IH. set_solver.
Qed.

(** The outputs of the reduce tasks together reduce all the pairs. *)
Lemma reduces_all reduceF n kvs outs :
  0 < n → Forall2 (λ r out, reduces reduceF (bucket n r kvs) out) (seqZ 0 n) outs →
  Forall (λ kv, Value kv = reduceF (Key kv) (valuesOf (Key kv) kvs)) (concat outs) ∧
  keysOf (concat outs) = keysOf kvs.
Proof.
  intros Hn Hall. rewrite Forall2_lookup in Hall.
  assert (Hone : ∀ i out, outs !! i = Some out → reduces reduceF (bucket n (Z.of_nat i) kvs) out ∧
    Z.of_nat i < n).
  { intros i out Ho. specialize (Hall i). rewrite Ho in Hall.
    destruct (seqZ 0 n !! i) as [z|] eqn:Hz; inversion Hall; subst.
    apply lookup_seqZ in Hz as [-> ?]. split; [done|lia]. }
  split.
  - apply Forall_concat, Forall_lookup. intros i out Ho.
    destruct (Hone i out Ho) as [(_ & Hk & Hv) _]. rewrite Forall_forall in Hv |- *.
    intros kv Hkv. rewrite (Hv kv Hkv). f_equal. apply valuesOf_bucket.
    apply (bucket_keys n _ _ kvs), Hk. by apply list_elem_of_fmap_2.
  - apply set_eq. intros k. unfold keysOf. rewrite !elem_of_list_to_set. split.
    + intros (kv & -> & Hin)%list_elem_of_fmap. apply elem_of_concat_list in Hin as (out & Hin & Ho).
      apply list_elem_of_lookup in Ho as (i & Ho). destruct (Hone i out Ho) as [(_ & Hk & _) _].
      eapply bucket_keys, Hk. by apply list_elem_of_fmap_2.
    + intros Hin. set (r := ihash k mod n).
      assert (0 ≤ r < n) as Hr by (apply Z.mod_pos_bound; lia).
      specialize (Hall (Z.to_nat r)). rewrite lookup_seqZ_lt in Hall by lia.
      inversion Hall as [? out Hred Hr' Ho|]; subst. symmetry in Ho.
      replace (0 + Z.of_nat (Z.to_nat r)) with r in Hred by lia.
      destruct Hred as (_ & Hk & _). assert (k ∈ Key <$> out) as Hko.
      { apply Hk, bucket_keys. done. }
      apply list_elem_of_fmap in Hko as (kv & -> & Hkv). apply list_elem_of_fmap_2.
      apply elem_of_concat_list. exists out. split; [done|]. by eapply list_elem_of_lookup_2.
Qed.

Lemma Sequential_spec fs jobName files n mapF reduceF :
  0 < n → inputs_ok fs jobName files → order_free reduceF → valid_pairs (allPairs fs files mapF) reduceF →
  (∀ r, 0 ≤ r < n → bucket n r (allPairs fs files mapF) ≠ []) →
  ∃ fs', Sequential fs jobName files n mapF reduceF = Some fs' ∧
    fs' !! outName jobName = Some (reference (allPairs fs files mapF) reduceF).
Proof.
  intros Hn [Hex Hfree] Hperm [Hvin Hvout] Hne. unfold Sequential, run.
  set (F := λ i f, mapF i f (default "" (fs !! f))).
  set (B := λ r, imap (λ i f, bucket n r (F i f)) files).
  assert (HB : ∀ r, concat (B r) = bucket n r (allPairs fs files mapF)).
  { intros r. subst B. simpl. apply bucket_concat_imap. }
  destruct (mapPhaseSeq_spec fs jobName 0 files n mapF) as (fs1 & -> & Hmap & _); [done..|]. simpl.
  destruct (reducePhaseSeq_spec fs1 jobName (seqZ 0 n) (zlen files) reduceF B)
    as (fs2 & outs & -> & Hred & _); [apply NoDup_seqZ| |done|].
  { intros r Hr%elem_of_seqZ. split_and!.
    - unfold zlen, B. by rewrite length_imap.
    - rewrite HB. rewrite Forall_forall in Hvin |- *. intros kv [_ Hkv]%list_elem_of_filter. by apply Hvin.
    - rewrite HB. apply Hne. lia.
    - intros i kvs Hi. unfold B in Hi. rewrite list_lookup_imap in Hi.
      destruct (files !! i) as [f|] eqn:Hf; simplify_eq/=. apply (Hmap i f r Hf). lia. }
  simpl. destruct (reduces_all reduceF n (allPairs fs files mapF) outs) as [Hval Hkeys]; [done| |].
  { eapply Forall2_impl; [exact Hred|]. intros r out [Hr _]. by rewrite <-HB. }
  rewrite (merge_spec fs2 jobName n outs (λ k, reduceF k (valuesOf k (allPairs fs files mapF)))).
  - eexists. split; [done|]. rewrite lookup_insert_eq, Hkeys. done.
  - apply Forall2_length in Hred. rewrite length_seqZ in Hred. unfold zlen. lia.
  - rewrite Forall_forall in Hval, Hvin |- *. intros kv Hkv.
    assert (Key kv ∈ Key <$> allPairs fs files mapF) as Hin.
    { assert (Key kv ∈ keysOf (concat outs)) as Hk by (apply elem_of_list_to_set; by apply list_elem_of_fmap_2).
      rewrite Hkeys in Hk. by apply elem_of_list_to_set in Hk. }
    split; [|rewrite (Hval kv Hkv); by apply Hvout].
    apply list_elem_of_fmap in Hin as (kv' & -> & Hin). by apply Hvin.
  - intros i out Ho. rewrite Forall2_lookup in Hred. specialize (Hred i). rewrite Ho in Hred.
    destruct (seqZ 0 n !! i) as [z|] eqn:Hz; inversion Hred as [? ? [_ Hf]|]; subst.
    by apply lookup_seqZ in Hz as [-> _].
  - done.
Qed.
(** C6: A sequential job writes exactly the reference output: one line per
    distinct key in order, with the reduction of all the values of that key.
    This holds for a positive number of reduce tasks, input files that exist and do not
    have the name of an intermediate file, a reduce function that does not depend on the order of
    the values, keys, values and results that are valid UTF-8, and when every reduce task gets at
    least one pair. The map function may return its pairs in another order at every call. *)
Theorem sequential_reference fs jobName files n mapF reduceF :
  0 < n → inputs_ok fs jobName files → order_free reduceF → valid_pairs (allPairs fs files mapF) reduceF →
  (∀ r, 0 ≤ r < n → bucket n r (allPairs fs files mapF) ≠ []) →
  ∃ fs', Sequential fs jobName files n mapF reduceF = Some fs' ∧
    fs' !! outName jobName = Some (reference (allPairs fs files mapF) reduceF).
Proof. apply Sequential_spec. Qed.
End Spec.
