(* ===== verification/Master.v ===== *)
(** * Workers and the master: mapreduce/worker.go and mapreduce/master.go

    The state of a worker and its RPC handlers, the accept loop of RunWorker,
    the master's registration list and the goroutine that forwards it, and the
    effect of the tasks of one phase on the file system whatever the order in
    which the workers complete them. Here a call either runs the
    handler or fails; the goroutines and sockets in between are in Distributed.v. *)

From S2P Require Import Prelude GoStrings Json Schedule MapReduce MapReduceSpec.

(** ** Workers *)

Record Parallelism := mkParallelism { now : Z; max : Z }.

(** The fields of a worker that change; [nRPC] is the number of connections it
    still accepts. *)
Record WorkerState := mkWorker {
  wname : string;
  nRPC : Z;
  nTasks : Z;
  concurrent : Z;
}.

(** DoTask up to the call of doMap or doReduce, lines 44-67: the counters, the
    check that no other task runs, and the shared parallelism record; [true]
    when it pauses for a second. [None] is the [log.Fatal] of line 53. *)
Definition doTaskBegin (wk : WorkerState) (p : option Parallelism)
    : option (WorkerState * option Parallelism * bool) :=
  let wk := mkWorker (wname wk) (nRPC wk) (nTasks wk + 1) (concurrent wk + 1) in
  let nc := concurrent wk in
  if decide (nc > 1) then None
  else match p with
       | None => Some (wk, None, false)
       | Some q =>
           let n := now q + 1 in
           let m := if decide (n > max q) then n else max q in
           Some (wk, Some (mkParallelism n m), bool_decide (m < 2))
       end.

(** DoTask after the task, lines 82-90. *)
Definition doTaskEnd (wk : WorkerState) (p : option Parallelism)
    : WorkerState * option Parallelism :=
  (mkWorker (wname wk) (nRPC wk) (nTasks wk) (concurrent wk - 1),
   (λ q, mkParallelism (now q - 1) (max q)) <$> p).

Section Tasks.
Context `{codec : !KVCodec} `{sorter : !SortByKey}.
Context (mapF : MapFn) (reduceF : string → list string → string).
Implicit Types (fs : FS).

(** The switch of lines 75-80. *)
Definition taskEffect fs (arg : DoTaskArgs) : option FS :=
  match Phase arg with
  | mapPhase =>
      doMap fs (JobName arg) (TaskNumber arg) (File arg) (NumOtherPhase arg) mapF
  | reducePhase =>
      doReduce fs (JobName arg) (TaskNumber arg) (mergeName (JobName arg) (TaskNumber arg))
        (NumOtherPhase arg) reduceF
  end.

Definition DoTask (wk : WorkerState) (p : option Parallelism) fs (arg : DoTaskArgs)
    : option (WorkerState * option Parallelism * FS) :=
  let* '(wk, p, _) := doTaskBegin wk p in
  let* fs := taskEffect fs arg in
  let '(wk, p) := doTaskEnd wk p in
  Some (wk, p, fs).

End Tasks.

(** A task with the map function as it behaves in that task, and the tasks that succeed in a
    phase, in the order in which they run. *)
Definition numbered `{codec : !KVCodec} `{sorter : !SortByKey} (mapF : nat → MapFn) (reduceF : string → list string → string)
    (fs : FS) (arg : DoTaskArgs) : option FS :=
  taskEffect (mapF (Z.to_nat (TaskNumber arg))) reduceF fs arg.

Fixpoint runTasks `{codec : !KVCodec} `{sorter : !SortByKey} (mapF : nat → MapFn) (reduceF : string → list string → string)
    (fs : FS) (args : list DoTaskArgs) : option FS :=
  match args with
  | [] => Some fs
  | arg :: args => let* fs := numbered mapF reduceF fs arg in runTasks mapF reduceF fs args
  end.

(** Shutdown: the reply and the number of connections left. *)
Definition Shutdown (wk : WorkerState) : WorkerState * Z :=
  (mkWorker (wname wk) 1 (nTasks wk) (concurrent wk), nTasks wk).

(** The loop of RunWorker, lines 142-158, between two calls of Accept: the
    connection is counted and served and the loop ends when none is left. An
    error ends it too. *)
Inductive LoopState := Accepting | Closed.

Definition loopCheck (wk : WorkerState) : LoopState :=
  if decide (nRPC wk = 0) then Closed else Accepting.

Definition onAccept (wk : WorkerState) (err : bool) : WorkerState * LoopState :=
  if err then (wk, Closed)
  else
    let wk := mkWorker (wname wk) (nRPC wk - 1) (nTasks wk) (concurrent wk) in
    (wk, loopCheck wk).

(** The connections served out of [k] that arrive without error. *)
Fixpoint serve (wk : WorkerState) (l : LoopState) (k : nat) : WorkerState * nat :=
  match l, k with
  | Accepting, S k =>
      let '(wk, l) := onAccept wk false in
      let '(wk, n) := serve wk l k in (wk, S n)
  | _, _ => (wk, O)
  end.

(** ** The master *)

Record Master := mkMaster {
  address : string;
  workers : list string;
  stats : list Z;
}.

Definition newMaster (master : string) : Master := mkMaster master [] [].

Definition Register (mr : Master) (worker : string) : Master :=
  mkMaster (address mr) (workers mr ++ [worker]) (stats mr).

(** One turn of the loop of forwardRegistrations with counter [i]: the worker
    it sends to the channel, if there is a new one. *)
Definition forwardTurn (mr : Master) (i : Z) : option (string * Z) :=
  if decide (zlen (workers mr) > i) then
    let* w := go_index (workers mr) i in Some (w, i + 1)
  else None.

(** An interleaving of registrations and turns of the loop. *)
Inductive MEvent := MRegister (w : string) | MForward.

Fixpoint forward (mr : Master) (i : Z) (es : list MEvent) : Master * Z * list string :=
  match es with
  | [] => (mr, i, [])
  | MRegister w :: es => forward (Register mr w) i es
  | MForward :: es =>
      match forwardTurn mr i with
      | Some (w, i) => let '(mr, i, sent) := forward mr i es in (mr, i, w :: sent)
      | None => forward mr i es
      end
  end.

(** killWorkers: [call w] is the number of tasks worker [w] replies, or [None]
    when the call fails. *)
Definition killWorkers (mr : Master) (call : string → option Z) : list Z :=
  omap call (workers mr).

(** The [finish] function of Distributed. *)
Definition collectStats (mr : Master) (call : string → option Z) : Master :=
  mkMaster (address mr) (workers mr) (killWorkers mr call).

(** ** Tasks in any order *)

(** Steps that each lay their own files over the file system commute. *)
Section Overlay.
Context {T : Type} (step : FS → T → option FS) (W : T → FS) (I : FS → Prop) (V : T → Prop).
Hypothesis Hstep : ∀ fs t, I fs → V t → step fs t = Some (W t ∪ fs).
Hypothesis Hinv : ∀ fs t, I fs → V t → I (W t ∪ fs).
Hypothesis Hdisj : ∀ t t', V t → V t' → t = t' ∨ W t ##ₘ W t'.

Fixpoint runAll (fs : FS) (ts : list T) : option FS :=
  match ts with [] => Some fs | t :: ts => let* fs := step fs t in runAll fs ts end.

Lemma runAll_perm ts ts' :
  ts ≡ₚ ts' → ∀ fs, I fs → Forall V ts → runAll fs ts = runAll fs ts'.
Proof.
  induction 1 as [|t ts ts' _ IH|t t' ts|ts1 ts2 ts3 Hp IH1 _ IH2]; intros fs Hi Hv; simpl.
  - done.
  - inversion Hv; subst. rewrite Hstep by done. simpl. apply IH; [by apply Hinv|done].
  - inversion Hv as [|? ? Ht Hv']; subst. inversion Hv' as [|? ? Ht' _]; subst.
    rewrite !Hstep by done. simpl. rewrite !Hstep by auto. simpl. f_equal.
    destruct (Hdisj t t' Ht' Ht) as [->|Hd]; [done|].
    by rewrite !map_union_assoc, (map_union_comm (W t)).
  - rewrite IH1 by done. apply IH2; [done|]. by rewrite <-Hp.
Qed.
End Overlay.

Section Phases.
Context `{codec : !KVCodec} `{sorter : !SortByKey}.
Context (mapF : nat → MapFn) (reduceF : string → list string → string).
Context (j : Job) (fs0 : FS).
Implicit Types (fs : FS).

Lemma runTasks_runAll fs args :
  runTasks mapF reduceF fs args = runAll (numbered mapF reduceF) fs args.
Proof.
  revert fs. induction args as [|a args IH]; intros fs; [done|]. simpl.
  destruct (numbered mapF reduceF fs a); [apply IH|done].
Qed.

(** The tasks of the job are the calls schedule makes. *)
Definition is_task (a : DoTaskArgs) : Prop :=
  0 ≤ TaskNumber a < ntasks j ∧ taskArg j (TaskNumber a) = Some a.

Lemma taskArg_shape t a :
  taskArg j t = Some a →
  JobName a = jobName j ∧ Phase a = phase j ∧ TaskNumber a = t ∧ NumOtherPhase a = n_other j ∧
  (phase j = mapPhase → go_index (mapFiles j) t = Some (File a)).
Proof.
  unfold taskArg. intros (f & Hf & Ha)%obind_Some. simplify_eq/=. split_and!; try done.
  intros Hp. by rewrite decide_True in Hf.
Qed.

Lemma is_task_inj a b : is_task a → is_task b → TaskNumber a = TaskNumber b → a = b.
Proof. intros [_ Ha] [_ Hb] E. rewrite E in Ha. congruence. Qed.

(** *** Map tasks *)

(** The map function in the task of a call. *)
Definition mapOf (a : DoTaskArgs) : MapFn := mapF (Z.to_nat (TaskNumber a)).

Definition mapFilesOf (a : DoTaskArgs) : FS :=
  list_to_map ((λ r, (reduceName (jobName j) (TaskNumber a) r,
    encodeAll (bucket (n_other j) r (mapOf a (File a) (default "" (fs0 !! File a))))))
      <$> seqZ 0 (n_other j)).

Lemma mapFilesOf_lookup a f v :
  0 ≤ TaskNumber a → mapFilesOf a !! f = Some v ↔
  ∃ r, 0 ≤ r < n_other j ∧ f = reduceName (jobName j) (TaskNumber a) r ∧
    v = encodeAll (bucket (n_other j) r (mapOf a (File a) (default "" (fs0 !! File a)))).
Proof.
  intros Ha. unfold mapFilesOf. rewrite <-elem_of_list_to_map.
  - rewrite list_elem_of_fmap. setoid_rewrite elem_of_seqZ. split.
    + intros (r & ? & ?). simplify_eq. exists r. split; [lia|done].
    + intros (r & ? & -> & ->). exists r. split; [done|lia].
  - rewrite <-list_fmap_compose. apply NoDup_fmap_2_strong; [|apply NoDup_seqZ].
    intros r r' _ _ [_ ?]%reduceName_inj; done.
Qed.

Lemma map_effect fs a :
  phase j = mapPhase → 0 < n_other j → is_task a →
  (∀ f, f ∈ mapFiles j → fs !! f = fs0 !! f ∧ is_Some (fs0 !! f)) →
  numbered mapF reduceF fs a = Some (mapFilesOf a ∪ fs).
Proof.
  intros Hp Hn [Hr Ha] Hf. destruct (taskArg_shape _ _ Ha) as (Hj & Hph & _ & Hno & Hfile).
  specialize (Hfile Hp). unfold numbered, taskEffect. fold (mapOf a). rewrite Hph, Hp, Hj, Hno.
  apply go_index_Some in Hfile as [_ Hfile%list_elem_of_lookup_2].
  destruct (Hf _ Hfile) as [Hsame [c Hc]].
  destruct (doMap_spec fs (jobName j) (TaskNumber a) (File a) (n_other j) (mapOf a) c)
    as (fs' & -> & Hw & Hframe); [done|lia|congruence|].
  f_equal. apply map_eq. intros f. destruct (mapFilesOf a !! f) as [v|] eqn:E.
  - rewrite (lookup_union_Some_l _ _ _ _ E). apply mapFilesOf_lookup in E as (r & ? & -> & ->); [|lia].
    rewrite Hw by done. by rewrite Hc.
  - rewrite lookup_union_r by done. apply Hframe. intros r Hr' ->.
    assert (mapFilesOf a !! reduceName (jobName j) (TaskNumber a) r = Some (encodeAll (bucket
      (n_other j) r (mapOf a (File a) (default "" (fs0 !! File a)))))) as Hs; [|congruence].
    apply mapFilesOf_lookup; [lia|]. by exists r.
Qed.

(** Whatever the order of the map tasks, the files end up the same. *)
Lemma map_tasks_perm args args' fs :
  phase j = mapPhase → 0 < n_other j → args ≡ₚ args' → Forall is_task args →
  fs = fs0 → inputs_ok fs0 (jobName j) (mapFiles j) →
  runTasks mapF reduceF fs args = runTasks mapF reduceF fs args'.
Proof.
  intros Hp Hn Hperm Hall -> [Hex Hfree]. rewrite !runTasks_runAll.
  apply (runAll_perm (numbered mapF reduceF) mapFilesOf
    (λ fs, ∀ f, f ∈ mapFiles j → fs !! f = fs0 !! f ∧ is_Some (fs0 !! f)) is_task); try done.
  - intros fs t Hi Ht. by apply map_effect.
  - intros fs t Hi [Ht _] f Hf. destruct (Hi f Hf). split; [|done].
    rewrite lookup_union_r; [done|]. apply eq_None_not_Some. intros [v Hv].
    apply mapFilesOf_lookup in Hv as (r & ? & -> & _); [|lia].
    eapply Hfree; [exact Hf| | |reflexivity]; lia.
  - intros t t' Ht Ht'. destruct (decide (TaskNumber t = TaskNumber t')) as [E|E].
    + left. by apply is_task_inj.
    + right. apply map_disjoint_spec. intros f v v' Hv Hv'. destruct Ht, Ht'.
      apply mapFilesOf_lookup in Hv as (r & ? & -> & _); [|lia].
      apply mapFilesOf_lookup in Hv' as (r' & ? & Heq & _); [|lia].
      apply reduceName_inj in Heq as [? _]; [done|lia..].
  - intros f Hf. split; [done|]. by apply Hex.
Qed.

(** The map phase of Sequential runs the same tasks in the order of the files. *)
Lemma mapPhaseSeq_runTasks fs i files args :
  phase j = mapPhase → 0 ≤ i → drop (Z.to_nat i) (mapFiles j) = files →
  Some <$> args = taskArg j <$> seqZ i (zlen files) →
  mapPhaseSeq fs (jobName j) i files (n_other j) mapF = runTasks mapF reduceF fs args.
Proof.
  intros Hp. revert fs i args. induction files as [|f files IH]; intros fs i args Hi Hd Hargs.
  { by destruct args. }
  change (zlen (f :: files)) with (Z.of_nat (S (length files))) in Hargs.
  rewrite (seqZ_cons i) in Hargs by lia.
  replace (Z.pred (Z.of_nat (S (length files)))) with (zlen files) in Hargs by (unfold zlen; lia).
  destruct args as [|a args]; [done|]. injection Hargs as Ha Hargs. symmetry in Ha.
  destruct (taskArg_shape _ _ Ha) as (Hj & Hph & Ht & Hno & Hfile). specialize (Hfile Hp).
  assert (File a = f) as Hf.
  { apply go_index_Some in Hfile as [_ Hfile]. apply (f_equal (.!! 0%nat)) in Hd.
    rewrite lookup_drop, Nat.add_0_r in Hd. simpl in Hd. congruence. }
  simpl. unfold numbered at 1, taskEffect at 1. rewrite Hph, Hp, Hj, Ht, Hno, Hf.
  destruct (doMap fs (jobName j) i f (n_other j) (mapF (Z.to_nat i))) as [fs1|]; simpl; [|done].
  apply IH; [lia| |done]. apply (f_equal (drop 1)) in Hd. rewrite drop_drop in Hd.
  change (drop 1 (f :: files)) with files in Hd. rewrite <-Hd. f_equal. lia.
Qed.

(** *** Reduce tasks *)

Definition reduceFileOf (a : DoTaskArgs) : FS :=
  match sortByKey (default [] (readPairs fs0 (jobName j) (TaskNumber a) (n_other j))) with
  | [] => ∅
  | (kv :: _) as kvs =>
      {[mergeName (jobName j) (TaskNumber a) := encodeAll (reduceLoop reduceF (Key kv) [] kvs)]}
  end.

Lemma reduceFileOf_lookup a f v :
  reduceFileOf a !! f = Some v → f = mergeName (jobName j) (TaskNumber a).
Proof. unfold reduceFileOf. case_match; [done|]. by intros [-> _]%lookup_singleton_Some. Qed.

(** The intermediate files are those of [fs0], and all there. *)
Definition same_inputs fs : Prop :=
  ∀ i r, 0 ≤ i < n_other j → 0 ≤ r < ntasks j →
    fs !! reduceName (jobName j) i r = fs0 !! reduceName (jobName j) i r ∧
    is_Some (fs0 !! reduceName (jobName j) i r).

Lemma reduce_effect fs a :
  phase j = reducePhase → is_task a → same_inputs fs →
  numbered mapF reduceF fs a = Some (reduceFileOf a ∪ fs).
Proof.
  intros Hp [Hr Ha] Hf. destruct (taskArg_shape _ _ Ha) as (Hj & Hph & _ & Hno & _).
  unfold numbered, taskEffect. rewrite Hph, Hp, Hj, Hno. unfold doReduce, reduceFileOf, readPairs.
  assert (Hm : mapM (λ i, fs !! reduceName (jobName j) i (TaskNumber a)) (seqZ 0 (n_other j)) =
    mapM (λ i, fs0 !! reduceName (jobName j) i (TaskNumber a)) (seqZ 0 (n_other j))).
  { apply Forall_mapM_ext, Forall_forall. intros i Hi%elem_of_seqZ. apply Hf; lia. }
  rewrite Hm. destruct (mapM_is_Some_2 (λ i, fs0 !! reduceName (jobName j) i (TaskNumber a))
    (seqZ 0 (n_other j))) as [cs Hcs].
  { apply Forall_forall. intros i Hi%elem_of_seqZ. apply Hf; lia. }
  rewrite Hcs. simpl. case_match.
  - by rewrite map_empty_union.
  - by rewrite <-insert_union_singleton_l.
Qed.

Lemma reduce_tasks_perm args args' fs :
  phase j = reducePhase → args ≡ₚ args' → Forall is_task args →
  fs = fs0 → same_inputs fs0 →
  runTasks mapF reduceF fs args = runTasks mapF reduceF fs args'.
Proof.
  intros Hp Hperm Hall -> Hin. rewrite !runTasks_runAll.
  apply (runAll_perm (numbered mapF reduceF) reduceFileOf same_inputs is_task); try done.
  - intros fs t Hi Ht. by apply reduce_effect.
  - intros fs t Hi Ht i r Hir Hr. destruct (Hi i r Hir Hr). split; [|done].
    rewrite lookup_union_r; [done|]. apply eq_None_not_Some. intros [v Hv%reduceFileOf_lookup].
    apply reduceName_mergeName in Hv; [done|lia].
  - intros t t' Ht Ht'. destruct (decide (TaskNumber t = TaskNumber t')) as [E|E].
    + left. by apply is_task_inj.
    + right. apply map_disjoint_spec. intros f v v' ->%reduceFileOf_lookup Hv%reduceFileOf_lookup.
      by apply mergeName_inj in Hv.
Qed.

Lemma reducePhaseSeq_runTasks fs tasks args :
  phase j = reducePhase → Some <$> args = taskArg j <$> tasks →
  reducePhaseSeq fs (jobName j) tasks (n_other j) reduceF = runTasks mapF reduceF fs args.
Proof.
  intros Hp. revert fs args. induction tasks as [|t tasks IH]; intros fs args Hargs.
  { by destruct args. }
  destruct args as [|a args]; [done|]. injection Hargs as Ha Hargs. symmetry in Ha.
  destruct (taskArg_shape _ _ Ha) as (Hj & Hph & Ht & Hno & _).
  simpl. unfold numbered at 1, taskEffect at 1. rewrite Hph, Hp, Hj, Ht, Hno.
  destruct (doReduce fs (jobName j) t _ (n_other j) reduceF) as [fs1|]; simpl; [|done].
  by apply IH.
Qed.

(** The calls of a phase in the order of the tasks. *)
Lemma tasks_in_order :
  ∃ args, Some <$> args = taskArg j <$> seqZ 0 (ntasks j) ∧ Forall is_task args.
Proof.
  assert (Hall : ∀ t, t ∈ seqZ 0 (ntasks j) → ∃ a, taskArg j t = Some a ∧ is_task a).
  { intros t Ht%elem_of_seqZ. destruct (taskArg_total j t) as (a & Ha & E); [lia|].
    exists a. split; [done|]. split; rewrite E; [lia|done]. }
  induction (seqZ 0 (ntasks j)) as [|t ts IH]; [by exists []|].
  destruct IH as (args & Hargs & Hf); [set_solver|]. destruct (Hall t) as (a & Ha & Hia); [set_solver|].
  exists (a :: args). split; [|by constructor]. simpl. rewrite Ha. f_equal. exact Hargs.
Qed.

Lemma completed_tasks es s args :
  schedule j (schedInit j) es = SNext s → returned s = true →
  args ≡ₚ completed j (schedInit j) es →
  ∃ args', Some <$> args' = taskArg j <$> seqZ 0 (ntasks j) ∧ args ≡ₚ args' ∧ Forall is_task args.
Proof.
  intros Hs Hr Hp. destruct tasks_in_order as (args' & Ha' & Hf).
  pose proof (completed_all _ _ _ Hs Hr) as Hc. rewrite <-Ha', <-Hp in Hc.
  assert (args ≡ₚ args') as Hpp.
  { apply (fmap_Permutation (default (mkDoTaskArgs "" "" mapPhase 0 0))) in Hc.
    rewrite <-!list_fmap_compose in Hc. unfold compose in Hc. simpl in Hc.
    by rewrite !list_fmap_id in Hc. }
  exists args'. split_and!; [done|done|]. by rewrite Hpp.
Qed.
End Phases.

(** ** Properties *)

(** A distributed job computes what a sequential one does: whatever calls
    fail and in whatever order the map tasks and then the reduce tasks succeed,
    once schedule has returned from both phases the merged files are those of
    Sequential. *)
Theorem distributed_equals_sequential `{codec : !KVCodec} `{sorter : !SortByKey}
    (mapF : nat → MapFn) (reduceF : string → list string → string)
    (fs : FS) (name : string) (files : list string) (n : nat) es1 s1 args1 es2 s2 args2 :
  let j1 := mkJob name files n mapPhase in
  let j2 := mkJob name files n reducePhase in
  inputs_ok fs name files →
  schedule j1 (schedInit j1) es1 = SNext s1 → returned s1 = true →
  schedule j2 (schedInit j2) es2 = SNext s2 → returned s2 = true →
  args1 ≡ₚ completed j1 (schedInit j1) es1 → args2 ≡ₚ completed j2 (schedInit j2) es2 →
  run fs name (Z.of_nat n) (λ phase fs, runTasks mapF reduceF fs
    (match phase with mapPhase => args1 | reducePhase => args2 end)) =
  Sequential fs name files (Z.of_nat n) mapF reduceF.
Proof.
  intros j1 j2 Hin Hs1 Hr1 Hs2 Hr2 Hp1 Hp2. unfold Sequential, run.
  destruct (completed_tasks j1 es1 s1 args1 Hs1 Hr1 Hp1) as (o1 & Ho1 & Hp1' & Hf1).
  destruct (completed_tasks j2 es2 s2 args2 Hs2 Hr2 Hp2) as (o2 & Ho2 & Hp2' & Hf2).
  assert (Hn : 0 < Z.of_nat n).
  { destruct (schedule_inv _ _ _ _ (schedInit_ok j2) Hs2) as ([Hm _] & _).
    by apply (sk_returned _ _ Hm) in Hr2 as [? _]. }
  rewrite (map_tasks_perm mapF reduceF j1 fs args1 o1 fs) by done.
  rewrite <-(mapPhaseSeq_runTasks mapF reduceF j1 fs 0 files o1) by done.
  change (n_other j1) with (Z.of_nat n). change (jobName j1) with name.
  destruct (mapPhaseSeq_spec fs name 0 files (Z.of_nat n) mapF) as (fs1 & -> & Hmap & _);
    [done|lia|apply Hin..|]. simpl.
  rewrite (reduce_tasks_perm mapF reduceF j2 fs1 args2 o2 fs1); [|done..|].
  - by rewrite <-(reducePhaseSeq_runTasks mapF reduceF j2 fs1 (seqZ 0 (Z.of_nat n)) o2).
  - intros i r Hi Hr. split; [done|]. change (n_other j2) with (zlen files) in Hi.
    unfold zlen in Hi. destruct (lookup_lt_is_Some_2 files (Z.to_nat i)) as [f Hf]; [lia|].
    pose proof (Hmap (Z.to_nat i) f r Hf Hr) as Hm.
    replace (0 + Z.of_nat (Z.to_nat i)) with i in Hm by lia. change (jobName j2) with name.
    rewrite Hm. by eexists.
Qed.

Lemma forward_spec mr i es :
  0 ≤ i ≤ zlen (workers mr) →
  let '(mr', i', sent) := forward mr i es in
  i ≤ i' ≤ zlen (workers mr') ∧ (∃ l, workers mr' = workers mr ++ l) ∧
  take (Z.to_nat i) (workers mr) ++ sent = take (Z.to_nat i') (workers mr').
Proof.
  revert mr i. induction es as [|[w|] es IH]; intros mr i Hi; simpl.
  - rewrite app_nil_r. split_and!; [lia|lia|by exists []; rewrite app_nil_r|done].
  - specialize (IH (Register mr w) i). destruct (forward (Register mr w) i es) as [[mr' i'] sent].
    simpl in IH. rewrite zlen_app in IH. pose proof (zlen_nonneg [w]).
    destruct IH as (? & [l Hl] & Ht); [lia|].
    split_and!; [lia|lia|exists ([w] ++ l); by rewrite Hl, <-app_assoc|].
    rewrite <-Ht. f_equal. rewrite take_app_le; [done|]. unfold zlen in Hi. lia.
  - unfold forwardTurn. case_decide as Hgt.
    + destruct (go_index_is_Some (workers mr) i) as [w Hw]; [lia|]. rewrite Hw. simpl.
      specialize (IH mr (i + 1)). destruct (forward mr (i + 1) es) as [[mr' i'] sent].
      destruct IH as (? & ? & Ht); [lia|]. split_and!; [lia|lia|done|]. rewrite <-Ht.
      apply go_index_Some in Hw as [? Hw]. replace (Z.to_nat (i + 1)) with (S (Z.to_nat i)) by lia.
      rewrite (take_S_r _ _ _ Hw), <-app_assoc. done.
    + by apply IH.
Qed.

(** Whatever the interleaving of registrations and of the forwarding
    goroutine, the workers sent to schedule are a prefix of the registered
    workers, in order, each registration sent once. *)
Theorem forward_each_once name es mr i sent :
  forward (newMaster name) 0 es = (mr, i, sent) →
  sent = take (length sent) (workers mr) ∧ i = zlen sent ∧ (NoDup (workers mr) → NoDup sent).
Proof.
  intros H. pose proof (forward_spec (newMaster name) 0 es) as Hf. rewrite H in Hf.
  destruct Hf as (Hi & _ & Ht); [by simpl|]. simpl in Ht.
  assert (length sent = Z.to_nat i) as Hlen.
  { rewrite Ht, length_take. unfold zlen in Hi. lia. }
  rewrite Hlen. split_and!; [done|unfold zlen; lia|]. rewrite Ht. intros Hnd.
  apply (sublist_NoDup _ (workers mr)); [done|]. apply sublist_take.
Qed.

Lemma serve_count wk k :
  (serve wk (loopCheck wk) k).2 =
    if decide (0 ≤ nRPC wk) then (k `min` Z.to_nat (nRPC wk))%nat else k.
Proof.
  revert wk. induction k as [|k IH]; intros wk; unfold loopCheck.
  { case_decide; simpl; by case_decide. }
  case_decide as H0; [by rewrite H0|].
  cbn [serve onAccept]. specialize (IH (mkWorker (wname wk) (nRPC wk - 1) (nTasks wk) (concurrent wk))).
  destruct (serve _ _ k) as [wk' n]. cbn [snd nRPC] in *. rewrite IH. repeat case_decide; lia.
Qed.

(** A worker started with a positive number of RPCs accepts exactly that
    many connections and then stops; with a negative number it never stops. *)
Theorem worker_accepts wk k :
  (0 < nRPC wk → (serve wk (loopCheck wk) k).2 = (k `min` Z.to_nat (nRPC wk))%nat) ∧
  (nRPC wk < 0 → (serve wk (loopCheck wk) k).2 = k).
Proof. rewrite serve_count. split; intros; simpl; case_decide; lia. Qed.

Lemma forward_each_once_witness :
  let es := [MForward; MRegister "a"; MRegister "b"; MForward; MForward; MForward] in
  ∃ mr, forward (newMaster "m") 0 es = (mr, 2, ["a"; "b"]) ∧ NoDup ["a"; "b"].
Proof.
  intros es. destruct (forward (newMaster "m") 0 es) as [[mr i] sent] eqn:E.
  destruct (forward_each_once "m" es mr i sent E) as (_ & _ & Hnd).
  vm_compute in E. injection E as <- <- <-. eexists. split; [reflexivity|].
  apply Hnd. apply (bool_decide_unpack _). vm_compute. exact I.
Defined.

Lemma worker_accepts_witness :
  (serve (mkWorker "a" 2 0 0) (loopCheck (mkWorker "a" 2 0 0)) 5).2 = 2%nat.
Proof. apply (worker_accepts (mkWorker "a" 2 0 0) 5). reflexivity. Defined.
