(* ===== verification/Apps.v ===== *)
(** * The two MapReduce applications: main/wc.go and main/ii.go

    [Wc] and [Ii] hold the map and reduce functions of the word count and of
    the inverted index. [strings.FieldsFunc] works on the runes of the UTF-8
    decoding of the text; the table behind [unicode.IsLetter] is the parameter
    [IsLetter]. Go iterates over a map in any order, another one each time: an instance of
    [MapRange] is what one [range] statement does, and the jobs are proved right for a family
    of them, [R], with one instance for each call of the map function. *)

From S2P Require Import Prelude GoStrings Runes Json Schedule MapReduce MapReduceSpec Master.
From Stdlib Require Import Ascii.

(** ** 64-bit integers *)

Definition wrap64 (z : Z) : Z := (z + 2 ^ 63) mod 2 ^ 64 - 2 ^ 63.

Lemma wrap64_id z : int64 z → wrap64 z = z.
Proof. unfold int64, wrap64. intros. rewrite Z.mod_small; lia. Qed.

(** ** Word count *)

Module Wc.
Section Wc.
Context `{range : !MapRange} (IsLetter : Z → bool).

Definition words (contents : string) : list string :=
  FieldsFunc contents (λ c, negb (IsLetter c)).

(** Lines 26-34. *)
Definition countWords (ws : list string) : gmap string Z :=
  foldl (λ wordMap word,
    match wordMap !! word with
    | Some v => <[word := wrap64 (v + 1)]> wordMap
    | None => <[word := 1]> wordMap
    end) ∅ ws.

Definition mapF (filename contents : string) : list KeyValue :=
  (λ '(k, v), mkKV k (Itoa v)) <$> rangeMap (countWords (words contents)).

Definition reduceF (key : string) (values : list string) : string :=
  Itoa (foldl (λ count v,
    match Atoi v with Some cnt => wrap64 (count + cnt) | None => count end) 0 values).
End Wc.
End Wc.

(** ** Inverted index *)

Module Ii.
Section Ii.
Context `{range : !MapRange} (IsLetter : Z → bool).

(** Lines 24-30. *)
Definition wordSet (ws : list string) : gmap string unit :=
  foldl (λ wordMap word,
    match wordMap !! word with Some _ => wordMap | None => <[word := tt]> wordMap end) ∅ ws.

Definition mapF (document value : string) : list KeyValue :=
  (λ '(k, _), mkKV k document) <$> rangeMap (wordSet (Wc.words IsLetter value)).

(** [strings.Join(values, ",")] *)
Fixpoint join (sep : string) (l : list string) : string :=
  match l with
  | [] => ""
  | [x] => x
  | x :: l => x +:+ sep +:+ join sep l
  end.

Definition reduceF (key : string) (values : list string) : string :=
  let values := sort_Strings values in
  Itoa (zlen values) +:+ " " +:+ join "," values.
End Ii.
End Ii.

(** ** What the two applications compute *)

Definition occurrences (w : string) (ws : list string) : Z := zlen (filter (λ x, x = w) ws).

Lemma occurrences_app w ws ws' : occurrences w (ws ++ ws') = occurrences w ws + occurrences w ws'.
Proof. unfold occurrences. by rewrite filter_app, zlen_app. Qed.

Lemma occurrences_range w ws : 0 ≤ occurrences w ws ≤ zlen ws.
Proof. unfold occurrences, zlen. pose proof (length_filter (λ x, x = w) ws). lia. Qed.

Lemma occurrences_pos w ws : 0 < occurrences w ws ↔ w ∈ ws.
Proof.
  unfold occurrences, zlen. split.
  - intros Hl. destruct (filter (λ x, x = w) ws) as [|x l] eqn:E; [simpl in Hl; lia|].
    assert (x ∈ filter (λ x, x = w) ws) as Hx by (rewrite E; set_solver).
    by apply list_elem_of_filter in Hx as [-> ?].
  - intros Hw. destruct (filter (λ x, x = w) ws) as [|x l] eqn:E; [|simpl; lia].
    assert (w ∈ filter (λ x, x = w) ws) as Hx by (by apply list_elem_of_filter).
    rewrite E in Hx. set_solver.
Qed.

(** The values of one key among the pairs made from a map. *)
Lemma valuesOf_range `{range : !MapRange} {A} (g : string → A → string) (m : gmap string A) k :
  valuesOf k ((λ '(k, v), mkKV k (g k v)) <$> rangeMap m) =
  match m !! k with Some v => [g k v] | None => [] end.
Proof.
  assert (Hp : valuesOf k ((λ '(k, v), mkKV k (g k v)) <$> rangeMap m) ≡ₚ
    match m !! k with Some v => [g k v] | None => [] end).
  { rewrite rangeMap_perm. induction m as [|i x m Hi IH] using map_ind.
    - by rewrite map_to_list_empty.
    - rewrite map_to_list_insert by done. rewrite fmap_cons. unfold valuesOf in *.
      destruct (decide (i = k)) as [->|Hne].
      + rewrite filter_cons_True by done. rewrite lookup_insert_eq. rewrite fmap_cons, IH, Hi. done.
      + rewrite filter_cons_False by done. rewrite lookup_insert_ne by done. exact IH. }
  destruct (m !! k); [by apply Permutation_singleton_r in Hp|by apply Permutation_nil_r in Hp].
Qed.

Lemma keys_range `{range : !MapRange} {A} (g : string → A → string) (m : gmap string A) k :
  k ∈ Key <$> ((λ '(k, v), mkKV k (g k v)) <$> rangeMap m) ↔ is_Some (m !! k).
Proof.
  rewrite <-list_fmap_compose, list_elem_of_fmap. setoid_rewrite rangeMap_perm. setoid_rewrite elem_of_map_to_list'.
  split; [by intros ([k' v] & -> & Hk); eexists|]. intros [v Hv]. by exists (k, v).
Qed.

(** The pairs of a job in which the pairs of a file do not depend on the call. *)
Lemma valuesOf_allPairs fs files (mapF : nat → MapFn) k (V : string → list string) :
  (∀ i f, f ∈ files → valuesOf k (mapF i f (default "" (fs !! f))) = V f) →
  valuesOf k (allPairs fs files mapF) = files ≫= V.
Proof.
  unfold allPairs. revert mapF. induction files as [|f files IH]; intros mapF HV; [done|].
  cbn [imap concat]. rewrite bind_cons, valuesOf_app, HV by set_solver. f_equal.
  apply (IH (mapF ∘ S)). intros i g Hg. apply (HV (S i)). set_solver.
Qed.

Lemma keysOf_allPairs fs files (mapF : nat → MapFn) (W : string → list string) :
  (∀ i f k, f ∈ files → k ∈ Key <$> mapF i f (default "" (fs !! f)) ↔ k ∈ W f) →
  keysOf (allPairs fs files mapF) = list_to_set (files ≫= W).
Proof.
  intros HW. apply set_eq. intros k. unfold keysOf, allPairs. rewrite !elem_of_list_to_set. revert mapF HW.
  induction files as [|f files IH]; intros mapF HW; [done|]. cbn [imap concat].
  rewrite bind_cons, fmap_app, !elem_of_app, HW by set_solver. f_equiv.
  apply (IH (mapF ∘ S)). intros i g k' Hg. apply (HW (S i)). set_solver.
Qed.

Lemma Forall_allPairs (P : KeyValue → Prop) fs files (mapF : nat → MapFn) :
  (∀ i f, f ∈ files → Forall P (mapF i f (default "" (fs !! f)))) → Forall P (allPairs fs files mapF).
Proof.
  unfold allPairs. revert mapF. induction files as [|f files IH]; intros mapF HP; [constructor|].
  cbn [imap concat]. apply Forall_app. split; [apply HP; set_solver|].
  apply (IH (mapF ∘ S)). intros i g Hg. apply (HP (S i)). set_solver.
Qed.

Section Counting.
Context (R : nat → MapRange) (IsLetter : Z → bool).

(** All the words of the input. *)
Definition allWords (fs : FS) (files : list string) : list string :=
  f ← files; Wc.words IsLetter (default "" (fs !! f)).

(** The map function of the word count over its calls. *)
Definition wcMap (i : nat) : MapFn := Wc.mapF (range := R i) IsLetter.

Lemma countWords_lookup ws w :
  zlen ws < 2 ^ 63 →
  Wc.countWords ws !! w =
    if decide (0 < occurrences w ws) then Some (occurrences w ws) else None.
Proof.
  induction ws as [|x ws IH] using rev_ind; intros Hlen; [done|].
  rewrite zlen_app in Hlen. pose proof (zlen_nonneg [x]). specialize (IH ltac:(lia)).
  unfold Wc.countWords. rewrite foldl_app. fold (Wc.countWords ws). simpl.
  rewrite occurrences_app. pose proof (occurrences_range w ws). pose proof (occurrences_range x ws).
  change (zlen [x]) with 1 in *. destruct (decide (x = w)) as [->|Hne].
  - replace (occurrences w [w]) with 1 by (unfold occurrences; by rewrite filter_cons_True).
    rewrite decide_True by lia. rewrite IH. case_decide; rewrite lookup_insert_eq.
    + rewrite wrap64_id; [done|]. unfold int64. lia.
    + f_equal. lia.
  - replace (occurrences w [x]) with 0 by (unfold occurrences; by rewrite filter_cons_False).
    rewrite Z.add_0_r, <-IH. by destruct (Wc.countWords ws !! x); rewrite lookup_insert_ne.
Qed.

Lemma words_le fs files f :
  f ∈ files → zlen (Wc.words IsLetter (default "" (fs !! f))) ≤ zlen (allWords fs files).
Proof.
  unfold allWords. induction files as [|g files IH]; [by intros ?%elem_of_nil|].
  rewrite bind_cons, zlen_app. intros [->|Hf]%elem_of_cons.
  - pose proof (zlen_nonneg (files ≫= λ f, Wc.words IsLetter (default "" (fs !! f)))). lia.
  - pose proof (zlen_nonneg (Wc.words IsLetter (default "" (fs !! g)))). specialize (IH Hf). lia.
Qed.

(** The pairs of a file with a given key. *)
Definition countOf (w c : string) : list string :=
  let n := occurrences w (Wc.words IsLetter c) in if decide (0 < n) then [Itoa n] else [].

Lemma wc_valuesOf i w f c :
  zlen (Wc.words IsLetter c) < 2 ^ 63 → valuesOf w (wcMap i f c) = countOf w c.
Proof.
  intros Hlen. unfold wcMap, Wc.mapF. rewrite (valuesOf_range (λ _, Itoa)), countWords_lookup by done.
  unfold countOf. by case_decide.
Qed.

(** One step of the summing loop of [reduceF]. *)
Definition addCount (count : Z) (v : string) : Z :=
  match Atoi v with Some cnt => wrap64 (count + cnt) | None => count end.

Lemma wc_sum w (cs : list string) acc :
  0 ≤ acc → acc + zlen (cs ≫= Wc.words IsLetter) < 2 ^ 63 →
  foldl addCount acc (cs ≫= countOf w) = acc + occurrences w (cs ≫= Wc.words IsLetter).
Proof.
  revert acc. induction cs as [|c cs IH]; intros acc Hacc Hlen; [symmetry; apply Z.add_0_r|].
  rewrite !bind_cons, occurrences_app in *. rewrite zlen_app in Hlen.
  pose proof (zlen_nonneg (cs ≫= Wc.words IsLetter)).
  pose proof (occurrences_range w (Wc.words IsLetter c)).
  rewrite foldl_app. unfold countOf at 1. case_decide; simpl.
  - unfold addCount at 2. rewrite Atoi_Itoa by (unfold int64; lia).
    rewrite wrap64_id by (unfold int64; lia). rewrite IH; lia.
  - rewrite IH; lia.
Qed.

Lemma wc_reduce fs files w :
  zlen (allWords fs files) < 2 ^ 63 →
  Wc.reduceF w (valuesOf w (allPairs fs files wcMap)) = Itoa (occurrences w (allWords fs files)).
Proof.
  intros Hlen. unfold Wc.reduceF. fold addCount. f_equal.
  rewrite (valuesOf_allPairs _ _ _ _ (λ f, countOf w (default "" (fs !! f)))).
  - pose proof (wc_sum w ((λ f, default "" (fs !! f)) <$> files) 0) as Hs.
    rewrite !list_fmap_bind in Hs. apply Hs; [lia|exact Hlen].
  - intros i f Hf. apply wc_valuesOf. pose proof (words_le fs files f Hf). lia.
Qed.

Lemma wc_keys fs files :
  zlen (allWords fs files) < 2 ^ 63 → keysOf (allPairs fs files wcMap) = list_to_set (allWords fs files).
Proof.
  intros Hlen. apply keysOf_allPairs. intros i f k Hf. unfold wcMap, Wc.mapF. rewrite (keys_range (λ _, Itoa)).
  rewrite countWords_lookup by (pose proof (words_le fs files f Hf); lia). rewrite <-occurrences_pos.
  by case_decide; split.
Qed.

Lemma wrap64_add a b : wrap64 (wrap64 a + b) = wrap64 (a + b).
Proof.
  unfold wrap64. f_equal.
  replace ((a + 2 ^ 63) mod 2 ^ 64 - 2 ^ 63 + b + 2 ^ 63) with ((a + 2 ^ 63) mod 2 ^ 64 + b) by lia.
  rewrite Z.add_mod_idemp_l by lia. f_equal. lia.
Qed.

Lemma addCount_comm acc v v' : addCount (addCount acc v') v = addCount (addCount acc v) v'.
Proof.
  unfold addCount. destruct (Atoi v), (Atoi v'); try done. rewrite !wrap64_add. f_equal. lia.
Qed.

Lemma wc_order_free : order_free Wc.reduceF.
Proof.
  intros k vs vs' Hp. unfold Wc.reduceF. f_equal. fold addCount. generalize 0.
  induction Hp as [|v vs vs' _ IH|v v' vs|vs1 vs2 vs3 _ IH1 _ IH2]; intros acc; simpl.
  - done.
  - apply IH.
  - f_equal. apply addCount_comm.
  - by rewrite IH1.
Qed.
End Counting.

Section Indexing.
Context (R : nat → MapRange) (IsLetter : Z → bool).

(** The map function of the inverted index over its calls. *)
Definition iiMap (i : nat) : MapFn := Ii.mapF (range := R i) IsLetter.

Lemma wordSet_lookup ws w : Ii.wordSet ws !! w = if decide (w ∈ ws) then Some tt else None.
Proof.
  induction ws as [|x ws IH] using rev_ind; [done|].
  unfold Ii.wordSet. rewrite foldl_app. fold (Ii.wordSet ws). simpl.
  destruct (decide (x = w)) as [->|Hne].
  - rewrite (decide_True (P:=w ∈ ws ++ [w])) by set_solver. rewrite IH.
    case_decide; [done|by rewrite lookup_insert_eq].
  - rewrite (decide_ext (w ∈ ws ++ [x]) (w ∈ ws)) by set_solver. rewrite <-IH.
    destruct (Ii.wordSet ws !! x); [done|]. by rewrite lookup_insert_ne.
Qed.

(** The files a word occurs in. *)
Definition documents (fs : FS) (files : list string) (w : string) : list string :=
  filter (λ f, w ∈ Wc.words IsLetter (default "" (fs !! f))) files.

Lemma ii_valuesOf fs files w : valuesOf w (allPairs fs files iiMap) = documents fs files w.
Proof.
  rewrite (valuesOf_allPairs _ _ _ _ (λ f, if decide (w ∈ Wc.words IsLetter (default "" (fs !! f))) then [f] else [])).
  - unfold documents. induction files as [|f files IH]; [done|]. rewrite bind_cons, IH, filter_cons. by case_decide.
  - intros i f _. unfold iiMap, Ii.mapF. rewrite (valuesOf_range (λ _ _, f)), wordSet_lookup. by case_decide.
Qed.

Lemma ii_keys fs files : keysOf (allPairs fs files iiMap) = list_to_set (allWords IsLetter fs files).
Proof.
  apply keysOf_allPairs. intros i f k _. unfold iiMap, Ii.mapF. rewrite (keys_range (λ _ _, f)), wordSet_lookup.
  by case_decide; split.
Qed.

Lemma sort_Strings_perm l l' : l ≡ₚ l' → sort_Strings l = sort_Strings l'.
Proof.
  intros Hp. apply (StronglySorted_unique String.le); [by apply StronglySorted_merge_sort; apply _..|].
  unfold sort_Strings. by rewrite !merge_sort_Permutation.
Qed.

Lemma zlen_sort_Strings l : zlen (sort_Strings l) = zlen l.
Proof. unfold zlen, sort_Strings. f_equal. apply Permutation_length, merge_sort_Permutation. Qed.

Lemma ii_order_free : order_free Ii.reduceF.
Proof. intros k vs vs' Hp. unfold Ii.reduceF. by rewrite (sort_Strings_perm _ _ Hp). Qed.
End Indexing.

(** Every one of the [n] reduce tasks gets a word. *)
Definition covers (n : Z) (ws : list string) : Prop :=
  ∀ r, 0 ≤ r < n → ∃ w, w ∈ ws ∧ ihash w mod n = r.

Lemma covers_buckets n kvs (ws : list string) :
  covers n ws → keysOf kvs = list_to_set ws → ∀ r, 0 ≤ r < n → bucket n r kvs ≠ [].
Proof.
  intros Hc Hk r Hr Hb. destruct (Hc r Hr) as (w & Hw & Hhash).
  assert (w ∈ keysOf kvs) as Hin by (rewrite Hk; set_solver).
  unfold keysOf in Hin. rewrite elem_of_list_to_set in Hin.
  assert (w ∈ Key <$> bucket n r kvs) as Hbk by (by apply bucket_keys).
  rewrite Hb in Hbk. set_solver.
Qed.

(** ** Valid UTF-8 *)

Lemma digit_ascii d : digitOf d ≠ None → byteOf d < 0x80.
Proof. destruct d as [[] [] [] [] [] [] [] []]; vm_compute; congruence. Qed.

Lemma Itoa_valid z : 0 ≤ z → ValidString (Itoa z).
Proof.
  intros Hz. apply Valid_ascii, Forall_forall. intros d Hd. apply digit_ascii. intros Hn.
  by apply (chars_Itoa z d Hz Hn).
Qed.

Lemma join_valid l : Forall ValidString l → ValidString (Ii.join "," l).
Proof.
  induction 1 as [|x l Hx _ IH]; [constructor|]. destruct l as [|y l]; [done|]. cbn [Ii.join].
  repeat apply ValidString_app; [done| |done]. apply (bool_decide_unpack _). vm_compute. exact I.
Qed.

Section Jobs.
Context `{codec : !KVCodec} `{sorter : !SortByKey} (R : nat → MapRange) (IsLetter : Z → bool).
(** U+FFFD, which an invalid byte is decoded to, is no letter. *)
Hypothesis IsLetter_FFFD : IsLetter 0xFFFD = false.

Lemma words_valid c : Forall ValidString (Wc.words IsLetter c).
Proof. apply FieldsFunc_valid. by rewrite IsLetter_FFFD. Qed.

Lemma wc_valid fs files :
  zlen (allWords IsLetter fs files) < 2 ^ 63 → valid_pairs (allPairs fs files (wcMap R IsLetter)) Wc.reduceF.
Proof.
  intros Hlen. split.
  - apply Forall_allPairs. intros i f Hf. apply Forall_fmap, Forall_forall. intros [k v]. rewrite rangeMap_perm.
    intros Hk%elem_of_map_to_list. rewrite countWords_lookup in Hk by (pose proof (words_le IsLetter fs files f Hf); lia).
    case_decide as Hpos; [|done]. simplify_eq. split; simpl; [|apply Itoa_valid; lia].
    apply occurrences_pos in Hpos. revert k Hpos. apply Forall_forall, words_valid.
  - intros w _. rewrite wc_reduce by done. apply Itoa_valid, occurrences_range.
Qed.

Lemma ii_valid fs files :
  Forall ValidString files → valid_pairs (allPairs fs files (iiMap R IsLetter)) Ii.reduceF.
Proof.
  intros Hfiles. split.
  - apply Forall_allPairs. intros i f Hf. apply Forall_fmap, Forall_forall. intros [k v]. rewrite rangeMap_perm.
    intros Hk%elem_of_map_to_list. rewrite wordSet_lookup in Hk. case_decide as Hin; [|done].
    split; simpl; [revert k Hk Hin; intros k _; revert k; apply Forall_forall, words_valid|].
    rewrite Forall_forall in Hfiles. by apply Hfiles.
  - intros w _. rewrite ii_valuesOf. unfold Ii.reduceF. apply ValidString_app; [apply Itoa_valid, zlen_nonneg|].
    apply ValidString_app; [apply (bool_decide_unpack _); vm_compute; exact I|]. apply join_valid.
    unfold sort_Strings. rewrite merge_sort_Permutation. rewrite Forall_forall in Hfiles |- *.
    intros f [_ Hf]%list_elem_of_filter. by apply Hfiles.
Qed.

(** What the output file of the word count and of the inverted index should hold. *)
Definition wcOutput (fs : FS) (files : list string) : string :=
  foldr String.append "" ((λ w, line w (Itoa (occurrences w (allWords IsLetter fs files)))) <$>
    sort_Strings (elements (list_to_set (allWords IsLetter fs files) : gset string))).

Definition iiOutput (fs : FS) (files : list string) : string :=
  foldr String.append "" ((λ w, line w (Itoa (zlen (documents IsLetter fs files w)) +:+ " " +:+
      Ii.join "," (sort_Strings (documents IsLetter fs files w)))) <$>
    sort_Strings (elements (list_to_set (allWords IsLetter fs files) : gset string))).

Lemma wc_job_output fs jobName files n :
  0 < n → inputs_ok fs jobName files → zlen (allWords IsLetter fs files) < 2 ^ 63 →
  covers n (allWords IsLetter fs files) →
  ∃ fs', Sequential fs jobName files n (wcMap R IsLetter) Wc.reduceF = Some fs' ∧
    fs' !! outName jobName = Some (wcOutput fs files).
Proof.
  intros Hn Hin Hlen Hcov. pose proof (wc_keys R IsLetter fs files Hlen) as Hkeys.
  destruct (Sequential_spec fs jobName files n (wcMap R IsLetter) Wc.reduceF) as (fs' & Hs & Hout);
    [done|done|apply wc_order_free|by apply wc_valid|by eapply covers_buckets|].
  exists fs'. split; [done|]. rewrite Hout. unfold reference, wcOutput. rewrite Hkeys. do 2 f_equal.
  apply list_fmap_ext. intros i w _. by rewrite wc_reduce.
Qed.

Lemma ii_job_output fs jobName files n :
  0 < n → inputs_ok fs jobName files → Forall ValidString files → covers n (allWords IsLetter fs files) →
  ∃ fs', Sequential fs jobName files n (iiMap R IsLetter) Ii.reduceF = Some fs' ∧
    fs' !! outName jobName = Some (iiOutput fs files).
Proof.
  intros Hn Hin Hfiles Hcov. pose proof (ii_keys R IsLetter fs files) as Hkeys.
  destruct (Sequential_spec fs jobName files n (iiMap R IsLetter) Ii.reduceF) as (fs' & Hs & Hout);
    [done|done|apply ii_order_free|by apply ii_valid|by eapply covers_buckets|].
  exists fs'. split; [done|]. rewrite Hout. unfold reference, iiOutput. rewrite Hkeys. do 2 f_equal.
  apply list_fmap_ext. intros i w _. rewrite ii_valuesOf. unfold Ii.reduceF.
  do 3 f_equal. apply zlen_sort_Strings.
Qed.

(** C34: Run sequentially, the word count job writes every distinct word of the input once, in order, with
    the number of its occurrences in all the files, and the inverted index job every
    distinct word once, in order, with the number of files it occurs in and their names, in
    whatever orders the map functions range over their maps. This holds for a positive number of reduce
    tasks each of which gets a word (otherwise merge gives up), input files that exist and are not
    named like an intermediate file, a table of letters without U+FFFD, and, for the word count, fewer
    than 2^63 words and, for the index, file names that are valid UTF-8. *)
Theorem word_jobs fs jobName files n :
  0 < n → inputs_ok fs jobName files → covers n (allWords IsLetter fs files) →
  (zlen (allWords IsLetter fs files) < 2 ^ 63 →
   ∃ fs', Sequential fs jobName files n (λ i, Wc.mapF (range := R i) IsLetter) Wc.reduceF = Some fs' ∧
     fs' !! outName jobName = Some (foldr String.append ""
       ((λ w, line w (Itoa (occurrences w (allWords IsLetter fs files)))) <$>
         sort_Strings (elements (list_to_set (allWords IsLetter fs files) : gset string))))) ∧
  (Forall ValidString files →
   ∃ fs', Sequential fs jobName files n (λ i, Ii.mapF (range := R i) IsLetter) Ii.reduceF = Some fs' ∧
     fs' !! outName jobName = Some (foldr String.append ""
       ((λ w, line w (Itoa (zlen (documents IsLetter fs files w)) +:+ " " +:+
                      Ii.join "," (sort_Strings (documents IsLetter fs files w)))) <$>
         sort_Strings (elements (list_to_set (allWords IsLetter fs files) : gset string))))).
Proof. intros. split; intros; [by apply wc_job_output|by apply ii_job_output]. Qed.
End Jobs.

(** ** A concrete job: two files, two reduce tasks *)

Definition asciiLetter (r : Z) : bool := bool_decide (65 ≤ r ≤ 90 ∨ 97 ≤ r ≤ 122).

Definition fs2 : FS := <["x" := "to be, or not to be"]> (<["y" := "I am to be quick"]> ∅).

Lemma fs2_ok : inputs_ok fs2 "job" ["x"; "y"].
Proof.
  split.
  - intros f Hf. repeat (apply elem_of_cons in Hf as [->|Hf]; [by eexists|]). set_solver.
  - intros f m r Hf _ _ ->. repeat (apply elem_of_cons in Hf as [Hf|Hf]; [done|]). set_solver.
Qed.

Lemma fs2_covers : covers 2 (allWords asciiLetter fs2 ["x"; "y"]).
Proof.
  intros r Hr. assert (r = 0 ∨ r = 1) as [-> | ->] by lia.
  - exists "be". split; [|vm_compute; reflexivity]. apply (bool_decide_unpack _). vm_compute. exact I.
  - exists "am". split; [|vm_compute; reflexivity]. apply (bool_decide_unpack _). vm_compute. exact I.
Qed.

(** The range statements run from the last entry to the first at odd calls. *)
Program Definition reverseRange : MapRange := {| rangeMap := λ A m, reverse (map_to_list m) |}.
Next Obligation. intros. apply reverse_Permutation. Qed.

Definition alternate (i : nat) : MapRange := if Nat.even i then listRange else reverseRange.

Lemma word_jobs_witness :
  asciiLetter 0xFFFD = false ∧
  (∃ fs', Sequential (codec:=jsonCodec) (sorter:=mergeSortByKey) fs2 "job" ["x"; "y"] 2
      (λ i, Wc.mapF (range:=alternate i) asciiLetter) Wc.reduceF = Some fs' ∧
    fs' !! "mrtmp.job" = Some ("I: 1" +:+ newline +:+ "am: 1" +:+ newline +:+ "be: 3" +:+ newline +:+
      "not: 1" +:+ newline +:+ "or: 1" +:+ newline +:+ "quick: 1" +:+ newline +:+ "to: 3" +:+ newline)) ∧
  ∃ fs', Sequential (codec:=jsonCodec) (sorter:=mergeSortByKey) fs2 "job" ["x"; "y"] 2
      (λ i, Ii.mapF (range:=alternate i) asciiLetter) Ii.reduceF = Some fs' ∧
    fs' !! "mrtmp.job" = Some ("I: 1 y" +:+ newline +:+ "am: 1 y" +:+ newline +:+
      "be: 2 x,y" +:+ newline +:+ "not: 1 x" +:+ newline +:+ "or: 1 x" +:+ newline +:+
      "quick: 1 y" +:+ newline +:+ "to: 2 x,y" +:+ newline).
Proof.
  split; [reflexivity|].
  destruct (word_jobs (codec:=jsonCodec) (sorter:=mergeSortByKey) alternate asciiLetter eq_refl fs2 "job"
    ["x"; "y"] 2 ltac:(lia) fs2_ok fs2_covers) as [Hwc Hii].
  destruct (Hwc ltac:(vm_compute; reflexivity)) as (fs1 & Hs1 & Ho1).
  destruct (Hii ltac:(apply (bool_decide_unpack _); vm_compute; exact I)) as (fs' & Hs & Ho). split.
  - exists fs1. split; [exact Hs1|]. etransitivity; [exact Ho1|]. vm_compute. reflexivity.
  - exists fs'. split; [exact Hs|]. etransitivity; [exact Ho|]. vm_compute. reflexivity.
Defined.

(** The generic job theorem at the word count. *)
Lemma sequential_reference_witness :
  ∃ fs', Sequential (codec:=jsonCodec) (sorter:=mergeSortByKey) fs2 "job" ["x"; "y"] 2
      (wcMap alternate asciiLetter) Wc.reduceF = Some fs' ∧
    fs' !! "mrtmp.job" = Some (reference (allPairs fs2 ["x"; "y"] (wcMap alternate asciiLetter)) Wc.reduceF).
Proof.
  apply (sequential_reference (codec:=jsonCodec) (sorter:=mergeSortByKey) fs2 "job" ["x"; "y"] 2
    (wcMap alternate asciiLetter) Wc.reduceF); [lia|exact fs2_ok|apply wc_order_free|exact (wc_valid alternate asciiLetter eq_refl fs2 ["x"; "y"] eq_refl)|].
  exact (covers_buckets 2 _ _ fs2_covers (wc_keys alternate asciiLetter fs2 ["x"; "y"] eq_refl)).
Defined.

(** An input that leaves a reduce task without pairs: its output file is never
    created (common_reduce.go, line 76) and merge gives up
    (master_splitmerge.go, line 22). *)
Theorem empty_partition_fatal :
  Sequential (codec:=jsonCodec) (sorter:=mergeSortByKey) (<["x" := "be"]> ∅) "job" ["x"] 2
    (wcMap alternate asciiLetter) Wc.reduceF = None.
Proof. vm_compute. reflexivity. Qed.

(** The same job distributed over two workers: in the map phase worker a fails
    on file x and b does both files; in the reduce phase they share the work. *)
Definition mapEvents : list SEvent :=
  [Registered "a"; Registered "b"; Result 0 false; Result 0 true; Result 0 true].
Definition reduceEvents : list SEvent :=
  [Registered "a"; Registered "b"; Result 1 true; Result 0 true].
Definition mapJob : Job := mkJob "job" ["x"; "y"] 2 mapPhase.
Definition reduceJob : Job := mkJob "job" ["x"; "y"] 2 reducePhase.

Lemma distributed_equals_sequential_witness :
  let args1 := completed mapJob (schedInit mapJob) mapEvents in
  let args2 := completed reduceJob (schedInit reduceJob) reduceEvents in
  TaskNumber <$> args1 = [1; 0] ∧ TaskNumber <$> args2 = [1; 0] ∧
  run (codec:=jsonCodec) fs2 "job" 2 (λ phase fs,
    runTasks (codec:=jsonCodec) (sorter:=mergeSortByKey)
      (wcMap alternate asciiLetter) Wc.reduceF fs
      (match phase with mapPhase => args1 | reducePhase => args2 end)) =
  Sequential (codec:=jsonCodec) (sorter:=mergeSortByKey) fs2 "job" ["x"; "y"] 2
    (wcMap alternate asciiLetter) Wc.reduceF.
Proof.
  intros args1 args2.
  destruct (schedule mapJob (schedInit mapJob) mapEvents) as [| |s1] eqn:E1;
    [vm_compute in E1; discriminate E1..|].
  destruct (schedule reduceJob (schedInit reduceJob) reduceEvents) as [| |s2] eqn:E2;
    [vm_compute in E2; discriminate E2..|].
  split; [vm_compute; reflexivity|]. split; [vm_compute; reflexivity|].
  apply (distributed_equals_sequential (codec:=jsonCodec) (sorter:=mergeSortByKey)
    (wcMap alternate asciiLetter) Wc.reduceF fs2 "job" ["x"; "y"] 2
    mapEvents s1 args1 reduceEvents s2 args2 fs2_ok E1).
  - vm_compute in E1. injection E1 as <-. reflexivity.
  - exact E2.
  - vm_compute in E2. injection E2 as <-. reflexivity.
  - reflexivity.
  - reflexivity.
Defined.
