(* ===== verification/Distributed.v ===== *)
(** * The distributed job: mapreduce/master.go, master_rpc.go, common_rpc.go, worker.go

    [Distributed] and any number of [RunWorker]s as one step system. Master
    and workers talk through Unix-domain sockets: a path leads to a listener, a
    [Dial] queues a connection at it, [Accept] takes the first one, and the goroutine that
    serves a connection runs one handler and replies. A connection breaks when its
    listener is closed before it is accepted, or when the process that serves it ends; then
    (and when [Dial] fails) [call] returns false.

    The goroutines are the main one of [run] ([MPc]: the two schedules, the workers killed
    one by one, the server stopped, the merge, the send on [doneChannel]), the accept loop of the
    master, a forwarder per phase with the senders it starts, one [call] per task in flight, the
    main goroutine of every worker ([WPc]) and one per connection. A step is one blocking operation
    or one critical section of one of them. [mr.mu] is held over many steps only by killWorkers:
    while it is, registrations and forwarders wait.

    A worker either lives in the master's process, as in the tests, or in one of its own, as in
    wc.go and ii.go. The latter may end at any moment, and then its unfinished tasks leave files
    with any content behind. A task that runs to its end takes effect in one step: it reads files that no task of
    its phase writes. The map function may compute other pairs each time it is called: [mapF c] is what it computes
    in the task on connection [c]. Socket names and data files do not meet. *)

From S2P Require Import Prelude GoStrings Json Schedule MapReduce MapReduceSpec Master.

(** ** Sockets and calls *)

Inductive Request :=
  | QRegister (worker : string)
  | QMasterShutdown
  | QDoTask (arg : DoTaskArgs)
  | QWorkerShutdown.

(** [Running]: DoTask before its switch; [Ran]: after it. The number replied is [Ntasks] of
    ShutdownReply and 0 for the empty replies. *)
Inductive ConnState := Queued | Accepted | Running | Ran | Replied (n : Z) | Broken.

#[export] Instance DoTaskArgs_eq_dec : EqDecision DoTaskArgs.
Proof. solve_decision. Defined.
#[export] Instance Request_eq_dec : EqDecision Request.
Proof. solve_decision. Defined.
#[export] Instance ConnState_eq_dec : EqDecision ConnState.
Proof. solve_decision. Defined.

Record Conn := mkConn { clis : nat; creq : Request; cst : ConnState }.

(** [lowner]: the worker that listens, or the master. *)
Record Listener := mkListener { lowner : option nat; lpath : string; lopen : bool }.

(** [call]: before [Dial], waiting on a connection, and what it returned. *)
Inductive CallSt :=
  | CalNew (srv : string) (rpc : Request)
  | CalConn (c : nat)
  | CalDone (reply : option Z).

#[export] Instance CallSt_eq_dec : EqDecision CallSt.
Proof. solve_decision. Defined.

(** ** Goroutines *)

Inductive WPc := WStart | WRemoved | WReg (cl : CallSt) | WCheck | WAccept | WClose | WOver.

(** [wpar]: it shares the Parallelism record; [wown]: it has a process of its own; [wlive]: its
    process runs. *)
Record Wk := mkWk {
  wst : WorkerState;
  wpar : bool;
  wown : bool;
  wlive : bool;
  wlis : option nat;
  wpc : WPc;
}.

Inductive MLoop := MSelect | MAccept | MEnded.

(** A call of forwardRegistrations: its [i] and the senders that still wait. *)
Record Fwd := mkFwd { fi : Z; fsend : list string }.

Inductive MPc :=
  | MSched (ph : jobPhase) (sc : Sched) (cs : list CallSt)
  | MKill (todo : list string) (acc : list Z) (cur : option CallSt)
  | MStop (cl : CallSt)
  | MMerge
  | MSend
  | MOver.

(** Why the master's process ended: log.Fatal of DoTask (two tasks at once, or an error in
    doMap or doReduce), of RunWorker's Listen, of merge, or the panics of schedule and of
    closing a closed channel. *)
Inductive Reason := FConcurrent | FTask | FListen | FMerge | FSched | FClosed.

Record DSys := mkDSys {
  dfs : FS;
  paths : gmap string nat;
  listeners : list Listener;
  conns : list Conn;
  mr : Master;
  mstop : bool;
  mloop : MLoop;
  fwds : list Fwd;
  main : MPc;
  wks : list Wk;
  par : Parallelism;
  dead : option Reason;
}.

Definition set_fs x s := mkDSys x (paths s) (listeners s) (conns s) (mr s) (mstop s) (mloop s) (fwds s) (main s) (wks s) (par s) (dead s).
Definition set_paths x s := mkDSys (dfs s) x (listeners s) (conns s) (mr s) (mstop s) (mloop s) (fwds s) (main s) (wks s) (par s) (dead s).
Definition set_listeners x s := mkDSys (dfs s) (paths s) x (conns s) (mr s) (mstop s) (mloop s) (fwds s) (main s) (wks s) (par s) (dead s).
Definition set_conns x s := mkDSys (dfs s) (paths s) (listeners s) x (mr s) (mstop s) (mloop s) (fwds s) (main s) (wks s) (par s) (dead s).
Definition set_mr x s := mkDSys (dfs s) (paths s) (listeners s) (conns s) x (mstop s) (mloop s) (fwds s) (main s) (wks s) (par s) (dead s).
Definition set_mstop x s := mkDSys (dfs s) (paths s) (listeners s) (conns s) (mr s) x (mloop s) (fwds s) (main s) (wks s) (par s) (dead s).
Definition set_mloop x s := mkDSys (dfs s) (paths s) (listeners s) (conns s) (mr s) (mstop s) x (fwds s) (main s) (wks s) (par s) (dead s).
Definition set_fwds x s := mkDSys (dfs s) (paths s) (listeners s) (conns s) (mr s) (mstop s) (mloop s) x (main s) (wks s) (par s) (dead s).
Definition set_main x s := mkDSys (dfs s) (paths s) (listeners s) (conns s) (mr s) (mstop s) (mloop s) (fwds s) x (wks s) (par s) (dead s).
Definition set_wks x s := mkDSys (dfs s) (paths s) (listeners s) (conns s) (mr s) (mstop s) (mloop s) (fwds s) (main s) x (par s) (dead s).
Definition set_par x s := mkDSys (dfs s) (paths s) (listeners s) (conns s) (mr s) (mstop s) (mloop s) (fwds s) (main s) (wks s) x (dead s).
Definition set_dead x s := mkDSys (dfs s) (paths s) (listeners s) (conns s) (mr s) (mstop s) (mloop s) (fwds s) (main s) (wks s) (par s) (Some x).

Definition set_pc (i : nat) (pc : WPc) (s : DSys) : DSys :=
  set_wks (alter (λ w, mkWk (wst w) (wpar w) (wown w) (wlive w) (wlis w) pc) i (wks s)) s.
Definition set_wst (i : nat) (x : WorkerState) (s : DSys) : DSys :=
  set_wks (alter (λ w, mkWk x (wpar w) (wown w) (wlive w) (wlis w) (wpc w)) i (wks s)) s.
Definition set_cst (c : nat) (st : ConnState) (s : DSys) : DSys :=
  set_conns (alter (λ k, mkConn (clis k) (creq k) st) c (conns s)) s.

(** ** Listening, dialing, closing *)

(** [net.Listen("unix", path)]: the index of the new listener, or an error when the path is taken. *)
Definition listen (owner : option nat) (path : string) (s : DSys) : option (nat * DSys) :=
  match paths s !! path with
  | Some _ => None
  | None =>
      let l := length (listeners s) in
      Some (l, set_listeners (listeners s ++ [mkListener owner path true])
                 (set_paths (<[path := l]> (paths s)) s))
  end.

(** The connections at [l] in a state that [f] selects break. *)
Definition breakConns (l : nat) (f : ConnState → bool) (ks : list Conn) : list Conn :=
  (λ k, if bool_decide (clis k = l) && f (cst k) then mkConn l (creq k) Broken else k) <$> ks.

Definition shut (l : nat) (s : DSys) : DSys :=
  set_listeners (alter (λ x, mkListener (lowner x) (lpath x) false) l (listeners s)) s.

(** [l.Close()]: it also removes the socket. *)
Definition closeListener (l : nat) (s : DSys) : DSys :=
  match listeners s !! l with
  | None => s
  | Some x =>
      set_conns (breakConns l (λ st, bool_decide (st = Queued)) (conns s))
        (set_paths (delete (lpath x) (paths s)) (shut l s))
  end.

(** One step of [call]. [fail]: Dial has an error of its own. *)
Definition callStep (fail : bool) (cl : CallSt) (s : DSys) : option (CallSt * DSys) :=
  match cl with
  | CalNew srv rpc =>
      match paths s !! srv with
      | Some l =>
          if negb fail && from_option lopen false (listeners s !! l) then
            Some (CalConn (length (conns s)), set_conns (conns s ++ [mkConn l rpc Queued]) s)
          else Some (CalDone None, s)
      | None => Some (CalDone None, s)
      end
  | CalConn c =>
      let* k := conns s !! c in
      match cst k with
      | Replied n => Some (CalDone (Some n), s)
      | Broken => Some (CalDone None, s)
      | _ => None
      end
  | CalDone _ => None
  end.

(** [l.Accept()]: the first connection that waits at [l]. *)
Definition accept (l : nat) (s : DSys) : option (nat * DSys) :=
  let* '(c, _) := list_find (λ k, clis k = l ∧ cst k = Queued) (conns s) in
  Some (c, set_cst c Accepted s).

Section Distributed.
Context `{codec : !KVCodec} `{sorter : !SortByKey}.
Context (mapF : nat → MapFn) (reduceF : string → list string → string).
Context (job : string) (files : list string) (nreduce : nat).

Definition theJob (ph : jobPhase) : Job := mkJob job files nreduce ph.

(** ** The end of a process *)

Definition unfinished (st : ConnState) : bool :=
  match st with Replied _ | Broken => false | _ => true end.

(** The files a task creates, from the start of its writes on. *)
Definition creates (fs : FS) (arg : DoTaskArgs) : list string :=
  match Phase arg with
  | mapPhase => reduceName (JobName arg) (TaskNumber arg) <$> seqZ 0 (NumOtherPhase arg)
  | reducePhase =>
      match readPairs fs (JobName arg) (TaskNumber arg) (NumOtherPhase arg) with
      | Some (_ :: _) => [mergeName (JobName arg) (TaskNumber arg)]
      | _ => []
      end
  end.

(** What the tasks that run on connections to [l] may leave behind. *)
Definition leftovers (l : nat) (s : DSys) : list string :=
  k ← conns s;
  match creq k, cst k with
  | QDoTask arg, Running => if decide (clis k = l) then creates (dfs s) arg else []
  | _, _ => []
  end.

(** The process of worker [i] ends. The socket stays, but nobody listens. *)
Definition crash (i : nat) (w : Wk) (g : FS) (s : DSys) : option DSys :=
  let s' := set_wks (<[i := mkWk (wst w) (wpar w) (wown w) false (wlis w) WOver]> (wks s)) s in
  match wlis w with
  | None => assert* bool_decide (g = ∅) in Some s'
  | Some l =>
      assert* bool_decide (Forall (λ f, f ∈ leftovers l s) (elements (dom g))) in
      Some (set_fs (g ∪ dfs s) (set_conns (breakConns l unfinished (conns s)) (shut l s')))
  end.

Definition fatalAt (i : nat) (w : Wk) (why : Reason) (s : DSys) : option DSys :=
  if wown w then crash i w ∅ s else Some (set_dead why s).

(** ** Handlers *)

(** A handler of the master. Register needs the lock. *)
Definition serveMaster (c : nat) (rpc : Request) (s : DSys) : option DSys :=
  match rpc with
  | QRegister w =>
      match main s with
      | MKill _ _ _ => None
      | _ => Some (set_cst c (Replied 0) (set_mr (Register (mr s) w) s))
      end
  | QMasterShutdown =>
      if mstop s then Some (set_dead FClosed s)
      else Some (set_cst c (Replied 0) (closeListener 0 (set_mstop true s)))
  | _ => Some (set_cst c Broken s)
  end.

(** A handler of worker [i]. *)
Definition serveWorker (i : nat) (w : Wk) (c : nat) (k : Conn) (s : DSys) : option DSys :=
  let p := if wpar w then Some (par s) else None in
  let put x q s := set_wst i x (set_par (default (par s) q) s) in
  match creq k, cst k with
  | QDoTask arg, Accepted =>
      match doTaskBegin (wst w) p with
      | None => fatalAt i w FConcurrent s
      | Some (x, q, _) => Some (set_cst c Running (put x q s))
      end
  | QDoTask arg, Running =>
      match taskEffect (mapF c) reduceF (dfs s) arg with
      | None => fatalAt i w FTask s
      | Some fs => Some (set_cst c Ran (set_fs fs s))
      end
  | QDoTask arg, Ran =>
      let '(x, q) := doTaskEnd (wst w) p in
      Some (set_cst c (Replied 0) (put x q s))
  | QWorkerShutdown, Accepted =>
      let '(x, n) := Shutdown (wst w) in
      Some (set_cst c (Replied n) (set_wst i x s))
  | _, Accepted => Some (set_cst c Broken s)
  | _, _ => None
  end.

(** The goroutine of [ServeConn] for connection [c]. *)
Definition serveConn (c : nat) (s : DSys) : option DSys :=
  let* k := conns s !! c in
  let* x := listeners s !! clis k in
  match lowner x with
  | None => match cst k with Accepted => serveMaster c (creq k) s | _ => None end
  | Some i => let* w := wks s !! i in serveWorker i w c k s
  end.

(** ** The main goroutines *)

(** register: its call; a failure is only printed. *)
Definition register (master me : string) : CallSt := CalNew master (QRegister me).

(** RunWorker, from one blocking operation to the next. *)
Definition workerStep (i : nat) (fail : bool) (s : DSys) : option DSys :=
  let* w := wks s !! i in
  let me := wname (wst w) in
  match wpc w with
  | WStart => Some (set_pc i WRemoved (set_paths (delete me (paths s)) s))
  | WRemoved =>
      match listen (Some i) me s with
      | None => fatalAt i w FListen s
      | Some (l, s) =>
          Some (set_wks (<[i := mkWk (wst w) (wpar w) (wown w) (wlive w) (Some l)
                             (WReg (register (address (mr s)) me))]> (wks s)) s)
      end
  | WReg (CalDone _) => Some (set_pc i WCheck s)
  | WReg cl => let* '(cl, s) := callStep fail cl s in Some (set_pc i (WReg cl) s)
  | WCheck =>
      Some (set_pc i (match loopCheck (wst w) with Accepting => WAccept | Closed => WClose end) s)
  | WAccept =>
      let* l := wlis w in
      let* '(_, s) := accept l s in
      Some (set_pc i WCheck (set_wst i (onAccept (wst w) false).1 s))
  | WClose => let* l := wlis w in Some (set_pc i WOver (closeListener l s))
  | WOver => None
  end.

(** The accept loop of startRPCServer. *)
Definition masterLoop (s : DSys) : option DSys :=
  match mloop s with
  | MSelect => Some (set_mloop (if mstop s then MEnded else MAccept) s)
  | MAccept =>
      if from_option lopen false (listeners s !! 0%nat)
      then let* '(_, s) := accept 0 s in Some (set_mloop MSelect s)
      else Some (set_mloop MEnded s)
  | MEnded => None
  end.

(** A turn of the [p]-th forwardRegistrations that finds a new worker. *)
Definition forwardStep (p : nat) (s : DSys) : option DSys :=
  let* f := fwds s !! p in
  match main s with
  | MKill _ _ _ => None
  | _ =>
      let* '(w, i) := forwardTurn (mr s) (fi f) in
      Some (set_fwds (<[p := mkFwd i (fsend f ++ [w])]> (fwds s)) s)
  end.

(** The goroutines for the calls that a step of [schedule] has added. *)
Definition newCalls (cs : list CallSt) (sc : Sched) : list CallSt :=
  cs ++ ((λ c, CalNew (callee c) (QDoTask (callArg c))) <$> drop (length cs) (calls sc)).

Definition schedNext (ph : jobPhase) (cs : list CallSt) (r : SRes) (s : DSys) : option DSys :=
  match r with
  | SBlocked => None
  | SPanic => Some (set_dead FSched s)
  | SNext sc => Some (set_main (MSched ph sc (newCalls cs sc)) s)
  end.

(** schedule receives from the [m]-th sender of its registerChan. *)
Definition schedRecv (m : nat) (s : DSys) : option DSys :=
  match main s with
  | MSched ph sc cs =>
      let p := pred (length (fwds s)) in
      let* f := fwds s !! p in
      let* w := fsend f !! m in
      schedNext ph cs (schedStep (theJob ph) sc (Registered w))
        (set_fwds (<[p := mkFwd (fi f) (delete m (fsend f))]> (fwds s)) s)
  | _ => None
  end.

(** The [k]-th call in flight takes a step; its result is received. *)
Definition schedCall (k : nat) (fail : bool) (s : DSys) : option DSys :=
  match main s with
  | MSched ph sc cs =>
      let* cl := cs !! k in
      let* '(cl, s) := callStep fail cl s in
      Some (set_main (MSched ph sc (<[k := cl]> cs)) s)
  | _ => None
  end.

Definition schedResult (k : nat) (s : DSys) : option DSys :=
  match main s with
  | MSched ph sc cs =>
      let* cl := cs !! k in
      match cl with
      | CalDone r =>
          schedNext ph (delete k cs)
            (schedStep (theJob ph) sc (Result k (match r with Some _ => true | None => false end))) s
      | _ => None
      end
  | _ => None
  end.

(** [schedule(phase)] of Distributed: a new channel with its forwarder. *)
Definition startPhase (ph : jobPhase) (s : DSys) : DSys :=
  set_main (MSched ph (schedInit (theJob ph)) []) (set_fwds (fwds s ++ [mkFwd 0 []]) s).

(** killWorkers, one call after the other, then [mr.stats] and stopRPCServer. *)
Definition killStep (fail : bool) (todo : list string) (acc : list Z) (cur : option CallSt)
    (s : DSys) : option DSys :=
  match cur, todo with
  | None, [] =>
      Some (set_main (MStop (CalNew (address (mr s)) QMasterShutdown))
             (set_mr (mkMaster (address (mr s)) (workers (mr s)) acc) s))
  | None, w :: todo => Some (set_main (MKill todo acc (Some (CalNew w QWorkerShutdown))) s)
  | Some (CalDone r), _ => Some (set_main (MKill todo (acc ++ option_list r) None) s)
  | Some cl, _ => let* '(cl, s) := callStep fail cl s in Some (set_main (MKill todo acc (Some cl)) s)
  end.

(** stopRPCServer: the call of Master.Shutdown, whose outcome does not matter. *)
Definition stopStep (fail : bool) (cl : CallSt) (s : DSys) : option DSys :=
  match cl with
  | CalDone _ => Some (set_main MMerge s)
  | cl => let* '(cl, s) := callStep fail cl s in Some (set_main (MStop cl) s)
  end.

(** [run] outside of schedule. *)
Definition mainStep (fail : bool) (s : DSys) : option DSys :=
  match main s with
  | MSched ph sc _ =>
      assert* returned sc in
      Some (match ph with
            | mapPhase => startPhase reducePhase s
            | reducePhase => set_main (MKill (workers (mr s)) [] None) s
            end)
  | MKill todo acc cur => killStep fail todo acc cur s
  | MStop cl => stopStep fail cl s
  | MMerge =>
      Some (match merge (dfs s) job (Z.of_nat nreduce) with
            | Some fs => set_main MSend (set_fs fs s)
            | None => set_dead FMerge s
            end)
  | MSend | MOver => None
  end.

(** [Wait] receives from doneChannel. *)
Definition Wait (s : DSys) : option DSys :=
  match main s with MSend => Some (set_main MOver s) | _ => None end.

(** ** Steps *)

Inductive DEvent :=
  (** somebody calls RunWorker *)
  | DStart (me : string) (nrpc : Z) (shared own : bool)
  | DWorker (i : nat) (fail : bool)
  | DServe (c : nat)
  | DLoop
  | DForward (p : nat)
  | DRecv (m : nat)
  | DCall (k : nat) (fail : bool)
  | DResult (k : nat)
  | DMain (fail : bool)
  | DWait
  | DCrash (i : nat) (g : FS).

Definition dstep (s : DSys) (e : DEvent) : option DSys :=
  assert* bool_decide (dead s = None) in
  match e with
  | DStart me nrpc shared own =>
      assert* negb (shared && own) in
      Some (set_wks (wks s ++ [mkWk (mkWorker me nrpc 0 0) shared own true None WStart]) s)
  | DWorker i fail => workerStep i fail s
  | DServe c => serveConn c s
  | DLoop => masterLoop s
  | DForward p => forwardStep p s
  | DRecv m => schedRecv m s
  | DCall k fail => schedCall k fail s
  | DResult k => schedResult k s
  | DMain fail => mainStep fail s
  | DWait => Wait s
  | DCrash i g =>
      let* w := wks s !! i in
      assert* wown w && wlive w in crash i w g s
  end.

Fixpoint drun (s : DSys) (es : list DEvent) : option DSys :=
  match es with
  | [] => Some s
  | e :: es => let* s := dstep s e in drun s es
  end.

(** Distributed: a new master, its server, and the goroutine of [run], which
    begins with the map phase. *)
Definition startRPCServer (fs : FS) (m : Master) : DSys :=
  mkDSys fs {[address m := 0%nat]} [mkListener None (address m) true] [] m false MSelect []
    MOver [] (mkParallelism 0 0) None.

Definition Distributed (fs : FS) (master : string) : DSys :=
  startPhase mapPhase (startRPCServer fs (newMaster master)).

Inductive dreach (fs : FS) (master : string) : DSys → Prop :=
  | dreach_init : dreach fs master (Distributed fs master)
  | dreach_step s e s' : dreach fs master s → dstep s e = Some s' → dreach fs master s'.

End Distributed.
