(* ===== verification/DistributedFiles.v ===== *)
(** * The files of a distributed job

    In whatever order workers execute the tasks, however often a task
    is tried and whatever a worker that died left in its files, the files after a phase are
    those of the sequential phase. Every task lays its own files over
    the file system; [over] says that a file system is a base with the files of
    the finished tasks in place and the files of the other tasks anyhow, and the
    invariant [FInv] follows it through the steps of [Distributed]. The files of a map task are those of the
    connection on which it succeeded, [ch] of its number. *)

From S2P Require Import Prelude GoStrings Json Schedule MapReduce MapReduceSpec Master Distributed.

(** ** Overlays *)

Lemma subseteq_union_r (m1 m2 m3 : FS) : m2 ##ₘ m1 → m1 ⊆ m3 → m1 ⊆ m2 ∪ m3.
Proof.
  intros Hd Hs. apply map_subseteq_spec. intros f x Hx. rewrite lookup_union_r.
  - by eapply lookup_weaken.
  - destruct (m2 !! f) as [y|] eqn:Hy; [|done]. by destruct (map_disjoint_spec m2 m1) as [Hd' _]; destruct (Hd' Hd f y x).
Qed.

Section Over.
Context {T : Type} (W : T → FS) (V : T → Prop) (base : FS).
Hypothesis Hdisj : ∀ t t', V t → V t' → t = t' ∨ W t ##ₘ W t'.

(** Only files of tasks have changed. *)
Definition framed (fs : FS) : Prop :=
  ∀ f, (∀ t, V t → W t !! f = None) → fs !! f = base !! f.

Definition over (D : T → Prop) (fs : FS) : Prop :=
  framed fs ∧ ∀ t, V t → D t → W t ⊆ fs.

Lemma over_init : over (λ _, False) base.
Proof. split; [by intros f _|done]. Qed.

Lemma over_mono (D D' : T → Prop) fs :
  (∀ t, V t → D' t → D t) → over D fs → over D' fs.
Proof. intros Hd [Hf Hw]. split; [done|]. eauto. Qed.

Lemma over_full D fs t : V t → over D fs → over (λ t', D t' ∨ t' = t) (W t ∪ fs).
Proof.
  intros Ht [Hf Hw]. split.
  - intros f Hn. rewrite lookup_union_r by auto. by apply Hf.
  - intros t' Ht' Hd. destruct (Hdisj t t' Ht Ht') as [<-|Hx]; [apply map_union_subseteq_l|].
    destruct Hd as [Hd| ->]; [|apply map_union_subseteq_l].
    apply subseteq_union_r; [done|by apply Hw].
Qed.

(** Files of unfinished tasks may hold anything. *)
Lemma over_part D fs g :
  (∀ f, is_Some (g !! f) → ∃ t, V t ∧ ¬ D t ∧ is_Some (W t !! f)) → over D fs → over D (g ∪ fs).
Proof.
  intros Hg [Hf Hw]. split.
  - intros f Hn. destruct (g !! f) as [c|] eqn:E.
    + destruct (Hg f) as (t & Ht & _ & Hs); [by rewrite E|]. rewrite Hn in Hs by done. by destruct Hs.
    + rewrite lookup_union_r by done. by apply Hf.
  - intros t Ht Hd. apply subseteq_union_r; [|by apply Hw].
    apply map_disjoint_spec. intros f x y Hx Hy. destruct (Hg f) as (t' & Ht' & Hn & [z Hz]); [by rewrite Hx|].
    destruct (Hdisj t t' Ht Ht') as [->|Hd']; [done|]. by apply (map_disjoint_spec (W t) (W t')) with f y z in Hd'.
Qed.

(** With all tasks finished nothing is left open. *)
Lemma over_det D fs fs' :
  (∀ t, V t → D t) → (∀ f, (∃ t, V t ∧ is_Some (W t !! f)) ∨ ∀ t, V t → W t !! f = None) →
  over D fs → over D fs' → fs = fs'.
Proof.
  intros Hall Hdec [Hf Hw] [Hf' Hw']. apply map_eq. intros f.
  destruct (Hdec f) as [(t & Ht & [c Hc])|Hn]; [|by rewrite Hf, Hf'].
  rewrite (lookup_weaken _ fs _ _ Hc), (lookup_weaken _ fs' _ _ Hc); auto.
Qed.

Lemma over_runAll (step : FS → T → option FS) ts :
  (∀ fs t, framed fs → V t → step fs t = Some (W t ∪ fs)) → Forall V ts →
  ∀ D fs, over D fs → ∃ fs', runAll step fs ts = Some fs' ∧ over (λ t, D t ∨ t ∈ ts) fs'.
Proof.
  intros Hstep Hv. induction Hv as [|t ts Ht Hv IH]; intros D fs Ho; simpl.
  - exists fs. split; [done|]. apply (over_mono D); [set_solver|done].
  - rewrite Hstep; [|apply Ho|done]. simpl.
    destruct (IH _ _ (over_full _ _ _ Ht Ho)) as (fs' & -> & Ho'). exists fs'. split; [done|].
    eapply over_mono, Ho'. intros t' _. rewrite elem_of_cons. naive_solver.
Qed.
End Over.

(** The files of an unfinished task may become others with the same names. *)
Lemma over_change {T} (W W' : T → FS) V base D fs :
  (∀ t f, V t → W t !! f = None ↔ W' t !! f = None) → (∀ t, V t → D t → W' t = W t) →
  over W V base D fs → over W' V base D fs.
Proof.
  intros Hdom Hd [Hf Hw]. split.
  - intros f Hn. apply Hf. intros t Ht. apply Hdom; auto.
  - intros t Ht HD. rewrite Hd by done. auto.
Qed.

(** ** The two phases *)

Section Phase.
Context `{codec : !KVCodec} `{sorter : !SortByKey}.
Context (mapF : nat → MapFn) (reduceF : string → list string → string).
Context (j : Job) (base : FS).

Definition taskFiles (a : DoTaskArgs) : FS :=
  match phase j with mapPhase => mapFilesOf mapF j base a | reducePhase => reduceFileOf reduceF j base a end.

(** What the phase finds: the input files, or all the intermediate ones. *)
Definition phase_ok : Prop :=
  match phase j with
  | mapPhase => 0 < n_other j ∧ inputs_ok base (jobName j) (mapFiles j)
  | reducePhase => same_inputs j base base
  end.

(** The phase as [Sequential] runs it. *)
Definition phaseSeq : option FS :=
  match phase j with
  | mapPhase => mapPhaseSeq base (jobName j) 0 (mapFiles j) (n_other j) mapF
  | reducePhase => reducePhaseSeq base (jobName j) (seqZ 0 (ntasks j)) (n_other j) reduceF
  end.

Lemma taskFiles_disj a b : is_task j a → is_task j b → a = b ∨ taskFiles a ##ₘ taskFiles b.
Proof.
  intros Ha Hb. destruct (decide (TaskNumber a = TaskNumber b)) as [E|E]; [left; by eapply is_task_inj|].
  right. apply map_disjoint_spec. intros f x y. destruct Ha, Hb. unfold taskFiles. destruct (phase j).
  - intros (r & ? & -> & _)%mapFilesOf_lookup (r' & ? & Heq & _)%mapFilesOf_lookup; [|lia..].
    apply reduceName_inj in Heq as [? _]; [done|lia..].
  - intros ->%reduceFileOf_lookup Hv%reduceFileOf_lookup. by apply mergeName_inj in Hv.
Qed.

Notation framedF := (framed taskFiles (is_task j) base).

Lemma framed_map fs :
  phase j = mapPhase → phase_ok → framedF fs →
  ∀ f, f ∈ mapFiles j → fs !! f = base !! f ∧ is_Some (base !! f).
Proof.
  unfold phase_ok. intros Hp Hok Hf f Hin. rewrite Hp in Hok. destruct Hok as [_ [Hex Hfree]].
  split; [|by apply Hex]. apply Hf. intros a [Ha _]. unfold taskFiles. rewrite Hp.
  apply eq_None_not_Some. intros [v Hv]. apply mapFilesOf_lookup in Hv as (r & ? & -> & _); [|lia].
  eapply Hfree; [exact Hin| | |reflexivity]; lia.
Qed.

Lemma framed_reduce fs :
  phase j = reducePhase → phase_ok → framedF fs → same_inputs j base fs.
Proof.
  unfold phase_ok. intros Hp Hok Hf i r Hi Hr. rewrite Hp in Hok. split; [|by apply Hok].
  apply Hf. intros a _. unfold taskFiles. rewrite Hp.
  apply eq_None_not_Some. intros [v Hv%reduceFileOf_lookup]. apply reduceName_mergeName in Hv; [done|lia].
Qed.

(** A task never fails and lays its files over the others. *)
Lemma phase_effect fs a :
  phase_ok → framedF fs → is_task j a → numbered mapF reduceF fs a = Some (taskFiles a ∪ fs).
Proof.
  intros Hok Hf Ha. unfold taskFiles. destruct (phase j) eqn:Hp.
  - apply map_effect; [done|by unfold phase_ok in Hok; rewrite Hp in Hok; destruct Hok|done|by apply framed_map].
  - apply reduce_effect; [done|done|by apply framed_reduce].
Qed.

Lemma readPairs_same fs a :
  phase j = reducePhase → is_task j a → same_inputs j base fs →
  readPairs fs (jobName j) (TaskNumber a) (n_other j) = readPairs base (jobName j) (TaskNumber a) (n_other j).
Proof.
  intros Hp [Ha _] Hs. unfold readPairs. f_equal. apply Forall_mapM_ext, Forall_forall.
  intros i Hi%elem_of_seqZ. apply Hs; lia.
Qed.

(** What a task that is interrupted has written is in its files. *)
Lemma creates_files fs a f :
  phase_ok → framedF fs → is_task j a → f ∈ creates fs a → is_Some (taskFiles a !! f).
Proof.
  intros Hok Hf Ha. pose proof Ha as [Hr Harg]. destruct (taskArg_shape _ _ _ Harg) as (Hj & Hph & _ & Hno & _).
  unfold creates, taskFiles. rewrite Hph, Hj, Hno. destruct (phase j) eqn:Hp.
  - intros (r & -> & Hin%elem_of_seqZ)%list_elem_of_fmap. eexists. apply mapFilesOf_lookup; [lia|].
    exists r. split_and!; [lia|lia|done|done].
  - rewrite (readPairs_same fs a) by (done || by apply framed_reduce). unfold reduceFileOf.
    destruct (readPairs base (jobName j) (TaskNumber a) (n_other j)) as [[|kv kvs]|]; [set_solver| |set_solver].
    intros ->%list_elem_of_singleton. simpl.
    destruct (sortByKey (kv :: kvs)) as [|kv' kvs'] eqn:E.
    { pose proof (sortByKey_perm (kv :: kvs)) as Hperm. rewrite E in Hperm. by apply Permutation_nil_cons in Hperm. }
    rewrite lookup_singleton_eq. by eexists.
Qed.

(** The sequential phase is such a run, so every complete run ends in its files. *)
Lemma phase_sequential D fs :
  phase_ok → (∀ a, is_task j a → D a) → over taskFiles (is_task j) base D fs → phaseSeq = Some fs.
Proof.
  intros Hok Hall Ho. destruct (tasks_in_order j) as (args & Hargs & Hf).
  destruct (over_runAll taskFiles (is_task j) base taskFiles_disj (numbered mapF reduceF) args
    (λ fs a Hfr Ha, phase_effect fs a Hok Hfr Ha) Hf _ base (over_init _ _ _)) as (fs' & Hrun & Ho').
  assert (Hseq : phaseSeq = Some fs').
  { rewrite <-Hrun, <-runTasks_runAll. unfold phaseSeq. destruct (phase j) eqn:Hp.
    - apply mapPhaseSeq_runTasks; try done. unfold ntasks in Hargs. by rewrite Hp in Hargs.
    - by apply reducePhaseSeq_runTasks. }
  rewrite Hseq. f_equal.
  assert (Hin : ∀ a, is_task j a → a ∈ args).
  { intros a [Hr Ha]. assert (Some a ∈ taskArg j <$> seqZ 0 (ntasks j)) as Hs.
    { apply list_elem_of_fmap. exists (TaskNumber a). split; [done|]. apply elem_of_seqZ. lia. }
    rewrite <-Hargs in Hs. apply list_elem_of_fmap in Hs as (? & [= <-] & ?). done. }
  apply (over_det taskFiles (is_task j) base (λ _, True)); [done| | |].
  - intros f. destruct (decide (Exists (λ a, is_Some (taskFiles a !! f)) args)) as [He|Hn].
    + left. apply Exists_exists in He as (a & Ha & ?). exists a. split; [|done].
      rewrite Forall_forall in Hf. by apply Hf.
    + right. intros a Ha. apply eq_None_not_Some. intros Hs. apply Hn, Exists_exists. eauto.
  - eapply over_mono, Ho'. intros a Ha _. right. by apply Hin.
  - eapply over_mono, Ho. auto.
Qed.
End Phase.

(** ** The scheduler and its calls *)

(** A step keeps the calls that are not answered and appends new ones. *)
Definition keptCalls {A} (e : SEvent) (l : list A) : list A :=
  match e with Result k _ => delete k l | _ => l end.

Lemma dispatch_calls j s w s' : dispatch j s w = Some s' → ∃ new, calls s' = calls s ++ new.
Proof.
  unfold dispatch. case_decide; [intros; simplify_eq; exists []; by rewrite app_nil_r|].
  case_decide.
  - intros (t & _ & (a & _ & ?)%obind_Some)%obind_Some. simplify_eq/=. by eexists.
  - intros. simplify_eq/=. exists []. by rewrite app_nil_r.
Qed.

Lemma onResult_calls j s r s' : onResult j s r = Some s' → ∃ new, calls s' = calls s ++ new.
Proof.
  unfold onResult. repeat case_match; intros Hs.
  - by apply dispatch_calls in Hs.
  - simplify_eq/=. exists []. by rewrite app_nil_r.
  - by apply dispatch_calls in Hs.
  - apply obind_Some in Hs as (w & _ & Hs). by apply dispatch_calls in Hs.
  - by apply dispatch_calls in Hs.
Qed.

Lemma schedStep_calls j s e s' :
  schedStep j s e = SNext s' → ∃ new, calls s' = keptCalls e (calls s) ++ new.
Proof.
  unfold schedStep. destruct (returned s); [done|]. destruct e as [w|k ok]; simpl.
  - destruct (dispatch j s w) eqn:E; intros; simplify_eq/=. by apply dispatch_calls in E.
  - destruct (calls s !! k) as [c|]; [|done]. destruct (onResult _ _ _) eqn:E; intros; simplify_eq/=.
    by apply onResult_calls in E.
Qed.

Lemma lookup_kept {A B} e (l : list A) (l' : list B) m x y :
  keptCalls e l !! m = Some x → keptCalls e l' !! m = Some y →
  ∃ m', l !! m' = Some x ∧ l' !! m' = Some y ∧ (∀ k b, e = Result k b → m' ≠ k).
Proof.
  destruct e as [w|k b]; simpl; [by exists m|]. destruct (decide (m < k)%nat).
  - rewrite !list_lookup_delete_lt by lia. exists m. split_and!; [done..|]. intros ? ? [= <- <-]. lia.
  - rewrite !list_lookup_delete_ge by lia. exists (S m). split_and!; [done..|]. intros ? ? [= <- <-]. lia.
Qed.

Lemma call_is_task j sc m c : sched_ok j sc → calls sc !! m = Some c → is_task j (callArg c).
Proof.
  intros [Hm _] Hc. split.
  - apply (sched_mid_task _ _ _ Hm). rewrite !elem_of_app. right. right. unfold running.
    apply list_elem_of_fmap. exists c. split; [done|]. by eapply list_elem_of_lookup_2.
  - exact (Forall_lookup_1 _ _ _ _ (sk_args _ _ Hm) Hc).
Qed.

Lemma sched_mid_nodup j sc : sched_mid j sc → NoDup (elements (doneMap sc) ++ waiting sc ++ running sc).
Proof. intros Hm. rewrite (sk_tasks _ _ Hm). apply NoDup_seqZ. Qed.

(** A task in flight is not done, and no other call has it. *)
Lemma call_not_done j sc m c :
  sched_ok j sc → calls sc !! m = Some c →
  TaskNumber (callArg c) ∉ doneMap sc ∧
  ∀ m' c', calls sc !! m' = Some c' → callArg c' = callArg c → m' = m.
Proof.
  intros [Hm _] Hc. pose proof (sched_mid_nodup _ _ Hm) as Hnd.
  assert (Hr : running sc !! m = Some (TaskNumber (callArg c))).
  { unfold running. by rewrite list_lookup_fmap, Hc. }
  apply NoDup_app in Hnd as (_ & Hd & Hnd). split.
  - intros Hin. apply (Hd (TaskNumber (callArg c))); [by apply elem_of_elements|].
    apply elem_of_app. right. by eapply list_elem_of_lookup_2.
  - intros m' c' Hc' E. apply NoDup_app in Hnd as (_ & _ & Hnd).
    assert (running sc !! m' = Some (TaskNumber (callArg c))) as Hr'.
    { unfold running. rewrite list_lookup_fmap, Hc'. simpl. by rewrite E. }
    by eapply NoDup_lookup.
Qed.

Lemma returned_all j sc :
  sched_ok j sc → returned sc = true →
  calls sc = [] ∧ ∀ a, is_task j a → TaskNumber a ∈ doneMap sc.
Proof.
  intros [Hm _] Hr. pose proof (sk_tasks _ _ Hm) as Ht. apply (sk_returned _ _ Hm) in Hr as [_ Hr].
  rewrite (sk_doneN _ _ Hm) in Hr. assert (Hnil : waiting sc ++ running sc = []).
  { apply Permutation_length in Ht. rewrite length_app, length_seqZ in Ht. apply nil_length_inv.
    unfold size, set_size in Hr. simpl in Hr. lia. }
  split.
  - apply app_eq_nil in Hnil as [_ Hn]. unfold running in Hn. by apply fmap_nil_inv in Hn.
  - intros a [Ha _]. rewrite Hnil, app_nil_r in Ht. apply elem_of_elements. rewrite Ht.
    apply elem_of_seqZ. lia.
Qed.

(** ** Connections *)

Definition ranOk (st : ConnState) : bool :=
  match st with Ran | Replied _ => true | _ => false end.

(** How connections may evolve when no task takes effect. *)
Definition conn_le (ks ks' : list Conn) : Prop :=
  (∀ c k, ks !! c = Some k → ∃ k', ks' !! c = Some k' ∧ creq k' = creq k) ∧
  (∀ c k' arg, ks' !! c = Some k' → creq k' = QDoTask arg →
     ∃ k, ks !! c = Some k ∧ (unfinished (cst k') = true → unfinished (cst k) = true) ∧
       (ranOk (cst k') = true → ranOk (cst k) = true)).

Lemma conn_le_refl ks : conn_le ks ks.
Proof. split; eauto. Qed.

Lemma conn_le_trans ks1 ks2 ks3 : conn_le ks1 ks2 → conn_le ks2 ks3 → conn_le ks1 ks3.
Proof.
  intros [Ha Hb] [Ha' Hb']. split.
  - intros c k Hk. destruct (Ha _ _ Hk) as (k' & Hk' & <-). by apply Ha'.
  - intros c k3 arg H3 Hr. destruct (Hb' _ _ _ H3 Hr) as (k2 & H2 & ? & ?).
    destruct (Ha' _ _ H2) as (k3' & H3' & E). simplify_eq. rewrite E in Hr.
    destruct (Hb _ _ _ H2 Hr) as (k1 & ? & ? & ?). exists k1. auto.
Qed.

Lemma conn_le_snoc ks l rpc st :
  (∀ arg, rpc ≠ QDoTask arg) → conn_le ks (ks ++ [mkConn l rpc st]).
Proof.
  intros Hn. split.
  - intros c k Hk. exists k. split; [by apply lookup_app_l_Some|done].
  - intros c k' arg [Hk|[_ Hk]]%lookup_app_Some Hr; [by exists k'|].
    apply list_lookup_singleton_Some in Hk as [_ <-]. by destruct (Hn arg).
Qed.

Lemma conn_le_alter ks c k st :
  ks !! c = Some k →
  ((∀ arg, creq k ≠ QDoTask arg) ∨
   ((unfinished st = true → unfinished (cst k) = true) ∧ (ranOk st = true → ranOk (cst k) = true))) →
  conn_le ks (alter (λ k, mkConn (clis k) (creq k) st) c ks).
Proof.
  intros Hk Hst. split.
  - intros c' k' Hk'. destruct (decide (c = c')) as [<-|].
    + rewrite list_lookup_alter_eq, Hk'. simpl. eauto.
    + rewrite list_lookup_alter_ne by done. eauto.
  - intros c' k' arg. destruct (decide (c = c')) as [<-|].
    + rewrite list_lookup_alter_eq, Hk. simpl. intros [= <-]. simpl. intros Hr. exists k. split; [done|].
      destruct Hst as [Hst|Hst]; [by destruct (Hst arg)|done].
    + rewrite list_lookup_alter_ne by done. eauto.
Qed.

Lemma conn_le_break ks l f : conn_le ks (breakConns l f ks).
Proof.
  unfold breakConns. split.
  - intros c k Hk. rewrite list_lookup_fmap, Hk. simpl. case_match; eauto.
  - intros c k' arg (k & -> & Hk)%list_lookup_fmap_Some _. exists k. split; [done|]. by case_match.
Qed.

(** The outcomes of a step of [call]. *)
Lemma callStep_inv fail cl s cl' s' :
  callStep fail cl s = Some (cl', s') →
  (∃ srv rpc l x, cl = CalNew srv rpc ∧ cl' = CalConn (length (conns s)) ∧ paths s !! srv = Some l ∧
     listeners s !! l = Some x ∧ lopen x = true ∧ s' = set_conns (conns s ++ [mkConn l rpc Queued]) s) ∨
  (s' = s ∧ cl' = CalDone None ∧ ∃ srv rpc, cl = CalNew srv rpc) ∨
  (s' = s ∧ ∃ c k, cl = CalConn c ∧ conns s !! c = Some k ∧
     (cst k = Broken ∧ cl' = CalDone None ∨ ∃ z, cst k = Replied z ∧ cl' = CalDone (Some z))).
Proof.
  unfold callStep. destruct cl as [srv rpc|c|r]; [| |done].
  - destruct (paths s !! srv) as [l|] eqn:Hl; [|intros; simplify_eq; eauto 10].
    destruct (negb fail && _) eqn:Hb; intros; simplify_eq; [|eauto 10]. left.
    apply andb_prop in Hb as [_ Hb]. destruct (listeners s !! l) as [x|] eqn:Hx; [|done]. eauto 12.
  - intros (k & Hk & Hs)%obind_Some. right. right.
    destruct (cst k) eqn:Hst; simplify_eq; (split; [done|]); exists c, k; eauto 6.
Qed.

(** ** The invariant *)

Definition inFlight (m : MPc) : list CallSt := match m with MSched _ _ cs => cs | _ => [] end.

(** A task whose effect is in place: received by [schedule], returned by [call], or executed. *)
Definition succeeded (ks : list Conn) (cl : CallSt) : Prop :=
  match cl with
  | CalConn c => ∃ k, ks !! c = Some k ∧ ranOk (cst k) = true
  | CalDone (Some _) => True
  | _ => False
  end.

Definition finished (ks : list Conn) (sc : Sched) (cs : list CallSt) (a : DoTaskArgs) : Prop :=
  TaskNumber a ∈ doneMap sc ∨
  ∃ m c cl, calls sc !! m = Some c ∧ cs !! m = Some cl ∧ callArg c = a ∧ succeeded ks cl.

(** The goroutine that performs a call of [schedule]. *)
Definition callRel (ks : list Conn) (c : Call) (cl : CallSt) : Prop :=
  match cl with
  | CalNew srv rpc => srv = callee c ∧ rpc = QDoTask (callArg c)
  | CalConn n => ∃ k, ks !! n = Some k ∧ creq k = QDoTask (callArg c)
  | CalDone _ => True
  end.

(** Every task on a connection belongs to a call in flight. *)
Definition tasksOwned (m : MPc) (ks : list Conn) : Prop :=
  ∀ c k arg, ks !! c = Some k → creq k = QDoTask arg → unfinished (cst k) = true →
    ∃ n, inFlight m !! n = Some (CalConn c).

Lemma callRel_le ks ks' c cl : conn_le ks ks' → callRel ks c cl → callRel ks' c cl.
Proof.
  intros [Hle _]. destruct cl as [srv rpc|n|r]; simpl; [done| |done].
  intros (k & Hk & Hr). destruct (Hle _ _ Hk) as (k' & ? & ?). exists k'. split; [done|congruence].
Qed.

Lemma tasksOwned_le m ks ks' : conn_le ks ks' → tasksOwned m ks → tasksOwned m ks'.
Proof.
  intros [Hle Hle'] Ho c k' arg Hk' Hr Hu. destruct (Hle' _ _ _ Hk' Hr) as (k & Hk & Hu' & _).
  apply (Ho c k arg); [done| |auto]. destruct (Hle _ _ Hk) as (k2 & ? & E). simplify_eq. congruence.
Qed.

Lemma finished_le ks ks' sc cs a :
  conn_le ks ks' → Forall2 (callRel ks) (calls sc) cs → finished ks' sc cs a → finished ks sc cs a.
Proof.
  intros [Hle Hle'] Hrel [Hd|(m & c & cl & Hc & Hcl & Ha & Hs)]; [by left|]. right.
  exists m, c, cl. split_and!; [done..|]. destruct cl as [srv rpc|n|r]; simpl in *; [done| |done].
  destruct Hs as (k' & Hk' & Hs). destruct (Forall2_lookup_lr _ _ _ _ _ _ Hrel Hc Hcl) as (k & Hk & Hr).
  destruct (Hle _ _ Hk) as (k2 & ? & E). simplify_eq. rewrite Hr in E.
  destruct (Hle' _ _ _ Hk' E) as (k1 & ? & _ & ?). exists k1. auto.
Qed.

Section Files.
Context `{codec : !KVCodec} `{sorter : !SortByKey}.
Context (mapF : nat → MapFn) (reduceF : string → list string → string).
Context (job : string) (files : list string) (nreduce : nat) (fs0 : FS).
Hypothesis Hpos : (0 < nreduce)%nat.
Hypothesis Hinputs : inputs_ok fs0 job files.
Notation theJob := (theJob job files nreduce).
Notation filesOf ch ph := (taskFiles (λ t, mapF (ch t)) reduceF (theJob ph)).

(** A running task is not finished. *)
Lemma running_not_finished ph sc cs ks c k n cl :
  sched_ok (theJob ph) sc → cs !! n = Some (CalConn c) → calls sc !! n = Some cl →
  ks !! c = Some k → cst k = Running → ¬ finished ks sc cs (callArg cl).
Proof.
  intros Hsc Hn Hcl Hk Hst. destruct (call_not_done _ _ _ _ Hsc Hcl) as [Hnd Huniq].
  intros [Hd|(m & c' & cl' & Hc' & Hcl' & Ha' & Hs)]; [done|].
  pose proof (Huniq _ _ Hc' Ha') as ->. simplify_eq. simpl in Hs. destruct Hs as (? & ? & Hs). simplify_eq.
  by rewrite Hst in Hs.
Qed.

Section Choice.
(** The connection on which each map task succeeded. *)
Context (ch : nat → nat).
Notation mapT := (λ t, mapF (ch t)).

(** The files at the beginning of a phase. *)
Definition baseOf (ph : jobPhase) (base : FS) : Prop :=
  match ph with
  | mapPhase => base = fs0
  | reducePhase => phaseSeq mapT reduceF (theJob mapPhase) fs0 = Some base
  end.

Definition filesOk (m : MPc) (fs : FS) (ks : list Conn) : Prop :=
  match m with
  | MSched ph sc cs =>
      sched_ok (theJob ph) sc ∧ Forall2 (callRel ks) (calls sc) cs ∧
      ∃ base, baseOf ph base ∧
        over (filesOf ch ph base) (is_task (theJob ph)) base (finished ks sc cs) fs
  | MKill _ _ _ | MStop _ | MMerge =>
      ∃ base, baseOf reducePhase base ∧ phaseSeq mapT reduceF (theJob reducePhase) base = Some fs
  | MSend | MOver => Sequential fs0 job files (Z.of_nat nreduce) mapT reduceF = Some fs
  end.

Definition FI (m : MPc) (fs : FS) (ks : list Conn) : Prop := filesOk m fs ks ∧ tasksOwned m ks.

Lemma base_ok ph base : baseOf ph base → phase_ok (theJob ph) base.
Proof.
  destruct ph; simpl; unfold phase_ok; simpl.
  - intros ->. split; [unfold n_other; simpl; lia|done].
  - unfold phaseSeq. simpl. intros Hb i r Hi Hr. split; [done|].
    destruct (mapPhaseSeq_spec fs0 job 0 files (Z.of_nat nreduce) mapT) as (fs1 & Hseq & Hmap & _);
      [lia|lia|apply Hinputs..|].
    unfold n_other in Hb, Hi. simpl in Hb, Hi. rewrite Hb in Hseq. simplify_eq.
    unfold zlen in Hi. destruct (lookup_lt_is_Some_2 files (Z.to_nat i)) as [f Hf]; [lia|].
    unfold ntasks in Hr. simpl in Hr. pose proof (Hmap (Z.to_nat i) f r Hf Hr) as Hm.
    replace (0 + Z.of_nat (Z.to_nat i)) with i in Hm by lia. simpl. rewrite Hm. by eexists.
Qed.

Lemma FI_le m fs ks ks' : FI m fs ks → conn_le ks ks' → FI m fs ks'.
Proof.
  intros [Hf Ho] Hle. split; [|by eapply tasksOwned_le]. destruct m as [ph sc cs| | | | |]; try done.
  destruct Hf as (Hsc & Hrel & base & Hb & Hov). split_and!; [done| |].
  - eapply Forall2_impl; [exact Hrel|]. intros c cl. by apply callRel_le.
  - exists base. split; [done|]. eapply over_mono, Hov. intros a _. by apply finished_le.
Qed.

(** The call that a running task belongs to. *)
Lemma owned_call m fs ks c k arg :
  FI m fs ks → ks !! c = Some k → creq k = QDoTask arg → unfinished (cst k) = true →
  ∃ ph sc cs n cl, m = MSched ph sc cs ∧ cs !! n = Some (CalConn c) ∧ calls sc !! n = Some cl ∧
    callArg cl = arg ∧ is_task (theJob ph) arg.
Proof.
  intros [Hf Ho] Hk Hr Hu. destruct (Ho c k arg Hk Hr Hu) as [n Hn]. destruct m as [ph sc cs| | | | |]; try done.
  simpl in Hn. destruct Hf as (Hsc & Hrel & _). destruct (Forall2_lookup_r _ _ _ _ _ Hrel Hn) as (cl & Hcl & Hc).
  simpl in Hc. destruct Hc as (k' & ? & ?). simplify_eq.
  exists ph, sc, cs, n, cl. split_and!; [done..|congruence|]. replace arg with (callArg cl) by congruence.
  by eapply call_is_task.
Qed.

(** What interrupted tasks leave behind. *)
Lemma FI_garbage m fs ks g :
  FI m fs ks →
  (∀ f, is_Some (g !! f) → ∃ c k arg, ks !! c = Some k ∧ creq k = QDoTask arg ∧ cst k = Running ∧
     f ∈ creates fs arg) →
  FI m (g ∪ fs) ks.
Proof.
  intros HF Hg. destruct m as [ph sc cs| | | | |]; cycle 1.
  1-5: replace g with (∅ : FS); [by rewrite map_empty_union|]; apply map_eq; intros f; rewrite lookup_empty;
    destruct (g !! f) eqn:E; [|done]; destruct (Hg f) as (c & k & arg & Hk & Hr & Hst & _); [by rewrite E|];
    destruct (owned_call _ _ _ _ _ _ HF Hk Hr) as (? & ? & ? & ? & ? & ? & _); [by rewrite Hst|done].
  pose proof HF as [(Hsc & Hrel & base & Hb & Hov) Ho]. split; [|done]. split_and!; [done..|].
  exists base. split; [done|]. apply over_part; [by apply taskFiles_disj| |done].
  intros f Hf. destruct (Hg f Hf) as (c & k & arg & Hk & Hr & Hst & Hcr).
  destruct (owned_call _ _ _ _ _ _ HF Hk Hr) as (? & ? & ? & n & cl & E & Hn & Hcl & Ha & Ht); [by rewrite Hst|].
  simplify_eq. eexists. split_and!; [exact Ht|by eapply running_not_finished|].
  - eapply creates_files; [by apply base_ok|apply Hov|done|done].
Qed.

(** A call returns. *)
Lemma FI_done ph sc cs fs ks n cl r :
  FI (MSched ph sc cs) fs ks → cs !! n = Some cl → (is_Some r → succeeded ks cl) →
  (∀ c k, cl = CalConn c → ks !! c = Some k → unfinished (cst k) = false) →
  FI (MSched ph sc (<[n := CalDone r]> cs)) fs ks.
Proof.
  intros [(Hsc & Hrel & base & Hb & Hov) Ho] Hn Hr Hfin.
  destruct (Forall2_lookup_r _ _ _ _ _ Hrel Hn) as (c0 & Hc0 & _).
  assert (Hlt : (n < length cs)%nat) by by eapply lookup_lt_Some.
  split; [split_and!; [done|by apply Forall2_set_r with c0|exists base; split; [done|]]|].
  - eapply over_mono, Hov. intros a _ [Hd|(m & c & cl' & Hc & Hcl & Ha & Hs)]; [by left|]. right.
    destruct (decide (m = n)) as [->|Hmn].
    + rewrite list_lookup_insert_eq in Hcl by done. simplify_eq. exists n, c0, cl. split_and!; [done..|].
      apply Hr. destruct r; [by eexists|done].
    + rewrite list_lookup_insert_ne in Hcl by done. by exists m, c, cl'.
  - intros c k arg Hk Hreq Hu. destruct (Ho c k arg Hk Hreq Hu) as [m Hm]. exists m. simpl in *.
    rewrite list_lookup_insert_ne; [done|]. intros <-. simplify_eq. by rewrite (Hfin c k) in Hu.
Qed.

Lemma FI_call ph sc cs fs n cl fail s cl' s' :
  FI (MSched ph sc cs) fs (conns s) → cs !! n = Some cl → callStep fail cl s = Some (cl', s') →
  FI (MSched ph sc (<[n := cl']> cs)) fs (conns s').
Proof.
  intros HF Hn Hstep. pose proof HF as [(Hsc & Hrel & base & Hb & Hov) Ho].
  destruct (Forall2_lookup_r _ _ _ _ _ Hrel Hn) as (c0 & Hc0 & Hr0).
  assert (Hlt : (n < length cs)%nat) by by eapply lookup_lt_Some.
  apply callStep_inv in Hstep as [(srv & rpc & l & x & -> & -> & Hl & Hx & Hop & ->)|[(-> & -> & srv & rpc & ->)|
    (-> & c & k & -> & Hk & Hst)]].
  - (* Dial *)
    simpl in Hr0. destruct Hr0 as [-> ->].
    split; [split_and!; [done| |exists base; split; [done|]]|].
    + apply Forall2_set_r with c0; [|done|].
      * eapply Forall2_impl; [exact Hrel|]. intros c [|m|]; simpl; try done.
        intros (k & Hk & ?). exists k. split; [|done]. by apply lookup_app_l_Some.
      * simpl. eexists. split; [by apply list_lookup_middle|done].
    + eapply over_mono, Hov. intros a _ [Hd|(m & c & cl & Hc & Hcl & Ha & Hs)]; [by left|].
      destruct (decide (m = n)) as [->|Hmn].
      * rewrite list_lookup_insert_eq in Hcl by done. simplify_eq. simpl in Hs.
        destruct Hs as (k & Hk & Hs). rewrite lookup_app_r, Nat.sub_diag in Hk by done. by simplify_eq/=.
      * rewrite list_lookup_insert_ne in Hcl by done. right. exists m, c, cl. split_and!; [done..|].
        pose proof (Forall2_lookup_lr _ _ _ _ _ _ Hrel Hc Hcl) as Hcr.
        destruct cl as [|c'|]; simpl in *; try done. destruct Hcr as (k & Hk & _), Hs as (k' & Hk' & ?).
        rewrite lookup_app_l in Hk' by (by eapply lookup_lt_Some). eauto.
    + intros c k arg [Hk|[Hge Hk]]%lookup_app_Some Hr Hu.
      * destruct (Ho c k arg Hk Hr Hu) as [m Hm]. exists m. simpl in *.
        rewrite list_lookup_insert_ne; [done|]. intros <-. simplify_eq.
      * exists n. simpl. rewrite list_lookup_insert_eq by done. apply list_lookup_singleton_Some in Hk as [? _].
        do 2 f_equal. lia.
  - (* Dial fails *) by apply (FI_done _ _ _ _ _ _ (CalNew srv rpc)).
  - (* the connection has a reply or is broken *)
    destruct Hst as [[Hst ->]|(z & Hst & ->)]; apply (FI_done _ _ _ _ _ _ (CalConn c)); try done.
    + intros ? k' [= <-] ?. simplify_eq. by rewrite Hst.
    + intros _. exists k. by rewrite Hst.
    + intros ? k' [= <-] ?. simplify_eq. by rewrite Hst.
Qed.

(** [schedule] receives a worker or a result. *)
Lemma FI_sched ph sc cs fs ks e sc' :
  FI (MSched ph sc cs) fs ks → schedStep (theJob ph) sc e = SNext sc' →
  (∀ n b, e = Result n b → ∃ r, cs !! n = Some (CalDone r) ∧ (b = true → is_Some r)) →
  FI (MSched ph sc' (newCalls (keptCalls e cs) sc')) fs ks.
Proof.
  intros [(Hsc & Hrel & base & Hb & Hov) Ho] Hstep He.
  pose proof (schedStep_ok (theJob ph) sc e Hsc) as Hok. rewrite Hstep in Hok. destruct Hok as (Hsc' & _ & Hdone & _).
  destruct (schedStep_calls _ _ _ _ Hstep) as [new Hnew].
  assert (Hrel' : Forall2 (callRel ks) (keptCalls e (calls sc)) (keptCalls e cs)).
  { destruct e as [w|n b]; simpl; [done|]. by apply Forall2_delete. }
  assert (Hcs' : newCalls (keptCalls e cs) sc' =
    keptCalls e cs ++ ((λ c, CalNew (callee c) (QDoTask (callArg c))) <$> new)).
  { unfold newCalls. rewrite Hnew, drop_app_length'; [done|]. by apply Forall2_length in Hrel'. }
  split; [split_and!; [done| |exists base; split; [done|]]|].
  - rewrite Hcs', Hnew. apply Forall2_app; [done|]. apply Forall2_fmap_r, Forall_Forall2_diag.
    apply Forall_forall. by intros c _.
  - eapply over_mono, Hov. intros a Hta [Hd|(m & c & cl & Hc & Hcl & Ha & Hs)].
    + apply elem_of_elements in Hd. rewrite Hdone in Hd. apply elem_of_app in Hd as [Hd|Hd];
        [|left; by apply elem_of_elements]. destruct e as [w|n []]; simpl in Hd; [set_solver| |set_solver].
      destruct (calls sc !! n) as [c|] eqn:Hc; [|set_solver]. apply list_elem_of_singleton in Hd.
      destruct (He n true eq_refl) as (r & Hr & Hr'). destruct (Hr' eq_refl) as [z ->].
      right. exists n, c, (CalDone (Some z)). split_and!; [done..| |done].
      exact (is_task_inj _ _ _ (call_is_task _ _ _ _ Hsc Hc) Hta (eq_sym Hd)).
    + rewrite Hcs' in Hcl. rewrite Hnew in Hc. apply lookup_app_Some in Hcl as [Hcl|[_ Hcl]].
      * rewrite lookup_app_l in Hc by (apply Forall2_length in Hrel' as ->; by eapply lookup_lt_Some).
        destruct (lookup_kept _ _ _ _ _ _ Hc Hcl) as (m' & ? & ? & _). right. by exists m', c, cl.
      * apply list_lookup_fmap_Some in Hcl as (? & -> & _). done.
  - intros c k arg Hk Hr Hu. destruct (Ho c k arg Hk Hr Hu) as [m Hm]. simpl in *. rewrite Hcs'.
    assert (CalConn c ∈ keptCalls e cs) as Hin; [|apply list_elem_of_lookup in Hin as [m' Hm'];
      exists m'; by apply lookup_app_l_Some].
    destruct e as [w|n b]; simpl; [by eapply list_elem_of_lookup_2|].
    destruct (He n b eq_refl) as (r & Hn & _). apply list_elem_of_lookup.
    destruct (decide (m < n)%nat).
    + exists m. by rewrite list_lookup_delete_lt.
    + exists (pred m). assert (m ≠ n) by (intros ->; simplify_eq). rewrite list_lookup_delete_ge by lia.
      by replace (S (pred m)) with m by lia.
Qed.

(** A phase that has returned has written the files of the sequential one. *)
Lemma FI_returned ph sc cs fs ks :
  FI (MSched ph sc cs) fs ks → returned sc = true →
  cs = [] ∧ ∃ base, baseOf ph base ∧ phaseSeq mapT reduceF (theJob ph) base = Some fs.
Proof.
  intros [(Hsc & Hrel & base & Hb & Hov) Ho] Hret. destruct (returned_all _ _ Hsc Hret) as [Hc Hall].
  rewrite Hc in Hrel. split; [by inversion Hrel|]. exists base. split; [done|].
  eapply phase_sequential; [by apply base_ok| |exact Hov]. intros a Ha. left. auto.
Qed.

Lemma tasksOwned_none m m' ks : inFlight m = [] → tasksOwned m ks → tasksOwned m' ks.
Proof. intros E Ho c k arg Hk Hr Hu. destruct (Ho c k arg Hk Hr Hu) as [n Hn]. by rewrite E in Hn. Qed.

Lemma FI_next_phase sc cs fs ks :
  FI (MSched mapPhase sc cs) fs ks → returned sc = true →
  FI (MSched reducePhase (schedInit (theJob reducePhase)) []) fs ks.
Proof.
  intros HF Hret. destruct (FI_returned _ _ _ _ _ HF Hret) as (-> & base & -> & Hseq).
  split; [|by eapply tasksOwned_none, HF]. split_and!; [apply schedInit_ok|constructor|].
  exists fs. split; [done|]. eapply over_mono, over_init. intros a _ [Hd|(m & c & cl & Hc & _)]; [set_solver|done].
Qed.

Lemma FI_kill sc cs fs ks m :
  FI (MSched reducePhase sc cs) fs ks → returned sc = true →
  (m = MMerge ∨ (∃ todo acc cur, m = MKill todo acc cur) ∨ ∃ cl, m = MStop cl) → FI m fs ks.
Proof.
  intros HF Hret Hm. destruct (FI_returned _ _ _ _ _ HF Hret) as (-> & base & Hb & Hseq).
  split; [|by eapply tasksOwned_none, HF].
  destruct Hm as [->|[(?&?&?&->)|[? ->]]]; simpl; eauto.
Qed.

Lemma phases_sequential base fs :
  baseOf reducePhase base → phaseSeq mapT reduceF (theJob reducePhase) base = Some fs →
  Sequential fs0 job files (Z.of_nat nreduce) mapT reduceF = merge fs job (Z.of_nat nreduce).
Proof.
  unfold Sequential, run, baseOf, phaseSeq. simpl. unfold n_other, ntasks. simpl.
  intros -> Hr. simpl. rewrite Hr. done.
Qed.

(** ** Steps *)

(** Only [schedule] sends tasks. *)
Definition regOk (w : Wk) : Prop :=
  ∀ srv rpc, wpc w = WReg (CalNew srv rpc) → rpc = QRegister (wname (wst w)).

Definition mainOk (m : MPc) : Prop :=
  match m with
  | MKill _ _ (Some (CalNew _ rpc)) => rpc = QWorkerShutdown
  | MStop (CalNew _ rpc) => rpc = QMasterShutdown
  | _ => True
  end.

Record FInvAt (s : DSys) : Prop := {
  fi_main : FI (main s) (dfs s) (conns s);
  fi_reg : Forall regOk (wks s);
  fi_stop : mainOk (main s);
  fi_dead : dead s ≠ Some FTask ∧ dead s ≠ Some FSched ∧
    (dead s = Some FMerge → Sequential fs0 job files (Z.of_nat nreduce) mapT reduceF = None);
}.

(** Steps that move no task and leave the main goroutine alone. *)
Lemma FInv_frame s s' :
  FInvAt s → main s' = main s → dfs s' = dfs s → conn_le (conns s) (conns s') →
  Forall regOk (wks s') → dead s' = dead s → FInvAt s'.
Proof.
  intros [Hm Hr Hst Hd] Em Ef Hle Hr' Ed. split; [|done|by rewrite Em|by rewrite Ed].
  rewrite Em, Ef. by eapply FI_le.
Qed.

Lemma FInv_dead s why : FInvAt s → why ≠ FTask → why ≠ FSched → why ≠ FMerge → FInvAt (set_dead why s).
Proof. intros [Hm Hr Hst Hd] ???. split; [done..|]. simpl. split_and!; congruence. Qed.

Lemma leftovers_running l s f :
  f ∈ leftovers l s → ∃ c k arg, conns s !! c = Some k ∧ creq k = QDoTask arg ∧ cst k = Running ∧
    f ∈ creates (dfs s) arg.
Proof.
  unfold leftovers. intros (k & Hf & Hk)%list_elem_of_bind. apply list_elem_of_lookup in Hk as [c Hk].
  destruct (creq k) eqn:Hr; try (by apply elem_of_nil in Hf).
  destruct (cst k) eqn:Hst; try (by apply elem_of_nil in Hf).
  case_decide; [|by apply elem_of_nil in Hf]. eauto 10.
Qed.

Lemma FInv_crash s i w g s' :
  FInvAt s → wks s !! i = Some w → crash i w g s = Some s' → FInvAt s'.
Proof.
  intros [Hm Hr Hst Hd] Hw. unfold crash.
  assert (Hr' : Forall regOk (<[i := mkWk (wst w) (wpar w) (wown w) false (wlis w) WOver]> (wks s)))
    by (apply Forall_insert; [done|by intros ???]).
  destruct (wlis w) as [l|]; case_bool_decide as Hg; intros ?; simplify_eq; [|by split].
  split; [|done..]. simpl. eapply FI_le, conn_le_break. apply FI_garbage; [done|].
  intros f Hf. apply (leftovers_running l). rewrite Forall_forall in Hg. apply Hg.
  by apply elem_of_elements, elem_of_dom.
Qed.

Lemma FInv_fatal s i w why s' :
  FInvAt s → wks s !! i = Some w → why ≠ FTask → why ≠ FSched → why ≠ FMerge →
  fatalAt i w why s = Some s' → FInvAt s'.
Proof.
  intros HI Hw ???. unfold fatalAt. destruct (wown w); [by eapply FInv_crash|].
  intros ?; simplify_eq. by apply FInv_dead.
Qed.

Lemma regOk_alter f i ws :
  Forall regOk ws → (∀ w, regOk w → regOk (f w)) → Forall regOk (alter f i ws).
Proof. intros Hf Hp. apply Forall_alter; [done|]. intros w _. apply Hp. Qed.

Lemma regOk_pc w pc :
  (∀ srv rpc, pc ≠ WReg (CalNew srv rpc)) → regOk (mkWk (wst w) (wpar w) (wown w) (wlive w) (wlis w) pc).
Proof. intros Hn srv rpc Hp. by destruct (Hn srv rpc). Qed.

Lemma regOk_wst w x : regOk w → wname x = wname (wst w) →
  regOk (mkWk x (wpar w) (wown w) (wlive w) (wlis w) (wpc w)).
Proof. intros Hr E srv rpc Hp. simpl in *. rewrite E. by eapply Hr. Qed.

Lemma FInv_accept s l c s' : FInvAt s → accept l s = Some (c, s') → FInvAt s'.
Proof.
  intros HI. unfold accept. intros ([c' k] & Hf & ?)%obind_Some. simplify_eq.
  apply list_find_Some in Hf as (Hk & [_ Hst] & _).
  eapply FInv_frame; [done..|eapply conn_le_alter; [done|]|apply HI|done].
  right. by rewrite Hst.
Qed.

Lemma FInv_callStep s fail cl cl' s' :
  FInvAt s → (∀ srv rpc, cl = CalNew srv rpc → ∀ arg, rpc ≠ QDoTask arg) →
  callStep fail cl s = Some (cl', s') → FInvAt s' ∧ main s' = main s ∧ wks s' = wks s ∧ (∀ srv rpc, cl' ≠ CalNew srv rpc).
Proof.
  intros HI Hn Hstep. apply callStep_inv in Hstep as [(srv & rpc & l & x & -> & -> & _ & _ & _ & ->)|
    [(-> & -> & _)|(-> & c & k & _ & _ & Hc)]]; [| by split_and!|].
  - split_and!; [|done..]. eapply FInv_frame; [done..|apply conn_le_snoc; by eapply Hn|apply HI|done].
  - split_and!; [done..|]. intros srv rpc ->. by destruct Hc as [[_ ?]|(? & _ & ?)].
Qed.

Lemma closeListener_frame l s :
  main (closeListener l s) = main s ∧ dfs (closeListener l s) = dfs s ∧
  wks (closeListener l s) = wks s ∧ dead (closeListener l s) = dead s ∧
  conn_le (conns s) (conns (closeListener l s)).
Proof.
  unfold closeListener. destruct (listeners s !! l); simpl; split_and!; try done;
    [apply conn_le_break|apply conn_le_refl].
Qed.

Lemma FInv_workerStep s i fail s' : FInvAt s → workerStep i fail s = Some s' → FInvAt s'.
Proof.
  intros HI. unfold workerStep. intros (w & Hw & Hs)%obind_Some.
  pose proof (Forall_lookup_1 _ _ _ _ (fi_reg _ HI) Hw) as Hrw.
  assert (Hpc : ∀ pc s0, FInvAt s0 → wks s0 = wks s → (∀ srv rpc, pc ≠ WReg (CalNew srv rpc)) →
    FInvAt (set_pc i pc s0)).
  { intros pc s0 H0 E Hn. eapply FInv_frame; [exact H0|done|done|apply conn_le_refl| |done].
    apply regOk_alter; [apply H0|]. intros w0 _. by apply regOk_pc. }
  destruct (wpc w) as [| |cl| | | |] eqn:Epc; simplify_eq/=.
  - eapply FInv_frame; [exact HI|done|done|apply conn_le_refl| |done].
    apply regOk_alter; [apply HI|]. intros w0 _. by apply regOk_pc.
  - unfold listen in Hs. destruct (paths s !! _) eqn:Hp; [revert Hs; by apply FInv_fatal|]. simplify_eq/=.
    eapply FInv_frame; [exact HI|done|done|apply conn_le_refl| |done].
    apply Forall_insert; [apply HI|]. intros srv rpc. simpl. by intros [= <- <-].
  - destruct cl as [srv rpc|c|r].
    3: { simplify_eq. by apply Hpc. }
    all: apply obind_Some in Hs as ([cl s1] & Hc & ?); simplify_eq;
      apply FInv_callStep in Hc as (H1 & _ & E & Hn); [|done|by intros ?? [= <- <-]; rewrite (Hrw _ _ Epc)..];
      apply Hpc; [done..|]; intros ???; by eapply Hn; simplify_eq.
  - apply Hpc; [done..|]. intros ??. by destruct (loopCheck _).
  - apply obind_Some in Hs as (l & _ & Hs). apply obind_Some in Hs as ([c s1] & Ha & ?). simplify_eq.
    pose proof (FInv_accept _ _ _ _ HI Ha) as H1.
    eapply FInv_frame; [exact H1|done|done|apply conn_le_refl| |done]. simpl.
    apply regOk_alter; [|intros; by apply regOk_pc].
    assert (wks s1 = wks s) as ->.
    { unfold accept in Ha. apply obind_Some in Ha as ([? ?] & _ & ?). by simplify_eq. }
    apply Forall_alter; [apply HI|]. intros w0 Hw0 Hr0. simplify_eq. by apply regOk_wst.
  - apply obind_Some in Hs as (l & _ & ?). simplify_eq. destruct (closeListener_frame l s) as (Em & Ef & Ew & Ed & Hle).
    eapply FInv_frame; [exact HI|done|done|done| |done]. simpl. rewrite Ew.
    apply regOk_alter; [apply HI|]. intros. by apply regOk_pc.
Qed.

Lemma FInv_reply s c k st s1 :
  FInvAt s → conns s !! c = Some k →
  (∀ arg, creq k ≠ QDoTask arg) ∨
   ((unfinished st = true → unfinished (cst k) = true) ∧ (ranOk st = true → ranOk (cst k) = true)) →
  main s1 = main s → dfs s1 = dfs s → conns s1 = conns s → Forall regOk (wks s1) → dead s1 = dead s →
  FInvAt (set_cst c st s1).
Proof.
  intros HI Hk Hst Em Ef Ec Hr Ed. eapply FInv_frame; [exact HI|done|done| |done|done].
  simpl. rewrite Ec. by eapply conn_le_alter.
Qed.

Lemma FInv_serveMaster s c k s' :
  FInvAt s → conns s !! c = Some k → cst k = Accepted → serveMaster c (creq k) s = Some s' → FInvAt s'.
Proof.
  intros HI Hk Hst. unfold serveMaster. destruct (creq k) as [w| |arg|] eqn:Hr.
  - intros Hs. assert (s' = set_cst c (Replied 0) (set_mr (Register (mr s) w) s)) as ->
      by (by destruct (main s); simplify_eq).
    eapply FInv_reply; [done|done|left; by rewrite Hr|done|done|done|apply HI|done].
  - destruct (mstop s); intros; simplify_eq; [by apply FInv_dead|].
    destruct (closeListener_frame 0 (set_mstop true s)) as (Em & Ef & Ew & Ed & Hle).
    eapply FInv_frame; [exact HI|done|done| |simpl; rewrite Ew; apply HI|done].
    eapply conn_le_trans; [exact Hle|]. simpl. destruct (proj1 Hle c k) as (k' & Hk' & E); [done|].
    eapply conn_le_alter; [done|]. left. by rewrite E, Hr.
  - intros; simplify_eq. eapply FInv_reply; [done|done|right; by rewrite Hst|done|done|done|apply HI|done].
  - intros; simplify_eq. eapply FInv_reply; [done|done|left; by rewrite Hr|done|done|done|apply HI|done].
Qed.

Lemma doTaskBegin_name wk p x q b : doTaskBegin wk p = Some (x, q, b) → wname x = wname wk.
Proof. unfold doTaskBegin. case_decide; [done|]. destruct p; intros; by simplify_eq/=. Qed.

Lemma FInv_schedNext s ph sc cs s1 e s' :
  FInvAt s → main s = MSched ph sc cs → main s1 = main s → dfs s1 = dfs s → conns s1 = conns s →
  wks s1 = wks s → dead s1 = dead s →
  (∀ n b, e = Result n b → ∃ r, cs !! n = Some (CalDone r) ∧ (b = true → is_Some r)) →
  schedNext ph (keptCalls e cs) (schedStep (theJob ph) sc e) s1 = Some s' → FInvAt s'.
Proof.
  intros HI Em Em1 Ef Ec Ew Ed He. pose proof (fi_main _ HI) as HF. rewrite Em in HF.
  pose proof (schedStep_ok (theJob ph) sc e) as Hok.
  destruct (schedStep (theJob ph) sc e) as [| |sc'] eqn:Hs; simpl; intros; simplify_eq.
  - destruct Hok. apply HF.
  - split; simpl; [|rewrite Ew; apply HI|done|rewrite Ed; apply HI]. rewrite Ef, Ec. by apply (FI_sched _ sc).
Qed.

Lemma FInv_mainStep s fail s' : FInvAt s → mainStep job files nreduce fail s = Some s' → FInvAt s'.
Proof.
  intros HI. pose proof (fi_main _ HI) as HF. pose proof (fi_stop _ HI) as Hok. unfold mainStep, stopStep.
  assert (Hset : ∀ m s0, FInvAt s0 → (FI (main s0) (dfs s0) (conns s0) → FI m (dfs s0) (conns s0)) → mainOk m →
    FInvAt (set_main m s0)).
  { intros m s0 [H1 H2 H3 H4] Hm Ho. split; [by apply Hm|done..]. }
  destruct (main s) as [ph sc cs|todo acc cur|cl| | |] eqn:Em.
  - destruct (returned sc) eqn:Hret; [|done]. intros; simplify_eq. destruct ph.
    + apply (Hset _ (set_fwds _ s)); [by eapply FInv_frame; [exact HI|..|apply conn_le_refl|apply HI|]| |done].
      simpl. rewrite Em. intros ?. by eapply FI_next_phase.
    + apply Hset; [done| |done]. rewrite Em. intros ?. eapply FI_kill; [done..|]. right. left. eauto.
  - unfold killStep. destruct cur as [[srv rpc|c|r]|].
    1,2: intros ([cl s1] & Hc & ?)%obind_Some; simplify_eq;
      apply FInv_callStep in Hc as (H1 & E & _ & Hn); [|done|intros ?? [= <- <-]; simpl in Hok; by subst]; apply Hset;
      [done|rewrite E, Em; done|]; destruct cl; [by destruct (Hn srv0 rpc0)||by edestruct Hn|done|done].
    + intros; simplify_eq. apply Hset; [done|by rewrite Em|done].
    + destruct todo as [|w todo]; intros; simplify_eq; apply Hset; try done; simpl; try by rewrite Em.
      by eapply FInv_frame; [exact HI|..|apply conn_le_refl|apply HI|].
  - destruct cl as [srv rpc|c|r].
    1,2: intros ([cl s1] & Hc & ?)%obind_Some; simplify_eq;
      apply FInv_callStep in Hc as (H1 & E & _ & Hn); [|done|intros ?? [= <- <-]; simpl in Hok; by subst]; apply Hset;
      [done|rewrite E, Em; done|]; destruct cl; [by edestruct Hn|done|done].
    intros; simplify_eq. apply Hset; [done|by rewrite Em|done].
  - destruct HF as [(base & Hb & Hseq) Ho].
    pose proof (phases_sequential base _ Hb Hseq) as Hsq.
    intros; simplify_eq. destruct (merge (dfs s) job (Z.of_nat nreduce)) as [fs|] eqn:Hmg.
    + split; [split; [done|by eapply tasksOwned_none, Ho]|apply HI|done|apply HI].
    + split; [by simpl; rewrite Em; split; [exists base|]|apply HI|by simpl; rewrite Em|]. simpl. split_and!; [done..|].
      by rewrite Hsq.
  - done.
  - done.
Qed.

Lemma FInv_serveWorker s i w c k s' :
  FInvAt s → wks s !! i = Some w → conns s !! c = Some k →
  (∀ arg, creq k = QDoTask arg → cst k ≠ Running) → serveWorker mapF reduceF i w c k s = Some s' → FInvAt s'.
Proof.
  intros HI Hw Hk Hquiet. unfold serveWorker.
  assert (Hwst : ∀ x, wname x = wname (wst w) →
    Forall regOk (alter (λ w, mkWk x (wpar w) (wown w) (wlive w) (wlis w) (wpc w)) i (wks s))).
  { intros x E. apply Forall_alter; [apply HI|]. intros w0 Hw0 Hr0. simplify_eq. by apply regOk_wst. }
  assert (Hbroken : cst k = Accepted → FInvAt (set_cst c Broken s)).
  { intros Hst. eapply FInv_reply; [done|done|right; by rewrite Hst|done|done|done|apply HI|done]. }
  destruct (creq k) as [wn| |arg|] eqn:Hr.
  1,2: destruct (cst k); intros; simplify_eq; auto.
  - destruct (cst k) eqn:Hst; try done.
    + destruct (doTaskBegin _ _) as [[[x q] b]|] eqn:Hb; [|by apply FInv_fatal].
      intros; simplify_eq. eapply FInv_reply; [done|done|right; by rewrite Hst|done|done|done|apply Hwst|done].
      by eapply doTaskBegin_name.
    + by destruct (Hquiet arg).
    + simpl. intros; simplify_eq. eapply FInv_reply; [done|done|right; by rewrite Hst|done|done|done|by apply Hwst|done].
  - destruct (cst k) eqn:Hst; try done. simpl. intros; simplify_eq.
    eapply FInv_reply; [done|done|left; by rewrite Hr|done|done|done|by apply Hwst|done].
Qed.

(** The step is that of a task that takes effect. *)
Definition takesEffect (s : DSys) (e : DEvent) : bool :=
  match e with
  | DServe c =>
      match conns s !! c with
      | Some (mkConn _ (QDoTask _) Running) => true
      | _ => false
      end
  | _ => false
  end.

Lemma FInv_quiet s e s' :
  takesEffect s e = false → FInvAt s → dstep mapF reduceF job files nreduce s e = Some s' → FInvAt s'.
Proof.
  intros Hq HI. unfold dstep. case_bool_decide as Hd; [|done].
  destruct e as [me nrpc sh own|i fail|c| |p|m|k fail|k|fail| |i g].
  - destruct (negb _); intros; simplify_eq. eapply FInv_frame; [exact HI|done|done|apply conn_le_refl| |done].
    apply Forall_app. split; [apply HI|]. constructor; [by intros ??|done].
  - by apply FInv_workerStep.
  - unfold serveConn. intros (k & Hk & (x & Hx & Hs)%obind_Some)%obind_Some.
    destruct (lowner x) as [i|].
    + apply obind_Some in Hs as (w & Hw & Hs). eapply FInv_serveWorker; [done..| |done].
      intros arg Hr Hst. simpl in Hq. rewrite Hk in Hq. destruct k; by simplify_eq/=.
    + destruct (cst k) eqn:Hst; try done. by eapply FInv_serveMaster.
  - unfold masterLoop. destruct (mloop s); [| |done].
    + intros; simplify_eq. by eapply FInv_frame; [exact HI|..|apply conn_le_refl|apply HI|].
    + case_match; [|intros; simplify_eq; by eapply FInv_frame; [exact HI|..|apply conn_le_refl|apply HI|]].
      intros ([c s1] & Ha & ?)%obind_Some. simplify_eq. pose proof (FInv_accept _ _ _ _ HI Ha) as H1.
      by eapply FInv_frame; [exact H1|..|apply conn_le_refl|apply H1|].
  - unfold forwardStep. intros (f & Hf & Hs)%obind_Some.
    assert (∃ x, s' = set_fwds x s) as [x ->].
    { destruct (main s); try done; apply obind_Some in Hs as ([w i] & _ & ?); simplify_eq; eauto. }
    by eapply FInv_frame; [exact HI|..|apply conn_le_refl|apply HI|].
  - unfold schedRecv. destruct (main s) as [ph sc cs| | | | |] eqn:Em; try done.
    intros (f & Hf & (w & Hw & Hs)%obind_Some)%obind_Some. by refine (FInv_schedNext s ph sc cs _ (Registered w) s' HI Em _ _ _ _ _ _ Hs).
  - unfold schedCall. destruct (main s) as [ph sc cs| | | | |] eqn:Em; try done.
    intros (cl & Hcl & ([cl' s1] & Hc & ?)%obind_Some)%obind_Some. simplify_eq.
    pose proof (fi_main _ HI) as HF. rewrite Em in HF.
    assert (dfs s1 = dfs s ∧ wks s1 = wks s ∧ dead s1 = dead s) as (Ef & Ew & Ed)
      by (apply callStep_inv in Hc; naive_solver).
    split; simpl; [|rewrite Ew; apply HI|done|rewrite Ed; apply HI]. rewrite Ef. by eapply FI_call.
  - unfold schedResult. destruct (main s) as [ph sc cs| | | | |] eqn:Em; try done.
    intros (cl & Hcl & Hs)%obind_Some. destruct cl as [| |r]; try done.
    refine (FInv_schedNext s ph sc cs _ (Result k _) s' HI Em _ _ _ _ _ _ Hs); try done.
    intros n b [= <- <-]. exists r. split; [done|]. by destruct r.
  - by apply FInv_mainStep.
  - unfold Wait. destruct (main s) eqn:Em; try done. intros; simplify_eq.
    destruct HI as [[HF Ho] Hr Hst Hdd]. rewrite Em in HF, Ho. by split.
  - intros (w & Hw & Hs)%obind_Some. destruct (wown w && wlive w); [|done]. by eapply FInv_crash.
Qed.

End Choice.

(** Task [t] succeeds on connection [c]. *)
Definition choose (ph : jobPhase) (t : Z) (c : nat) (ch : nat → nat) : nat → nat :=
  match ph with mapPhase => λ n, if decide (n = Z.to_nat t) then c else ch n | reducePhase => ch end.

Lemma mapFilesOf_dom j base (F F' : nat → MapFn) a f :
  is_task j a → mapFilesOf F j base a !! f = None ↔ mapFilesOf F' j base a !! f = None.
Proof.
  intros [Ha _]. rewrite !eq_None_not_Some. split; intros Hn [v Hv]; apply Hn;
    apply mapFilesOf_lookup in Hv as (r & Hr & -> & _); try lia; eexists; apply mapFilesOf_lookup; try lia; by exists r.
Qed.

Lemma choose_over ph base ch c arg D fs :
  is_task (theJob ph) arg → ¬ D arg →
  over (filesOf ch ph base) (is_task (theJob ph)) base D fs →
  over (filesOf (choose ph (TaskNumber arg) c ch) ph base) (is_task (theJob ph)) base D fs.
Proof.
  intros Ht Hn. destruct ph; [|done]. apply over_change.
  - intros a f Ha. by apply mapFilesOf_dom.
  - intros a Ha Hd. unfold taskFiles. simpl. unfold mapFilesOf, mapOf. simpl. rewrite decide_False; [done|].
    intros E. apply Hn. rewrite (is_task_inj _ _ _ Ht Ha); [done|]. destruct Ht as [? _], Ha as [? _]. lia.
Qed.

Lemma choose_effect ph arg c ch fs :
  is_task (theJob ph) arg →
  numbered (λ t, mapF (choose ph (TaskNumber arg) c ch t)) reduceF fs arg = taskEffect (mapF c) reduceF fs arg.
Proof.
  intros [_ Ha]. destruct (taskArg_shape _ _ _ Ha) as (_ & Hph & _). unfold numbered, taskEffect. rewrite Hph.
  destruct ph; simpl; [by rewrite decide_True|done].
Qed.

(** A task that runs to its end. *)
Lemma FI_effect ch m fs ks c k arg :
  FI ch m fs ks → ks !! c = Some k → creq k = QDoTask arg → cst k = Running →
  ∃ ch' fs', taskEffect (mapF c) reduceF fs arg = Some fs' ∧
    FI ch' m fs' (alter (λ k, mkConn (clis k) (creq k) Ran) c ks).
Proof.
  intros HF Hk Hr Hst. pose proof HF as [Hf Ho].
  destruct (owned_call _ _ _ _ _ _ _ HF Hk Hr) as (ph & sc & cs & n & cl & -> & Hn & Hcl & Ha & Ht).
  { by rewrite Hst. }
  destruct Hf as (Hsc & Hrel & base & Hb & Hov). set (ch' := choose ph (TaskNumber arg) c ch).
  assert (Hb' : baseOf ch' ph base) by (by destruct ph).
  assert (Hov' : over (filesOf ch' ph base) (is_task (theJob ph)) base (finished ks sc cs) fs).
  { apply choose_over; [done| |done]. rewrite <-Ha. by eapply running_not_finished. }
  exists ch', (filesOf ch' ph base arg ∪ fs). split.
  { rewrite <-(choose_effect ph arg c ch) by done. apply phase_effect; [by eapply base_ok|apply Hov'|done]. }
  set (ks' := alter _ c ks).
  assert (Hk' : ks' !! c = Some (mkConn (clis k) (creq k) Ran)) by (unfold ks'; by rewrite list_lookup_alter_eq, Hk).
  assert (Hne : ∀ c', c' ≠ c → ks' !! c' = ks !! c') by (intros; unfold ks'; by rewrite list_lookup_alter_ne).
  split.
  - split_and!; [done| |].
    + eapply Forall2_impl; [exact Hrel|]. intros cc [srv rpc|n'|r] Hcc; simpl in *; try done.
      destruct (decide (n' = c)) as [->|]; [|by rewrite Hne]. destruct Hcc as (? & ? & ?). simplify_eq.
      rewrite Hk'. eauto.
    + exists base. split; [done|]. eapply over_mono, over_full; [|by apply taskFiles_disj|exact Ht|exact Hov'].
      intros a _ [Hd|(m & cc & cl' & Hcc & Hcl' & Hac & Hs)]; [left; by left|].
      destruct (decide (cl' = CalConn c)) as [->|Hnc].
      * right. pose proof (Forall2_lookup_lr _ _ _ _ _ _ Hrel Hcc Hcl') as (k2 & ? & ?). simplify_eq. congruence.
      * left. right. exists m, cc, cl'. split_and!; [done..|].
        destruct cl' as [|n'|]; simpl in *; try done. by rewrite Hne in Hs by congruence.
  - intros c' k' arg' Hc' Hr' Hu. destruct (decide (c' = c)) as [->|Hnc].
    + exists n. done.
    + rewrite Hne in Hc' by done. by apply (Ho c' k' arg').
Qed.

Lemma FInv_step ch s e s' :
  FInvAt ch s → dstep mapF reduceF job files nreduce s e = Some s' → ∃ ch', FInvAt ch' s'.
Proof.
  intros HI Hs. destruct (takesEffect s e) eqn:Hq; [|exists ch; by eapply FInv_quiet].
  destruct e as [| |c| | | | | | | |]; try done. simpl in Hq. unfold dstep in Hs. case_bool_decide as Hd; [|done].
  unfold serveConn in Hs. apply obind_Some in Hs as (k & Hk & (x & Hx & Hs)%obind_Some). rewrite Hk in Hq.
  destruct k as [l rpc st]. destruct rpc as [| |arg|]; try done. destruct st; try done.
  destruct (lowner x) as [i|]; [|done]. apply obind_Some in Hs as (w & Hw & Hs).
  destruct (FI_effect _ _ _ _ _ _ _ (fi_main _ _ HI) Hk eq_refl eq_refl) as (ch' & fs' & Hfs' & HF).
  unfold serveWorker in Hs. simpl in Hs. rewrite Hfs' in Hs. simplify_eq.
  exists ch'. split; [done|apply HI..|]. simpl. rewrite Hd. by split_and!.
Qed.

Lemma FInv_reach master s : dreach mapF reduceF job files nreduce fs0 master s → ∃ ch, FInvAt ch s.
Proof.
  induction 1 as [|s e s' _ [ch IH] Hs]; [|by eapply FInv_step].
  exists id. split; [|by constructor|done|by split_and!]. split; [|by intros c k arg].
  split_and!; [apply schedInit_ok|constructor|]. exists fs0. split; [done|].
  eapply over_mono, over_init. intros a _ [Hd|(m & c & cl & Hc & _)]; [simpl in Hd; set_solver|done].
Qed.

End Files.
