(* ===== verification/DistributedSafe.v ===== *)
(** * The goroutines of a distributed job

    Invariants of [Distributed] on sockets, registrations and handlers. If no two workers have
    the same name and none has the master's, then every path leads to the listener of its owner,
    every worker is registered and forwarded to each phase at most once, and no worker is
    given a second task while one runs: none of the [log.Fatal]s of RunWorker and DoTask is
    reached, and the master's shutdown channel is closed once. *)

From S2P Require Import Prelude GoStrings Json Schedule MapReduce MapReduceSpec Master Distributed DistributedFiles.

(** ** Signatures: what never changes of listeners and connections *)

Definition lsig (ls : list Listener) : list (option nat * string) := (λ x, (lowner x, lpath x)) <$> ls.
Definition ksig (ks : list Conn) : list (nat * Request) := (λ k, (clis k, creq k)) <$> ks.

Lemma fmap_alter_same {A B} (f : A → B) (g : A → A) i (l : list A) :
  (∀ x, f (g x) = f x) → f <$> alter g i l = f <$> l.
Proof.
  intros Hfg. apply list_eq. intros j. rewrite !list_lookup_fmap. destruct (decide (i = j)) as [<-|].
  - rewrite list_lookup_alter_eq. destruct (l !! i); simpl; [by rewrite Hfg|done].
  - by rewrite list_lookup_alter_ne.
Qed.

Lemma lsig_shut l s : lsig (listeners (shut l s)) = lsig (listeners s).
Proof. by apply fmap_alter_same. Qed.

Lemma ksig_cst c st s : ksig (conns (set_cst c st s)) = ksig (conns s).
Proof. by apply fmap_alter_same. Qed.

Lemma ksig_break l f ks : ksig (breakConns l f ks) = ksig ks.
Proof.
  unfold ksig, breakConns. rewrite <-list_fmap_compose. apply list_fmap_ext. intros i k _. simpl.
  case_bool_decide; simpl; [|done]. subst. by destruct (f (cst k)).
Qed.

Lemma closeListener_sigs l s :
  lsig (listeners (closeListener l s)) = lsig (listeners s) ∧ ksig (conns (closeListener l s)) = ksig (conns s) ∧
  mr (closeListener l s) = mr s ∧ fwds (closeListener l s) = fwds s ∧ mstop (closeListener l s) = mstop s.
Proof.
  unfold closeListener. destruct (listeners s !! l); [|done]. simpl.
  rewrite ksig_break. split_and!; try done. by apply fmap_alter_same.
Qed.

(** ** Invariants *)

(** The worker has dialed the master. *)
Definition dialed (w : Wk) : Prop :=
  match wpc w with WStart | WRemoved | WReg (CalNew _ _) => False | _ => True end.

Definition wkOk (w : Wk) : Prop :=
  match wpc w with WStart | WRemoved => wlis w = None | _ => True end ∧ (wown w = false → wlive w = true).

Definition regName (k : nat * Request) : option string :=
  match k.2 with QRegister w => Some w | _ => None end.
Definition regDone (k : Conn) : option string :=
  match creq k, cst k with QRegister w, Replied _ => Some w | _, _ => None end.

Definition active (st : ConnState) : Prop := st = Running ∨ st = Ran.

Definition activeAt (ls : list Listener) (ks : list Conn) (i c : nat) : Prop :=
  ∃ k x, ks !! c = Some k ∧ ls !! clis k = Some x ∧ lowner x = Some i ∧ active (cst k).

Definition concOk (ls : list Listener) (ks : list Conn) (i : nat) (w : Wk) : Prop :=
  wlive w = true →
  (concurrent (wst w) = 0 ∧ ∀ c, ¬ activeAt ls ks i c) ∨ (concurrent (wst w) = 1 ∧ ∃ c, activeAt ls ks i c).

(** What the running [schedule] knows of the workers, and what its forwarder still sends. *)
Definition fwdOk (m : MPc) (fws : list Fwd) (ws : list string) : Prop :=
  match m with
  | MSched _ sc _ =>
      ∃ f, fws !! pred (length fws) = Some f ∧ 0 ≤ fi f ≤ zlen ws ∧
        (idle sc ++ busy sc) ++ fsend f ⊆+ take (Z.to_nat (fi f)) ws
  | _ => True
  end.

Definition stopPending (m : MPc) : bool :=
  match m with MSched _ _ _ | MKill _ _ _ | MStop (CalNew _ _) => true | _ => false end.

Record SInv (s : DSys) : Prop := {
  o_lis : ∀ l o p, lsig (listeners s) !! l = Some (o, p) →
    match o with
    | None => p = address (mr s)
    | Some i => ∃ w, wks s !! i = Some w ∧ wlis w = Some l ∧ wname (wst w) = p
    end;
  o_wlis : ∀ i w l, wks s !! i = Some w → wlis w = Some l →
    lsig (listeners s) !! l = Some (Some i, wname (wst w));
  o_paths : ∀ p l, paths s !! p = Some l → ∃ o, lsig (listeners s) !! l = Some (o, p);
  o_wks : Forall wkOk (wks s);
  o_conns : ∀ c l rpc, ksig (conns s) !! c = Some (l, rpc) → is_Some (lsig (listeners s) !! l);
  o_calls : ∀ ph sc cs n cl c, main s = MSched ph sc cs → calls sc !! n = Some cl → cs !! n = Some (CalConn c) →
    ∃ l rpc o, ksig (conns s) !! c = Some (l, rpc) ∧ lsig (listeners s) !! l = Some (o, callee cl);
  o_regs : ∀ c l nm, ksig (conns s) !! c = Some (l, QRegister nm) →
    ∃ i w, wks s !! i = Some w ∧ wname (wst w) = nm ∧ dialed w;
  o_regs1 : NoDup (omap regName (ksig (conns s)));
  o_workers : workers (mr s) ≡ₚ omap regDone (conns s);
  o_fwd : fwdOk (main s) (fwds s) (workers (mr s));
  o_stop : ∀ c k, conns s !! c = Some k → creq k = QMasterShutdown → unfinished (cst k) = true →
    mstop s = false ∧ main s = MStop (CalConn c);
  o_pending : stopPending (main s) = true → mstop s = false;
  o_active : ∀ c k, conns s !! c = Some k → active (cst k) → ∃ arg, creq k = QDoTask arg;
  o_conc : ∀ i w, wks s !! i = Some w → concOk (listeners s) (conns s) i w;
  o_dead : dead s = None ∨ dead s = Some FTask ∨ dead s = Some FSched ∨ dead s = Some FMerge;
}.

(** No name is used twice. *)
Definition distinct (s : DSys) : Prop := NoDup (address (mr s) :: (wname ∘ wst <$> wks s)).

Lemma distinct_worker s i j w w' :
  distinct s → wks s !! i = Some w → wks s !! j = Some w' → wname (wst w) = wname (wst w') → i = j.
Proof.
  intros [_ Hnd]%NoDup_cons Hi Hj E. eapply (NoDup_lookup _ i j (wname (wst w)) Hnd).
  - by rewrite list_lookup_fmap, Hi.
  - rewrite list_lookup_fmap, Hj. simpl. by rewrite E.
Qed.

Lemma distinct_master s i w : distinct s → wks s !! i = Some w → wname (wst w) ≠ address (mr s).
Proof.
  intros [Hn _]%NoDup_cons Hi E. apply Hn. apply list_elem_of_fmap. exists w. split; [done|].
  by eapply list_elem_of_lookup_2.
Qed.

Lemma lsig_lookup ls l x : ls !! l = Some x → lsig ls !! l = Some (lowner x, lpath x).
Proof. intros Hx. unfold lsig. by rewrite list_lookup_fmap, Hx. Qed.

Lemma ksig_lookup ks c k : ks !! c = Some k → ksig ks !! c = Some (clis k, creq k).
Proof. intros Hk. unfold ksig. by rewrite list_lookup_fmap, Hk. Qed.

Lemma omap_sublist {A B} (f g : A → option B) (l : list A) :
  (∀ x y, f x = Some y → g x = Some y) → omap f l `sublist_of` omap g l.
Proof.
  intros Hfg. induction l as [|x l IH]; simpl; [done|]. destruct (f x) as [y|] eqn:E.
  - rewrite (Hfg _ _ E). by constructor.
  - destruct (g x); [by constructor|done].
Qed.

Lemma omap_fmap_eq {A B C} (f : B → option C) (g : A → B) (l : list A) : omap f (g <$> l) = omap (f ∘ g) l.
Proof. induction l as [|x l IH]; [done|]. simpl. unfold compose. destruct (f (g x)); [f_equal|]; exact IH. Qed.

Lemma omap_eq_ext {A B} (f g : A → option B) (l : list A) : (∀ x, f x = g x) → omap f l = omap g l.
Proof. intros E. induction l as [|x l IH]; [done|]. simpl. rewrite E. destruct (g x); [f_equal|]; exact IH. Qed.

(** No worker registers twice. *)
Lemma workers_nodup s : SInv s → NoDup (workers (mr s)).
Proof.
  intros HI. rewrite (o_workers _ HI). eapply sublist_NoDup; [exact (o_regs1 _ HI)|].
  unfold ksig. rewrite omap_fmap_eq. apply omap_sublist. intros k nm. unfold regDone, regName. simpl.
  destruct (creq k); try done. by destruct (cst k).
Qed.

Lemma busy_nodup s ph sc cs : SInv s → main s = MSched ph sc cs → NoDup (busy sc).
Proof.
  intros HI Em. pose proof (o_fwd _ HI) as Hf. rewrite Em in Hf. destruct Hf as (f & _ & _ & Hsub).
  assert (NoDup ((idle sc ++ busy sc) ++ fsend f)) as Hnd.
  { eapply NoDup_sub, (sublist_NoDup _ (workers (mr s))); [exact Hsub|by apply workers_nodup|apply sublist_take]. }
  apply NoDup_app in Hnd as (Hnd & _). by apply NoDup_app in Hnd as (_ & _ & ?).
Qed.

(** ** Small updates *)

Lemma alter_insert_list {A} (f : A → A) i (l : list A) x : l !! i = Some x → alter f i l = <[i := f x]> l.
Proof.
  intros Hx. apply list_eq. intros j. destruct (decide (i = j)) as [<-|].
  - rewrite list_lookup_alter_eq, Hx, list_lookup_insert_eq; [done|by eapply lookup_lt_Some].
  - by rewrite list_lookup_alter_ne, list_lookup_insert_ne.
Qed.

Lemma SInv_wk s i w w' :
  SInv s → wks s !! i = Some w → wname (wst w') = wname (wst w) → wlis w' = wlis w → wkOk w' →
  (dialed w → dialed w') → concOk (listeners s) (conns s) i w' → SInv (set_wks (<[i := w']> (wks s)) s).
Proof.
  intros HI Hw En El Hok Hd Hc. assert (Hlt : (i < length (wks s))%nat) by by eapply lookup_lt_Some.
  assert (Hget : ∀ j, <[i := w']> (wks s) !! j = if decide (i = j) then Some w' else wks s !! j).
  { intros j. case_decide; subst; [by rewrite list_lookup_insert_eq|by rewrite list_lookup_insert_ne]. }
  destruct HI. split; simpl; try done.
  - intros l [j|] p Hl; [|by apply o_lis0 in Hl]. destruct (o_lis0 _ _ _ Hl) as (w0 & Hw0 & ? & ?).
    rewrite Hget. case_decide; [|eauto]. subst. exists w'. simplify_eq. by rewrite El, En.
  - intros j w0 l. rewrite Hget. case_decide; [|by apply o_wlis0]. subst. intros [= <-]. rewrite El, En. by apply o_wlis0.
  - by apply Forall_insert.
  - intros c l nm Hk. destruct (o_regs0 _ _ _ Hk) as (j & w0 & Hw0 & ? & ?). exists j. rewrite Hget.
    case_decide; [|eauto]. subst. exists w'. simplify_eq. auto.
  - intros j w0. rewrite Hget. case_decide; [|by apply o_conc0]. by intros [= <-]; subst.
Qed.

Lemma SInv_pc s i w pc :
  SInv s → wks s !! i = Some w → match pc with WStart | WRemoved => wlis w = None | _ => True end →
  (dialed w → match pc with WStart | WRemoved | WReg (CalNew _ _) => False | _ => True end) →
  SInv (set_pc i pc s).
Proof.
  intros HI Hw Hp Hd. unfold set_pc. rewrite (alter_insert_list _ _ _ w) by done. eapply SInv_wk; try done.
  - split; [done|]. apply (Forall_lookup_1 _ _ _ _ (o_wks _ HI) Hw).
  - exact (o_conc _ HI _ _ Hw).
Qed.

(** A worker's counters other than [concurrent]. *)
Lemma SInv_wst s i w x :
  SInv s → wks s !! i = Some w → wname x = wname (wst w) → concurrent x = concurrent (wst w) →
  SInv (set_wst i x s).
Proof.
  intros HI Hw Hn Hc. unfold set_wst. rewrite (alter_insert_list _ _ _ w) by done. eapply SInv_wk; try done.
  - exact (Forall_lookup_1 _ _ _ _ (o_wks _ HI) Hw).
  - pose proof (o_conc _ HI _ _ Hw) as Hcc. unfold concOk in *. simpl. by rewrite Hc.
Qed.

Lemma omap_alter_same {A B} (f : A → option B) (g : A → A) i (l : list A) x :
  l !! i = Some x → f (g x) = f x → omap f (alter g i l) = omap f l.
Proof.
  intros Hx E. apply list_elem_of_split_length in Hx as (l1 & l2 & -> & ->).
  rewrite (alter_insert_list _ _ _ x) by (by rewrite list_lookup_middle).
  rewrite insert_app_r_alt, Nat.sub_diag by done. simpl. rewrite !omap_app. simpl. by rewrite E.
Qed.

Lemma lookup_cst c st (ks : list Conn) c' k' :
  alter (λ k, mkConn (clis k) (creq k) st) c ks !! c' = Some k' →
  ∃ k, ks !! c' = Some k ∧ clis k' = clis k ∧ creq k' = creq k ∧ (cst k' = cst k ∨ c' = c ∧ cst k' = st).
Proof.
  destruct (decide (c = c')) as [<-|].
  - rewrite list_lookup_alter_eq. destruct (ks !! c) as [k|]; [|done]. intros [= <-]. exists k. naive_solver.
  - rewrite list_lookup_alter_ne by done. intros. exists k'. naive_solver.
Qed.

Lemma lookup_cst_2 c st (ks : list Conn) c' k :
  ks !! c' = Some k →
  alter (λ k, mkConn (clis k) (creq k) st) c ks !! c' =
    Some (if decide (c = c') then mkConn (clis k) (creq k) st else k).
Proof.
  intros Hk. case_decide; subst; [by rewrite list_lookup_alter_eq, Hk|by rewrite list_lookup_alter_ne].
Qed.

Lemma activeAt_cst ls (ks : list Conn) c k st i c' :
  ks !! c = Some k → (active st ↔ active (cst k)) →
  activeAt ls (alter (λ k, mkConn (clis k) (creq k) st) c ks) i c' ↔ activeAt ls ks i c'.
Proof.
  intros Hk Ha. unfold activeAt. split.
  - intros (k' & x & Hk' & Hx & Ho & Hact). apply lookup_cst in Hk' as (k0 & Hk0 & E1 & E2 & Hor).
    exists k0, x. rewrite <-E1. split_and!; try done.
    destruct Hor as [<-|[-> E]]; [done|]. simplify_eq. by apply Ha.
  - intros (k' & x & Hk' & Hx & Ho & Hact). eexists _, x. split; [by apply lookup_cst_2|].
    case_decide; [|done]. subst. simplify_eq. simpl. split_and!; [done..|]. by apply Ha.
Qed.

Lemma concOk_iff ls ls' ks ks' i w :
  (∀ c, activeAt ls' ks' i c ↔ activeAt ls ks i c) → concOk ls ks i w → concOk ls' ks' i w.
Proof. intros Hiff Hc Hl. setoid_rewrite Hiff. auto. Qed.

(** A connection moves on; no task is begun or ended and no worker registered. *)
Lemma SInv_cst s c k st :
  SInv s → conns s !! c = Some k → (∀ nm, creq k = QRegister nm → unfinished st = true ∨ st = Broken) →
  regDone k = None → (unfinished st = true → unfinished (cst k) = true) → (active st ↔ active (cst k)) →
  SInv (set_cst c st s).
Proof.
  intros HI Hk Hreg Hno Hu Ha. destruct HI. split; rewrite ?ksig_cst; try done.
  - change (mr (set_cst c st s)) with (mr s). rewrite o_workers0. simpl.
    erewrite (omap_alter_same _ _ _ _ _ Hk); [done|]. rewrite Hno. unfold regDone. simpl.
    destruct (creq k) eqn:Hr; try done. destruct (Hreg _ eq_refl) as [H1| ->]; [by destruct st|done].
  - simpl. intros c' k' (k0 & Hk0 & _ & E & Hor)%lookup_cst Hr Hun. rewrite E in Hr.
    apply (o_stop0 _ k0); [done|done|]. destruct Hor as [<-|[-> Es]]; [done|]. simplify_eq. by apply Hu.
  - simpl. intros c' k' (k0 & Hk0 & _ & E & Hor)%lookup_cst Hact. rewrite E. apply (o_active0 c'); [done|].
    destruct Hor as [<-|[-> Es]]; [done|]. simplify_eq. by apply Ha.
  - simpl. intros i w Hw. eapply concOk_iff, (o_conc0 _ _ Hw). intros c'. by eapply activeAt_cst.
Qed.

Lemma lookup_break l f (ks : list Conn) c k' :
  breakConns l f ks !! c = Some k' →
  ∃ k, ks !! c = Some k ∧ clis k' = clis k ∧ creq k' = creq k ∧
    (k' = k ∧ (clis k ≠ l ∨ f (cst k) = false) ∨ clis k = l ∧ f (cst k) = true ∧ cst k' = Broken).
Proof.
  unfold breakConns. intros (k & -> & Hk)%list_lookup_fmap_Some. exists k.
  case_bool_decide as E; simpl; [|naive_solver]. subst. destruct (f (cst k)) eqn:Ef; simpl; naive_solver.
Qed.

Lemma lookup_break_2 l f (ks : list Conn) c k :
  ks !! c = Some k → (clis k ≠ l ∨ f (cst k) = false) → breakConns l f ks !! c = Some k.
Proof.
  intros Hk Hor. unfold breakConns. rewrite list_lookup_fmap, Hk. simpl.
  case_bool_decide; simpl; [|done]. destruct Hor as [?|Hf]; [done|]. by rewrite Hf.
Qed.

Lemma regDone_break l f ks :
  (∀ st, f st = true → unfinished st = true) → omap regDone (breakConns l f ks) = omap regDone ks.
Proof.
  intros Hf. unfold breakConns. rewrite omap_fmap_eq. apply omap_eq_ext. intros k. unfold compose.
  case_bool_decide; simpl; [|done]. destruct (f (cst k)) eqn:E; [|done].
  unfold regDone. simpl. apply Hf in E. destruct (creq k), (cst k); done.
Qed.

(** A listener is shut, with or without its path, and connections to it break. *)
Lemma SInv_shut s l f ps ls :
  SInv s → (∀ st, f st = true → unfinished st = true) → lsig ls = lsig (listeners s) →
  (∀ p l', ps !! p = Some l' → paths s !! p = Some l') →
  (∀ i w, wks s !! i = Some w → concOk ls (breakConns l f (conns s)) i w) →
  SInv (set_conns (breakConns l f (conns s)) (set_paths ps (set_listeners ls s))).
Proof.
  intros HI Hf Els Hps Hcc. destruct HI. split; simpl; rewrite ?ksig_break, ?Els; try done.
  - intros p l' Hl. apply o_paths0. by apply Hps.
  - by rewrite regDone_break.
  - intros c k' (k & Hk & _ & Er & Hor)%lookup_break Hr Hu. rewrite Er in Hr. apply (o_stop0 _ k); [done..|].
    destruct Hor as [[-> _]|(_ & _ & E)]; [done|]. by rewrite E in Hu.
  - intros c k' (k & Hk & _ & Er & Hor)%lookup_break Hact. rewrite Er. apply (o_active0 c); [done|].
    destruct Hor as [[-> _]|(_ & _ & E)]; [done|]. by destruct Hact as [Ha|Ha]; rewrite E in Ha.
Qed.

Lemma activeAt_sig ls ls' ks i c : lsig ls' = lsig ls → activeAt ls' ks i c ↔ activeAt ls ks i c.
Proof.
  intros E. assert (Hw : ∀ ls ls', lsig ls' = lsig ls → activeAt ls' ks i c → activeAt ls ks i c); [|by split; apply Hw].
  clear. intros ls ls' E (k & x & Hk & Hx & Ho & Ha). apply lsig_lookup in Hx. rewrite E in Hx.
  unfold lsig in Hx. apply list_lookup_fmap_Some in Hx as (y & [= Ey _] & Hy). exists k, y. split_and!; try done. congruence.
Qed.

Lemma activeAt_break ls ks l f i c :
  (∀ k, ks !! c = Some k → clis k = l → f (cst k) = true → activeAt ls ks i c → False) →
  activeAt ls (breakConns l f ks) i c ↔ activeAt ls ks i c.
Proof.
  intros Hn. unfold activeAt. split.
  - intros (k' & x & (k & Hk & E1 & _ & Hor)%lookup_break & Hx & Ho & Ha). exists k, x.
    destruct Hor as [[-> _]|(_ & _ & E)]; [done|]. by destruct Ha as [Ha|Ha]; rewrite E in Ha.
  - intros (k & x & Hk & Hx & Ho & Ha). exists k, x. split; [|done]. apply lookup_break_2; [done|].
    destruct (decide (clis k = l)); [|by left]. right. destruct (f (cst k)) eqn:E; [|done].
    exfalso. apply (Hn k); try done. by exists k, x.
Qed.

Lemma SInv_close s l : SInv s → SInv (closeListener l s).
Proof.
  intros HI. unfold closeListener. destruct (listeners s !! l) as [x|] eqn:Hx; [|done].
  apply SInv_shut; [done| |by apply lsig_shut| |].
  - intros st ->%bool_decide_eq_true. done.
  - intros p l'. rewrite lookup_delete_Some. by intros [_ ?].
  - intros i w Hw. eapply concOk_iff, (o_conc _ HI _ _ Hw). intros c.
    rewrite activeAt_break; [by apply activeAt_sig, lsig_shut|].
    intros k Hk _ Hq%bool_decide_eq_true (k' & ? & ? & _ & _ & Ha). simplify_eq. destruct Ha; congruence.
Qed.

(** The end of a worker's process. *)
Lemma SInv_crash `{codec : !KVCodec} s i w g s' :
  SInv s → wks s !! i = Some w → wown w = true → crash i w g s = Some s' → SInv s'.
Proof.
  intros HI Hw Hown. unfold crash. set (w' := mkWk _ _ _ _ _ _).
  assert (H1 : SInv (set_wks (<[i := w']> (wks s)) s)).
  { eapply SInv_wk; try done. split; [done|]. simpl. by rewrite Hown. }
  destruct (wlis w) as [l|] eqn:Hl; case_bool_decide; intros; simplify_eq; [|done].
  set (s1 := set_fs (g ∪ dfs s) (set_wks (<[i := w']> (wks s)) s)).
  assert (SInv (set_conns (breakConns l unfinished (conns s1))
    (set_paths (paths s1) (set_listeners (listeners (shut l s)) s1)))) as HH; [|exact HH].
  apply SInv_shut; [|done|exact (lsig_shut l s)|done|].
  { destruct H1. by split. }
  simpl. intros j wj Hwj. destruct (decide (j = i)) as [->|Hne].
  { rewrite list_lookup_insert_eq in Hwj by (by eapply lookup_lt_Some). by simplify_eq. }
  rewrite list_lookup_insert_ne in Hwj by done. eapply concOk_iff, (o_conc _ HI _ _ Hwj). intros c.
  rewrite activeAt_break; [by apply activeAt_sig, lsig_shut|].
  intros k Hk El _ (k' & x & ? & Hx & Ho & _). simplify_eq.
  change (listeners (shut (clis k) s) !! clis k = Some x) in Hx. apply lsig_lookup in Hx. rewrite lsig_shut in Hx.
  rewrite (o_wlis _ HI _ _ _ Hw Hl) in Hx. congruence.
Qed.

Lemma SInv_snoc s l rpc :
  SInv s → is_Some (lsig (listeners s) !! l) →
  match rpc with
  | QRegister nm => nm ∉ omap regName (ksig (conns s)) ∧
      ∃ i w, wks s !! i = Some w ∧ wname (wst w) = nm ∧ dialed w
  | QMasterShutdown => mstop s = false ∧ main s = MStop (CalConn (length (conns s)))
  | _ => True
  end →
  SInv (set_conns (conns s ++ [mkConn l rpc Queued]) s).
Proof.
  intros HI Hl Hrpc. assert (Hks : ksig (conns s ++ [mkConn l rpc Queued]) = ksig (conns s) ++ [(l, rpc)]).
  { unfold ksig. by rewrite fmap_app. }
  destruct HI. split; simpl; rewrite ?Hks; try done.
  - intros c l' rpc' [Hc|[_ Hc]]%lookup_app_Some; [by eapply o_conns0|].
    apply list_lookup_singleton_Some in Hc as [_ [= <- <-]]. done.
  - intros ph sc cs n cl c Em Hcl Hc. destruct (o_calls0 _ _ _ _ _ _ Em Hcl Hc) as (l' & rpc' & o & ? & ?).
    exists l', rpc', o. split; [by apply lookup_app_l_Some|done].
  - intros c l' nm [Hc|[_ Hc]]%lookup_app_Some; [by eapply o_regs0|].
    apply list_lookup_singleton_Some in Hc as [_ [= <- ->]]. apply Hrpc.
  - rewrite omap_app. simpl. unfold regName at 2. simpl. destruct rpc; simpl; rewrite ?app_nil_r; try done.
    apply NoDup_app. split_and!; [done| |apply NoDup_singleton]. intros nm Hin ->%list_elem_of_singleton. by apply Hrpc.
  - rewrite omap_app. simpl. replace (regDone (mkConn l rpc Queued)) with (@None string) by (by destruct rpc).
    by rewrite app_nil_r.
  - intros c k [Hk|[Hge Hk]]%lookup_app_Some Hr Hu; [by eapply o_stop0|].
    apply list_lookup_singleton_Some in Hk as [Hz <-]. simpl in Hr. subst. replace c with (length (conns s)) by lia. done.
  - intros c k [Hk|[_ Hk]]%lookup_app_Some Ha; [by eapply o_active0|].
    apply list_lookup_singleton_Some in Hk as [_ <-]. by destruct Ha.
  - intros i w Hw. eapply concOk_iff, (o_conc0 _ _ Hw). intros c. unfold activeAt. split.
    + intros (k & x & [Hk|[_ Hk]]%lookup_app_Some & ? & ? & Ha); [eauto 10|].
      apply list_lookup_singleton_Some in Hk as [_ <-]. by destruct Ha.
    + intros (k & x & Hk & ?). exists k, x. split; [by apply lookup_app_l_Some|done].
Qed.

Lemma SInv_main s m fws :
  SInv s →
  (∀ ph sc cs n cl c, m = MSched ph sc cs → calls sc !! n = Some cl → cs !! n = Some (CalConn c) →
     ∃ l rpc o, ksig (conns s) !! c = Some (l, rpc) ∧ lsig (listeners s) !! l = Some (o, callee cl)) →
  fwdOk m fws (workers (mr s)) →
  (∀ c, main s = MStop (CalConn c) → ∃ k, conns s !! c = Some k ∧ unfinished (cst k) = false) →
  (stopPending m = true → stopPending (main s) = true) →
  SInv (set_main m (set_fwds fws s)).
Proof.
  intros HI Hc Hf Hst Hp. destruct HI. split; simpl; try done.
  - intros c k Hk Hr Hu. destruct (o_stop0 c k Hk Hr Hu) as [? Em]. destruct (Hst c Em) as (k' & ? & Hk').
    simplify_eq. congruence.
  - auto.
Qed.

Lemma SInv_paths s ps : SInv s → ps ⊆ paths s → SInv (set_paths ps s).
Proof.
  intros HI Hs. destruct HI. split; simpl; try done. intros p l Hl. apply o_paths0. by eapply lookup_weaken.
Qed.

(** Steps on fields the invariant does not mention. *)
Lemma SInv_frame s s' :
  SInv s → paths s' = paths s → listeners s' = listeners s → conns s' = conns s → mr s' = mr s →
  mstop s' = mstop s → main s' = main s → wks s' = wks s → dead s' = dead s →
  fwdOk (main s) (fwds s') (workers (mr s)) → SInv s'.
Proof.
  intros HI E1 E2 E3 E4 E5 E6 E7 E8 Hf. destruct HI.
  split; rewrite ?E1, ?E2, ?E3, ?E4, ?E5, ?E6, ?E7, ?E8; done.
Qed.

Lemma SInv_accept s l c s' :
  SInv s → accept l s = Some (c, s') → SInv s' ∧ wks s' = wks s ∧ mr s' = mr s.
Proof.
  intros HI. unfold accept. intros ([c' k] & Hf & ?)%obind_Some. simplify_eq.
  apply list_find_Some in Hf as (Hk & [_ Hst] & _). split; [|done].
  eapply SInv_cst; try done; rewrite ?Hst; try done; [auto| |split; by intros []].
  unfold regDone. rewrite Hst. by destruct (creq k).
Qed.

Section Safe.
Context `{codec : !KVCodec} `{sorter : !SortByKey}.
Context (mapF : nat → MapFn) (reduceF : string → list string → string).
Context (job : string) (files : list string) (nreduce : nat) (fs0 : FS).
Notation FInvAt := (FInvAt mapF reduceF job files nreduce fs0).
Notation step := (dstep mapF reduceF job files nreduce).

Section Step.
Context (ch : nat → nat).
Notation FInv := (FInvAt ch).

(** The listener of a worker. *)
Lemma SInv_listen s i w l s' pc :
  SInv s → wks s !! i = Some w → wlis w = None → listen (Some i) (wname (wst w)) s = Some (l, s') →
  match pc with WStart | WRemoved => False | _ => True end → (dialed w → False) →
  SInv (set_wks (<[i := mkWk (wst w) (wpar w) (wown w) (wlive w) (Some l) pc]> (wks s')) s').
Proof.
  intros HI Hw Hnl. unfold listen. destruct (paths s !! _) eqn:Hp; [done|]. intros [= <- <-] Hpc Hnd. simpl.
  assert (Hls : ∀ x, lsig (listeners s ++ [x]) = lsig (listeners s) ++ [(lowner x, lpath x)]).
  { intros x. unfold lsig. by rewrite fmap_app. }
  assert (Hlt : (i < length (wks s))%nat) by by eapply lookup_lt_Some.
  set (w' := mkWk _ _ _ _ _ _).
  assert (Hget : ∀ j, <[i := w']> (wks s) !! j = if decide (i = j) then Some w' else wks s !! j).
  { intros j. case_decide; subst; [by rewrite list_lookup_insert_eq|by rewrite list_lookup_insert_ne]. }
  assert (Hlen : length (lsig (listeners s)) = length (listeners s)) by apply length_fmap.
  destruct HI. split; simpl; rewrite ?Hls; simpl; try done.
  - intros l o p [Hl|[Hge Hl]]%lookup_app_Some.
    + specialize (o_lis0 _ _ _ Hl). destruct o as [j|]; [|done]. destruct o_lis0 as (wj & Hj & ? & ?).
      exists wj. rewrite Hget. case_decide; [|done]. subst. congruence.
    + apply list_lookup_singleton_Some in Hl as [Hz [= <- <-]]. exists w'. rewrite Hget, decide_True by done.
      split_and!; [done| |done]. simpl. f_equal. lia.
  - intros j wj l. rewrite Hget. case_decide.
    + intros [= <-] [= <-]. subst. rewrite lookup_app_r, Hlen, Nat.sub_diag by lia. done.
    + intros Hj Hl. apply lookup_app_l_Some. by apply o_wlis0.
  - intros p l. rewrite lookup_insert_Some. intros [[<- <-]|[Hne Hl]].
    + exists (Some i). by rewrite lookup_app_r, Hlen, Nat.sub_diag by lia.
    + destruct (o_paths0 _ _ Hl) as [o Ho]. exists o. by apply lookup_app_l_Some.
  - apply Forall_insert; [done|]. split; [by destruct pc|].
    apply (Forall_lookup_1 _ _ _ _ o_wks0 Hw).
  - intros c l rpc Hc. destruct (o_conns0 _ _ _ Hc) as [y ?]. exists y. by apply lookup_app_l_Some.
  - intros ph sc cs n cl c Em Hcl Hc. destruct (o_calls0 _ _ _ _ _ _ Em Hcl Hc) as (l' & rpc' & o & ? & ?).
    exists l', rpc', o. split; [done|by apply lookup_app_l_Some].
  - intros c l nm Hc. destruct (o_regs0 _ _ _ Hc) as (j & wj & Hj & ? & ?). exists j, wj. rewrite Hget.
    case_decide; [|done]. subst. simplify_eq. by destruct Hnd.
  - assert (Hact : ∀ j c, activeAt (listeners s ++ [mkListener (Some i) (wname (wst w)) true]) (conns s) j c ↔
      activeAt (listeners s) (conns s) j c).
    { intros j c. unfold activeAt. split; intros (k & x & Hk & Hx & Hr); exists k, x; (split; [done|]); (split; [|done]).
      - apply lookup_app_Some in Hx as [?|[Hge Hx]]; [done|]. exfalso.
        destruct (o_conns0 c (clis k) (creq k)) as [y Hy]; [by apply ksig_lookup|].
        apply lookup_lt_Some in Hy. lia.
      - by apply lookup_app_l_Some. }
    intros j wj. rewrite Hget. case_decide.
    + intros [= <-]. subst. eapply concOk_iff; [apply Hact|]. exact (o_conc0 _ _ Hw).
    + intros Hj. eapply concOk_iff, (o_conc0 _ _ Hj). apply Hact.
Qed.

(** With distinct names the path of a worker that has not listened yet is free. *)
Lemma own_path_free s i w :
  SInv s → distinct s → wks s !! i = Some w → wlis w = None → paths s !! wname (wst w) = None.
Proof.
  intros HI Hd Hw Hn. destruct (paths s !! wname (wst w)) as [l|] eqn:Hp; [|done]. exfalso.
  destruct (o_paths _ HI _ _ Hp) as [o Ho]. pose proof (o_lis _ HI _ _ _ Ho) as Hl. destruct o as [j|].
  - destruct Hl as (wj & Hj & Hl & E). pose proof (distinct_worker _ _ _ _ _ Hd Hj Hw E) as ->. congruence.
  - by apply (distinct_master _ _ _ Hd Hw).
Qed.

Lemma SInv_workerStep s i fail s' :
  FInv s → SInv s → distinct s → workerStep i fail s = Some s' → SInv s'.
Proof.
  intros HF HI Hd. unfold workerStep. intros (w & Hw & Hs)%obind_Some.
  pose proof (Forall_lookup_1 _ _ _ _ (fi_reg _ _ _ _ _ _ _ _ HF) Hw) as Hrw.
  pose proof (Forall_lookup_1 _ _ _ _ (o_wks _ HI) Hw) as [Hlis _].
  destruct (wpc w) as [| |cl| | | |] eqn:Epc; simplify_eq/=.
  - eapply SInv_pc; [by apply SInv_paths; [|apply delete_subseteq]|done..|].
    unfold dialed. by rewrite Epc.
  - destruct (listen _ _ s) as [[l s1]|] eqn:Hl.
    + simplify_eq. eapply SInv_listen; try done. unfold dialed. by rewrite Epc.
    + unfold listen in Hl. by rewrite (own_path_free _ _ _ HI Hd Hw Hlis) in Hl.
  - destruct cl as [srv rpc|c|r].
    3: { simplify_eq. by eapply SInv_pc. }
    all: assert (Hdone : ∀ r, SInv (set_pc i (WReg (CalDone r)) s)) by (intros; by eapply SInv_pc).
    all: apply obind_Some in Hs as ([cl s1] & Hc & ?); simplify_eq; apply callStep_inv in Hc as
      [(srv' & rpc' & l & x & ? & -> & Hl & Hx & _ & ->)|[(-> & -> & _)|(-> & c' & k & _ & _ & [[_ ->]|(? & _ & ->)])]];
      simplify_eq; try apply Hdone.
    pose proof (Hrw _ _ Epc) as ->.
    assert (H1 : SInv (set_pc i (WReg (CalConn (length (conns s)))) s)) by by eapply SInv_pc.
    apply (SInv_snoc (set_pc i (WReg (CalConn (length (conns s)))) s)); [done|by simpl; rewrite (lsig_lookup _ _ _ Hx)|].
    split.
    + intros (kk & Hkk & Hreg)%list_elem_of_omap. apply list_elem_of_lookup in Hkk as [c Hkk].
      destruct kk as [l0 rq]. unfold regName in Hreg. simpl in Hreg. destruct rq; simplify_eq.
      destruct (o_regs _ HI _ _ _ Hkk) as (j & wj & Hj & E & Hdl).
      pose proof (distinct_worker _ _ _ _ _ Hd Hj Hw E) as ->. simplify_eq. unfold dialed in Hdl. by rewrite Epc in Hdl.
    + eexists i, _. simpl. rewrite list_lookup_alter_eq, Hw. simpl. split; [done|]. split; [done|]. by unfold dialed.
  - eapply SInv_pc; [done..|by destruct (loopCheck _)|by destruct (loopCheck _)].
  - apply obind_Some in Hs as (l & _ & Hs). apply obind_Some in Hs as ([c s1] & Ha & ?). simplify_eq.
    destruct (SInv_accept _ _ _ _ HI Ha) as (H1 & Ew & _). eapply SInv_pc; [eapply SInv_wst; [done|by rewrite Ew|done..]|..].
    + simpl. rewrite list_lookup_alter_eq, Ew, Hw. done.
    + done.
    + done.
  - apply obind_Some in Hs as (l & _ & ?). simplify_eq.
    eapply SInv_pc; [by apply SInv_close|destruct (closeListener_frame l s) as (_ & _ & -> & _); done|done|done].
Qed.

(** ** Handlers *)

(** No worker has two tasks. *)
Lemma task_unique s i c c' k k' x x' arg arg' :
  FInv s → SInv s → conns s !! c = Some k → conns s !! c' = Some k' →
  listeners s !! clis k = Some x → listeners s !! clis k' = Some x' →
  lowner x = Some i → lowner x' = Some i → creq k = QDoTask arg → creq k' = QDoTask arg' →
  unfinished (cst k) = true → unfinished (cst k') = true → c = c'.
Proof.
  intros HF HI Hk Hk' Hx Hx' Ho Ho' Hr Hr' Hu Hu'.
  destruct (owned_call _ _ _ _ _ _ _ _ _ _ _ _ _ (fi_main _ _ _ _ _ _ _ _ HF) Hk Hr Hu)
    as (ph & sc & cs & n & cl & Em & Hn & Hcl & _).
  destruct (owned_call _ _ _ _ _ _ _ _ _ _ _ _ _ (fi_main _ _ _ _ _ _ _ _ HF) Hk' Hr' Hu')
    as (ph' & sc' & cs' & n' & cl' & Em' & Hn' & Hcl' & _). rewrite Em in Em'. simplify_eq.
  assert (Hcallee : ∀ n cl c k x, calls sc' !! n = Some cl → cs' !! n = Some (CalConn c) → conns s !! c = Some k →
    listeners s !! clis k = Some x → lowner x = Some i → ∃ w, wks s !! i = Some w ∧ callee cl = wname (wst w)).
  { clear -HI Em. intros n cl c k x Hcl Hn Hk Hx Ho.
    destruct (o_calls _ HI _ _ _ _ _ _ Em Hcl Hn) as (l & rpc & o & Hc & Hl).
    rewrite (ksig_lookup _ _ _ Hk) in Hc. simplify_eq. pose proof (lsig_lookup _ _ _ Hx) as E. rewrite Hl in E.
    rewrite Ho in E. simplify_eq. destruct (o_lis _ HI _ _ _ Hl) as (w & ? & _ & E'). eauto. }
  destruct (Hcallee _ _ _ _ _ Hcl Hn Hk Hx Ho) as (w & Hw & E).
  destruct (Hcallee _ _ _ _ _ Hcl' Hn' Hk' Hx' Ho') as (w' & Hw' & E'). simplify_eq.
  assert (n = n') as ->; [|by simplify_eq].
  eapply NoDup_lookup; [by eapply busy_nodup| |].
  - unfold busy. by rewrite list_lookup_fmap, Hcl.
  - unfold busy. rewrite list_lookup_fmap, Hcl'. simpl. by rewrite E, E'.
Qed.

Lemma fwdOk_register m fws ws w : fwdOk m fws ws → fwdOk m fws (ws ++ [w]).
Proof.
  destruct m; simpl; try done. intros (f & ? & Hf & Hs). exists f. rewrite zlen_app. pose proof (zlen_nonneg [w]).
  split_and!; [done|lia|lia|]. rewrite take_app_le; [done|]. unfold zlen in Hf. lia.
Qed.

Lemma omap_alter_new {A B} (f : A → option B) (g : A → A) i (l : list A) x y :
  l !! i = Some x → f x = None → f (g x) = Some y → omap f (alter g i l) ≡ₚ y :: omap f l.
Proof.
  intros Hx E E'. apply list_elem_of_split_length in Hx as (l1 & l2 & -> & ->).
  rewrite (alter_insert_list _ _ _ x) by (by rewrite list_lookup_middle).
  rewrite insert_app_r_alt, Nat.sub_diag by done. simpl. rewrite !omap_app. simpl. rewrite E, E'.
  by rewrite <-Permutation_middle.
Qed.

Lemma SInv_register s c k w :
  SInv s → conns s !! c = Some k → creq k = QRegister w → cst k = Accepted →
  SInv (set_cst c (Replied 0) (set_mr (Register (mr s) w) s)).
Proof.
  intros HI Hk Hr Hst. destruct HI. split; rewrite ?ksig_cst; try done; simpl.
  - rewrite (omap_alter_new regDone _ _ _ k w Hk); [by rewrite o_workers0, Permutation_app_comm| |].
    + unfold regDone. by rewrite Hr, Hst.
    + unfold regDone. simpl. by rewrite Hr.
  - by apply fwdOk_register.
  - intros c' k' (k0 & Hk0 & _ & E & Hor)%lookup_cst Hr' Hun. rewrite E in Hr'.
    apply (o_stop0 _ k0); [done|done|]. destruct Hor as [<-|[-> Es]]; [done|]. by rewrite Es in Hun.
  - intros c' k' (k0 & Hk0 & _ & E & Hor)%lookup_cst Hact. rewrite E. apply (o_active0 c'); [done|].
    destruct Hor as [<-|[-> Es]]; [done|]. rewrite Es in Hact. by destruct Hact.
  - intros i w' Hw. eapply concOk_iff, (o_conc0 _ _ Hw). intros c'. eapply activeAt_cst; [done|].
    rewrite Hst. split; by intros [].
Qed.

Lemma SInv_mstop s :
  SInv s → (∀ c k, conns s !! c = Some k → creq k = QMasterShutdown → unfinished (cst k) = false) →
  stopPending (main s) = false → SInv (set_mstop true s).
Proof.
  intros HI Hno Hp. destruct HI. split; simpl; try done.
  - intros c k Hk Hr Hu. by rewrite (Hno c k Hk Hr) in Hu.
  - by rewrite Hp.
Qed.

Lemma SInv_serveMaster s c k s' :
  SInv s → conns s !! c = Some k → cst k = Accepted → serveMaster c (creq k) s = Some s' → SInv s'.
Proof.
  intros HI Hk Hst. unfold serveMaster.
  assert (Hb : SInv (set_cst c Broken s)).
  { eapply SInv_cst; try done; [auto| |by rewrite Hst; split; intros []]. unfold regDone. rewrite Hst. by destruct (creq k). }
  destruct (creq k) as [w| |arg|] eqn:Hr; [| |intros; by simplify_eq..].
  - intros Hs. assert (s' = set_cst c (Replied 0) (set_mr (Register (mr s) w) s)) as ->
      by (by destruct (main s); simplify_eq). by eapply SInv_register.
  - destruct (o_stop _ HI c k Hk Hr) as [-> Em]; [by rewrite Hst|]. intros; simplify_eq.
    assert (Hk' : conns (closeListener 0 s) !! c = Some k).
    { unfold closeListener. destruct (listeners s !! 0%nat); [|done]. simpl. apply lookup_break_2; [done|].
      rewrite Hst. by right. }
    assert (H2 : SInv (set_cst c (Replied 0) (closeListener 0 s))).
    { eapply SInv_cst; [by apply SInv_close|exact Hk'|by rewrite Hr|by unfold regDone; rewrite Hr|done|].
      rewrite Hst. split; by intros []. }
    assert (SInv (set_mstop true (set_cst c (Replied 0) (closeListener 0 s)))) as H3.
    { destruct (closeListener_frame 0 s) as (Em' & _).
      apply SInv_mstop; [done| |simpl; by rewrite Em', Em].
      simpl. intros c' k' Hc' Hr'. destruct (unfinished (cst k')) eqn:Hu; [|done].
      destruct (o_stop _ H2 c' k' Hc' Hr' Hu) as [_ E]. simpl in E. rewrite Em', Em in E. simplify_eq.
      simpl in Hc'. rewrite list_lookup_alter_eq, Hk' in Hc'. by simplify_eq/=. }
    revert H3. unfold closeListener. simpl. by destruct (listeners s !! 0%nat).
Qed.

(** A task begins or ends at worker [i]. *)
Lemma SInv_task s i w c k l arg x st p :
  SInv s → wks s !! i = Some w → conns s !! c = Some k → listeners s !! clis k = Some l → lowner l = Some i →
  creq k = QDoTask arg → wname x = wname (wst w) →
  concOk (listeners s) (alter (λ k, mkConn (clis k) (creq k) st) c (conns s)) i
    (mkWk x (wpar w) (wown w) (wlive w) (wlis w) (wpc w)) →
  SInv (set_cst c st (set_wst i x (set_par p s))).
Proof.
  intros HI Hw Hk Hl Ho Hr Hn Hc.
  assert (Hlt : (i < length (wks s))%nat) by by eapply lookup_lt_Some.
  assert (Hwks : wks (set_cst c st (set_wst i x (set_par p s))) =
    <[i := mkWk x (wpar w) (wown w) (wlive w) (wlis w) (wpc w)]> (wks s)).
  { simpl. by rewrite (alter_insert_list _ _ _ w). }
  set (w' := mkWk x _ _ _ _ _) in *.
  assert (Hget : ∀ j, <[i := w']> (wks s) !! j = if decide (i = j) then Some w' else wks s !! j).
  { intros j. case_decide; subst; [by rewrite list_lookup_insert_eq|by rewrite list_lookup_insert_ne]. }
  destruct HI. split; rewrite ?ksig_cst, ?Hwks; try done; simpl.
  - intros l' [j|] q Hl'; [|by apply o_lis0 in Hl']. destruct (o_lis0 _ _ _ Hl') as (w0 & Hw0 & ? & ?).
    rewrite Hget. case_decide; [|eauto]. subst. exists w'. simplify_eq. done.
  - intros j w0 l'. rewrite Hget. case_decide; [|by apply o_wlis0]. subst. intros [= <-]. simpl. rewrite Hn. by apply o_wlis0.
  - apply Forall_insert; [done|]. exact (Forall_lookup_1 _ _ _ _ o_wks0 Hw).
  - intros c' l' nm Hc'. destruct (o_regs0 _ _ _ Hc') as (j & w0 & Hw0 & ? & ?). exists j. rewrite Hget.
    case_decide; [|eauto]. subst. exists w'. simplify_eq. done.
  - rewrite o_workers0. erewrite (omap_alter_same _ _ _ _ _ Hk); [done|]. unfold regDone. simpl. by rewrite Hr.
  - intros c' k' (k0 & Hk0 & _ & E & Hor)%lookup_cst Hr' Hun. rewrite E in Hr'.
    apply (o_stop0 _ k0); [done|done|]. destruct Hor as [<-|[-> Es]]; [done|]. simplify_eq. congruence.
  - intros c' k' (k0 & Hk0 & _ & E & Hor)%lookup_cst Hact. rewrite E. destruct Hor as [Es|[-> Es]].
    + apply (o_active0 c'); [done|]. by rewrite <-Es.
    + simplify_eq. eauto.
  - intros j w0. rewrite Hget. case_decide; [by intros [= <-]; subst|]. intros Hj.
    eapply concOk_iff, (o_conc0 _ _ Hj). intros c'. unfold activeAt. split.
    + intros (k' & x' & (k0 & Hk0 & E1 & E2 & Hor)%lookup_cst & Hx' & Ho' & Ha). exists k0, x'.
      destruct Hor as [Es|[-> Es]]; [by rewrite <-E1, <-Es|]. simplify_eq. rewrite E1 in Hx'. simplify_eq.
    + intros (k' & x' & Hk' & Hx' & Ho' & Ha). exists k', x'. rewrite list_lookup_alter_ne; [done|].
      intros <-. simplify_eq.
Qed.

Lemma SInv_serveWorker s i w c k x s' :
  FInv s → SInv s → wks s !! i = Some w → conns s !! c = Some k → listeners s !! clis k = Some x →
  lowner x = Some i → serveWorker mapF reduceF i w c k s = Some s' → SInv s'.
Proof.
  intros HF HI Hw Hk Hx Ho. unfold serveWorker.
  assert (Hb : cst k = Accepted → SInv (set_cst c Broken s)).
  { intros Hst. eapply SInv_cst; try done; [auto| |by rewrite Hst; split; intros []].
    unfold regDone. rewrite Hst. by destruct (creq k). }
  assert (Huniq : ∀ arg c', creq k = QDoTask arg → unfinished (cst k) = true →
    activeAt (listeners s) (conns s) i c' → c' = c).
  { intros arg c' Hr Hu (k' & x' & Hk' & Hx' & Ho' & Ha). destruct (o_active _ HI _ _ Hk' Ha) as [arg' Hr'].
    eapply (task_unique s i c' c k' k x' x); try done. by destruct Ha as [-> | ->]. }
  destruct (creq k) as [nm| |arg|] eqn:Hr.
  1,2: destruct (cst k); intros; simplify_eq; auto.
  - destruct (cst k) eqn:Hst; try done.
    + (* DoTask begins *)
      assert (Hfree : ∀ c', ¬ activeAt (listeners s) (conns s) i c').
      { intros c' Ha. pose proof (Huniq _ _ eq_refl eq_refl Ha) as ->. destruct Ha as (k' & ? & ? & _ & _ & Ha).
        simplify_eq. rewrite Hst in Ha. by destruct Ha. }
      destruct (doTaskBegin _ _) as [[[y q] b]|] eqn:Hbeg.
      * intros; simplify_eq. eapply SInv_task; try done; [by eapply doTaskBegin_name|]. simpl. intros Hlive. right.
        split; [|exists c, (mkConn (clis k) (creq k) Running), x; rewrite list_lookup_alter_eq, Hk; by split_and!; [..|left]].
        destruct (o_conc _ HI _ _ Hw Hlive) as [[E _]|[_ [c' Hc']]]; [|by destruct (Hfree c')].
        unfold doTaskBegin in Hbeg. case_decide; [done|]. simpl in Hbeg. rewrite E in Hbeg.
        destruct (if wpar w then _ else _); by simplify_eq/=.
      * destruct (wown w) eqn:Hown; unfold fatalAt; rewrite Hown; [by eapply SInv_crash|].
        pose proof (Forall_lookup_1 _ _ _ _ (o_wks _ HI) Hw) as [_ Hlive]. specialize (Hlive Hown).
        destruct (o_conc _ HI _ _ Hw Hlive) as [[E _]|[_ [c' Hc']]]; [|by destruct (Hfree c')].
        unfold doTaskBegin in Hbeg. simpl in Hbeg. rewrite E in Hbeg. case_decide; [lia|]. by destruct (if wpar w then _ else _).
    + (* the task runs *)
      destruct (taskEffect _ _ _ _) as [fs|]; [|unfold fatalAt; destruct (wown w) eqn:Hown;
        [by eapply SInv_crash|intros; simplify_eq; destruct HI; split; try done; simpl; auto]].
      intros; simplify_eq. eapply (SInv_cst (set_fs fs s)); [destruct HI; by split|exact Hk|by rewrite Hr|
        by unfold regDone; rewrite Hr|by rewrite Hst|rewrite Hst; unfold active; naive_solver].
    + (* DoTask ends *)
      simpl. intros; simplify_eq. eapply SInv_task; try done. simpl. intros Hlive. left.
      assert (Hact : activeAt (listeners s) (conns s) i c) by (exists k, x; rewrite Hst; by split_and!; [..|right]).
      destruct (o_conc _ HI _ _ Hw Hlive) as [[_ Hn]|[E _]]; [by destruct (Hn c)|]. simpl. rewrite E. split; [done|].
      intros c' (k' & x' & Hk' & Hx' & Ho' & Ha). destruct (decide (c = c')) as [<-|Hne].
      * rewrite list_lookup_alter_eq, Hk in Hk'. simpl in Hk'. injection Hk' as <-. by destruct Ha.
      * rewrite list_lookup_alter_ne in Hk' by done. apply Hne. symmetry. eapply Huniq; [done|done|]. by exists k', x'.
  - destruct (cst k) eqn:Hst; try done. simpl. intros; simplify_eq.
    eapply (SInv_cst (set_wst i _ s)); [by eapply SInv_wst|exact Hk|by rewrite Hr|by unfold regDone; rewrite Hr|done|].
    rewrite Hst. split; by intros [].
Qed.

(** ** The main goroutine *)

Lemma SInv_schedNext s ph sc cs e fws f f' s' :
  FInv s → SInv s → main s = MSched ph sc cs →
  fws !! pred (length fws) = Some f' → fwds s !! pred (length (fwds s)) = Some f → fi f' = fi f →
  registrations [e] ++ fsend f' ≡ₚ fsend f →
  schedNext ph (keptCalls e cs) (schedStep (theJob job files nreduce ph) sc e) (set_fwds fws s) = Some s' → SInv s'.
Proof.
  intros HF HI Em Hf' Hf Ei Hperm.
  destruct (fi_main _ _ _ _ _ _ _ _ HF) as [HFm _]. rewrite Em in HFm. destruct HFm as (Hsc & Hrel & _).
  pose proof (schedStep_ok (theJob job files nreduce ph) sc e Hsc) as Hok.
  destruct (schedStep _ sc e) as [| |sc'] eqn:Hs; simpl; [done|done|]. intros; simplify_eq.
  destruct Hok as (_ & _ & _ & Hsub). destruct (schedStep_calls _ _ _ _ Hs) as [new Hnew].
  apply SInv_main; [done| | |by rewrite Em|by rewrite Em].
  - intros ph' sc0 cs0 n cl c [= <- <- <-] Hcl Hc. unfold newCalls in Hc.
    apply lookup_app_Some in Hc as [Hc|[_ Hc]]; [|by apply list_lookup_fmap_Some in Hc as (? & ? & _)].
    assert (Hlen : length (keptCalls e (calls sc)) = length (keptCalls e cs)).
    { assert (Forall2 (callRel (conns s)) (keptCalls e (calls sc)) (keptCalls e cs)) as Hk; [|by eapply Forall2_length].
      destruct e; [done|]. by apply Forall2_delete. }
    rewrite Hnew, lookup_app_l in Hcl by (rewrite Hlen; by eapply lookup_lt_Some).
    destruct (lookup_kept _ _ _ _ _ _ Hcl Hc) as (n' & ? & ? & _). by eapply o_calls.
  - pose proof (o_fwd _ HI) as Hfw. rewrite Em in Hfw. destruct Hfw as (f0 & ? & Hr & Ht). simplify_eq.
    exists f'. rewrite Ei. split_and!; [done|lia|lia|]. etrans; [|exact Ht].
    etrans; [apply submseteq_app; [exact (proj1 Hsub)|done]|]. rewrite <-Hperm.
    apply Permutation_submseteq. solve_Permutation.
Qed.

Lemma SInv_schedCall s k fail s' : FInv s → SInv s → schedCall k fail s = Some s' → SInv s'.
Proof.
  intros HF HI. unfold schedCall. destruct (main s) as [ph sc cs| | | | |] eqn:Em; try done.
  intros (cl & Hcl & ([cl' s1] & Hc & ?)%obind_Some)%obind_Some. simplify_eq.
  destruct (fi_main _ _ _ _ _ _ _ _ HF) as [HFm _]. rewrite Em in HFm. destruct HFm as (_ & Hrel & _).
  destruct (Forall2_lookup_r _ _ _ _ _ Hrel Hcl) as (c0 & Hc0 & Hr0).
  assert (Hlt : (k < length cs)%nat) by by eapply lookup_lt_Some.
  assert (Hgen : ∀ s1, SInv s1 → main s1 = main s → fwds s1 = fwds s →
    (∀ n cl c, n ≠ k → calls sc !! n = Some cl → cs !! n = Some (CalConn c) → ∃ l rpc o,
       ksig (conns s1) !! c = Some (l, rpc) ∧ lsig (listeners s1) !! l = Some (o, callee cl)) →
    (∀ c, cl' = CalConn c → ∃ l rpc o,
       ksig (conns s1) !! c = Some (l, rpc) ∧ lsig (listeners s1) !! l = Some (o, callee c0)) →
    SInv (set_main (MSched ph sc (<[k := cl']> cs)) s1)).
  { intros s2 H2 Em2 Ef2 Hold Hnew. apply (SInv_main s2 _ (fwds s2)); [done| | |by rewrite Em2, Em|by rewrite Em2, Em].
    - intros ph' sc0 cs0 n cl0 c [= <- <- <-] Hcl0 Hc'. destruct (decide (n = k)) as [->|Hne].
      + rewrite list_lookup_insert_eq in Hc' by done. simplify_eq. by apply Hnew.
      + rewrite list_lookup_insert_ne in Hc' by done. by eapply Hold.
    - pose proof (o_fwd _ H2) as Hfw. rewrite Em2, Em in Hfw. done. }
  apply callStep_inv in Hc as [(srv & rpc & l & x & -> & -> & Hl & Hx & _ & ->)|[(-> & -> & _)|
    (-> & c & kk & -> & _ & Hor)]].
  - simpl in Hr0. destruct Hr0 as [-> ->]. apply Hgen; [|done|done|..].
    + apply SInv_snoc; [done|by rewrite (lsig_lookup _ _ _ Hx)|done].
    + intros n cl0 c _ Hcl0 Hc'. destruct (o_calls _ HI _ _ _ _ _ _ Em Hcl0 Hc') as (l' & rpc' & o & Hk' & ?).
      exists l', rpc', o. split; [|done]. unfold ksig. simpl. rewrite fmap_app. by apply lookup_app_l_Some.
    + intros c [= <-]. destruct (o_paths _ HI _ _ Hl) as [o Ho]. exists l, (QDoTask (callArg c0)), o. split; [|done].
      unfold ksig. simpl. rewrite fmap_app, lookup_app_r by (by rewrite length_fmap). by rewrite length_fmap, Nat.sub_diag.
  - apply Hgen; [done..| |done]. intros n cl0 c _ Hcl0 Hc'. by eapply o_calls.
  - apply Hgen; [done..| |by destruct Hor as [[_ ->]|(? & _ & ->)]]. intros n cl0 c' _ Hcl0 Hc'. by eapply o_calls.
Qed.

(** The main goroutine outside of [schedule]. *)
Lemma SInv_leave s m :
  SInv s → (∀ ph sc cs, m ≠ MSched ph sc cs) →
  (∀ c, main s = MStop (CalConn c) → ∃ k, conns s !! c = Some k ∧ unfinished (cst k) = false) →
  (stopPending m = true → stopPending (main s) = true) → SInv (set_main m s).
Proof.
  intros HI Hn Hst Hp. apply (SInv_main s m (fwds s)); try done.
  - intros ?????? ->. by destruct (Hn ph sc cs).
  - destruct m; try done. by destruct (Hn ph sc cs).
Qed.

Lemma SInv_killStep s fail todo acc cur s' :
  FInv s → SInv s → main s = MKill todo acc cur → killStep fail todo acc cur s = Some s' → SInv s'.
Proof.
  intros HF HI Em. pose proof (fi_stop _ _ _ _ _ _ _ _ HF) as Hok. rewrite Em in Hok. unfold killStep.
  assert (Hcall : ∀ cl cl' s1, callStep fail cl s = Some (cl', s1) →
    (∀ srv rpc, cl = CalNew srv rpc → rpc = QWorkerShutdown) → SInv (set_main (MKill todo acc (Some cl')) s1)).
  { intros cl cl' s1 Hc Hn. apply callStep_inv in Hc as [(srv & rpc & l & x & -> & -> & Hl & Hx & _ & ->)|
      [(-> & -> & _)|(-> & c & k & -> & _ & _)]]; apply SInv_leave; try done; simpl; try by rewrite Em.
    apply SInv_snoc; [done|by rewrite (lsig_lookup _ _ _ Hx)|]. by rewrite (Hn _ _ eq_refl). }
  destruct cur as [[srv rpc|c|r]|].
  1,2: intros ([cl s1] & Hc & ?)%obind_Some; simplify_eq; eapply Hcall; [done|]; intros ?? [= <- <-]; done.
  - intros; simplify_eq. apply SInv_leave; [done..|by rewrite Em|by rewrite Em].
  - destruct todo as [|w todo]; intros; simplify_eq; apply SInv_leave; try done; simpl; try by rewrite Em.
    destruct HI. by split.
Qed.

Lemma SInv_stopStep s fail cl s' :
  FInv s → SInv s → main s = MStop cl → stopStep fail cl s = Some s' → SInv s'.
Proof.
  intros HF HI Em. pose proof (fi_stop _ _ _ _ _ _ _ _ HF) as Hok. rewrite Em in Hok. unfold stopStep.
  destruct cl as [srv rpc|c|r].
  - intros ([cl s1] & Hc & ?)%obind_Some; simplify_eq. simpl in Hok. subst.
    apply callStep_inv in Hc as [(srv' & rpc & l & x & ? & -> & Hl & Hx & _ & ->)|
      [(-> & -> & _)|(-> & c & k & ? & _ & _)]]; simplify_eq; [|by apply SInv_leave; [..|rewrite Em|rewrite Em]].
    assert (Hp : mstop s = false) by (apply (o_pending _ HI); by rewrite Em).
    assert (H1 : SInv (set_main (MStop (CalConn (length (conns s)))) s)) by by apply SInv_leave; [..|rewrite Em|].
    apply (SInv_snoc (set_main (MStop (CalConn (length (conns s)))) s)); [done|by simpl; rewrite (lsig_lookup _ _ _ Hx)|done].
  - intros ([cl s1] & Hc & ?)%obind_Some; simplify_eq.
    apply callStep_inv in Hc as [(? & ? & ? & ? & ? & _)|[(_ & _ & ? & ? & ?)|(-> & c' & k & [= <-] & Hk & Hor)]]; [done..|].
    apply SInv_leave; [done| | |by destruct Hor as [[_ ->]|(? & _ & ->)]].
    + by destruct Hor as [[_ ->]|(? & _ & ->)].
    + rewrite Em. intros c0 [= <-]. exists k. split; [done|]. by destruct Hor as [[-> _]|(? & -> & _)].
  - intros; simplify_eq. apply SInv_leave; [done..|by rewrite Em|done].
Qed.

Lemma SInv_mainStep s fail s' :
  FInv s → SInv s → mainStep job files nreduce fail s = Some s' → SInv s'.
Proof.
  intros HF HI. unfold mainStep. destruct (main s) as [ph sc cs|todo acc cur|cl| | |] eqn:Em; try done.
  - destruct (returned sc); [|done]. intros; simplify_eq. destruct ph.
    + apply SInv_main; [done| | |by rewrite Em|by rewrite Em].
      * intros ph' sc0 cs0 n cl c [= <- <- <-]. done.
      * exists (mkFwd 0 []). split_and!; [|done|apply zlen_nonneg|done].
        rewrite length_app, Nat.add_1_r. simpl. by apply list_lookup_middle.
    + apply SInv_leave; [done..|by rewrite Em|by rewrite Em].
  - by apply SInv_killStep.
  - by apply SInv_stopStep.
  - intros; simplify_eq. destruct (merge _ _ _) as [fs|].
    + apply (SInv_leave (set_fs fs s) MSend); [destruct HI; by split|done|simpl; by rewrite Em|done].
    + destruct HI. split; try done. simpl. auto.
Qed.

(** ** Steps *)

Lemma SInv_forward s p s' : SInv s → forwardStep p s = Some s' → SInv s'.
Proof.
  intros HI. unfold forwardStep. intros (f & Hf & Hs)%obind_Some.
  assert (∃ w i, forwardTurn (mr s) (fi f) = Some (w, i) ∧
    s' = set_fwds (<[p := mkFwd i (fsend f ++ [w])]> (fwds s)) s) as (w & i & Ht & ->).
  { destruct (main s); try done; apply obind_Some in Hs as ([w i] & ? & ?); simplify_eq; eauto. }
  eapply SInv_frame; try done. simpl. pose proof (o_fwd _ HI) as Hw.
  destruct (main s) as [ph sc cs| | | | |]; try done. destruct Hw as (f0 & Hf0 & Hr & Hsub). simpl.
  rewrite length_insert. destruct (decide (p = pred (length (fwds s)))) as [->|Hne]; [|by rewrite list_lookup_insert_ne; eauto].
  simplify_eq. exists (mkFwd i (fsend f ++ [w])). rewrite list_lookup_insert_eq by (by eapply lookup_lt_Some).
  unfold forwardTurn in Ht. case_decide as Hgt; [|done]. apply obind_Some in Ht as (w' & Hw' & [= <- <-]).
  apply go_index_Some in Hw' as [Hge Hw']. simpl. split_and!; [done|lia|lia|].
  replace (Z.to_nat (fi f + 1)) with (S (Z.to_nat (fi f))) by lia. rewrite (take_S_r _ _ _ Hw'), app_assoc.
  by apply submseteq_app.
Qed.

Lemma SInv_start s me nrpc sh own :
  SInv s → SInv (set_wks (wks s ++ [mkWk (mkWorker me nrpc 0 0) sh own true None WStart]) s).
Proof.
  intros HI.
  assert (Happ : ∀ j w, wks s !! j = Some w →
    (wks s ++ [mkWk (mkWorker me nrpc 0 0) sh own true None WStart]) !! j = Some w) by (intros; by apply lookup_app_l_Some).
  destruct HI. split; simpl; try done.
  - intros l [j|] p Hl; [|by apply o_lis0 in Hl]. destruct (o_lis0 _ _ _ Hl) as (w & ? & ?). eauto.
  - intros j w l [Hw|[_ Hw]]%lookup_app_Some; [by apply o_wlis0|].
    by apply list_lookup_singleton_Some in Hw as [_ <-].
  - apply Forall_app. split; [done|]. constructor; [by split|done].
  - intros c l nm Hc. destruct (o_regs0 _ _ _ Hc) as (j & w & ? & ? & ?). exists j, w. auto.
  - intros j w [Hw|[Hge Hw]]%lookup_app_Some; [by apply o_conc0|].
    apply list_lookup_singleton_Some in Hw as [Hz <-]. intros _. left. split; [done|].
    intros c (k & x & _ & Hx & Ho & _). apply lsig_lookup in Hx. rewrite Ho in Hx.
    destruct (o_lis0 _ _ _ Hx) as (w & Hw & _). apply lookup_lt_Some in Hw. lia.
Qed.

Lemma SInv_step s e s' : FInv s → SInv s → distinct s → step s e = Some s' → SInv s'.
Proof.
  intros HF HI Hd. unfold dstep. case_bool_decide; [|done].
  destruct e as [me nrpc sh own|i fail|c| |p|m|k fail|k|fail| |i g].
  - destruct (negb _); intros; simplify_eq. by apply SInv_start.
  - by apply SInv_workerStep.
  - unfold serveConn. intros (k & Hk & (x & Hx & Hs)%obind_Some)%obind_Some. destruct (lowner x) as [i|] eqn:Ho.
    + apply obind_Some in Hs as (w & Hw & Hs). by eapply SInv_serveWorker.
    + destruct (cst k) eqn:Hst; try done. by eapply SInv_serveMaster.
  - unfold masterLoop. destruct (mloop s); [| |done].
    + intros; simplify_eq. eapply SInv_frame; try done. apply HI.
    + case_match; [|intros; simplify_eq; eapply SInv_frame; try done; apply HI].
      intros ([c s1] & Ha & ?)%obind_Some. simplify_eq. destruct (SInv_accept _ _ _ _ HI Ha) as [H1 _].
      eapply SInv_frame; try done. apply H1.
  - by apply SInv_forward.
  - unfold schedRecv. destruct (main s) as [ph sc cs| | | | |] eqn:Em; try done.
    intros (f & Hf & (w & Hw & Hs)%obind_Some)%obind_Some.
    eapply (SInv_schedNext s ph sc cs (Registered w)); [done..| |exact Hf| | |exact Hs].
    + rewrite length_insert. apply list_lookup_insert_eq. by eapply lookup_lt_Some.
    + done.
    + simpl. symmetry. by apply delete_Permutation.
  - by apply SInv_schedCall.
  - unfold schedResult. destruct (main s) as [ph sc cs| | | | |] eqn:Em; try done.
    intros (cl & Hcl & Hs)%obind_Some. destruct cl as [| |r]; try done.
    pose proof (o_fwd _ HI) as Hfw. rewrite Em in Hfw. destruct Hfw as (f & Hf & _).
    assert (schedNext ph (delete k cs) (schedStep (theJob job files nreduce ph) sc
      (Result k (if r is Some _ then true else false))) (set_fwds (fwds s) s) = Some s') as Hs'.
    { rewrite <-Hs. by destruct s. }
    by eapply (SInv_schedNext s ph sc cs (Result k _) (fwds s) f f).
  - by apply SInv_mainStep.
  - unfold Wait. destruct (main s) eqn:Em; try done. intros; simplify_eq.
    apply (SInv_main s MOver (fwds s)); try done. by rewrite Em.
  - intros (w & Hw & Hs)%obind_Some. destruct (wown w && wlive w) eqn:Hb; [|done].
    apply andb_prop in Hb as [Hown _]. by eapply SInv_crash.
Qed.
End Step.

(** *** Names *)

Definition nms (s : DSys) : list string := address (mr s) :: (wname ∘ wst <$> wks s).

Lemma nms_insert s s' i w w' :
  wks s' = <[i := w']> (wks s) → wks s !! i = Some w → wname (wst w') = wname (wst w) →
  address (mr s') = address (mr s) → nms s' = nms s.
Proof.
  intros Ew Hw En Ea. unfold nms. rewrite Ea, Ew. f_equal. rewrite list_fmap_insert. apply list_insert_id.
  rewrite list_lookup_fmap, Hw. simpl. by rewrite En.
Qed.

Lemma nms_pc i pc s : nms (set_pc i pc s) = nms s.
Proof. unfold nms. f_equal. by apply fmap_alter_same. Qed.

Lemma nms_wst s i w x : wks s !! i = Some w → wname x = wname (wst w) → nms (set_wst i x s) = nms s.
Proof. intros Hw E. by eapply (nms_insert s _ i w); [apply alter_insert_list|..]. Qed.

Lemma nms_same s s' : wks s' = wks s → mr s' = mr s → nms s' = nms s.
Proof. unfold nms. by intros -> ->. Qed.

Lemma nms_close l s : nms (closeListener l s) = nms s.
Proof. unfold closeListener. by destruct (listeners s !! l). Qed.

Lemma nms_call fail cl s cl' s' : callStep fail cl s = Some (cl', s') → nms s' = nms s.
Proof. intros Hc. apply callStep_inv in Hc. naive_solver. Qed.

Lemma nms_crash i w g s s' : wks s !! i = Some w → crash i w g s = Some s' → nms s' = nms s.
Proof.
  intros Hw. unfold crash. destruct (wlis w); case_bool_decide; intros; simplify_eq; by eapply (nms_insert s _ i w).
Qed.

Lemma nms_fatal i w why s s' : wks s !! i = Some w → fatalAt i w why s = Some s' → nms s' = nms s.
Proof. intros Hw. unfold fatalAt. destruct (wown w); [by eapply nms_crash|]. intros; by simplify_eq. Qed.

Lemma nms_accept l s c s' : accept l s = Some (c, s') → nms s' = nms s ∧ wks s' = wks s.
Proof. unfold accept. intros ([? ?] & _ & ?)%obind_Some. by simplify_eq. Qed.

Lemma nms_workerStep i fail s s' : workerStep i fail s = Some s' → nms s' = nms s.
Proof.
  unfold workerStep. intros (w & Hw & Hs)%obind_Some. destruct (wpc w) as [| |cl| | | |]; simplify_eq/=.
  - by rewrite nms_pc.
  - unfold listen in Hs. destruct (paths s !! _); [by eapply nms_fatal|]. simplify_eq/=.
    by eapply (nms_insert s _ i w).
  - destruct cl; [| |by simplify_eq; rewrite nms_pc]; apply obind_Some in Hs as ([? ?] & Hc & ?); simplify_eq;
      rewrite nms_pc; by eapply nms_call.
  - by rewrite nms_pc.
  - apply obind_Some in Hs as (l & _ & ([c s1] & Ha & ?)%obind_Some). simplify_eq.
    destruct (nms_accept _ _ _ _ Ha) as [<- Ew]. rewrite nms_pc. eapply nms_wst; [by rewrite Ew|done].
  - apply obind_Some in Hs as (l & _ & ?). simplify_eq. by rewrite nms_pc, nms_close.
Qed.

Lemma nms_serveWorker i w c k s s' :
  wks s !! i = Some w → serveWorker mapF reduceF i w c k s = Some s' → nms s' = nms s.
Proof.
  intros Hw. unfold serveWorker. destruct (creq k), (cst k); try done; try (intros; by simplify_eq).
  - destruct (doTaskBegin _ _) as [[[x q] b]|] eqn:Hb; [|by eapply nms_fatal].
    intros; simplify_eq. change (nms (set_wst i x s) = nms s). eapply nms_wst; [done|by eapply doTaskBegin_name].
  - destruct (taskEffect _ _ _ _); [|by eapply nms_fatal]. intros; by simplify_eq.
  - simpl. intros; simplify_eq. by eapply (nms_wst s i w).
  - simpl. intros; simplify_eq. by eapply (nms_wst s i w).
Qed.

Lemma nms_step s e s' : step s e = Some s' → ∃ l, nms s' = nms s ++ l.
Proof.
  unfold dstep. case_bool_decide; [|done].
  intros Hs. cut (nms s' = nms s ∨ ∃ w, wks s' = wks s ++ [w] ∧ mr s' = mr s).
  { intros [->|(w & Ew & Em)]; [exists []; by rewrite app_nil_r|]. exists [wname (wst w)].
    unfold nms. by rewrite Ew, Em, fmap_app. }
  destruct e as [me nrpc sh own|i fail|c| |p|m|k fail|k|fail| |i g].
  - destruct (negb _); simplify_eq. right. eauto.
  - left. by eapply nms_workerStep.
  - left. apply obind_Some in Hs as (k & Hk & (x & Hx & Hs)%obind_Some). destruct (lowner x) as [i|].
    + apply obind_Some in Hs as (w & Hw & Hs). by eapply nms_serveWorker.
    + destruct (cst k); try done. unfold serveMaster in Hs. destruct (creq k); try by simplify_eq.
      * destruct (main s); by simplify_eq.
      * destruct (mstop s); simplify_eq; [done|]. etrans; [|apply (nms_close 0 (set_mstop true s))]. done.
  - left. unfold masterLoop in Hs. destruct (mloop s); [by simplify_eq| |done]. case_match; [|by simplify_eq].
    apply obind_Some in Hs as ([c s1] & Ha & ?). simplify_eq. by destruct (nms_accept _ _ _ _ Ha) as [<- _].
  - left. apply obind_Some in Hs as (f & _ & Hs).
    destruct (main s); try done; apply obind_Some in Hs as ([? ?] & _ & ?); by simplify_eq.
  - left. unfold schedRecv in Hs. destruct (main s); try done. apply obind_Some in Hs as (f & _ & (w & _ & Hs)%obind_Some).
    unfold schedNext in Hs. destruct (schedStep _ _ _); by simplify_eq.
  - left. unfold schedCall in Hs. destruct (main s); try done.
    apply obind_Some in Hs as (cl & _ & ([? s1] & Hc & ?)%obind_Some). simplify_eq. by apply nms_call in Hc.
  - left. unfold schedResult in Hs. destruct (main s); try done. apply obind_Some in Hs as ([| |r] & _ & Hs); try done.
    unfold schedNext in Hs. destruct (schedStep _ _ _); by simplify_eq.
  - left. unfold mainStep, stopStep in Hs. destruct (main s) as [ph sc cs|todo acc cur|cl| | |]; try done.
    + destruct (returned sc); [|done]. by destruct ph; simplify_eq.
    + unfold killStep in Hs. destruct cur as [[]|]; [| |by simplify_eq|by destruct todo; simplify_eq];
        apply obind_Some in Hs as ([? s1] & Hc & ?); simplify_eq; by apply nms_call in Hc.
    + destruct cl; [| |by simplify_eq]; apply obind_Some in Hs as ([? s1] & Hc & ?); simplify_eq; by apply nms_call in Hc.
    + by destruct (merge _ _ _); simplify_eq.
  - left. unfold Wait in Hs. destruct (main s); by simplify_eq.
  - left. apply obind_Some in Hs as (w & Hw & Hs). destruct (wown w && wlive w); [|done]. by eapply nms_crash.
Qed.

Lemma distinct_step s e s' : step s e = Some s' → distinct s' → distinct s.
Proof. intros Hs Hd. destruct (nms_step _ _ _ Hs) as [l E]. unfold distinct in Hd. fold (nms s') in Hd.
  rewrite E in Hd. by apply NoDup_app in Hd as [? _]. Qed.

Lemma SInv_init master : SInv (Distributed job files nreduce fs0 master).
Proof.
  split; simpl; try done.
  - intros l o p Hl. apply list_lookup_singleton_Some in Hl as [_ [= <- <-]]. done.
  - intros p l [<- <-]%lookup_singleton_Some. by exists None.
  - intros ph sc cs n cl c [= <- <- <-]. done.
  - constructor.
  - exists (mkFwd 0 []). by split_and!.
  - auto.
Qed.

Hypothesis Hpos : (0 < nreduce)%nat.
Hypothesis Hinputs : inputs_ok fs0 job files.

Lemma SInv_reach master s :
  dreach mapF reduceF job files nreduce fs0 master s → distinct s → SInv s.
Proof.
  induction 1 as [|s e s' Hr IH Hs]; intros Hd; [apply SInv_init|].
  pose proof (distinct_step _ _ _ Hs Hd) as Hd0. destruct (FInv_reach _ _ _ _ _ _ Hpos Hinputs _ _ Hr) as [ch HF].
  eapply SInv_step; [exact HF|by apply IH|exact Hd0|exact Hs].
Qed.

End Safe.
