(* ===== verification/DistributedTheorems.v ===== *)
(** * What a distributed job guarantees

    The theorems about [Distributed]: its output is that of [Sequential], workers are never
    misused, and a worker that has been shut down keeps waiting. Witnesses run a word
    count on two workers, of which one dies in the middle of a task. *)

From S2P Require Import Prelude GoStrings Json Schedule MapReduce MapReduceSpec Master Apps.
From S2P Require Import Distributed DistributedFiles DistributedSafe.

(** ** A worker after Shutdown *)

(** Connections keep their listener, and none is queued again. *)
Definition connEvolves (k k' : Conn) : Prop := clis k' = clis k ∧ (cst k' = Queued → cst k = Queued).

Definition connsGrow (ks ks' : list Conn) : Prop :=
  ∃ old new, ks' = old ++ new ∧ Forall2 connEvolves ks old.

#[export] Instance connEvolves_preorder : PreOrder connEvolves.
Proof. unfold connEvolves. split; [intros ?; naive_solver|intros ???; naive_solver congruence]. Qed.

Lemma connsGrow_old ks ks' : Forall2 connEvolves ks ks' → connsGrow ks ks'.
Proof. intros Hf. exists ks', []. by rewrite app_nil_r. Qed.

Lemma connsGrow_refl ks : connsGrow ks ks.
Proof. by apply connsGrow_old. Qed.

Lemma connsGrow_snoc ks k : connsGrow ks (ks ++ [k]).
Proof. by exists ks, [k]. Qed.

Lemma connsGrow_trans ks1 ks2 ks3 : connsGrow ks1 ks2 → connsGrow ks2 ks3 → connsGrow ks1 ks3.
Proof.
  intros (old & new & -> & H1) (old' & new' & -> & H2). apply Forall2_app_inv_l in H2 as (o1 & o2 & Ho1 & _ & ->).
  exists o1, (o2 ++ new'). split; [by rewrite app_assoc|]. by etrans.
Qed.

Lemma connsGrow_cst ks c st :
  st ≠ Queued → connsGrow ks (alter (λ k, mkConn (clis k) (creq k) st) c ks).
Proof.
  intros Hst. apply connsGrow_old, Forall2_same_length_lookup_2; [by rewrite length_alter|].
  intros i k k' Hk (k0 & Hk0 & E & _ & Hor)%lookup_cst. simplify_eq. split; [done|].
  destruct Hor as [->|[_ ->]]; done.
Qed.

Lemma connsGrow_break ks l f : connsGrow ks (breakConns l f ks).
Proof.
  apply connsGrow_old, Forall2_same_length_lookup_2; [by unfold breakConns; rewrite length_fmap|].
  intros i k k' Hk (k0 & Hk0 & E & _ & Hor)%lookup_break. simplify_eq. split; [done|].
  by destruct Hor as [[-> _]|(_ & _ & ->)].
Qed.

Lemma connsGrow_close l s : connsGrow (conns s) (conns (closeListener l s)).
Proof. unfold closeListener. destruct (listeners s !! l); [apply connsGrow_break|apply connsGrow_refl]. Qed.

Lemma connsGrow_call fail cl s cl' s' : callStep fail cl s = Some (cl', s') → connsGrow (conns s) (conns s').
Proof.
  intros [(?&?&?&?&_&_&_&_&_&->)|[(->&_)|(->&_)]]%callStep_inv; [apply connsGrow_snoc|apply connsGrow_refl..].
Qed.

Lemma connsGrow_accept l s c s' : accept l s = Some (c, s') → connsGrow (conns s) (conns s').
Proof. unfold accept. intros ([? ?] & _ & ?)%obind_Some. simplify_eq. by apply connsGrow_cst. Qed.

(** What others may do to worker [i]. *)
Definition wkKeeps (w w' : Wk) : Prop :=
  wown w' = wown w ∧ wlis w' = wlis w ∧ wpc w' = wpc w ∧ (nRPC (wst w') = nRPC (wst w) ∨ nRPC (wst w') = 1).

Definition othersKeep (i : nat) (ws ws' : list Wk) : Prop :=
  ∀ w, ws !! i = Some w → wown w = false → ∃ w', ws' !! i = Some w' ∧ wkKeeps w w'.

Lemma othersKeep_refl i ws : othersKeep i ws ws.
Proof. intros w Hw _. exists w. by repeat (split; [done|]); left. Qed.

Lemma othersKeep_ne i j f ws : j ≠ i → othersKeep i ws (alter f j ws).
Proof. intros Hne w Hw Ho. rewrite list_lookup_alter_ne by done. by apply othersKeep_refl. Qed.

Lemma othersKeep_insert i j w0 w1 ws : ws !! j = Some w0 → j ≠ i ∨ wown w0 = true → othersKeep i ws (<[j := w1]> ws).
Proof.
  intros Hj Hor w Hw Ho. rewrite list_lookup_insert_ne; [by apply othersKeep_refl|]. intros ->. destruct Hor; congruence.
Qed.

Lemma othersKeep_wst i j w0 x ws :
  ws !! j = Some w0 → nRPC x = nRPC (wst w0) ∨ nRPC x = 1 →
  othersKeep i ws (alter (λ w, mkWk x (wpar w) (wown w) (wlive w) (wlis w) (wpc w)) j ws).
Proof.
  intros Hj Hx w Hw Ho. destruct (decide (j = i)) as [->|]; [|by apply othersKeep_ne].
  rewrite list_lookup_alter_eq, Hw. simplify_eq. eexists. split; [done|]. by split_and!.
Qed.

Lemma fatal_effects `{codec : !KVCodec} i j w why s s' :
  wks s !! j = Some w → fatalAt j w why s = Some s' →
  connsGrow (conns s) (conns s') ∧ othersKeep i (wks s) (wks s').
Proof.
  intros Hw. unfold fatalAt, crash. destruct (wown w) eqn:Hown;
    [|intros; simplify_eq; split; [apply connsGrow_refl|apply othersKeep_refl]].
  destruct (wlis w); case_bool_decide; intros; simplify_eq;
    (split; [apply connsGrow_break || apply connsGrow_refl|eapply othersKeep_insert; eauto]).
Qed.

Lemma closeListener_wks l s : wks (closeListener l s) = wks s.
Proof. by destruct (closeListener_frame l s) as (_ & _ & ? & _). Qed.

Section Job.
Context `{codec : !KVCodec} `{sorter : !SortByKey}.
Context (mapF : nat → MapFn) (reduceF : string → list string → string).
Context (job : string) (files : list string) (nreduce : nat).
Notation step := (dstep mapF reduceF job files nreduce).

Lemma workerStep_effects i j fail s s' :
  workerStep j fail s = Some s' →
  connsGrow (conns s) (conns s') ∧ (j ≠ i → othersKeep i (wks s) (wks s')).
Proof.
  unfold workerStep. intros (w & Hw & Hs)%obind_Some. destruct (wpc w) as [| |cl| | | |]; simplify_eq/=.
  - split; [apply connsGrow_refl|]. intros. by apply othersKeep_ne.
  - unfold listen in Hs. destruct (paths s !! _).
    + destruct (fatal_effects i _ _ _ _ _ Hw Hs). by split.
    + simplify_eq. split; [apply connsGrow_refl|]. intros. by eapply othersKeep_insert; [|left].
  - destruct cl; [| |by simplify_eq; split; [apply connsGrow_refl|intros; by apply othersKeep_ne]];
      apply obind_Some in Hs as ([cl' s1] & Hc & ?); simplify_eq; (split; [exact (connsGrow_call _ _ _ _ _ Hc)|]); intros;
      simpl; (replace (wks s1) with (wks s) by (apply callStep_inv in Hc; naive_solver)); by apply othersKeep_ne.
  - split; [apply connsGrow_refl|]. intros. by apply othersKeep_ne.
  - apply obind_Some in Hs as (l & _ & ([c s1] & Ha & ?)%obind_Some). simplify_eq. split; [exact (connsGrow_accept _ _ _ _ Ha)|].
    intros Hne. simpl. destruct (nms_accept _ _ _ _ Ha) as [_ ->]. intros w0 Hw0 Ho.
    rewrite !list_lookup_alter_ne by done. by apply othersKeep_refl.
  - apply obind_Some in Hs as (l & _ & ?). simplify_eq. split; [apply connsGrow_close|]. intros. simpl.
    rewrite closeListener_wks. by apply othersKeep_ne.
Qed.

Lemma serve_effects i c s s' :
  serveConn mapF reduceF c s = Some s' → connsGrow (conns s) (conns s') ∧ othersKeep i (wks s) (wks s').
Proof.
  unfold serveConn. intros (k & Hk & (x & Hx & Hs)%obind_Some)%obind_Some. destruct (lowner x) as [j|].
  - apply obind_Some in Hs as (w & Hw & Hs). unfold serveWorker in Hs.
    destruct (creq k), (cst k); try done; try by (simplify_eq; split; [by apply connsGrow_cst|apply othersKeep_refl]).
    + destruct (doTaskBegin _ _) as [[[y q] b]|] eqn:Hb; [|by eapply fatal_effects].
      simplify_eq. split; [by apply connsGrow_cst|]. simpl. eapply othersKeep_wst; [done|]. left.
      unfold doTaskBegin in Hb. case_decide; [done|]. destruct (if wpar w then _ else _); by simplify_eq/=.
    + destruct (taskEffect _ _ _ _); [|by eapply fatal_effects].
      simplify_eq. split; [by apply connsGrow_cst|apply othersKeep_refl].
    + simplify_eq/=. split; [by apply connsGrow_cst|]. eapply othersKeep_wst; [done|by left].
    + simplify_eq/=. split; [by apply connsGrow_cst|]. eapply othersKeep_wst; [done|by right].
  - destruct (cst k); try done. unfold serveMaster in Hs. destruct (creq k).
    + destruct (main s); simplify_eq; (split; [by apply connsGrow_cst|apply othersKeep_refl]).
    + destruct (mstop s); simplify_eq; [split; [apply connsGrow_refl|apply othersKeep_refl]|]. split.
      * eapply connsGrow_trans; [apply (connsGrow_close 0 (set_mstop true s))|by apply connsGrow_cst].
      * simpl. rewrite closeListener_wks. apply othersKeep_refl.
    + simplify_eq. split; [by apply connsGrow_cst|apply othersKeep_refl].
    + simplify_eq. split; [by apply connsGrow_cst|apply othersKeep_refl].
Qed.

Lemma step_effects i s e s' :
  step s e = Some s' →
  connsGrow (conns s) (conns s') ∧ ((∀ fail, e ≠ DWorker i fail) → othersKeep i (wks s) (wks s')).
Proof.
  assert (Hsame : ∀ s', conns s' = conns s → wks s' = wks s →
    connsGrow (conns s) (conns s') ∧ ((∀ fail, e ≠ DWorker i fail) → othersKeep i (wks s) (wks s'))).
  { intros s1 -> ->. split; [apply connsGrow_refl|]. intros _. apply othersKeep_refl. }
  assert (Hcall : ∀ fail cl cl' s1 m, callStep fail cl s = Some (cl', s1) →
    connsGrow (conns s) (conns (set_main m s1)) ∧ ((∀ fail, e ≠ DWorker i fail) → othersKeep i (wks s) (wks (set_main m s1)))).
  { intros fail cl cl' s1 m Hc. split; [exact (connsGrow_call _ _ _ _ _ Hc)|]. intros _. simpl.
    replace (wks s1) with (wks s) by (apply callStep_inv in Hc; naive_solver). apply othersKeep_refl. }
  unfold dstep. case_bool_decide; [|done].
  destruct e as [me nrpc sh own|j fail|c| |p|m|k fail|k|fail| |j g]; intros Hs.
  - destruct (negb _); simplify_eq. split; [apply connsGrow_refl|]. intros _ w Hw _.
    exists w. split; [by apply lookup_app_l_Some|]. split_and!; auto.
  - destruct (workerStep_effects i _ _ _ _ Hs) as [? Hk]. split; [done|]. intros Hn. apply Hk. intros ->. by destruct (Hn fail).
  - destruct (serve_effects i _ _ _ Hs). by split.
  - unfold masterLoop in Hs. destruct (mloop s); [simplify_eq; by apply Hsame| |done].
    case_match; [|simplify_eq; by apply Hsame]. apply obind_Some in Hs as ([c s1] & Ha & ?). simplify_eq.
    split; [exact (connsGrow_accept _ _ _ _ Ha)|]. intros _. simpl. destruct (nms_accept _ _ _ _ Ha) as [_ ->]. apply othersKeep_refl.
  - apply obind_Some in Hs as (f & _ & Hs).
    destruct (main s); try done; apply obind_Some in Hs as ([? ?] & _ & ?); simplify_eq; by apply Hsame.
  - unfold schedRecv in Hs. destruct (main s); try done. apply obind_Some in Hs as (f & _ & (w & _ & Hs)%obind_Some).
    unfold schedNext in Hs. destruct (schedStep _ _ _); simplify_eq; by apply Hsame.
  - unfold schedCall in Hs. destruct (main s); try done.
    apply obind_Some in Hs as (cl & _ & ([? s1] & Hc & ?)%obind_Some). simplify_eq. by eapply Hcall.
  - unfold schedResult in Hs. destruct (main s); try done. apply obind_Some in Hs as ([| |r] & _ & Hs); try done.
    unfold schedNext in Hs. destruct (schedStep _ _ _); simplify_eq; by apply Hsame.
  - unfold mainStep, stopStep in Hs. destruct (main s) as [ph sc cs|todo acc cur|cl| | |]; try done.
    + destruct (returned sc); [|done]. destruct ph; simplify_eq; by apply Hsame.
    + unfold killStep in Hs. destruct cur as [[]|]; [| |simplify_eq; by apply Hsame|destruct todo; simplify_eq; by apply Hsame];
        apply obind_Some in Hs as ([? s1] & Hc & ?); simplify_eq; by eapply Hcall.
    + destruct cl; [| |simplify_eq; by apply Hsame]; apply obind_Some in Hs as ([? s1] & Hc & ?); simplify_eq; by eapply Hcall.
    + destruct (merge _ _ _); simplify_eq; by apply Hsame.
  - unfold Wait in Hs. destruct (main s); simplify_eq; by apply Hsame.
  - apply obind_Some in Hs as (w & Hw & Hs). destruct (wown w && wlive w) eqn:Hb; [|done].
    apply andb_prop in Hb as [Hown _]. unfold crash in Hs.
    destruct (wlis w); case_bool_decide; simplify_eq;
      (split; [apply connsGrow_break || apply connsGrow_refl|intros _; eapply othersKeep_insert; eauto]).
Qed.

(** Connections to [l]. *)
Definition connsAt (l : nat) (ks : list Conn) : nat := length (filter (λ k, clis k = l) ks).

Lemma connsAt_grow l ks ks' :
  connsGrow ks ks' →
  (connsAt l ks ≤ connsAt l ks')%nat ∧
  (connsAt l ks' = connsAt l ks → (∀ k, k ∈ ks → clis k = l → cst k ≠ Queued) →
   ∀ k, k ∈ ks' → clis k = l → cst k ≠ Queued).
Proof.
  intros (old & new & -> & Hf). unfold connsAt. rewrite filter_app, length_app.
  assert (E : length (filter (λ k, clis k = l) old) = length (filter (λ k, clis k = l) ks)).
  { induction Hf as [|k k' ks old [Hl _] _ IH]; [done|]. rewrite !filter_cons. rewrite Hl.
    case_decide; simpl; by rewrite IH. }
  split; [lia|]. intros Hlen Hq k [Hk|Hk]%elem_of_app Hl Hst.
  - apply list_elem_of_lookup in Hk as [c Hk]. destruct (Forall2_lookup_r _ _ _ _ _ Hf Hk) as (k0 & Hk0 & [El Hs]).
    apply (Hq k0); [by eapply list_elem_of_lookup_2|congruence|auto].
  - assert (k ∈ filter (λ k, clis k = l) new) as Hin by by apply list_elem_of_filter.
    apply list_elem_of_In, in_split in Hin as (a & b & Hab). rewrite Hab, length_app in Hlen. simpl in Hlen. lia.
Qed.

Lemma drun_connsAt l s es s' : drun mapF reduceF job files nreduce s es = Some s' → (connsAt l (conns s) ≤ connsAt l (conns s'))%nat.
Proof.
  revert s. induction es as [|e es IH]; simpl; intros s; [by intros [= ->]|]. intros (s1 & H1 & H2)%obind_Some.
  etrans; [|by apply IH]. apply connsAt_grow. by destruct (step_effects 0 _ _ _ H1).
Qed.

(** The worker waits in its accept loop for one more connection. *)
Definition lingers (i l : nat) (s : DSys) : Prop :=
  (∃ w, wks s !! i = Some w ∧ wown w = false ∧ wlis w = Some l ∧ nRPC (wst w) = 1 ∧ (wpc w = WCheck ∨ wpc w = WAccept)) ∧
  ∀ k, k ∈ conns s → clis k = l → cst k ≠ Queued.

Lemma lingers_step i l s e s' :
  lingers i l s → step s e = Some s' → connsAt l (conns s') = connsAt l (conns s) → lingers i l s'.
Proof.
  intros [(w & Hw & Hown & Hl & Hn & Hpc) Hq] Hs Hc. destruct (step_effects i _ _ _ Hs) as [Hg Hk].
  split; [|by eapply connsAt_grow].
  assert (Hdec : (∃ fail, e = DWorker i fail) ∨ ∀ fail, e ≠ DWorker i fail).
  { destruct e; try by right. destruct (decide (i0 = i)) as [->|]; [left; eauto|right; congruence]. }
  destruct Hdec as [[fail ->]|Hne].
  - unfold dstep in Hs. case_bool_decide; [|done]. unfold workerStep in Hs. rewrite Hw in Hs. simpl in Hs.
    destruct Hpc as [Hpc|Hpc]; rewrite Hpc in Hs; simplify_eq/=.
    + unfold loopCheck. rewrite decide_False by lia. rewrite list_lookup_alter_eq, Hw. eexists. split; [done|].
      split_and!; auto.
    + rewrite Hl in Hs. simpl in Hs. apply obind_Some in Hs as ([c s1] & Ha & _). unfold accept in Ha.
      apply obind_Some in Ha as ([c0 k] & (Hk0 & [Hcl Hst] & _)%list_find_Some & _).
      destruct (Hq k); [by eapply list_elem_of_lookup_2|done|done].
  - destruct (Hk Hne w Hw Hown) as (w' & Hw' & Eo & El & Ep & En). exists w'. rewrite Eo, El, Ep.
    split_and!; try done. destruct En; congruence.
Qed.
End Job.

(** If the output of the sequential job does not depend on the calls of the map function, it is the
    output of the distributed one. *)
Lemma distributed_output `{codec : !KVCodec} `{sorter : !SortByKey} mapF reduceF fs job files nreduce master s out :
  (0 < nreduce)%nat → inputs_ok fs job files →
  (∀ ch : nat → nat, ∃ fs', Sequential fs job files (Z.of_nat nreduce) (λ t, mapF (ch t)) reduceF = Some fs' ∧
     fs' !! outName job = Some out) →
  dreach mapF reduceF job files nreduce fs master s →
  dead s ≠ Some FMerge ∧ (main s = MSend ∨ main s = MOver → dfs s !! outName job = Some out).
Proof.
  intros Hpos Hin Hseq Hr. destruct (FInv_reach _ _ _ _ _ _ Hpos Hin _ _ Hr) as [ch [[HF _] _ _ (_ & _ & Hd)]].
  destruct (Hseq ch) as (fs' & Hs & Ho). split.
  - intros E. apply Hd in E. rewrite Hs in E. discriminate E.
  - intros [E|E]; rewrite E in HF; simpl in HF; rewrite Hs in HF; by injection HF as <-.
Qed.

(** ** Properties *)

(** C4: A distributed job computes what a sequential one does. Whatever workers register, in
    whatever order their calls are made, fail and end, and wherever worker processes die in the
    middle of a task and leave half-written files: once run has come to its send on doneChannel, the
    files are exactly those of Sequential. schedule never panics, no task ends the master's process, and if merge gives
    up then Sequential does too. The map function may compute other pairs at each call; then the files are those of a
    sequential run in which map task t computes what it did in some task of the distributed run ([ch t]), and those
    of every sequential run if the map function is the same at every call. The number of reduce
    tasks is positive and the input files exist and are not named like intermediate files. *)
Theorem distributed_is_sequential `{codec : !KVCodec} `{sorter : !SortByKey} mapF reduceF fs job files nreduce master s :
  (0 < nreduce)%nat → inputs_ok fs job files →
  dreach mapF reduceF job files nreduce fs master s →
  (∃ ch : nat → nat, let mapT t := mapF (ch t) in
     (main s = MSend ∨ main s = MOver →
        Sequential fs job files (Z.of_nat nreduce) mapT reduceF = Some (dfs s)) ∧
     (dead s = Some FMerge → Sequential fs job files (Z.of_nat nreduce) mapT reduceF = None)) ∧
  dead s ≠ Some FTask ∧ dead s ≠ Some FSched.
Proof.
  intros Hpos Hin Hr. destruct (FInv_reach _ _ _ _ _ _ Hpos Hin _ _ Hr) as [ch [[HF _] _ _ (Hd1 & Hd2 & Hd3)]].
  split_and!; [|done..]. exists ch. split; [|done]. intros [E|E]; by rewrite E in HF.
Qed.

(** C5: If no two workers have the same name and none has the master's, nothing ends the
    master's process but merge: each worker is registered at most once, no DoTask reaches a worker that
    still runs one, every Listen finds its path free, and the shutdown channel is closed once. The number of reduce
    tasks is positive and the input files exist and are not named like intermediate files. *)
Theorem distributed_safe `{codec : !KVCodec} `{sorter : !SortByKey} mapF reduceF fs job files nreduce master s :
  (0 < nreduce)%nat → inputs_ok fs job files →
  dreach mapF reduceF job files nreduce fs master s →
  NoDup (address (mr s) :: (wname ∘ wst <$> wks s)) →
  (dead s = None ∨ dead s = Some FMerge) ∧ NoDup (workers (mr s)) ∧
  ∀ c k x i w arg, conns s !! c = Some k → creq k = QDoTask arg → cst k = Accepted →
    listeners s !! clis k = Some x → lowner x = Some i → wks s !! i = Some w → wlive w = true →
    concurrent (wst w) = 0.
Proof.
  intros Hpos Hin Hr Hd. destruct (FInv_reach _ _ _ _ _ _ Hpos Hin _ _ Hr) as [ch HF].
  pose proof (SInv_reach _ _ _ _ _ _ Hpos Hin _ _ Hr Hd) as HI. split_and!.
  - destruct (fi_dead _ _ _ _ _ _ _ _ HF) as (? & ? & _). destruct (o_dead _ HI) as [?|[?|[?|?]]]; auto; done.
  - by apply workers_nodup.
  - intros c k x i w arg Hk Hreq Hst Hx Ho Hw Hl. destruct (o_conc _ HI _ _ Hw Hl) as [[? _]|[_ (c' & k' & x' & Hk' & Hx' & Ho' & Ha)]];
      [done|]. destruct (o_active _ HI _ _ Hk' Ha) as [arg' Hr'].
    assert (c = c') as -> by (eapply (task_unique _ _ _ _ _ _ ch s i c c' k k' x x'); try done;
      [by rewrite Hst|by destruct Ha as [-> | ->]]). simplify_eq. rewrite Hst in Ha. by destruct Ha.
Qed.

(** C35: A worker that answers Shutdown does not stop: it sets nRPC to 1 after its loop has counted the
    connection of that very call, so the loop waits for another one, and RunWorker
    returns only if somebody dials the worker again. (The worker is one in the master's process, its loop at its test or in
    Accept, with no connection waiting.) *)
Theorem shutdown_worker_waits `{codec : !KVCodec} `{sorter : !SortByKey} mapF reduceF job files nreduce s c s1 es s2 k x i w l :
  conns s !! c = Some k → creq k = QWorkerShutdown → listeners s !! clis k = Some x → lowner x = Some i →
  wks s !! i = Some w → wown w = false → wlis w = Some l → wpc w = WCheck ∨ wpc w = WAccept →
  (∀ k, k ∈ conns s → clis k = l → cst k ≠ Queued) →
  dstep mapF reduceF job files nreduce s (DServe c) = Some s1 →
  drun mapF reduceF job files nreduce s1 es = Some s2 → connsAt l (conns s2) = connsAt l (conns s) →
  ∃ w', wks s2 !! i = Some w' ∧ nRPC (wst w') = 1 ∧ (wpc w' = WCheck ∨ wpc w' = WAccept).
Proof.
  intros Hk Hreq Hx Ho Hw Hown Hl Hpc Hq Hs Hrun Hlen.
  destruct (step_effects _ _ _ _ _ i _ _ _ Hs) as [Hg _].
  pose proof (drun_connsAt _ _ _ _ _ l _ _ _ Hrun) as Hle. destruct (connsAt_grow l _ _ Hg) as [Hle0 Hq0].
  assert (HL : lingers i l s1).
  { split; [|apply Hq0; [lia|done]]. unfold dstep in Hs. case_bool_decide; [|done]. unfold serveConn in Hs. rewrite Hk in Hs.
    simpl in Hs. rewrite Hx in Hs. simpl in Hs. rewrite Ho, Hw in Hs. simpl in Hs. unfold serveWorker in Hs.
    rewrite Hreq in Hs. destruct (cst k); try done. simplify_eq/=. rewrite list_lookup_alter_eq, Hw.
    eexists. split; [done|]. by split_and!. }
  assert (Hlen1 : connsAt l (conns s2) = connsAt l (conns s1)) by lia.
  clear -HL Hrun Hlen1. revert s1 HL Hrun Hlen1. induction es as [|e es IH]; intros s1 HL; simpl.
  { intros [= ->] _. destruct HL as [(w & Hw & _ & _ & ? & ?) _]. eauto. }
  intros (s3 & H1 & H2)%obind_Some Hlen. destruct (step_effects _ _ _ _ _ i _ _ _ H1) as [Hg _].
  pose proof (drun_connsAt _ _ _ _ _ l _ _ _ H2) as Hle. destruct (connsAt_grow l _ _ Hg) as [Hle0 _].
  apply (IH s3); [eapply lingers_step; [done..|lia]|done|lia].
Qed.

(** ** A run *)

(** A word count with two reduce tasks. Worker a, a process of its own, dies while it runs the first
    map task; b, in the master's process, does everything else, is shut down, and keeps waiting. *)
Module Demo.
Notation mapF := (wcMap alternate asciiLetter).
Notation run s es := (drun (codec:=jsonCodec) (sorter:=mergeSortByKey) mapF Wc.reduceF "job" ["x"; "y"] 2 s es).

Definition boot (i c : nat) : list DEvent :=
  let w := DWorker i false in [w; w; w; DLoop; DLoop; DServe c; w; w; w].

Definition task (c : nat) : list DEvent :=
  let w := DWorker 1 false in [DCall 0 false; w; w; DServe c; DServe c; DServe c; DCall 0 false; DResult 0].

Definition mapPart : list DEvent :=
  [DStart "a" (-1) false true; DStart "b" (-1) true false] ++ boot 0 0 ++ boot 1 1 ++
  [DForward 0; DForward 0; DRecv 0; DRecv 0; DCall 0 false; DCall 1 false;
   DWorker 0 false; DWorker 0 false; DWorker 1 false; DWorker 1 false; DServe 2; DServe 3;
   DCrash 0 {["mrtmp.job-0-1" := "garbage"]}; DCall 0 false; DResult 0;
   DServe 3; DServe 3; DCall 0 false; DResult 0] ++ task 4.

Definition reducePart : list DEvent :=
  [DMain false; DForward 1; DForward 1; DRecv 0; DRecv 0; DCall 0 false; DResult 0] ++ task 5 ++ task 6.

Definition finishPart : list DEvent := replicate 6 (DMain false) ++ [DWorker 1 false].

Definition stopPart : list DEvent :=
  replicate 4 (DMain false) ++ [DLoop; DLoop; DServe 8] ++ replicate 3 (DMain false) ++ [DWait; DWorker 1 false].

Definition start : DSys := Distributed "job" ["x"; "y"] 2 fs2 "m".
Definition at_ (es : list DEvent) : DSys := default start (run start es).

Definition killed : DSys := at_ (mapPart ++ reducePart ++ finishPart).
Definition answered : DSys := at_ (mapPart ++ reducePart ++ finishPart ++ [DServe 7]).
Definition over : DSys := at_ (mapPart ++ reducePart ++ finishPart ++ [DServe 7] ++ stopPart).
End Demo.

Lemma drun_dreach `{codec : !KVCodec} `{sorter : !SortByKey} mapF reduceF fs job files nreduce master s es s' :
  dreach mapF reduceF job files nreduce fs master s → drun mapF reduceF job files nreduce s es = Some s' →
  dreach mapF reduceF job files nreduce fs master s'.
Proof.
  revert s. induction es as [|e es IH]; intros s Hr; simpl; [by intros [= <-]|].
  intros (s1 & H1 & H2)%obind_Some. by eapply IH; [eapply dreach_step|].
Qed.

Lemma demo_reach es :
  drun (codec:=jsonCodec) (sorter:=mergeSortByKey) (wcMap alternate asciiLetter) Wc.reduceF
    "job" ["x"; "y"] 2 Demo.start es ≠ None →
  dreach (codec:=jsonCodec) (sorter:=mergeSortByKey) (wcMap alternate asciiLetter) Wc.reduceF
    "job" ["x"; "y"] 2 fs2 "m" (Demo.at_ es).
Proof.
  intros Hn. unfold Demo.at_.
  destruct (drun (codec:=jsonCodec) (sorter:=mergeSortByKey) _ _ _ _ _ _ es) as [s|] eqn:E; [|done]. simpl.
  eapply drun_dreach, E. constructor.
Qed.

Lemma distributed_is_sequential_witness :
  main Demo.over = MOver ∧
  ∃ ch : nat → nat, Sequential (codec:=jsonCodec) (sorter:=mergeSortByKey) fs2 "job" ["x"; "y"] 2
    (λ t, wcMap alternate asciiLetter (ch t)) Wc.reduceF = Some (dfs Demo.over).
Proof.
  split; [vm_compute; reflexivity|].
  destruct (distributed_is_sequential (codec:=jsonCodec) (sorter:=mergeSortByKey) (wcMap alternate asciiLetter)
    Wc.reduceF fs2 "job" ["x"; "y"] 2 "m" Demo.over) as [(ch & Hseq & _) _]; [lia|exact fs2_ok|apply demo_reach; vm_compute; discriminate|].
  exists ch. apply Hseq. right. vm_compute. reflexivity.
Defined.

Lemma distributed_safe_witness :
  workers (mr Demo.killed) = ["a"; "b"] ∧ (dead Demo.killed = None ∨ dead Demo.killed = Some FMerge).
Proof.
  split; [vm_compute; reflexivity|].
  apply (distributed_safe (codec:=jsonCodec) (sorter:=mergeSortByKey) (wcMap alternate asciiLetter)
    Wc.reduceF fs2 "job" ["x"; "y"] 2 "m" Demo.killed); [lia|exact fs2_ok|apply demo_reach; vm_compute; discriminate|].
  apply (bool_decide_unpack _). vm_compute. exact I.
Defined.

Lemma shutdown_worker_waits_witness :
  ∃ w, wks Demo.over !! 1%nat = Some w ∧ nRPC (wst w) = 1 ∧ (wpc w = WCheck ∨ wpc w = WAccept).
Proof.
  eapply (shutdown_worker_waits (codec:=jsonCodec) (sorter:=mergeSortByKey) (wcMap alternate asciiLetter)
    Wc.reduceF "job" ["x"; "y"] 2 Demo.killed 7 Demo.answered Demo.stopPart Demo.over _ _ 1 _ 2);
    try (vm_compute; reflexivity).
  - left. vm_compute. reflexivity.
  - assert (Hall : Forall (λ k, ¬ (clis k = 2%nat ∧ cst k = Queued)) (conns Demo.killed))
      by (apply (bool_decide_unpack _); vm_compute; exact I).
    intros k Hk Hl Hst. exact (proj1 (Forall_forall _ _) Hall k Hk (conj Hl Hst)).
Defined.
