(* ===== verification/Commands.v ===== *)
(** * The command-line programs: main/*.go

    The [main] functions. wc.go and ii.go launch the MapReduce library: what they pass to it is
    a [Launch]. diskvd, lockd, lockc, pbd, pbc and viewd drive packages that the repository does
    not have (diskv, lockservice, pbservice, viewservice): they are interaction trees whose events
    are the calls of these packages, the output and the pauses, and the environment answers for the
    packages. [os.Exit] and the end of [main] are the result of the tree; a program that serves
    forever never has one. *)

From Stdlib Require Import Ascii.
From ITree Require Import ITree.
From S2P Require Import Prelude GoStrings Runes Clerk Json Schedule MapReduce MapReduceSpec Master Apps.
From S2P Require Import Distributed DistributedFiles DistributedTheorems.

(** ** Values of strconv whose error is ignored *)

(** The loop of ParseUint(s, 10, 64): [None] is a syntax error, and a number out of range
    ends the loop with the largest one. *)
Fixpoint parseUint (n : Z) (s : string) : option Z :=
  match s with
  | EmptyString => Some n
  | String c s =>
      let* d := digitOf c in
      let n1 := n * 10 + d in
      if decide (n1 >= 2 ^ 64) then Some (2 ^ 64 - 1) else parseUint n1 s
  end.

(** The number that ParseInt(s, 10, 64), or Atoi on 64-bit machines, returns beside its error: 0 after
    a syntax error, the nearest number after a range error. *)
Definition ParseInt (s : string) : Z :=
  let unsigned s := if decide (s = EmptyString) then None else parseUint 0 s in
  match s with
  | String "-" s => match unsigned s with Some un => if decide (un > 2 ^ 63) then - 2 ^ 63 else - un | None => 0 end
  | String "+" s => match unsigned s with Some un => if decide (un >= 2 ^ 63) then 2 ^ 63 - 1 else un | None => 0 end
  | s => match unsigned s with Some un => if decide (un >= 2 ^ 63) then 2 ^ 63 - 1 else un | None => 0 end
  end%char.

(** ParseBool: anything else is an error, and false. *)
Definition ParseBool (s : string) : bool := bool_decide (s ∈ ["1"; "t"; "T"; "TRUE"; "true"; "True"]).

(** ** Calls *)

Inductive cmdE : Type → Type :=
  | Printf (s : string) : cmdE unit
  | Sleep (seconds : Z) : cmdE unit
  | DiskvStartServer (gid : Z) (masters replicas : list string) (me : Z) (dir : string) (restart : bool) : cmdE unit
  | DiskvSetunreliable (b : bool) : cmdE unit
  | LockStartServer (primary backup : string) (am_primary : bool) : cmdE unit
  | LockMakeClerk (primary backup : string) : cmdE unit
  | LockLock (name : string) : cmdE bool
  | LockUnlock (name : string) : cmdE bool
  | PbStartServer (vshost me : string) : cmdE unit
  | PbMakeClerk (vshost me : string) : cmdE unit
  | PbGet (key : string) : cmdE string
  | PbPut (key value : string) : cmdE unit
  | ViewStartServer (me : string) : cmdE unit.

Inductive Outcome := Exited (code : Z) | KilledItself.

Notation program := (itree cmdE Outcome).

(** A call in a trace, with its answer if it has one. *)
Inductive Done :=
  | OPrintf (s : string)
  | OSleep (seconds : Z)
  | ODiskvStartServer (gid : Z) (masters replicas : list string) (me : Z) (dir : string) (restart : bool)
  | ODiskvSetunreliable (b : bool)
  | OLockStartServer (primary backup : string) (am_primary : bool)
  | OLockMakeClerk (primary backup : string)
  | OLockLock (name : string) (ok : bool)
  | OLockUnlock (name : string) (ok : bool)
  | OPbStartServer (vshost me : string)
  | OPbMakeClerk (vshost me : string)
  | OPbGet (key : string) (v : string)
  | OPbPut (key value : string)
  | OViewStartServer (me : string).

Definition doneObs (X : Type) (e : cmdE X) : X → Done :=
  match e in cmdE X return X → Done with
  | Printf s => λ _, OPrintf s
  | Sleep n => λ _, OSleep n
  | DiskvStartServer g ms rs m d r => λ _, ODiskvStartServer g ms rs m d r
  | DiskvSetunreliable b => λ _, ODiskvSetunreliable b
  | LockStartServer p b am => λ _, OLockStartServer p b am
  | LockMakeClerk p b => λ _, OLockMakeClerk p b
  | LockLock n => OLockLock n
  | LockUnlock n => OLockUnlock n
  | PbStartServer v m => λ _, OPbStartServer v m
  | PbMakeClerk v m => λ _, OPbMakeClerk v m
  | PbGet k => OPbGet k
  | PbPut k v => λ _, OPbPut k v
  | ViewStartServer m => λ _, OViewStartServer m
  end.

Definition tell {X} (e : cmdE X) : itree cmdE X := ITree.trigger e.

Definition usageExit (lines : list string) : program :=
  (fix go ls := match ls with [] => Ret (Exited 1) | l :: ls => do! tell (Printf l) in go ls end) lines.

(** [for { time.Sleep(100 * time.Second) }] *)
Definition serveForever : program :=
  ITree.iter (λ _ : unit, do! tell (Sleep 100) in Ret (inl tt)) tt.

(** ** diskvd.go *)

Record Opts := mkOpts {
  gid : Z; masters : list string; replicas : list string; me : Z;
  unreliable : bool; dir : string; restart : bool;
}.

Definition noOpts : Opts := mkOpts (-1) [] [] (-1) false "" false.

(** One turn of the loop over the arguments; [None] is usage(). *)
Definition setFlag (a0 a1 : string) (o : Opts) : option Opts :=
  if decide (a0 = "-g") then Some (mkOpts (ParseInt a1) (masters o) (replicas o) (me o) (unreliable o) (dir o) (restart o))
  else if decide (a0 = "-m") then Some (mkOpts (gid o) (masters o ++ [a1]) (replicas o) (me o) (unreliable o) (dir o) (restart o))
  else if decide (a0 = "-s") then Some (mkOpts (gid o) (masters o) (replicas o ++ [a1]) (me o) (unreliable o) (dir o) (restart o))
  else if decide (a0 = "-i") then Some (mkOpts (gid o) (masters o) (replicas o) (ParseInt a1) (unreliable o) (dir o) (restart o))
  else if decide (a0 = "-u") then Some (mkOpts (gid o) (masters o) (replicas o) (me o) (ParseBool a1) (dir o) (restart o))
  else if decide (a0 = "-d") then Some (mkOpts (gid o) (masters o) (replicas o) (me o) (unreliable o) a1 (restart o))
  else if decide (a0 = "-r") then Some (mkOpts (gid o) (masters o) (replicas o) (me o) (unreliable o) (dir o) (ParseBool a1))
  else None.

(** The loop; a last argument without a partner is not looked at. *)
Fixpoint parseFlags (args : list string) (o : Opts) : option Opts :=
  match args with
  | a0 :: a1 :: args => let* o := setFlag a0 a1 o in parseFlags args o
  | _ => Some o
  end.

Definition badOpts (o : Opts) : bool :=
  bool_decide (gid o < 0 ∨ me o < 0 ∨ zlen (masters o) < 1 ∨ me o >= zlen (replicas o) ∨ dir o = "").

Definition diskvdUsage : list string :=
  ["Usage: diskvd -g gid -m master... -s server... -i my-index -d dir" +:+ newline].

Definition diskvd (args : list string) : program :=
  match parseFlags (tail args) noOpts with
  | None => usageExit diskvdUsage
  | Some o =>
      if badOpts o then usageExit diskvdUsage
      else
        do! tell (DiskvStartServer (gid o) (masters o) (replicas o) (me o) (dir o) (restart o)) in
        do! tell (DiskvSetunreliable (unreliable o)) in
        do! tell (Sleep (10 * 60)) in
        Ret KilledItself
  end.

(** ** lockc.go and lockd.go *)

Definition formatBool (b : bool) : string := if b then "true" else "false".

Definition lockcUsage : list string := ["Usage: lockc -l|-u primaryport backupport lockname" +:+ newline].

Definition lockc (args : list string) : program :=
  match args with
  | [_; flag; primary; backup; name] =>
      do! tell (LockMakeClerk primary backup) in
      let reply ok := do! tell (Printf ("reply: " +:+ formatBool ok +:+ newline)) in Ret (Exited 0) in
      if decide (flag = "-l") then let! ok := tell (LockLock name) in reply ok
      else if decide (flag = "-u") then let! ok := tell (LockUnlock name) in reply ok
      else usageExit lockcUsage
  | _ => usageExit lockcUsage
  end.

Definition lockdUsage : list string := ["Usage: lockd -p|-b primaryport backupport" +:+ newline].

Definition lockd (args : list string) : program :=
  match args with
  | [_; flag; primary; backup] =>
      if decide (flag = "-p") then do! tell (LockStartServer primary backup true) in serveForever
      else if decide (flag = "-b") then do! tell (LockStartServer primary backup false) in serveForever
      else usageExit lockdUsage
  | _ => usageExit lockdUsage
  end.

(** ** pbc.go, pbd.go and viewd.go *)

Definition pbcUsage : list string :=
  ["Usage: pbc viewport key" +:+ newline; "       pbc viewport key value" +:+ newline].

Definition pbc (args : list string) : program :=
  match args with
  | [_; view; key] =>
      do! tell (PbMakeClerk view "") in
      let! v := tell (PbGet key) in
      do! tell (Printf (v +:+ newline)) in Ret (Exited 0)
  | [_; view; key; value] =>
      do! tell (PbMakeClerk view "") in
      do! tell (PbPut key value) in Ret (Exited 0)
  | _ => usageExit pbcUsage
  end.

Definition pbd (args : list string) : program :=
  match args with
  | [_; view; port] => do! tell (PbStartServer view port) in serveForever
  | _ => usageExit ["Usage: pbd viewport myport" +:+ newline]
  end.

Definition viewd (args : list string) : program :=
  match args with
  | [_; port] => do! tell (ViewStartServer port) in serveForever
  | _ => usageExit ["Usage: viewd port" +:+ newline]
  end.

(** ** wc.go and ii.go *)

(** What [main] calls of the library: Sequential or Distributed and then Wait, or RunWorker with its
    number of RPCs and no shared Parallelism. A map function is what it computes at each call. *)
Inductive Launch :=
  | LUsage (line : string)
  | LSequential (job : string) (files : list string) (nreduce : nat) (mapF : nat → MapFn) (reduceF : string → list string → string)
  | LDistributed (job : string) (files : list string) (nreduce : nat) (master : string)
  | LWorker (master me : string) (mapF : nat → MapFn) (reduceF : string → list string → string) (nRPC : Z).

(** [None]: without any argument, not even the program's name, [os.Args[0]] panics. *)
Definition mrMain (job : string) (mapF : nat → MapFn) (reduceF : string → list string → string)
    (args : list string) : option Launch :=
  match args with
  | _ :: mode :: a2 :: ((a3 :: _) as rest) =>
      Some (if decide (mode = "master") then
              if decide (a2 = "sequential") then LSequential job rest 3 mapF reduceF else LDistributed job rest 3 a2
            else LWorker a2 a3 mapF reduceF 100)
  | prog :: _ => Some (LUsage (prog +:+ ": see usage comments in file" +:+ newline))
  | [] => None
  end.

Definition wcMain (R : nat → MapRange) (IsLetter : Z → bool) : list string → option Launch :=
  mrMain "wcseq" (λ i, Wc.mapF (range := R i) IsLetter) Wc.reduceF.
Definition iiMain (R : nat → MapRange) (IsLetter : Z → bool) : list string → option Launch :=
  mrMain "iiseq" (λ i, Ii.mapF (range := R i) IsLetter) Ii.reduceF.

(** ** Numbers *)

Lemma digitOf_range c d : digitOf c = Some d → 0 ≤ d < 10.
Proof. unfold digitOf. case_decide; [|done]. by intros [= <-]. Qed.

Lemma parseUint_digits acc s z :
  0 ≤ acc < 2 ^ 64 → parseDigits acc s = Some z → acc ≤ z ∧ parseUint acc s = Some (Z.min z (2 ^ 64 - 1)).
Proof.
  revert acc. induction s as [|c s IH]; intros acc Hacc; simpl.
  { intros [= <-]. split; [lia|f_equal; lia]. }
  intros (d & Hd & Hp)%obind_Some. pose proof (digitOf_range _ _ Hd). rewrite Hd. simpl. case_decide as Hbig.
  - assert (Hge : acc * 10 + d ≤ z).
    { clear -Hp H Hacc. assert (0 ≤ acc * 10 + d) as H0 by lia. revert H0 Hp. generalize (acc * 10 + d). clear.
      induction s as [|c s IH]; intros a Ha; simpl; [by intros [= ->]|]. intros (d & Hd & Hp)%obind_Some.
      pose proof (digitOf_range _ _ Hd). specialize (IH (a * 10 + d) ltac:(lia) Hp). lia. }
    split; [lia|f_equal; lia].
  - destruct (IH (acc * 10 + d)) as [? ?]; [lia|done|]. split; [lia|done].
Qed.

(** A number that Atoi accepts is the one returned. *)
Lemma ParseInt_Atoi s z : Atoi s = Some z → ParseInt s = z.
Proof.
  unfold Atoi. intros (z' & Hz & Hr)%obind_Some. destruct (decide (int64 z')) as [Hi|]; [|done]. simplify_eq.
  unfold int64 in Hi. unfold ParseInt.
  assert (H64 : 2 ^ 64 = 2 * 2 ^ 63 ∧ 0 < 2 ^ 63) by done.
  assert (Hu : ∀ s v, (if decide (s = "") then None else parseDigits 0 s) = Some v →
    0 ≤ v ∧ (if decide (s = "") then None else parseUint 0 s) = Some (Z.min v (2 ^ 64 - 1))).
  { intros s' v. destruct (decide (s' = "")); intros Hv; [discriminate Hv|]. by apply parseUint_digits in Hv. }
  assert (Hpos : ∀ s, (if decide (s = "") then None else parseDigits 0 s) = Some z →
    match (if decide (s = "") then None else parseUint 0 s) with
    | Some un => if decide (un >= 2 ^ 63) then 2 ^ 63 - 1 else un | None => 0 end = z).
  { intros s' Hs. apply Hu in Hs as [? ->]. destruct (decide (Z.min z _ >= _)); lia. }
  destruct s as [|c s]; [done|].
  destruct (decide (c = "-"%char)) as [->|Hm].
  - assert (∃ v, (if decide (s = "") then None else parseDigits 0 s) = Some v ∧ z = - v) as (v & Hv & ->).
    { destruct (decide (s = "")); [done|]. destruct (parseDigits 0 s) as [v|]; [|done]. injection Hz as <-. eauto. }
    apply Hu in Hv as [? ->]. destruct (decide (Z.min v _ > _)); lia.
  - destruct (decide (c = "+"%char)) as [->|Hp]; [by apply Hpos|].
    destruct c as [[] [] [] [] [] [] [] []]; try done; by apply (Hpos (String _ s)).
Qed.

Lemma ParseInt_Itoa z : int64 z → ParseInt (Itoa z) = z.
Proof. intros Hz. by apply ParseInt_Atoi, Atoi_Itoa. Qed.

(** ** Runs *)

Notation runsTo env t r tr := (returns doneObs env t [] r tr).

Lemma runs_tell (env : @Env cmdE Done) {R} (e : cmdE unit) (k : itree cmdE R) tr r tr' :
  returns doneObs env k (doneObs _ e tt :: tr) r tr' →
  returns doneObs env (do! tell e in k) tr r tr'.
Proof.
  intros Hk. apply returns_bind. exists tt, (doneObs _ e tt :: tr). split; [|done].
  apply returns_trigger. by destruct (env tr _ e).
Qed.

Lemma serveForever_diverges (env : @Env cmdE Done) tr : diverges doneObs env serveForever tr.
Proof.
  apply diverges_returns. intros r tr' Hr. revert Hr. unfold serveForever.
  apply (iter_ind doneObs env _ (λ _ _ _ _, False)); [|done]. intros _ tr0 r0 tr1 Hb.
  apply returns_bind in Hb as ([] & tr2 & _ & Hb). by apply returns_ret in Hb as [? _].
Qed.

(** *** diskvd *)

Definition diskvdTrace (o : Opts) : list Done :=
  [OSleep (10 * 60); ODiskvSetunreliable (unreliable o);
   ODiskvStartServer (gid o) (masters o) (replicas o) (me o) (dir o) (restart o)].

Definition usageTrace (lines : list string) : list Done := rev (OPrintf <$> lines).

Lemma usageExit_runs (env : @Env cmdE Done) lines :
  runsTo env (usageExit lines) (Exited 1) (usageTrace lines).
Proof.
  unfold usageTrace. rewrite <-(app_nil_r (rev _)). generalize (@nil Done).
  induction lines as [|l lines IH]; intros tr; simpl; [by apply returns_ret|].
  apply runs_tell. rewrite <-app_assoc. simpl. apply IH.
Qed.

(** What a run of diskvd is, for any arguments. *)
Lemma diskvd_runs (env : @Env cmdE Done) args :
  match parseFlags (tail args) noOpts with
  | Some o =>
      if badOpts o then runsTo env (diskvd args) (Exited 1) (usageTrace diskvdUsage)
      else runsTo env (diskvd args) KilledItself (diskvdTrace o)
  | None => runsTo env (diskvd args) (Exited 1) (usageTrace diskvdUsage)
  end.
Proof.
  unfold diskvd. destruct (parseFlags (tail args) noOpts) as [o|]; [|apply usageExit_runs].
  destruct (badOpts o); [apply usageExit_runs|]. do 3 apply runs_tell. by apply returns_ret.
Qed.

(** The command line for given options. *)
Definition printFlags (o : Opts) : list string :=
  ["-g"; Itoa (gid o)] ++ (m ← masters o; ["-m"; m]) ++ (s ← replicas o; ["-s"; s]) ++
  ["-i"; Itoa (me o); "-u"; formatBool (unreliable o); "-d"; dir o; "-r"; formatBool (restart o)].

Lemma parseFlags_masters ms rest o :
  parseFlags ((m ← ms; ["-m"; m]) ++ rest) o =
  parseFlags rest (mkOpts (gid o) (masters o ++ ms) (replicas o) (me o) (unreliable o) (dir o) (restart o)).
Proof.
  revert o. induction ms as [|m ms IH]; intros o; simpl; [rewrite app_nil_r; by destruct o|].
  rewrite IH. simpl. by rewrite <-app_assoc.
Qed.

Lemma parseFlags_replicas rs rest o :
  parseFlags ((s ← rs; ["-s"; s]) ++ rest) o =
  parseFlags rest (mkOpts (gid o) (masters o) (replicas o ++ rs) (me o) (unreliable o) (dir o) (restart o)).
Proof.
  revert o. induction rs as [|r rs IH]; intros o; simpl; [rewrite app_nil_r; by destruct o|].
  rewrite IH. simpl. by rewrite <-app_assoc.
Qed.

Lemma ParseBool_format b : ParseBool (formatBool b) = b.
Proof. by destruct b. Qed.

Lemma parseFlags_print o : int64 (gid o) → int64 (me o) → parseFlags (printFlags o) noOpts = Some o.
Proof.
  intros Hg Hm. unfold printFlags. simpl. rewrite parseFlags_masters, parseFlags_replicas. simpl.
  rewrite !ParseInt_Itoa, !ParseBool_format by done. by destruct o.
Qed.

Lemma badOpts_false o :
  badOpts o = false ↔ 0 ≤ gid o ∧ 0 ≤ me o < zlen (replicas o) ∧ masters o ≠ [] ∧ dir o ≠ "".
Proof.
  unfold badOpts. rewrite bool_decide_eq_false. split.
  - intros Hn. split_and!; try lia; [intros E; apply Hn; rewrite E; unfold zlen; simpl; lia|intros E; apply Hn; tauto].
  - intros (? & ? & Hm & Hd) [?|[?|[Hl|[?|?]]]]; [lia|lia| |lia|done]. unfold zlen in Hl. destruct (masters o); simpl in Hl; [done|lia].
Qed.

(** *** The lock service and the key-value service *)

Lemma runs_ask (env : @Env cmdE Done) {X R} (e : cmdE X) (k : X → itree cmdE R) tr r tr' :
  returns doneObs env (k (env tr X e)) (doneObs _ e (env tr X e) :: tr) r tr' →
  returns doneObs env (let! x := tell e in k x) tr r tr'.
Proof. intros Hk. apply returns_bind. eexists _, _. split; [by apply returns_trigger|done]. Qed.

(** lockc locks or unlocks once and prints the answer. *)
Lemma lockc_runs (env : @Env cmdE Done) prog flag primary backup name :
  flag = "-l" ∨ flag = "-u" →
  ∃ ok, runsTo env (lockc [prog; flag; primary; backup; name]) (Exited 0)
    [OPrintf ("reply: " +:+ formatBool ok +:+ newline);
     if decide (flag = "-l") then OLockLock name ok else OLockUnlock name ok; OLockMakeClerk primary backup].
Proof.
  intros [-> | ->]; eexists; simpl; apply runs_tell; apply runs_ask; apply runs_tell; by apply returns_ret.
Qed.

Lemma pbc_get_runs (env : @Env cmdE Done) prog view key :
  ∃ v, runsTo env (pbc [prog; view; key]) (Exited 0)
    [OPrintf (v +:+ newline); OPbGet key v; OPbMakeClerk view ""].
Proof. eexists. simpl. apply runs_tell, runs_ask, runs_tell. by apply returns_ret. Qed.

Lemma pbc_put_runs (env : @Env cmdE Done) prog view key value :
  runsTo env (pbc [prog; view; key; value]) (Exited 0) [OPbPut key value; OPbMakeClerk view ""].
Proof. simpl. do 2 apply runs_tell. by apply returns_ret. Qed.

(** The servers start once and never end. *)
Lemma start_diverges (env : @Env cmdE Done) (e : cmdE unit) :
  diverges doneObs env (do! tell e in serveForever) [] ∧
  ∀ fuel, ∃ tr, (exec doneObs env (2 + fuel) (do! tell e in serveForever) []).2 = tr ++ [doneObs _ e tt].
Proof.
  split.
  - apply diverges_returns. intros r tr' (? & tr1 & _ & Hs)%returns_bind.
    by apply (proj1 (diverges_returns _ _ _ _) (serveForever_diverges env tr1)) in Hs.
  - intros fuel.
    assert (Hgrow : ∀ (t : program) n tr, ∃ tr', (exec doneObs env n t tr).2 = tr' ++ tr).
    { intros t n. revert t. induction n as [|n IH]; intros t tr; simpl; [by exists []|].
      destruct (observe t) as [r|t'|X e0 k]; [by exists []|apply IH|].
      destruct (IH (k (env tr X e0)) (doneObs X e0 (env tr X e0) :: tr)) as [tr' ->].
      exists (tr' ++ [doneObs X e0 (env tr X e0)]). by rewrite <-app_assoc. }
    cbn [plus exec]. rewrite observe_bind. cbn. destruct (env [] unit e). destruct (Hgrow serveForever (S fuel) [doneObs _ e tt]) as [tr Htr].
    exists tr. exact Htr.
Qed.

(** ** Properties *)

(** C37: Diskvd starts its server exactly once, with a non-negative group, a non-empty list of masters, an
    index into the replicas and a directory, or it prints its usage and exits with status 1 without
    starting one; and the options written on the command line are the ones the server gets. *)
Theorem diskvd_flags (env : @Env cmdE Done) :
  (∀ args, runsTo env (diskvd args) (Exited 1) (usageTrace diskvdUsage) ∨
     ∃ o, runsTo env (diskvd args) KilledItself (diskvdTrace o) ∧
       0 ≤ gid o ∧ 0 ≤ me o < zlen (replicas o) ∧ masters o ≠ [] ∧ dir o ≠ "") ∧
  (∀ prog o, int64 (gid o) → int64 (me o) → badOpts o = false →
     runsTo env (diskvd (prog :: printFlags o)) KilledItself (diskvdTrace o)).
Proof.
  split.
  - intros args. pose proof (diskvd_runs env args) as Hr. destruct (parseFlags (tail args) noOpts) as [o|]; [|by left].
    destruct (badOpts o) eqn:Hb; [by left|]. right. exists o. split; [done|]. by apply badOpts_false.
  - intros prog o Hg Hm Hb. pose proof (diskvd_runs env (prog :: printFlags o)) as Hr. cbn [tail] in Hr.
    by rewrite parseFlags_print, Hb in Hr.
Qed.

(** A group or an index that is not a number becomes 0 and is accepted: the errors of ParseInt and
    Atoi are dropped, and 0 passes the check that the -1 of a missing flag fails. *)
Theorem diskvd_bad_numbers (env : @Env cmdE Done) :
  runsTo env (diskvd ["diskvd"; "-g"; "x"; "-m"; "m0"; "-s"; "s0"; "-i"; "first"; "-d"; "/tmp/d"]) KilledItself
    (diskvdTrace (mkOpts 0 ["m0"] ["s0"] 0 false "/tmp/d" false)).
Proof. exact (diskvd_runs env ["diskvd"; "-g"; "x"; "-m"; "m0"; "-s"; "s0"; "-i"; "first"; "-d"; "/tmp/d"]). Qed.

(** The three ways to start [program], and what the job leaves in its output file: run
    sequentially it ends with [out], and run distributed, with whatever workers, it does not give up in merge
    and ends with [out] too. *)
Definition writes `{codec : !KVCodec} `{sorter : !SortByKey} (fs : FS) (files : list string) (prog addr me : string)
    (program : list string → option Launch) (name out : string) : Prop :=
  ∃ n mapF reduceF,
    program ([prog; "master"; "sequential"] ++ files) = Some (LSequential name files n mapF reduceF) ∧
    program ([prog; "master"; addr] ++ files) = Some (LDistributed name files n addr) ∧
    program [prog; "worker"; addr; me] = Some (LWorker addr me mapF reduceF 100) ∧
    (∃ fs', Sequential fs name files (Z.of_nat n) mapF reduceF = Some fs' ∧ fs' !! outName name = Some out) ∧
    ∀ s, dreach mapF reduceF name files n fs addr s →
      dead s ≠ Some FMerge ∧ (main s = MSend ∨ main s = MOver → dfs s !! outName name = Some out).

Lemma mrMain_writes `{codec : !KVCodec} `{sorter : !SortByKey} fs files prog addr me name mapF reduceF out :
  files ≠ [] → addr ≠ "sequential" → inputs_ok fs name files →
  (∀ ch : nat → nat, ∃ fs', Sequential fs name files 3 (λ t, mapF (ch t)) reduceF = Some fs' ∧
     fs' !! outName name = Some out) →
  writes fs files prog addr me (mrMain name mapF reduceF) name out.
Proof.
  intros Hf Ha Hin Hseq. destruct files as [|f files]; [done|]. exists 3%nat, mapF, reduceF.
  split_and!; [done|simpl; by rewrite decide_False|done|exact (Hseq id)|].
  intros s. by apply distributed_output; [lia| |].
Qed.

(** C36: The word count and the inverted index write the same output file whether they are started as [master
    sequential f1 .. fn] or as [master addr f1 .. fn] with workers [worker addr me]: when run has come to its send
    on doneChannel, the output file holds every distinct word in order with the number of its occurrences, or with the number and the
    names of its files, however the map functions range over their maps in each call, whatever workers there are and whichever of them
    fail. (The intermediate files may differ.) This holds when the input files exist and are not named like
    intermediate files, each of the three reduce tasks gets a word, U+FFFD is no letter, and
    there are fewer than 2^63 words, for the word count, and the file names are valid UTF-8, for the index. *)
Theorem mr_commands_agree `{codec : !KVCodec} `{sorter : !SortByKey} (R : nat → MapRange) IsLetter fs prog addr me files :
  IsLetter 0xFFFD = false → files ≠ [] → addr ≠ "sequential" → covers 3 (allWords IsLetter fs files) →
  (inputs_ok fs "wcseq" files → zlen (allWords IsLetter fs files) < 2 ^ 63 →
     writes fs files prog addr me (wcMain R IsLetter) "wcseq" (wcOutput IsLetter fs files)) ∧
  (inputs_ok fs "iiseq" files → Forall ValidString files →
     writes fs files prog addr me (iiMain R IsLetter) "iiseq" (iiOutput IsLetter fs files)).
Proof.
  intros HL Hf Ha Hcov. split; intros Hin Hb; apply mrMain_writes; try done; intros ch.
  - by apply (wc_job_output (λ t, R (ch t))).
  - by apply (ii_job_output (λ t, R (ch t))).
Qed.

(** ** Runs *)

(** Locks are always granted and every key is unknown. *)
Definition quietEnv : @Env cmdE Done := λ _ X e,
  match e in cmdE X return X with
  | LockLock _ | LockUnlock _ => true
  | PbGet _ => ""
  | _ => tt
  end.

Lemma diskvd_flags_witness :
  let o := mkOpts 7 ["m0"; "m1"] ["s0"; "s1"; "s2"] 2 true "/tmp/d" false in
  printFlags o = ["-g"; "7"; "-m"; "m0"; "-m"; "m1"; "-s"; "s0"; "-s"; "s1"; "-s"; "s2"; "-i"; "2"; "-u"; "true";
    "-d"; "/tmp/d"; "-r"; "false"] ∧
  runsTo quietEnv (diskvd ("diskvd" :: printFlags o)) KilledItself (diskvdTrace o).
Proof.
  intros o. split; [vm_compute; reflexivity|].
  apply (proj2 (diskvd_flags quietEnv) "diskvd" o); unfold int64; simpl; [lia|lia|reflexivity].
Defined.

(** The word count on two files with one worker process. *)
Module WcRun.
Notation mapF := (wcMap alternate asciiLetter).

Definition fs : FS := <["x" := "to be, or not to be"]> (<["y" := "I am to be quick now"]> ∅).

Definition task (c : nat) : list DEvent :=
  let w := DWorker 0 false in [DCall 0 false; w; w; DServe c; DServe c; DServe c; DCall 0 false; DResult 0].

Definition events : list DEvent :=
  [DStart "w" 100 false true] ++ Demo.boot 0 0 ++ [DForward 0; DRecv 0] ++ task 1 ++ task 2 ++
  [DMain false; DForward 1; DRecv 0] ++ task 3 ++ task 4 ++ task 5 ++
  replicate 3 (DMain false) ++ [DWorker 0 false; DServe 6] ++
  replicate 4 (DMain false) ++ [DLoop; DLoop; DServe 7] ++ replicate 3 (DMain false) ++ [DWait].

Definition start : DSys := Distributed "wcseq" ["x"; "y"] 3 fs "m".
Definition result : option DSys :=
  drun (codec:=jsonCodec) (sorter:=mergeSortByKey) mapF Wc.reduceF "wcseq" ["x"; "y"] 3 start events.
Definition last : DSys := default start result.
End WcRun.

Lemma wcRun_inputs : inputs_ok WcRun.fs "wcseq" ["x"; "y"].
Proof.
  split.
  - intros f [->|[->|[]%elem_of_nil]%elem_of_cons]%elem_of_cons; by eexists.
  - intros f m r [->|[->|[]%elem_of_nil]%elem_of_cons]%elem_of_cons _ _; done.
Qed.

Lemma wcRun_covers : covers 3 (allWords asciiLetter WcRun.fs ["x"; "y"]).
Proof.
  intros r Hr. assert (r = 0 ∨ r = 1 ∨ r = 2) as Hor by lia.
  assert (Hw : ∀ w, bool_decide (w ∈ allWords asciiLetter WcRun.fs ["x"; "y"] ∧ ihash w mod 3 = r) = true →
    ∃ w, w ∈ allWords asciiLetter WcRun.fs ["x"; "y"] ∧ ihash w mod 3 = r).
  { intros w Hd%bool_decide_eq_true. eauto. }
  destruct_or! Hor; subst r; first [by apply (Hw "to"); vm_compute|by apply (Hw "be"); vm_compute|by apply (Hw "or"); vm_compute|
    by apply (Hw "not"); vm_compute|by apply (Hw "I"); vm_compute|by apply (Hw "am"); vm_compute|
    by apply (Hw "quick"); vm_compute|by apply (Hw "now"); vm_compute].
Qed.

(** The run above, distributed, and the same job, sequential, with ranges in another order. *)
Lemma mr_commands_agree_witness :
  main WcRun.last = MOver ∧
  wcMain alternate asciiLetter ["wc"; "worker"; "m"; "w"] = Some (LWorker "m" "w" WcRun.mapF Wc.reduceF 100) ∧
  wcMain alternate asciiLetter ["wc"; "master"; "m"; "x"; "y"] = Some (LDistributed "wcseq" ["x"; "y"] 3 "m") ∧
  dfs WcRun.last !! "mrtmp.wcseq" = Some (wcOutput asciiLetter WcRun.fs ["x"; "y"]) ∧
  writes (codec:=jsonCodec) (sorter:=mergeSortByKey) WcRun.fs ["x"; "y"] "wc" "m" "w" (wcMain (λ _, reverseRange) asciiLetter)
    "wcseq" (wcOutput asciiLetter WcRun.fs ["x"; "y"]).
Proof.
  split; [vm_compute; reflexivity|]. split; [reflexivity|]. split; [reflexivity|].
  assert (Hw : ∀ R, writes (codec:=jsonCodec) (sorter:=mergeSortByKey) WcRun.fs ["x"; "y"] "wc" "m" "w" (wcMain R asciiLetter)
    "wcseq" (wcOutput asciiLetter WcRun.fs ["x"; "y"])).
  { intros R. apply (mr_commands_agree (codec:=jsonCodec) (sorter:=mergeSortByKey) R asciiLetter WcRun.fs "wc" "m" "w" ["x"; "y"]);
      [reflexivity|discriminate|discriminate|exact wcRun_covers|exact wcRun_inputs|vm_compute; reflexivity]. }
  split; [|apply Hw]. destruct (Hw alternate) as (n & mapF & reduceF & H1 & _ & _ & _ & H2).
  injection H1 as <- <- <-. apply H2; [|right; vm_compute; reflexivity].
  apply (drun_dreach (codec:=jsonCodec) (sorter:=mergeSortByKey) _ _ _ _ _ _ _ WcRun.start WcRun.events).
  - constructor.
  - vm_compute. reflexivity.
Defined.
