(* ===== verification/Bitset.v ===== *)
(** * Bit sets: linearizability/bitset.go

    A bitset is a slice of 64-bit words, a list of [Z] here, with the positions
    of [uint] as [Z]. The operations that write a word update the slice in
    place; the callers never share a slice that is written, so they return the
    new one. [None] is an index out of range. *)

From S2P Require Import Prelude.

Notation bitset := (list Z).

Definition newBitset (bits : Z) : bitset :=
  let extra := if decide (bits mod 64 ≠ 0) then 1 else 0 in
  replicate (Z.to_nat (bits / 64 + extra)) 0.

Definition clone (b : bitset) : bitset := b.

Definition bitsetIndex (pos : Z) : Z * Z := (pos / 64, pos mod 64).

Definition set (b : bitset) (pos : Z) : option bitset :=
  let '(major, minor) := bitsetIndex pos in
  let* w := go_index b major in
  go_update b major (Z.lor w (Z.shiftl 1 minor)).

Definition clear (b : bitset) (pos : Z) : option bitset :=
  let '(major, minor) := bitsetIndex pos in
  let* w := go_index b major in
  go_update b major (Z.ldiff w (Z.shiftl 1 minor)).

Definition get (b : bitset) (pos : Z) : option bool :=
  let '(major, minor) := bitsetIndex pos in
  let* w := go_index b major in
  Some (bool_decide (Z.land w (Z.shiftl 1 minor) ≠ 0)).

(** One word of popcnt, lines 47-51, in 64-bit arithmetic. *)
Definition popcntWord (v : Z) : Z :=
  let v := Z.land v 0x5555555555555555 + Z.shiftr (Z.land v 0xAAAAAAAAAAAAAAAA) 1 in
  let v := Z.land v 0x3333333333333333 + Z.shiftr (Z.land v 0xCCCCCCCCCCCCCCCC) 2 in
  let v := Z.land v 0x0F0F0F0F0F0F0F0F + Z.shiftr (Z.land v 0xF0F0F0F0F0F0F0F0) 4 in
  let v := (v * 0x0101010101010101) mod 2 ^ 64 in
  Z.land (Z.shiftr v 56) 0xFF.

Definition popcnt (b : bitset) : Z :=
  foldl (λ total v, (total + popcntWord v) mod 2 ^ 64) 0 b.

Definition hash (b : bitset) : Z := foldl Z.lxor (popcnt b) b.

(** The loop of lines 68-72 from index [i] on. *)
Fixpoint equalsFrom (b b2 : bitset) : bool :=
  match b, b2 with
  | v :: b, w :: b2 => if decide (v ≠ w) then false else equalsFrom b b2
  | _, _ => true
  end.

Definition equals (b b2 : bitset) : bool :=
  if decide (zlen b ≠ zlen b2) then false else equalsFrom b b2.

(** ** Reading the bits *)

(** The bit at [pos], false outside the set. *)
Definition bit (b : bitset) (pos : Z) : bool :=
  match b !! Z.to_nat (pos / 64) with Some w => Z.testbit w (pos mod 64) | None => false end.

Definition inside (b : bitset) (pos : Z) : Prop := 0 ≤ pos < 64 * zlen b.

Lemma inside_index b pos :
  inside b pos → ∃ w, go_index b (pos / 64) = Some w ∧ b !! Z.to_nat (pos / 64) = Some w.
Proof.
  intros [? ?]. destruct (go_index_is_Some b (pos / 64)) as [w Hw].
  { split; [apply Z.div_pos; lia|apply Z.div_lt_upper_bound; lia]. }
  exists w. split; [done|]. by apply go_index_Some in Hw as [_ ?].
Qed.

Lemma land_shiftl_testbit w k : 0 ≤ k → bool_decide (Z.land w (Z.shiftl 1 k) ≠ 0) = Z.testbit w k.
Proof.
  intros Hk. rewrite Z.shiftl_1_l.
  assert (Hb : ∀ j, Z.testbit (Z.land w (2 ^ k)) j = (Z.testbit w k && (k =? j))%Z).
  { intros j. rewrite Z.land_spec, Z.pow2_bits_eqb by done.
    destruct (Z.eqb_spec k j) as [->|]; [done|]. by rewrite !andb_false_r. }
  destruct (Z.testbit w k) eqn:E.
  - apply bool_decide_true. intros H0. specialize (Hb k).
    by rewrite H0, Z.bits_0, Z.eqb_refl in Hb.
  - apply bool_decide_false. intros H0. apply H0. apply Z.bits_inj'. intros j _.
    by rewrite Hb, Z.bits_0.
Qed.

Lemma index_inj p q : 0 ≤ p → 0 ≤ q → Z.to_nat (p / 64) = Z.to_nat (q / 64) → p mod 64 = q mod 64 → p = q.
Proof.
  intros Hp Hq Hd Hm. pose proof (Z.div_pos p 64 Hp). pose proof (Z.div_pos q 64 Hq).
  rewrite (Z.div_mod p 64), (Z.div_mod q 64), Hm by lia. lia.
Qed.

(** [get] reads the bit; [set] and [clear] change that bit only and keep the
    size. *)
Lemma get_bit b pos : inside b pos → get b pos = Some (bit b pos).
Proof.
  intros Hin. destruct (inside_index _ _ Hin) as (w & Hw & Hl). unfold get, bit. simpl.
  rewrite Hw, Hl. simpl. f_equal. apply land_shiftl_testbit. apply Z.mod_pos_bound. lia.
Qed.

Lemma write_bit b pos (f : Z → Z → Z) (v : bool) :
  inside b pos →
  (∀ w k j, 0 ≤ k → Z.testbit (f w (Z.shiftl 1 k)) j = if decide (j = k) then v else Z.testbit w j) →
  ∃ b', (let '(major, minor) := bitsetIndex pos in
         let* w := go_index b major in
         go_update b major (f w (Z.shiftl 1 minor))) = Some b' ∧ length b' = length b ∧
    ∀ q, 0 ≤ q → bit b' q = if decide (q = pos) then v else bit b q.
Proof.
  intros Hin Hf. destruct (inside_index _ _ Hin) as (w & Hw & Hl). simpl. rewrite Hw. simpl.
  unfold go_update. pose proof (go_index_lt _ _ _ Hw). rewrite decide_True by done.
  eexists. split; [done|]. split; [apply length_insert|]. intros q Hq. unfold bit.
  pose proof (lookup_lt_Some _ _ _ Hl).
  destruct (decide (Z.to_nat (q / 64) = Z.to_nat (pos / 64))) as [E|E].
  - rewrite E, list_lookup_insert_eq by done. rewrite Hl, Hf by (apply Z.mod_pos_bound; lia).
    destruct (decide (q mod 64 = pos mod 64)) as [Em|Em].
    + rewrite decide_True; [done|]. destruct Hin. by apply index_inj.
    + rewrite decide_False; [done|]. by intros ->.
  - rewrite list_lookup_insert_ne by done. rewrite decide_False; [done|]. by intros ->.
Qed.

Lemma set_spec b pos :
  inside b pos →
  ∃ b', set b pos = Some b' ∧ length b' = length b ∧
    ∀ q, 0 ≤ q → bit b' q = if decide (q = pos) then true else bit b q.
Proof.
  intros Hin. apply (write_bit b pos Z.lor true Hin). intros w k j Hk.
  change (Z.lor w (Z.shiftl 1 k)) with (Z.setbit w k). rewrite Z.setbit_eqb by done.
  case_decide; destruct (Z.eqb_spec k j); simpl; try done; lia.
Qed.

Lemma clear_spec b pos :
  inside b pos →
  ∃ b', clear b pos = Some b' ∧ length b' = length b ∧
    ∀ q, 0 ≤ q → bit b' q = if decide (q = pos) then false else bit b q.
Proof.
  intros Hin. apply (write_bit b pos Z.ldiff false Hin). intros w k j Hk.
  change (Z.ldiff w (Z.shiftl 1 k)) with (Z.clearbit w k). rewrite Z.clearbit_eqb.
  case_decide; destruct (Z.eqb_spec k j); simpl; try lia; by rewrite ?andb_true_r, ?andb_false_r.
Qed.

(** Clearing a position that has just been set gives the same words back. *)
Lemma clear_set b pos b' :
  inside b pos → bit b pos = false → set b pos = Some b' → clear b' pos = Some b.
Proof.
  intros Hin Hb Hs. destruct (inside_index _ _ Hin) as (w & Hw & Hl).
  unfold set in Hs. simpl in Hs. rewrite Hw in Hs. simpl in Hs. apply go_update_Some in Hs as [Hr ->].
  pose proof (lookup_lt_Some _ _ _ Hl). unfold clear. simpl. unfold go_index, go_update, zlen in *.
  rewrite decide_True by lia. rewrite list_lookup_insert_eq by done. simpl.
  rewrite length_insert, decide_True by lia. f_equal. rewrite list_insert_insert_eq.
  apply list_insert_id. rewrite Hl. f_equal. unfold bit in Hb. rewrite Hl in Hb.
  apply Z.bits_inj'. intros j Hj. set (k := pos mod 64) in *.
  assert (0 ≤ k) by (apply Z.mod_pos_bound; lia).
  change (Z.ldiff ?x (Z.shiftl 1 k)) with (Z.clearbit x k).
  change (Z.lor w (Z.shiftl 1 k)) with (Z.setbit w k).
  rewrite Z.clearbit_eqb, Z.setbit_eqb by done. destruct (Z.eqb_spec k j) as [<-|]; simpl.
  - by rewrite Hb.
  - by rewrite andb_true_r.
Qed.

Lemma newBitset_length n : 0 ≤ n → n ≤ 64 * zlen (newBitset n) < n + 64.
Proof.
  intros Hn. unfold newBitset, zlen. rewrite length_replicate.
  pose proof (Z.div_mod n 64). pose proof (Z.mod_pos_bound n 64). pose proof (Z.div_pos n 64).
  case_decide; lia.
Qed.

Lemma newBitset_bit n pos : bit (newBitset n) pos = false.
Proof.
  unfold bit. destruct (newBitset n !! Z.to_nat (pos / 64)) as [w|] eqn:E; [|done].
  apply lookup_replicate in E as [-> _]. apply Z.bits_0.
Qed.

Lemma equals_spec b b2 : equals b b2 = true ↔ b = b2.
Proof.
  unfold equals. split.
  - case_decide as Hl; [done|]. assert (length b = length b2) as Hlen by (unfold zlen in Hl; lia).
    clear Hl. revert b2 Hlen. induction b as [|v b IH]; intros [|w b2] Hlen H; try done.
    simpl in *. case_decide; [done|]. f_equal; [lia|]. apply IH; [lia|done].
  - intros ->. rewrite decide_False by lia. induction b2 as [|v b2 IH]; [done|].
    simpl. by rewrite decide_False by lia.
Qed.

(** ** popcnt

    The three masked additions work on every byte on its own; on one byte they
    are checked by evaluation, and the multiplication adds the bytes up. *)

Section Popcnt.

(** The number of bits set among the first [n]. *)
Definition ones (n : Z) (v : Z) : Z := zlen (filter (λ k, Z.testbit v k = true) (seqZ 0 n)).

Definition byte (x : Z) : Prop := 0 ≤ x < 256.

(** A number from its bytes, least significant first. *)
Definition val (bs : list Z) : Z := foldr (λ b acc, b + 256 * acc) 0 bs.

Lemma val_cons x bs : val (x :: bs) = x + 256 * val bs.
Proof. done. Qed.

(** One masked addition on [k] bytes with the byte masks [m] and [m']. *)
Definition stage (m m' s : Z) (k : nat) (v : Z) : Z :=
  Z.land v (val (replicate k m)) + Z.shiftr (Z.land v (val (replicate k m'))) s.
Definition stage1 (m m' s x : Z) : Z := Z.land x m + Z.shiftr (Z.land x m') s.

Lemma land_byte x y m M :
  byte x → byte m → Z.land (x + 256 * y) (m + 256 * M) = Z.land x m + 256 * Z.land y M.
Proof.
  intros Hx Hm. unfold byte in *.
  assert (Hsplit : ∀ a b, 0 ≤ a < 256 → (a + 256 * b) mod 2 ^ 8 = a ∧ (a + 256 * b) / 2 ^ 8 = b).
  { intros a b Ha. change (2 ^ 8) with 256. replace (a + 256 * b) with (a + b * 256) by lia.
    rewrite Z.mod_add, Z.div_add, Z.mod_small, Z.div_small by lia. lia. }
  destruct (Hsplit x y Hx) as [Hx1 Hx2]. destruct (Hsplit m M Hm) as [Hm1 Hm2].
  rewrite (Z.div_mod (Z.land _ _) (2 ^ 8)) by lia.
  rewrite <-Z.shiftr_div_pow2, Z.shiftr_land, !Z.shiftr_div_pow2, Hx2, Hm2 by lia.
  rewrite <-Z.land_ones by lia.
  replace (Z.land (Z.land (x + 256 * y) (m + 256 * M)) (Z.ones 8)) with
    (Z.land (Z.land (x + 256 * y) (Z.ones 8)) (Z.land (m + 256 * M) (Z.ones 8)));
    [rewrite !Z.land_ones, Hx1, Hm1 by lia; lia|].
  apply Z.bits_inj'. intros j _. rewrite !Z.land_spec. by destruct (Z.testbit (Z.ones 8) j),
    (Z.testbit (x + 256 * y) j), (Z.testbit (m + 256 * M) j).
Qed.

Lemma val_mask_divides m' s k : 0 ≤ s → (2 ^ s | m') → (2 ^ s | val (replicate k m')).
Proof.
  intros Hs Hd. induction k as [|k IH]; [apply Z.divide_0_r|].
  rewrite replicate_S, val_cons. apply Z.divide_add_r; [done|]. by apply Z.divide_mul_r.
Qed.

Lemma land_divides a m s : 0 ≤ s → (2 ^ s | m) → (2 ^ s | Z.land a m).
Proof.
  intros Hs [c ->]. exists (Z.land (Z.shiftr a s) c).
  rewrite <-!Z.shiftl_mul_pow2 by done. apply Z.bits_inj'. intros j Hj.
  rewrite Z.land_spec, !Z.shiftl_spec by done. destruct (decide (j < s)).
  - rewrite !(Z.testbit_neg_r _ (j - s)) by lia. by rewrite andb_false_r.
  - rewrite Z.land_spec, Z.shiftr_spec by lia. by replace (j - s + s) with j by lia.
Qed.

Lemma stage_val m m' s bs :
  0 ≤ s → byte m → byte m' → (2 ^ s | m') → Forall byte bs →
  stage m m' s (length bs) (val bs) = val (stage1 m m' s <$> bs).
Proof.
  intros Hs Hm Hm' Hd Hbs. induction Hbs as [|x bs Hx Hbs IH].
  { unfold stage. simpl. by rewrite Z.shiftr_0_l. }
  unfold stage in *. cbn [length]. rewrite fmap_cons, !replicate_S, !val_cons, !land_byte by done. rewrite <-IH. unfold stage1.
  destruct (land_divides (val bs) _ s Hs (val_mask_divides m' s (length bs) Hs Hd)) as [c ->].
  rewrite !Z.shiftr_div_pow2 by done. pose proof (Z.pow_pos_nonneg 2 s).
  replace (Z.land x m' + 256 * (c * 2 ^ s)) with (Z.land x m' + 256 * c * 2 ^ s) by lia.
  rewrite Z.div_add, Z.div_mul by lia. lia.
Qed.

(** The three additions on one byte, checked on the 256 bytes. *)
Definition count1 (x : Z) : Z :=
  stage1 0x0F 0xF0 4 (stage1 0x33 0xCC 2 (stage1 0x55 0xAA 1 x)).

Lemma byte_check x :
  byte x → byte (stage1 0x55 0xAA 1 x) ∧ byte (stage1 0x33 0xCC 2 (stage1 0x55 0xAA 1 x)) ∧
    count1 x = ones 8 x.
Proof.
  assert (Hall : Forall (λ x, byte (stage1 0x55 0xAA 1 x) ∧
    byte (stage1 0x33 0xCC 2 (stage1 0x55 0xAA 1 x)) ∧ count1 x = ones 8 x) (seqZ 0 256)).
  { apply (bool_decide_unpack _). vm_compute. exact I. }
  rewrite Forall_forall in Hall. intros Hx. apply Hall, elem_of_seqZ. unfold byte in Hx. lia.
Qed.

Lemma ones_range n v : 0 ≤ n → 0 ≤ ones n v ≤ n.
Proof.
  intros. unfold ones, zlen. pose proof (length_filter (λ k, Z.testbit v k = true) (seqZ 0 n)).
  rewrite length_seqZ in *. lia.
Qed.

Lemma testbit_byte x y k : byte x → 0 ≤ k →
  Z.testbit (x + 256 * y) k = if decide (k < 8) then Z.testbit x k else Z.testbit y (k - 8).
Proof.
  intros Hx Hk. unfold byte in Hx. case_decide.
  - rewrite <-(Z.mod_pow2_bits_low (x + 256 * y) 8 k) by lia. f_equal.
    change (2 ^ 8) with 256. rewrite (Z.mul_comm 256), Z.mod_add by lia. apply Z.mod_small. lia.
  - replace k with (k - 8 + 8) at 1 by lia. rewrite <-Z.div_pow2_bits by lia. f_equal.
    change (2 ^ 8) with 256. rewrite (Z.mul_comm 256), Z.div_add, Z.div_small by lia. lia.
Qed.

Lemma filter_ext_in {A} (P Q : A → Prop) `{∀ x, Decision (P x), ∀ x, Decision (Q x)} (l : list A) :
  (∀ x, x ∈ l → P x ↔ Q x) → filter P l = filter Q l.
Proof.
  intros HPQ. induction l as [|x l IH]; [done|]. rewrite !filter_cons, IH by set_solver.
  by rewrite (decide_ext (P x) (Q x)) by set_solver.
Qed.

Lemma filter_fmap_length {A B} (f : A → B) (P : B → Prop) `{∀ x, Decision (P x)} (l : list A) :
  zlen (filter P (f <$> l)) = zlen (filter (λ x, P (f x)) l).
Proof.
  unfold zlen. f_equal. induction l as [|x l IH]; [done|]. rewrite fmap_cons, !filter_cons.
  case_decide; simpl; by rewrite IH.
Qed.

Lemma ones_val bs :
  Forall byte bs → ones (8 * zlen bs) (val bs) = foldr Z.add 0 (ones 8 <$> bs).
Proof.
  intros Hbs. induction Hbs as [|x bs Hx Hbs IH]; [done|].
  rewrite fmap_cons. simpl foldr. rewrite <-IH. unfold ones.
  replace (8 * zlen (x :: bs)) with (8 + 8 * zlen bs) by (unfold zlen; simpl; lia).
  pose proof (zlen_nonneg bs). rewrite seqZ_app by lia. rewrite filter_app, zlen_app. f_equal.
  - f_equal. apply filter_ext_in. intros k Hk%elem_of_seqZ. rewrite val_cons, testbit_byte by (done || lia).
    by rewrite decide_True by lia.
  - rewrite Z.add_comm, <-fmap_add_seqZ. rewrite filter_fmap_length. f_equal. apply filter_ext_in.
    intros k Hk%elem_of_seqZ. cbv beta. rewrite val_cons, testbit_byte by (done || lia).
    rewrite decide_False by lia. by replace (8 + k - 8) with k by lia.
Qed.

(** The bytes of a number. *)
Fixpoint bytesOf (k : nat) (v : Z) : list Z :=
  match k with O => [] | S k => v mod 256 :: bytesOf k (v / 256) end.

Lemma bytesOf_spec k v : 0 ≤ v < 256 ^ Z.of_nat k →
  val (bytesOf k v) = v ∧ Forall byte (bytesOf k v) ∧ length (bytesOf k v) = k.
Proof.
  revert v. induction k as [|k IH]; intros v Hv.
  { simpl in *. split_and!; [unfold val; simpl; lia|constructor|done]. }
  rewrite Nat2Z.inj_succ, Z.pow_succ_r in Hv by lia.
  destruct (IH (v / 256)) as (H1 & H2 & H3).
  { split; [apply Z.div_pos; lia|apply Z.div_lt_upper_bound; lia]. }
  cbn [bytesOf length]. rewrite val_cons, H1, H3. split_and!; [|constructor; [|done]|done].
  - pose proof (Z.div_mod v 256). lia.
  - apply Z.mod_pos_bound. lia.
Qed.

(** The multiplication and the shift add up eight counts. *)
Lemma sum_bytes c0 c1 c2 c3 c4 c5 c6 c7 :
  Forall (λ c, 0 ≤ c ≤ 8) [c0; c1; c2; c3; c4; c5; c6; c7] →
  Z.land (Z.shiftr ((val [c0; c1; c2; c3; c4; c5; c6; c7] * 0x0101010101010101) mod 2 ^ 64) 56) 0xFF
  = c0 + (c1 + (c2 + (c3 + (c4 + (c5 + (c6 + (c7 + 0))))))).
Proof.
  intros H. repeat (apply Forall_cons in H as [? H]). clear H.
  set (t := c0 + c1 + c2 + c3 + c4 + c5 + c6 + c7).
  assert (Hmod : (val [c0; c1; c2; c3; c4; c5; c6; c7] * 0x0101010101010101) mod 2 ^ 64 =
    val [c0; c0 + c1; c0 + c1 + c2; c0 + c1 + c2 + c3; c0 + c1 + c2 + c3 + c4;
         c0 + c1 + c2 + c3 + c4 + c5; c0 + c1 + c2 + c3 + c4 + c5 + c6] + 2 ^ 56 * t).
  { symmetry. apply (Z.mod_unique_pos _ _ (val [c1 + c2 + c3 + c4 + c5 + c6 + c7;
      c2 + c3 + c4 + c5 + c6 + c7; c3 + c4 + c5 + c6 + c7; c4 + c5 + c6 + c7; c5 + c6 + c7; c6 + c7; c7]));
      unfold val, t; simpl; lia. }
  rewrite Hmod, Z.shiftr_div_pow2 by lia. change 0xFF with (Z.ones 8). rewrite Z.land_ones by lia.
  assert (Hlow : 0 ≤ val [c0; c0 + c1; c0 + c1 + c2; c0 + c1 + c2 + c3; c0 + c1 + c2 + c3 + c4;
         c0 + c1 + c2 + c3 + c4 + c5; c0 + c1 + c2 + c3 + c4 + c5 + c6] < 2 ^ 56).
  { unfold val. simpl. lia. }
  rewrite (Z.mul_comm (2 ^ 56)), Z.div_add, Z.div_small, Z.mod_small by (unfold t; lia).
  unfold t. lia.
Qed.

Lemma popcntWord_ones v : 0 ≤ v < 2 ^ 64 → popcntWord v = ones 64 v.
Proof.
  intros Hv. destruct (bytesOf_spec 8 v Hv) as (Hval & Hb & Hlen).
  set (bs := bytesOf 8 v) in *. clearbody bs. subst v. unfold popcntWord.
  assert (Hk : ∀ l : list Z, length l = 8%nat → ∀ m, val (replicate (length l) m) =
    val [m; m; m; m; m; m; m; m]) by (by intros l ->).
  assert (Hst : ∀ m m' s l, length l = 8%nat → Forall byte l → byte m → byte m' → (2 ^ s | m') → 0 ≤ s →
    Z.land (val l) (val [m; m; m; m; m; m; m; m]) +
    Z.shiftr (Z.land (val l) (val [m'; m'; m'; m'; m'; m'; m'; m'])) s = val (stage1 m m' s <$> l)).
  { intros m m' s l Hl Hbl Hm Hm' Hd Hs. rewrite <-stage_val by done. unfold stage.
    by rewrite !Hk. }
  assert (Hb1 : Forall byte (stage1 0x55 0xAA 1 <$> bs)).
  { apply Forall_fmap. eapply Forall_impl; [exact Hb|]. intros x Hx. apply (byte_check x Hx). }
  assert (Hb2 : Forall byte (stage1 0x33 0xCC 2 <$> (stage1 0x55 0xAA 1 <$> bs))).
  { apply Forall_fmap, Forall_fmap. eapply Forall_impl; [exact Hb|]. intros x Hx.
    apply (byte_check x Hx). }
  rewrite (Hst 0x55 0xAA 1) by (done || lia || (by apply Z.mod_divide)).
  rewrite (Hst 0x33 0xCC 2) by (rewrite ?length_fmap; done || lia || (by apply Z.mod_divide)).
  rewrite (Hst 0x0F 0xF0 4) by (rewrite ?length_fmap; done || lia || (by apply Z.mod_divide)).
  replace (ones 64 (val bs)) with (ones (8 * zlen bs) (val bs)) by (f_equal; unfold zlen; by rewrite Hlen).
  rewrite ones_val by done.
  assert (Hc : stage1 0x0F 0xF0 4 <$> (stage1 0x33 0xCC 2 <$> (stage1 0x55 0xAA 1 <$> bs)) =
    ones 8 <$> bs).
  { rewrite <-!list_fmap_compose. apply list_fmap_ext. intros i x Hx. apply (byte_check x). exact (Forall_lookup_1 _ _ _ _ Hb Hx). }
  rewrite Hc. do 8 (destruct bs as [|? bs]; [done|]). destruct bs; [|done].
  apply sum_bytes. repeat constructor; apply ones_range; lia.
Qed.
End Popcnt.

Definition words_ok (b : bitset) : Prop := Forall (λ w, 0 ≤ w < 2 ^ 64) b.

Lemma bit_app_l b w p : 0 ≤ p < 64 * zlen b → bit (b ++ [w]) p = bit b p.
Proof.
  intros Hp. unfold bit. rewrite lookup_app_l; [done|]. unfold zlen in Hp.
  assert (0 ≤ p / 64 < Z.of_nat (length b)); [|lia].
  split; [apply Z.div_pos; lia|apply Z.div_lt_upper_bound; lia].
Qed.

Lemma bit_app_r b w k : 0 ≤ k < 64 → bit (b ++ [w]) (64 * zlen b + k) = Z.testbit w k.
Proof.
  intros Hk. unfold bit, zlen. rewrite (Z.mul_comm 64), Z.add_comm, Z.div_add, Z.mod_add by lia.
  rewrite Z.div_small, Z.mod_small, Z.add_0_l, Nat2Z.id by lia.
  by rewrite lookup_app_r, Nat.sub_diag by lia.
Qed.

Lemma popcnt_count b :
  words_ok b → 64 * zlen b < 2 ^ 64 →
  popcnt b = zlen (filter (λ p, bit b p = true) (seqZ 0 (64 * zlen b))).
Proof.
  induction b as [|w b IH] using rev_ind; intros Hok Hlen; [done|].
  apply Forall_app in Hok as [Hok Hw]. apply Forall_cons in Hw as [Hw _].
  rewrite zlen_app in *. change (zlen [w]) with 1 in *. pose proof (zlen_nonneg b).
  rewrite Z.mul_add_distr_l, seqZ_app by lia. rewrite filter_app, zlen_app.
  replace (zlen (filter (λ p, bit (b ++ [w]) p = true) (seqZ 0 (64 * zlen b)))) with (popcnt b).
  - unfold popcnt at 1. rewrite foldl_app. fold (popcnt b). simpl foldl.
    rewrite popcntWord_ones by done. rewrite Z.add_0_l, <-(Z.add_0_r (64 * zlen b)) at 1.
    rewrite <-fmap_add_seqZ, filter_fmap_length.
    replace (zlen (filter _ (seqZ 0 64))) with (ones 64 w).
    + rewrite IH by (done || lia). apply Z.mod_small.
      pose proof (ones_range 64 w). unfold zlen.
      pose proof (length_filter (λ p, bit b p = true) (seqZ 0 (64 * zlen b))).
      rewrite length_seqZ in *. unfold zlen in *. lia.
    + unfold ones. f_equal. apply filter_ext_in. intros k Hk%elem_of_seqZ. cbv beta.
      by rewrite bit_app_r by lia.
  - rewrite IH by (done || lia). f_equal. apply filter_ext_in. intros p Hp%elem_of_seqZ.
    by rewrite bit_app_l by lia.
Qed.

Lemma set_clear_gets b pos q :
  inside b pos → inside b q →
  ∃ b1 b2, set b pos = Some b1 ∧ clear b pos = Some b2 ∧
    get b1 q = (if decide (q = pos) then Some true else get b q) ∧
    get b2 q = (if decide (q = pos) then Some false else get b q).
Proof.
  intros Hp Hq. destruct (set_spec b pos Hp) as (b1 & Hs & Hl1 & Hb1).
  destruct (clear_spec b pos Hp) as (b2 & Hc & Hl2 & Hb2). exists b1, b2.
  assert (Hin : ∀ b', length b' = length b → inside b' q).
  { intros b' Hl. unfold inside, zlen in *. by rewrite Hl. }
  split_and!; [done|done|..].
  - rewrite get_bit, Hb1 by (apply Hin, Hl1 || apply Hq). rewrite (get_bit b) by done. by case_decide.
  - rewrite get_bit, Hb2 by (apply Hin, Hl2 || apply Hq). rewrite (get_bit b) by done. by case_decide.
Qed.

(** C39: A bitset is a set of positions: popcnt is their number; on a position inside the
    set, set and clear do not panic, make the position a member or not, and change
    no other position. *)
Theorem bitset_ops b :
  words_ok b → 64 * zlen b < 2 ^ 64 →
  popcnt b = zlen (filter (λ p, bit b p = true) (seqZ 0 (64 * zlen b))) ∧
  ∀ pos q, inside b pos → inside b q →
    ∃ b1 b2, set b pos = Some b1 ∧ clear b pos = Some b2 ∧
      get b1 q = (if decide (q = pos) then Some true else get b q) ∧
      get b2 q = (if decide (q = pos) then Some false else get b q).
Proof. intros Hok Hlen. split; [by apply popcnt_count|]. intros pos q. apply set_clear_gets. Qed.

Lemma bitset_ops_witness :
  popcnt [0x8000000000000001; 6] =
    zlen (filter (λ p, bit [0x8000000000000001; 6] p = true) (seqZ 0 128)) ∧
  ∃ b1, set [0x8000000000000001; 6] 70 = Some b1 ∧ get b1 70 = Some true.
Proof.
  destruct (bitset_ops [0x8000000000000001; 6]) as [Hp Hs].
  - apply (bool_decide_unpack _). vm_compute. exact I.
  - vm_compute. reflexivity.
  - split; [exact Hp|].
    assert (Hin : inside [0x8000000000000001; 6] 70) by (split; vm_compute; [discriminate|reflexivity]).
    destruct (Hs 70 70 Hin Hin) as (b1 & _ & H1 & _ & Hg & _). exists b1. split; [exact H1|exact Hg].
Defined.
