(* ===== verification/Linearizability.v ===== *)
(** * The linearizability checker: linearizability/model.go, models.go and
      linearizability.go

    Histories, models and the depth-first search over a doubly linked list of
    call and return entries. The nodes live in a heap, a list whose indices are
    the pointers, because the search takes nodes out of the list and puts them
    back in place. An [interface{}] that holds an input or an output is the sum
    of the two types; an operation that meets the other one panics, as does a
    nil pointer. [uint] ids are [Z]. *)

From S2P Require Import Prelude Bitset.

Section Data.
Context {In Out St : Type}.

(** ** model.go *)

Record Operation := mkOperation { Input : In; Call : Z; Output : Out; Return : Z }.

Inductive EventKind := CallEvent | ReturnEvent.

Record Event := mkEvent { Kind : EventKind; Value : In + Out; Id : Z }.

(** [Partition], [PartitionEvent] and [Equal] may be nil. *)
Record Model := mkModel {
  Partition : option (list Operation → list (list Operation));
  PartitionEvent : option (list Event → list (list Event));
  Init : St;
  Step : St → In → Out → bool * St;
  Equal : option (St → St → bool);
}.

Definition NoPartition (history : list Operation) : list (list Operation) := [history].
Definition NoPartitionEvent (history : list Event) : list (list Event) := [history].
Definition ShallowEqual `{EqDecision St} (state1 state2 : St) : bool := bool_decide (state1 = state2).

(** ** Entries *)

Inductive entryKind := callEntry | returnEntry.

Record entry := mkEntry { kind : entryKind; value : In + Out; id : Z; time : Z }.

(** [sort.Sort] by time is not stable: all that is known of its result. *)
Definition byTime (a b : entry) : Prop := time a ≤ time b.
Class SortByTime := {
  sortByTime : list entry → list entry;
  sortByTime_perm : ∀ l, sortByTime l ≡ₚ l;
  sortByTime_sorted : ∀ l, Sorted byTime (sortByTime l);
}.

#[export] Instance byTime_dec : RelDecision byTime.
Proof. unfold byTime. solve_decision. Defined.
#[export] Instance byTime_total : Total byTime.
Proof. intros a b. unfold byTime. lia. Qed.

Program Definition mergeSortByTime : SortByTime := {| sortByTime := merge_sort byTime |}.
Next Obligation. intros. apply merge_sort_Permutation. Qed.
Next Obligation. intros. apply (Sorted_merge_sort byTime). Qed.

(** The loop of makeEntries. *)
Fixpoint pairEntries (history : list Operation) (id : Z) : list entry :=
  match history with
  | [] => []
  | elem :: history =>
      mkEntry callEntry (inl (Input elem)) id (Call elem) ::
      mkEntry returnEntry (inr (Output elem)) id (Return elem) :: pairEntries history (id + 1)
  end.

Definition makeEntries `{SortByTime} (history : list Operation) : list entry :=
  sortByTime (pairEntries history 0).

(** The loop of renumber with the map [m] and the next [id]. *)
Fixpoint renumberLoop (events : list Event) (m : gmap Z Z) (id : Z) : list Event :=
  match events with
  | [] => []
  | v :: events =>
      match m !! Id v with
      | Some r => mkEvent (Kind v) (Value v) r :: renumberLoop events m id
      | None => mkEvent (Kind v) (Value v) id :: renumberLoop events (<[Id v := id]> m) (id + 1)
      end
  end.
Definition renumber (events : list Event) : list Event := renumberLoop events ∅ 0.

Definition convertEntries (events : list Event) : list entry :=
  (λ elem, mkEntry (match Kind elem with ReturnEvent => returnEntry | CallEvent => callEntry end)
             (Value elem) (Id elem) (-1)) <$> events.

(** ** The linked list *)

Notation ptr := (option nat).

(** [nval] is nil in the head node only; a node is a call if [match_] is not nil. *)
Record node := mkNode {
  nval : option (In + Out);
  match_ : ptr;
  nid : Z;
  next : ptr;
  prev : ptr;
}.

Notation heap := (list node).

Definition setNext (h : heap) (l : nat) (x : ptr) : option heap :=
  let* nd := h !! l in Some (<[l := mkNode (nval nd) (match_ nd) (nid nd) x (prev nd)]> h).
Definition setPrev (h : heap) (l : nat) (x : ptr) : option heap :=
  let* nd := h !! l in Some (<[l := mkNode (nval nd) (match_ nd) (nid nd) (next nd) x]> h).

Definition insertBefore (h : heap) (n : nat) (mark : ptr) : option heap :=
  match mark with
  | None => Some h
  | Some mk =>
      let* nd := h !! mk in
      let beforeMark := prev nd in
      let* h := setPrev h mk (Some n) in
      let* h := setNext h n (Some mk) in
      match beforeMark with
      | None => Some h
      | Some b => let* h := setPrev h n (Some b) in setNext h b (Some n)
      end
  end.

(** [length]: the number of nodes from a pointer on; [None] when the walk has
    not ended after [fuel] nodes. *)
Fixpoint lengthFrom (fuel : nat) (h : heap) (n : ptr) : option Z :=
  match n, fuel with
  | None, _ => Some 0
  | Some _, O => None
  | Some l, S fuel =>
      let* nd := h !! l in let* k := lengthFrom fuel h (next nd) in Some (k + 1)
  end.

(** The loop of makeLinkedEntries, from the last entry to the first: the heap,
    the root and the map from ids to return nodes. *)
Fixpoint linkLoop (rentries : list entry) (h : heap) (root : ptr) (mt : gmap Z nat)
    : option (heap * ptr) :=
  match rentries with
  | [] => Some (h, root)
  | elem :: rentries =>
      let l := length h in
      match kind elem with
      | returnEntry =>
          let* h := insertBefore (h ++ [mkNode (Some (value elem)) None (id elem) None None]) l root in
          linkLoop rentries h (Some l) (<[id elem := l]> mt)
      | callEntry =>
          let* h := insertBefore
            (h ++ [mkNode (Some (value elem)) (mt !! id elem) (id elem) None None]) l root in
          linkLoop rentries h (Some l) mt
      end
  end.

Definition makeLinkedEntries (entries : list entry) : option (heap * ptr) :=
  linkLoop (reverse entries) [] None ∅.

(** Lines 148-149 and 151-154: take a node out of the list; the code does not
    test the next node of a call for nil. *)
Definition unlink (h : heap) (l : nat) : option heap :=
  let* nd := h !! l in
  let* p := prev nd in
  let* h := setNext h p (next nd) in
  let* nd := h !! l in
  match next nd with Some n => setPrev h n (prev nd) | None => Some h end.

Definition lift (h : heap) (e : nat) : option heap :=
  let* nd := h !! e in
  let* _ := next nd in
  let* m := match_ nd in
  let* h := unlink h e in
  unlink h m.

(** Lines 159-162 and 163-164: put it back. *)
Definition relink (h : heap) (l : nat) : option heap :=
  let* nd := h !! l in
  let* p := prev nd in
  let* h := setNext h p (Some l) in
  let* nd := h !! l in
  match next nd with Some n => setPrev h n (Some l) | None => Some h end.

Definition unlift (h : heap) (e : nat) : option heap :=
  let* nd := h !! e in
  let* m := match_ nd in
  let* h := relink h m in
  let* _ := next nd in
  relink h e.

(** ** The search *)

Notation cacheEntry := (bitset * St)%type.

Definition cacheContains (equal : St → St → bool) (cache : gmap Z (list cacheEntry))
    (entry : cacheEntry) : bool :=
  existsb (λ elem, equals (entry.1) (elem.1) && equal (entry.2) (elem.2))
    (default [] (cache !! hash (entry.1))).

(** The local variables of checkSingle that change. [calls] is the slice of the
    same name with its last element first. *)
Record Search := mkSearch {
  hp : heap;
  cur : ptr;
  state : St;
  linearized : bitset;
  cache : gmap Z (list cacheEntry);
  calls : list (nat * St);
}.

Inductive Outcome := Continue (s : Search) | Answer (b : bool) | Crash.

Definition orCrash (o : option Search) : Outcome :=
  match o with Some s => Continue s | None => Crash end.

(** One pass of the loop of lines 176-212; [kill] is what line 177 reads. *)
Definition iterate (step : St → In → Out → bool * St) (equal : St → St → bool) (headEntry : nat)
    (kill : bool) (s : Search) : Outcome :=
  match hp s !! headEntry with
  | None => Crash
  | Some hd =>
    match next hd with
    | None => Answer true
    | Some _ =>
      if kill then Answer false
      else match cur s ≫= (hp s !!.) with
      | None => Crash
      | Some nd =>
        match match_ nd, cur s with
        | Some m, Some e =>
          match nval nd, (hp s !! m) ≫= nval with
          | Some (inl inp), Some (inr out) =>
            let '(ok, newState) := step (state s) inp out in
            let skip := mkSearch (hp s) (next nd) (state s) (linearized s) (cache s) (calls s) in
            if ok then
              orCrash (
                let* newLinearized := set (clone (linearized s)) (nid nd) in
                let newCacheEntry := (newLinearized, newState) in
                if cacheContains equal (cache s) newCacheEntry then Some skip
                else
                  let hsh := hash newLinearized in
                  let cache' := <[hsh := default [] (cache s !! hsh) ++ [newCacheEntry]]> (cache s) in
                  let* lin := set (linearized s) (nid nd) in
                  let* h := lift (hp s) e in
                  let* hd := h !! headEntry in
                  Some (mkSearch h (next hd) newState lin cache' ((e, state s) :: calls s)))
            else Continue skip
          | _, _ => Crash
          end
        | _, _ =>
          match calls s with
          | [] => Answer false
          | (e, st) :: calls' =>
              orCrash (
                let* nd := hp s !! e in
                let* lin := clear (linearized s) (nid nd) in
                let* h := unlift (hp s) e in
                let* nd := h !! e in
                Some (mkSearch h (next nd) st lin (cache s) calls'))
          end
        end
      end
    end
  end.

(** [None]: the loop has not ended after [fuel] passes, or a panic; [kill k] is
    what the [k]-th pass reads. *)
Inductive Verdict := Done (b : bool) | Panicked | OutOfFuel.

Fixpoint checkLoop (step : St → In → Out → bool * St) (equal : St → St → bool) (headEntry : nat)
    (kill : nat → bool) (k : nat) (fuel : nat) (s : Search) : Verdict :=
  match fuel with
  | O => OutOfFuel
  | S fuel =>
      match iterate step equal headEntry (kill k) s with
      | Continue s => checkLoop step equal headEntry kill (S k) fuel s
      | Answer b => Done b
      | Crash => Panicked
      end
  end.

(** The state before the loop, lines 168-175, and the head node. *)
Definition startSearch (init : St) (h : heap) (subhistory : ptr) : option (nat * Search) :=
  let* len := lengthFrom (length h) h subhistory in
  let headEntry := length h in
  let* h := insertBefore (h ++ [mkNode None None (2 ^ 64 - 1) None None]) headEntry subhistory in
  Some (headEntry, mkSearch h subhistory init (newBitset (len / 2)) ∅ []).

Definition checkSingle (step : St → In → Out → bool * St) (equal : St → St → bool) (init : St)
    (kill : nat → bool) (fuel : nat) (h : heap) (subhistory : ptr) : Verdict :=
  match startSearch init h subhistory with
  | None => Panicked
  | Some (headEntry, s) => checkLoop step equal headEntry kill 0 fuel s
  end.
End Data.

Arguments Operation : clear implicits.
Arguments Event : clear implicits.
Arguments Model : clear implicits.
Arguments entry : clear implicits.
Arguments SortByTime : clear implicits.
Arguments node : clear implicits.
Arguments Search : clear implicits.
