(* ===== verification/LinHeap.v ===== *)
(** * The linked list of the linearizability checker

    [seg h p ls q] says that the nodes [ls] of the heap [h] are linked in both
    directions, between the pointers [p] and [q]. Taking a node out keeps the
    rest linked, and putting it back restores the heap exactly: this is what
    makes the backtracking of checkSingle correct. *)

From S2P Require Import Prelude Bitset Linearizability.

Section Heap.
Context {In Out : Type}.
Notation node := (node In Out).
Implicit Types (h : list node) (ls : list nat) (p q : option nat).

Definition hd ls q : option nat := match ls with [] => q | l :: _ => Some l end.
Definition lst p ls : option nat := match last ls with Some l => Some l | None => p end.

Fixpoint seg h p ls q : Prop :=
  match ls with
  | [] => True
  | l :: ls => (∃ nd, h !! l = Some nd ∧ prev nd = p ∧ next nd = hd ls q) ∧ seg h (Some l) ls q
  end.

(** What never changes: values, matches and ids. *)
Definition info h : list (option (In + Out) * option nat * Z) :=
  (λ nd, (nval nd, match_ nd, nid nd)) <$> h.

Lemma lst_cons p l ls : lst p (l :: ls) = lst (Some l) ls.
Proof. unfold lst. rewrite last_cons. by destruct (last ls). Qed.

Lemma lst_snoc p ls l : lst p (ls ++ [l]) = Some l.
Proof. unfold lst. by rewrite last_snoc. Qed.

Lemma seg_app h p ls ls' q :
  seg h p (ls ++ ls') q ↔ seg h p ls (hd ls' q) ∧ seg h (lst p ls) ls' q.
Proof.
  revert p. induction ls as [|l ls IH]; intros p; [simpl; tauto|].
  rewrite lst_cons. simpl. rewrite IH.
  assert (hd (ls ++ ls') q = hd ls (hd ls' q)) as -> by (by destruct ls). tauto.
Qed.

Lemma seg_insert h p ls q k nd : k ∉ ls → seg h p ls q → seg (<[k := nd]> h) p ls q.
Proof.
  revert p. induction ls as [|l ls IH]; intros p Hk; [done|]. simpl.
  intros [(nd' & Hl & ?) Hs]. split; [|apply IH; [set_solver|done]].
  exists nd'. rewrite list_lookup_insert_ne by set_solver. done.
Qed.

Lemma seg_lookup h p ls q l : seg h p ls q → l ∈ ls → ∃ nd, h !! l = Some nd.
Proof.
  revert p. induction ls as [|l' ls IH]; intros p Hs Hin; [set_solver|].
  destruct Hs as [(nd & Hl & _) Hs]. apply elem_of_cons in Hin as [->|]; eauto.
Qed.

Lemma seg_next h p ls l i :
  seg h p ls None → ls !! i = Some l → ∃ nd, h !! l = Some nd ∧ next nd = ls !! S i.
Proof.
  revert p i. induction ls as [|l' ls IH]; intros p i Hs Hi; [done|].
  destruct Hs as [(nd & Hl & _ & Hn) Hs]. destruct i as [|i]; simpl in *.
  - simplify_eq. exists nd. split; [done|]. rewrite Hn. by destruct ls.
  - by apply (IH (Some l')).
Qed.

Lemma info_insert h k nd nd' :
  h !! k = Some nd → (nval nd', match_ nd', nid nd') = (nval nd, match_ nd, nid nd) →
  info (<[k := nd']> h) = info h.
Proof.
  intros Hk E. unfold info. rewrite list_fmap_insert, E.
  apply list_insert_id. by rewrite list_lookup_fmap, Hk.
Qed.

Lemma info_lookup h h' l nd :
  info h' = info h → h !! l = Some nd →
  ∃ nd', h' !! l = Some nd' ∧ nval nd' = nval nd ∧ match_ nd' = match_ nd ∧ nid nd' = nid nd.
Proof.
  intros Hi Hl. apply (f_equal (.!! l)) in Hi. unfold info in Hi.
  rewrite !list_lookup_fmap, Hl in Hi. destruct (h' !! l) as [nd'|]; [|done].
  simplify_eq/=. eauto.
Qed.

(** ** Taking a node out and putting it back *)

Lemma unlink_spec h p A x l B :
  NoDup (A ++ x :: l :: B) → seg h p (A ++ x :: l :: B) None →
  ∃ h', unlink h l = Some h' ∧ seg h' p (A ++ x :: B) None ∧ info h' = info h ∧
    (∀ k, k ∉ A ++ x :: B → h' !! k = h !! k) ∧ relink h' l = Some h.
Proof.
  intros Hnd Hs. rewrite seg_app in Hs. simpl in Hs.
  destruct Hs as (HA & (xnd & Hx & Hxp & Hxn) & (nd & Hl & Hlp & Hln) & HB).
  apply NoDup_app in Hnd as (HndA & HAd & Hnd).
  apply NoDup_cons in Hnd as [Hxl Hnd]. apply NoDup_cons in Hnd as [HlB HndB].
  assert (x ≠ l) as Hne by set_solver.
  set (xnd' := mkNode (nval xnd) (match_ xnd) (nid xnd) (next nd) (prev xnd)).
  assert (Hu : setNext h x (next nd) = Some (<[x := xnd']> h)) by (unfold setNext; by rewrite Hx).
  unfold unlink. rewrite Hl. simpl. rewrite Hlp. simpl. rewrite Hu. simpl.
  rewrite list_lookup_insert_ne, Hl by done. simpl.
  destruct B as [|n B]; simpl in Hln; rewrite Hln.
  - exists (<[x := xnd']> h). split; [done|]. split; [|split; [by eapply info_insert|split]].
    + rewrite seg_app. simpl. split; [apply seg_insert; [set_solver|done]|].
      split; [|done]. exists xnd'. rewrite list_lookup_insert_eq by (by eapply lookup_lt_Some).
      split; [done|]. simpl. by rewrite Hln.
    + intros k Hk. rewrite list_lookup_insert_ne by set_solver. done.
    + unfold relink, setNext. rewrite list_lookup_insert_ne, Hl by done. simpl. rewrite Hlp. simpl.
      rewrite list_lookup_insert_eq by (by eapply lookup_lt_Some). simpl.
      rewrite list_insert_insert_eq, list_lookup_insert_ne, Hl by done. simpl. rewrite Hln. f_equal.
      apply list_insert_id. rewrite Hx. f_equal. destruct xnd. simpl in *. by subst.
  - destruct HB as [(nnd & Hn & Hnp & Hnn) HB].
    assert (x ≠ n ∧ l ≠ n) as [Hxn' Hln'] by set_solver.
    set (nnd' := mkNode (nval nnd) (match_ nnd) (nid nnd) (next nnd) (Some x)).
    unfold setPrev. rewrite list_lookup_insert_ne, Hn by done. simpl. rewrite Hlp.
    exists (<[n := nnd']> (<[x := xnd']> h)). split; [done|]. split; [|split; [|split]].
    + rewrite seg_app. simpl.
      split; [apply seg_insert; [set_solver|]; apply seg_insert; [set_solver|done]|]. split; [|split].
      * exists xnd'. rewrite list_lookup_insert_ne by done.
        rewrite list_lookup_insert_eq by (by eapply lookup_lt_Some).
        split; [done|]. simpl. by rewrite Hln.
      * exists nnd'. rewrite list_lookup_insert_eq; [done|].
        rewrite length_insert. by eapply lookup_lt_Some.
      * apply NoDup_cons in HndB as [? _].
        apply seg_insert; [done|]. apply seg_insert; [set_solver|done].
    + erewrite info_insert; [by eapply info_insert|by rewrite list_lookup_insert_ne|done].
    + intros k Hk. rewrite !list_lookup_insert_ne by set_solver. done.
    + unfold relink, setNext, setPrev. rewrite !list_lookup_insert_ne, Hl by done. simpl.
      rewrite Hlp. simpl. rewrite list_lookup_insert_ne by done.
      rewrite list_lookup_insert_eq by (by eapply lookup_lt_Some). simpl.
      rewrite !list_lookup_insert_ne, Hl by done. simpl. rewrite Hln.
      rewrite list_lookup_insert_ne by done. rewrite list_lookup_insert_eq
        by (rewrite length_insert; by eapply lookup_lt_Some). simpl. f_equal.
      apply list_eq. intros k. pose proof (lookup_lt_Some _ _ _ Hx). pose proof (lookup_lt_Some _ _ _ Hn).
      destruct (decide (k = n)) as [->|]; [|destruct (decide (k = x)) as [->|]].
      * rewrite list_lookup_insert_eq by (by rewrite !length_insert). rewrite Hn. f_equal.
        destruct nnd. simpl in *. by subst.
      * rewrite list_lookup_insert_ne, list_lookup_insert_eq by (done || by rewrite !length_insert).
        rewrite Hx. f_equal. destruct xnd. simpl in *. by subst.
      * by rewrite !list_lookup_insert_ne.
Qed.

Lemma unlink_spec' h p P l B :
  P ≠ [] → NoDup (P ++ l :: B) → seg h p (P ++ l :: B) None →
  ∃ h', unlink h l = Some h' ∧ seg h' p (P ++ B) None ∧ info h' = info h ∧
    (∀ k, k ∉ P ++ B → h' !! k = h !! k) ∧ relink h' l = Some h.
Proof.
  intros HP. destruct (exists_last HP) as (A & x & ->). rewrite <-!app_assoc. simpl.
  apply unlink_spec.
Qed.

(** lift takes a call and its return out, and unlift undoes it exactly. *)
Lemma lift_spec h p H0 A e B m C nd :
  NoDup (H0 :: A ++ e :: B ++ m :: C) → seg h p (H0 :: A ++ e :: B ++ m :: C) None →
  h !! e = Some nd → match_ nd = Some m →
  ∃ h', lift h e = Some h' ∧ seg h' p (H0 :: A ++ B ++ C) None ∧ info h' = info h ∧
    unlift h' e = Some h.
Proof.
  intros Hnd Hs He Hm.
  change (H0 :: A ++ e :: B ++ m :: C) with ((H0 :: A) ++ e :: B ++ m :: C) in *.
  destruct (unlink_spec' h p (H0 :: A) e (B ++ m :: C)) as (h1 & Hu1 & Hs1 & Hi1 & Hf1 & Hr1); [done..|].
  assert (NoDup ((H0 :: A ++ B) ++ m :: C) ∧ e ∉ (H0 :: A ++ B) ++ m :: C) as [Hnd1 He1].
  { assert ((H0 :: A) ++ e :: B ++ m :: C ≡ₚ e :: (H0 :: A ++ B) ++ m :: C) as Hp.
    { rewrite <-Permutation_middle. by rewrite !app_comm_cons, <-!app_assoc. }
    rewrite Hp in Hnd. by apply NoDup_cons in Hnd as [? ?]. }
  assert (Hs1' : seg h1 p ((H0 :: A ++ B) ++ m :: C) None).
  { change ((H0 :: A ++ B) ++ m :: C) with (H0 :: (A ++ B) ++ m :: C). by rewrite <-app_assoc. }
  destruct (unlink_spec' h1 p (H0 :: A ++ B) m C) as (h2 & Hu2 & Hs2 & Hi2 & Hf2 & Hr2); [done..|].
  exists h2. split_and!.
  - unfold lift. rewrite He. simpl.
    assert (∃ n, next nd = Some n) as [n ->].
    { rewrite seg_app in Hs. destruct Hs as [_ [(nd' & He' & _ & Hn) _]]. simplify_eq.
      rewrite Hn. destruct B; simpl; eauto. }
    simpl. rewrite Hm. simpl. by rewrite Hu1.
  - simpl in Hs2. by rewrite <-app_assoc in Hs2.
  - by rewrite Hi2.
  - unfold unlift. destruct (info_lookup h h2 e nd) as (nd2 & He2 & _ & Hm2 & _); [by rewrite Hi2|done|].
    assert (nd2 = nd) as ->.
    { rewrite Hf2, Hf1, He in He2 by set_solver. by simplify_eq. }
    rewrite He2. simpl. rewrite Hm. simpl. rewrite Hr2. simpl.
    assert (∃ n, next nd = Some n) as [n ->].
    { rewrite seg_app in Hs. destruct Hs as [_ [(nd' & He' & _ & Hn) _]]. simplify_eq.
      rewrite Hn. destruct B; simpl; eauto. }
    simpl. done.
Qed.
End Heap.
