(* ===== verification/LinSearch.v ===== *)
(** * The search of checkSingle decides whether a history is linearizable

    A history is a list [L0] of nodes, calls and returns in the order of their
    times, with what the heap says of them ([inf]). [Lin L s] says that the
    operations left in [L] can be linearized from state [s]: one whose call no
    return precedes goes first, and so on. The loop of checkSingle is shown to
    decide it: [search_inv] relates every state of the loop to a path in the
    tree of partial linearizations, with everything to the left of the path
    refuted, and [potential] bounds the number of passes. *)

From S2P Require Import Prelude Bitset Linearizability LinHeap.

(** ** Order in a list *)

Fixpoint before {A} (L : list A) (x y : A) : Prop :=
  match L with [] => False | z :: L => (z = x ∧ y ∈ L) ∨ before L x y end.

Lemma before_split {A} (L : list A) x y :
  before L x y ↔ ∃ A B C, L = A ++ x :: B ++ y :: C.
Proof.
  split.
  - induction L as [|z L IH]; simpl; [done|]. intros [[-> Hy]|Hb].
    + apply list_elem_of_split in Hy as (B & C & ->). by exists [], B, C.
    + destruct (IH Hb) as (A' & B & C & ->). by exists (z :: A'), B, C.
  - intros (A' & B & C & ->). induction A' as [|z A' IH]; simpl; [left; set_solver|by right].
Qed.

Lemma before_elem {A} (L : list A) x y : before L x y → x ∈ L ∧ y ∈ L.
Proof. induction L as [|z L IH]; simpl; [done|]. intros [[-> Hy]|[? ?]%IH]; set_solver. Qed.

Lemma before_filter {A} (P : A → Prop) `{∀ x, Decision (P x)} (L : list A) x y :
  before (filter P L) x y ↔ before L x y ∧ P x ∧ P y.
Proof.
  induction L as [|z L IH]; [simpl; naive_solver|].
  rewrite filter_cons. case_decide as Hz; simpl; rewrite IH.
  - rewrite list_elem_of_filter. naive_solver.
  - naive_solver.
Qed.

Lemma before_lookup {A} (L : list A) p x y :
  NoDup L → L !! p = Some y → before L x y ↔ ∃ q, (q < p)%nat ∧ L !! q = Some x.
Proof.
  intros Hnd. revert p. induction Hnd as [|z L Hz Hnd IH]; intros p Hp; [done|].
  destruct p as [|p]; simpl in Hp.
  - simplify_eq. simpl. split; [|intros (q & ? & _); lia].
    intros [[_ ?]|[_ ?]%before_elem]; done.
  - simpl. rewrite (IH p Hp). split.
    + intros [[-> _]|(q & ? & ?)]; [exists 0%nat; split; [lia|done]|exists (S q); split; [lia|done]].
    + intros ([|q] & ? & Hq); simpl in Hq; simplify_eq.
      * left. split; [done|]. by eapply list_elem_of_lookup_2.
      * right. exists q. split; [lia|done].
Qed.

Section Search.
Context {In Out St : Type} (step : St → In → Out → bool * St) (equal : St → St → bool).
Context (inf : list (option (In + Out) * option nat * Z)) (init : St).
Hypothesis equal_sound : ∀ a b, equal a b = true → a = b.

Definition vl (l : nat) : option (In + Out) := inf !! l ≫= λ '(v, _, _), v.
Definition mt (l : nat) : option nat := inf !! l ≫= λ '(_, m, _), m.
Definition idn (l : nat) : Z := match inf !! l with Some (_, _, i) => i | None => 0 end.

(** ** Linearizations *)

Inductive Lin : list nat → St → Prop :=
  | Lin_nil s : Lin [] s
  | Lin_step L s e m i o s' :
      e ∈ L → mt e = Some m → (∀ x, before L x e → mt x ≠ None) →
      vl e = Some (inl i) → vl m = Some (inr o) → step s i o = (true, s') →
      Lin (filter (λ l, idn l ≠ idn e) L) s' → Lin L s.

(** A history in which every call has a return after it, and every operation an
    id of its own below [n]. *)
Record history_ok (L0 : list nat) (n : Z) : Prop := {
  ho_nodup : NoDup L0;
  ho_call : ∀ e m, e ∈ L0 → mt e = Some m →
    before L0 e m ∧ mt m = None ∧ idn e = idn m ∧
    ∃ i o, vl e = Some (inl i) ∧ vl m = Some (inr o);
  ho_return : ∀ r, r ∈ L0 → mt r = None → ∃ e, e ∈ L0 ∧ mt e = Some r;
  ho_id : ∀ e e', e ∈ L0 → e' ∈ L0 → mt e ≠ None → mt e' ≠ None → idn e = idn e' → e = e';
  ho_range : ∀ l, l ∈ L0 → 0 ≤ idn l < n;
}.

Context (L0 : list nat) (n : Z) (Hh : history_ok L0 n).

(** The nodes of one operation are its call and its return. *)
Lemma same_id e m l : e ∈ L0 → mt e = Some m → l ∈ L0 → idn l = idn e ↔ l = e ∨ l = m.
Proof.
  intros He Hm Hl. destruct (ho_call _ _ Hh e m He Hm) as (_ & _ & Hid & _). split.
  - intros E. destruct (mt l) as [m'|] eqn:Hml.
    + left. apply (ho_id _ _ Hh); [done|done|congruence|congruence|done].
    + right. destruct (ho_return _ _ Hh l Hl Hml) as (e' & He' & Hm').
      destruct (ho_call _ _ Hh e' l He' Hm') as (_ & _ & Hid' & _).
      assert (e' = e) as ->; [|congruence].
      apply (ho_id _ _ Hh); [done|done|congruence|congruence|congruence].
  - intros [-> | ->]; congruence.
Qed.

(** The operations that a bitset leaves. *)
Definition remaining (b : bitset) : list nat := filter (λ l, bit b (idn l) = false) L0.

Lemma remaining_elem b l : l ∈ remaining b ↔ bit b (idn l) = false ∧ l ∈ L0.
Proof. unfold remaining. by rewrite list_elem_of_filter. Qed.

Lemma remaining_nodup b : NoDup (remaining b).
Proof. apply NoDup_filter, Hh. Qed.

(** Linearizing [e] takes its two nodes out. *)
Lemma remaining_split b e m :
  e ∈ remaining b → mt e = Some m →
  ∃ A B C, remaining b = A ++ e :: B ++ m :: C ∧
    filter (λ l, idn l ≠ idn e) (remaining b) = A ++ B ++ C.
Proof.
  intros He Hm. pose proof He as [Hb He0]%remaining_elem.
  destruct (ho_call _ _ Hh e m He0 Hm) as (Hbef & _ & Hid & _).
  assert (before (remaining b) e m) as Hbr.
  { apply before_filter. split_and!; [done|done|congruence]. }
  apply before_split in Hbr as (A & B & C & HL). exists A, B, C. split; [done|].
  pose proof (remaining_nodup b) as Hnd.
  assert (Hin : ∀ l, l ∈ remaining b → l ∈ L0) by (by intros l [_ ?]%remaining_elem).
  assert (Hkeep : ∀ l, l ∈ A ++ B ++ C → l ∈ remaining b ∧ l ≠ e ∧ l ≠ m).
  { intros l Hl. rewrite HL in *.
    assert (A ++ e :: B ++ m :: C ≡ₚ e :: m :: A ++ B ++ C) as Hp.
    { etrans; [symmetry; apply Permutation_middle|]. apply Permutation_skip.
      rewrite (app_assoc A B (m :: C)), (app_assoc A B C). symmetry. apply Permutation_middle. }
    rewrite Hp in Hnd |- *. apply NoDup_cons in Hnd as [H1 Hnd]. apply NoDup_cons in Hnd as [H2 _].
    split; [set_solver|]. split; intros ->; set_solver. }
  rewrite HL, !filter_app, !filter_cons.
  rewrite (decide_False (P:=idn e ≠ idn e)) by naive_solver.
  rewrite filter_app, filter_cons, (decide_False (P:=idn m ≠ idn e)) by naive_solver.
  assert (Hall : ∀ l, l ∈ A ++ B ++ C → idn l ≠ idn e).
  { intros l Hl E. destruct (Hkeep l Hl) as (Hr & Hne & Hnm).
    apply (same_id e m) in E as [-> | ->]; auto. }
  assert (Hf : ∀ X : list nat, (∀ l, l ∈ X → l ∈ A ++ B ++ C) → filter (λ l, idn l ≠ idn e) X = X).
  { intros X HX. induction X as [|l X IH]; [done|].
    rewrite filter_cons_True by (apply Hall, HX; set_solver). rewrite IH by set_solver. done. }
  rewrite !Hf by set_solver. done.
Qed.

Lemma remaining_set b b' i :
  (∀ q, 0 ≤ q → bit b' q = if decide (q = i) then true else bit b q) →
  remaining b' = filter (λ l, idn l ≠ i) (remaining b).
Proof.
  intros Hb'. unfold remaining. rewrite list_filter_filter. apply filter_ext_in.
  intros l Hl. rewrite Hb' by (by apply (ho_range _ _ Hh)). case_decide; naive_solver.
Qed.

(** ** The invariant *)

Context (H0 : nat) (HH : H0 ∉ L0) (nb : nat) (Hnb : n ≤ 64 * Z.of_nat nb).

(** The heap and the bitset of a partial linearization. *)
Definition valid (h : list (node In Out)) (b : bitset) : Prop :=
  seg h None (H0 :: remaining b) None ∧ info h = inf ∧ length b = nb.

(** Position [p] of what is left: only calls come before it, and none of them
    can go first. *)
Definition refuted (b : bitset) (st : St) (p : nat) : Prop :=
  ∀ q e, (q < p)%nat → remaining b !! q = Some e →
    ∃ m i o, mt e = Some m ∧ vl e = Some (inl i) ∧ vl m = Some (inr o) ∧
      (let '(ok, st') := step st i o in
       ok = true → ¬ Lin (filter (λ l, idn l ≠ idn e) (remaining b)) st').

(** The number of passes that exploring a list of [2 * k] nodes may take is at
    most [2 * k * work k]. *)
Fixpoint work (k : nat) : nat :=
  match k with O => 1 | S k => 3 + (2 * k + 1) * work k end.
Definition left_work (b : bitset) (p : nat) : nat :=
  let len := length (remaining b) in (len - p) * work (Nat.div2 len) + 1.

(** The stack of linearized calls below a partial linearization, with its
    ancestors and the work their frames have left. *)
Inductive stack : list (nat * St) → list (node In Out) → bitset → St →
    list (bitset * St) → nat → Prop :=
  | stack_nil h b st : remaining b = L0 → st = init → stack [] h b st [] 0
  | stack_cons calls h b st e m i o h0 b0 st0 p0 path w :
      remaining b0 !! p0 = Some e → mt e = Some m →
      vl e = Some (inl i) → vl m = Some (inr o) → step st0 i o = (true, st) →
      valid h0 b0 → refuted b0 st0 p0 →
      unlift h e = Some h0 → clear b (idn e) = Some b0 →
      remaining b = filter (λ l, idn l ≠ idn e) (remaining b0) →
      (∀ q, 0 ≤ q → bit b0 q = true → bit b q = true) →
      stack calls h0 b0 st0 path w →
      stack ((e, st0) :: calls) h b st ((b0, st0) :: path) (left_work b0 (S p0) + w).

(** What is in the cache has been refuted, or is on the path. *)
Definition cache_ok (cache : gmap Z (list (bitset * St))) (path : list (bitset * St)) : Prop :=
  ∀ k l b st, cache !! k = Some l → (b, st) ∈ l →
    (b, st) ∈ path ∨ ¬ Lin (remaining b) st.

Definition search_inv (s : Search In Out St) (w : nat) : Prop :=
  ∃ p path w',
    valid (hp s) (linearized s) ∧
    cur s = remaining (linearized s) !! p ∧
    ((p < length (remaining (linearized s)))%nat ∨ remaining (linearized s) = []) ∧
    refuted (linearized s) (state s) p ∧
    stack (calls s) (hp s) (linearized s) (state s) path w' ∧
    cache_ok (cache s) ((linearized s, state s) :: path) ∧
    w = (left_work (linearized s) p + w')%nat.

(** ** Lemmas on the parts of the invariant *)

Lemma node_info h l nd :
  info h = inf → h !! l = Some nd → vl l = nval nd ∧ mt l = match_ nd ∧ idn l = nid nd.
Proof.
  intros Hi Hl. unfold vl, mt, idn. rewrite <-Hi. unfold info. rewrite list_lookup_fmap, Hl. done.
Qed.

Lemma refuted_calls b st p e x :
  refuted b st p → remaining b !! p = Some e → before (remaining b) x e → mt x ≠ None.
Proof.
  intros Hr Hp Hb. destruct (proj1 (before_lookup _ p x e (remaining_nodup b) Hp) Hb) as (q & Hq & Hx).
  destruct (Hr q x Hq Hx) as (m & _ & _ & Hm & _). by rewrite Hm.
Qed.

(** At a return, everything is refuted. *)
Lemma refuted_all b st p r :
  refuted b st p → remaining b !! p = Some r → mt r = None → ¬ Lin (remaining b) st.
Proof.
  intros Hr Hp Hm HL. inversion HL as [s0 HL0|L s0 e m i o s' He Hme Hbef Hve Hvm Hstep HL']; subst.
  { by rewrite <-HL0 in Hp. }
  apply list_elem_of_lookup in He as [q Hq].
  destruct (decide (q < p)%nat) as [Hlt|Hge].
  - destruct (Hr q e Hlt Hq) as (m' & i' & o' & Hm' & Hi' & Ho' & Hstep').
    simplify_eq. rewrite Hstep in Hstep'. by apply Hstep'.
  - destruct (decide (q = p)) as [->|Hne]; [by simplify_eq|].
    apply (Hbef r); [|done]. apply (before_lookup _ q); [apply remaining_nodup|done|].
    exists p. split; [lia|done].
Qed.

Lemma stack_Lin calls h b st path w :
  stack calls h b st path w → Lin (remaining b) st → Lin L0 init.
Proof.
  induction 1 as [h b st Hb ->|calls h b st e m i o h0 b0 st0 p0 path w Hp Hm Hi Ho Hstep Hv Hr
    Hu Hc Hrem Hmono Hs IH]; intros HL; [by rewrite <-Hb|].
  apply IH. eapply (Lin_step _ _ e m i o st); try done.
  - by eapply list_elem_of_lookup_2.
  - intros x. by eapply refuted_calls.
  - by rewrite <-Hrem.
Qed.

Lemma stack_path calls h b st path w b1 st1 :
  stack calls h b st path w → (b1, st1) ∈ path → ∀ q, 0 ≤ q → bit b1 q = true → bit b q = true.
Proof.
  induction 1 as [|calls h b st e m i o h0 b0 st0 p0 path w Hp Hm Hi Ho Hstep Hv Hr
    Hu Hc Hrem Hmono Hs IH]; intros Hin q Hq Hb; [set_solver|].
  apply elem_of_cons in Hin as [E|Hin]; [simplify_eq; by apply Hmono|].
  apply Hmono; [done|]. by apply IH.
Qed.

(** A call always has something after it. *)
Lemma call_not_last b p e m :
  remaining b !! p = Some e → mt e = Some m → (S p < length (remaining b))%nat.
Proof.
  intros Hp Hm. pose proof (list_elem_of_lookup_2 _ _ _ Hp) as He.
  pose proof He as [Hb He0]%remaining_elem.
  destruct (ho_call _ _ Hh e m He0 Hm) as (Hbef & _ & Hid & _).
  assert (before (remaining b) e m) as Hbr.
  { apply before_filter. split_and!; [done|done|congruence]. }
  destruct (before_elem _ _ _ Hbr) as [_ Hmr]. apply list_elem_of_lookup in Hmr as [j Hj].
  destruct (proj1 (before_lookup _ j e m (remaining_nodup b) Hj) Hbr) as (q & Hq & Hqe).
  assert (q = p) as -> by exact (NoDup_lookup _ _ _ _ (remaining_nodup b) Hqe Hp).
  apply lookup_lt_Some in Hj. lia.
Qed.

Lemma refuted_step b st p e m i o :
  refuted b st p → remaining b !! p = Some e → mt e = Some m →
  vl e = Some (inl i) → vl m = Some (inr o) →
  (let '(ok, st') := step st i o in
   ok = true → ¬ Lin (filter (λ l, idn l ≠ idn e) (remaining b)) st') →
  refuted b st (S p).
Proof.
  intros Hr Hp Hm Hi Ho Hs q e' Hq He'. destruct (decide (q = p)) as [->|]; [|apply (Hr q); [lia|done]].
  simplify_eq. by exists m, i, o.
Qed.

Lemma left_work_step b p :
  (p < length (remaining b))%nat → (left_work b (S p) < left_work b p)%nat.
Proof.
  intros Hp. unfold left_work.
  assert (0 < work (Nat.div2 (length (remaining b))))%nat by (destruct (Nat.div2 _); simpl; lia). nia.
Qed.

Lemma left_work_push b b' p :
  (length (remaining b) = 2 + length (remaining b'))%nat → (p < length (remaining b))%nat →
  (left_work b' 0 + left_work b (S p) < left_work b p)%nat.
Proof.
  intros Hl Hp. unfold left_work. rewrite Hl. simpl Nat.div2.
  set (len := length (remaining b')) in *. rewrite Hl in Hp.
  cbn [work]. set (k := Nat.div2 len).
  assert (len ≤ 2 * k + 1)%nat by (pose proof (Nat.div2_odd len); destruct (Nat.odd len); simpl in *; lia).
  assert (0 < work k)%nat by (destruct k; simpl; lia). nia.
Qed.

Lemma inside_id b l : length b = nb → l ∈ L0 → inside b (idn l).
Proof.
  intros Hb Hl. pose proof (ho_range _ _ Hh l Hl). unfold inside, zlen. rewrite Hb. lia.
Qed.

(** ** One pass of the loop *)

Lemma cache_ok_skip cache b st e b' st' path :
  cache_ok cache ((b, st) :: path) → bit b (idn e) = false → 0 ≤ idn e →
  (∀ b1 st1, (b1, st1) ∈ path → ∀ q, 0 ≤ q → bit b1 q = true → bit b q = true) →
  bit b' (idn e) = true → cacheContains equal cache (b', st') = true → ¬ Lin (remaining b') st'.
Proof.
  intros Hc Hbe Hid Hmono Hb' Hin. unfold cacheContains in Hin. simpl in Hin.
  apply existsb_exists in Hin as ([b1 st1] & Hin & [Heq Hst]%andb_prop). simpl in *.
  apply equals_spec in Heq as <-. apply equal_sound in Hst as <-.
  destruct (cache !! hash b') as [l|] eqn:El; simpl in Hin; [|done].
  apply list_elem_of_In in Hin. destruct (Hc _ _ _ _ El Hin) as [Hpath|]; [|done].
  apply elem_of_cons in Hpath as [E|Hpath]; [simplify_eq; congruence|].
  rewrite (Hmono _ _ Hpath (idn e) Hid Hb') in Hbe. done.
Qed.

Lemma cache_ok_add cache path b st k :
  cache_ok cache path →
  cache_ok (<[k := default [] (cache !! k) ++ [(b, st)]]> cache) ((b, st) :: path).
Proof.
  intros Hc k' l b1 st1 Hl Hin. destruct (decide (k' = k)) as [->|Hne].
  - rewrite lookup_insert_eq in Hl. simplify_eq. apply elem_of_app in Hin as [Hin|Hin]; [|set_solver].
    destruct (cache !! k) as [l|] eqn:El; simpl in Hin; [|set_solver].
    destruct (Hc _ _ _ _ El Hin); [left; set_solver|by right].
  - rewrite lookup_insert_ne in Hl by done. destruct (Hc _ _ _ _ Hl Hin); [left; set_solver|by right].
Qed.

(** Leaving a partial linearization that has been refuted. *)
Lemma cache_ok_pop cache b st path :
  cache_ok cache ((b, st) :: path) → ¬ Lin (remaining b) st → cache_ok cache path.
Proof.
  intros Hc HL k l b1 st1 Hl Hin. destruct (Hc _ _ _ _ Hl Hin) as [Hp|]; [|by right].
  apply elem_of_cons in Hp as [E|]; [simplify_eq; by right|by left].
Qed.

Lemma valid_head h b : valid h b → ∃ nd, h !! H0 = Some nd ∧ next nd = remaining b !! 0%nat.
Proof.
  intros (Hs & _ & _). destruct (seg_next h None (H0 :: remaining b) H0 0) as (nd & Hnd & Hn); eauto.
Qed.

Lemma valid_node h b p e :
  valid h b → remaining b !! p = Some e →
  ∃ nd, h !! e = Some nd ∧ next nd = remaining b !! S p ∧
    nval nd = vl e ∧ match_ nd = mt e ∧ nid nd = idn e.
Proof.
  intros (Hs & Hi & _) Hp.
  destruct (seg_next h None (H0 :: remaining b) e (S p)) as (nd & Hnd & Hn); [done|done|].
  exists nd. destruct (node_info h e nd Hi Hnd) as (? & ? & ?). done.
Qed.

Lemma push_ok s p path w' e m i o st' b' :
  valid (hp s) (linearized s) → remaining (linearized s) !! p = Some e → mt e = Some m →
  vl e = Some (inl i) → vl m = Some (inr o) → step (state s) i o = (true, st') →
  refuted (linearized s) (state s) p →
  stack (calls s) (hp s) (linearized s) (state s) path w' →
  cache_ok (cache s) ((linearized s, state s) :: path) →
  set (linearized s) (idn e) = Some b' →
  ∃ h hd, lift (hp s) e = Some h ∧ h !! H0 = Some hd ∧
    let k := hash b' in
    ∃ w'', (w'' < left_work (linearized s) p + w')%nat ∧
      search_inv (mkSearch h (next hd) st' b'
        (<[k := default [] (cache s !! k) ++ [(b', st')]]> (cache s)) ((e, state s) :: calls s)) w''.
Proof.
  intros Hv Hp Hm Hi Ho Hstep Hr Hst Hc Hset. set (b := linearized s) in *.
  pose proof (list_elem_of_lookup_2 _ _ _ Hp) as He. pose proof He as [Hbe He0]%remaining_elem.
  pose proof (lookup_lt_Some _ _ _ Hp) as Hlt.
  destruct Hv as (Hs & Hinf & Hlen). pose proof (inside_id b e Hlen He0) as Hin.
  destruct (set_spec b (idn e) Hin) as (b'' & Hset' & Hlen' & Hbit). simplify_eq.
  destruct (remaining_split b e m He Hm) as (A & B & C & HL & HL').
  destruct (valid_node (hp s) b p e) as (nd & Hnd & _ & _ & Hmt & _); [done|done|].
  rewrite Hm in Hmt. pose proof (remaining_set b b' (idn e) Hbit) as Hrem.
  assert (Hnd' : NoDup (H0 :: A ++ e :: B ++ m :: C)).
  { rewrite <-HL. constructor; [|apply remaining_nodup]. intros [_ ?]%remaining_elem. done. }
  assert (Hs' : seg (hp s) None (H0 :: A ++ e :: B ++ m :: C) None) by (by rewrite <-HL).
  destruct (lift_spec (hp s) None H0 A e B m C nd Hnd' Hs' Hnd Hmt) as (h & Hl & Hsh & Hih & Hul).
  assert (Hv' : valid h b').
  { split_and!; [by rewrite Hrem, HL'|by rewrite Hih|by rewrite Hlen']. }
  destruct (valid_head h b' Hv') as (hd & Hhd & Hnext). exists h, hd. split_and!; [done|done|].
  simpl. assert (Hlens : (length (remaining b) = 2 + length (remaining b'))%nat).
  { rewrite Hrem, HL', HL. rewrite !length_app. simpl. rewrite length_app. simpl. lia. }
  pose proof (left_work_push b b' p Hlens Hlt) as Hw.
  exists (left_work b' 0 + (left_work b (S p) + w'))%nat. split; [lia|].
  exists 0%nat, ((b, state s) :: path), (left_work b (S p) + w')%nat. split_and!; simpl.
  - done.
  - done.
  - destruct (remaining b'); [by right|left; simpl; lia].
  - intros q x Hq. lia.
  - eapply (stack_cons (calls s) h b' st' e m i o (hp s) b (state s) p path w'); try done.
    + eapply clear_set; done.
    + intros q Hq Hb. rewrite Hbit by done. by case_decide.
  - by apply cache_ok_add.
  - done.
Qed.

Lemma pop_ok s p path w' r e st0 calls' :
  valid (hp s) (linearized s) → remaining (linearized s) !! p = Some r → mt r = None →
  refuted (linearized s) (state s) p →
  stack (calls s) (hp s) (linearized s) (state s) path w' →
  cache_ok (cache s) ((linearized s, state s) :: path) →
  calls s = (e, st0) :: calls' →
  ∃ nd h b nd', hp s !! e = Some nd ∧ clear (linearized s) (nid nd) = Some b ∧
    unlift (hp s) e = Some h ∧ h !! e = Some nd' ∧
    ∃ w'', (w'' < left_work (linearized s) p + w')%nat ∧
      search_inv (mkSearch h (next nd') st0 b (cache s) calls') w''.
Proof.
  intros Hv Hp Hm Hr Hst Hc Hcalls.
  pose proof (refuted_all _ _ _ _ Hr Hp Hm) as HnL.
  rewrite Hcalls in Hst. inversion Hst as [|? ? ? ? ? m i o h0 b0 ? p0 path0 w0 Hp0 Hm0 Hi0 Ho0 Hstep0
    Hv0 Hr0 Hu0 Hc0 Hrem0 Hmono0 Hst0]; subst.
  destruct (valid_node h0 b0 p0 e Hv0 Hp0) as (nd' & Hnd' & Hnext & _ & _ & _).
  destruct Hv as (Hs & Hinf & Hlen). destruct Hv0 as (Hs0 & Hinf0 & Hlen0).
  destruct (info_lookup h0 (hp s) e nd') as (nd & Hnd & _ & _ & Hid); [congruence|done|].
  destruct (node_info _ _ _ Hinf Hnd) as (_ & _ & Hidn).
  exists nd, h0, b0, nd'. rewrite <-Hidn. split_and!; [done..|].
  assert (0 < left_work (linearized s) p)%nat by (unfold left_work; rewrite Nat.add_1_r; apply Nat.lt_0_succ).
  exists (left_work b0 (S p0) + w0)%nat. split; [lia|].
  exists (S p0), path0, w0. split_and!; simpl; try done.
  - left. by eapply call_not_last.
  - eapply refuted_step; try done. rewrite Hstep0. intros _. by rewrite <-Hrem0.
  - by eapply cache_ok_pop.
Qed.

(** The two answers are right, a pass never panics, and it uses up work. *)
Lemma iterate_ok s w kill :
  search_inv s w →
  match iterate step equal H0 kill s with
  | Crash => False
  | Answer true => Lin L0 init
  | Answer false => kill = true ∨ ¬ Lin L0 init
  | Continue s' => ∃ w', (w' < w)%nat ∧ search_inv s' w'
  end.
Proof.
  intros (p & path & w' & Hv & Hcur & Hpos & Hr & Hst & Hc & ->).
  destruct (valid_head _ _ Hv) as (hd & Hhd & Hnext). unfold iterate. rewrite Hhd, Hnext.
  destruct (remaining (linearized s) !! 0%nat) as [l0|] eqn:E0.
  2:{ eapply stack_Lin; [done|]. destruct (remaining (linearized s)); [constructor|done]. }
  destruct kill; [by left|].
  destruct Hpos as [Hpos|Hnil]; [|by rewrite Hnil in E0].
  destruct (lookup_lt_is_Some_2 _ _ Hpos) as [e He].
  destruct (valid_node _ _ _ _ Hv He) as (nd & Hnd & Hnx & Hval & Hmt & Hid).
  rewrite Hcur, He. simpl. rewrite Hnd. rewrite Hmt.
  pose proof (list_elem_of_lookup_2 _ _ _ He) as Her. pose proof Her as [Hbe He0]%remaining_elem.
  destruct (mt e) as [m|] eqn:Em.
  - destruct (ho_call _ _ Hh e m He0 Em) as (Hbef & _ & Hidm & i & o & Hi & Ho).
    assert (Hml : m ∈ remaining (linearized s)).
    { apply remaining_elem. split; [congruence|]. by eapply before_elem. }
    apply list_elem_of_lookup in Hml as [pm Hpm].
    destruct (valid_node _ _ _ _ Hv Hpm) as (ndm & Hndm & _ & Hvalm & _ & _).
    rewrite Hval, Hi, Hndm. simpl. rewrite Hvalm, Ho.
    destruct (step (state s) i o) as [ok st'] eqn:Hstep.
    assert (Hskip : (ok = true → ¬ Lin (filter (λ l, idn l ≠ idn e) (remaining (linearized s))) st') →
      ∃ w'', (w'' < left_work (linearized s) p + w')%nat ∧
        search_inv (mkSearch (hp s) (next nd) (state s) (linearized s) (cache s) (calls s)) w'').
    { intros Hno. exists (left_work (linearized s) (S p) + w')%nat.
      split; [pose proof (left_work_step _ _ Hpos); lia|].
      exists (S p), path, w'. split_and!; simpl; try done.
      - left. by eapply call_not_last.
      - eapply refuted_step; try done. by rewrite Hstep. }
    destruct ok; [|by apply Hskip].
    assert (Hin : inside (linearized s) (idn e)) by (apply inside_id; [apply Hv|done]).
    destruct (set_spec (linearized s) (idn e) Hin) as (b' & Hset & Hlen & Hbit).
    rewrite Hid. unfold clone. rewrite Hset. simpl.
    destruct (cacheContains equal (cache s) (b', st')) eqn:Ecache; simpl.
    + apply Hskip. intros _. rewrite <-(remaining_set _ _ _ Hbit).
      eapply (cache_ok_skip _ _ _ e); try done; [apply Hin| |].
      * intros b1 st1 Hb1. by eapply stack_path.
      * rewrite Hbit by apply Hin. by rewrite decide_True.
    + destruct (push_ok s p path w' e m i o st' b') as (h & hd' & Hl & Hhd' & w'' & Hw & Hinv);
        [done..|]. rewrite Hl. simpl. rewrite Hhd'. simpl. eauto.
  - destruct (calls s) as [|[e0 st0] calls'] eqn:Ecalls.
    + right. intros HL. inversion Hst as [? ? ? HL0 Hst0|]; subst.
      pose proof (refuted_all _ _ _ _ Hr He Em) as Hno. rewrite HL0, Hst0 in Hno. done.
    + rewrite <-Ecalls in Hst.
      destruct (pop_ok s p path w' e e0 st0 calls') as (nd0 & h & b & nd' & Hn & Hcl & Hu & Hn' & w'' & Hw & Hinv);
        [done..|]. rewrite Hn. simpl. rewrite Hcl. simpl. rewrite Hu. simpl. rewrite Hn'. simpl. eauto.
Qed.

(** With enough fuel the loop ends with the right answer; a pass that reads
    [kill] may only turn the answer into false. *)
Lemma checkLoop_ok s w kill k fuel :
  search_inv s w → (w < fuel)%nat →
  ∃ a, checkLoop step equal H0 kill k fuel s = Done a ∧
    (a = true → Lin L0 init) ∧ ((∀ j, kill j = false) → a = false → ¬ Lin L0 init).
Proof.
  revert s w k. induction fuel as [|fuel IH]; intros s w k Hinv Hw; [lia|].
  simpl. pose proof (iterate_ok s w (kill k) Hinv) as Hit.
  destruct (iterate step equal H0 (kill k) s) as [s'|b|]; [|destruct b|done].
  - destruct Hit as (w' & Hw' & Hinv'). by apply (IH s' w'); [|lia].
  - exists true. by split_and!.
  - exists false. split_and!; [done|done|]. intros Hk _. destruct Hit as [Hkk|]; [|done].
    by rewrite Hk in Hkk.
Qed.
End Search.
