(* ===== verification/LinOrder.v ===== *)
(** * Partial linearizations and orders of operations

    [Lin] of [LinSearch] is what the search decides; here it is shown to be
    linearizability: an order of the operations that the model accepts and that
    puts an operation before another whenever it returned before the other was
    called. *)

From S2P Require Import Prelude Bitset Linearizability LinHeap LinSearch.

Section Order.
Context {In Out St : Type} (step : St → In → Out → bool * St).
Context (inf : list (option (In + Out) * option nat * Z)).
Context (L0 : list nat) (n : Z) (Hh : history_ok inf L0 n).
Notation vl := (vl inf). Notation mt := (mt inf). Notation idn := (idn inf).
Notation Lin := (Lin step inf).

Definition is_call (l : nat) : Prop := mt l ≠ None.
#[local] Instance is_call_dec l : Decision (is_call l).
Proof. unfold is_call. solve_decision. Defined.

(** The model accepts the operations [π] from state [s], in this order. *)
Fixpoint legal (s : St) (π : list Z) : Prop :=
  match π with
  | [] => True
  | i :: π => ∃ e m inp out s', e ∈ L0 ∧ mt e = Some m ∧ idn e = i ∧
      vl e = Some (inl inp) ∧ vl m = Some (inr out) ∧ step s inp out = (true, s') ∧ legal s' π
  end.

Definition linearization (L : list nat) (s : St) (π : list Z) : Prop :=
  π ≡ₚ idn <$> filter is_call L ∧
  (∀ e e' m, e ∈ L → e' ∈ L → mt e = Some m → is_call e' → before L m e' →
     before π (idn e) (idn e')) ∧
  legal s π.

(** The nodes of the operations in [P]. *)
Definition part (P : Z → bool) : list nat := filter (λ l, P (idn l) = true) L0.

Lemma part_elem P l : l ∈ part P ↔ P (idn l) = true ∧ l ∈ L0.
Proof. unfold part. by rewrite list_elem_of_filter. Qed.

Lemma part_nodup P : NoDup (part P).
Proof. apply NoDup_filter, Hh. Qed.

Definition without (P : Z → bool) (i : Z) : Z → bool := λ j, P j && negb (bool_decide (j = i)).

Lemma part_without P i : filter (λ l, idn l ≠ i) (part P) = part (without P i).
Proof.
  unfold part. rewrite list_filter_filter. apply filter_ext_in. intros l _. unfold without.
  rewrite andb_true_iff, negb_true_iff, bool_decide_eq_false. tauto.
Qed.

Lemma calls_split P e :
  e ∈ part P → is_call e →
  filter is_call (part P) ≡ₚ e :: filter is_call (part (without P (idn e))).
Proof.
  intros He Hc. pose proof He as [HPe He0]%part_elem.
  apply NoDup_Permutation.
  - apply NoDup_filter, part_nodup.
  - constructor; [|apply NoDup_filter, part_nodup].
    intros [_ Hin]%list_elem_of_filter. apply part_elem in Hin as [Hw _]. unfold without in Hw.
    rewrite bool_decide_eq_true_2, andb_false_r in Hw by done. done.
  - intros l. rewrite elem_of_cons, !list_elem_of_filter, !part_elem. unfold without.
    rewrite andb_true_iff, negb_true_iff, bool_decide_eq_false. split.
    + intros (Hcl & HP & Hl). destruct (decide (idn l = idn e)) as [E|E]; [left|right; done].
      by apply (ho_id _ _ _ Hh).
    + intros [->|(? & [? _] & ?)]; done.
Qed.

(** The return of a call of [part P] is in [part P], and conversely. *)
Lemma part_return P e m : e ∈ part P → mt e = Some m → m ∈ part P ∧ before (part P) e m ∧ mt m = None.
Proof.
  intros [HP He]%part_elem Hm. destruct (ho_call _ _ _ Hh e m He Hm) as (Hb & Hmm & Hid & _).
  assert (before (part P) e m) as Hb'.
  { apply before_filter. split_and!; [done|done|congruence]. }
  split_and!; [by eapply before_elem|done|done].
Qed.

Lemma part_call P r : r ∈ part P → mt r = None → ∃ e, e ∈ part P ∧ mt e = Some r.
Proof.
  intros [HP Hr]%part_elem Hm. destruct (ho_return _ _ _ Hh r Hr Hm) as (e & He & Hme).
  destruct (ho_call _ _ _ Hh e r He Hme) as (_ & _ & Hid & _).
  exists e. split; [|done]. apply part_elem. split; [congruence|done].
Qed.

Lemma before_asym (L : list nat) x y : NoDup L → before L x y → ¬ before L y x.
Proof.
  induction 1 as [|z L Hz Hnd IH]; simpl; [done|].
  intros [[-> Hy]|Hb] [[-> Hx]|Hb'].
  - done.
  - apply before_elem in Hb' as [_ ?]. done.
  - apply before_elem in Hb as [_ ?]. done.
  - by apply IH.
Qed.

Lemma before_without P i x y :
  before (part P) x y → idn x ≠ i → idn y ≠ i → before (part (without P i)) x y.
Proof. intros Hb Hx Hy. rewrite <-part_without. by apply before_filter. Qed.

Lemma Lin_linearization P s : Lin (part P) s → ∃ π, linearization (part P) s π.
Proof.
  intros HL. remember (part P) as L eqn:EL. revert P EL.
  induction HL as [s|L s e m i o s' He Hm Hbef Hi Ho Hstep HL IH]; intros P EL.
  { exists []. split_and!; [done| |done]. intros e e' m He. set_solver. }
  subst L.
  destruct (IH (without P (idn e)) (part_without _ _)) as (π & Hperm & Hresp & Hlegal).
  rewrite part_without in *. assert (is_call e) as Hce by (unfold is_call; congruence).
  pose proof He as [HPe He0]%part_elem.
  assert (Hother : ∀ x, x ∈ part P → is_call x → x ≠ e → x ∈ part (without P (idn e)) ∧ idn x ≠ idn e).
  { intros x Hx Hcx Hne. assert (idn x ≠ idn e) as Hid.
    { intros E. apply Hne. apply part_elem in Hx as [_ ?]. by apply (ho_id _ _ _ Hh). }
    split; [|done]. rewrite <-part_without. by apply list_elem_of_filter. }
  exists (idn e :: π). split_and!.
  - by rewrite (calls_split P e), fmap_cons, Hperm.
  - intros e1 e2 m1 He1 He2 Hm1 Hc2 Hb. assert (is_call e1) as Hc1 by (unfold is_call; congruence).
    destruct (decide (e2 = e)) as [->|Hne2].
    { destruct (part_return P e1 m1 He1 Hm1) as (_ & _ & Hmm). by destruct (Hbef m1 Hb). }
    destruct (Hother e2 He2 Hc2 Hne2) as [Hin2 Hid2].
    destruct (decide (e1 = e)) as [->|Hne1].
    + left. split; [done|]. rewrite Hperm. apply list_elem_of_fmap_2. by apply list_elem_of_filter.
    + destruct (Hother e1 He1 Hc1 Hne1) as [Hin1 Hid1]. right.
      apply (Hresp e1 e2 m1); try done. apply before_without; [done| |done].
      pose proof He1 as [_ He10]%part_elem.
      destruct (ho_call _ _ _ Hh e1 m1 He10 Hm1) as (_ & _ & <- & _). done.
  - by exists e, m, i, o, s'.
Qed.

Lemma linearization_Lin P s π : linearization (part P) s π → Lin (part P) s.
Proof.
  revert P s. induction π as [|i π IH]; intros P s (Hperm & Hresp & Hlegal).
  - destruct (part P) as [|l L] eqn:EL; [constructor|]. exfalso.
    assert (∃ e, e ∈ part P ∧ is_call e) as (e & He & Hc).
    { destruct (mt l) as [m|] eqn:Hm.
      - exists l. rewrite EL. split; [set_solver|]. unfold is_call. congruence.
      - destruct (part_call P l) as (e & He & Hme); [rewrite EL; set_solver|done|].
        exists e. split; [done|]. unfold is_call. congruence. }
    rewrite EL in He. symmetry in Hperm. apply Permutation_nil_r in Hperm.
    assert (idn e ∈ idn <$> filter is_call (l :: L)) as Hin.
    { apply list_elem_of_fmap_2. by apply list_elem_of_filter. }
    rewrite Hperm in Hin. set_solver.
  - destruct Hlegal as (e & m & inp & out & s' & He0 & Hm & Hid & Hi & Ho & Hstep & Hlegal).
    assert (is_call e) as Hce by (unfold is_call; congruence).
    assert (He : e ∈ part P).
    { assert (i ∈ idn <$> filter is_call (part P)) as Hin by (rewrite <-Hperm; set_solver).
      apply list_elem_of_fmap in Hin as (e1 & Hid1 & [Hc1 He1]%list_elem_of_filter).
      pose proof He1 as [_ He10]%part_elem.
      assert (e1 = e) as ->; [|done]. apply (ho_id _ _ _ Hh); [done..|congruence]. }
    rewrite (calls_split P e He Hce), fmap_cons, Hid in Hperm. apply Permutation_cons_inv in Hperm.
    assert (Hnot : i ∉ π).
    { rewrite Hperm. intros (x & Hx & [_ Hin]%list_elem_of_filter)%list_elem_of_fmap.
      apply part_elem in Hin as [Hw _]. unfold without in Hw.
      rewrite bool_decide_eq_true_2, andb_false_r in Hw by congruence. done. }
    apply (Lin_step _ _ (part P) s e m inp out s'); try done.
    + intros x Hb Hmx. pose proof (before_elem _ _ _ Hb) as [Hx _].
      destruct (part_call P x Hx Hmx) as (e1 & He1 & Hm1).
      destruct (Hresp e1 e x He1 He Hm1 Hce Hb) as [[_ Hin]|Hin].
      * rewrite Hid in Hin. done.
      * apply before_elem in Hin as [_ Hin]. rewrite Hid in Hin. done.
    + rewrite part_without. apply IH. rewrite <-Hid in Hperm. split_and!; [done| |done].
      intros e1 e2 m1 He1 He2 Hm1 Hc2 Hb. rewrite <-part_without in He1, He2, Hb.
      apply list_elem_of_filter in He1 as [Hi1 He1]. apply list_elem_of_filter in He2 as [Hi2 He2].
      apply before_filter in Hb as (Hb & _ & _).
      destruct (Hresp e1 e2 m1 He1 He2 Hm1 Hc2 Hb) as [[E _]|Hin]; [|done]. congruence.
Qed.

Lemma part_all : part (λ _, true) = L0.
Proof.
  unfold part. generalize L0. clear. intros L. induction L as [|l L IH]; [done|].
  by rewrite filter_cons_True, IH.
Qed.

Lemma Lin_iff s : Lin L0 s ↔ ∃ π, linearization L0 s π.
Proof.
  rewrite <-part_all. split; [apply Lin_linearization|]. intros [π H]. by eapply linearization_Lin.
Qed.
End Order.
