(* ===== verification/LinEntries.v ===== *)
(** * From entries to the linked list

    makeLinkedEntries builds a well-formed history for the search: the nodes
    are linked in the order of the entries, every call points to its return and
    every operation has an id of its own. *)

From S2P Require Import Prelude Bitset Linearizability LinHeap LinSearch.

Section Entries.
Context {In Out : Type}.
Notation entry := (entry In Out).
Notation node := (node In Out).
Implicit Types (h : list node) (es don : list entry).

(** Entries in which the operations 0 to [n - 1] have one call and one return
    each, in this order. *)
Record entries_ok es (n : Z) : Prop := {
  eo_nodup : NoDup ((λ x, (kind x, id x)) <$> es);
  eo_pair : ∀ i, 0 ≤ i < n → ∃ c r inp out, before es c r ∧
    kind c = callEntry ∧ id c = i ∧ value c = inl inp ∧
    kind r = returnEntry ∧ id r = i ∧ value r = inr out;
  eo_range : ∀ x, x ∈ es → 0 ≤ id x < n;
  eo_length : zlen es = 2 * n;
}.

(** ** Building the list *)

Lemma info_setNext h l x h' : setNext h l x = Some h' → info h' = info h.
Proof. intros (nd & Hnd & E)%obind_Some. simplify_eq. by eapply info_insert. Qed.
Lemma info_setPrev h l x h' : setPrev h l x = Some h' → info h' = info h.
Proof. intros (nd & Hnd & E)%obind_Some. simplify_eq. by eapply info_insert. Qed.

Lemma info_length h h' : info h' = info h → length h' = length h.
Proof. intros E%(f_equal length). unfold info in E. by rewrite !length_fmap in E. Qed.

(** A new node becomes the first of the list. *)
Lemma insert_front h ls nd :
  seg h None ls None → Forall (λ l, (l < length h)%nat) ls → NoDup ls →
  next nd = None → prev nd = None →
  ∃ h', insertBefore (h ++ [nd]) (length h) (hd ls None) = Some h' ∧
    seg h' None (length h :: ls) None ∧ info h' = info (h ++ [nd]).
Proof.
  intros Hs Hlt Hnd Hnx Hpv.
  assert (Hnew : (h ++ [nd]) !! length h = Some nd) by (by rewrite lookup_app_r, Nat.sub_diag by lia).
  destruct ls as [|mk ls]; simpl hd; unfold insertBefore.
  { exists (h ++ [nd]). split; [done|]. split; [|done]. simpl. split; [|done]. by exists nd. }
  apply Forall_cons in Hlt as [Hmk Hlt]. destruct Hs as [(mnd & Hm & Hmp & Hmn) Hs].
  assert (Hm' : (h ++ [nd]) !! mk = Some mnd) by (by rewrite lookup_app_l by done).
  rewrite Hm'. simpl. rewrite Hmp. unfold setPrev at 1, setNext. rewrite Hm'. simpl.
  set (mnd' := mkNode _ _ _ (next mnd) _). set (h1 := <[mk := mnd']> (h ++ [nd])).
  assert (Hn1 : h1 !! length h = Some nd) by (unfold h1; rewrite list_lookup_insert_ne by lia; done).
  rewrite Hn1. simpl. eexists. split; [done|]. split.
  - cbn [seg]. split; [|split].
    + eexists. rewrite list_lookup_insert_eq; [done|]. by eapply lookup_lt_Some.
    + exists mnd'. rewrite list_lookup_insert_ne by lia. unfold h1.
      rewrite list_lookup_insert_eq; [done|]. by eapply lookup_lt_Some.
    + rewrite Forall_forall in Hlt. apply NoDup_cons in Hnd as [Hmk' _].
      apply seg_insert; [intros ?%Hlt; lia|]. apply seg_insert; [done|].
      clear -Hs Hlt. revert Hs. generalize (Some mk) as p. induction ls as [|l ls IH]; [done|].
      simpl. intros p [(nd' & Hl & ?) Hs]. split; [|apply IH; [set_solver|done]].
      exists nd'. rewrite lookup_app_l; [done|]. by eapply lookup_lt_Some.
  - erewrite info_insert; [|exact Hn1|done]. unfold h1. by eapply info_insert.
Qed.

(** What the nodes of the entries done so far hold. *)
Definition nodes_ok don h : Prop :=
  length h = length don ∧
  ∀ l x, don !! l = Some x → ∃ nd, h !! l = Some nd ∧ nval nd = Some (value x) ∧ nid nd = id x ∧
    (kind x = returnEntry → match_ nd = None) ∧
    (kind x = callEntry → ∀ l', match_ nd = Some l' ↔ (l' < l)%nat ∧
       ∃ y, don !! l' = Some y ∧ kind y = returnEntry ∧ id y = id x).

Definition map_ok don (m : gmap Z nat) : Prop :=
  ∀ i l, m !! i = Some l ↔ ∃ x, don !! l = Some x ∧ kind x = returnEntry ∧ id x = i.

Lemma nodes_ok_snoc don h h' x nd :
  nodes_ok don h → info h' = info (h ++ [nd]) →
  nval nd = Some (value x) → nid nd = id x →
  (kind x = returnEntry → match_ nd = None) →
  (kind x = callEntry → ∀ l', match_ nd = Some l' ↔
     ∃ y, don !! l' = Some y ∧ kind y = returnEntry ∧ id y = id x) →
  nodes_ok (don ++ [x]) h'.
Proof.
  intros [Hlen Hn] Hi Hv Hid Hr Hc. split.
  { apply info_length in Hi. rewrite Hi, !length_app. simpl. lia. }
  intros l y Hl. destruct (decide (l < length don)%nat) as [Hlt|Hge].
  - rewrite lookup_app_l in Hl by done. destruct (Hn l y Hl) as (nd0 & Hnd0 & Hv0 & Hid0 & Hr0 & Hc0).
    destruct (info_lookup (h ++ [nd]) h' l nd0 Hi) as (nd1 & Hnd1 & E1 & E2 & E3).
    { rewrite lookup_app_l by lia. done. }
    exists nd1. rewrite E1, E2, E3. split_and!; try done. intros Hk l'. rewrite Hc0 by done.
    split; intros (Hl' & z & Hz & ?); (split; [done|]); exists z; split; try done.
    + rewrite lookup_app_l by lia. done.
    + rewrite lookup_app_l in Hz by lia. done.
  - apply lookup_app_Some in Hl as [Hl|[_ Hl]]; [apply lookup_lt_Some in Hl; lia|].
    apply list_lookup_singleton_Some in Hl as [Hl ->].
    assert (l = length h) as -> by lia.
    destruct (info_lookup (h ++ [nd]) h' (length h) nd Hi) as (nd1 & Hnd1 & E1 & E2 & E3).
    { by rewrite lookup_app_r, Nat.sub_diag by lia. }
    exists nd1. rewrite E1, E2, E3. split_and!; try done. intros Hk l'. rewrite Hc by done.
    split.
    + intros (z & Hz & ?). pose proof (lookup_lt_Some _ _ _ Hz). split; [lia|].
      exists z. rewrite lookup_app_l by lia. done.
    + intros (Hl' & z & Hz & ?). exists z. rewrite lookup_app_l in Hz by lia. done.
Qed.

(** The pointers of the first [k] nodes, the last one first. *)
Fixpoint locs (k : nat) : list nat := match k with O => [] | S k => k :: locs k end.

Lemma locs_elem k l : l ∈ locs k ↔ (l < k)%nat.
Proof.
  induction k as [|k IH]; simpl; [split; [set_solver|lia]|]. rewrite elem_of_cons, IH. lia.
Qed.

Lemma locs_nodup k : NoDup (locs k).
Proof. induction k; simpl; constructor; [|done]. rewrite locs_elem. lia. Qed.

Lemma locs_length k : length (locs k) = k.
Proof. induction k; simpl; lia. Qed.

Lemma locs_before k x y : before (locs k) x y ↔ (y < x < k)%nat.
Proof.
  induction k as [|k IH]; simpl; [lia|]. rewrite IH, locs_elem. lia.
Qed.

Definition keys es : list (entryKind * Z) := (λ x, (kind x, id x)) <$> es.

Lemma keys_inj es l l' x x' :
  NoDup (keys es) → es !! l = Some x → es !! l' = Some x' → kind x = kind x' → id x = id x' → l = l'.
Proof.
  intros Hnd Hx Hx' Hk Hi. eapply NoDup_lookup; [exact Hnd|..];
    unfold keys; rewrite list_lookup_fmap; [rewrite Hx|rewrite Hx']; simpl; [done|].
  by rewrite Hk, Hi.
Qed.

Lemma map_ok_return don m x :
  map_ok don m → kind x = returnEntry → NoDup (keys (don ++ [x])) →
  map_ok (don ++ [x]) (<[id x := length don]> m).
Proof.
  intros Hm Hx Hnd i l.
  assert (Hlast : (don ++ [x]) !! length don = Some x) by (by rewrite lookup_app_r, Nat.sub_diag by lia).
  destruct (decide (i = id x)) as [->|Hne].
  - rewrite lookup_insert_eq. split; [intros [= <-]; eauto|].
    intros (y & Hy & Hky & Hiy). f_equal. by apply (keys_inj _ _ _ _ _ Hnd Hlast Hy); congruence.
  - rewrite lookup_insert_ne by done. etrans; [apply (Hm i l)|]. split; intros (y & Hy & Hk & Hi).
    + exists y. rewrite lookup_app_l by (by eapply lookup_lt_Some). done.
    + exists y. apply lookup_app_Some in Hy as [Hy|[_ Hy]]; [done|].
      apply list_lookup_singleton_Some in Hy as [_ ->]. congruence.
Qed.

Lemma map_ok_call don m x : map_ok don m → kind x = callEntry → map_ok (don ++ [x]) m.
Proof.
  intros Hm Hx i l. etrans; [apply (Hm i l)|]. split; intros (y & Hy & Hk & Hi).
  - exists y. rewrite lookup_app_l by (by eapply lookup_lt_Some). done.
  - exists y. apply lookup_app_Some in Hy as [Hy|[_ Hy]]; [done|].
    apply list_lookup_singleton_Some in Hy as [_ ->]. congruence.
Qed.

Lemma linkLoop_spec rest don h m :
  nodes_ok don h → map_ok don m → seg h None (locs (length don)) None → NoDup (keys (don ++ rest)) →
  ∃ h', linkLoop rest h (hd (locs (length don)) None) m =
      Some (h', hd (locs (length (don ++ rest))) None) ∧
    nodes_ok (don ++ rest) h' ∧ seg h' None (locs (length (don ++ rest))) None.
Proof.
  revert don h m. induction rest as [|x rest IH]; intros don h m Hn Hm Hs Hnd.
  { rewrite app_nil_r. by exists h. }
  replace (don ++ x :: rest) with ((don ++ [x]) ++ rest) in * by (by rewrite <-app_assoc).
  assert (Hnd' : NoDup (keys (don ++ [x]))).
  { unfold keys in *. rewrite fmap_app in Hnd. by apply NoDup_app in Hnd as (? & _ & _). }
  assert (Hlen : length h = length don) by apply Hn.
  assert (Hlt : Forall (λ l, (l < length h)%nat) (locs (length don))).
  { apply Forall_forall. intros l Hl%locs_elem. lia. }
  cbn [linkLoop].
  assert (Hlocs : locs (length (don ++ [x])) = length h :: locs (length don)).
  { rewrite length_app, Nat.add_1_r, Hlen. done. }
  specialize (IH (don ++ [x])). rewrite Hlocs in IH. simpl hd in IH.
  destruct (kind x) eqn:Hk.
  - destruct (insert_front h (locs (length don))
      (mkNode (Some (value x)) (m !! id x) (id x) None None)) as (h1 & -> & Hs1 & Hi1);
      [done|done|apply locs_nodup|done|done|]. simpl.
    apply IH; [|by apply map_ok_call|done|done].
    eapply nodes_ok_snoc; [exact Hn|exact Hi1|done|done|congruence|]. intros _ l'. simpl. apply Hm.
  - destruct (insert_front h (locs (length don))
      (mkNode (Some (value x)) None (id x) None None)) as (h1 & -> & Hs1 & Hi1);
      [done|done|apply locs_nodup|done|done|]. simpl.
    apply IH; [|rewrite Hlen; by apply map_ok_return|done|done].
    eapply nodes_ok_snoc; [exact Hn|exact Hi1|done|done|done|congruence].
Qed.

Lemma makeLinkedEntries_spec es :
  NoDup (keys es) →
  ∃ h, makeLinkedEntries es = Some (h, hd (locs (length es)) None) ∧
    nodes_ok (reverse es) h ∧ seg h None (locs (length es)) None.
Proof.
  intros Hnd. unfold makeLinkedEntries.
  destruct (linkLoop_spec (reverse es) [] [] ∅) as (h & Hl & Hn & Hs).
  - split; [done|]. intros l x Hx. by rewrite lookup_nil in Hx.
  - intros i l. rewrite lookup_empty. split; [done|]. intros (x & Hx & _). by rewrite lookup_nil in Hx.
  - done.
  - simpl. unfold keys in *. by rewrite reverse_Permutation.
  - simpl in *. rewrite length_reverse in *. by exists h.
Qed.

(** ** The history of the search *)

Section History.
Context (es : list entry) (n : Z) (Hes : entries_ok es n).
Context (h : list node) (Hn : nodes_ok (reverse es) h).

(** The two nodes of operation [i]. *)
Lemma operation_nodes i :
  0 ≤ i < n → ∃ lc lr c r inp out, (lr < lc < length es)%nat ∧
    reverse es !! lc = Some c ∧ kind c = callEntry ∧ id c = i ∧ value c = inl inp ∧
    reverse es !! lr = Some r ∧ kind r = returnEntry ∧ id r = i ∧ value r = inr out.
Proof.
  intros Hi. destruct (eo_pair _ _ Hes i Hi) as (c & r & inp & out & Hb & Hkc & Hic & Hvc & Hkr & Hir & Hvr).
  destruct (before_elem _ _ _ Hb) as [_ Hr]. apply list_elem_of_lookup in Hr as [pr Hpr].
  assert (NoDup es) as Hnd by (eapply NoDup_fmap_1, (eo_nodup _ _ Hes)).
  destruct (proj1 (before_lookup _ pr c r Hnd Hpr) Hb) as (pc & Hlt & Hpc).
  pose proof (lookup_lt_Some _ _ _ Hpr).
  exists (length es - S pc)%nat, (length es - S pr)%nat, c, r, inp, out.
  split_and!; try done; try lia; rewrite reverse_lookup by lia; rewrite <-?Hpc, <-?Hpr; f_equal; lia.
Qed.

Lemma rev_keys l l' x x' :
  reverse es !! l = Some x → reverse es !! l' = Some x' → kind x = kind x' → id x = id x' → l = l'.
Proof.
  apply keys_inj. unfold keys. rewrite reverse_Permutation. apply (eo_nodup _ _ Hes).
Qed.

(** A node of the heap [h], of its entry. *)
Lemma entry_node inf l :
  (∀ k nd, h !! k = Some nd → inf !! k = Some (nval nd, match_ nd, nid nd)) → (l < length es)%nat →
  ∃ x, reverse es !! l = Some x ∧ vl inf l = Some (value x) ∧ idn inf l = id x ∧ 0 ≤ id x < n ∧
    (kind x = returnEntry → mt inf l = None) ∧
    (kind x = callEntry → ∃ m y, mt inf l = Some m ∧ (m < l)%nat ∧ reverse es !! m = Some y ∧
       kind y = returnEntry ∧ id y = id x).
Proof.
  intros Hinf Hl. destruct (lookup_lt_is_Some_2 (reverse es) l) as [x Hx]; [by rewrite length_reverse|].
  destruct (proj2 Hn l x Hx) as (nd & Hnd & Hv & Hid & Hr & Hc). specialize (Hinf l nd Hnd).
  assert (Hrange : 0 ≤ id x < n).
  { apply (eo_range _ _ Hes). rewrite <-(reverse_Permutation es). by eapply list_elem_of_lookup_2. }
  exists x. unfold vl, idn, mt. rewrite Hinf. simpl. split_and!; try done; try lia.
  intros Hk. destruct (operation_nodes (id x) Hrange)
    as (lc & lr & c & r & inp & out & Hlt & Hc1 & Hkc & Hic & _ & Hr1 & Hkr & Hir & _).
  assert (lc = l) as -> by (eapply rev_keys; eauto; congruence).
  exists lr, r. split_and!; try done; [|lia]. apply Hc; [done|]. split; [lia|]. eauto.
Qed.

Lemma entries_history inf :
  (∀ k nd, h !! k = Some nd → inf !! k = Some (nval nd, match_ nd, nid nd)) →
  history_ok inf (locs (length es)) n.
Proof.
  intros Hinf.
  assert (Hcall : ∀ l m, (l < length es)%nat → mt inf l = Some m → ∃ x y, reverse es !! l = Some x ∧
    kind x = callEntry ∧ idn inf l = id x ∧ (m < l)%nat ∧ reverse es !! m = Some y ∧
    kind y = returnEntry ∧ id y = id x).
  { intros l m Hl Hm. destruct (entry_node inf l Hinf Hl) as (x & Hx & _ & Hid & _ & Hr & Hc).
    destruct (kind x) eqn:Hk; [|rewrite Hr in Hm; done].
    destruct (Hc eq_refl) as (m' & y & Hm' & Hlt & Hy & Hky & Hiy). simplify_eq. by exists x, y. }
  split.
  - apply locs_nodup.
  - intros e m He%locs_elem Hm. destruct (Hcall e m He Hm) as (x & y & Hx & Hkx & Hid & Hlt & Hy & Hky & Hiy).
    destruct (entry_node inf e Hinf He) as (x' & Hx' & Hvx & _ & Hrange & _). simplify_eq.
    destruct (entry_node inf m Hinf) as (y' & Hy' & Hvy & Hidy & _ & Hmy & _); [lia|]. simplify_eq.
    split_and!; [apply locs_before; lia|by apply Hmy|congruence|].
    destruct (operation_nodes (id x) Hrange)
      as (lc & lr & c & r & inp & out & _ & Hc1 & Hkc & Hic & Hvc & Hr1 & Hkr & Hir & Hvr).
    assert (lc = e) as -> by (eapply rev_keys; eauto; congruence).
    assert (lr = m) as -> by (eapply rev_keys; eauto; congruence).
    simplify_eq. exists inp, out. by rewrite Hvx, Hvy, Hvc, Hvr.
  - intros r Hr%locs_elem Hm. destruct (entry_node inf r Hinf Hr) as (x & Hx & _ & Hid & Hrange & _ & Hc).
    destruct (kind x) eqn:Hk; [destruct (Hc eq_refl) as (m & y & Hm' & _); congruence|].
    destruct (operation_nodes (id x) Hrange)
      as (lc & lr & c & r' & inp & out & Hlt & Hc1 & Hkc & Hic & Hvc & Hr1 & Hkr & Hir & Hvr).
    assert (lr = r) as -> by (eapply rev_keys; eauto; congruence).
    exists lc. split; [apply locs_elem; lia|].
    destruct (entry_node inf lc Hinf) as (c' & Hc' & _ & _ & _ & _ & Hcc); [lia|]. simplify_eq.
    destruct (Hcc Hkc) as (m & y & Hm' & _ & Hy & Hky & Hiy). rewrite Hm'. f_equal.
    eapply rev_keys; eauto; congruence.
  - intros e e' He%locs_elem He'%locs_elem Hm Hm' Hid.
    destruct (mt inf e) as [m|] eqn:Em; [|done]. destruct (mt inf e') as [m'|] eqn:Em'; [|done].
    destruct (Hcall e m He Em) as (x & _ & Hx & Hkx & Hix & _).
    destruct (Hcall e' m' He' Em') as (x' & _ & Hx' & Hkx' & Hix' & _).
    eapply rev_keys; eauto; congruence.
  - intros l Hl%locs_elem. destruct (entry_node inf l Hinf Hl) as (x & _ & _ & -> & ? & _). done.
Qed.
End History.
End Entries.
