(* ===== verification/LinTheorems.v ===== *)
(** * Properties of the linearizability checker

    checkSingle, from the entries that makeEntries or convertEntries produce to
    its answer, decides linearizability: it always ends, never panics, and
    answers true exactly for the histories that can be put in an order the
    model accepts and that respects the times. *)

From S2P Require Import Prelude Bitset Linearizability LinHeap LinSearch LinOrder LinEntries.

Section Single.
Context {In Out St : Type} (step : St → In → Out → bool * St) (equal : St → St → bool) (init : St).
Hypothesis equal_sound : ∀ a b, equal a b = true → a = b.
Notation entry := (entry In Out).
Notation node := (node In Out).

Lemma lengthFrom_spec (h : list node) p ls fuel :
  seg h p ls None → (length ls ≤ fuel)%nat → lengthFrom fuel h (hd ls None) = Some (zlen ls).
Proof.
  revert p fuel. induction ls as [|l ls IH]; intros p fuel Hs Hf; [by destruct fuel|].
  destruct fuel as [|fuel]; simpl in *; [lia|]. destruct Hs as [(nd & Hl & _ & Hn) Hs].
  rewrite Hl. simpl. rewrite Hn, (IH (Some l)) by (done || lia). simpl. f_equal.
  unfold zlen. simpl. lia.
Qed.

(** The number of passes that is always enough for [k] nodes. *)
Definition passes (k : nat) : nat := S (k * work (Nat.div2 k) + 1).

Lemma checkSingle_entries (es : list entry) n :
  entries_ok es n → 0 ≤ n →
  ∃ h root inf, makeLinkedEntries es = Some (h, root) ∧
    nodes_ok (reverse es) h ∧
    (∀ k nd, h !! k = Some nd → inf !! k = Some (nval nd, match_ nd, nid nd)) ∧
    history_ok inf (locs (length es)) n ∧
    ∀ kill fuel, (passes (length es) ≤ fuel)%nat →
      ∃ a, checkSingle step equal init kill fuel h root = Done a ∧
        (a = true → Lin step inf (locs (length es)) init) ∧
        ((∀ j, kill j = false) → a = false → ¬ Lin step inf (locs (length es)) init).
Proof.
  intros Hes Hn. destruct (makeLinkedEntries_spec es (eo_nodup _ _ Hes)) as (h & Hl & Hnodes & Hs).
  assert (Hlen : length h = length es) by (by rewrite (proj1 Hnodes), length_reverse).
  set (ls := locs (length es)) in *.
  set (hdn := mkNode None None (2 ^ 64 - 1) None None : node).
  assert (Hlt : Forall (λ l, (l < length h)%nat) ls).
  { apply Forall_forall. intros l Hl'%locs_elem. lia. }
  destruct (insert_front h ls hdn Hs Hlt (locs_nodup _) eq_refl eq_refl) as (h' & Hi & Hs' & Hinf).
  exists h, (hd ls None), (info h').
  assert (Hagree : ∀ k nd, h !! k = Some nd → info h' !! k = Some (nval nd, match_ nd, nid nd)).
  { intros k nd Hk. rewrite Hinf. unfold info. rewrite list_lookup_fmap, lookup_app_l, Hk;
      [done|by eapply lookup_lt_Some]. }
  pose proof (entries_history es n Hes h Hnodes (info h') Hagree) as Hh.
  split_and!; [done..|]. intros kill fuel Hf. unfold checkSingle, startSearch.
  rewrite (lengthFrom_spec h None ls) by (try done; unfold ls; rewrite locs_length; lia).
  cbn [obind]. fold hdn. rewrite Hi. cbn [obind].
  assert (zlen ls / 2 = n) as ->.
  { unfold zlen, ls. rewrite locs_length. pose proof (eo_length _ _ Hes) as E. unfold zlen in E.
    rewrite E. rewrite (Z.mul_comm 2). by apply Z.div_mul. }
  pose proof (newBitset_length n Hn) as Hnb.
  assert (Hrem : remaining (info h') ls (newBitset n) = ls).
  { unfold remaining. generalize ls. intros L. clear. induction L as [|l L IH]; [done|].
    rewrite filter_cons_True by apply newBitset_bit. by rewrite IH. }
  apply (checkLoop_ok step equal (info h') init equal_sound ls n Hh (length h))
    with (nb := length (newBitset n)) (w := left_work (info h') ls (newBitset n) 0).
  - unfold ls. rewrite locs_elem. lia.
  - unfold zlen in Hnb. lia.
  - exists 0%nat, [], 0%nat. simpl. rewrite Hrem. split_and!; try done.
    + unfold valid. by rewrite Hrem.
    + by destruct ls.
    + destruct ls; [by right|left; simpl; lia].
    + intros q e Hq. lia.
    + by constructor.
  - unfold left_work. rewrite Hrem. unfold ls. rewrite locs_length, Nat.sub_0_r.
    unfold passes in Hf. lia.
Qed.
End Single.

(** ** Histories of operations *)

Section Operations.
Context {In Out St : Type} (step : St → In → Out → bool * St) (init : St).
Context `{sorter : !SortByTime In Out}.
Notation entry := (entry In Out).
Notation Operation := (Operation In Out).
Implicit Types (history : list Operation).

(** The model accepts the operations [π] from state [s], in this order. *)
Fixpoint op_legal history (s : St) (π : list Z) : Prop :=
  match π with
  | [] => True
  | i :: π => ∃ op s', 0 ≤ i ∧ history !! Z.to_nat i = Some op ∧
      step s (Input op) (Output op) = (true, s') ∧ op_legal history s' π
  end.

(** Linearizability: an order of the operations that respects the times and
    that the model accepts. *)
Definition linearizable history : Prop :=
  ∃ π, π ≡ₚ seqZ 0 (zlen history) ∧
    (∀ a b opa opb, history !! a = Some opa → history !! b = Some opb →
       Return opa < Call opb → before π (Z.of_nat a) (Z.of_nat b)) ∧
    op_legal history init π.

(** Operations take time, and no two of the times in the history are equal. *)
Definition times_ok history : Prop :=
  (∀ op, op ∈ history → Call op < Return op) ∧ NoDup (time <$> pairEntries history 0).

Definition callOf (i : Z) (op : Operation) : entry := mkEntry callEntry (inl (Input op)) i (Call op).
Definition returnOf (i : Z) (op : Operation) : entry := mkEntry returnEntry (inr (Output op)) i (Return op).

Lemma pair_elem history i0 x :
  x ∈ pairEntries history i0 ↔
  ∃ j op, history !! j = Some op ∧ (x = callOf (i0 + Z.of_nat j) op ∨ x = returnOf (i0 + Z.of_nat j) op).
Proof.
  revert i0. induction history as [|op history IH]; intros i0; simpl.
  { split; [set_solver|]. intros (j & op & Hj & _). by rewrite lookup_nil in Hj. }
  rewrite !elem_of_cons, IH. split.
  - intros [->|[->|(j & op' & Hj & Hx)]].
    + exists 0%nat, op. split; [done|]. left. unfold callOf. f_equal. lia.
    + exists 0%nat, op. split; [done|]. right. unfold returnOf. f_equal. lia.
    + exists (S j), op'. split; [done|]. by replace (i0 + Z.of_nat (S j)) with (i0 + 1 + Z.of_nat j) by lia.
  - intros ([|j] & op' & Hj & Hx); simpl in Hj.
    + simplify_eq. rewrite Z.add_0_r in Hx. tauto.
    + right. right. exists j, op'. split; [done|].
      by replace (i0 + Z.of_nat (S j)) with (i0 + 1 + Z.of_nat j) in Hx by lia.
Qed.

Lemma pair_keys history i0 : NoDup (keys (pairEntries history i0)).
Proof.
  revert i0. induction history as [|op history IH]; intros i0; simpl; [constructor|].
  assert (Hge : ∀ k, (k, i0) ∉ keys (pairEntries history (i0 + 1))).
  { intros k (x & E & Hx)%list_elem_of_fmap. apply pair_elem in Hx as (j & op' & _ & [-> | ->]);
      simplify_eq/=; lia. }
  constructor; [|constructor; [apply Hge|apply IH]].
  rewrite not_elem_of_cons. split; [done|apply Hge].
Qed.

Lemma pair_length history i0 : length (pairEntries history i0) = (2 * length history)%nat.
Proof. revert i0. induction history as [|op history IH]; intros i0; simpl; [done|]. rewrite IH. lia. Qed.

(** In a list sorted by time, the order is that of the times. *)
Lemma sorted_before (es : list entry) x y :
  StronglySorted byTime es → NoDup (time <$> es) → x ∈ es → y ∈ es →
  before es x y ↔ time x < time y.
Proof.
  induction es as [|z es IH]; intros Hs Hnd Hx Hy; [set_solver|].
  apply StronglySorted_inv in Hs as [Hs Hz]. rewrite Forall_forall in Hz.
  rewrite fmap_cons in Hnd. apply NoDup_cons in Hnd as [Hzn Hnd]. simpl.
  assert (Hlt : ∀ y, y ∈ es → time z < time y).
  { intros y' Hy'. specialize (Hz y' Hy'). unfold byTime in Hz.
    assert (time z ≠ time y'); [|lia]. intros E. apply Hzn. rewrite E. by apply list_elem_of_fmap_2. }
  apply elem_of_cons in Hx as [->|Hx]; apply elem_of_cons in Hy as [->|Hy].
  - split; [|lia]. intros [[_ Hin]|[Hin _]%before_elem]; specialize (Hlt _ Hin); lia.
  - split; [|by left]. intros _. by apply Hlt.
  - split; [|specialize (Hlt x Hx); lia].
    intros [[-> Hin]|[_ Hin]%before_elem]; specialize (Hlt _ Hin); lia.
  - rewrite <-(IH Hs Hnd Hx Hy). split; [|by right]. intros [[-> _]|?]; [|done].
    specialize (Hlt x Hx). lia.
Qed.

Section Fixed.
Context (history : list Operation) (Ht : times_ok history).
Notation es := (makeEntries history).

Lemma entries_elem x : x ∈ es ↔
  ∃ j op, history !! j = Some op ∧ (x = callOf (Z.of_nat j) op ∨ x = returnOf (Z.of_nat j) op).
Proof. unfold makeEntries. rewrite sortByTime_perm. apply (pair_elem history 0). Qed.

Lemma entries_before x y : x ∈ es → y ∈ es → before es x y ↔ time x < time y.
Proof.
  apply sorted_before.
  - apply Sorted_StronglySorted; [intros ???; unfold byTime; lia|]. apply sortByTime_sorted.
  - unfold makeEntries. rewrite sortByTime_perm. apply Ht.
Qed.

Lemma makeEntries_ok : entries_ok es (zlen history).
Proof.
  split.
  - unfold makeEntries. rewrite sortByTime_perm. apply pair_keys.
  - intros i Hi. unfold zlen in Hi. destruct (lookup_lt_is_Some_2 history (Z.to_nat i)) as [op Hop]; [lia|].
    exists (callOf i op), (returnOf i op), (Input op), (Output op). split_and!; try done.
    assert (callOf i op ∈ es ∧ returnOf i op ∈ es) as [Hc Hr].
    { split; apply entries_elem; exists (Z.to_nat i), op; rewrite Z2Nat.id by lia; tauto. }
    apply entries_before; [done..|]. simpl. apply Ht. by eapply list_elem_of_lookup_2.
  - intros x (j & op & Hj & Hx)%entries_elem. apply lookup_lt_Some in Hj. unfold zlen.
    destruct Hx as [-> | ->]; simpl; lia.
  - unfold makeEntries, zlen. rewrite (Permutation_length (sortByTime_perm _)), pair_length. lia.
Qed.

(** The nodes of the linked list and the operations. *)
Context (h : list (node In Out)) (inf : list (option (In + Out) * option nat * Z)).
Context (Hnodes : nodes_ok (reverse es) h).
Context (Hinf : ∀ k nd, h !! k = Some nd → inf !! k = Some (nval nd, match_ nd, nid nd)).
Notation L0 := (locs (length es)).

Lemma node_entry l x :
  reverse es !! l = Some x →
  (l < length es)%nat ∧ vl inf l = Some (value x) ∧ idn inf l = id x ∧ x ∈ es ∧
  (mt inf l ≠ None ↔ kind x = callEntry).
Proof.
  intros Hx. pose proof (lookup_lt_Some _ _ _ Hx) as Hl. rewrite length_reverse in Hl.
  destruct (entry_node es _ makeEntries_ok h Hnodes inf l Hinf Hl) as (x' & Hx' & Hv & Hid & _ & Hr & Hc).
  simplify_eq. split_and!; [done..| |].
  - rewrite <-(reverse_Permutation es). by eapply list_elem_of_lookup_2.
  - destruct (kind x) eqn:Hk; split; try done.
    + intros _. destruct (Hc eq_refl) as (m & y & -> & _). done.
    + intros Hm. by rewrite Hr in Hm.
Qed.

(** The call and the return of operation [i]. *)
Lemma op_nodes i op :
  history !! i = Some op →
  ∃ e m, e ∈ L0 ∧ mt inf e = Some m ∧ idn inf e = Z.of_nat i ∧
    reverse es !! e = Some (callOf (Z.of_nat i) op) ∧ reverse es !! m = Some (returnOf (Z.of_nat i) op).
Proof.
  intros Hi. assert (callOf (Z.of_nat i) op ∈ es) as Hc by (apply entries_elem; eauto).
  rewrite <-(reverse_Permutation es) in Hc. apply list_elem_of_lookup in Hc as [e He].
  assert (returnOf (Z.of_nat i) op ∈ es) as Hr by (apply entries_elem; eauto).
  rewrite <-(reverse_Permutation es) in Hr. apply list_elem_of_lookup in Hr as [m Hm].
  destruct (node_entry e _ He) as (Hlt & _ & Hid & _).
  destruct (entry_node es _ makeEntries_ok h Hnodes inf e Hinf Hlt) as (x' & Hx' & _ & _ & _ & _ & Hcall).
  simplify_eq. destruct (Hcall eq_refl) as (m' & y & Hm' & _ & Hy & Hky & Hiy).
  assert (m' = m) as -> by (eapply (rev_keys es _ makeEntries_ok); eauto).
  exists e, m. split_and!; try done. by apply locs_elem.
Qed.

Lemma call_node e m :
  e ∈ L0 → mt inf e = Some m → ∃ i op, history !! i = Some op ∧
    idn inf e = Z.of_nat i ∧ reverse es !! e = Some (callOf (Z.of_nat i) op) ∧
    reverse es !! m = Some (returnOf (Z.of_nat i) op).
Proof.
  intros He%locs_elem Hm. destruct (lookup_lt_is_Some_2 (reverse es) e) as [x Hx]; [by rewrite length_reverse|].
  destruct (node_entry e x Hx) as (_ & _ & Hid & Hin & Hk).
  assert (kind x = callEntry) as Hkx by (apply Hk; congruence).
  apply entries_elem in Hin as (i & op & Hi & [-> | ->]); [|done].
  destruct (op_nodes i op Hi) as (e' & m' & He' & Hm' & _ & Hc' & Hr').
  assert (e' = e) as -> by (eapply (rev_keys es _ makeEntries_ok); eauto).
  simplify_eq. by exists i, op.
Qed.

Lemma locs_entries_before l l' x x' :
  reverse es !! l = Some x → reverse es !! l' = Some x' → before L0 l l' ↔ time x < time x'.
Proof.
  intros Hx Hx'. destruct (node_entry l x Hx) as (Hl & _ & _ & Hin & _).
  destruct (node_entry l' x' Hx') as (Hl' & _ & _ & Hin' & _).
  rewrite <-entries_before by done. rewrite locs_before.
  rewrite reverse_lookup in Hx, Hx' by done.
  assert (Hnd : NoDup es) by (eapply NoDup_fmap_1, (eo_nodup _ _ makeEntries_ok)).
  rewrite (before_lookup _ _ x x' Hnd Hx'). split.
  - intros ?. exists (length es - S l)%nat. split; [lia|done].
  - intros (q & Hq & Hqx). assert (q = (length es - S l)%nat) by (by eapply NoDup_lookup). lia.
Qed.

Lemma legal_ops s π : legal step inf L0 s π ↔ op_legal history s π.
Proof.
  revert s. induction π as [|i π IH]; intros s; [done|]. simpl. split.
  - intros (e & m & inp & out & s' & He & Hm & Hid & Hi & Ho & Hstep & Hl).
    destruct (call_node e m He Hm) as (j & op & Hj & Hidj & Hce & Hrm).
    destruct (node_entry e _ Hce) as (_ & Hv & _). destruct (node_entry m _ Hrm) as (_ & Hvm & _).
    simplify_eq/=. exists op, s'. rewrite Hidj, Nat2Z.id. split_and!; [lia|done..|by apply IH].
  - intros (op & s' & Hi & Hop & Hstep & Hl).
    destruct (op_nodes (Z.to_nat i) op Hop) as (e & m & He & Hm & Hid & Hce & Hrm).
    destruct (node_entry e _ Hce) as (_ & Hv & _). destruct (node_entry m _ Hrm) as (_ & Hvm & _).
    exists e, m, (Input op), (Output op), s'. rewrite Z2Nat.id in Hid by done.
    split_and!; try done. by apply IH.
Qed.

Lemma calls_ids :
  idn inf <$> filter (is_call inf) L0 ≡ₚ seqZ 0 (zlen history).
Proof.
  pose proof (entries_history es _ makeEntries_ok h Hnodes inf Hinf) as Hh.
  apply NoDup_Permutation.
  - apply NoDup_fmap_2_strong; [|apply NoDup_filter, locs_nodup].
    intros e e' [Hc He]%list_elem_of_filter [Hc' He']%list_elem_of_filter E. by apply (ho_id _ _ _ Hh).
  - apply NoDup_seqZ.
  - intros i. rewrite elem_of_seqZ. split.
    + intros (e & -> & [_ He]%list_elem_of_filter)%list_elem_of_fmap.
      pose proof (ho_range _ _ _ Hh e He). lia.
    + intros Hi. unfold zlen in Hi. destruct (lookup_lt_is_Some_2 history (Z.to_nat i)) as [op Hop]; [lia|].
      destruct (op_nodes _ op Hop) as (e & m & He & Hm & Hid & _).
      apply list_elem_of_fmap. exists e. split; [rewrite Hid; lia|].
      apply list_elem_of_filter. split; [unfold is_call; congruence|done].
Qed.

Lemma linearization_ops π :
  linearization step inf L0 L0 init π ↔
  π ≡ₚ seqZ 0 (zlen history) ∧
  (∀ a b opa opb, history !! a = Some opa → history !! b = Some opb →
     Return opa < Call opb → before π (Z.of_nat a) (Z.of_nat b)) ∧
  op_legal history init π.
Proof.
  unfold linearization. rewrite legal_ops, calls_ids. split; intros (Hp & Hr & Hl); split_and!; try done.
  - intros a b opa opb Ha Hb Hlt. destruct (op_nodes a opa Ha) as (e & m & He & Hm & Hid & _ & Hrm).
    destruct (op_nodes b opb Hb) as (e' & m' & He' & Hm' & Hid' & Hce' & _).
    rewrite <-Hid, <-Hid'. apply (Hr e e' m); try done; [unfold is_call; congruence|].
    by apply (locs_entries_before _ _ _ _ Hrm Hce').
  - intros e e' m He He' Hm Hc' Hb. unfold is_call in Hc'. destruct (mt inf e') as [m'|] eqn:Hm'; [|done].
    destruct (call_node e m He Hm) as (a & opa & Ha & -> & _ & Hrm).
    destruct (call_node e' m' He' Hm') as (b & opb & Hob & -> & Hce' & _).
    apply (Hr a b opa opb); try done. by apply (locs_entries_before _ _ _ _ Hrm Hce') in Hb.
Qed.
End Fixed.

Lemma checkSingle_decides (equal : St → St → bool) history :
  (∀ a b, equal a b = true → a = b) → times_ok history →
  ∃ h root, makeLinkedEntries (makeEntries history) = Some (h, root) ∧
    ∀ kill fuel, (passes (2 * length history) ≤ fuel)%nat →
      ∃ a, checkSingle step equal init kill fuel h root = Done a ∧
        (a = true → linearizable history) ∧
        ((∀ j, kill j = false) → linearizable history → a = true).
Proof.
  intros Heq Ht. pose proof (makeEntries_ok history Ht) as Hes.
  destruct (checkSingle_entries step equal init Heq _ _ Hes) as (h & root & inf & Hl & Hn & Hi & Hh & Hc).
  { apply zlen_nonneg. }
  assert (Hlen : length (makeEntries history) = (2 * length history)%nat).
  { pose proof (eo_length _ _ Hes) as E. unfold zlen in E. lia. }
  assert (Hlin : Lin step inf (locs (length (makeEntries history))) init ↔ linearizable history).
  { rewrite (Lin_iff step inf _ _ Hh). unfold linearizable.
    split; intros [π Hπ]; exists π; by apply (linearization_ops history Ht h inf Hn Hi). }
  exists h, root. split; [done|]. intros kill fuel Hf. rewrite <-Hlen in Hf.
  destruct (Hc kill fuel Hf) as (a & Ha & H1 & H2). exists a. split_and!; [done| |].
  - intros E. by apply Hlin, H1.
  - intros Hk HL. destruct a; [done|]. exfalso. apply (H2 Hk eq_refl). by apply Hlin.
Qed.
(** C3: On a history whose operations take time and whose times differ,
    checkSingle ends within the given number of passes without a panic, and,
    unless it is killed, answers true exactly when the history is
    linearizable; a killed run may only answer false instead. The model's Equal is assumed to hold of
    equal states only. *)
Theorem check_single_decides (equal : St → St → bool) history :
  (∀ a b, equal a b = true → a = b) → times_ok history →
  ∃ h root, makeLinkedEntries (makeEntries history) = Some (h, root) ∧
    ∀ kill fuel, (passes (2 * length history) ≤ fuel)%nat →
      ∃ a, checkSingle step equal init kill fuel h root = Done a ∧
        (a = true → linearizable history) ∧
        ((∀ j, kill j = false) → linearizable history → a = true).
Proof. apply checkSingle_decides. Qed.
End Operations.
