(* ===== verification/LinModels.v ===== *)
(** * Models and whole histories: linearizability/models.go and the entry
      points of linearizability.go

    CheckOperations splits a history into partitions, checks each in a
    goroutine and combines the answers in the order in which they arrive. The
    key-value model is the one the tests of the key-value servers use. *)

From S2P Require Import Prelude Bitset Linearizability LinHeap LinSearch LinOrder LinEntries LinTheorems.

(** ** CheckOperations *)

Section Check.
Context {In Out St : Type} `{EqDecision St} `{sorter : !SortByTime In Out}.
Notation Operation := (Operation In Out).
Notation Event := (Event In Out).
Notation Model := (Model In Out St).

Definition fillDefault (model : Model) : Model :=
  mkModel
    (Some (default NoPartition (Partition model)))
    (Some (default NoPartitionEvent (PartitionEvent model)))
    (Init model) (Step model)
    (Some (default ShallowEqual (Equal model))).

(** What the [select] of lines 254-267 receives. *)
Inductive Arrival := Got (result : bool) | TimedOut.

(** The loop of lines 251-268 with [total] partitions; [None] when it waits for
    more. *)
Fixpoint awaitResults (total count : Z) (ok : bool) (arrivals : list Arrival) : option bool :=
  match arrivals with
  | [] => None
  | TimedOut :: _ => Some ok
  | Got result :: arrivals =>
      let ok := ok && result in
      if negb ok then Some ok
      else
        let count := count + 1 in
        if decide (count >= total) then Some ok else awaitResults total count ok arrivals
  end.

(** The answer of the goroutine for one partition, [fuel] passes at most. *)
Definition answer (model : Model) (fuel : nat) (es : list (entry In Out)) : option bool :=
  let* '(h, root) := makeLinkedEntries es in
  match checkSingle (Step model) (default ShallowEqual (Equal model)) (Init model)
          (λ _, false) fuel h root with
  | Done a => Some a
  | _ => None
  end.

(** The goroutines send in the order [order] of partitions. *)
Definition CheckOperations (model : Model) (fuel : nat) (order : list nat) (history : list Operation)
    : option bool :=
  let model := fillDefault model in
  let partitions := default NoPartition (Partition model) history in
  let* answers := mapM (λ sub, answer model fuel (makeEntries sub)) partitions in
  let* arrivals := mapM (λ k, Got <$> answers !! k) order in
  awaitResults (zlen partitions) 0 true arrivals.

Definition CheckEvents (model : Model) (fuel : nat) (order : list nat) (history : list Event)
    : option bool :=
  let model := fillDefault model in
  let partitions := default NoPartitionEvent (PartitionEvent model) history in
  let* answers := mapM (λ sub, answer model fuel (convertEntries (renumber sub))) partitions in
  let* arrivals := mapM (λ k, Got <$> answers !! k) order in
  awaitResults (zlen partitions) 0 true arrivals.

(** ** The combination of the answers *)

Lemma awaitResults_spec rs total count :
  rs ≠ [] → total = count + zlen rs →
  awaitResults total count true (Got <$> rs) = Some (forallb (λ r, r) rs).
Proof.
  revert count. induction rs as [|r rs IH]; intros count Hne Htot; [done|]. simpl.
  destruct r; simpl; [|done]. destruct rs as [|r' rs].
  - rewrite decide_True; [done|]. unfold zlen in Htot. simpl in Htot. lia.
  - rewrite decide_False by (unfold zlen in Htot; simpl in Htot; lia).
    apply IH; [done|]. unfold zlen in *. simpl in *. lia.
Qed.

Lemma combine_answers (rs : list bool) order :
  rs ≠ [] → order ≡ₚ seq 0 (length rs) →
  ∃ arrivals, mapM (λ k, Got <$> rs !! k) order = Some arrivals ∧
    awaitResults (zlen rs) 0 true arrivals = Some (forallb (λ r, r) rs).
Proof.
  intros Hne Ho. set (rs' := (λ k, default false (rs !! k)) <$> order).
  assert (Hperm : rs' ≡ₚ rs).
  { unfold rs'. rewrite Ho. apply reflexive_eq. clear.
    apply list_eq. intros i. rewrite list_lookup_fmap.
    destruct (decide (i < length rs)%nat) as [Hi|Hi].
    - rewrite lookup_seq_lt by done. simpl. destruct (lookup_lt_is_Some_2 rs i Hi) as [r ->]. done.
    - rewrite lookup_seq_ge by lia. simpl. symmetry. apply lookup_ge_None. lia. }
  exists (Got <$> rs'). split.
  - apply mapM_Some, Forall2_fmap_r. unfold rs'. apply Forall2_fmap_r, Forall_Forall2_diag, Forall_forall.
    intros k Hk. rewrite Ho, elem_of_seq in Hk. destruct (lookup_lt_is_Some_2 rs k) as [r Hr]; [lia|].
    simpl. rewrite Hr. reflexivity.
  - rewrite awaitResults_spec.
    + f_equal. apply Bool.eq_true_iff_eq. rewrite !forallb_forall.
      split; intros Hall r Hr; apply Hall; apply list_elem_of_In in Hr; apply list_elem_of_In;
        [by rewrite Hperm|by rewrite <-Hperm].
    + intros E. rewrite E in Hperm. by apply Permutation_nil_l in Hperm.
    + unfold zlen. rewrite (Permutation_length Hperm). lia.
Qed.

Lemma answer_spec (model : Model) fuel (sub : list Operation) :
  (∀ a b, default ShallowEqual (Equal model) a b = true → a = b) → times_ok sub →
  (passes (2 * length sub) ≤ fuel)%nat →
  ∃ a, answer model fuel (makeEntries sub) = Some a ∧
    (a = true ↔ linearizable (Step model) (Init model) sub).
Proof.
  intros Heq Ht Hf.
  destruct (checkSingle_decides (Step model) (Init model) _ sub Heq Ht) as (h & root & Hl & Hc).
  unfold answer. rewrite Hl. simpl.
  destruct (Hc (λ _, false) fuel Hf) as (a & -> & H1 & H2). exists a. split; [done|].
  split; [done|]. by apply H2.
Qed.
End Check.

(** ** The key-value model *)

Record KvInput := mkKvInput { Op : Z; KvKey : string; KvValue : string }.
Record KvOutput := mkKvOutput { OutValue : string }.

Notation KvOperation := (Operation KvInput KvOutput).

(** [Op] 0 is get, 1 is put, anything else append. *)
Definition kvStep (state : string) (inp : KvInput) (out : KvOutput) : bool * string :=
  if decide (Op inp = 0) then (bool_decide (OutValue out = state), state)
  else if decide (Op inp = 1) then (true, KvValue inp)
  else (true, state +:+ KvValue inp).

Definition keyOf (v : KvOperation) : string := KvKey (Input v).

Definition partitionMap (history : list KvOperation) : gmap string (list KvOperation) :=
  foldl (λ m v, <[keyOf v := default [] (m !! keyOf v) ++ [v]]> m) ∅ history.

Section Kv.
Context `{range : !MapRange} `{sorter : !SortByTime KvInput KvOutput}.

Definition kvPartition (history : list KvOperation) : list (list KvOperation) :=
  snd <$> rangeMap (partitionMap history).

Definition KvModel : Model KvInput KvOutput string :=
  mkModel (Some kvPartition) None "" kvStep (Some ShallowEqual).

(** The operations on one key. *)
Definition onKey (k : string) (history : list KvOperation) : list KvOperation :=
  filter (λ v, keyOf v = k) history.

Lemma partitionMap_lookup history k :
  partitionMap history !! k =
    (if decide (onKey k history = []) then None else Some (onKey k history)).
Proof.
  induction history as [|v history IH] using rev_ind; [done|].
  unfold partitionMap. rewrite foldl_app. fold (partitionMap history). simpl.
  unfold onKey in *. rewrite filter_app. destruct (decide (keyOf v = k)) as [<-|Hne].
  - rewrite lookup_insert_eq, IH. rewrite (filter_cons_True _ v) by done.
    rewrite (decide_False (P:=_ ++ _ = [])) by (by destruct (filter _ history)).
    f_equal. case_decide as E; [by rewrite E|done].
  - rewrite lookup_insert_ne, IH by done. rewrite (filter_cons_False _ v) by done.
    change (filter (λ v0, keyOf v0 = k) []) with ([] : list KvOperation). by rewrite app_nil_r.
Qed.

Lemma kvPartition_elem history sub :
  sub ∈ kvPartition history ↔ ∃ k, sub = onKey k history ∧ sub ≠ [].
Proof.
  unfold kvPartition. rewrite list_elem_of_fmap. setoid_rewrite rangeMap_perm.
  setoid_rewrite elem_of_map_to_list'. split.
  - intros ([k s] & -> & Hk). simpl in *. rewrite partitionMap_lookup in Hk.
    case_decide; [done|]. simplify_eq. eauto.
  - intros (k & -> & Hne). exists (k, onKey k history). simpl. split; [done|].
    by rewrite partitionMap_lookup, decide_False.
Qed.

Lemma kvPartition_nonempty history : history ≠ [] → kvPartition history ≠ [].
Proof.
  intros Hne E. destruct history as [|v history]; [done|].
  assert (onKey (keyOf v) (v :: history) ∈ kvPartition (v :: history)) as Hin.
  { apply kvPartition_elem. exists (keyOf v). split; [done|]. unfold onKey.
    by rewrite filter_cons_True. }
  rewrite E in Hin. set_solver.
Qed.

Lemma pair_times history i : time <$> pairEntries history i = history ≫= (λ op : KvOperation, [Call op; Return op]).
Proof. revert i. induction history as [|op history IH]; intros i; simpl; [done|]. do 2 f_equal. apply IH. Qed.

Lemma times_ok_onKey k history : times_ok history → times_ok (onKey k history).
Proof.
  intros [Hlt Hnd]. split.
  - intros op [_ Hin]%list_elem_of_filter. by apply Hlt.
  - rewrite pair_times in *. apply (sublist_NoDup _ (history ≫= λ op, [Call op; Return op])); [done|].
    apply bind_sublist, sublist_filter.
Qed.

Lemma work_mono k k' : (k ≤ k')%nat → (work k ≤ work k')%nat.
Proof.
  intros Hle. induction Hle as [|k' Hle IH]; [done|]. etrans; [exact IH|].
  destruct k'; simpl; [lia|]. nia.
Qed.

Lemma passes_mono k k' : (k ≤ k')%nat → (passes k ≤ passes k')%nat.
Proof.
  intros Hle. unfold passes.
  assert (work (Nat.div2 k) ≤ work (Nat.div2 k'))%nat by (apply work_mono; rewrite !Nat.div2_div; by apply Nat.Div0.div_le_mono).
  assert (k * work (Nat.div2 k) ≤ k' * work (Nat.div2 k'))%nat by (by apply Nat.mul_le_mono). lia.
Qed.

Lemma CheckOperations_spec fuel order history :
  times_ok history → history ≠ [] → order ≡ₚ seq 0 (length (kvPartition history)) →
  (passes (2 * length history) ≤ fuel)%nat →
  ∃ a, CheckOperations KvModel fuel order history = Some a ∧
    (a = true ↔ ∀ k, linearizable kvStep "" (onKey k history)).
Proof.
  intros Ht Hne Ho Hf. unfold CheckOperations. simpl.
  assert (Hall : ∀ sub, sub ∈ kvPartition history →
    ∃ a, answer (fillDefault KvModel) fuel (makeEntries sub) = Some a ∧
      (a = true ↔ linearizable kvStep "" sub)).
  { intros sub (k & -> & _)%kvPartition_elem. apply (answer_spec (fillDefault KvModel)).
    - simpl. unfold ShallowEqual. intros a b. apply bool_decide_eq_true_1.
    - by apply times_ok_onKey.
    - etrans; [|exact Hf]. apply passes_mono. unfold onKey.
      pose proof (length_filter (λ v, keyOf v = k) history). lia. }
  assert (∃ rs, mapM (λ sub, answer (fillDefault KvModel) fuel (makeEntries sub)) (kvPartition history) =
      Some rs ∧ length rs = length (kvPartition history) ∧
      (forallb (λ r, r) rs = true ↔ Forall (linearizable kvStep "") (kvPartition history)))
    as (rs & Hrs & Hlen & Hfor).
  { clear Ho. induction (kvPartition history) as [|sub parts IH]; [exists []; split_and!; naive_solver|].
    destruct IH as (rs & Hrs & Hlen & Hfor); [set_solver|]. destruct (Hall sub) as (a & Ha & Hiff); [set_solver|].
    exists (a :: rs). split_and!; [|simpl; congruence|].
    - apply mapM_Some. constructor; [done|]. by apply mapM_Some.
    - simpl. rewrite andb_true_iff, Forall_cons, Hiff, Hfor. done. }
  rewrite <-Hlen in Ho. unfold zlen. rewrite <-Hlen.
  destruct (combine_answers rs order) as (arr & Harr & Haw); [|done|].
  { intros ->. apply (kvPartition_nonempty history Hne). by apply nil_length_inv. }
  exists (forallb (λ r, r) rs). split.
  - apply obind_Some. exists rs. split; [exact Hrs|]. apply obind_Some. exists arr. done.
  - rewrite Hfor, Forall_forall. split.
    + intros Hl k. destruct (decide (onKey k history = [])) as [->|Hk].
      * exists []. split_and!; [done| |done]. intros a b opa opb Ha. by rewrite lookup_nil in Ha.
      * apply Hl, kvPartition_elem. eauto.
    + intros Hl sub (k & -> & _)%kvPartition_elem. apply Hl.
Qed.

(** C19: CheckOperations on the key-value model, without a timeout, answers for every
    non-empty history in which each operation returns after it was called and all times
    are distinct, whatever the order in which the goroutines finish and the maps are
    iterated, and the answer is true exactly when the operations on every key are
    linearizable. The search ends within the bound given by the length of the history. *)
Theorem check_operations_kv fuel order history :
  times_ok history → history ≠ [] → order ≡ₚ seq 0 (length (kvPartition history)) →
  (passes (2 * length history) ≤ fuel)%nat →
  ∃ a, CheckOperations KvModel fuel order history = Some a ∧
    (a = true ↔ ∀ k, linearizable kvStep "" (onKey k history)).
Proof. apply CheckOperations_spec. Qed.

(** On the empty history there is no partition to wait for, and the loop waits
    for ever. *)
Theorem kv_empty_history_blocks fuel : CheckOperations KvModel fuel [] [] = None.
Proof.
  unfold CheckOperations. simpl. assert (kvPartition [] = []) as ->; [|done].
  destruct (kvPartition []) as [|sub l] eqn:E; [done|].
  assert (sub ∈ kvPartition []) as (k & Hs & Hne)%kvPartition_elem by (rewrite E; set_solver).
  by rewrite Hs in Hne.
Qed.
End Kv.

(** ** renumber *)

Section Renumber.
Context {In Out : Type}.
Implicit Types (events : list (Event In Out)).

(** The map of the loop: the ids seen so far get the numbers below [id], each
    its own. *)
Definition numbering (m : gmap Z Z) (id : Z) : Prop :=
  (∀ i r, m !! i = Some r → 0 ≤ r < id) ∧ (∀ i j r, m !! i = Some r → m !! j = Some r → i = j).

Lemma renumberLoop_spec events m id :
  0 ≤ id → numbering m id →
  ∃ m' id', m ⊆ m' ∧ id ≤ id' ∧ numbering m' id' ∧
    Forall2 (λ v v', Kind v' = Kind v ∧ Value v' = Value v ∧ m' !! Id v = Some (Id v'))
      events (renumberLoop events m id).
Proof.
  revert m id. induction events as [|v events IH]; intros m id Hid Hm; simpl.
  { exists m, id. split_and!; [done|lia|done|constructor]. }
  destruct (m !! Id v) as [r|] eqn:E.
  - destruct (IH m id Hid Hm) as (m' & id' & Hsub & ? & ? & Hall). exists m', id'.
    split_and!; [done..|]. constructor; [|done]. split_and!; [done|done|]. by apply (lookup_weaken _ _ _ _ E).
  - destruct (IH (<[Id v := id]> m) (id + 1)) as (m' & id' & Hsub & ? & ? & Hall); [lia| |].
    { destruct Hm as [Hr Hinj]. split.
      - intros i r [[<- <-]|[_ Hi]]%lookup_insert_Some; [lia|]. specialize (Hr i r Hi). lia.
      - intros i j r [[<- <-]|[Hne Hi]]%lookup_insert_Some [[<- E']|[Hne' Hj]]%lookup_insert_Some.
        + done.
        + destruct (Hr _ _ Hj). lia.
        + subst. destruct (Hr _ _ Hi). lia.
        + by eapply Hinj. }
    exists m', id'. split_and!; [|lia|done|].
    + etrans; [|exact Hsub]. by apply insert_subseteq.
    + constructor; [|done]. split_and!; [done|done|]. eapply lookup_weaken; [|exact Hsub].
      by rewrite lookup_insert_eq.
Qed.

(** Renumber keeps kinds, values and which events belong together: two
    events have one id afterwards exactly when they had one before. *)
Theorem renumber_faithful events j k v w :
  events !! j = Some v → events !! k = Some w →
  ∃ v' w', renumber events !! j = Some v' ∧ renumber events !! k = Some w' ∧
    Kind v' = Kind v ∧ Value v' = Value v ∧ 0 ≤ Id v' ∧
    (Id v' = Id w' ↔ Id v = Id w).
Proof.
  intros Hj Hk. destruct (renumberLoop_spec events ∅ 0) as (m & id & _ & _ & [Hr Hinj] & Hall); [lia| |].
  { split; [intros i r Hi; by rewrite lookup_empty in Hi|intros i ? r Hi; by rewrite lookup_empty in Hi]. }
  destruct (Forall2_lookup_l _ _ _ _ _ Hall Hj) as (v' & Hv' & Hkv & Hvv & Hmv).
  destruct (Forall2_lookup_l _ _ _ _ _ Hall Hk) as (w' & Hw' & _ & _ & Hmw).
  exists v', w'. split_and!; try done.
  - by destruct (Hr _ _ Hmv).
  - split; intros E; [rewrite E in Hmv; by eapply Hinj|]. rewrite E in Hmv. congruence.
Qed.
End Renumber.

(** ** Concrete histories *)

(** A get that overlaps a put and sees its value, and a get after both that
    does not. *)
Definition goodHistory : list KvOperation :=
  [mkOperation (mkKvInput 1 "x" "a") 0 (mkKvOutput "") 10;
   mkOperation (mkKvInput 0 "x" "") 5 (mkKvOutput "a") 15;
   mkOperation (mkKvInput 2 "y" "b") 6 (mkKvOutput "") 7].
Definition badHistory : list KvOperation :=
  goodHistory ++ [mkOperation (mkKvInput 0 "x" "") 20 (mkKvOutput "") 25].

Lemma badHistory_times : times_ok badHistory.
Proof.
  split; [|apply (bool_decide_unpack _); vm_compute; exact I].
  intros op Hop. repeat (apply elem_of_cons in Hop as [->|Hop]; [simpl; lia|]). set_solver.
Qed.
Lemma goodHistory_times : times_ok goodHistory.
Proof.
  split; [|apply (bool_decide_unpack _); vm_compute; exact I].
  intros op Hop. repeat (apply elem_of_cons in Hop as [->|Hop]; [simpl; lia|]). set_solver.
Qed.

(** The checker run on the first two operations proves them linearizable. *)
Lemma check_single_decides_witness :
  times_ok (onKey "x" goodHistory) ∧ linearizable kvStep "" (onKey "x" goodHistory).
Proof.
  split; [exact (times_ok_onKey "x" _ goodHistory_times)|].
  destruct (check_single_decides (sorter:=mergeSortByTime) kvStep "" ShallowEqual
    (onKey "x" goodHistory) (λ a b E, bool_decide_eq_true_1 (a = b) E)
    (times_ok_onKey "x" _ goodHistory_times)) as (h & root & Hl & Hc).
  destruct (Hc (λ _, false) 62%nat) as (a & Ha & Hs & _); [vm_compute; apply le_n|].
  apply Hs. vm_compute in Hl. injection Hl as <- <-. vm_compute in Ha. congruence.
Defined.

Lemma check_operations_kv_witness :
  ∃ a, CheckOperations (sorter:=mergeSortByTime) (KvModel (range:=listRange)) (passes 8)
      [1; 0]%nat badHistory = Some a ∧
    (a = true ↔ ∀ k, linearizable kvStep "" (onKey k badHistory)) ∧ a = false.
Proof.
  destruct (check_operations_kv (range:=listRange) (sorter:=mergeSortByTime) (passes 8) [1; 0]%nat
    badHistory badHistory_times) as (a & Ha & Hiff).
  - discriminate.
  - apply Permutation_swap.
  - apply le_n.
  - exists a. split; [exact Ha|]. split; [exact Hiff|].
    assert (E : CheckOperations (sorter:=mergeSortByTime) (KvModel (range:=listRange)) (passes 8)
      [1; 0]%nat badHistory = Some false) by (vm_compute; reflexivity).
    congruence.
Defined.

Lemma renumber_faithful_witness :
  let events := [mkEvent CallEvent (inl 5) 7; mkEvent CallEvent (inl 6) 3;
                 mkEvent ReturnEvent (inr 5) 3; mkEvent ReturnEvent (inr 6) 7] in
  Id <$> renumber events = [0; 1; 1; 0] ∧
  ∃ v' w', renumber events !! 0%nat = Some v' ∧ renumber events !! 3%nat = Some w' ∧ Id v' = Id w'.
Proof.
  intros events. split; [vm_compute; reflexivity|].
  destruct (renumber_faithful events 0 3 (mkEvent CallEvent (inl 5) 7) (mkEvent ReturnEvent (inr 6) 7)
    eq_refl eq_refl) as (v' & w' & Hv & Hw & _ & _ & _ & Hid).
  exists v', w'. split; [exact Hv|]. split; [exact Hw|]. apply Hid. reflexivity.
Defined.

(** Why the times have to be distinct: byTime has no rule for equal times, so a return may be sorted
    before a call of the same moment. A put that returns when a get is called, and a get
    that misses its value: the two may be ordered either way, and the answer is false. *)
Definition tiedHistory : list KvOperation :=
  [mkOperation (mkKvInput 1 "x" "a") 0 (mkKvOutput "") 10;
   mkOperation (mkKvInput 0 "x" "") 10 (mkKvOutput "") 15].

Theorem equal_times_refused :
  linearizable kvStep "" (onKey "x" tiedHistory) ∧
  CheckOperations (sorter:=mergeSortByTime) (KvModel (range:=listRange)) (passes 4) [0]%nat tiedHistory = Some false.
Proof.
  split; [|vm_compute; reflexivity].
  exists [1; 0]. split_and!; [apply Permutation_swap| |].
  - intros [|[|a]] [|[|b]] opa opb Ha Hb Hlt; simplify_eq/=; lia.
  - do 2 (eexists _, _; split_and!; [lia|reflexivity|reflexivity|]). exact I.
Qed.
